(* ===== verification/_CoqProject ===== *)
-Q . S2P
Prelude.v
Cstr.v
Lifecycle.v
Dag.v
Sched.v
Ring.v
Redact.v
Fmt.v
Sink.v
Trace.v
Result.v
Summary.v
Cbor.v
Positions.v
Strtod.v
LuaCbor.v
CborOk.v
LuaCborOk.v
Yaml.v
YamlSpec.v
YamlOk.v
YamlDoc.v
Job.v
Jobs.v
Engine.v
EngineOk.v
Send.v
Qwe.v
Run.v
RunOk.v
Output.v
Select.v
Validate.v
ValidateOk.v
LuaTable.v
Preamble.v
Base64.v
Envelope.v
Keyfile.v
Secrets.v
Cli.v
Exec.v
Files.v
Tables.v
Load.v
Proc.v
Child.v
Setup.v
Workflow.v
Own.v
Embed.v
Remote.v
Luavm.v
Oom.v
Alloc.v
