(* ===== verification/Prelude.v ===== *)
(** * qwe: a verification library of the workflow kernel

    qwe runs workflows: a YAML file declares jobs with [needs:] between them, each
    job a list of steps, each step a command or a plugin.  This library models the C
    code that does so (under [src/]) and proves it correct.  This file is its root:
    after this description it holds what every other file uses.

    ** The program and the files that model it

    - Reading a workflow.  [Load] follows a file from [read_file] to a checked
      workflow and its jobs ([load_workflow], [qwe_validate_workflow], the start of
      [qwe_run_workflow] in [kernel/workflow.c]).  On the way: [Yaml]
      ([edge/yaml/transcode.c]: events of libyaml to one CBOR item and a table of
      positions) with its specification [YamlSpec], the refinement [YamlOk] and the
      meaning of documents [YamlDoc]; [Positions] ([edge/yaml/positions.c]);
      [Cbor], [CborOk] (the calls of TinyCBOR); [LuaCbor], [LuaCborOk]
      ([kernel/luacbor.c]); [Strtod] (numbers in texts); [LuaTable] (how C reads a
      Lua value); [Tables] (which fields of the workflow are read); [Jobs]
      ([kernel/jobs.c]); [Validate], [ValidateOk] ([kernel/validate.c]); [Dag]
      ([kernel/dag.c]); [Select] (the choice of jobs and the note on disabled
      targets, in [kernel/workflow.c]).
    - Running it.  [Lifecycle] ([kernel/lifecycle.c], [lifecycle_model.c]: the table
      that decides every change of a job's state); [Job] (the data of
      [kernel/jobs.h] and [workflow.c], and the setting below); [Engine] (what the
      engine does to one job), [EngineOk] and [Send] (its invariant); [Sched]
      ([kernel/sched.c]); [Run] (the event loop, [run_all] and what is around it),
      [RunOk] (its theorems); [Remote] (what is asked of the ssh module); [Setup]
      (the run's directory, its paths, the grace period, the exit); [Workflow] (all of [qwe_run_workflow]: loading, selection,
      set-up, run and report composed, from the file to the exit code).
    - A step's process.  [Proc] ([kernel/proc.c]: descriptors over the fork, process
      groups); [Child] (what the child sends and execs, and what the parent
      understands); [Exec] ([kernel/luaexec.c]: commands a plugin runs); [Own]
      ([kernel/luaown.c]: buffers handed to Lua); [Files] ([kernel/luafs.c]);
      [Preamble] ([kernel/preamble.c] and the shell bootstrap that reads it).
    - A step's output.  [Ring] ([kernel/ring.c]), [Redact] ([kernel/redact.c]),
      [Sink] ([kernel/sink.c]), [Trace] ([kernel/trace.c]), [Result]
      ([kernel/result.c]), [Summary] ([kernel/summary.c]), [Fmt] ([kernel/fmt.h],
      [clock.h], [timer.c]); [Output] (redactor, ring and sink in a row: what a step's
      output becomes).
    - Secrets.  [Base64] (the codec of libsodium), [Envelope]
      ([secrets/envelope.c]), [Keyfile] ([secrets/keyfile.c]), [Secrets]
      ([cli/encrypt], [kernel/luasecrets.c]).
    - The command line.  [Cli] ([src/cli]), [Qwe] (the constants of [kernel/qwe.h]).
    - Building.  [Embed] ([tools/bcembed.c], which links Lua files as bytecode),
      [Luavm] ([kernel/luavm.c]: the modules that a Lua state can require).
    - Underneath.  [Alloc] ([kernel/alloc.c], [errstr.c]), [Oom] ([kernel/oom_shim.c]:
      the allocator of the tests, and why an answer list stands for it).
    - [Cstr] has the functions of the C library on strings.

    A definition has the name of the C function it translates; the parts of a long
    function have names of their own, said in its file.

    ** How the C code is modelled

    - A function returns [cres]: a value, undefined behaviour (an index outside an
      array, a cast out of range), an abort, or that its fuel ran out.  Theorems
      that say a function returns exclude the other three.
    - Integers are [Z] or [nat] with their width written out where it matters (the
      wrap of [unsigned], the clamps before a cast, [int] cut from [long]); doubles
      are [spec_float] or their 64 bits; bytes are lists of [ascii].
    - An allocation that can fail takes its answer from a list of booleans, in
      order, and succeeds when none is left; so do writes, reads, polls and waits
      with their own kinds of answers.  Every theorem is for every list.
    - The engine ([Engine], [Run]) is a state monad over the jobs and the shared
      context.  What comes from outside is an environment: a function from typed
      queries ([Job.query]) to answers with a state of its own.  The theorems of
      [RunOk] hold for every environment, of which only the tags [epoll_wait] can
      give are filtered (see [Run]) and the caps of the targets are assumed to be
      doubles.
    - Parameters, because they are not code of the kernel: the events of libyaml
      (a parser that ends its passes), the cipher of libsodium (its ciphertext is as
      long as the text and its tag; only what was encrypted is decrypted), what
      the Lua modules answer, how Lua writes and reads numbers, the descriptor
      [open] chooses (one that is free).  A theorem that uses such a hypothesis has
      an instance where it holds.

    ** What is proved

    - The run ([RunOk], [Sched], [Lifecycle], [Send]): it never aborts, never reads
      outside an array, ends every job with its steps' outcomes, starts a job only
      when its needs succeeded, stays within its limits; the lifecycle table follows
      the protocol of an independent monitor and its outcomes are those of the
      strongest trigger; a scheduling pass sends exactly the events it should and
      cannot deadlock.
    - All of it ([Workflow]): what [qwe run] leaves, for every file and answer.
    - Reading ([YamlOk], [YamlDoc], [LuaCborOk], [ValidateOk], [Jobs], [Load]):
      transcoding refines a machine with a stack and gives the document's item,
      CBOR and Lua agree both ways, any bytes are read without harm, validation
      reports exactly what is there and where, and a file that validates runs.
    - The child ([Child], [Proc], [Exec]): the verdict on a step is the function of
      what its plugin did, whatever the message was cut into, but for a command whose
      stdin could not be made; descriptors are neither lost nor left; a plugin's
      command in the foreground is reaped exactly once; a buffer that Lua owns ([Own])
      is freed exactly once wherever Lua raises.
    - Output and secrets ([Output], [Redact], [Ring], [Sink], [Result], [Secrets],
      [Envelope], [Keyfile], [Preamble]): a secret that has no byte of the mask and is
      not inside another does not pass, the queue and the logs are what was written,
      JSON reads back, what was encrypted is revealed and masked, a key is accepted
      only from a private file, variables arrive byte for byte up to a NUL, but for
      the two whose names the bootstrap uses itself.
    - Bounds ([Dag], [Setup], [Cli], [Summary], [Trace]): searches stay in their
      arrays, every formatted path fits its buffer, no two runs have one name, the
      array of job ids is never overrun.

    Some lemmas show where the code does not do what it means to; each is named in
    the description of what it is about: [Exec.captured_error_lost],
    [Exec.long_timeout_unbounded], [Load.failed_read_truncates],
    [Child.stdin_failure_blames_command], [Setup.cancelled_called_success],
    [Own.half_made_metatable_leaks],
    [Secrets.reveal_leaves_plaintext], [Preamble.preamble_blames_a_good_name],
    [Preamble.own_variable_lost] and others.

    ** Fuel and bounds

    Recursion that is not structural has fuel, and a theorem that it is enough:
    [Engine.job_send] sends at most two events after one, and has three
    ([Send]); the passes of [Run.settle] are bounded by twice the number of jobs
    and one; [Dag.visit] by the number of jobs; the loops of the CBOR parser and of
    the decoder by the bytes that are left, since each turn reads one; the doubling
    of a buffer by the size that is wanted ([Redact.grow_ok]); the search in
    [Positions] by the length of the table; the passes of [Yaml] by the doublings
    of the buffer up to the length of the text; [Preamble.bootstrap] by the length
    of its input; [Load.read_loop] by the length of the file; [Proc.reap_group] by
    the number of processes.  The encoder's buffer doubles until the value fits: its
    theorems say that there is a number of tries from which on it has fit.  The
    turns of the event loop are any number: what happens in a run does not depend
    on it.  Loops over answers of the system end with the list; what is then left
    is a value of its own ([Exec.Waiting]).

    ** Not modelled

    - The Lua side (schemas, templates, inventory, plugins, the ssh module): what Lua
      computes is an argument.  Line coverage and the panic handler in
      [kernel/luavm.c], and [luarun.c], which runs a script for the tests.
      Lua raising for want of memory is modelled where C memory is at stake
      ([Exec], [Files], [Secrets], [Own]) and not elsewhere.
    - [kernel/put.h]: output that nobody asks about.
    - The support for tests ([gcov.h], [testing], the fuzzing harness) and the
      vendored libraries, but for what is named above.
    - Signal masks, sessions and the subreaper call: single calls to the system. *)

From Stdlib Require Import Ascii NArith ZArith Lia.
From stdpp Require Import base list strings numbers relations.

(** ** Results of C code

    A C function either returns, or runs into undefined behaviour (an index
    outside an array), or calls [abort()].  Functions whose C loop has no
    structural bound take fuel and report when it is used up, so that a theorem
    about their result also says that the fuel was enough. *)
Inductive cres (A : Type) : Type :=
| CRet (a : A)
| CUndef
| CAbort
| CFuel.
Arguments CRet {A} a.
Arguments CUndef {A}.
Arguments CAbort {A}.
Arguments CFuel {A}.

Definition cbind {A B} (c : cres A) (k : A -> cres B) : cres B :=
  match c with
  | CRet a => k a
  | CUndef => CUndef
  | CAbort => CAbort
  | CFuel => CFuel
  end.

(** An array read: [CUndef] outside the array. *)
Definition cread {A} (l : list A) (i : nat) : cres A :=
  match l !! i with
  | Some a => CRet a
  | None => CUndef
  end.

(** An array write: [CUndef] outside the array. *)
Definition cwrite {A} (l : list A) (i : nat) (x : A) : cres (list A) :=
  if decide (i < length l) then CRet (<[i := x]> l) else CUndef.

#[export] Instance cres_ret : MRet cres := @CRet.
#[export] Instance cres_bind : MBind cres := fun A B k c => cbind c k.

Lemma cread_Some {A} (l : list A) i a : l !! i = Some a -> cread l i = CRet a.
Proof. unfold cread. by intros ->. Qed.

Lemma cread_inv {A} (l : list A) i a : cread l i = CRet a -> l !! i = Some a.
Proof. unfold cread. destruct (l !! i); congruence. Qed.

Lemma cwrite_ok {A} (l : list A) i x : i < length l -> cwrite l i x = CRet (<[i := x]> l).
Proof. unfold cwrite. intros. by rewrite decide_True. Qed.

Lemma cbind_ret {A B} (c : cres A) (k : A -> cres B) b :
  (c ≫= k) = CRet b -> exists a, c = CRet a /\ k a = CRet b.
Proof. destruct c; simpl; try discriminate. eauto. Qed.

(** A call that returns, and what it returns: a total-correctness triple. *)
Definition returns {A} (m : cres A) (Q : A -> Prop) : Prop := exists a, m = CRet a /\ Q a.

Lemma returns_ret {A} (a : A) (Q : A -> Prop) : Q a -> returns (mret a) Q.
Proof. by exists a. Qed.

Lemma returns_bind {A B} (m : cres A) (k : A -> cres B) (Q : A -> Prop) (Q' : B -> Prop) :
  returns m Q -> (forall a, Q a -> returns (k a) Q') -> returns (m ≫= k) Q'.
Proof. intros (a & -> & Ha) Hk. by apply Hk. Qed.

Lemma returns_mono {A} (m : cres A) (Q Q' : A -> Prop) : returns m Q -> (forall a, Q a -> Q' a) -> returns m Q'.
Proof. intros (a & -> & Ha) Hk. exists a. auto. Qed.

Lemma returns_read {A B} (l : list A) i a (k : A -> cres B) (Q : B -> Prop) :
  l !! i = Some a -> returns (k a) Q -> returns (cread l i ≫= k) Q.
Proof. intros H Hk. by rewrite (cread_Some _ _ _ H). Qed.

Lemma returns_write {A B} (l : list A) i x (k : list A -> cres B) (Q : B -> Prop) :
  i < length l -> returns (k (<[i := x]> l)) Q -> returns (cwrite l i x ≫= k) Q.
Proof. intros H Hk. by rewrite (cwrite_ok _ _ _ H). Qed.

(** ** Bytes and strings

    Byte buffers are lists of [ascii]; C strings that name things (ids,
    reasons, states) are [string]. *)
Abbreviation bytes := (list ascii).

Definition bytes_of (s : string) : bytes := String.list_ascii_of_string s.
#[global] Arguments bytes_of _ : simpl never.

Lemma length_bytes_of s : length (bytes_of s) = String.length s.
Proof. unfold bytes_of. induction s; simpl; congruence. Qed.

Definition NL : ascii := "010"%char.
Definition DQ : ascii := "034"%char.

(** [snprintf(buf + len, size - len, "%s", s)] into a buffer of [size] bytes
    whose text before [len] is kept: what does not fit before the closing NUL
    is cut.  (The call's own return value is the length of [s].) *)
Definition snprintf_at (size len : nat) (buf s : bytes) : bytes :=
  take len buf ++ take (size - 1 - len) s.

(** [qwe_msg(buf, size, ...)] and [snprintf(buf, size, ...)]. *)
Definition qwe_msg (size : nat) (s : bytes) : bytes := take (size - 1) s.

(** [size_t] and [unsigned long] are 64 bits wide on the only platform qwe
    builds for (Linux x86_64). *)
Definition w64 : N := (2 ^ 64)%N.
Definition wrap64 (n : N) : N := (n mod w64)%N.

Lemma wrap64_add_l a b : wrap64 (wrap64 a + b) = wrap64 (a + b).
Proof. unfold wrap64. by rewrite N.Div0.add_mod_idemp_l. Qed.

Lemma wrap64_small a : (a < w64)%N -> wrap64 a = a.
Proof. apply N.mod_small. Qed.

(** ** Record updates

    [r <| f := v |>] is [r] with [v] in its field [f].  A record type that is
    updated declares an [Eta] instance, the record rebuilt from its own fields;
    the setter of a field puts the new value in the field's place there. *)
Class Eta (R : Type) := eta : R -> R.

Class Setter {R T : Type} (f : R -> T) := setf : T -> R -> R.
Arguments setf {R T} f {_} v r.

Ltac build_setter R T f :=
  lazymatch constr:(@eta R _) with
  | @eta _ (?h ?x) => build_setter_from h (h x) R T f
  | @eta _ ?h => build_setter_from h h R T f
  end
with build_setter_from h rebuild R T f :=
  exact (fun (v : T) (r : R) => ltac:(
    let body := eval cbv beta delta [h] in (rebuild r) in
    let abstracted := eval pattern (f r) in body in
    lazymatch abstracted with
    | ?g _ => let b := eval cbv beta in (g v) in exact b
    end)).

#[export] Hint Extern 0 (@Setter ?R ?T ?f) => build_setter R T f : typeclass_instances.

Notation "r <| f := v |>" := (setf f v r)
  (at level 1, left associativity, f constr at level 1, v constr at level 200, format "r <| f  :=  v |>").

(** ** Tactics *)

(** Splits every [match] and [if] of the goal and of the context. *)
Ltac case_all :=
  repeat (simplify_eq/=; first [ progress case_match | progress case_decide ]); simplify_eq/=.

(** Runs the binds whose first half is known. *)
Ltac cstep := cbn [mbind cres_bind cbind mret cres_ret].

Create HintDb qwe discriminated.
#[export] Hint Resolve cread_Some : qwe.

(** ** Lists *)

Section lists.
Context {A : Type}.

Lemma insert_take (l : list A) i x : i < length l ->
  <[i := x]> l = take i l ++ x :: drop (S i) l.
Proof. intros. by apply insert_take_drop. Qed.

End lists.

(** ** Finite relations *)

Section serial.
Context (n : nat) (R : nat -> nat -> Prop) (P : nat -> Prop).
Hypothesis P_lt : forall i, P i -> i < n.
Hypothesis P_step : forall i, P i -> exists j, R i j /\ P j.

Lemma serial_path k x : P x -> exists l, length l = S k /\ (forall i, i ∈ l -> P i) /\
  l !! 0 = Some x /\ forall i a b, l !! i = Some a -> l !! S i = Some b -> R a b.
Proof.
  revert x. induction k as [|k IH]; intros x Hx.
  - exists [x]. split_and!; [done | set_solver | done |]. intros i a b _ Hb. by destruct i.
  - destruct (P_step x Hx) as (y & HR & Hy). destruct (IH y Hy) as (l & Hl & HP & H0 & Hc).
    exists (x :: l). simpl. split_and!; [lia | set_solver | done |].
    intros [|i] a b Ha Hb; simpl in *; [by simplify_eq | eauto].
Qed.

Lemma path_tc (l : list nat) i d a b : (forall i a b, l !! i = Some a -> l !! S i = Some b -> R a b) ->
  l !! i = Some a -> l !! (i + S d) = Some b -> tc R a b.
Proof.
  intros Hc. revert i a. induction d as [|d IH]; intros i a Ha Hb.
  - apply tc_once. eapply Hc; [done |]. by replace (S i) with (i + 1) by lia.
  - destruct (lookup_lt_is_Some_2 l (S i)) as [c Hc']; [apply lookup_lt_Some in Hb; lia |].
    eapply tc_l; [by eapply Hc |]. eapply (IH (S i)); [done |].
    by replace (S i + S d) with (i + S (S d)) by lia.
Qed.

Lemma not_NoDup_lookup (l : list nat) : ~ NoDup l ->
  exists i d x, l !! i = Some x /\ l !! (i + S d) = Some x.
Proof.
  induction l as [|y l IH]; intros Hd; [destruct Hd; constructor |].
  destruct (decide (y ∈ l)) as [(k & Hk)%list_elem_of_lookup|Hn].
  - by exists 0, k, y.
  - destruct IH as (i & d & x & Hi & Hj); [intros H; apply Hd; by constructor |].
    by exists (S i), d, x.
Qed.

(** A relation that leads from every element of a finite set back into the set
    has a cycle. *)
Lemma serial_cycle x : P x -> exists y, tc R y y.
Proof.
  intros Hx. destruct (serial_path n x Hx) as (l & Hl & HP & _ & Hc).
  destruct (decide (NoDup l)) as [Hnd|Hd].
  - assert (Hle : length l <= length (seq 0 n)); [| rewrite length_seq in Hle; lia].
    apply submseteq_length, NoDup_submseteq; [done |].
    intros y Hy. apply elem_of_seq. specialize (P_lt y (HP y Hy)). lia.
  - destruct (not_NoDup_lookup l Hd) as (i & d & y & Hi & Hj). exists y. exact (path_tc l i d y y Hc Hi Hj).
Qed.
End serial.
