(* ===== verification/Cstr.v ===== *)
(** * C strings

    [strcmp] and [strrchr] over byte lists, as the C library orders and searches
    them; used wherever the kernel sorts or looks up by a C string. *)

From Stdlib Require Import Ascii NArith Lia.
From stdpp Require Import base sets list sorting.
From S2P Require Import Prelude.

(** Up to the first NUL: what a C string holds of a longer text. *)
Fixpoint cstr (s : bytes) : bytes :=
  match s with
  | [] => []
  | c :: s => if Ascii.eqb c zero then [] else c :: cstr s
  end.

(** The sign of [strcmp(a, b)]: bytes compare as unsigned. *)
Fixpoint strcmp (a b : bytes) : comparison :=
  match a, b with
  | [], [] => Eq
  | [], _ :: _ => Lt
  | _ :: _, [] => Gt
  | x :: a, y :: b =>
      match N.compare (N_of_ascii x) (N_of_ascii y) with
      | Eq => strcmp a b
      | c => c
      end
  end.

(** [strcmp(a, b) <= 0]. *)
Definition strcmp_le (a b : bytes) : bool := if strcmp a b is Gt then false else true.

Definition key_cmp (a b : bytes) : Prop := strcmp_le a b = true.

#[export] Instance key_cmp_dec : RelDecision key_cmp.
Proof. intros a b. unfold key_cmp. apply _. Defined.

(** The text up to the last [c], and the text behind it ([strrchr]). *)
Fixpoint strrchr (c : ascii) (s : bytes) : option (bytes * bytes) :=
  match s with
  | [] => None
  | x :: s =>
      match strrchr c s with
      | Some (before, after) => Some (x :: before, after)
      | None => if Ascii.eqb x c then Some ([], s) else None
      end
  end.

(** ** Order *)

Lemma N_of_ascii_inj x y : N_of_ascii x = N_of_ascii y -> x = y.
Proof. intros H. rewrite <- (ascii_N_embedding x), <- (ascii_N_embedding y). by f_equal. Qed.

Lemma strcmp_eq a b : strcmp a b = Eq <-> a = b.
Proof.
  revert b. induction a as [|x a IH]; intros [|y b]; cbn; try done.
  destruct (N.compare_spec (N_of_ascii x) (N_of_ascii y)) as [E%N_of_ascii_inj|E|E].
  - rewrite IH. subst. naive_solver.
  - split; [done |]. intros [= -> ->]. lia.
  - split; [done |]. intros [= -> ->]. lia.
Qed.

Lemma strcmp_refl a : strcmp a a = Eq.
Proof. by apply strcmp_eq. Qed.

Lemma strcmp_antisym a b : strcmp b a = CompOpp (strcmp a b).
Proof.
  revert b. induction a as [|x a IH]; intros [|y b]; cbn; try done.
  rewrite (N.compare_antisym (N_of_ascii x) (N_of_ascii y)). destruct (N.compare _ _); cbn; [apply IH | done | done].
Qed.

Lemma strcmp_lt_trans a b c : strcmp a b = Lt -> strcmp b c = Lt -> strcmp a c = Lt.
Proof.
  revert b c. induction a as [|x a IH]; intros [|y b] [|z c]; cbn; try done.
  destruct (N.compare_spec (N_of_ascii x) (N_of_ascii y)), (N.compare_spec (N_of_ascii y) (N_of_ascii z)),
    (N.compare_spec (N_of_ascii x) (N_of_ascii z)); try done; try (intros; lia); eauto.
Qed.

Lemma strcmp_le_total a b : strcmp_le a b = true \/ strcmp_le b a = true.
Proof. unfold strcmp_le. rewrite (strcmp_antisym a b). destruct (strcmp a b); cbn; auto. Qed.

#[export] Instance key_cmp_total : Total key_cmp.
Proof. intros a b. apply strcmp_le_total. Qed.

Lemma strcmp_le_iff a b : strcmp_le a b = true <-> strcmp a b = Lt \/ a = b.
Proof. unfold strcmp_le. rewrite <- strcmp_eq. destruct (strcmp a b); naive_solver. Qed.

#[export] Instance key_cmp_trans : Transitive key_cmp.
Proof.
  intros a b c. unfold key_cmp. rewrite !strcmp_le_iff. intros [H| ->] [H'| ->]; [left; by eapply strcmp_lt_trans | by left | by left | by right].
Qed.

#[export] Instance key_cmp_antisymm : AntiSymm (=) key_cmp.
Proof.
  intros a b. unfold key_cmp. rewrite !strcmp_le_iff, (strcmp_antisym a b). intros [H|H] [H'|H']; try done.
  by rewrite H in H'.
Qed.

(** ** [strrchr] and [cstr] *)

Lemma strrchr_Some c s before after : strrchr c s = Some (before, after) -> s = before ++ c :: after /\ c ∉ after.
Proof.
  revert before. induction s as [|x s IH]; intros before; cbn; [done |].
  destruct (strrchr c s) as [[b a]|] eqn:E.
  - intros [= <- <-]. destruct (IH b eq_refl) as [-> ?]. done.
  - destruct (Ascii.eqb_spec x c) as [->|]; [|done]. intros [= <- <-]. split; [done |].
    clear IH. induction s as [|y s IH]; [set_solver |]. cbn in E. destruct (strrchr c s) as [[? ?]|] eqn:E'; [done |].
    destruct (Ascii.eqb_spec y c); [done |]. set_solver.
Qed.

Lemma strrchr_app c before after : c ∉ after -> strrchr c (before ++ c :: after) = Some (before, after).
Proof.
  intros Hc. assert (Hn : strrchr c after = None).
  { induction after as [|y s IH]; [done |]. cbn. rewrite IH by set_solver. destruct (Ascii.eqb_spec y c); [set_solver | done]. }
  induction before as [|x s IH]; cbn; [by rewrite Hn, Ascii.eqb_refl | by rewrite IH].
Qed.

Lemma strrchr_None c s : c ∉ s -> strrchr c s = None.
Proof. induction s as [|x s IH]; intros Hc; [done |]. cbn. rewrite IH by set_solver. destruct (Ascii.eqb_spec x c); [set_solver | done]. Qed.

Lemma cstr_id s : zero ∉ s -> cstr s = s.
Proof. induction s as [|x s IH]; intros H; [done |]. cbn. destruct (Ascii.eqb_spec x zero); [set_solver | f_equal; apply IH; set_solver]. Qed.

Lemma cstr_no_nul s : zero ∉ cstr s.
Proof. induction s as [|x s IH]; cbn; [set_solver |]. destruct (Ascii.eqb_spec x zero); set_solver. Qed.

(** ** [qsort]

    As in glibc: the two halves are sorted, then merged, the left one first
    where neither is smaller. *)
Section qsort.
Context {A : Type} (R : relation A) `{!RelDecision R}.

Fixpoint msort (fuel : nat) (l : list A) : list A :=
  match fuel with
  | 0 => l
  | S fuel =>
      if length l <=? 1 then l
      else list_merge R (msort fuel (take (length l / 2) l)) (msort fuel (drop (length l / 2) l))
  end.

Definition qsort (l : list A) : list A := msort (length l) l.

Lemma msort_Permutation fuel l : msort fuel l ≡ₚ l.
Proof.
  revert l. induction fuel as [|fuel IH]; intros l; [done |]. cbn [msort]. destruct (_ <=? _); [done |].
  by rewrite merge_Permutation, !IH, take_drop.
Qed.

Lemma qsort_Permutation l : qsort l ≡ₚ l.
Proof. apply msort_Permutation. Qed.

Lemma Sorted_short l : length l <= 1 -> Sorted R l.
Proof. destruct l as [|a [|b l]]; cbn; intros; [constructor | repeat constructor | lia]. Qed.

Lemma Sorted_msort `{!Total R} fuel l : length l <= S fuel -> Sorted R (msort fuel l).
Proof.
  revert l. induction fuel as [|fuel IH]; intros l Hl; [by apply Sorted_short |]. cbn [msort].
  destruct (Nat.leb_spec (length l) 1) as [|Hgt]; [by apply Sorted_short |].
  pose proof (Nat.Div0.div_lt_upper_bound (length l) 2 (length l) ltac:(lia)).
  pose proof (Nat.div_le_lower_bound (length l) 2 1 ltac:(lia) ltac:(lia)).
  apply Sorted_list_merge; [done | |]; apply IH; rewrite ?length_take, ?length_drop; lia.
Qed.

Lemma Sorted_qsort `{!Total R} l : Sorted R (qsort l).
Proof. apply Sorted_msort. lia. Qed.
End qsort.
