(* ===== verification/Lifecycle.v ===== *)
(** * The job lifecycle

    Models [src/kernel/lifecycle.h], [src/kernel/lifecycle.c] and
    [src/kernel/lifecycle_model.c]: the flat (state, event) table, its lookup,
    the stale filter, and the event model that says which events can occur in
    which state.  The lookup's [abort()] is the value [inr (s, e)].

    Theorems: the table is total and agrees with the event model; every
    sequence of events is bounded by the number of steps started; the actions
    of a run follow the step protocol (one TERM, then one grace timer, then at
    most one KILL, each outcome recorded once); the final outcome is the one
    the strongest trigger asks for. *)

From S2P Require Import Prelude.
From Stdlib Require Import Ascii NArith ZArith Lia.
From stdpp Require Import base list strings numbers.

(** ** Data *)

Inductive qwe_lc_state :=
| QWE_LC_PENDING
| QWE_LC_READY
| QWE_LC_BETWEEN_STEPS
| QWE_LC_STEP_RUNNING
| QWE_LC_STEP_RUNNING_COE
| QWE_LC_STEP_STOPPING
| QWE_LC_STEP_STOPPING_COE
| QWE_LC_STEP_KILLING
| QWE_LC_STEP_KILLING_COE
| QWE_LC_SETTLING_CONTINUE_TERM
| QWE_LC_SETTLING_CONTINUE_KILL
| QWE_LC_SETTLING_FAIL_TERM
| QWE_LC_SETTLING_FAIL_KILL
| QWE_LC_SETTLING_CANCEL_TIMEOUT_TERM
| QWE_LC_SETTLING_CANCEL_TIMEOUT_KILL
| QWE_LC_SETTLING_CANCEL_REQUESTED_TERM
| QWE_LC_SETTLING_CANCEL_REQUESTED_KILL
| QWE_LC_SUCCESS
| QWE_LC_FAILED
| QWE_LC_SKIPPED
| QWE_LC_CANCELLED.

Inductive qwe_lc_event :=
| QWE_LC_EV_NEEDS_MET
| QWE_LC_EV_NEEDS_FAILED
| QWE_LC_EV_SLOT_GRANTED
| QWE_LC_EV_NEXT_STEP
| QWE_LC_EV_NO_MORE_STEPS
| QWE_LC_EV_START_FAILED
| QWE_LC_EV_LEADER_EXIT_OK
| QWE_LC_EV_LEADER_EXIT_FAIL
| QWE_LC_EV_STEP_TIMEOUT
| QWE_LC_EV_JOB_TIMEOUT
| QWE_LC_EV_CANCEL
| QWE_LC_EV_GRACE_EXPIRED
| QWE_LC_EV_GROUP_EMPTY
| QWE_LC_EV_SKIP.

Inductive qwe_lc_action :=
| QWE_LC_ACT_NONE
| QWE_LC_ACT_START_JOB
| QWE_LC_ACT_SPAWN_STEP
| QWE_LC_ACT_SIGTERM_GROUP
| QWE_LC_ACT_ARM_GRACE
| QWE_LC_ACT_SIGKILL_GROUP
| QWE_LC_ACT_RECORD_STEP
| QWE_LC_ACT_RECORD_JOB
| QWE_LC_ACT_END_JOB.

Inductive qwe_lc_kind :=
| QWE_LC_UNSET
| QWE_LC_TRANSITION
| QWE_LC_IGNORE
| QWE_LC_IMPOSSIBLE.

Inductive qwe_lc_reason :=
| QWE_LC_REASON_NONE
| QWE_LC_REASON_DEPENDENCY_FAILED
| QWE_LC_REASON_CANCEL_REQUESTED
| QWE_LC_REASON_TIMEOUT
| QWE_LC_REASON_ENGINE_ERROR
| QWE_LC_REASON_FROM_EVENT
| QWE_LC_REASON_CARRIED.

#[export] Instance qwe_lc_state_eq_dec : EqDecision qwe_lc_state.
Proof. solve_decision. Defined.
#[export] Instance qwe_lc_event_eq_dec : EqDecision qwe_lc_event.
Proof. solve_decision. Defined.
#[export] Instance qwe_lc_action_eq_dec : EqDecision qwe_lc_action.
Proof. solve_decision. Defined.
#[export] Instance qwe_lc_kind_eq_dec : EqDecision qwe_lc_kind.
Proof. solve_decision. Defined.
#[export] Instance qwe_lc_reason_eq_dec : EqDecision qwe_lc_reason.
Proof. solve_decision. Defined.
#[export] Instance qwe_lc_state_inhabited : Inhabited qwe_lc_state := populate QWE_LC_PENDING.

Definition QWE_LC_MAX_ACTIONS : nat := 4.

Record qwe_lc_cell := Cell {
  c_kind : qwe_lc_kind;
  c_next : qwe_lc_state;
  c_reason : qwe_lc_reason;
  c_coe_by_payload : bool;
  c_actions : list qwe_lc_action;
  c_why : option string;
}.

(** What an event carries. *)
Record qwe_lc_payload := Payload {
  p_coe : bool;
  p_reason : option string;
  p_carried : option string;
}.

(** A cell with the payload applied. *)
Record qwe_lc_result := Result {
  r_kind : qwe_lc_kind;
  r_next : qwe_lc_state;
  r_reason_kind : qwe_lc_reason;
  r_reason : option string;
  r_actions : list qwe_lc_action;
  r_why : option string;
}.

(** The enumerators' values. *)
Definition state_num (s : qwe_lc_state) : nat :=
  match s with
  | QWE_LC_PENDING => 0
  | QWE_LC_READY => 1
  | QWE_LC_BETWEEN_STEPS => 2
  | QWE_LC_STEP_RUNNING => 3
  | QWE_LC_STEP_RUNNING_COE => 4
  | QWE_LC_STEP_STOPPING => 5
  | QWE_LC_STEP_STOPPING_COE => 6
  | QWE_LC_STEP_KILLING => 7
  | QWE_LC_STEP_KILLING_COE => 8
  | QWE_LC_SETTLING_CONTINUE_TERM => 9
  | QWE_LC_SETTLING_CONTINUE_KILL => 10
  | QWE_LC_SETTLING_FAIL_TERM => 11
  | QWE_LC_SETTLING_FAIL_KILL => 12
  | QWE_LC_SETTLING_CANCEL_TIMEOUT_TERM => 13
  | QWE_LC_SETTLING_CANCEL_TIMEOUT_KILL => 14
  | QWE_LC_SETTLING_CANCEL_REQUESTED_TERM => 15
  | QWE_LC_SETTLING_CANCEL_REQUESTED_KILL => 16
  | QWE_LC_SUCCESS => 17
  | QWE_LC_FAILED => 18
  | QWE_LC_SKIPPED => 19
  | QWE_LC_CANCELLED => 20
  end.

Definition all_states : list qwe_lc_state :=
  [QWE_LC_PENDING; QWE_LC_READY; QWE_LC_BETWEEN_STEPS; QWE_LC_STEP_RUNNING;
   QWE_LC_STEP_RUNNING_COE; QWE_LC_STEP_STOPPING; QWE_LC_STEP_STOPPING_COE;
   QWE_LC_STEP_KILLING; QWE_LC_STEP_KILLING_COE; QWE_LC_SETTLING_CONTINUE_TERM;
   QWE_LC_SETTLING_CONTINUE_KILL; QWE_LC_SETTLING_FAIL_TERM; QWE_LC_SETTLING_FAIL_KILL;
   QWE_LC_SETTLING_CANCEL_TIMEOUT_TERM; QWE_LC_SETTLING_CANCEL_TIMEOUT_KILL;
   QWE_LC_SETTLING_CANCEL_REQUESTED_TERM; QWE_LC_SETTLING_CANCEL_REQUESTED_KILL;
   QWE_LC_SUCCESS; QWE_LC_FAILED; QWE_LC_SKIPPED; QWE_LC_CANCELLED].

(** The cast [(enum qwe_lc_state)n]. *)
Definition state_of_num (n : nat) : qwe_lc_state := nth n all_states QWE_LC_PENDING.

Definition event_num (e : qwe_lc_event) : nat :=
  match e with
  | QWE_LC_EV_NEEDS_MET => 0
  | QWE_LC_EV_NEEDS_FAILED => 1
  | QWE_LC_EV_SLOT_GRANTED => 2
  | QWE_LC_EV_NEXT_STEP => 3
  | QWE_LC_EV_NO_MORE_STEPS => 4
  | QWE_LC_EV_START_FAILED => 5
  | QWE_LC_EV_LEADER_EXIT_OK => 6
  | QWE_LC_EV_LEADER_EXIT_FAIL => 7
  | QWE_LC_EV_STEP_TIMEOUT => 8
  | QWE_LC_EV_JOB_TIMEOUT => 9
  | QWE_LC_EV_CANCEL => 10
  | QWE_LC_EV_GRACE_EXPIRED => 11
  | QWE_LC_EV_GROUP_EMPTY => 12
  | QWE_LC_EV_SKIP => 13
  end.

(** ** The table *)

Module Table.

Abbreviation NO := QWE_LC_ACT_NONE.
Abbreviation START := QWE_LC_ACT_START_JOB.
Abbreviation SPAWN := QWE_LC_ACT_SPAWN_STEP.
Abbreviation TERM := QWE_LC_ACT_SIGTERM_GROUP.
Abbreviation GRACE := QWE_LC_ACT_ARM_GRACE.
Abbreviation KILL := QWE_LC_ACT_SIGKILL_GROUP.
Abbreviation REC_STEP := QWE_LC_ACT_RECORD_STEP.
Abbreviation REC_JOB := QWE_LC_ACT_RECORD_JOB.
Abbreviation END_JOB := QWE_LC_ACT_END_JOB.

Abbreviation R_NONE := QWE_LC_REASON_NONE.
Abbreviation R_DEP := QWE_LC_REASON_DEPENDENCY_FAILED.
Abbreviation R_CANCEL := QWE_LC_REASON_CANCEL_REQUESTED.
Abbreviation R_TIMEOUT := QWE_LC_REASON_TIMEOUT.
Abbreviation R_ENGINE := QWE_LC_REASON_ENGINE_ERROR.
Abbreviation R_EVENT := QWE_LC_REASON_FROM_EVENT.
Abbreviation R_CARRIED := QWE_LC_REASON_CARRIED.

(** An action initialiser: what it does not name is zero, [NO]. *)
Definition acts (l : list qwe_lc_action) : list qwe_lc_action :=
  take QWE_LC_MAX_ACTIONS (l ++ repeat NO QWE_LC_MAX_ACTIONS).

Definition T (next : qwe_lc_state) (r : qwe_lc_reason) (l : list qwe_lc_action) : qwe_lc_cell :=
  Cell QWE_LC_TRANSITION next r false (acts l) None.
Definition TC (next : qwe_lc_state) (r : qwe_lc_reason) (l : list qwe_lc_action) : qwe_lc_cell :=
  Cell QWE_LC_TRANSITION next r true (acts l) None.
Definition I (s : qwe_lc_state) (why : string) : qwe_lc_cell :=
  Cell QWE_LC_IGNORE s R_NONE false (acts [NO]) (Some why).
Definition X : qwe_lc_cell :=
  Cell QWE_LC_IMPOSSIBLE QWE_LC_PENDING R_NONE false (acts [NO]) None.

(** A cell the initialiser leaves out. *)
Definition zero_cell : qwe_lc_cell :=
  Cell QWE_LC_UNSET QWE_LC_PENDING R_NONE false (acts []) None.

Definition STALE_LEADER : string :=
  "the outcome is already decided; the group emptying ends the step".
Definition STALE_STEP_TIMER : string :=
  "the outcome is already decided; the step timer may still fire until the group is empty".
Definition FINISHED : string :=
  "the operator's cancel is sent to every job; a finished job has nothing to cancel".

Definition row (s : qwe_lc_state) : list qwe_lc_cell :=
  match s with
  | QWE_LC_PENDING =>
      [T QWE_LC_READY R_NONE [NO]; T QWE_LC_SKIPPED R_DEP [REC_JOB; END_JOB];
       X; X; X; X; X; X; X; X;
       T QWE_LC_SKIPPED R_CANCEL [REC_JOB; END_JOB]; X; X;
       T QWE_LC_SKIPPED R_EVENT [REC_JOB; END_JOB]]
  | QWE_LC_READY =>
      [X; X; T QWE_LC_BETWEEN_STEPS R_NONE [START]; X; X; X; X; X; X; X;
       T QWE_LC_SKIPPED R_CANCEL [REC_JOB; END_JOB]; X; X;
       T QWE_LC_SKIPPED R_EVENT [REC_JOB; END_JOB]]
  | QWE_LC_BETWEEN_STEPS =>
      [X; X; X; TC QWE_LC_STEP_RUNNING R_NONE [SPAWN];
       T QWE_LC_SUCCESS R_NONE [REC_JOB; END_JOB];
       T QWE_LC_FAILED R_ENGINE [REC_JOB; END_JOB]; X; X; X;
       T QWE_LC_CANCELLED R_TIMEOUT [REC_JOB; END_JOB];
       T QWE_LC_CANCELLED R_CANCEL [REC_JOB; END_JOB]; X; X; X]
  | QWE_LC_STEP_RUNNING =>
      [X; X; X; X; X; T QWE_LC_FAILED R_ENGINE [REC_STEP; REC_JOB; END_JOB];
       T QWE_LC_SETTLING_CONTINUE_TERM R_NONE [TERM; GRACE; REC_STEP];
       T QWE_LC_SETTLING_FAIL_TERM R_EVENT [TERM; GRACE; REC_STEP];
       T QWE_LC_STEP_STOPPING R_TIMEOUT [TERM; GRACE];
       T QWE_LC_SETTLING_CANCEL_TIMEOUT_TERM R_TIMEOUT [TERM; GRACE; REC_STEP];
       T QWE_LC_SETTLING_CANCEL_REQUESTED_TERM R_CANCEL [TERM; GRACE; REC_STEP]; X; X; X]
  | QWE_LC_STEP_RUNNING_COE =>
      [X; X; X; X; X; T QWE_LC_FAILED R_ENGINE [REC_STEP; REC_JOB; END_JOB];
       T QWE_LC_SETTLING_CONTINUE_TERM R_NONE [TERM; GRACE; REC_STEP];
       T QWE_LC_SETTLING_CONTINUE_TERM R_EVENT [TERM; GRACE; REC_STEP];
       T QWE_LC_STEP_STOPPING_COE R_TIMEOUT [TERM; GRACE];
       T QWE_LC_SETTLING_CANCEL_TIMEOUT_TERM R_TIMEOUT [TERM; GRACE; REC_STEP];
       T QWE_LC_SETTLING_CANCEL_REQUESTED_TERM R_CANCEL [TERM; GRACE; REC_STEP]; X; X; X]
  | QWE_LC_STEP_STOPPING =>
      [X; X; X; X; X; X;
       T QWE_LC_SETTLING_FAIL_TERM R_TIMEOUT [REC_STEP];
       T QWE_LC_SETTLING_FAIL_TERM R_TIMEOUT [REC_STEP]; X;
       T QWE_LC_SETTLING_CANCEL_TIMEOUT_TERM R_TIMEOUT [REC_STEP];
       T QWE_LC_SETTLING_CANCEL_REQUESTED_TERM R_CANCEL [REC_STEP];
       T QWE_LC_STEP_KILLING R_NONE [KILL]; X; X]
  | QWE_LC_STEP_STOPPING_COE =>
      [X; X; X; X; X; X;
       T QWE_LC_SETTLING_CONTINUE_TERM R_TIMEOUT [REC_STEP];
       T QWE_LC_SETTLING_CONTINUE_TERM R_TIMEOUT [REC_STEP]; X;
       T QWE_LC_SETTLING_CANCEL_TIMEOUT_TERM R_TIMEOUT [REC_STEP];
       T QWE_LC_SETTLING_CANCEL_REQUESTED_TERM R_CANCEL [REC_STEP];
       T QWE_LC_STEP_KILLING_COE R_NONE [KILL]; X; X]
  | QWE_LC_STEP_KILLING =>
      [X; X; X; X; X; X;
       T QWE_LC_SETTLING_FAIL_KILL R_TIMEOUT [REC_STEP];
       T QWE_LC_SETTLING_FAIL_KILL R_TIMEOUT [REC_STEP]; X;
       T QWE_LC_SETTLING_CANCEL_TIMEOUT_KILL R_TIMEOUT [REC_STEP];
       T QWE_LC_SETTLING_CANCEL_REQUESTED_KILL R_CANCEL [REC_STEP]; X; X; X]
  | QWE_LC_STEP_KILLING_COE =>
      [X; X; X; X; X; X;
       T QWE_LC_SETTLING_CONTINUE_KILL R_TIMEOUT [REC_STEP];
       T QWE_LC_SETTLING_CONTINUE_KILL R_TIMEOUT [REC_STEP]; X;
       T QWE_LC_SETTLING_CANCEL_TIMEOUT_KILL R_TIMEOUT [REC_STEP];
       T QWE_LC_SETTLING_CANCEL_REQUESTED_KILL R_CANCEL [REC_STEP]; X; X; X]
  | QWE_LC_SETTLING_CONTINUE_TERM =>
      [X; X; X; X; X; X;
       I QWE_LC_SETTLING_CONTINUE_TERM STALE_LEADER;
       I QWE_LC_SETTLING_CONTINUE_TERM STALE_LEADER;
       I QWE_LC_SETTLING_CONTINUE_TERM STALE_STEP_TIMER;
       T QWE_LC_SETTLING_CANCEL_TIMEOUT_TERM R_TIMEOUT [NO];
       T QWE_LC_SETTLING_CANCEL_REQUESTED_TERM R_CANCEL [NO];
       T QWE_LC_SETTLING_CONTINUE_KILL R_NONE [KILL];
       T QWE_LC_BETWEEN_STEPS R_NONE [NO]; X]
  | QWE_LC_SETTLING_CONTINUE_KILL =>
      [X; X; X; X; X; X;
       I QWE_LC_SETTLING_CONTINUE_KILL STALE_LEADER;
       I QWE_LC_SETTLING_CONTINUE_KILL STALE_LEADER;
       I QWE_LC_SETTLING_CONTINUE_KILL STALE_STEP_TIMER;
       T QWE_LC_SETTLING_CANCEL_TIMEOUT_KILL R_TIMEOUT [NO];
       T QWE_LC_SETTLING_CANCEL_REQUESTED_KILL R_CANCEL [NO]; X;
       T QWE_LC_BETWEEN_STEPS R_NONE [NO]; X]
  | QWE_LC_SETTLING_FAIL_TERM =>
      [X; X; X; X; X; X;
       I QWE_LC_SETTLING_FAIL_TERM STALE_LEADER;
       I QWE_LC_SETTLING_FAIL_TERM STALE_LEADER;
       I QWE_LC_SETTLING_FAIL_TERM STALE_STEP_TIMER;
       T QWE_LC_SETTLING_CANCEL_TIMEOUT_TERM R_TIMEOUT [NO];
       T QWE_LC_SETTLING_CANCEL_REQUESTED_TERM R_CANCEL [NO];
       T QWE_LC_SETTLING_FAIL_KILL R_NONE [KILL];
       T QWE_LC_FAILED R_CARRIED [REC_JOB; END_JOB]; X]
  | QWE_LC_SETTLING_FAIL_KILL =>
      [X; X; X; X; X; X;
       I QWE_LC_SETTLING_FAIL_KILL STALE_LEADER;
       I QWE_LC_SETTLING_FAIL_KILL STALE_LEADER;
       I QWE_LC_SETTLING_FAIL_KILL STALE_STEP_TIMER;
       T QWE_LC_SETTLING_CANCEL_TIMEOUT_KILL R_TIMEOUT [NO];
       T QWE_LC_SETTLING_CANCEL_REQUESTED_KILL R_CANCEL [NO]; X;
       T QWE_LC_FAILED R_CARRIED [REC_JOB; END_JOB]; X]
  | QWE_LC_SETTLING_CANCEL_TIMEOUT_TERM =>
      [X; X; X; X; X; X;
       I QWE_LC_SETTLING_CANCEL_TIMEOUT_TERM STALE_LEADER;
       I QWE_LC_SETTLING_CANCEL_TIMEOUT_TERM STALE_LEADER;
       I QWE_LC_SETTLING_CANCEL_TIMEOUT_TERM STALE_STEP_TIMER; X;
       T QWE_LC_SETTLING_CANCEL_REQUESTED_TERM R_CANCEL [NO];
       T QWE_LC_SETTLING_CANCEL_TIMEOUT_KILL R_NONE [KILL];
       T QWE_LC_CANCELLED R_TIMEOUT [REC_JOB; END_JOB]; X]
  | QWE_LC_SETTLING_CANCEL_TIMEOUT_KILL =>
      [X; X; X; X; X; X;
       I QWE_LC_SETTLING_CANCEL_TIMEOUT_KILL STALE_LEADER;
       I QWE_LC_SETTLING_CANCEL_TIMEOUT_KILL STALE_LEADER;
       I QWE_LC_SETTLING_CANCEL_TIMEOUT_KILL STALE_STEP_TIMER; X;
       T QWE_LC_SETTLING_CANCEL_REQUESTED_KILL R_CANCEL [NO]; X;
       T QWE_LC_CANCELLED R_TIMEOUT [REC_JOB; END_JOB]; X]
  | QWE_LC_SETTLING_CANCEL_REQUESTED_TERM =>
      [X; X; X; X; X; X;
       I QWE_LC_SETTLING_CANCEL_REQUESTED_TERM STALE_LEADER;
       I QWE_LC_SETTLING_CANCEL_REQUESTED_TERM STALE_LEADER;
       I QWE_LC_SETTLING_CANCEL_REQUESTED_TERM STALE_STEP_TIMER;
       I QWE_LC_SETTLING_CANCEL_REQUESTED_TERM "a cancel outranks a job timeout";
       I QWE_LC_SETTLING_CANCEL_REQUESTED_TERM "the job is already being cancelled";
       T QWE_LC_SETTLING_CANCEL_REQUESTED_KILL R_NONE [KILL];
       T QWE_LC_CANCELLED R_CANCEL [REC_JOB; END_JOB]; X]
  | QWE_LC_SETTLING_CANCEL_REQUESTED_KILL =>
      [X; X; X; X; X; X;
       I QWE_LC_SETTLING_CANCEL_REQUESTED_KILL STALE_LEADER;
       I QWE_LC_SETTLING_CANCEL_REQUESTED_KILL STALE_LEADER;
       I QWE_LC_SETTLING_CANCEL_REQUESTED_KILL STALE_STEP_TIMER;
       I QWE_LC_SETTLING_CANCEL_REQUESTED_KILL "a cancel outranks a job timeout";
       I QWE_LC_SETTLING_CANCEL_REQUESTED_KILL "the job is already being cancelled"; X;
       T QWE_LC_CANCELLED R_CANCEL [REC_JOB; END_JOB]; X]
  | QWE_LC_SUCCESS => [X; X; X; X; X; X; X; X; X; X; I QWE_LC_SUCCESS FINISHED; X; X; X]
  | QWE_LC_FAILED => [X; X; X; X; X; X; X; X; X; X; I QWE_LC_FAILED FINISHED; X; X; X]
  | QWE_LC_SKIPPED => [X; X; X; X; X; X; X; X; X; X; I QWE_LC_SKIPPED FINISHED; X; X; X]
  | QWE_LC_CANCELLED => [X; X; X; X; X; X; X; X; X; X; I QWE_LC_CANCELLED FINISHED; X; X; X]
  end.

End Table.

(** [&table[s][e]] *)
Definition qwe_lc_cell_at (s : qwe_lc_state) (e : qwe_lc_event) : qwe_lc_cell :=
  nth (event_num e) (Table.row s) Table.zero_cell.

(** ** Names *)

Definition state_names : list string :=
  ["pending"; "ready"; "between-steps"; "step-running"; "step-running-coe"; "step-stopping";
   "step-stopping-coe"; "step-killing"; "step-killing-coe"; "settling-continue-term";
   "settling-continue-kill"; "settling-fail-term"; "settling-fail-kill";
   "settling-cancel-timeout-term"; "settling-cancel-timeout-kill";
   "settling-cancel-requested-term"; "settling-cancel-requested-kill";
   "success"; "failed"; "skipped"; "cancelled"].

Definition event_names : list string :=
  ["needs-met"; "needs-failed"; "slot-granted"; "next-step"; "no-more-steps"; "start-failed";
   "leader-exit-ok"; "leader-exit-fail"; "step-timeout"; "job-timeout"; "cancel";
   "grace-expired"; "group-empty"; "skip"].

Definition qwe_lc_state_name (s : qwe_lc_state) : string := nth (state_num s) state_names "?".
Definition qwe_lc_event_name (e : qwe_lc_event) : string := nth (event_num e) event_names "?".

Definition action_names : list string :=
  ["none"; "start-job"; "spawn-step"; "sigterm-group"; "arm-grace"; "sigkill-group"; "record-step";
   "record-job"; "end-job"].

Definition action_num (a : qwe_lc_action) : nat :=
  match a with
  | QWE_LC_ACT_NONE => 0 | QWE_LC_ACT_START_JOB => 1 | QWE_LC_ACT_SPAWN_STEP => 2 | QWE_LC_ACT_SIGTERM_GROUP => 3
  | QWE_LC_ACT_ARM_GRACE => 4 | QWE_LC_ACT_SIGKILL_GROUP => 5 | QWE_LC_ACT_RECORD_STEP => 6
  | QWE_LC_ACT_RECORD_JOB => 7 | QWE_LC_ACT_END_JOB => 8
  end.

Definition qwe_lc_action_name (a : qwe_lc_action) : string := nth (action_num a) action_names "?".

Definition qwe_lc_reason_name (r : qwe_lc_reason) : option string :=
  match r with
  | QWE_LC_REASON_DEPENDENCY_FAILED => Some "dependency-failed"
  | QWE_LC_REASON_CANCEL_REQUESTED => Some "cancel-requested"
  | QWE_LC_REASON_TIMEOUT => Some "timeout"
  | QWE_LC_REASON_ENGINE_ERROR => Some "engine-error"
  | _ => None
  end.

(** ** Predicates on states *)

Definition qwe_lc_next (c : qwe_lc_cell) (coe : bool) : qwe_lc_state :=
  state_of_num (state_num (c_next c) + (if c_coe_by_payload c && coe then 1 else 0)).

Definition qwe_lc_state_is_final (s : qwe_lc_state) : bool :=
  state_num QWE_LC_SUCCESS <=? state_num s.

Definition qwe_lc_state_teardown_started (s : qwe_lc_state) : bool :=
  (state_num QWE_LC_STEP_STOPPING <=? state_num s) &&
  (state_num s <=? state_num QWE_LC_SETTLING_CANCEL_REQUESTED_KILL).

Definition qwe_lc_state_is_running (s : qwe_lc_state) : bool :=
  (state_num QWE_LC_BETWEEN_STEPS <=? state_num s) &&
  (state_num s <=? state_num QWE_LC_SETTLING_CANCEL_REQUESTED_KILL).

(** The stale filter. *)
Definition qwe_lc_event_is_stale (s : qwe_lc_state) (e : qwe_lc_event)
    (event_step live_step : Z) : bool :=
  match e with
  | QWE_LC_EV_LEADER_EXIT_OK | QWE_LC_EV_LEADER_EXIT_FAIL | QWE_LC_EV_STEP_TIMEOUT
  | QWE_LC_EV_GRACE_EXPIRED | QWE_LC_EV_GROUP_EMPTY => negb (event_step =? live_step)%Z
  | QWE_LC_EV_JOB_TIMEOUT => qwe_lc_state_is_final s
  | _ => false
  end.

Definition qwe_lc_step_outcome (r : qwe_lc_result) : string :=
  if (state_num QWE_LC_SETTLING_CANCEL_TIMEOUT_TERM <=? state_num (r_next r)) &&
     (state_num (r_next r) <=? state_num QWE_LC_SETTLING_CANCEL_REQUESTED_KILL)
  then "cancelled"
  else match r_reason r with Some _ => "failed" | None => "success" end.

(** ** The lookup

    [inl] is the returned result.  [inr (s, e)] is the abort: the hook (if one
    is set) is called with [(s, e)], [qwe_lc_abort_diag s e] goes to stderr and
    the process aborts. *)
Definition qwe_lc_lookup (s : qwe_lc_state) (e : qwe_lc_event) (p : option qwe_lc_payload) :
    qwe_lc_result + (qwe_lc_state * qwe_lc_event) :=
  let c := qwe_lc_cell_at s e in
  if bool_decide (c_kind c = QWE_LC_IMPOSSIBLE) || bool_decide (c_kind c = QWE_LC_UNSET)
  then inr (s, e)
  else
    let p := match p with Some p => p | None => Payload false None None end in
    inl (Result
      (c_kind c)
      (match c_kind c with QWE_LC_IGNORE => s | _ => qwe_lc_next c (p_coe p) end)
      (c_reason c)
      (match c_reason c with
       | QWE_LC_REASON_FROM_EVENT => p_reason p
       | QWE_LC_REASON_CARRIED => p_carried p
       | r => qwe_lc_reason_name r
       end)
      (c_actions c)
      (c_why c)).

Definition qwe_lc_abort_diag (s : qwe_lc_state) (e : qwe_lc_event) : string :=
  ("qwe: internal error: event " ++ qwe_lc_event_name e ++ " cannot happen in state " ++
   qwe_lc_state_name s)%string.

(** ** The event model ([lifecycle_model.c]) *)

Module Model.

Definition job_timer_armed (s : qwe_lc_state) : bool :=
  (state_num QWE_LC_BETWEEN_STEPS <=? state_num s) &&
  (state_num s <=? state_num QWE_LC_SETTLING_CANCEL_REQUESTED_KILL).

Definition step_in_flight (s : qwe_lc_state) : bool :=
  (state_num QWE_LC_STEP_RUNNING <=? state_num s) &&
  (state_num s <=? state_num QWE_LC_SETTLING_CANCEL_REQUESTED_KILL).

Definition step_timer_may_fire (s : qwe_lc_state) : bool :=
  match s with
  | QWE_LC_STEP_STOPPING | QWE_LC_STEP_STOPPING_COE
  | QWE_LC_STEP_KILLING | QWE_LC_STEP_KILLING_COE => false
  | _ => step_in_flight s
  end.

Definition job_timer_may_fire (s : qwe_lc_state) : bool :=
  match s with
  | QWE_LC_SETTLING_CANCEL_TIMEOUT_TERM | QWE_LC_SETTLING_CANCEL_TIMEOUT_KILL => false
  | _ => job_timer_armed s
  end.

Definition grace_timer_running (s : qwe_lc_state) : bool :=
  match s with
  | QWE_LC_STEP_STOPPING | QWE_LC_STEP_STOPPING_COE | QWE_LC_SETTLING_CONTINUE_TERM
  | QWE_LC_SETTLING_FAIL_TERM | QWE_LC_SETTLING_CANCEL_TIMEOUT_TERM
  | QWE_LC_SETTLING_CANCEL_REQUESTED_TERM => true
  | _ => false
  end.

Definition waiting_for_empty_group (s : qwe_lc_state) : bool :=
  (state_num QWE_LC_SETTLING_CONTINUE_TERM <=? state_num s) &&
  (state_num s <=? state_num QWE_LC_SETTLING_CANCEL_REQUESTED_KILL).

(** [EV(e)], a one-bit mask. *)
Definition EV (e : qwe_lc_event) : N := N.shiftl 1 (N.of_nat (event_num e)).

Definition qwe_lcm_events (s : qwe_lc_state) : N :=
  match s with
  | QWE_LC_PENDING =>
      N.lor (N.lor (N.lor (EV QWE_LC_EV_NEEDS_MET) (EV QWE_LC_EV_NEEDS_FAILED))
        (EV QWE_LC_EV_CANCEL)) (EV QWE_LC_EV_SKIP)
  | QWE_LC_READY =>
      N.lor (N.lor (EV QWE_LC_EV_SLOT_GRANTED) (EV QWE_LC_EV_CANCEL)) (EV QWE_LC_EV_SKIP)
  | QWE_LC_SUCCESS | QWE_LC_FAILED | QWE_LC_SKIPPED | QWE_LC_CANCELLED => EV QWE_LC_EV_CANCEL
  | _ =>
      let ev :=
        match s with
        | QWE_LC_BETWEEN_STEPS =>
            N.lor (N.lor (EV QWE_LC_EV_NEXT_STEP) (EV QWE_LC_EV_NO_MORE_STEPS))
              (EV QWE_LC_EV_START_FAILED)
        | QWE_LC_STEP_RUNNING | QWE_LC_STEP_RUNNING_COE => EV QWE_LC_EV_START_FAILED
        | _ => 0%N
        end in
      let ev := if step_in_flight s
        then N.lor ev (N.lor (EV QWE_LC_EV_LEADER_EXIT_OK) (EV QWE_LC_EV_LEADER_EXIT_FAIL))
        else ev in
      let ev := if step_timer_may_fire s then N.lor ev (EV QWE_LC_EV_STEP_TIMEOUT) else ev in
      let ev := if job_timer_may_fire s then N.lor ev (EV QWE_LC_EV_JOB_TIMEOUT) else ev in
      let ev := if grace_timer_running s then N.lor ev (EV QWE_LC_EV_GRACE_EXPIRED) else ev in
      let ev := if waiting_for_empty_group s then N.lor ev (EV QWE_LC_EV_GROUP_EMPTY) else ev in
      if job_timer_armed s then N.lor ev (EV QWE_LC_EV_CANCEL) else ev
  end.

(** The bit of [e] in the set. *)
Definition can_occur (s : qwe_lc_state) (e : qwe_lc_event) : bool :=
  N.testbit (qwe_lcm_events s) (N.of_nat (event_num e)).

End Model.

(** ** Runs of the table

    What [dispatch_one] does with the table alone: the reason recorded last is
    carried into the lookup, and a RECORD_JOB action keeps the result's reason
    as the job's. *)

Record lc_conf := Conf {
  lc_state : qwe_lc_state;
  lc_last_reason : option string;
  lc_job_reason : option string;
}.

Definition lc_send (c : lc_conf) (e : qwe_lc_event) (p : qwe_lc_payload) :
    option (lc_conf * qwe_lc_result) :=
  match qwe_lc_lookup (lc_state c) e
          (Some (Payload (p_coe p) (p_reason p) (lc_last_reason c))) with
  | inr _ => None
  | inl r =>
      Some (Conf (r_next r)
              (match r_reason r with Some x => Some x | None => lc_last_reason c end)
              (if bool_decide (QWE_LC_ACT_RECORD_JOB ∈ r_actions r)
               then r_reason r else lc_job_reason c), r)
  end.

Fixpoint lc_run (evs : list (qwe_lc_event * qwe_lc_payload)) (c : lc_conf) :
    option (lc_conf * list (qwe_lc_event * qwe_lc_result)) :=
  match evs with
  | [] => Some (c, [])
  | (e, p) :: evs =>
      match lc_send c e p with
      | None => None
      | Some (c', r) =>
          match lc_run evs c' with
          | None => None
          | Some (c'', rs) => Some (c'', (e, r) :: rs)
          end
      end
  end.

(** *** The step protocol, as a monitor over the actions *)

Module Protocol.

Record mon := Mon {
  started : bool;      (* START_JOB was done *)
  live : bool;         (* a step is spawned and not finished *)
  termed : bool;       (* its group was sent SIGTERM *)
  graced : bool;       (* its grace timer was armed *)
  killed : bool;       (* its group was sent SIGKILL *)
  recorded : bool;     (* its outcome was recorded *)
  job_recorded : bool;
  ended : bool;
}.

Definition m0 : mon := Mon false false false false false false false false.

(** One action; [None] is a violation of the protocol. *)
Definition act (m : mon) (a : qwe_lc_action) : option mon :=
  let '(Mon st lv tm gr kl rc jr en) := m in
  if en then match a with QWE_LC_ACT_NONE => Some m | _ => None end
  else match a with
  | QWE_LC_ACT_NONE => Some m
  | QWE_LC_ACT_START_JOB => if st then None else Some (Mon true lv tm gr kl rc jr en)
  | QWE_LC_ACT_SPAWN_STEP =>
      if st && negb lv then Some (Mon st true false false false false jr en) else None
  | QWE_LC_ACT_SIGTERM_GROUP =>
      if lv && negb tm then Some (Mon st lv true gr kl rc jr en) else None
  | QWE_LC_ACT_ARM_GRACE =>
      if lv && tm && negb gr then Some (Mon st lv tm true kl rc jr en) else None
  | QWE_LC_ACT_SIGKILL_GROUP =>
      if lv && tm && gr && negb kl then Some (Mon st lv tm gr true rc jr en) else None
  | QWE_LC_ACT_RECORD_STEP =>
      if lv && negb rc then Some (Mon st lv tm gr kl true jr en) else None
  | QWE_LC_ACT_RECORD_JOB =>
      if jr then None else Some (Mon st lv tm gr kl rc true en)
  | QWE_LC_ACT_END_JOB =>
      if jr && implb lv rc then Some (Mon st false false false false false jr true) else None
  end.

Fixpoint acts (m : mon) (l : list qwe_lc_action) : option mon :=
  match l with
  | [] => Some m
  | a :: l => match act m a with None => None | Some m => acts m l end
  end.

(** The group of the live step is empty: the step is over, and may only be if
    it was signalled and recorded. *)
Definition finish (m : mon) : option mon :=
  if live m && termed m && graced m && recorded m
  then Some (Mon (started m) false false false false false (job_recorded m) (ended m))
  else None.

Definition observe (m : mon) (e : qwe_lc_event) (r : qwe_lc_result) : option mon :=
  match e with
  | QWE_LC_EV_GROUP_EMPTY =>
      match finish m with None => None | Some m => acts m (r_actions r) end
  | _ => acts m (r_actions r)
  end.

Fixpoint monitor (m : mon) (l : list (qwe_lc_event * qwe_lc_result)) : option mon :=
  match l with
  | [] => Some m
  | (e, r) :: l => match observe m e r with None => None | Some m => monitor m l end
  end.

(** What the state of the table says about the monitor. *)
Definition agrees (s : qwe_lc_state) (m : mon) : Prop :=
  let settled := Model.waiting_for_empty_group s in
  let killing := match s with
    | QWE_LC_STEP_KILLING | QWE_LC_STEP_KILLING_COE | QWE_LC_SETTLING_CONTINUE_KILL
    | QWE_LC_SETTLING_FAIL_KILL | QWE_LC_SETTLING_CANCEL_TIMEOUT_KILL
    | QWE_LC_SETTLING_CANCEL_REQUESTED_KILL => true
    | _ => false
    end in
  live m = Model.step_in_flight s /\
  termed m = qwe_lc_state_teardown_started s /\
  graced m = qwe_lc_state_teardown_started s /\
  killed m = killing /\
  recorded m = settled /\
  job_recorded m = qwe_lc_state_is_final s /\
  ended m = qwe_lc_state_is_final s /\
  (qwe_lc_state_is_final s = false -> started m = qwe_lc_state_is_running s).

End Protocol.

(** *** The outcome of a job, as an abstract machine

    It knows nothing of TERM and KILL: only whether a step is live, whether its
    own result is already decided, and the strongest trigger so far. *)

Module Outcome.

Inductive verdict :=
| VContinue
| VFail (reason : option string)
| VTimeout
| VCancel.

Definition rank (v : verdict) : nat :=
  match v with VContinue => 0 | VFail _ => 1 | VTimeout => 2 | VCancel => 3 end.

(** The stronger of the two; the earlier one when they are equally strong. *)
Definition raise (v t : verdict) : verdict := if rank v <? rank t then t else v.

Record spec := Spec { sp_live : bool; sp_decided : bool; sp_coe : bool; sp_ended : bool; sp_v : verdict }.

Definition sp0 : spec := Spec false false false false VContinue.

Definition step_failed (sp : spec) (reason : option string) : spec :=
  let '(Spec lv dc coe en v) := sp in
  Spec lv true coe en (if dc || coe then v else raise v (VFail reason)).

Definition step (sp : spec) (e : qwe_lc_event) (p : qwe_lc_payload) : spec :=
  let '(Spec lv dc coe en v) := sp in
  if en then sp else
  match e with
  | QWE_LC_EV_NEXT_STEP => Spec true false (p_coe p) en v
  | QWE_LC_EV_NO_MORE_STEPS => Spec lv dc coe true v
  | QWE_LC_EV_START_FAILED => Spec false dc coe true (raise v (VFail (Some "engine-error")))
  | QWE_LC_EV_LEADER_EXIT_OK => Spec lv true coe en v
  | QWE_LC_EV_LEADER_EXIT_FAIL => step_failed sp (p_reason p)
  | QWE_LC_EV_STEP_TIMEOUT => step_failed sp (Some "timeout")
  | QWE_LC_EV_JOB_TIMEOUT => Spec lv dc coe (negb lv) (raise v VTimeout)
  | QWE_LC_EV_CANCEL => Spec lv dc coe (negb lv) (raise v VCancel)
  | QWE_LC_EV_GROUP_EMPTY =>
      Spec false dc coe (match v with VContinue => false | _ => true end) v
  | _ => sp
  end.

Fixpoint steps (sp : spec) (evs : list (qwe_lc_event * qwe_lc_payload)) : spec :=
  match evs with [] => sp | (e, p) :: evs => steps (step sp e p) evs end.

(** The job's final state and recorded reason for a verdict. *)
Definition outcome (v : verdict) : qwe_lc_state * option string :=
  match v with
  | VContinue => (QWE_LC_SUCCESS, None)
  | VFail r => (QWE_LC_FAILED, r)
  | VTimeout => (QWE_LC_CANCELLED, Some "timeout")
  | VCancel => (QWE_LC_CANCELLED, Some "cancel-requested")
  end.

End Outcome.

(** ** Lemmas *)

(** One lookup at a known state and event reduces to its cell. *)
Lemma lc_send_inv c e p c' r :
  lc_send c e p = Some (c', r) ->
  exists cell, cell = qwe_lc_cell_at (lc_state c) e /\
  (c_kind cell = QWE_LC_TRANSITION \/ c_kind cell = QWE_LC_IGNORE) /\
  r_kind r = c_kind cell /\ r_actions r = c_actions cell /\ lc_state c' = r_next r.
Proof.
  unfold lc_send, qwe_lc_lookup. intros H. eexists. split; [done |].
  destruct (c_kind (qwe_lc_cell_at (lc_state c) e)) eqn:E; simplify_eq/=; auto 10.
Qed.

Lemma lc_run_cons e p evs c c'' rs :
  lc_run ((e, p) :: evs) c = Some (c'', rs) ->
  exists c' r rs', lc_send c e p = Some (c', r) /\ lc_run evs c' = Some (c'', rs') /\
    rs = (e, r) :: rs'.
Proof.
  simpl. intros H. destruct (lc_send c e p) as [[c1 r]|]; [| done].
  destruct (lc_run evs c1) as [[c2 rs2]|] eqn:E; [| done]. simplify_eq. eauto 10.
Qed.

(** *** Bounded runs *)

Definition is_transition (er : qwe_lc_event * qwe_lc_result) : bool :=
  bool_decide (r_kind (snd er) = QWE_LC_TRANSITION).

Definition is_next_step (ep : qwe_lc_event * qwe_lc_payload) : bool :=
  bool_decide (fst ep = QWE_LC_EV_NEXT_STEP).

Fixpoint count {A} (f : A -> bool) (l : list A) : nat :=
  match l with [] => 0 | x :: l => (if f x then 1 else 0) + count f l end.

(** How many more transitions a state allows before a new step is started. *)
Definition potential (s : qwe_lc_state) : nat :=
  match s with
  | QWE_LC_PENDING => 4 | QWE_LC_READY => 3 | QWE_LC_BETWEEN_STEPS => 2
  | QWE_LC_STEP_RUNNING | QWE_LC_STEP_RUNNING_COE => 6
  | QWE_LC_STEP_STOPPING | QWE_LC_STEP_STOPPING_COE => 5
  | QWE_LC_STEP_KILLING | QWE_LC_STEP_KILLING_COE => 4
  | QWE_LC_SETTLING_CONTINUE_TERM | QWE_LC_SETTLING_FAIL_TERM => 4
  | QWE_LC_SETTLING_CONTINUE_KILL | QWE_LC_SETTLING_FAIL_KILL => 3
  | QWE_LC_SETTLING_CANCEL_TIMEOUT_TERM => 3
  | QWE_LC_SETTLING_CANCEL_TIMEOUT_KILL => 2
  | QWE_LC_SETTLING_CANCEL_REQUESTED_TERM => 2
  | QWE_LC_SETTLING_CANCEL_REQUESTED_KILL => 1
  | _ => 0
  end.

Lemma potential_step c e p c' r :
  lc_send c e p = Some (c', r) ->
  (if is_transition (e, r) then 1 else 0) + potential (lc_state c') <=
  potential (lc_state c) + (if is_next_step (e, p) then 5 else 0).
Proof.
  destruct c as [s l j], p as [coe rs ca]. unfold lc_send.
  destruct s, e; vm_compute; intros; simplify_eq; vm_compute; try lia; destruct coe; vm_compute; lia.
Qed.

Lemma potential_run evs c c' rs :
  lc_run evs c = Some (c', rs) ->
  count is_transition rs + potential (lc_state c') <=
  potential (lc_state c) + 5 * count is_next_step evs.
Proof.
  revert c rs. induction evs as [|[e p] evs IH]; intros c rs H.
  - simpl in H. simplify_eq. simpl. lia.
  - apply lc_run_cons in H as (c1 & r & rs' & H1 & H2 & ->).
    apply potential_step in H1. apply IH in H2. simpl.
    destruct (is_transition (e, r)), (is_next_step (e, p)); lia.
Qed.

(** *** Protocol *)

Lemma protocol_step c e p c' r m :
  lc_send c e p = Some (c', r) -> Protocol.agrees (lc_state c) m ->
  exists m', Protocol.observe m e r = Some m' /\ Protocol.agrees (lc_state c') m'.
Proof.
  destruct c as [s l j], p as [coe rs ca], m as [st lv tm gr kl rc jr en].
  unfold lc_send, Protocol.agrees. cbn [lc_state Protocol.live Protocol.termed Protocol.graced
    Protocol.killed Protocol.recorded Protocol.job_recorded Protocol.ended Protocol.started].
  intros H (? & ? & ? & ? & ? & ? & ? & Hst).
  destruct s, e; vm_compute in H; try discriminate; simplify_eq;
    try (specialize (Hst eq_refl)); subst; try destruct coe; vm_compute;
    eexists; (split; [reflexivity |]); repeat split; naive_solver.
Qed.

Lemma protocol_run evs c c' rs m :
  lc_run evs c = Some (c', rs) -> Protocol.agrees (lc_state c) m ->
  exists m', Protocol.monitor m rs = Some m' /\ Protocol.agrees (lc_state c') m'.
Proof.
  revert c rs m. induction evs as [|[e p] evs IH]; intros c rs m H Hm.
  - simpl in H. simplify_eq. eauto.
  - apply lc_run_cons in H as (c1 & r & rs' & H1 & H2 & ->).
    destruct (protocol_step _ _ _ _ _ _ H1 Hm) as (m1 & Ho & Hm1).
    simpl. rewrite Ho. eauto.
Qed.

(** *** Outcome *)

(** The shell gives every failing leader exit a reason. *)
Definition reason_given (ep : qwe_lc_event * qwe_lc_payload) : Prop :=
  fst ep = QWE_LC_EV_LEADER_EXIT_FAIL -> is_Some (p_reason (snd ep)).

Definition simulates (c : lc_conf) (sp : Outcome.spec) : Prop :=
  let '(Conf s last jr) := c in
  let '(Outcome.Spec lv dc coe en v) := sp in
  match s with
  | QWE_LC_PENDING | QWE_LC_READY => False
  | QWE_LC_BETWEEN_STEPS => lv = false /\ en = false /\ v = Outcome.VContinue
  | QWE_LC_STEP_RUNNING => lv = true /\ dc = false /\ coe = false /\ en = false /\ v = Outcome.VContinue
  | QWE_LC_STEP_RUNNING_COE => lv = true /\ dc = false /\ coe = true /\ en = false /\ v = Outcome.VContinue
  | QWE_LC_STEP_STOPPING | QWE_LC_STEP_KILLING =>
      lv = true /\ dc = true /\ en = false /\ v = Outcome.VFail (Some "timeout")
  | QWE_LC_STEP_STOPPING_COE | QWE_LC_STEP_KILLING_COE | QWE_LC_SETTLING_CONTINUE_TERM
  | QWE_LC_SETTLING_CONTINUE_KILL =>
      lv = true /\ dc = true /\ en = false /\ v = Outcome.VContinue
  | QWE_LC_SETTLING_FAIL_TERM | QWE_LC_SETTLING_FAIL_KILL =>
      lv = true /\ dc = true /\ en = false /\ v = Outcome.VFail last
  | QWE_LC_SETTLING_CANCEL_TIMEOUT_TERM | QWE_LC_SETTLING_CANCEL_TIMEOUT_KILL =>
      lv = true /\ en = false /\ v = Outcome.VTimeout
  | QWE_LC_SETTLING_CANCEL_REQUESTED_TERM | QWE_LC_SETTLING_CANCEL_REQUESTED_KILL =>
      lv = true /\ en = false /\ v = Outcome.VCancel
  | QWE_LC_SUCCESS | QWE_LC_FAILED | QWE_LC_SKIPPED | QWE_LC_CANCELLED =>
      en = true /\ (s, jr) = Outcome.outcome v
  end.

Lemma simulates_step c e p c' r sp :
  reason_given (e, p) -> lc_send c e p = Some (c', r) -> simulates c sp ->
  simulates c' (Outcome.step sp e p).
Proof.
  destruct c as [s l j], p as [coe rs ca], sp as [lv dc co en v].
  unfold lc_send, reason_given. simpl. intros Hr H Hs.
  destruct s, e; vm_compute in H; try discriminate; simplify_eq; cbn in Hs; destruct_and?; subst;
    try (specialize (Hr eq_refl); destruct rs; [clear Hr | by destruct Hr]);
    try (destruct coe); try (destruct dc); try (destruct co); cbn; try naive_solver.
Qed.

Lemma simulates_run evs c c' rs sp :
  Forall reason_given evs -> lc_run evs c = Some (c', rs) -> simulates c sp ->
  simulates c' (Outcome.steps sp evs).
Proof.
  revert c rs sp. induction evs as [|[e p] evs IH]; intros c rs sp Hf H Hs.
  - simpl in H. by simplify_eq.
  - apply lc_run_cons in H as (c1 & r & rs' & H1 & H2 & ->). apply Forall_cons_1 in Hf as [Hr Hf].
    simpl. eapply IH; [done | done |]. by eapply simulates_step.
Qed.

(** ** Properties *)

(** C39. The table is total and agrees with the independent event model: no cell
    is left unclassified, and a cell is impossible exactly for the events that
    cannot physically occur in its state. *)
Theorem table_matches_model :
  forall s e, c_kind (qwe_lc_cell_at s e) <> QWE_LC_UNSET /\
  (c_kind (qwe_lc_cell_at s e) <> QWE_LC_IMPOSSIBLE <-> Model.can_occur s e = true).
Proof. intros s e. destruct s, e; vm_compute; repeat split; congruence. Qed.

(** C38. Runs are bounded: from [pending], whatever events arrive in whatever
    order, the table makes at most four transitions plus five per step started,
    so a job cannot cycle and its teardown cannot go on for ever. *)
Theorem lc_run_bounded evs c rs :
  lc_run evs (Conf QWE_LC_PENDING None None) = Some (c, rs) ->
  count is_transition rs <= 4 + 5 * count is_next_step evs.
Proof. intros H. apply potential_run in H. cbn [lc_state potential] in H. lia. Qed.

Definition pl0 : qwe_lc_payload := Payload false None None.

(** A job whose only step times out, ignores TERM, is killed, and whose group
    then empties. *)
Definition timeout_run : list (qwe_lc_event * qwe_lc_payload) :=
  [(QWE_LC_EV_NEEDS_MET, pl0); (QWE_LC_EV_SLOT_GRANTED, pl0); (QWE_LC_EV_NEXT_STEP, pl0);
   (QWE_LC_EV_STEP_TIMEOUT, pl0); (QWE_LC_EV_GRACE_EXPIRED, pl0);
   (QWE_LC_EV_LEADER_EXIT_FAIL, Payload false (Some "exit-code") None);
   (QWE_LC_EV_GROUP_EMPTY, pl0)].

Lemma lc_run_bounded_witness :
  exists c rs, lc_run timeout_run (Conf QWE_LC_PENDING None None) = Some (c, rs) /\
  lc_state c = QWE_LC_FAILED /\ lc_job_reason c = Some "timeout" /\
  count is_transition rs <= 4 + 5 * count is_next_step timeout_run.
Proof.
  eexists _, _. split; [vm_compute; reflexivity |]. do 2 (split; [reflexivity |]).
  eapply (lc_run_bounded timeout_run). vm_compute. reflexivity.
Defined.

(** C7. Every run follows the step protocol: a job is started once and before
    any step; a step is spawned only when no other is live; each step's group
    gets one TERM, then one grace timer, and at most one KILL, in that order;
    a step's outcome is recorded once, and a step ends only when signalled and
    recorded; the job's outcome is recorded and the job ended exactly once, and
    nothing follows; and the monitor's view always matches the table's state. *)
Theorem lc_run_protocol evs c rs :
  lc_run evs (Conf QWE_LC_PENDING None None) = Some (c, rs) ->
  exists m, Protocol.monitor Protocol.m0 rs = Some m /\ Protocol.agrees (lc_state c) m.
Proof. intros H. eapply protocol_run; [done |]. vm_compute. naive_solver. Qed.

Lemma lc_run_protocol_witness :
  exists c rs, lc_run timeout_run (Conf QWE_LC_PENDING None None) = Some (c, rs) /\
  exists m, Protocol.monitor Protocol.m0 rs = Some m /\ Protocol.agrees (lc_state c) m.
Proof.
  eexists _, _. split; [vm_compute; reflexivity |].
  eapply (lc_run_protocol timeout_run). vm_compute. reflexivity.
Defined.

(** C19. The outcome of a started job is decided by the strongest trigger it met,
    in the order operator cancel, job timeout, failed step, nothing; between
    equals the first one counts, and a failure of a continue-on-error step does
    not count.  The table's final state and recorded reason are exactly those
    of that verdict, and the job is final exactly when the abstract machine has
    ended. *)
Theorem lc_run_outcome evs last c rs :
  Forall reason_given evs ->
  lc_run evs (Conf QWE_LC_BETWEEN_STEPS last None) = Some (c, rs) ->
  let sp := Outcome.steps Outcome.sp0 evs in
  qwe_lc_state_is_final (lc_state c) = Outcome.sp_ended sp /\
  (qwe_lc_state_is_final (lc_state c) = true ->
   (lc_state c, lc_job_reason c) = Outcome.outcome (Outcome.sp_v sp)).
Proof.
  intros Hf H. eapply (simulates_run _ _ _ _ Outcome.sp0) in H; [| done | done].
  simpl. destruct (Outcome.steps Outcome.sp0 evs) as [lv dc co en v], c as [s l j].
  destruct s; cbn in *; destruct_and?; subst; (split; [done | intros; done]).
Qed.

(** A step fails; while it settles the job times out, and then the operator
    cancels: the cancel wins. *)
Definition precedence_run : list (qwe_lc_event * qwe_lc_payload) :=
  [(QWE_LC_EV_NEXT_STEP, pl0); (QWE_LC_EV_LEADER_EXIT_FAIL, Payload false (Some "exit-code") None);
   (QWE_LC_EV_JOB_TIMEOUT, pl0); (QWE_LC_EV_CANCEL, pl0); (QWE_LC_EV_GROUP_EMPTY, pl0);
   (QWE_LC_EV_CANCEL, pl0)].

Lemma lc_run_outcome_witness :
  exists c rs, lc_run precedence_run (Conf QWE_LC_BETWEEN_STEPS None None) = Some (c, rs) /\
  let sp := Outcome.steps Outcome.sp0 precedence_run in
  qwe_lc_state_is_final (lc_state c) = Outcome.sp_ended sp /\
  (qwe_lc_state_is_final (lc_state c) = true ->
   (lc_state c, lc_job_reason c) = Outcome.outcome (Outcome.sp_v sp)).
Proof.
  eexists _, _. split; [vm_compute; reflexivity |].
  eapply (lc_run_outcome precedence_run None).
  - repeat constructor; unfold reason_given; simpl; try discriminate; intros; eauto.
  - vm_compute. reflexivity.
Defined.
