(* ===== verification/Dag.v ===== *)
(** * The [needs:] graph check

    Models [src/kernel/dag.h] and [src/kernel/dag.c]: the search for unknown
    needs, then a depth-first search with colours and an explicit stack.
    Recursion in [visit] takes fuel; [qwe_dag_check] gives it one more than the
    number of jobs, and the theorems show that this is enough and that no array
    is read or written out of bounds.  [calloc] failing is an argument. *)

From S2P Require Import Prelude.
From Stdlib Require Import Ascii NArith ZArith Lia.
From stdpp Require Import base list strings numbers relations.

(** ** Data *)

Record qwe_dag_job := DagJob { dj_id : string; dj_needs : list string }.

Inductive qwe_dag_status := QWE_DAG_OK | QWE_DAG_UNKNOWN_NEED | QWE_DAG_CYCLE | QWE_DAG_NO_MEMORY.

#[export] Instance qwe_dag_status_eq_dec : EqDecision qwe_dag_status.
Proof. solve_decision. Defined.

Record qwe_dag_error := DagError {
  de_status : qwe_dag_status;
  de_job : nat;
  de_need : nat;
  de_message : bytes;
}.

(** [memset(err, 0, sizeof *err)] *)
Definition dag_error0 : qwe_dag_error := DagError QWE_DAG_OK 0 0 [].

(** [sizeof err->message] *)
Definition MESSAGE_SIZE : nat := 256.

(** The index of the first job with that id; [None] is the code's -1. *)
Fixpoint find_from (i : nat) (jobs : list qwe_dag_job) (id : string) : option nat :=
  match jobs with
  | [] => None
  | j :: jobs => if decide (dj_id j = id) then Some i else find_from (S i) jobs id
  end.

Definition find (jobs : list qwe_dag_job) (id : string) : option nat := find_from 0 jobs id.

Inductive color := WHITE | GREY | BLACK.

#[export] Instance color_eq_dec : EqDecision color.
Proof. solve_decision. Defined.

Record walk := Walk {
  w_color : list color;
  w_stack : list nat;
  w_depth : nat;
  w_err : qwe_dag_error;
}.

(** [while (w->stack[s] != d) s++;] from [s] on. *)
Fixpoint stack_pos (s : nat) (stack : list nat) (d : nat) : cres nat :=
  match stack with
  | [] => CUndef
  | x :: stack => if decide (x = d) then CRet s else stack_pos (S s) stack d
  end.

(** [jobs[i].id], for the message. *)
Definition job_name (jobs : list qwe_dag_job) (i : nat) : cres bytes :=
  j ← cread jobs i; mret (bytes_of (dj_id j)).

(** The loop that prints the stack from [s] to the top, [n] entries long. *)
Fixpoint print_cycle (jobs : list qwe_dag_job) (stack : list nat) (n s len : nat) (msg : bytes) :
    cres (nat * bytes) :=
  match n with
  | 0 => CRet (len, msg)
  | S n =>
      if len <? MESSAGE_SIZE then
        j ← cread stack s;
        name ← job_name jobs j;
        let text := name ++ bytes_of " -> " in
        print_cycle jobs stack n (S s) (len + length text) (snprintf_at MESSAGE_SIZE len msg text)
      else CRet (len, msg)
  end.

(** The error for the cycle that starts at job [d] of the stack. *)
Definition cycle_error (jobs : list qwe_dag_job) (w : walk) (d : nat) : cres qwe_dag_error :=
  s ← stack_pos 0 (w_stack w) d;
  let head := bytes_of "needs cycle: " in
  '(len, msg) ← print_cycle jobs (w_stack w) (w_depth w - s) s (length head)
                  (qwe_msg MESSAGE_SIZE head);
  msg ← (if len <? MESSAGE_SIZE
         then name ← job_name jobs d; mret (snprintf_at MESSAGE_SIZE len msg name)
         else mret msg);
  mret (DagError QWE_DAG_CYCLE d (de_need (w_err w)) msg).

(** The loop over the needs of one job; [rec] visits a job. *)
Fixpoint visit_needs (rec : walk -> nat -> cres (walk * bool)) (jobs : list qwe_dag_job)
    (needs : list string) (w : walk) : cres (walk * bool) :=
  match needs with
  | [] => CRet (w, false)
  | need :: needs =>
      match find jobs need with
      | None => CUndef (* (size_t)-1 as an index *)
      | Some d =>
          c ← cread (w_color w) d;
          match c with
          | GREY =>
              err ← cycle_error jobs w d;
              mret (Walk (w_color w) (w_stack w) (w_depth w) err, true)
          | WHITE =>
              '(w, found) ← rec w d;
              if (found : bool) then mret (w, true) else visit_needs rec jobs needs w
          | BLACK => visit_needs rec jobs needs w
          end
      end
  end.

Fixpoint visit (fuel : nat) (jobs : list qwe_dag_job) (w : walk) (j : nat) : cres (walk * bool) :=
  match fuel with
  | 0 => CFuel
  | S fuel =>
      color ← cwrite (w_color w) j GREY;
      stack ← cwrite (w_stack w) (w_depth w) j;
      job ← cread jobs j;
      '(w, found) ← visit_needs (visit fuel jobs) jobs (dj_needs job)
                       (Walk color stack (S (w_depth w)) (w_err w));
      if (found : bool) then mret (w, true)
      else
        color ← cwrite (w_color w) j BLACK;
        mret (Walk color (w_stack w) (w_depth w - 1) (w_err w), false)
  end.

(** [for (i = ...; i < n && !found; i++) if (w.color[i] == WHITE) found = visit(&w, i);]
    over [k] jobs from [i]. *)
Fixpoint visit_all (fuel : nat) (jobs : list qwe_dag_job) (k i : nat) (w : walk) :
    cres (walk * bool) :=
  match k with
  | 0 => CRet (w, false)
  | S k =>
      c ← cread (w_color w) i;
      '(w, found) ← (match c with WHITE => visit fuel jobs w i | _ => mret (w, false) end);
      if (found : bool) then mret (w, true) else visit_all fuel jobs k (S i) w
  end.

(** The first need of one job that names no job. *)
Fixpoint unknown_need (jobs : list qwe_dag_job) (k : nat) (needs : list string) :
    option (nat * string) :=
  match needs with
  | [] => None
  | need :: needs =>
      match find jobs need with
      | None => Some (k, need)
      | Some _ => unknown_need jobs (S k) needs
      end
  end.

(** The first job with one: its index, the need's, and the message. *)
Fixpoint unknown_needs (jobs : list qwe_dag_job) (i : nat) (rest : list qwe_dag_job) :
    option qwe_dag_error :=
  match rest with
  | [] => None
  | j :: rest =>
      match unknown_need jobs 0 (dj_needs j) with
      | Some (k, need) =>
          Some (DagError QWE_DAG_UNKNOWN_NEED i k
            (qwe_msg MESSAGE_SIZE
               (bytes_of "job " ++ DQ :: bytes_of (dj_id j) ++ DQ :: bytes_of " needs " ++
                DQ :: bytes_of need ++ DQ :: bytes_of ", which is not a job")))
      | None => unknown_needs jobs (S i) rest
      end
  end.

(** The return value and [*err].  [mem] says whether both [calloc]s succeed. *)
Definition qwe_dag_check (mem : bool) (jobs : list qwe_dag_job) :
    cres (qwe_dag_status * qwe_dag_error) :=
  match unknown_needs jobs 0 jobs with
  | Some err => CRet (de_status err, err)
  | None =>
      let n := length jobs in
      let size := if decide (n = 0) then 1 else n in
      if mem then
        '(w, found) ← visit_all (S n) jobs n 0
                         (Walk (repeat WHITE size) (repeat 0 size) 0 dag_error0);
        mret (if (found : bool) then de_status (w_err w) else QWE_DAG_OK, w_err w)
      else
        CRet (QWE_DAG_NO_MEMORY,
              DagError QWE_DAG_NO_MEMORY 0 0
                (qwe_msg MESSAGE_SIZE
                   (bytes_of "cannot check the needs: graph: out of memory")))
  end.

(** ** The graph *)

(** Job [i] needs job [j]. *)
Definition edge (jobs : list qwe_dag_job) (i j : nat) : Prop :=
  exists job need, jobs !! i = Some job /\ need ∈ dj_needs job /\ find jobs need = Some j.

Definition known (jobs : list qwe_dag_job) : Prop :=
  forall i job need, jobs !! i = Some job -> need ∈ dj_needs job -> is_Some (find jobs need).

Definition acyclic (jobs : list qwe_dag_job) : Prop := forall i, ~ tc (edge jobs) i i.

(** A path: each job needs the next. *)
Definition chain (jobs : list qwe_dag_job) (l : list nat) : Prop :=
  forall k a b, l !! k = Some a -> l !! S k = Some b -> edge jobs a b.

(** The text for a cycle through the jobs of [l], back to [d]. *)
Definition name_of (jobs : list qwe_dag_job) (i : nat) : bytes :=
  match jobs !! i with Some j => bytes_of (dj_id j) | None => [] end.

Definition cycle_text (jobs : list qwe_dag_job) (l : list nat) (d : nat) : bytes :=
  bytes_of "needs cycle: " ++ concat ((fun i => name_of jobs i ++ bytes_of " -> ") <$> l) ++
  name_of jobs d.

(** What a reported cycle is: a path of needs from job [de_job] back to itself,
    named in the message as far as the buffer holds it. *)
Definition good_cycle (jobs : list qwe_dag_job) (e : qwe_dag_error) : Prop :=
  de_status e = QWE_DAG_CYCLE /\
  exists l x, head l = Some (de_job e) /\ last l = Some x /\ chain jobs l /\
    edge jobs x (de_job e) /\
    de_message e = take (MESSAGE_SIZE - 1) (cycle_text jobs l (de_job e)).

Definition path (w : walk) : list nat := take (w_depth w) (w_stack w).

(** ** Lemmas *)

Section proofs.
Context (jobs : list qwe_dag_job).

#[local] Opaque MESSAGE_SIZE.
#[local] Arguments Nat.sub : simpl never.

Lemma find_from_spec l i id k :
  find_from i l id = Some k -> i <= k < i + length l /\ exists j, l !! (k - i) = Some j /\ dj_id j = id.
Proof.
  revert i. induction l as [|j l IH]; intros i; simpl; [done |].
  case_decide as Hid.
  - intros [= <-]. split; [lia |]. exists j. by rewrite Nat.sub_diag.
  - intros H. apply IH in H as [Hk (j' & Hl & Hd)]. split; [lia |]. exists j'.
    replace (k - i) with (S (k - S i)) by lia. done.
Qed.

Lemma find_lt id k : find jobs id = Some k -> k < length jobs.
Proof. intros H. apply find_from_spec in H. lia. Qed.

Lemma edge_lt i j : edge jobs i j -> i < length jobs /\ j < length jobs.
Proof.
  intros (job & need & Hi & _ & Hf). split; [by eapply lookup_lt_Some | by eapply find_lt].
Qed.

Lemma chain_app_edge l x : chain jobs l -> (forall y, last l = Some y -> edge jobs y x) ->
  chain jobs (l ++ [x]).
Proof.
  intros Hc Hl k a b Ha Hb.
  destruct (decide (S k < length l)) as [Hlt|Hge].
  - rewrite lookup_app_l in Ha by lia. rewrite lookup_app_l in Hb by lia. by eapply Hc.
  - apply lookup_app_Some in Hb as [Hb|[Hle Hb]].
    { apply lookup_lt_Some in Hb. lia. }
    apply list_lookup_singleton_Some in Hb as [Hb ->].
    rewrite lookup_app_l in Ha by lia. apply Hl. rewrite last_lookup.
    by replace (Nat.pred (length l)) with k by lia.
Qed.

Lemma chain_drop l s : chain jobs l -> chain jobs (drop s l).
Proof.
  intros Hc k a b. rewrite !lookup_drop. replace (s + S k) with (S (s + k)) by lia. apply Hc.
Qed.

(** A path reaches from its head to its last element. *)
Lemma chain_tc l a x y : head l = Some a -> last l = Some x -> chain jobs l ->
  edge jobs x y -> tc (edge jobs) a y.
Proof.
  revert a. induction l as [|b l IH]; intros a Hh Hl Hc He; [done |].
  simpl in Hh. simplify_eq. destruct l as [|c l].
  - simpl in Hl. simplify_eq. by constructor.
  - eapply tc_l; [by apply (Hc 0) |]. apply IH; try done.
    intros k u v Hu Hv. by apply (Hc (S k)).
Qed.

Lemma good_cycle_tc e : good_cycle jobs e -> tc (edge jobs) (de_job e) (de_job e).
Proof. intros [_ (l & x & ? & ? & ? & ? & _)]. by eapply chain_tc. Qed.

Lemma nodup_bound (l : list nat) n : NoDup l -> (forall x, x ∈ l -> x < n) -> length l <= n.
Proof.
  intros Hn Hb. rewrite <- (length_seq n 0). apply List.NoDup_incl_length.
  - by apply NoDup_ListNoDup.
  - intros x Hx. apply in_seq. apply list_elem_of_In, Hb in Hx. lia.
Qed.

(** *** The message *)

Lemma job_name_ok i : i < length jobs -> job_name jobs i = CRet (name_of jobs i).
Proof.
  intros Hi. unfold job_name, name_of, cread. apply lookup_lt_is_Some in Hi as [j ->]. done.
Qed.

Lemma snprintf_at_full (p s : bytes) : length p < MESSAGE_SIZE ->
  snprintf_at MESSAGE_SIZE (length p) (take (MESSAGE_SIZE - 1) p) s = take (MESSAGE_SIZE - 1) (p ++ s).
Proof.
  intros. unfold snprintf_at. rewrite take_take, Nat.min_l, firstn_all by lia.
  by rewrite take_app_ge by lia.
Qed.

Lemma print_cycle_ok stack n s p :
  s + n <= length stack -> (forall x, x ∈ take n (drop s stack) -> x < length jobs) ->
  let full := p ++ concat ((fun i => name_of jobs i ++ bytes_of " -> ") <$> take n (drop s stack)) in
  exists len, print_cycle jobs stack n s (length p) (take (MESSAGE_SIZE - 1) p) =
      CRet (len, take (MESSAGE_SIZE - 1) full) /\
    (len < MESSAGE_SIZE -> len = length full) /\
    (MESSAGE_SIZE <= len -> MESSAGE_SIZE <= length full).
Proof.
  revert s p. induction n as [|n IH]; intros s p Hs Hb; simpl.
  { rewrite app_nil_r. eauto with lia. }
  destruct (lookup_lt_is_Some_2 stack s) as [x Hx]; [lia |].
  rewrite (drop_S _ _ _ Hx) in *. simpl in *.
  destruct (length p <? MESSAGE_SIZE) eqn:E.
  2: { apply Nat.ltb_ge in E. exists (length p). rewrite length_app.
       split; [by rewrite take_app_le by lia |]. lia. }
  apply Nat.ltb_lt in E. rewrite (cread_Some _ _ _ Hx). simpl.
  rewrite job_name_ok by (apply Hb; set_solver). simpl.
  rewrite snprintf_at_full, <- length_app by done.
  destruct (IH (S s) (p ++ name_of jobs x ++ bytes_of " -> ")) as (len & Hp & Hl & Hg);
    [lia | set_solver |].
  exists len. rewrite Hp, <- !app_assoc. split; [done |]. by rewrite <- !app_assoc in Hl, Hg.
Qed.

Lemma stack_pos_ok l d s : d ∈ l -> exists k, stack_pos s l d = CRet (s + k) /\ l !! k = Some d /\
  forall k', k' < k -> l !! k' <> Some d.
Proof.
  revert s. induction l as [|x l IH]; intros s Hd; [set_solver |].
  simpl. case_decide as Hx.
  - exists 0. rewrite Nat.add_0_r. subst. split_and!; [done | done | lia].
  - destruct (IH (S s)) as (k & Hk & Hlk & Hmin); [set_solver |].
    exists (S k). rewrite Hk. split_and!; [f_equal; lia | done |].
    intros [|k'] Hk'; simpl; [congruence | apply Hmin; lia].
Qed.

Lemma cycle_error_ok w d x :
  d ∈ path w -> (forall y, y ∈ path w -> y < length jobs) -> w_depth w <= length (w_stack w) ->
  last (path w) = Some x -> chain jobs (path w) -> edge jobs x d ->
  exists e, cycle_error jobs w d = CRet e /\ good_cycle jobs e.
Proof.
  intros Hd Hb Hlen Hx Hc He. unfold path in *.
  assert (exists s, stack_pos 0 (w_stack w) d = CRet s /\ s < w_depth w /\ w_stack w !! s = Some d)
    as (s & Hs & Hlt & Hsd).
  { apply list_elem_of_lookup in Hd as [k Hk]. apply lookup_take_Some in Hk as [Hk Hkd].
    destruct (stack_pos_ok (w_stack w) d 0) as (s & Hs & Hsd & Hmin).
    { apply list_elem_of_lookup; eauto. }
    exists s. split_and!; [done | | done].
    destruct (decide (s <= k)); [lia |]. exfalso. apply (Hmin k); [lia | done]. }
  set (l := take (w_depth w - s) (drop s (w_stack w))).
  assert (Hl : l = drop s (path w)).
  { unfold l, path. rewrite skipn_firstn_comm. done. }
  unfold cycle_error. rewrite Hs. simpl.
  destruct (print_cycle_ok (w_stack w) (w_depth w - s) s (bytes_of "needs cycle: "))
    as (len & Hp & Hfit & Hcut).
  { lia. }
  { intros y Hy. apply Hb. fold l in Hy. rewrite Hl in Hy. unfold path in Hy.
    apply list_elem_of_lookup in Hy as [k Hk]. rewrite lookup_drop in Hk.
    apply list_elem_of_lookup; eauto. }
  change (qwe_msg MESSAGE_SIZE ?h) with (take (MESSAGE_SIZE - 1) h).
  change 13 with (length (bytes_of "needs cycle: ")).
  rewrite Hp. fold l in Hfit, Hcut |- *. simpl.
  set (full := bytes_of "needs cycle: " ++ _) in *.
  assert (Hfin : forall m, m = take (MESSAGE_SIZE - 1) (full ++ name_of jobs d) ->
    good_cycle jobs (DagError QWE_DAG_CYCLE d (de_need (w_err w)) m)).
  { intros m ->. split; [done |]. simpl. exists l, x. rewrite Hl. unfold path. split_and!.
    - rewrite head_lookup, lookup_drop, Nat.add_0_r, lookup_take_lt by lia. done.
    - rewrite last_lookup, lookup_drop, length_drop, length_take, <- Hx, last_lookup, length_take.
      f_equal. lia.
    - by apply chain_drop.
    - done.
    - unfold cycle_text. rewrite app_assoc. fold (path w). rewrite <- Hl. done. }
  destruct (len <? MESSAGE_SIZE) eqn:E.
  - apply Nat.ltb_lt in E. rewrite job_name_ok by (by apply Hb). simpl.
    specialize (Hfit E). subst len. eexists. split; [done |].
    apply Hfin. by apply snprintf_at_full.
  - apply Nat.ltb_ge in E. eexists. split; [done |]. apply Hfin.
    specialize (Hcut E). by rewrite take_app_le by lia.
Qed.

(** *** The search *)

Record inv (w : walk) : Prop := {
  inv_color_len : length jobs <= length (w_color w);
  inv_stack_len : length jobs <= length (w_stack w);
  inv_depth : w_depth w <= length (w_stack w);
  inv_nodup : NoDup (path w);
  inv_lt : forall x, x ∈ path w -> x < length jobs;
  inv_grey : forall x, w_color w !! x = Some GREY <-> x ∈ path w;
  inv_chain : chain jobs (path w);
  inv_closed : forall x y, w_color w !! x = Some BLACK -> edge jobs x y -> w_color w !! y = Some BLACK;
  inv_dag : forall x, w_color w !! x = Some BLACK -> ~ tc (edge jobs) x x;
}.

(** A finished visit: the path is as before, and black stays black. *)
Record evolves (w w' : walk) : Prop := {
  ev_depth : w_depth w' = w_depth w;
  ev_path : path w' = path w;
  ev_black : forall x, w_color w !! x = Some BLACK -> w_color w' !! x = Some BLACK;
  ev_color_len : length (w_color w') = length (w_color w);
}.

Lemma evolves_refl w : evolves w w.
Proof. by constructor. Qed.

Lemma evolves_trans w1 w2 w3 : evolves w1 w2 -> evolves w2 w3 -> evolves w1 w3.
Proof. intros [? ? ? ?] [? ? ? ?]. constructor; [congruence.. | naive_solver | congruence]. Qed.

Lemma black_reach w x y : inv w -> w_color w !! x = Some BLACK -> tc (edge jobs) x y ->
  w_color w !! y = Some BLACK.
Proof. intros Hi Hx Ht. induction Ht; eauto using inv_closed. Qed.

Lemma tc_first x y : tc (edge jobs) x y ->
  edge jobs x y \/ exists z, edge jobs x z /\ tc (edge jobs) z y.
Proof. destruct 1; eauto. Qed.

Lemma length_path w : w_depth w <= length (w_stack w) -> length (path w) = w_depth w.
Proof. intros. unfold path. rewrite length_take. lia. Qed.

(** The walk just after a white job [j] is entered. *)
Definition enter (w : walk) (j : nat) : walk :=
  Walk (<[j := GREY]> (w_color w)) (<[w_depth w := j]> (w_stack w)) (S (w_depth w)) (w_err w).

Lemma path_enter w j : w_depth w < length (w_stack w) -> path (enter w j) = path w ++ [j].
Proof.
  intros. unfold path, enter. simpl.
  rewrite (take_S_r _ _ j) by (by apply list_lookup_insert_eq).
  by rewrite take_insert_ge by lia.
Qed.

Lemma depth_room w j : inv w -> w_color w !! j = Some WHITE -> j < length jobs ->
  w_depth w < length jobs.
Proof.
  intros Hi Hj Hlt. rewrite <- length_path by apply Hi.
  apply (nodup_bound (j :: path w)).
  - constructor; [| apply Hi]. rewrite <- (inv_grey _ Hi). congruence.
  - intros x Hx. apply elem_of_cons in Hx as [->|Hx]; [done | by apply Hi].
Qed.

Lemma inv_enter w j : inv w -> w_color w !! j = Some WHITE -> j < length jobs ->
  (forall x, last (path w) = Some x -> edge jobs x j) -> inv (enter w j).
Proof.
  intros Hi Hj Hlt He. pose proof (depth_room _ _ Hi Hj Hlt) as Hroom.
  pose proof (inv_stack_len _ Hi) as Hsl. pose proof (inv_color_len _ Hi) as Hcl.
  assert (Hp : path (enter w j) = path w ++ [j]) by (apply path_enter; lia).
  assert (Hnb : forall x, <[j := GREY]> (w_color w) !! x = Some BLACK <-> w_color w !! x = Some BLACK).
  { intros x. rewrite list_lookup_insert. case_decide; naive_solver. }
  constructor; rewrite ?Hp; unfold enter; simpl; rewrite ?length_insert.
  - done.
  - done.
  - lia.
  - apply NoDup_app. split_and!; [apply Hi | | apply NoDup_singleton].
    intros x Hx ->%list_elem_of_singleton. apply (inv_grey _ Hi) in Hx. congruence.
  - intros x [Hx| ->%list_elem_of_singleton]%elem_of_app; [by apply Hi | done].
  - intros x. rewrite elem_of_app, list_elem_of_singleton, list_lookup_insert, <- (inv_grey _ Hi).
    case_decide; naive_solver lia.
  - apply chain_app_edge; [apply Hi | done].
  - intros x y. rewrite !Hnb. apply Hi.
  - intros x. rewrite Hnb. apply Hi.
Qed.

(** The walk when all the needs of the entered job [j] are black. *)
Lemma inv_leave w w' j : inv w -> inv w' -> evolves (enter w j) w' ->
  w_depth w < length (w_stack w) -> j < length (w_color w') ->
  (forall y, edge jobs j y -> w_color w' !! y = Some BLACK) ->
  w_color w !! j = Some WHITE ->
  let w'' := Walk (<[j := BLACK]> (w_color w')) (w_stack w') (w_depth w' - 1) (w_err w') in
  inv w'' /\ evolves w w'' /\ w_color w'' !! j = Some BLACK.
Proof.
  intros Hi Hi' He Hd Hj Hb Hwj w''.
  assert (Hdep : w_depth w' = S (w_depth w)) by apply He.
  assert (Hp' : path w' = path w ++ [j]) by (rewrite (ev_path _ _ He); by apply path_enter).
  assert (Hp : path w'' = path w).
  { unfold path, w''. simpl. rewrite Hdep. replace (S (w_depth w) - 1) with (w_depth w) by lia.
    unfold path in Hp'. rewrite Hdep in Hp'.
    apply (f_equal (take (w_depth w))) in Hp'. rewrite take_take, Nat.min_l in Hp' by lia.
    rewrite Hp', take_app_le, take_take, Nat.min_id by (rewrite length_take; lia). done. }
  assert (Hjp : j ∉ path w). { intros Hin. apply (inv_grey _ Hi) in Hin. congruence. }
  assert (Hnb : forall x, w_color w'' !! x = Some BLACK <-> x = j \/ w_color w' !! x = Some BLACK).
  { intros x. unfold w''. simpl. rewrite list_lookup_insert. case_decide; naive_solver. }
  assert (Hng : w_color w' !! j = Some GREY).
  { apply (inv_grey _ Hi'). rewrite Hp'. set_solver. }
  split_and!.
  - constructor; rewrite ?Hp; unfold w''; simpl; rewrite ?length_insert.
    + apply Hi'.
    + apply Hi'.
    + pose proof (inv_depth _ Hi'). lia.
    + apply Hi.
    + apply Hi.
    + intros x. rewrite list_lookup_insert. case_decide as E.
      * destruct E as [-> _]. naive_solver.
      * rewrite (inv_grey _ Hi'), Hp', elem_of_app, list_elem_of_singleton. naive_solver.
    + apply Hi.
    + intros x y Hx Hxy. apply Hnb. apply Hnb in Hx as [->|Hx]; right; [by apply Hb |].
      by eapply (inv_closed _ Hi').
    + intros x Hx Ht. apply Hnb in Hx as [->|Hx]; [| by eapply (inv_dag _ Hi')].
      apply tc_first in Ht as [Hjj | (y & Hjy & Hyj)].
      * apply Hb in Hjj. congruence.
      * apply Hb in Hjy. eapply black_reach in Hyj; [| done | done]. congruence.
  - constructor; rewrite ?Hp; unfold w''; simpl; [lia | done | | ].
    + intros x Hx. apply Hnb. right. apply (ev_black _ _ He). unfold enter. simpl.
      rewrite list_lookup_insert. case_decide; naive_solver.
    + rewrite length_insert, (ev_color_len _ _ He). unfold enter. simpl. by rewrite length_insert.
  - apply Hnb. by left.
Qed.

Definition visits (rec : walk -> nat -> cres (walk * bool)) (w : walk) (j : nat) : Prop :=
  exists w' found, rec w j = CRet (w', found) /\
  if found then good_cycle jobs (w_err w')
  else inv w' /\ evolves w w' /\ w_color w' !! j = Some BLACK.

Lemma visit_needs_ok rec j job needs w :
  jobs !! j = Some job -> inv w -> last (path w) = Some j ->
  (forall need, need ∈ needs -> need ∈ dj_needs job /\ is_Some (find jobs need)) ->
  (forall w1 d, inv w1 -> evolves w w1 -> w_color w1 !! d = Some WHITE -> edge jobs j d ->
     visits rec w1 d) ->
  exists w' found, visit_needs rec jobs needs w = CRet (w', found) /\
  if found then good_cycle jobs (w_err w')
  else inv w' /\ evolves w w' /\
       (forall need d, need ∈ needs -> find jobs need = Some d -> w_color w' !! d = Some BLACK).
Proof.
  intros Hjob. revert w. induction needs as [|need needs IH]; intros w Hi Hl Hn Hrec.
  { exists w, false. split_and!; [done | done | apply evolves_refl | set_solver]. }
  destruct (Hn need) as [Hin [d Hd]]; [set_solver |].
  assert (He : edge jobs j d) by (by exists job, need).
  assert (Hdl : d < length jobs) by (by apply (edge_lt j)).
  destruct (lookup_lt_is_Some_2 (w_color w) d) as [c Hc].
  { pose proof (inv_color_len _ Hi). lia. }
  simpl. rewrite Hd, (cread_Some _ _ _ Hc). simpl.
  assert (Hgo : forall w1, inv w1 -> evolves w w1 -> w_color w1 !! d = Some BLACK ->
    exists w' found, visit_needs rec jobs needs w1 = CRet (w', found) /\
    if found then good_cycle jobs (w_err w')
    else inv w' /\ evolves w w' /\
      (forall n d, n ∈ need :: needs -> find jobs n = Some d -> w_color w' !! d = Some BLACK)).
  { intros w1 Hi1 He1 Hb1.
    destruct (IH w1) as (w' & found & Hv & Hpost).
    - done.
    - by rewrite (ev_path _ _ He1).
    - intros n Hn'. apply Hn. set_solver.
    - intros w2 d2 Hi2 He2. apply Hrec; [done |]. by eapply evolves_trans.
    - exists w', found. split; [done |]. destruct found; [done |].
      destruct Hpost as (Hi' & He' & Hb'). split_and!; [done | by eapply evolves_trans |].
      intros n d' [->|Hn']%elem_of_cons Hf; [| by eapply Hb'].
      rewrite Hd in Hf. simplify_eq. by apply (ev_black _ _ He'). }
  destruct c.
  - destruct (Hrec w d) as (w1 & found & Hv & Hpost); [done | apply evolves_refl | done | done |].
    rewrite Hv. simpl. destruct found; [by exists w1, true |].
    destruct Hpost as (Hi1 & He1 & Hb1). by apply Hgo.
  - destruct (cycle_error_ok w d j) as (e & -> & Hg); try done.
    { by apply (inv_grey _ Hi). }
    { apply Hi. }
    { apply Hi. }
    { apply Hi. }
    simpl. eexists _, true. split; [done |]. done.
  - apply Hgo; [done | apply evolves_refl | done].
Qed.

Lemma inv_initial n : length jobs <= n -> inv (Walk (repeat WHITE n) (repeat 0 n) 0 dag_error0).
Proof.
  intros Hn. constructor; unfold path; simpl; rewrite ?repeat_length; try lia.
  - by constructor.
  - set_solver.
  - intros x. split; [| set_solver]. intros Hx. apply list_elem_of_lookup_2, list_elem_of_In in Hx.
    by apply repeat_spec in Hx.
  - intros k a b Ha. by destruct k.
  - intros x y Hx. apply list_elem_of_lookup_2, list_elem_of_In in Hx. by apply repeat_spec in Hx.
  - intros x Hx. apply list_elem_of_lookup_2, list_elem_of_In in Hx. by apply repeat_spec in Hx.
Qed.

Hypothesis Hknown : known jobs.

Lemma visit_ok fuel w j :
  inv w -> w_color w !! j = Some WHITE -> j < length jobs ->
  (forall x, last (path w) = Some x -> edge jobs x j) ->
  length jobs - w_depth w < fuel -> visits (visit fuel jobs) w j.
Proof.
  revert w j. induction fuel as [|fuel IH]; intros w j Hi Hj Hlt He Hf; [lia |].
  pose proof (depth_room _ _ Hi Hj Hlt) as Hroom.
  pose proof (inv_stack_len _ Hi) as Hsl. pose proof (inv_color_len _ Hi) as Hcl.
  destruct (lookup_lt_is_Some_2 jobs j Hlt) as [job Hjob].
  unfold visits. simpl. rewrite !cwrite_ok by lia. simpl. rewrite (cread_Some _ _ _ Hjob). simpl.
  fold (enter w j).
  destruct (visit_needs_ok (visit fuel jobs) j job (dj_needs job) (enter w j))
    as (w' & found & Hv & Hpost).
  - done.
  - by apply inv_enter.
  - rewrite path_enter by lia. by rewrite last_snoc.
  - eauto.
  - intros w1 d Hi1 He1 Hd1 Hjd. apply IH; [done | done | by apply (edge_lt j) | |].
    + rewrite (ev_path _ _ He1), path_enter, last_snoc by lia. naive_solver.
    + rewrite (ev_depth _ _ He1). unfold enter. simpl. lia.
  - rewrite Hv. simpl. destruct found; [by exists w', true |].
    destruct Hpost as (Hi' & He' & Hb').
    assert (Hjc : j < length (w_color w')).
    { rewrite (ev_color_len _ _ He'). unfold enter. simpl. rewrite length_insert. lia. }
    rewrite cwrite_ok by done. simpl. eexists _, false. split; [done |].
    apply (inv_leave w w' j); try done; [lia |].
    intros y (job' & need & Hj' & Hn & Hfy). simplify_eq. by eapply Hb'.
Qed.

Lemma visit_all_ok k i w :
  inv w -> w_depth w = 0 -> i + k = length jobs ->
  (forall x, x < i -> w_color w !! x = Some BLACK) ->
  exists w' found, visit_all (S (length jobs)) jobs k i w = CRet (w', found) /\
  if found then good_cycle jobs (w_err w') else acyclic jobs.
Proof.
  revert i w. induction k as [|k IH]; intros i w Hi Hd Hk Hb.
  - exists w, false. split; [done |]. intros x Ht.
    assert (x < length jobs).
    { apply tc_first in Ht as [H | (y & H & _)]; apply edge_lt in H; lia. }
    eapply (inv_dag _ Hi); [| exact Ht]. apply Hb. lia.
  - destruct (lookup_lt_is_Some_2 (w_color w) i) as [c Hc].
    { pose proof (inv_color_len _ Hi). lia. }
    cbn [visit_all]. rewrite (cread_Some _ _ _ Hc). cbn [mbind cres_bind cbind].
    assert (Hp : path w = []) by (unfold path; by rewrite Hd).
    destruct c.
    + destruct (visit_ok (S (length jobs)) w i) as (w' & found & Hv & Hpost);
        [done | done | lia | rewrite Hp; done | lia |].
      rewrite Hv. simpl. destruct found; [by exists w', true |].
      destruct Hpost as (Hi' & He' & Hb'). apply IH; [done | | lia |].
      { by rewrite (ev_depth _ _ He'). }
      intros x Hx. destruct (decide (x = i)) as [->|]; [done |].
      apply (ev_black _ _ He'), Hb. lia.
    + apply (inv_grey _ Hi) in Hc. rewrite Hp in Hc. set_solver.
    + simpl. apply IH; [done | done | lia |].
      intros x Hx. destruct (decide (x = i)) as [->|]; [done |]. apply Hb. lia.
Qed.

End proofs.

Lemma unknown_need_spec jobs k needs :
  match unknown_need jobs k needs with
  | Some (k', need) => k <= k' /\ needs !! (k' - k) = Some need /\ find jobs need = None
  | None => forall need, need ∈ needs -> is_Some (find jobs need)
  end.
Proof.
  revert k. induction needs as [|need needs IH]; intros k; simpl; [set_solver |].
  destruct (find jobs need) as [d|] eqn:E.
  - specialize (IH (S k)). destruct (unknown_need jobs (S k) needs) as [[k' need']|].
    + destruct IH as (? & ? & ?). split_and!; [lia | | done].
      replace (k' - k) with (S (k' - S k)) by lia. done.
    + intros n [->|Hn]%elem_of_cons; eauto.
  - split_and!; [lia | | done]. by rewrite Nat.sub_diag.
Qed.

Lemma unknown_needs_spec jobs i rest :
  match unknown_needs jobs i rest with
  | Some e => de_status e = QWE_DAG_UNKNOWN_NEED /\
      exists job need, i <= de_job e /\ rest !! (de_job e - i) = Some job /\
        dj_needs job !! de_need e = Some need /\ find jobs need = None
  | None => forall k job need, rest !! k = Some job -> need ∈ dj_needs job -> is_Some (find jobs need)
  end.
Proof.
  revert i. induction rest as [|j rest IH]; intros i; simpl; [done |].
  pose proof (unknown_need_spec jobs 0 (dj_needs j)) as Hu.
  destruct (unknown_need jobs 0 (dj_needs j)) as [[k need]|].
  - destruct Hu as (_ & Hn & Hf). rewrite Nat.sub_0_r in Hn. split; [done |].
    exists j, need. simpl. rewrite Nat.sub_diag. auto.
  - specialize (IH (S i)). destruct (unknown_needs jobs (S i) rest) as [e|].
    + destruct IH as (? & job & need & ? & ? & ? & ?). split; [done |].
      exists job, need. split_and!; [lia | | done | done].
      replace (de_job e - i) with (S (de_job e - S i)) by lia. done.
    + intros [|k] job need Hk Hin; simpl in Hk; [simplify_eq | eauto]. by apply Hu.
Qed.

(** The search as [qwe_dag_check] starts it. *)
Lemma search_ok jobs : known jobs ->
  exists w found,
    visit_all (S (length jobs)) jobs (length jobs) 0
      (Walk (repeat WHITE (if decide (length jobs = 0) then 1 else length jobs))
            (repeat 0 (if decide (length jobs = 0) then 1 else length jobs)) 0 dag_error0) =
      CRet (w, found) /\
    if found then good_cycle jobs (w_err w) else acyclic jobs.
Proof.
  intros Hk. apply visit_all_ok; [done | | done | done | lia].
  apply inv_initial. destruct (decide (length jobs = 0)); lia.
Qed.

(** ** Properties *)

(** The check's answer, with and without memory. *)
Lemma check_exact jobs :
  (exists st err, qwe_dag_check true jobs = CRet (st, err) /\
   (st = QWE_DAG_OK <-> known jobs /\ acyclic jobs)) /\
  (exists st err, qwe_dag_check false jobs = CRet (st, err) /\ st <> QWE_DAG_OK).
Proof.
  split; cycle 1.
  { unfold qwe_dag_check. pose proof (unknown_needs_spec jobs 0 jobs) as Hu.
    destruct (unknown_needs jobs 0 jobs) as [e|]; [| by eauto].
    destruct Hu as (Hst & _). rewrite Hst. by eauto. }
  unfold qwe_dag_check. pose proof (unknown_needs_spec jobs 0 jobs) as Hu.
  destruct (unknown_needs jobs 0 jobs) as [e|].
  - destruct Hu as (Hst & job & need & _ & Hj & Hn & Hf). rewrite Nat.sub_0_r in Hj.
    exists (de_status e), e. split; [done |]. rewrite Hst. split; [done |]. intros [Hk _].
    destruct (Hk _ _ need Hj) as [? ?]; [by eapply list_elem_of_lookup_2 | congruence].
  - assert (Hk : known jobs) by exact Hu.
    destruct (search_ok jobs Hk) as (w & found & Hv & Hpost).
    rewrite Hv. eexists _, _. split; [done |]. destruct found; [| tauto].
    pose proof (good_cycle_tc _ _ Hpost) as Ht. destruct Hpost as [Hst _]. rewrite Hst.
    split; [done |]. intros [_ Ha]. by apply Ha in Ht.
Qed.

(** The answer, and the places it names, for those who report it. *)
Lemma check_report (ok : bool) jobs : exists st err, qwe_dag_check ok jobs = CRet (st, err) /\
  (st = QWE_DAG_OK -> known jobs /\ acyclic jobs) /\ (ok = true -> known jobs -> acyclic jobs -> st = QWE_DAG_OK) /\
  match st with
  | QWE_DAG_UNKNOWN_NEED => exists job need, jobs !! de_job err = Some job /\ dj_needs job !! de_need err = Some need
  | QWE_DAG_CYCLE => de_job err < length jobs
  | _ => True
  end.
Proof.
  unfold qwe_dag_check. pose proof (unknown_needs_spec jobs 0 jobs) as Hu.
  destruct (unknown_needs jobs 0 jobs) as [e|].
  - destruct Hu as (Hst & job & need & _ & Hj & Hn & Hf). rewrite Nat.sub_0_r in Hj.
    exists (de_status e), e. rewrite Hst. split_and!; [done | done | | by eauto]. intros _ Hk _.
    destruct (Hk _ _ need Hj) as [? ?]; [by eapply list_elem_of_lookup_2 | congruence].
  - assert (Hk : known jobs) by exact Hu. destruct ok; [| by eexists _, _; split_and!].
    destruct (search_ok jobs Hk) as (w & found & Hv & Hpost).
    rewrite Hv. eexists _, _. split; [done |]. destruct found; [| by split_and!].
    pose proof (good_cycle_tc _ _ Hpost) as Ht. destruct Hpost as (Hst & l & x & _ & _ & _ & He & _). rewrite Hst.
    split_and!; [done | intros _ _ Ha; by apply Ha in Ht | by eapply edge_lt].
Qed.

(** C11. The graph check is exact.  Whatever the jobs, it returns (no array is
    indexed out of bounds, and the recursion ends); when the check can allocate,
    it answers [QWE_DAG_OK] exactly for the graphs in which every need names a
    job and no job needs itself through others; when it cannot, it never answers
    [QWE_DAG_OK]. *)
Theorem dag_check_exact jobs :
  (exists st err, qwe_dag_check true jobs = CRet (st, err) /\
   (st = QWE_DAG_OK <-> known jobs /\ acyclic jobs)) /\
  (exists st err, qwe_dag_check false jobs = CRet (st, err) /\ st <> QWE_DAG_OK).
Proof. apply check_exact. Qed.

(** What the check reports is there.  For a cycle, the reported job is on a
    path of needs that leads back to it, and the message names the jobs of that
    path in order, closing with the first, cut only where the 256-byte buffer
    ends; for an unknown need, the reported need of the reported job names no
    job. *)
Theorem dag_check_report jobs st err :
  qwe_dag_check true jobs = CRet (st, err) ->
  match st with
  | QWE_DAG_OK => True
  | QWE_DAG_UNKNOWN_NEED => exists job need, jobs !! de_job err = Some job /\
      dj_needs job !! de_need err = Some need /\ find jobs need = None
  | QWE_DAG_CYCLE => known jobs /\ good_cycle jobs err
  | QWE_DAG_NO_MEMORY => False
  end.
Proof.
  unfold qwe_dag_check. pose proof (unknown_needs_spec jobs 0 jobs) as Hu.
  destruct (unknown_needs jobs 0 jobs) as [e|].
  - destruct Hu as (Hst & job & need & _ & Hj & Hn & Hf). rewrite Nat.sub_0_r in Hj.
    intros [= <- <-]. rewrite Hst. eauto.
  - assert (Hk : known jobs) by exact Hu.
    destruct (search_ok jobs Hk) as (w & found & Hv & Hpost).
    rewrite Hv. intros [= <- <-]. destruct found; [| done].
    destruct (Hpost) as [Hst _]. by rewrite Hst.
Qed.

(** Three jobs in a ring: c needs b, b needs a, a needs c. *)
Definition ring3 : list qwe_dag_job :=
  [DagJob "a" ["c"]; DagJob "b" ["a"]; DagJob "c" ["b"]].

Lemma dag_check_report_witness :
  exists err, qwe_dag_check true ring3 = CRet (QWE_DAG_CYCLE, err) /\
  de_message err = bytes_of "needs cycle: a -> c -> b -> a" /\
  known ring3 /\ good_cycle ring3 err.
Proof.
  eexists. split; [vm_compute; reflexivity |]. split; [vm_compute; reflexivity |].
  eapply (dag_check_report ring3 QWE_DAG_CYCLE). vm_compute. reflexivity.
Defined.
