(* ===== verification/Sched.v ===== *)
(** * The scheduling pass

    Models [src/kernel/sched.h] and [src/kernel/sched.c]: one pass over the jobs
    decides which events they are sent.  Reading a job, a need or a cap outside
    its array is [CUndef]; [qwe_sched_pass] never does on well-formed input. *)

From S2P Require Import Prelude Lifecycle.
From Stdlib Require Import Ascii NArith ZArith Lia Sorted.
From stdpp Require Import base list strings numbers relations.

(** ** Data and operations *)

Record qwe_sched_job := SchedJob {
  sj_state : qwe_lc_state;
  sj_needs : list nat;
  sj_group : nat; (* 1-based session group, or 0 *)
}.

Record qwe_sched_event := SchedEvent { se_job : nat; se_event : qwe_lc_event }.

(** The cast [(size_t)x] of a [long]. *)
Definition size_of_long (x : Z) : Z := x mod 2 ^ 64.

Fixpoint group_running (jobs : list qwe_sched_job) (group : nat) : nat :=
  match jobs with
  | [] => 0
  | j :: jobs =>
      (if (sj_group j =? group) && qwe_lc_state_is_running (sj_state j) then 1 else 0) +
      group_running jobs group
  end.

Fixpoint group_granted (jobs : list qwe_sched_job) (group : nat) (out : list qwe_sched_event) :
    cres nat :=
  match out with
  | [] => CRet 0
  | ev :: out =>
      j ← cread jobs (se_job ev);
      n ← group_granted jobs group out;
      mret ((if sj_group j =? group then 1 else 0) + n)
  end.

(** How many jobs of the group hold a session. *)
Definition group_used (jobs : list qwe_sched_job) (group : nat) (out : list qwe_sched_event) :
    cres nat :=
  n ← group_granted jobs group out;
  mret (group_running jobs group + n).

(** The loop over one job's needs: [all_final] and [all_success]. *)
Fixpoint scan_needs (jobs : list qwe_sched_job) (needs : list nat) (all_final all_success : bool) :
    cres (bool * bool) :=
  match needs with
  | [] => CRet (all_final, all_success)
  | d :: needs =>
      j ← cread jobs d;
      let s := sj_state j in
      if negb (qwe_lc_state_is_final s) then scan_needs jobs needs false all_success
      else if bool_decide (s <> QWE_LC_SUCCESS) then scan_needs jobs needs all_final false
      else scan_needs jobs needs all_final all_success
  end.

(** The first loop, over the jobs from index [i] on; [out] is what it has
    written so far. *)
Fixpoint pass_pending (jobs : list qwe_sched_job) (i : nat) (rest : list qwe_sched_job)
    (out : list qwe_sched_event) : cres (list qwe_sched_event) :=
  match rest with
  | [] => CRet out
  | j :: rest =>
      if bool_decide (sj_state j <> QWE_LC_PENDING) then pass_pending jobs (S i) rest out
      else
        '(all_final, all_success) ← scan_needs jobs (sj_needs j) true true;
        if negb all_final then pass_pending jobs (S i) rest out
        else pass_pending jobs (S i) rest
               (out ++ [SchedEvent i (if (all_success : bool) then QWE_LC_EV_NEEDS_MET
                                      else QWE_LC_EV_NEEDS_FAILED)])
  end.

Fixpoint count_running (jobs : list qwe_sched_job) : nat :=
  match jobs with
  | [] => 0
  | j :: jobs => (if qwe_lc_state_is_running (sj_state j) then 1 else 0) + count_running jobs
  end.

(** Whether the job's session group is used up. *)
Definition group_full (jobs : list qwe_sched_job) (caps : list Z) (j : qwe_sched_job)
    (out : list qwe_sched_event) : cres bool :=
  if sj_group j =? 0 then CRet false
  else
    used ← group_used jobs (sj_group j) out;
    cap ← cread caps (sj_group j - 1);
    mret (size_of_long cap <=? Z.of_nat used)%Z.

(** The last loop. *)
Fixpoint pass_ready (jobs : list qwe_sched_job) (max_parallel : Z) (caps : list Z) (running i : nat)
    (rest : list qwe_sched_job) (out : list qwe_sched_event) : cres (list qwe_sched_event) :=
  match rest with
  | [] => CRet out
  | j :: rest =>
      if bool_decide (sj_state j <> QWE_LC_READY)
      then pass_ready jobs max_parallel caps running (S i) rest out
      else if ((0 <? max_parallel) && (size_of_long max_parallel <=? Z.of_nat (running + length out)))%Z
      then CRet out
      else
        full ← group_full jobs caps j out;
        if (full : bool) then pass_ready jobs max_parallel caps running (S i) rest out
        else pass_ready jobs max_parallel caps running (S i) rest
               (out ++ [SchedEvent i QWE_LC_EV_SLOT_GRANTED])
  end.

Definition qwe_sched_pass (jobs : list qwe_sched_job) (max_parallel : Z) (caps : list Z) :
    cres (list qwe_sched_event) :=
  out ← pass_pending jobs 0 jobs [];
  if 0 <? length out then mret out
  else pass_ready jobs max_parallel caps (count_running jobs) 0 jobs out.

(** ** What a pass promises *)

(** Needs name jobs, groups have caps, and counts are what a [long] holds. *)
Record sched_wf (jobs : list qwe_sched_job) (max_parallel : Z) (caps : list Z) : Prop := {
  wf_needs : forall i j d, jobs !! i = Some j -> d ∈ sj_needs j -> d < length jobs;
  wf_group : forall i j, jobs !! i = Some j -> sj_group j <= length caps;
  wf_caps : forall c, c ∈ caps -> (0 <= c < 2 ^ 63)%Z;
  wf_max : (0 <= max_parallel < 2 ^ 63)%Z;
}.

Definition need_is (jobs : list qwe_sched_job) (P : qwe_lc_state -> Prop) (d : nat) : Prop :=
  exists j, jobs !! d = Some j /\ P (sj_state j).

Definition is_final (s : qwe_lc_state) : Prop := qwe_lc_state_is_final s = true.

(** A pending job whose needs are all final: this pass moves it. *)
Definition resolved (jobs : list qwe_sched_job) (j : qwe_sched_job) : Prop :=
  sj_state j = QWE_LC_PENDING /\ Forall (need_is jobs is_final) (sj_needs j).

(** Sessions of a group that these events grant. *)
Fixpoint granted_in (jobs : list qwe_sched_job) (group : nat) (evs : list qwe_sched_event) : nat :=
  match evs with
  | [] => 0
  | ev :: evs =>
      (if decide (sj_group <$> jobs !! se_job ev = Some group) then 1 else 0) +
      granted_in jobs group evs
  end.

(** Sessions of a group held by running jobs or granted by these events. *)
Definition sessions (jobs : list qwe_sched_job) (group : nat) (evs : list qwe_sched_event) : nat :=
  group_running jobs group + granted_in jobs group evs.

(** ** Lemmas *)

#[global] Instance need_is_dec jobs P `{forall s, Decision (P s)} d : Decision (need_is jobs P d).
Proof.
  unfold need_is. destruct (jobs !! d) as [j|] eqn:E.
  - destruct (decide (P (sj_state j))); [left; eauto | right; naive_solver].
  - right. naive_solver.
Defined.

Lemma granted_in_app jobs g l k : granted_in jobs g (l ++ k) = granted_in jobs g l + granted_in jobs g k.
Proof. induction l as [|ev l IH]; simpl; [done |]. rewrite IH. lia. Qed.

Section proofs.
Context (jobs : list qwe_sched_job) (max_parallel : Z) (caps : list Z).
Hypothesis Hwf : sched_wf jobs max_parallel caps.

(** The event of a pending job, by the states of its needs. *)
Definition pending_event (i : nat) (j : qwe_sched_job) (ev : qwe_sched_event) : Prop :=
  se_job ev = i /\ resolved jobs j /\
  ((se_event ev = QWE_LC_EV_NEEDS_MET /\ Forall (need_is jobs (eq QWE_LC_SUCCESS)) (sj_needs j)) \/
   (se_event ev = QWE_LC_EV_NEEDS_FAILED /\ ~ Forall (need_is jobs (eq QWE_LC_SUCCESS)) (sj_needs j))).

Lemma scan_needs_ok needs af asu :
  (forall d, d ∈ needs -> d < length jobs) ->
  exists af' as', scan_needs jobs needs af asu = CRet (af', as') /\
  (af' = true <-> af = true /\ Forall (need_is jobs is_final) needs) /\
  (af' = true -> (as' = true <-> asu = true /\ Forall (need_is jobs (eq QWE_LC_SUCCESS)) needs)).
Proof.
  revert af asu. induction needs as [|d needs IH]; intros af asu Hd.
  { exists af, asu. split; [done |]. rewrite !Forall_nil. tauto. }
  destruct (lookup_lt_is_Some_2 jobs d) as [j Hj]; [apply Hd; set_solver |].
  assert (Hd' : forall d, d ∈ needs -> d < length jobs) by set_solver.
  assert (Hn : forall P, Forall (need_is jobs P) (d :: needs) <->
    P (sj_state j) /\ Forall (need_is jobs P) needs).
  { intros P. rewrite Forall_cons. split.
    - intros [(j' & Hj' & HP) ?]. by simplify_eq.
    - intros [HP ?]. split; [by exists j | done]. }
  simpl. rewrite (cread_Some _ _ _ Hj). simpl.
  destruct (qwe_lc_state_is_final (sj_state j)) eqn:Hf; simpl.
  - case_bool_decide as Hs.
    + destruct (IH af false Hd') as (af' & as' & -> & Ha & Hb). exists af', as'.
      rewrite !Hn. unfold is_final at 1. rewrite Hf. split; [done |]. split; [tauto |].
      intros H. apply Hb in H. naive_solver.
    + destruct (IH af asu Hd') as (af' & as' & -> & Ha & Hb). exists af', as'.
      rewrite !Hn. unfold is_final at 1. rewrite Hf. split; [done |]. split; [tauto |].
      intros H. apply Hb in H. 
      naive_solver.
  - destruct (IH false asu Hd') as (af' & as' & -> & Ha & Hb). exists af', as'.
    rewrite !Hn. unfold is_final at 1. rewrite Hf. split; [done |].
    split; [naive_solver |]. intros ->. destruct Ha as [Ha _]. by destruct (Ha eq_refl).
Qed.

(** The first loop appends the events of exactly the resolved jobs, in order. *)
Lemma pass_pending_ok i rest out :
  rest = drop i jobs ->
  exists l, pass_pending jobs i rest out = CRet (out ++ l) /\
    (forall ev, ev ∈ l <-> exists k j, i <= k /\ jobs !! k = Some j /\ pending_event k j ev) /\
    StronglySorted lt (se_job <$> l).
Proof.
  revert i out. induction rest as [|j rest IH]; intros i out Hr.
  { exists []. rewrite app_nil_r. split_and!; [done | | constructor].
    intros ev. split; [set_solver |]. intros (k & j & Hk & Hj & _).
    apply lookup_lt_Some in Hj. apply (f_equal length) in Hr. rewrite length_drop in Hr. simpl in Hr. lia. }
  assert (Hj : jobs !! i = Some j).
  { rewrite <- (Nat.add_0_r i), <- lookup_drop, <- Hr. done. }
  assert (Hr' : rest = drop (S i) jobs).
  { rewrite (drop_S _ _ _ Hj) in Hr. congruence. }
  simpl. case_bool_decide as Hp.
  { destruct (IH (S i) out Hr') as (l & Hl & Hin & Hs). exists l. split_and!; [done | | done].
    intros ev. rewrite Hin. split; intros (k & j' & Hk & Hj' & Hev).
    - exists k, j'. split; [lia | done].
    - exists k, j'. split; [| done]. destruct (decide (k = i)); [| lia].
      simplify_eq. destruct Hev as (_ & [? _] & _). done. }

  destruct (scan_needs_ok (sj_needs j) true true) as (af & asu & Hscan & Ha & Hb).
  { intros d Hd. by eapply (wf_needs _ _ _ Hwf). }
  rewrite Hscan. simpl. destruct af; simpl.
  - destruct (proj1 Ha eq_refl) as [_ Hfin]. specialize (Hb eq_refl).
    set (ev0 := SchedEvent i (if asu then QWE_LC_EV_NEEDS_MET else QWE_LC_EV_NEEDS_FAILED)).
    assert (Hev0 : forall ev, pending_event i j ev <-> ev = ev0).
    { intros [k e]. unfold pending_event, ev0, resolved. simpl. destruct asu; naive_solver. }
    destruct (IH (S i) (out ++ [ev0]) Hr') as (l & Hl & Hin & Hs).
    exists (ev0 :: l). rewrite <- app_assoc in Hl. split_and!; [done | |].
    + intros ev. rewrite elem_of_cons, Hin. split.
      * intros [->|(k & j' & ? & ?)]; [exists i, j | exists k, j'; naive_solver lia].
        split_and!; [lia | done | by apply Hev0].
      * intros (k & j' & Hk & Hj' & Hev). destruct (decide (k = i)) as [->|].
        -- simplify_eq. left. by apply Hev0.
        -- right. exists k, j'. split; [lia | done].
    + simpl. constructor; [done |]. apply List.Forall_forall. intros x Hx.
      apply list_elem_of_In, list_elem_of_fmap in Hx as (ev & -> & Hev).
      apply Hin in Hev as (k & j' & Hk & _ & (-> & _)). lia.
  - destruct (IH (S i) out Hr') as (l & Hl & Hin & Hs). exists l. split_and!; [done | | done].
    intros ev. rewrite Hin. split; intros (k & j' & Hk & Hj' & Hev).
    + exists k, j'. split; [lia | done].
    + exists k, j'. split; [| done]. destruct (decide (k = i)); [| lia].
      simplify_eq. destruct Hev as (_ & [_ Hf] & _). naive_solver.
Qed.

(** *** Slots *)

Lemma group_granted_ok g out : (forall ev, ev ∈ out -> se_job ev < length jobs) ->
  group_granted jobs g out = CRet (granted_in jobs g out).
Proof.
  induction out as [|ev out IH]; intros Hb; simpl; [done |].
  destruct (lookup_lt_is_Some_2 jobs (se_job ev)) as [j Hj]; [apply Hb; set_solver |].
  rewrite (cread_Some _ _ _ Hj), Hj. simpl. rewrite IH by set_solver. simpl.
  destruct (Nat.eqb_spec (sj_group j) g); case_decide; naive_solver.
Qed.

(** A job waits for its group when the group's cap is used up. *)
Definition group_blocked (j : qwe_sched_job) (evs : list qwe_sched_event) : Prop :=
  sj_group j <> 0 /\
  exists cap, caps !! (sj_group j - 1) = Some cap /\ (cap <= Z.of_nat (sessions jobs (sj_group j) evs))%Z.

Definition all_slots_used (evs : list qwe_sched_event) : Prop :=
  (0 < max_parallel /\ max_parallel <= Z.of_nat (count_running jobs + length evs))%Z.

Lemma size_of_long_id x : (0 <= x < 2 ^ 63)%Z -> size_of_long x = x.
Proof. intros. unfold size_of_long. apply Z.mod_small. lia. Qed.

Lemma group_full_ok i j out : jobs !! i = Some j -> (forall ev, ev ∈ out -> se_job ev < length jobs) ->
  exists b, group_full jobs caps j out = CRet b /\ (b = true <-> group_blocked j out).
Proof.
  intros Hj Hb. unfold group_full, group_blocked.
  destruct (Nat.eqb_spec (sj_group j) 0) as [E|E]; [exists false; naive_solver |].
  unfold group_used. rewrite group_granted_ok by done. simpl.
  pose proof (wf_group _ _ _ Hwf _ _ Hj) as Hg.
  destruct (lookup_lt_is_Some_2 caps (sj_group j - 1)) as [cap Hcap]; [lia |].
  rewrite (cread_Some _ _ _ Hcap). simpl. eexists. split; [done |].
  rewrite size_of_long_id by (eapply (wf_caps _ _ _ Hwf), list_elem_of_lookup_2; eauto).
  unfold sessions. rewrite Z.leb_le. naive_solver.
Qed.

(** What the last loop keeps true of the events it has written. *)
Record slots_ok (i : nat) (out : list qwe_sched_event) : Prop := {
  so_grant : forall ev, ev ∈ out -> se_event ev = QWE_LC_EV_SLOT_GRANTED /\ se_job ev < i /\
    exists j, jobs !! se_job ev = Some j /\ sj_state j = QWE_LC_READY;
  so_sorted : StronglySorted lt (se_job <$> out);
  so_max : (0 < max_parallel)%Z -> out <> [] ->
    (Z.of_nat (count_running jobs + length out) <= max_parallel)%Z;
  so_group : forall g cap, g <> 0 -> caps !! (g - 1) = Some cap -> granted_in jobs g out <> 0 ->
    (Z.of_nat (sessions jobs g out) <= cap)%Z;
  so_blocked : forall k j, k < i -> jobs !! k = Some j -> sj_state j = QWE_LC_READY ->
    k ∉ (se_job <$> out) -> all_slots_used out \/ group_blocked j out;
}.

Lemma StronglySorted_snoc l x : StronglySorted lt l -> (forall y, y ∈ l -> y < x) ->
  StronglySorted lt (l ++ [x]).
Proof.
  induction 1 as [|y l Hs IH Hy]; intros Hb; simpl; [repeat constructor |].
  constructor; [apply IH; set_solver |].
  apply Forall_app. split; [done |]. constructor; [apply Hb; set_solver | constructor].
Qed.

Lemma blocked_mono j out ev : group_blocked j out -> group_blocked j (out ++ [ev]).
Proof.
  intros (H0 & cap & Hc & Hle). split; [done |]. exists cap. split; [done |].
  unfold sessions in *. rewrite granted_in_app. lia.
Qed.

Lemma slots_used_mono out ev : all_slots_used out -> all_slots_used (out ++ [ev]).
Proof. unfold all_slots_used. rewrite length_app. simpl. lia. Qed.

(** Granting job [i], ready, with a slot and a session free. *)
Lemma slots_ok_grant i j out :
  slots_ok i out -> jobs !! i = Some j -> sj_state j = QWE_LC_READY ->
  ~ all_slots_used out -> ~ group_blocked j out ->
  slots_ok (S i) (out ++ [SchedEvent i QWE_LC_EV_SLOT_GRANTED]).
Proof.
  intros [Hg Hs Hm Hgr Hb] Hj Hr Hfree Hnb.
  pose proof (wf_max _ _ _ Hwf) as Hmx. constructor.
  - intros ev [Hin| ->%list_elem_of_singleton]%elem_of_app.
    + apply Hg in Hin as (? & ? & ?). split_and!; [done | lia | done].
    + simpl. eauto with lia.
  - rewrite fmap_app. apply StronglySorted_snoc; [done |].
    intros y (ev & -> & Hev)%list_elem_of_fmap. by apply Hg in Hev as (_ & ? & _).
  - intros Hpos _. unfold all_slots_used in Hfree. rewrite length_app. simpl. lia.
  - intros g cap H0 Hcap Hin. unfold sessions. rewrite granted_in_app in Hin |- *. simpl in *.
    rewrite Hj in *. simpl in *. case_decide as E.
    + simplify_eq. destruct (decide (cap <= Z.of_nat (sessions jobs (sj_group j) out))%Z).
      { destruct Hnb. split; eauto. }
      unfold sessions in *. lia.
    + rewrite !Nat.add_0_r in *. unfold sessions in Hgr. eauto.
  - intros k j' Hk Hj' Hr' Hnin. rewrite fmap_app, not_elem_of_app in Hnin.
    destruct Hnin as [Hnin Hne]. simpl in Hne.
    destruct (Hb k j') as [?|?]; [set_solver by lia | done | done | done | |].
    + left. by apply slots_used_mono.
    + right. by apply blocked_mono.
Qed.

Lemma slots_ok_skip i j out :
  slots_ok i out -> jobs !! i = Some j -> (sj_state j = QWE_LC_READY -> group_blocked j out) ->
  slots_ok (S i) out.
Proof.
  intros [Hg Hs Hm Hgr Hb] Hj Hblk. constructor; try done.
  - intros ev Hin. apply Hg in Hin as (? & ? & ?). split_and!; [done | lia | done].
  - intros k j' Hk Hj' Hr' Hnin. destruct (decide (k = i)) as [->|].
    + simplify_eq. eauto.
    + apply (Hb k); try done. lia.
Qed.

Lemma slots_ok_break i out :
  slots_ok i out -> i <= length jobs -> all_slots_used out -> slots_ok (length jobs) out.
Proof.
  intros [Hg Hs Hm Hgr Hb] Hle Hu. constructor; try done; [| by eauto].
  intros ev Hin. apply Hg in Hin as (? & ? & ?). split_and!; [done | lia | done].
Qed.

Lemma pass_ready_ok i rest out :
  rest = drop i jobs -> i <= length jobs -> slots_ok i out ->
  exists evs, pass_ready jobs max_parallel caps (count_running jobs) i rest out = CRet evs /\
    slots_ok (length jobs) evs.
Proof.
  revert i out. induction rest as [|j rest IH]; intros i out Hr Hi Hs.
  { exists out. split; [done |]. apply (f_equal length) in Hr. rewrite length_drop in Hr.
    simpl in Hr. by replace (length jobs) with i by lia. }
  assert (Hj : jobs !! i = Some j).
  { rewrite <- (Nat.add_0_r i), <- lookup_drop, <- Hr. done. }
  assert (Hr' : rest = drop (S i) jobs).
  { rewrite (drop_S _ _ _ Hj) in Hr. congruence. }
  assert (Hi' : S i <= length jobs) by (by apply lookup_lt_Some in Hj).
  pose proof (wf_max _ _ _ Hwf) as Hmx.
  simpl. case_bool_decide as Hst.
  { apply IH; [done | done |]. eapply slots_ok_skip; [done | done |]. naive_solver. }
  rewrite size_of_long_id by done.
  destruct ((0 <? max_parallel) && _)%Z eqn:E.
  { apply andb_true_iff in E as [E1 E2]. apply Z.ltb_lt in E1. apply Z.leb_le in E2.
    exists out. split; [done |]. by eapply slots_ok_break. }
  assert (Hfree : ~ all_slots_used out).
  { intros [H1 H2]. apply andb_false_iff in E as [E|E];
      [apply Z.ltb_ge in E | apply Z.leb_gt in E]; lia. }
  destruct (group_full_ok i j out) as (b & -> & Hb).
  { done. }
  { intros ev Hev. apply (so_grant _ _ Hs) in Hev. lia. }
  simpl. destruct b.
  - apply IH; [done | done |]. eapply slots_ok_skip; [done | done |]. naive_solver.
  - apply IH; [done | done |]. eapply slots_ok_grant; try done. naive_solver.
Qed.

Lemma slots_ok_nil : slots_ok 0 [].
Proof.
  constructor; try done; try set_solver by lia. constructor.
Qed.

(** Both halves of a pass together. *)
Lemma sched_pass_cases :
  exists evs, qwe_sched_pass jobs max_parallel caps = CRet evs /\
  ((evs <> [] /\ StronglySorted lt (se_job <$> evs) /\
    forall ev, ev ∈ evs <-> exists k j, jobs !! k = Some j /\ pending_event k j ev) \/
   ((forall k j, jobs !! k = Some j -> ~ resolved jobs j) /\ slots_ok (length jobs) evs)).
Proof.
  unfold qwe_sched_pass.
  destruct (pass_pending_ok 0 jobs []) as (l & -> & Hin & Hs); [done |]. simpl.
  destruct l as [|ev l]; simpl.
  - destruct (pass_ready_ok 0 jobs []) as (evs & -> & Hok); [done | lia | apply slots_ok_nil |].
    exists evs. split; [done |]. right. split; [| done]. intros k j Hj Hres.
    destruct (decide (Forall (need_is jobs (eq QWE_LC_SUCCESS)) (sj_needs j))) as [Hall|Hall].
    + assert (SchedEvent k QWE_LC_EV_NEEDS_MET ∈ []); [| set_solver].
      apply Hin. exists k, j. split; [lia |]. split; [done |]. split; [done |]. split; [done |]. by left.
    + assert (SchedEvent k QWE_LC_EV_NEEDS_FAILED ∈ []); [| set_solver].
      apply Hin. exists k, j. split; [lia |]. split; [done |]. split; [done |]. split; [done |]. by right.
  - exists (ev :: l). split; [done |]. left. split_and!; [done | done |].
    intros e. rewrite Hin. split; intros (k & j & H); exists k, j; [tauto | split; [lia | done]].
Qed.

End proofs.

(** ** Properties *)

(** The events that start a job. *)
Definition grants (evs : list qwe_sched_event) : list qwe_sched_event :=
  filter (fun ev => se_event ev = QWE_LC_EV_SLOT_GRANTED) evs.

Lemma grants_pending jobs evs :
  (forall ev, ev ∈ evs <-> exists k j, jobs !! k = Some j /\ pending_event jobs k j ev) -> grants evs = [].
Proof.
  intros Hin. apply elem_of_nil_inv. intros ev [Hg Hev]%list_elem_of_filter.
  apply Hin in Hev as (k & j & _ & (_ & _ & [[E _]|[E _]])); congruence.
Qed.

Lemma grants_slots jobs mp caps i evs : slots_ok jobs mp caps i evs -> grants evs = evs.
Proof.
  intros [Hg _ _ _ _]. unfold grants.
  assert (H : Forall (fun ev => se_event ev = QWE_LC_EV_SLOT_GRANTED) evs).
  { apply Forall_forall. intros ev Hev. by apply Hg. }
  clear Hg. induction H as [|ev evs E H IH]; [done |]. rewrite filter_cons_True by done. by rewrite IH.
Qed.

Lemma sorted_length l k n : StronglySorted lt l -> (forall x, x ∈ l -> k <= x < k + n) -> length l <= n.
Proof.
  intros Hs. revert k n. induction Hs as [|x l Hs IH Hx]; intros k n Hb; simpl; [lia |].
  assert (k <= x < k + n) by (apply Hb; set_solver).
  specialize (IH (S x) (k + n - S x)). rewrite Forall_forall in Hx.
  assert (length l <= k + n - S x); [| lia].
  apply IH. intros y Hy. specialize (Hx y Hy). specialize (Hb y ltac:(set_solver)). lia.
Qed.

Lemma success_final jobs needs :
  Forall (need_is jobs (eq QWE_LC_SUCCESS)) needs -> Forall (need_is jobs is_final) needs.
Proof. intros H. eapply Forall_impl; [exact H |]. intros d (j & Hj & E). exists j. by rewrite <- E. Qed.

(** C29. A pass over well-formed jobs stays inside its arrays and writes at most
    one event per job, in job order, each of which the job's state accepts:
    NEEDS_MET for exactly the pending jobs whose needs all succeeded,
    NEEDS_FAILED for exactly those whose needs are all final but did not all
    succeed, and SLOT_GRANTED only for ready jobs, and only when no pending job
    was moved. *)
Theorem sched_pass_exact jobs mp caps : sched_wf jobs mp caps ->
  exists evs, qwe_sched_pass jobs mp caps = CRet evs /\
  StronglySorted lt (se_job <$> evs) /\ length evs <= length jobs /\
  (forall ev, ev ∈ evs -> exists j, jobs !! se_job ev = Some j /\
     forall p, exists r, qwe_lc_lookup (sj_state j) (se_event ev) p = inl r) /\
  (forall i, SchedEvent i QWE_LC_EV_NEEDS_MET ∈ evs <-> exists j, jobs !! i = Some j /\
     sj_state j = QWE_LC_PENDING /\ Forall (need_is jobs (eq QWE_LC_SUCCESS)) (sj_needs j)) /\
  (forall i, SchedEvent i QWE_LC_EV_NEEDS_FAILED ∈ evs <-> exists j, jobs !! i = Some j /\
     resolved jobs j /\ ~ Forall (need_is jobs (eq QWE_LC_SUCCESS)) (sj_needs j)) /\
  (forall i, SchedEvent i QWE_LC_EV_SLOT_GRANTED ∈ evs ->
     (exists j, jobs !! i = Some j /\ sj_state j = QWE_LC_READY) /\
     forall k j, jobs !! k = Some j -> ~ resolved jobs j).
Proof.
  intros Hwf. destruct (sched_pass_cases jobs mp caps Hwf) as (evs & -> & [(Hne & Hs & Hin)|(Hno & Hok)]).
  - exists evs. split; [done |]. split; [done |]. split_and!.
    + rewrite <- (length_fmap se_job). eapply (sorted_length _ 0); [done |].
      intros x (ev & -> & Hev)%list_elem_of_fmap. apply Hin in Hev as (k & j & Hj & (-> & _)).
      apply lookup_lt_Some in Hj. lia.
    + intros ev Hev. apply Hin in Hev as (k & j & Hj & (-> & [Hp _] & He)). exists j. split; [done |].
      rewrite Hp. intros p. destruct He as [[-> _]|[-> _]]; eexists; reflexivity.
    + intros i. rewrite Hin. unfold pending_event, resolved. simpl.
      split; [naive_solver | intros (j & Hj & Hp & Hf)]. exists i, j.
      split_and!; [done | done | done | by apply success_final | by left].
    + intros i. rewrite Hin. unfold pending_event. simpl. split; [naive_solver |].
      intros (j & Hj & [Hp Hp'] & Hf). exists i, j. split; [done |]. split; [done |].
      split; [by split | by right].
    + intros i Hi. apply Hin in Hi as (k & j & _ & (_ & _ & [[E _]|[E _]])); by simpl in E.
  - exists evs. split; [done |]. pose proof (so_grant _ _ _ _ _ Hok) as Hg.
    split; [by eapply so_sorted |]. split_and!.
    + rewrite <- (length_fmap se_job). eapply (sorted_length _ 0); [by eapply so_sorted |].
      intros x (ev & -> & Hev)%list_elem_of_fmap. apply Hg in Hev. lia.
    + intros ev Hev. apply Hg in Hev as (-> & _ & j & Hj & Hr). exists j. split; [done |]. rewrite Hr.
      intros p. eexists. reflexivity.
    + intros i. split; [intros (E & _)%Hg; by simpl in E |].
      intros (j & Hj & Hp & Hf). destruct (Hno i j Hj). split; [done | by apply success_final].
    + intros i. split; [intros (E & _)%Hg; by simpl in E |].
      intros (j & Hj & Hp & _). by destruct (Hno i j Hj).
    + intros i (_ & _ & ?)%Hg. done.
Qed.

(** A running job, a finished one and one that has just become ready. *)
Definition example_jobs : list qwe_sched_job :=
  [SchedJob QWE_LC_STEP_RUNNING [] 1; SchedJob QWE_LC_READY [] 1;
   SchedJob QWE_LC_READY [] 0; SchedJob QWE_LC_PENDING [0] 0].

Lemma example_wf : sched_wf example_jobs 3 [1%Z].
Proof.
  constructor.
  - intros i j d Hj Hd. do 4 (destruct i as [|i]; [simplify_eq/=; set_solver by lia |]). done.
  - intros i j Hj. do 4 (destruct i as [|i]; [simplify_eq/=; lia |]). done.
  - intros c Hc. apply list_elem_of_singleton in Hc. lia.
  - lia.
Qed.

Lemma sched_pass_exact_witness :
  sched_wf example_jobs 3 [1%Z] /\
  qwe_sched_pass example_jobs 3 [1%Z] = CRet [SchedEvent 2 QWE_LC_EV_SLOT_GRANTED] /\
  exists evs, qwe_sched_pass example_jobs 3 [1%Z] = CRet evs /\ length evs <= 4.
Proof.
  split; [exact example_wf |]. split; [vm_compute; reflexivity |].
  destruct (sched_pass_exact _ _ _ example_wf) as (evs & H & _ & Hl & _). by exists evs.
Defined.

(** A pass keeps the limits. *)
Lemma limits_kept jobs mp caps evs :
  sched_wf jobs mp caps -> qwe_sched_pass jobs mp caps = CRet evs ->
  ((0 < mp)%Z -> (Z.of_nat (count_running jobs) <= mp)%Z ->
     (Z.of_nat (count_running jobs + length (grants evs)) <= mp)%Z) /\
  (forall g cap, caps !! g = Some cap -> (Z.of_nat (group_running jobs (S g)) <= cap)%Z ->
     (Z.of_nat (sessions jobs (S g) (grants evs)) <= cap)%Z).
Proof.
  intros Hwf Hp. destruct (sched_pass_cases jobs mp caps Hwf) as (evs' & Hp' & Hc).
  rewrite Hp' in Hp. injection Hp as ->. destruct Hc as [(_ & _ & Hin)|(_ & Hok)].
  - rewrite (grants_pending _ _ Hin). unfold sessions. simpl.
    split; [intros | intros g cap ? ?]; rewrite Nat.add_0_r; done.
  - rewrite (grants_slots _ _ _ _ _ Hok). destruct Hok as [_ _ Hm Hg _]. split.
    + intros Hpos Hr. destruct evs; [by rewrite Nat.add_0_r | by apply Hm].
    + intros g cap Hcap Hr. destruct (decide (granted_in jobs (S g) evs = 0)) as [E|E].
      * unfold sessions. rewrite E. by rewrite Nat.add_0_r.
      * apply Hg; [lia | | done]. by rewrite Nat.sub_succ, Nat.sub_0_r.
Qed.

(** A pass never grants more than the limits leave: with a limit on parallel
    jobs, running and granted jobs together stay within it if the running ones
    did, and likewise for the sessions of every session group. *)
Theorem sched_pass_limits jobs mp caps evs :
  sched_wf jobs mp caps -> qwe_sched_pass jobs mp caps = CRet evs ->
  ((0 < mp)%Z -> (Z.of_nat (count_running jobs) <= mp)%Z ->
     (Z.of_nat (count_running jobs + length (grants evs)) <= mp)%Z) /\
  (forall g cap, caps !! g = Some cap -> (Z.of_nat (group_running jobs (S g)) <= cap)%Z ->
     (Z.of_nat (sessions jobs (S g) (grants evs)) <= cap)%Z).
Proof. apply limits_kept. Qed.

Lemma sched_pass_limits_witness :
  (Z.of_nat (count_running example_jobs + length (grants [SchedEvent 2 QWE_LC_EV_SLOT_GRANTED])) <= 3)%Z /\
  (Z.of_nat (sessions example_jobs 1 (grants [SchedEvent 2 QWE_LC_EV_SLOT_GRANTED])) <= 1)%Z.
Proof.
  destruct (sched_pass_limits example_jobs 3 [1%Z] [SchedEvent 2 QWE_LC_EV_SLOT_GRANTED]) as [H1 H2].
  - exact example_wf.
  - vm_compute. reflexivity.
  - split; [apply H1; vm_compute; congruence |]. apply (H2 0); vm_compute; congruence.
Defined.

(** A pass leaves no capacity idle: when it moves no pending job, every ready
    job it does not start is held back by the limit on parallel jobs or by its
    own session group, counting the sessions this pass grants. *)
Theorem sched_pass_no_idle jobs mp caps evs i j :
  sched_wf jobs mp caps -> qwe_sched_pass jobs mp caps = CRet evs ->
  (forall k j', jobs !! k = Some j' -> ~ resolved jobs j') ->
  jobs !! i = Some j -> sj_state j = QWE_LC_READY -> SchedEvent i QWE_LC_EV_SLOT_GRANTED ∉ evs ->
  all_slots_used jobs mp evs \/ group_blocked jobs caps j evs.
Proof.
  intros Hwf Hp Hno Hj Hr Hn. destruct (sched_pass_cases jobs mp caps Hwf) as (evs' & Hp' & Hc).
  rewrite Hp' in Hp. injection Hp as ->. destruct Hc as [(Hne & _ & Hin)|(_ & Hok)].
  - destruct evs as [|ev evs]; [done |]. destruct (proj1 (Hin ev)) as (k & j' & Hj' & (_ & Hres & _)); [set_solver |].
    by destruct (Hno k j').
  - pose proof (so_grant _ _ _ _ _ Hok) as Hg. destruct Hok as [_ _ _ _ Hb].
    apply (Hb i); [by apply lookup_lt_Some in Hj | done | done |].
    intros ([k e] & E & Hin)%list_elem_of_fmap. simpl in E. subst k.
    apply Hg in Hin as Hin'. destruct Hin' as [E _]. simpl in E. by subst e.
Qed.

Lemma sched_pass_no_idle_witness :
  group_blocked example_jobs [1%Z] (SchedJob QWE_LC_READY [] 1) [SchedEvent 2 QWE_LC_EV_SLOT_GRANTED].
Proof.
  destruct (sched_pass_no_idle example_jobs 3 [1%Z] [SchedEvent 2 QWE_LC_EV_SLOT_GRANTED] 1
    (SchedJob QWE_LC_READY [] 1)) as [[_ H]|H].
  - exact example_wf.
  - vm_compute. reflexivity.
  - intros k j' Hk [Hp Hf]. do 4 (destruct k as [|k]; [simplify_eq/= |]); [| done].
    apply Forall_cons in Hf as [(j & Hj & Hf) _]. simplify_eq/=. done.
  - reflexivity.
  - reflexivity.
  - set_solver.
  - exfalso. vm_compute in H. by apply H.
  - exact H.
Defined.

(** Job [i] needs job [d]. *)
Definition need_edge (jobs : list qwe_sched_job) (i d : nat) : Prop :=
  exists j, jobs !! i = Some j /\ d ∈ sj_needs j.

Definition needs_acyclic (jobs : list qwe_sched_job) : Prop := forall i, ~ tc (need_edge jobs) i i.

Lemma state_cases s : s = QWE_LC_PENDING \/ s = QWE_LC_READY \/ is_final s \/
  qwe_lc_state_is_running s = true.
Proof. unfold is_final. destruct s; vm_compute; tauto. Qed.

Lemma count_running_0 jobs i j : count_running jobs = 0 -> jobs !! i = Some j ->
  qwe_lc_state_is_running (sj_state j) = false.
Proof.
  revert i. induction jobs as [|j' jobs IH]; intros [|i] Hc Hj; simplify_eq/=.
  - by destruct (qwe_lc_state_is_running (sj_state j)).
  - destruct (qwe_lc_state_is_running (sj_state j')); [lia | eauto].
Qed.

Lemma group_running_le jobs g : group_running jobs g <= count_running jobs.
Proof.
  induction jobs as [|j jobs IH]; simpl; [lia |].
  destruct (sj_group j =? g), (qwe_lc_state_is_running (sj_state j)); simpl; lia.
Qed.

(** An unfinished job of a stuck, idle pass needs another unfinished job. *)
Lemma stuck_step jobs mp caps i j :
  sched_wf jobs mp caps -> (forall c, c ∈ caps -> (1 <= c)%Z) ->
  qwe_sched_pass jobs mp caps = CRet [] -> count_running jobs = 0 ->
  jobs !! i = Some j -> ~ is_final (sj_state j) ->
  exists d j', d ∈ sj_needs j /\ jobs !! d = Some j' /\ ~ is_final (sj_state j').
Proof.
  intros Hwf Hcap Hp Hrun Hj Hnf. destruct (sched_pass_cases jobs mp caps Hwf) as (evs & Hp' & Hc).
  rewrite Hp in Hp'. injection Hp' as <-. destruct Hc as [(? & _)|(Hno & Hok)]; [done |].
  destruct (state_cases (sj_state j)) as [E|[E|[E|E]]]; [| | done |].
  - destruct (decide (Forall (need_is jobs is_final) (sj_needs j))) as [Hf|Hf]; [by destruct (Hno i j Hj) |].
    apply not_Forall_Exists, Exists_exists in Hf as (d & Hd & Hn); [| apply _].
    destruct (lookup_lt_is_Some_2 jobs d) as [j' Hj']; [by eapply wf_needs |].
    exists d, j'. split_and!; [done | done |]. intros Hf. apply Hn. by exists j'.
  - destruct (so_blocked _ _ _ _ _ Hok i j) as [[H1 H2]|(H0 & cap & Hc & Hle)];
      [by apply lookup_lt_Some in Hj | done | done | set_solver | simpl in H2; lia |].
    specialize (Hcap cap ltac:(by eapply list_elem_of_lookup_2)).
    pose proof (group_running_le jobs (sj_group j)). unfold sessions in Hle. simpl in Hle. lia.
  - by rewrite (count_running_0 _ _ _ Hrun Hj) in E.
Qed.

(** A pass that sends nothing while nothing runs finds every job final. *)
Lemma nothing_left jobs mp caps :
  sched_wf jobs mp caps -> (forall c, c ∈ caps -> (1 <= c)%Z) -> needs_acyclic jobs ->
  qwe_sched_pass jobs mp caps = CRet [] -> count_running jobs = 0 ->
  forall i j, jobs !! i = Some j -> qwe_lc_state_is_final (sj_state j) = true.
Proof.
  intros Hwf Hcap Hac Hp Hrun i j Hj.
  destruct (qwe_lc_state_is_final (sj_state j)) eqn:E; [done | exfalso].
  destruct (serial_cycle (length jobs) (need_edge jobs)
    (fun i => exists j, jobs !! i = Some j /\ ~ is_final (sj_state j))) with (x := i) as [y Hy].
  - intros k (j' & Hj' & _). by apply lookup_lt_Some in Hj'.
  - intros k (j' & Hj' & Hn).
    destruct (stuck_step jobs mp caps k j') as (d & j'' & Hd & Hj'' & Hn'); try done.
    exists d. split; [by exists j' | by exists j''].
  - exists j. split; [done |]. unfold is_final. by rewrite E.
  - by apply (Hac y).
Qed.

(** C30. No deadlock: when the needs have no cycle and every session group may
    hold one session, a pass that sends no event while no job runs means that
    every job is in a final state, so the engine's "internal error" exit for a
    run that cannot go on is not reached from here. *)
Theorem sched_pass_progress jobs mp caps :
  sched_wf jobs mp caps -> (forall c, c ∈ caps -> (1 <= c)%Z) -> needs_acyclic jobs ->
  qwe_sched_pass jobs mp caps = CRet [] -> count_running jobs = 0 ->
  forall i j, jobs !! i = Some j -> qwe_lc_state_is_final (sj_state j) = true.
Proof. apply nothing_left. Qed.

Lemma sched_pass_progress_witness :
  qwe_sched_pass [SchedJob QWE_LC_SUCCESS [] 0; SchedJob QWE_LC_FAILED [0] 1] 1 [1%Z] = CRet [] /\
  qwe_lc_state_is_final QWE_LC_FAILED = true.
Proof.
  split; [vm_compute; reflexivity |].
  apply (sched_pass_progress [SchedJob QWE_LC_SUCCESS [] 0; SchedJob QWE_LC_FAILED [0] 1] 1 [1%Z])
    with (i := 1) (j := SchedJob QWE_LC_FAILED [0] 1).
  - constructor.
    + intros [|[|i]] j d Hj Hd; simplify_eq/=; [set_solver | set_solver by lia].
    + intros [|[|i]] j Hj; simplify_eq/=; lia.
    + intros c Hc. apply list_elem_of_singleton in Hc. lia.
    + lia.
  - intros c Hc. apply list_elem_of_singleton in Hc. lia.
  - assert (Hlt : forall a b, tc (need_edge [SchedJob QWE_LC_SUCCESS [] 0; SchedJob QWE_LC_FAILED [0] 1]) a b -> b < a).
    { induction 1 as [a b H|a b c H _ IH]; destruct H as (j & Hj & Hd);
        destruct a as [|[|a]]; simplify_eq/=; set_solver by lia. }
    intros a Ha. specialize (Hlt a a Ha). lia.
  - vm_compute. reflexivity.
  - reflexivity.
  - reflexivity.
Defined.
