(* ===== verification/Ring.v ===== *)
(** * The output ring

    Models [src/kernel/ring.h] and [src/kernel/ring.c]: the byte ring between a
    job's pipe reader and its log sink.  Indexes are [nat] (a ring's capacity is
    an allocated size, so [head + len + i < 2 * cap] does not overflow
    [size_t]); the counter of dropped bytes wraps at 64 bits.  [x % cap] with
    [cap = 0] and a read or write outside the buffer are [CUndef].  The theorems
    show that the ring is a bounded queue that drops the oldest bytes and counts
    every one of them. *)

From S2P Require Import Prelude.
From Stdlib Require Import Ascii NArith ZArith Lia.
From stdpp Require Import base list strings numbers.

(** ** Data and operations *)

Record qwe_ring := Ring {
  r_buf : bytes;
  r_cap : nat;
  r_head : nat; (* index of the oldest byte *)
  r_len : nat;
  r_dropped : N;
}.

Definition QWE_RING_CAPACITY : nat := 1024 * 1024.
#[global] Arguments QWE_RING_CAPACITY : simpl never.

Definition ring0 : qwe_ring := Ring [] 0 0 0 0.

(** [a % b] on [size_t]. *)
Definition cmod (a b : nat) : cres nat := if b =? 0 then CUndef else CRet (a mod b).

(** [mem] is what [malloc(cap)] gave: [cap] bytes of any content, or nothing. *)
Definition qwe_ring_init (mem : option bytes) (cap : nat) : qwe_ring * Z :=
  match mem with
  | None => (ring0, (-1)%Z)
  | Some buf => (Ring buf cap 0 0 0, 0%Z)
  end.

Definition qwe_ring_free (r : qwe_ring) : qwe_ring := ring0.

(** The copy loop of a write, from its index [i] on. *)
Fixpoint put (cap base i : nat) (p : bytes) (buf : bytes) : cres bytes :=
  match p with
  | [] => CRet buf
  | x :: p =>
      k ← cmod (base + i) cap;
      buf ← cwrite buf k x;
      put cap base (S i) p buf
  end.

Definition qwe_ring_write (r : qwe_ring) (data : bytes) : cres qwe_ring :=
  let n := length data in
  let '(dropped, p, n) :=
    if r_cap r <? n
    then (wrap64 (r_dropped r + N.of_nat (n - r_cap r)), drop (n - r_cap r) data, r_cap r)
    else (r_dropped r, data, n) in
  '(head, len, dropped) ←
    (if r_cap r <? r_len r + n
     then
       let over := r_len r + n - r_cap r in
       head ← cmod (r_head r + over) (r_cap r);
       mret (head, r_len r - over, wrap64 (dropped + N.of_nat over))
     else mret (r_head r, r_len r, dropped));
  buf ← put (r_cap r) (head + len) 0 p (r_buf r);
  mret (Ring buf (r_cap r) head (len + n) dropped).

(** The copy loop of a read. *)
Fixpoint get (cap head i n : nat) (buf : bytes) : cres bytes :=
  match n with
  | 0 => CRet []
  | S n =>
      k ← cmod (head + i) cap;
      x ← cread buf k;
      o ← get cap head (S i) n buf;
      mret (x :: o)
  end.

(** Returns the bytes moved into [out]; their number is the C result. *)
Definition qwe_ring_read (r : qwe_ring) (n : nat) : cres (qwe_ring * bytes) :=
  let n := if r_len r <? n then r_len r else n in
  o ← get (r_cap r) (r_head r) 0 n (r_buf r);
  head ← cmod (r_head r + n) (r_cap r);
  mret (Ring (r_buf r) (r_cap r) head (r_len r - n) (r_dropped r), o).

(** ** The queue a ring implements *)

Record ring_wf (r : qwe_ring) : Prop := {
  wf_cap : 0 < r_cap r;
  wf_buf : length (r_buf r) = r_cap r;
  wf_head : r_head r < r_cap r;
  wf_len : r_len r <= r_cap r;
  wf_dropped : (r_dropped r < w64)%N;
}.

(** The bytes held, oldest first. *)
Definition content (r : qwe_ring) : bytes :=
  omap (fun i => r_buf r !! ((r_head r + i) mod r_cap r)) (seq 0 (r_len r)).

(** A queue of at most [cap] bytes: what it holds, and how many bytes it had to
    give up. *)
Record queue := Queue { q_held : bytes; q_lost : nat }.

Definition queue_write (cap : nat) (q : queue) (data : bytes) : queue :=
  let all := q_held q ++ data in
  Queue (drop (length all - cap) all) (q_lost q + (length all - cap)).

Definition queue_read (q : queue) (n : nat) : queue * bytes :=
  (Queue (drop n (q_held q)) (q_lost q), take n (q_held q)).

(** One use of the ring; the result is what reads returned. *)
Inductive ring_op := Write (data : bytes) | Read (n : nat).

Fixpoint ring_run (ops : list ring_op) (r : qwe_ring) : cres (qwe_ring * list bytes) :=
  match ops with
  | [] => CRet (r, [])
  | Write data :: ops =>
      r ← qwe_ring_write r data;
      ring_run ops r
  | Read n :: ops =>
      '(r, o) ← qwe_ring_read r n;
      '(r, os) ← ring_run ops r;
      mret (r, o :: os)
  end.

Fixpoint queue_run (cap : nat) (ops : list ring_op) (q : queue) : queue * list bytes :=
  match ops with
  | [] => (q, [])
  | Write data :: ops => queue_run cap ops (queue_write cap q data)
  | Read n :: ops =>
      let '(q, o) := queue_read q n in
      let '(q, os) := queue_run cap ops q in
      (q, o :: os)
  end.

Fixpoint written (ops : list ring_op) : bytes :=
  match ops with
  | [] => []
  | Write data :: ops => data ++ written ops
  | Read _ :: ops => written ops
  end.

(** The ring holds what the queue holds. *)
Definition ring_refines (r : qwe_ring) (q : queue) : Prop :=
  ring_wf r /\ content r = q_held q /\ r_dropped r = wrap64 (N.of_nat (q_lost q)).

(** ** Lemmas *)

Lemma cmod_ok a b : 0 < b -> cmod a b = CRet (a mod b).
Proof. intros. unfold cmod. by destruct (Nat.eqb_spec b 0); [lia |]. Qed.

Lemma mod_inj b c i j : 0 < c -> i < c -> j < c -> (b + i) mod c = (b + j) mod c -> i = j.
Proof.
  intros Hc Hi Hj E.
  pose proof (Nat.div_mod (b + i) c ltac:(lia)) as E1. pose proof (Nat.div_mod (b + j) c ltac:(lia)) as E2.
  rewrite E in E1. set (q := (b + i) / c) in *. set (q' := (b + j) / c) in *. clearbody q q'.
  destruct (Nat.lt_trichotomy q q') as [H|[H|H]]; [nia | subst; lia | nia].
Qed.

(** What the copy loop leaves at each offset from its base. *)
Lemma put_ok cap base i p buf :
  0 < cap -> length buf = cap -> i + length p <= cap ->
  exists buf', put cap base i p buf = CRet buf' /\ length buf' = cap /\
  forall k, k < cap -> buf' !! ((base + k) mod cap) =
    if decide (i <= k < i + length p) then p !! (k - i) else buf !! ((base + k) mod cap).
Proof.
  intros Hc. revert i buf. induction p as [|x p IH]; intros i buf Hb Hi; simpl in *.
  - exists buf. split_and!; [done | done |]. intros k Hk. case_decide; [lia | done].
  - rewrite cmod_ok by done. simpl.
    assert (Hlt : (base + i) mod cap < cap) by (apply Nat.mod_upper_bound; lia).
    rewrite cwrite_ok by (by rewrite Hb). simpl.
    destruct (IH (S i) (<[(base + i) mod cap := x]> buf)) as (buf' & -> & Hl & Hk);
      [by rewrite length_insert | lia |].
    exists buf'. split_and!; [done | done |]. intros k Hkc. rewrite Hk by done.
    destruct (decide (k = i)) as [->|Hne].
    + rewrite decide_False by lia. rewrite decide_True by lia.
      rewrite Nat.sub_diag, list_lookup_insert_eq by (by rewrite Hb). done.
    + rewrite list_lookup_insert_ne by (intros E; apply (mod_inj _ _ _ _ Hc) in E; lia).
      repeat case_decide; try lia; [| done]. by replace (k - i) with (S (k - S i)) by lia.
Qed.

Lemma content_lookup r k : ring_wf r ->
  content r !! k = if decide (k < r_len r) then r_buf r !! ((r_head r + k) mod r_cap r) else None.
Proof.
  intros [Hc Hb Hh Hl Hd]. unfold content.
  assert (Hall : forall n k s, omap (fun i => r_buf r !! ((r_head r + i) mod r_cap r)) (seq s n) !! k =
    if decide (k < n) then r_buf r !! ((r_head r + (s + k)) mod r_cap r) else None).
  { clear k. induction n as [|n IH]; intros k s; [by case_decide; [lia |] | cbn [seq omap list_omap]].
    destruct (lookup_lt_is_Some_2 (r_buf r) ((r_head r + s) mod r_cap r)) as [x Hx].
    { rewrite Hb. apply Nat.mod_upper_bound. lia. }
    rewrite Hx. destruct k as [|k]; cbn [lookup list_lookup].
    - rewrite decide_True by lia. by rewrite Nat.add_0_r.
    - rewrite IH. replace (S s + k) with (s + S k) by lia.
      repeat case_decide; (done || lia). }
  rewrite Hall. done.
Qed.

Lemma content_length r : ring_wf r -> length (content r) = r_len r.
Proof.
  intros Hwf. destruct (Nat.lt_trichotomy (length (content r)) (r_len r)) as [H|[H|H]]; [| done |]; exfalso.
  - assert (E : content r !! length (content r) = None) by (by apply lookup_ge_None_2).
    rewrite content_lookup, decide_True in E by done. destruct Hwf.
    apply lookup_ge_None in E. pose proof (Nat.mod_upper_bound (r_head r + length (content r)) (r_cap r)). lia.
  - destruct (lookup_lt_is_Some_2 _ _ H) as [x E].
    by rewrite content_lookup, decide_False in E by (done || lia).
Qed.

Lemma mod_add_mod_l a b c : c <> 0 -> (a mod c + b) mod c = (a + b) mod c.
Proof. intros. by rewrite Nat.Div0.add_mod_idemp_l. Qed.

(** The second half of a write: room for [p], at most a full ring, is made by
    dropping the oldest bytes. *)
Lemma write_fits r d p buf head len :
  ring_wf r -> length p <= r_cap r -> (d < w64)%N ->
  head = (r_head r + (r_len r + length p - r_cap r)) mod r_cap r ->
  len = r_len r - (r_len r + length p - r_cap r) ->
  put (r_cap r) (head + len) 0 p (r_buf r) = CRet buf ->
  let r' := Ring buf (r_cap r) head (len + length p) d in
  ring_wf r' /\ content r' = drop (r_len r + length p - r_cap r) (content r ++ p).
Proof.
  intros Hwf Hp Hd' Hhead Hlen Hput r'. pose proof Hwf as [Hc Hb Hh Hl Hd].
  destruct (put_ok (r_cap r) (head + len) 0 p (r_buf r)) as (buf' & Hput' & Hbl & Hk); [done | done | lia |].
  rewrite Hput in Hput'. injection Hput' as <-.
  assert (Hwf' : ring_wf r').
  { constructor; subst r'; simpl; [done | done | | lia | done]. subst head. apply Nat.mod_upper_bound. lia. }
  split; [done |]. apply list_eq. intros k. rewrite content_lookup, lookup_drop by done. subst r'. simpl.
  set (over := r_len r + length p - r_cap r) in *.
  destruct (decide (k < len)) as [H1|H1].
  - rewrite lookup_app_l, content_lookup by (done || rewrite ?content_length by done; lia).
    rewrite !decide_True by lia.
    specialize (Hk (r_cap r - len + k)). rewrite decide_False in Hk by lia.
    replace (head + len + (r_cap r - len + k)) with (head + k + 1 * r_cap r) in Hk by lia.
    rewrite Nat.Div0.mod_add in Hk. rewrite Hk by lia. subst head.
    rewrite mod_add_mod_l by lia. by rewrite Nat.add_assoc.
  - rewrite lookup_app_r, content_length by (rewrite ?content_length by done; (done || lia)).
    destruct (decide (k < len + length p)) as [H2|H2].
    + specialize (Hk (k - len)). rewrite decide_True in Hk by lia.
      replace (head + len + (k - len)) with (head + k) in Hk by lia.
      rewrite Hk by lia. f_equal. lia.
    + symmetry. apply lookup_ge_None. lia.
Qed.

Lemma wrap64_lt n : (wrap64 n < w64)%N.
Proof. apply N.mod_lt. done. Qed.

Lemma make_room r d n : ring_wf r -> (d < w64)%N ->
  (if r_cap r <? r_len r + n
   then
     let over := r_len r + n - r_cap r in
     head ← cmod (r_head r + over) (r_cap r);
     mret (head, r_len r - over, wrap64 (d + N.of_nat over))
   else mret (r_head r, r_len r, d)) =
  CRet ((r_head r + (r_len r + n - r_cap r)) mod r_cap r, r_len r - (r_len r + n - r_cap r),
        wrap64 (d + N.of_nat (r_len r + n - r_cap r))).
Proof.
  intros [Hc Hb Hh Hl Hd] Hd'. destruct (Nat.ltb_spec (r_cap r) (r_len r + n)) as [H|H].
  - cbv zeta. by rewrite cmod_ok by done.
  - replace (r_len r + n - r_cap r) with 0 by lia.
    rewrite Nat.add_0_r, Nat.sub_0_r, N.add_0_r, Nat.mod_small, wrap64_small by done. done.
Qed.

Lemma ring_write_ok r data : ring_wf r ->
  exists r', qwe_ring_write r data = CRet r' /\ ring_wf r' /\ r_cap r' = r_cap r /\
  content r' = drop (length (content r ++ data) - r_cap r) (content r ++ data) /\
  r_dropped r' = wrap64 (r_dropped r + N.of_nat (length (content r ++ data) - r_cap r)).
Proof.
  intros Hwf. pose proof Hwf as [Hc Hb Hh Hl Hd]. unfold qwe_ring_write.
  rewrite length_app, content_length by done.
  set (skip := length data - r_cap r).
  assert (Hpre : (if r_cap r <? length data
    then (wrap64 (r_dropped r + N.of_nat skip), drop skip data, r_cap r)
    else (r_dropped r, data, length data)) =
    (wrap64 (r_dropped r + N.of_nat skip), drop skip data, length (drop skip data))).
  { rewrite length_drop. destruct (Nat.ltb_spec (r_cap r) (length data)) as [H|H]; subst skip.
    - repeat f_equal. lia.
    - replace (length data - r_cap r) with 0 by lia.
      rewrite drop_0, N.add_0_r, wrap64_small by done. repeat f_equal. lia. }
  rewrite Hpre. cbv zeta iota. rewrite make_room by (done || apply wrap64_lt). cbn [mbind cres_bind cbind].
  assert (Hp : length (drop skip data) <= r_cap r) by (rewrite length_drop; lia).
  set (p := drop skip data) in *.
  destruct (put_ok (r_cap r) ((r_head r + (r_len r + length p - r_cap r)) mod r_cap r +
    (r_len r - (r_len r + length p - r_cap r))) 0 p (r_buf r)) as (buf & Hput & _); [done | done | lia |].
  rewrite Hput. cbn [mbind cres_bind cbind].
  edestruct (write_fits r) as [Hwf' Hct]; [done | exact Hp | apply wrap64_lt | done | done | exact Hput |].
  eexists. split; [done |]. split; [exact Hwf' |]. split; [done |]. split.
  - rewrite Hct. rewrite !drop_app, content_length by done. unfold p. rewrite drop_drop, length_drop.
    destruct (decide (length data <= r_cap r)).
    + replace skip with 0 by lia. by rewrite Nat.sub_0_r.
    + rewrite !(drop_ge (content r)) by (rewrite ?content_length by done; lia). simpl. f_equal. lia.
  - cbn [r_dropped]. rewrite wrap64_add_l. f_equal. unfold p. rewrite length_drop. lia.
Qed.

Lemma get_ok r i n : ring_wf r -> i + n <= r_len r ->
  get (r_cap r) (r_head r) i n (r_buf r) = CRet (take n (drop i (content r))).
Proof.
  intros Hwf. pose proof Hwf as [Hc Hb Hh Hl Hd]. revert i. induction n as [|n IH]; intros i Hi; simpl; [done |].
  rewrite cmod_ok by done. simpl.
  destruct (lookup_lt_is_Some_2 (content r) i) as [x Hx]; [rewrite content_length; (done || lia) |].
  rewrite (drop_S _ _ _ Hx). rewrite content_lookup, decide_True in Hx by (done || lia).
  rewrite (cread_Some _ _ _ Hx). simpl. by rewrite IH by lia.
Qed.

Lemma ring_read_ok r n : ring_wf r ->
  exists r', qwe_ring_read r n = CRet (r', take n (content r)) /\ ring_wf r' /\ r_cap r' = r_cap r /\
  content r' = drop n (content r) /\ r_dropped r' = r_dropped r.
Proof.
  intros Hwf. pose proof Hwf as [Hc Hb Hh Hl Hd]. unfold qwe_ring_read.
  set (m := if r_len r <? n then r_len r else n).
  assert (Hm : m = n `min` r_len r) by (subst m; destruct (Nat.ltb_spec (r_len r) n); lia).
  rewrite get_ok by (done || lia). simpl. rewrite cmod_ok by done. simpl.
  pose proof (content_length r Hwf) as Hcl.
  assert (Ht : take m (drop 0 (content r)) = take n (content r)).
  { rewrite Hm, drop_0. destruct (decide (n <= r_len r)); [by rewrite Nat.min_l by lia |].
    rewrite !take_ge; [done | lia | lia]. }
  rewrite Ht. eexists. split; [done |].
  assert (Hwf' : ring_wf (Ring (r_buf r) (r_cap r) ((r_head r + m) mod r_cap r) (r_len r - m) (r_dropped r))).
  { constructor; simpl; [done | done | apply Nat.mod_upper_bound; lia | lia | done]. }
  split_and!; [done | done | | done].
  apply list_eq. intros k. rewrite lookup_drop, !content_lookup by done. simpl.
  destruct (decide (k < r_len r - m)).
  - rewrite decide_True by lia. rewrite mod_add_mod_l by lia.
    replace (n + k) with (m + k) by lia. by rewrite Nat.add_assoc.
  - by rewrite decide_False by lia.
Qed.

Lemma wrap64_of_queue r q : ring_refines r q -> r_dropped r = wrap64 (N.of_nat (q_lost q)).
Proof. by intros (_ & _ & ?). Qed.

Lemma refines_write r q data : ring_refines r q ->
  exists r', qwe_ring_write r data = CRet r' /\ r_cap r' = r_cap r /\
    ring_refines r' (queue_write (r_cap r) q data).
Proof.
  intros (Hwf & Hq & Hd). destruct (ring_write_ok r data Hwf) as (r' & Hw & Hwf' & Hcap & Hc & Hd').
  exists r'. split; [done |]. split; [done |]. split; [done |]. split; [by rewrite Hc, Hq |].
  rewrite Hd', Hd, wrap64_add_l. f_equal. unfold queue_write; cbn [q_lost q_held]. rewrite <- Hq. lia.
Qed.

Lemma refines_read r q n : ring_refines r q ->
  exists r', qwe_ring_read r n = CRet (r', snd (queue_read q n)) /\ r_cap r' = r_cap r /\
    ring_refines r' (fst (queue_read q n)).
Proof.
  intros (Hwf & Hq & Hd). destruct (ring_read_ok r n Hwf) as (r' & Hr & Hwf' & Hcap & Hc & Hd').
  exists r'. simpl. rewrite <- Hq. split; [done |]. split; [done |]. split; [done |]. split; [done |].
  by rewrite Hd'.
Qed.

Lemma refines_run ops r q : ring_refines r q ->
  exists r', ring_run ops r = CRet (r', snd (queue_run (r_cap r) ops q)) /\
    ring_refines r' (fst (queue_run (r_cap r) ops q)).
Proof.
  revert r q. induction ops as [|[data|n] ops IH]; intros r q Hr; simpl; [by exists r | |].
  - destruct (refines_write r q data Hr) as (r1 & -> & <- & Hr1). simpl. by apply IH.
  - destruct (refines_read r q n Hr) as (r1 & -> & <- & Hr1). simpl.
    destruct (IH r1 _ Hr1) as (r2 & -> & Hr2). simpl in *.
    destruct (queue_run _ _ _) as [q2 os]. simpl in *. by exists r2.
Qed.

Lemma init_refines buf cap : 0 < cap -> length buf = cap ->
  ring_refines (fst (qwe_ring_init (Some buf) cap)) (Queue [] 0).
Proof. intros Hc Hb. split; [| done]. constructor; simpl; [done | done | lia | lia | done]. Qed.

Lemma join_cons (o : bytes) (os : list bytes) : mjoin (o :: os) = o ++ mjoin os.
Proof. done. Qed.

(** Every byte written is read, still held, or counted as lost; what is read
    and held, with [q_lost] bytes missing, comes in the order written. *)
Lemma queue_run_conserves cap ops q q' os : queue_run cap ops q = (q', os) ->
  length (q_held q) + length (written ops) + q_lost q =
    length (mjoin os) + length (q_held q') + q_lost q' /\
  (mjoin os ++ q_held q') `sublist_of` (q_held q ++ written ops).
Proof.
  revert q q' os. induction ops as [|[data|n] ops IH]; intros q q' os H;
    cbn [queue_run written] in *.
  - injection H as <- <-. rewrite app_nil_r. simpl. split; [lia | done].
  - apply IH in H as [Hl Hs].
    unfold queue_write in *. cbn [q_held q_lost] in *. rewrite length_drop, !length_app in *.
    split; [lia |]. etrans; [done |]. rewrite app_assoc. apply sublist_app; [apply sublist_drop | done].
  - unfold queue_read in H. destruct (queue_run cap ops _) as [q1 os1] eqn:E. injection H as <- <-.
    apply IH in E as [Hl Hs]. cbn [q_held q_lost] in *. rewrite length_drop in Hl.
    rewrite join_cons, length_app, length_take. split; [lia |].
    rewrite <- app_assoc. rewrite <- (take_drop n (q_held q)) at 2.
    rewrite <- app_assoc. by apply sublist_app.
Qed.

(** ** Properties *)

(** C34. A ring is a bounded queue: over any sequence of writes and reads from
    initialisation it stays inside its buffer, every read returns the oldest
    bytes that queue holds, and the drop counter is the number of bytes the
    queue gave up, modulo 2^64. *)
Theorem ring_is_queue ops buf cap : 0 < cap -> length buf = cap ->
  let '(q, os) := queue_run cap ops (Queue [] 0) in
  exists r, ring_run ops (fst (qwe_ring_init (Some buf) cap)) = CRet (r, os) /\
    content r = q_held q /\ r_len r = length (q_held q) /\
    r_dropped r = wrap64 (N.of_nat (q_lost q)).
Proof.
  intros Hc Hb. pose proof (init_refines buf cap Hc Hb) as Hi.
  destruct (refines_run ops _ _ Hi) as (r & Hr & Hwf & Hq & Hd). simpl in Hr, Hq, Hd.
  destruct (queue_run cap ops (Queue [] 0)) as [q os]. exists r.
  split; [done |]. split; [done |]. split; [| done]. simpl in Hq. by rewrite <- Hq, content_length.
Qed.

Lemma ring_is_queue_witness :
  exists r, ring_run [Write (bytes_of "abc"); Read 1; Write (bytes_of "defg")]
    (fst (qwe_ring_init (Some (bytes_of "....")) 4)) = CRet (r, [bytes_of "a"]) /\
    content r = bytes_of "defg" /\ r_dropped r = 2%N.
Proof.
  destruct (ring_is_queue [Write (bytes_of "abc"); Read 1; Write (bytes_of "defg")] (bytes_of "....") 4)
    as (r & Hr & Hc & _ & Hd); [lia | reflexivity |]. exists r. split; [exact Hr |]. split; [exact Hc |].
  exact Hd.
Defined.

(** No byte is lost without being counted: while fewer than 2^64 bytes are
    written, the bytes written are as many as those read, held and counted as
    dropped together, and what was read followed by what is held keeps the order
    written, with only whole bytes left out. *)
Theorem ring_conserves ops buf cap r os :
  0 < cap -> length buf = cap -> (N.of_nat (length (written ops)) < w64)%N ->
  ring_run ops (fst (qwe_ring_init (Some buf) cap)) = CRet (r, os) ->
  N.of_nat (length (written ops)) = (N.of_nat (length (mjoin os) + r_len r) + r_dropped r)%N /\
  (mjoin os ++ content r) `sublist_of` written ops.
Proof.
  intros Hc Hb Hw Hrun. pose proof (init_refines buf cap Hc Hb) as Hi.
  destruct (refines_run ops _ _ Hi) as (r' & Hr & Hwf & Hq & Hd). simpl in Hr, Hq, Hd, Hrun.
  rewrite Hrun in Hr. injection Hr as <- ->.
  destruct (queue_run cap ops (Queue [] 0)) as [q os'] eqn:E.
  apply queue_run_conserves in E as [Hl Hs]. simpl in *. rewrite Hq. split; [| done].
  rewrite Hd, <- (content_length r Hwf), Hq. rewrite wrap64_small; lia.
Qed.

Lemma ring_conserves_witness :
  let ops := [Write (bytes_of "abc"); Read 1; Write (bytes_of "defg")] in
  exists r, ring_run ops (fst (qwe_ring_init (Some (bytes_of "....")) 4)) = CRet (r, [bytes_of "a"]) /\
    N.of_nat (length (written ops)) = (N.of_nat (1 + r_len r) + r_dropped r)%N.
Proof.
  eexists. split; [vm_compute; reflexivity |].
  eapply (ring_conserves [Write (bytes_of "abc"); Read 1; Write (bytes_of "defg")] (bytes_of "....") 4 _
    [bytes_of "a"]); [lia | reflexivity | vm_compute; reflexivity | vm_compute; reflexivity].
Defined.
