(* ===== verification/Redact.v ===== *)
(** * Secret redaction

    Models [src/kernel/redact.h] and [src/kernel/redact.c]: the run's set of
    secret values, and the redactor each stream goes through on its way to the
    ring.  The set is the static array [set]; it is passed explicitly.  An
    allocation that can fail takes its answer from a list [mem] (no answer left:
    it succeeds); the allocations of [qwe_redact_add] exit the process instead
    of failing, so they have no answer.

    The theorems show that a secret never reaches the output of any chunking of
    a stream, under the conditions the code needs for that, and that under the
    same conditions the output does not depend on the chunking.  The two
    examples at the end show what happens when one secret is part of another. *)

From S2P Require Import Prelude.
From Stdlib Require Import Ascii NArith ZArith Lia.
From stdpp Require Import base sets list strings numbers.

(** ** The set *)

Abbreviation secrets := (list bytes).

Definition MASK : bytes := bytes_of "***".

(** [capset] is the array's capacity; growing it cannot fail. *)
Record secret_set := SecretSet { ss_set : secrets; ss_cap : nat }.

Definition qwe_redact_add (s : secret_set) (value : bytes) : secret_set :=
  if length value =? 0 then s
  else if existsb (fun v => (length v =? length value) && bool_decide (v = value)) (ss_set s) then s
  else
    let cap := if length (ss_set s) =? ss_cap s
               then (if ss_cap s =? 0 then 16 else ss_cap s * 2) else ss_cap s in
    SecretSet (ss_set s ++ [value]) cap.

(** [nset = 0]; the array itself and its capacity stay. *)
Definition qwe_redact_clear (s : secret_set) : secret_set := SecretSet [] (ss_cap s).

(** ** Buffers *)

(** The answer of the next allocation. *)
Definition alloc (mem : list bool) : bool * list bool :=
  match mem with
  | [] => (true, [])
  | b :: mem => (b, mem)
  end.

Record qwe_redact_buf := Buf { b_data : bytes; b_cap : nat }.

Definition qwe_redact_buf_free (b : qwe_redact_buf) : qwe_redact_buf := Buf [] 0.

(** [while (cap < want) cap *= 2]. *)
Fixpoint grow (fuel cap want : nat) : cres nat :=
  if cap <? want
  then match fuel with
       | 0 => CFuel
       | S fuel => grow fuel (cap * 2) want
       end
  else CRet cap.

Definition first_cap (cap : nat) : nat := if cap =? 0 then 4096 else cap.

Definition buf_add (mem : list bool) (b : qwe_redact_buf) (src : bytes) :
    cres (list bool * qwe_redact_buf * bool) :=
  let want := length (b_data b) + length src in
  if b_cap b <? want
  then
    cap ← grow want (first_cap (b_cap b)) want;
    let '(ok, mem) := alloc mem in
    if (ok : bool) then mret (mem, Buf (b_data b ++ src) cap, true) else mret (mem, b, false)
  else mret (mem, Buf (b_data b ++ src) (b_cap b), true).

(** ** The redactor *)

Record qwe_redactor := Redactor { rd_held : bytes; rd_cap : nat }.

Definition redactor0 : qwe_redactor := Redactor [] 0.

Definition qwe_redactor_free (r : qwe_redactor) : qwe_redactor := redactor0.

(** [memcmp(p, v, len v) == 0], [p] having at least that many bytes. *)
Definition starts_with (v p : bytes) : bool := bool_decide (take (length v) p = v).

(** The length of the longest secret that starts exactly at [p], or 0. *)
Fixpoint match_from (set : secrets) (best : nat) (p : bytes) : nat :=
  match set with
  | [] => best
  | v :: set =>
      if (length v <=? length p) && (best <? length v) && starts_with v p
      then match_from set (length v) p
      else match_from set best p
  end.

Definition match_at (set : secrets) (p : bytes) : nat := match_from set 0 p.

(** Whether [p] is a proper prefix of some secret. *)
Definition could_start (set : secrets) (p : bytes) : bool :=
  existsb (fun v => (length p <? length v) && bool_decide (take (length p) v = p)) set.

(** The scan, over the bytes not yet consumed. *)
Fixpoint scan (set : secrets) (fuel : nat) (mem : list bool) (r : qwe_redactor) (p : bytes)
    (out : qwe_redact_buf) : cres (list bool * qwe_redactor * qwe_redact_buf * bool) :=
  match p with
  | [] => CRet (mem, r, out, true)
  | c :: p' =>
      match fuel with
      | 0 => CFuel
      | S fuel =>
          let m := match_at set p in
          if negb (m =? 0)
          then
            '(mem, out, ok) ← buf_add mem out MASK;
            if (ok : bool) then scan set fuel mem r (drop m p) out else mret (mem, r, out, false)
          else if could_start set p
          then
            if rd_cap r <? length p
            then
              let '(ok, mem) := alloc mem in
              if (ok : bool) then mret (mem, Redactor p (length p), out, true)
              else mret (mem, r, out, false)
            else mret (mem, Redactor p (rd_cap r), out, true)
          else
            '(mem, out, ok) ← buf_add mem out [c];
            if (ok : bool) then scan set fuel mem r p' out else mret (mem, r, out, false)
      end
  end.

(** Returns whether the C result is 0 (otherwise it is -1). *)
Definition qwe_redact_feed (set : secrets) (mem : list bool) (r : qwe_redactor) (data : bytes)
    (out : qwe_redact_buf) : cres (list bool * qwe_redactor * qwe_redact_buf * bool) :=
  if (length set =? 0) && (length (rd_held r) =? 0)
  then
    '(mem, out, ok) ← buf_add mem out data;
    mret (mem, r, out, ok)
  else
    let '(ok, mem) := alloc mem in
    if negb ok then mret (mem, r, out, false)
    else
      let buf := rd_held r ++ data in
      scan set (length buf) mem (Redactor [] (rd_cap r)) buf out.

Definition qwe_redact_flush (mem : list bool) (r : qwe_redactor) (out : qwe_redact_buf) :
    cres (list bool * qwe_redactor * qwe_redact_buf * bool) :=
  if length (rd_held r) =? 0 then mret (mem, Redactor [] (rd_cap r), out, true)
  else
    '(mem, out, ok) ← buf_add mem out (rd_held r);
    mret (mem, Redactor [] (rd_cap r), out, ok).

(** ** What redaction promises *)

(** A stream: each read, with the set as it was then. *)
Fixpoint feed_all (chunks : list (secrets * bytes)) (mem : list bool) (r : qwe_redactor)
    (out : qwe_redact_buf) : cres (list bool * qwe_redactor * qwe_redact_buf * bool) :=
  match chunks with
  | [] => CRet (mem, r, out, true)
  | (set, data) :: chunks =>
      '(mem, r, out, ok) ← qwe_redact_feed set mem r data out;
      if (ok : bool) then feed_all chunks mem r out else mret (mem, r, out, false)
  end.

Definition redact_stream (chunks : list (secrets * bytes)) (mem : list bool) : cres (bytes * bool) :=
  '(mem, r, out, ok) ← feed_all chunks mem redactor0 (Buf [] 0);
  if (ok : bool)
  then '(_, _, out, ok) ← qwe_redact_flush mem r out; mret (b_data out, ok)
  else mret (b_data out, false).

Definition occurs (t l : bytes) : Prop := exists a b, l = a ++ t ++ b.

Definition STAR : ascii := "*"%char.

(** No secret of the set is part of another. *)
Definition factor_free (set : secrets) : Prop :=
  forall s t, s ∈ set -> t ∈ set -> occurs t s -> t = s.

(** The reference: the whole input at once, replacing the longest secret at the
    leftmost position. *)
Fixpoint redact_ref (set : secrets) (fuel : nat) (p : bytes) : bytes :=
  match fuel, p with
  | S fuel, c :: p' =>
      let m := match_at set p in
      if negb (m =? 0) then MASK ++ redact_ref set fuel (drop m p) else c :: redact_ref set fuel p'
  | _, _ => []
  end.

Definition redacted (set : secrets) (p : bytes) : bytes := redact_ref set (length p) p.

(** ** Lemmas *)

Lemma take_prefix (v p : bytes) : take (length v) p = v <-> v `prefix_of` p.
Proof.
  split.
  - intros E. exists (drop (length v) p). by rewrite <- E at 1; rewrite take_drop.
  - intros [k ->]. apply take_app_length.
Qed.

Lemma match_from_spec set best p :
  best <= match_from set best p /\
  (match_from set best p <> best -> exists v, v ∈ set /\ v `prefix_of` p /\ length v = match_from set best p) /\
  (forall v, v ∈ set -> v `prefix_of` p -> length v <= match_from set best p).
Proof.
  revert best. induction set as [|v set IH]; intros best; simpl; [by split_and!; [lia | | set_solver] |].
  destruct ((length v <=? length p) && (best <? length v) && starts_with v p) eqn:E.
  - apply andb_true_iff in E as [[H1 H2]%andb_true_iff H3].
    apply Nat.leb_le in H1. apply Nat.ltb_lt in H2. apply bool_decide_eq_true_1, take_prefix in H3.
    destruct (IH (length v)) as (Hle & Hex & Hmax). split_and!; [lia | |].
    + intros _. destruct (decide (match_from set (length v) p = length v)) as [->|Hne].
      * exists v. split; [set_solver | done].
      * destruct (Hex Hne) as (w & ? & ?). exists w. split; [set_solver | done].
    + intros w [->|Hw]%elem_of_cons Hp; [done | by apply Hmax].
  - destruct (IH best) as (Hle & Hex & Hmax). split_and!; [lia | |].
    + intros Hne. destruct (Hex Hne) as (w & ? & ?). exists w. split; [set_solver | done].
    + intros w [->|Hw]%elem_of_cons Hp; [| by apply Hmax].
      apply andb_false_iff in E as [[E|E]%andb_false_iff|E].
      * apply Nat.leb_gt in E. apply prefix_length in Hp. lia.
      * apply Nat.ltb_ge in E. lia.
      * by apply bool_decide_eq_false_1 in E; rewrite take_prefix in E.
Qed.

Lemma match_at_0 set p t : match_at set p = 0 -> t ∈ set -> t <> [] -> ~ t `prefix_of` p.
Proof.
  intros E Ht Hne Hp. destruct (match_from_spec set 0 p) as (_ & _ & Hmax).
  specialize (Hmax t Ht Hp). unfold match_at in E. destruct t; simpl in *; [done | lia].
Qed.

Lemma match_at_S set p : match_at set p <> 0 ->
  exists v, v ∈ set /\ v `prefix_of` p /\ length v = match_at set p.
Proof. apply (match_from_spec set 0 p). Qed.

Lemma match_at_le set p : match_at set p <= length p.
Proof.
  destruct (decide (match_at set p = 0)) as [->|H]; [lia |].
  destruct (match_at_S set p H) as (v & _ & Hp & <-). by apply prefix_length.
Qed.

Lemma could_start_false set p t : could_start set p = false -> t ∈ set -> p `prefix_of` t -> t = p.
Proof.
  intros E Ht [k ->]. destruct k as [|c k]; [apply app_nil_r |].
  assert (could_start set p = true); [| congruence]. unfold could_start. apply existsb_exists.
  exists (p ++ c :: k). split; [by apply list_elem_of_In |]. apply andb_true_iff. split.
  - apply Nat.ltb_lt. rewrite length_app. simpl. lia.
  - apply bool_decide_eq_true_2, take_app_length.
Qed.

Lemma could_start_true set p : could_start set p = true ->
  exists t c k, t ∈ set /\ t = p ++ c :: k.
Proof.
  intros (t & Ht & [H1 H2]%andb_true_iff)%existsb_exists. apply list_elem_of_In in Ht.
  apply Nat.ltb_lt in H1. apply bool_decide_eq_true_1, take_prefix in H2 as [k ->].
  rewrite length_app in H1. destruct k as [|c k]; [simpl in H1; lia |]. by exists (p ++ c :: k), c, k.
Qed.

(** A byte that is passed on starts no secret, whatever comes later. *)
Lemma literal_ok set p t f : match_at set p = 0 -> could_start set p = false -> t ∈ set -> t <> [] ->
  ~ t `prefix_of` (p ++ f).
Proof.
  intros Hm Hc Ht Hne Hp.
  destruct (decide (length t <= length p)) as [Hl|Hl].
  - eapply match_at_0; [done | done | done |].
    destruct (prefix_weak_total t p (p ++ f)) as [H|H]; [done | by apply prefix_app_r | done |].
    by apply prefix_length_eq in H as ->.
  - assert (H : p `prefix_of` t).
    { destruct (prefix_weak_total p t (p ++ f)) as [H|H]; [by apply prefix_app_r | done | done |].
      apply prefix_length in H. lia. }
    apply (could_start_false set) in H; [| done | done]. subst. lia.
Qed.

(** *** Buffers *)

Lemma grow_ok fuel cap want : 0 < cap -> want <= cap * 2 ^ fuel -> exists cap', grow fuel cap want = CRet cap' /\ want <= cap'.
Proof.
  revert cap. induction fuel as [|fuel IH]; intros cap Hc Hw; simpl in *;
    destruct (Nat.ltb_spec cap want); try lia; [by exists cap | | by exists cap].
  apply IH; lia.
Qed.

Lemma grow_enough cap want : exists cap', grow want (first_cap cap) want = CRet cap' /\ want <= cap'.
Proof.
  assert (H : 0 < first_cap cap).
  { unfold first_cap. destruct (Nat.eqb_spec cap 0); [| lia]. apply Nat.ltb_lt. reflexivity. }
  apply grow_ok; [done |]. pose proof (Nat.pow_gt_lin_r 2 want). nia.
Qed.

Lemma buf_add_ok b src : exists cap, buf_add [] b src = CRet ([], Buf (b_data b ++ src) cap, true).
Proof.
  unfold buf_add. destruct (_ <? _); [| by eexists].
  destruct (grow_enough (b_cap b) (length (b_data b) + length src)) as (cap & -> & _). by exists cap.
Qed.

(** *** What a scan did, as a list of decisions *)

Inductive token := Lit (c : ascii) | Masked (v : bytes).

Fixpoint render (toks : list token) : bytes :=
  match toks with
  | [] => []
  | Lit c :: toks => c :: render toks
  | Masked _ :: toks => MASK ++ render toks
  end.

Fixpoint source (toks : list token) : bytes :=
  match toks with
  | [] => []
  | Lit c :: toks => c :: source toks
  | Masked v :: toks => v ++ source toks
  end.

Lemma render_app A B : render (A ++ B) = render A ++ render B.
Proof. induction A as [|[c|v] A IH]; simpl; [done | by rewrite IH | by rewrite IH]. Qed.

Lemma source_app A B : source (A ++ B) = source A ++ source B.
Proof. induction A as [|[c|v] A IH]; simpl; [done | by rewrite IH |]. by rewrite IH, app_assoc. Qed.

(** Each decision as the code took it, [held] being left over. *)
Fixpoint decided (set : secrets) (toks : list token) (held : bytes) : Prop :=
  match toks with
  | [] => held = [] \/ (match_at set held = 0 /\ could_start set held = true)
  | Lit c :: toks =>
      match_at set (c :: source toks ++ held) = 0 /\ could_start set (c :: source toks ++ held) = false /\
      decided set toks held
  | Masked v :: toks =>
      v <> [] /\ match_at set (v ++ source toks ++ held) = length v /\ decided set toks held
  end.

Lemma decided_tail set toks held : decided set toks held ->
  held = [] \/ (match_at set held = 0 /\ could_start set held = true).
Proof. induction toks as [|[c|v] toks IH]; simpl; tauto. Qed.

Definition fed (set : secrets) (p : bytes) (out : qwe_redact_buf)
    (res : cres (list bool * qwe_redactor * qwe_redact_buf * bool)) : Prop :=
  exists toks held rcap cap,
    res = CRet ([], Redactor held rcap, Buf (b_data out ++ render toks) cap, true) /\
    p = source toks ++ held /\ decided set toks held.

Lemma fed_token set p rest tok out cap res :
  fed set rest (Buf (b_data out ++ render [tok]) cap) res ->
  p = source [tok] ++ rest ->
  (forall toks held, rest = source toks ++ held -> decided set toks held -> decided set (tok :: toks) held) ->
  fed set p out res.
Proof.
  intros (toks & held & rcap & cap' & -> & Hp & Hd) -> Hstep.
  exists (tok :: toks), held, rcap, cap'. cbn [b_data] in *. split_and!; [| | by apply Hstep].
  - by rewrite <- app_assoc, <- (render_app [tok]).
  - change (source (tok :: toks)) with (source ([tok] ++ toks)). rewrite source_app, Hp. by rewrite <- app_assoc.
Qed.

Lemma scan_fed set fuel r p out : rd_held r = [] -> length p <= fuel ->
  fed set p out (scan set fuel [] r p out).
Proof.
  intros Hr. revert p out. induction fuel as [|fuel IH]; intros p out Hf.
  { destruct p; [| simpl in Hf; lia]. destruct r as [held rcap]. simpl in *. subst held.
    exists [], [], rcap, (b_cap out). destruct out. simpl. rewrite app_nil_r. split; [done |]. split; [done |]. by left. }
  destruct p as [|c p].
  { destruct r as [held rcap]. simpl in *. subst held.
    exists [], [], rcap, (b_cap out). destruct out. simpl. rewrite app_nil_r. split; [done |]. split; [done |]. by left. }
  cbn [scan]. destruct (Nat.eqb_spec (match_at set (c :: p)) 0) as [Hm|Hm]; cbn [negb].
  - destruct (could_start set (c :: p)) eqn:Hc.
    + exists [], (c :: p). destruct out as [d cap]. destruct (rd_cap r <? _); do 2 eexists; cbn [alloc];
        (split; [cbn [render b_data]; rewrite app_nil_r; reflexivity |]); (split; [done |]); by right.
    + destruct (buf_add_ok out [c]) as (cap & ->). cbn [mbind cres_bind cbind].
      eapply (fed_token set _ p (Lit c)); [apply IH; simpl in Hf; lia | done |].
      intros toks held -> Hd. simpl. done.
  - destruct (buf_add_ok out MASK) as (cap & ->). cbn [mbind cres_bind cbind].
    destruct (match_at_S set (c :: p) Hm) as (v & Hv & [k Hp] & Hl). rewrite Hp in Hm, Hl, Hf |- *. rewrite <- Hl.
    rewrite drop_app_length. eapply (fed_token set _ k (Masked v)).
    + apply IH. rewrite length_app in Hf. lia.
    + simpl. by rewrite app_nil_r.
    + intros toks held -> Hd. simpl. split; [intros ->; simpl in *; lia | done].
Qed.

Lemma feed_fed set r data out :
  fed set (rd_held r ++ data) out (qwe_redact_feed set [] r data out).
Proof.
  unfold qwe_redact_feed. destruct (Nat.eqb_spec (length set) 0) as [Hs|_]; simpl; [| by apply scan_fed].
  destruct (Nat.eqb_spec (length (rd_held r)) 0) as [Hh|_]; simpl; [| by apply scan_fed].
  apply nil_length_inv in Hs, Hh. subst set. destruct r as [held rcap]. simpl in *. subst held.
  destruct (buf_add_ok out data) as (cap & ->). simpl.
  assert (Hl : forall data, render (Lit <$> data) = data /\ source (Lit <$> data) = data /\ decided [] (Lit <$> data) []).
  { clear. induction data as [|c data (IH1 & IH2 & IH3)]; [simpl; tauto |].
    rewrite fmap_cons. cbn [render source decided]. rewrite IH1, IH2. simpl. tauto. }
  destruct (Hl data) as (H1 & H2 & H3). exists (Lit <$> data), [], rcap, cap.
  rewrite H1, H2, app_nil_r. done.
Qed.

(** *** Safety *)

Lemma occurs_nil t : t <> [] -> ~ occurs t [].
Proof. intros Hne (a & b & E). destruct a; [by destruct t | done]. Qed.

Section safety.
Context (t : bytes).
Hypothesis t_nonempty : t <> [].
Hypothesis t_nostar : STAR ∉ t.

(** The secret starts at no byte passed on, whatever comes later. *)
Fixpoint clean (toks : list token) (tail : bytes) : Prop :=
  match toks with
  | [] => True
  | Lit c :: toks => (forall f, ~ t `prefix_of` (c :: source toks ++ tail ++ f)) /\ clean toks tail
  | Masked _ :: toks => clean toks tail
  end.

Lemma decided_clean set toks held : t ∈ set -> decided set toks held -> clean toks held.
Proof.
  intros Ht. induction toks as [|[c|v] toks IH]; simpl; [done | | tauto].
  intros (Hm & Hc & Hd). split; [| by apply IH]. intros f Hp.
  eapply (literal_ok set (c :: source toks ++ held) t f); [done | done | done | done |].
  simpl. by rewrite <- app_assoc.
Qed.

Lemma clean_app A B tail data tail' :
  clean A tail -> tail ++ data = source B ++ tail' -> clean B tail' -> clean (A ++ B) tail'.
Proof.
  intros HA E HB. induction A as [|[c|v] A IH]; simpl in *; [done | | by apply IH].
  destruct HA as [Hc HA]. split; [| by apply IH]. intros f Hp. apply (Hc (data ++ f)).
  rewrite source_app in Hp. rewrite !app_assoc in *. rewrite <- (app_assoc _ tail data), E. by rewrite app_assoc.
Qed.

Lemma prefix_star u : t `prefix_of` (STAR :: u) -> False.
Proof. destruct t as [|c t']; [done |]. intros [k E]. simplify_eq/=. set_solver. Qed.

(** A secret at the start of the output is at the start of the input. *)
Lemma prefix_render s toks h : STAR ∉ s -> s `prefix_of` (render toks ++ h) -> s `prefix_of` (source toks ++ h).
Proof.
  revert s. induction toks as [|[c|v] toks IH]; intros s Hs Hp; simpl in *; [done | |].
  - destruct s as [|a s]; [apply prefix_nil |]. apply prefix_cons_inv_1 in Hp as Hc. subst a.
    apply prefix_cons_inv_2 in Hp. apply prefix_cons, IH; [set_solver | done].
  - destruct s as [|a s]; [apply prefix_nil |]. apply prefix_cons_inv_1 in Hp. set_solver.
Qed.

Lemma occurs_cons s c l : occurs s (c :: l) -> s `prefix_of` (c :: l) \/ occurs s l.
Proof.
  intros ([|x a] & b & E); [left; by exists b | right]. simpl in E. injection E as <- ->. by exists a, b.
Qed.

Lemma clean_safe toks h k : clean toks (h ++ k) -> ~ occurs t h -> ~ occurs t (render toks ++ h).
Proof.
  intros Hc Hh. induction toks as [|[c|v] toks IH]; simpl in *; [done | |].
  - destruct Hc as [Hc Hcl]. intros [Hp|Ho]%occurs_cons; [| by apply IH].
    apply (prefix_render t (Lit c :: toks)) in Hp; [| done]. apply (Hc []).
    rewrite app_nil_r, app_assoc. by apply (prefix_app_r _ (c :: source toks ++ h)).
  - intros Ho. do 3 (apply occurs_cons in Ho as [Hp|Ho]; [by eapply prefix_star |]). by apply IH.
Qed.

Lemma occurs_app_l s a b : occurs s a -> occurs s (a ++ b).
Proof. intros (x & y & ->). exists x, (y ++ b). by rewrite <- !app_assoc. Qed.

Lemma feed_all_clean chunks r out :
  Forall (fun c => t ∈ fst c) chunks ->
  exists toks held rcap cap,
    feed_all chunks [] r out = CRet ([], Redactor held rcap, Buf (b_data out ++ render toks) cap, true) /\
    rd_held r ++ mjoin (snd <$> chunks) = source toks ++ held /\ clean toks held /\
    (held = rd_held r \/ held = [] \/ exists c s, c ∈ chunks /\ s ∈ fst c /\ held `prefix_of` s /\ held <> s).
Proof.
  intros Ht. revert r out. induction Ht as [|[set data] chunks Hin Ht IH]; intros r out.
  { destruct r as [held rcap], out as [d cap]. exists [], held, rcap, cap. simpl. rewrite !app_nil_r. tauto. }
  cbn [feed_all]. destruct (feed_fed set r data out) as (A & h & rcap & cap & -> & Hp & Hd).
  cbn [mbind cres_bind cbind].
  destruct (IH (Redactor h rcap) (Buf (b_data out ++ render A) cap)) as (B & held & rcap' & cap' & -> & Hsrc & Hcl & Hh).
  exists (A ++ B), held, rcap', cap'. simpl in Hsrc. split_and!.
  - simpl. by rewrite render_app, app_assoc.
  - change (mjoin (snd <$> (set, data) :: chunks)) with (data ++ mjoin (snd <$> chunks)).
    rewrite app_assoc, Hp, source_app, <- !app_assoc, Hsrc. done.
  - eapply clean_app; [by eapply decided_clean | done | done].
  - simpl in Hh. right. destruct Hh as [->|[->|(c & s & Hc & Hs)]]; [| by left |].
    + apply decided_tail in Hd as [->|[_ (s & x & k & Hs & ->)%could_start_true]]; [by left | right].
      exists (set, data), (h ++ x :: k). split_and!; [set_solver | done | by exists (x :: k) |].
      intros E. apply (f_equal length) in E. rewrite length_app in E. simpl in E. lia.
    + right. exists c, s. split; [set_solver | done].
Qed.

End safety.

(** *** The reference *)

Section reference.
Context (set : secrets).
Hypothesis set_nonempty : forall t, t ∈ set -> t <> [].

Lemma redact_ref_fuel n m p : length p <= n -> length p <= m -> redact_ref set n p = redact_ref set m p.
Proof.
  revert m p. induction n as [|n IH]; intros m p Hn Hm.
  { destruct p; [by destruct m | simpl in Hn; lia]. }
  destruct p as [|c p]; [by destruct m |]. destruct m as [|m]; [simpl in Hm; lia |].
  cbn [redact_ref]. destruct (Nat.eqb_spec (match_at set (c :: p)) 0) as [E|E]; cbn [negb].
  - f_equal. simpl in *. apply IH; lia.
  - f_equal. apply IH; rewrite length_drop; lia.
Qed.

Lemma redacted_lit c p : match_at set (c :: p) = 0 -> redacted set (c :: p) = c :: redacted set p.
Proof. intros E. unfold redacted. cbn [length redact_ref]. by rewrite E. Qed.

Lemma redacted_mask v p : v <> [] -> match_at set (v ++ p) = length v ->
  redacted set (v ++ p) = MASK ++ redacted set p.
Proof.
  intros Hv E. unfold redacted. destruct (v ++ p) as [|c q] eqn:Hq; [by apply app_nil in Hq as [-> _] |].
  cbn [length redact_ref]. rewrite E. destruct (Nat.eqb_spec (length v) 0) as [H|H].
  { by apply nil_length_inv in H. }
  cbn [negb]. f_equal. rewrite <- Hq, drop_app_length. apply redact_ref_fuel; [| done].
  apply (f_equal length) in Hq. rewrite length_app in Hq. simpl in Hq. lia.
Qed.

Lemma match_at_none p : (forall t, t ∈ set -> ~ t `prefix_of` p) -> match_at set p = 0.
Proof.
  intros Hn. destruct (decide (match_at set p = 0)) as [|H]; [done |].
  destruct (match_at_S set p H) as (v & Hv & Hp & _). by destruct (Hn v).
Qed.

Lemma redacted_none p : (forall t, t ∈ set -> ~ occurs t p) -> redacted set p = p.
Proof.
  induction p as [|c p IH]; intros Hn; [done |]. rewrite redacted_lit.
  - f_equal. apply IH. intros t Ht (a & b & ->). apply (Hn t Ht). by exists (c :: a), b.
  - apply match_at_none. intros t Ht [k Hk]. apply (Hn t Ht). by exists [], k.
Qed.

Hypothesis set_free : factor_free set.

(** A match stays the longest one when more bytes arrive. *)
Lemma match_stable v p f : v <> [] -> match_at set (v ++ p) = length v ->
  match_at set (v ++ p ++ f) = length v.
Proof.
  intros Hv Hm. assert (H0 : length v <> 0) by (by destruct v).
  assert (Hin : v ∈ set).
  { destruct (match_at_S set (v ++ p)) as (u & Hu & Hp & Hl); [congruence |].
    rewrite Hm in Hl. assert (u = v) as ->; [| done].
    destruct (prefix_weak_total u v (v ++ p)) as [H|H]; [done | by apply prefix_app_r | |];
      apply prefix_length_eq in H; [done | lia | done | lia]. }
  destruct (match_from_spec set 0 (v ++ p ++ f)) as (_ & Hex & Hmax).
  assert (Hle : length v <= match_at set (v ++ p ++ f)) by (apply Hmax; [done | by apply prefix_app_r]).
  destruct Hex as (w & Hw & Hp & Hl); [unfold match_at in Hle; lia |].
  unfold match_at. rewrite <- Hl. f_equal. unfold match_at in Hle. rewrite <- Hl in Hle.
  destruct (prefix_weak_total w v (v ++ p ++ f)) as [H|[k ->]]; [done | by apply prefix_app_r | |].
  - by apply prefix_length_eq in H.
  - symmetry. apply set_free; [done | done |]. by exists [], k.
Qed.

Lemma decided_ref toks held f : decided set toks held ->
  redacted set (source toks ++ held ++ f) = render toks ++ redacted set (held ++ f).
Proof.
  induction toks as [|[c|v] toks IH]; simpl; [done | |].
  - intros (Hm & Hc & Hd). rewrite redacted_lit; [by rewrite IH |].
    apply match_at_none. intros t Ht Hp.
    eapply (literal_ok set (c :: source toks ++ held) t f); [done | done | done | by apply set_nonempty |].
    simpl. by rewrite <- app_assoc.
  - intros (Hv & Hm & Hd). rewrite <- app_assoc, redacted_mask; [by rewrite IH | done |].
    rewrite (app_assoc (source toks)). by apply match_stable.
Qed.

Lemma proper_prefix_clean h x k t : h ++ x :: k ∈ set -> t ∈ set -> ~ occurs t h.
Proof.
  intros Hs Ht Ho. pose proof (set_free _ _ Hs Ht (occurs_app_l _ _ _ Ho)) as E. subst t.
  destruct Ho as (a & b & E). apply (f_equal length) in E. rewrite !length_app in E. simpl in E. lia.
Qed.

Lemma feed_all_ref chunks r out :
  (rd_held r = [] \/ exists x k, rd_held r ++ x :: k ∈ set) ->
  exists held rcap cap d,
    feed_all ((fun data => (set, data)) <$> chunks) [] r out = CRet ([], Redactor held rcap, Buf (b_data out ++ d) cap, true) /\
    redacted set (rd_held r ++ mjoin chunks) = d ++ redacted set held /\
    (held = [] \/ exists x k, held ++ x :: k ∈ set).
Proof.
  revert r out. induction chunks as [|data chunks IH]; intros r out Hr.
  { destruct r as [held rcap], out as [d cap]. exists held, rcap, cap, []. simpl. rewrite !app_nil_r. done. }
  rewrite fmap_cons. cbn [feed_all]. destruct (feed_fed set r data out) as (A & h & rcap & cap & -> & Hp & Hd).
  cbn [mbind cres_bind cbind].
  destruct (IH (Redactor h rcap) (Buf (b_data out ++ render A) cap)) as (held & rcap' & cap' & d & -> & Href & Hh).
  { simpl. apply decided_tail in Hd as [->|[_ (s & x & k & Hs & ->)%could_start_true]]; [by left | right; eauto]. }
  exists held, rcap', cap', (render A ++ d). split_and!; [| | done].
  - simpl. by rewrite app_assoc.
  - change (mjoin (data :: chunks)) with (data ++ mjoin chunks).
    rewrite app_assoc, Hp, <- app_assoc, decided_ref by done. simpl in Href. rewrite Href. by rewrite app_assoc.
Qed.

End reference.

Lemma flush_ok r out : exists cap, qwe_redact_flush [] r out =
  CRet ([], Redactor [] (rd_cap r), Buf (b_data out ++ rd_held r) cap, true).
Proof.
  unfold qwe_redact_flush. destruct (Nat.eqb_spec (length (rd_held r)) 0) as [H|_].
  - apply nil_length_inv in H. rewrite H, app_nil_r. destruct out as [d cap]. by exists cap.
  - destruct (buf_add_ok out (rd_held r)) as (cap & ->). by exists cap.
Qed.

(** ** Properties *)

(** The whole output of a stream, for a secret that is not strictly inside another. *)
Lemma stream_safe t chunks : t <> [] -> STAR ∉ t -> Forall (fun c => t ∈ fst c) chunks ->
  (forall c s, c ∈ chunks -> s ∈ fst c -> occurs t s -> s = t) ->
  exists out, redact_stream chunks [] = CRet (out, true) /\ ~ occurs t out.
Proof.
  intros Hne Hst Ht Hfree.
  destruct (feed_all_clean t Hne Hst chunks redactor0 (Buf [] 0) Ht) as (toks & held & rcap & cap & Hf & _ & Hcl & Hh).
  cbn [rd_held redactor0 b_data app] in *. unfold redact_stream. rewrite Hf. cbn [mbind cres_bind cbind].
  destruct (flush_ok (Redactor held rcap) (Buf (render toks) cap)) as (cap' & ->).
  cbn [mbind cres_bind cbind rd_held b_data]. eexists. split; [done |].
  apply (clean_safe t Hne Hst toks held []); [by rewrite app_nil_r |].
  destruct Hh as [->|[->|(c & s & Hc & Hs & [k ->] & Hn)]]; [by apply occurs_nil | by apply occurs_nil |].
  intros Ho. pose proof (Hfree c _ Hc Hs (occurs_app_l _ _ k Ho)) as E.
  destruct Ho as (a & b & Eh). apply Hn. apply (f_equal length) in E as El.
  rewrite Eh in El |- *. rewrite !length_app in El. assert (k = []) as -> by (destruct k; [done | simpl in El; lia]).
  by rewrite app_nil_r.
Qed.

(** C8. A secret known throughout a stream never gets through.  However the
    stream is cut into reads and however the set grows in between, with the
    memory it asks for the redactor's output before the end of the stream does
    not contain the secret; nor does the whole output, if the secret is not
    strictly inside another one (else it may: [redact_flush_leaks_secret]).  The
    secret has no byte of the mask. *)
Theorem redact_safe t chunks :
  t <> [] -> STAR ∉ t -> Forall (fun c => t ∈ fst c) chunks ->
  (exists r out, feed_all chunks [] redactor0 (Buf [] 0) = CRet ([], r, out, true) /\ ~ occurs t (b_data out)) /\
  ((forall c s, c ∈ chunks -> s ∈ fst c -> occurs t s -> s = t) ->
   exists out, redact_stream chunks [] = CRet (out, true) /\ ~ occurs t out).
Proof.
  intros Hne Hst Ht. split; [| by apply stream_safe].
  destruct (feed_all_clean t Hne Hst chunks redactor0 (Buf [] 0) Ht) as (toks & held & rcap & cap & Hf & _ & Hcl & _).
  cbn [rd_held redactor0 b_data app] in *. do 2 eexists. split; [done |]. cbn [b_data]. rewrite <- (app_nil_r (render toks)).
  apply (clean_safe t Hne Hst toks [] held); [done | by apply occurs_nil].
Qed.

(** Two reads of a stream, the second after another secret became known. *)
Definition example_stream : list (secrets * bytes) :=
  [([bytes_of "hunter2"], bytes_of "pw=hun");
   ([bytes_of "hunter2"; bytes_of "swordfish"], bytes_of "ter2 ok swordfish hunt")].

Lemma redact_safe_witness :
  redact_stream example_stream [] = CRet (bytes_of "pw=*** ok *** hunt", true) /\
  exists out, redact_stream example_stream [] = CRet (out, true) /\ ~ occurs (bytes_of "hunter2") out.
Proof.
  split; [vm_compute; reflexivity |].
  apply (redact_safe (bytes_of "hunter2") example_stream).
  - discriminate.
  - vm_compute. intros H. repeat (apply elem_of_cons in H as [H|H]; [discriminate |]). by apply elem_of_nil in H.
  - repeat constructor.
  - intros c s Hc Hs (a & b & E).
    assert (Hcs : s = bytes_of "hunter2" \/ s = bytes_of "swordfish").
    { unfold example_stream in Hc. set_unfold in Hc. destruct Hc as [->|[->|[]]]; set_solver. }
    destruct Hcs as [->| ->]; [done |]. exfalso.
    assert (Hin : "r"%char ∈ bytes_of "swordfish") by (vm_compute; set_solver).
    assert (Hu : "u"%char ∈ bytes_of "swordfish") by (rewrite E; vm_compute; set_solver).
    vm_compute in Hu. set_unfold in Hu. naive_solver.
Defined.

(** C32. When no secret is part of another, redaction does not depend on how the
    stream was cut: any sequence of reads gives the text in which, scanning from
    the left, every secret is replaced by the mask. *)
Theorem redact_chunk_independent set chunks :
  factor_free set -> (forall t, t ∈ set -> t <> []) ->
  redact_stream ((fun data => (set, data)) <$> chunks) [] = CRet (redacted set (mjoin chunks), true).
Proof.
  intros Hfree Hne. unfold redact_stream.
  destruct (feed_all_ref set Hne Hfree chunks redactor0 (Buf [] 0)) as (held & rcap & cap & d & -> & Href & Hh); [by left |].
  cbn [mbind cres_bind cbind b_data app]. destruct (flush_ok (Redactor held rcap) (Buf d cap)) as (cap' & ->).
  cbn [mbind cres_bind cbind rd_held b_data app] in *. change (rd_held redactor0 ++ mjoin chunks) with (mjoin chunks) in Href.
  rewrite Href, (redacted_none set held); [done |].
  intros t Ht. destruct Hh as [->|(x & k & Hs)]; [apply occurs_nil; by apply Hne |].
  by eapply proper_prefix_clean.
Qed.

Lemma redact_chunk_independent_witness :
  redact_stream ((fun data => ([bytes_of "key"], data)) <$> [bytes_of "a k"; bytes_of "e"; bytes_of "y ke"]) [] =
  CRet (bytes_of "a *** ke", true).
Proof.
  rewrite (redact_chunk_independent [bytes_of "key"]).
  - vm_compute. reflexivity.
  - intros s t Hs Ht _. set_solver.
  - intros t ->%list_elem_of_singleton. discriminate.
Defined.

(** Two secrets, one a prefix of the other: when a read ends between them, the
    shorter is masked and the rest of the longer goes through. *)
Lemma redact_prefix_leaks_tail :
  let set := [bytes_of "ab"; bytes_of "abc"] in
  redact_stream [(set, bytes_of "ab"); (set, bytes_of "c")] [] = CRet (bytes_of "***c", true) /\
  redact_stream [(set, bytes_of "abc")] [] = CRet (bytes_of "***", true).
Proof. split; vm_compute; reflexivity. Qed.

(** A secret inside another one: what is held at the end of the stream may
    contain it, and is passed on as it is. *)
Lemma redact_flush_leaks_secret :
  let set := [bytes_of "abcd"; bytes_of "bc"] in
  redact_stream [(set, bytes_of "abc")] [] = CRet (bytes_of "abc", true) /\ occurs (bytes_of "bc") (bytes_of "abc").
Proof. split; [vm_compute; reflexivity |]. by exists (bytes_of "a"), []. Qed.

Lemma redact_add_elem s v t : t ∈ ss_set (qwe_redact_add s v) <-> t ∈ ss_set s \/ (t = v /\ v <> []).
Proof.
  unfold qwe_redact_add. destruct (Nat.eqb_spec (length v) 0) as [H|H].
  { apply nil_length_inv in H as ->. naive_solver. }
  assert (Hv : v <> []) by (by intros ->). destruct (existsb _ _) eqn:E.
  - apply existsb_exists in E as (w & Hw & [_ E]%andb_true_iff). apply bool_decide_eq_true_1 in E as ->.
    apply list_elem_of_In in Hw. naive_solver.
  - simpl. set_solver.
Qed.

Lemma redact_add_wf s v : NoDup (ss_set s) -> length (ss_set s) <= ss_cap s ->
  NoDup (ss_set (qwe_redact_add s v)) /\ length (ss_set (qwe_redact_add s v)) <= ss_cap (qwe_redact_add s v).
Proof.
  intros Hn Hc. unfold qwe_redact_add. destruct (Nat.eqb_spec (length v) 0) as [H|H]; [done |].
  destruct (existsb _ _) eqn:E; [done |]. cbn [ss_set ss_cap]. split.
  - apply list.NoDup_app. split; [done |]. split; [| apply NoDup_singleton].
    intros w Hw ->%list_elem_of_singleton. assert (existsb (fun w => (length w =? length v) && bool_decide (w = v)) (ss_set s) = true); [| congruence].
    apply existsb_exists. exists v. split; [by apply list_elem_of_In |].
    rewrite Nat.eqb_refl. by apply bool_decide_eq_true_2.
  - rewrite length_app. cbn [length]. destruct (Nat.eqb_spec (length (ss_set s)) (ss_cap s)); [| lia].
    destruct (Nat.eqb_spec (ss_cap s) 0) as [E0|E0]; [rewrite E0 in *; lia | lia].
Qed.

(** The set is exactly the non-empty values added to it since it was last
    cleared, each once, within the array's capacity: no value is skipped. *)
Theorem redact_add_all s values :
  let s' := foldl qwe_redact_add (qwe_redact_clear s) values in
  (forall t, t ∈ ss_set s' <-> t ∈ values /\ t <> []) /\ NoDup (ss_set s') /\
  length (ss_set s') <= ss_cap s'.
Proof.
  assert (H : forall s, NoDup (ss_set s) -> length (ss_set s) <= ss_cap s ->
    let s' := foldl qwe_redact_add s values in
    (forall t, t ∈ ss_set s' <-> t ∈ ss_set s \/ (t ∈ values /\ t <> [])) /\ NoDup (ss_set s') /\
    length (ss_set s') <= ss_cap s').
  { clear s. induction values as [|v values IH]; intros s Hn Hc; cbn [foldl].
    - split; [set_solver | done].
    - destruct (redact_add_wf s v Hn Hc) as [Hn' Hc']. destruct (IH _ Hn' Hc') as (Hin & Hr).
      split; [| done]. intros t. rewrite Hin, redact_add_elem. set_solver. }
  destruct (H (qwe_redact_clear s)) as (Hin & Hn & Hc); [constructor | simpl; lia |].
  cbv zeta. split; [| done]. intros t. rewrite Hin. simpl. set_solver.
Qed.
