(* ===== verification/Fmt.v ===== *)
(** * Formatting and time

    Models [src/kernel/fmt.h] (the ways to fill a fixed buffer),
    [src/kernel/clock.h] and [src/kernel/timer.c].  What [printf] makes of its
    arguments is passed as the formatted text; [dec] and [pad6] are the
    conversions [%ld] and [%06ld]. *)

From S2P Require Import Prelude.
From Stdlib Require Import Ascii NArith ZArith Lia.
From stdpp Require Import base sets list strings numbers pretty.

(** ** Filling a buffer *)

(** [vsnprintf] into [size] bytes: 0 if the text fits with its NUL. *)
Definition qwe_vfmt (size : nat) (text : bytes) : Z :=
  if size <=? length text then (-1)%Z else 0%Z.

(** The buffer's text (cut if it does not fit) and the result. *)
Definition qwe_fmt (size : nat) (text : bytes) : bytes * Z := (take (size - 1) text, qwe_vfmt size text).

(** Truncation is a bug here: it aborts. *)
Definition qwe_xfmt (size : nat) (text : bytes) : cres bytes :=
  if (qwe_vfmt size text <? 0)%Z then CAbort else CRet (take (size - 1) text).

Lemma qwe_xfmt_fits size text : length text < size -> qwe_xfmt size text = CRet text.
Proof.
  intros H. unfold qwe_xfmt, qwe_vfmt. destruct (Nat.leb_spec size (length text)); [lia |].
  simpl. by rewrite take_ge by lia.
Qed.

(** [%ld] *)
Definition dec (n : Z) : bytes := bytes_of (pretty n).

(** [%06ld] of a number that is not negative. *)
Definition pad6 (n : Z) : bytes := let d := dec n in replicate (6 - length d) "0"%char ++ d.

(** ** Time *)

(** A [struct timespec]. *)
Record timespec := Timespec { tv_sec : Z; tv_nsec : Z }.

Definition ns_of (t : timespec) : Z := (tv_sec t * 1000000000 + tv_nsec t)%Z.

Definition timespec_wf (t : timespec) : Prop := (0 <= tv_nsec t < 1000000000)%Z.

(** [None]: [clock_gettime] failed. *)
Definition qwe_mono_now (clock : option timespec) : cres timespec :=
  match clock with
  | None => CAbort
  | Some ts => CRet ts
  end.

(** ** One-shot timers

    A timerfd on the monotonic clock holds the time it will fire at, if it is
    armed; reading it succeeds once that time has come, and then disarms it
    ([it_interval] is always zero).  [timerfd_settime] refuses a time that is
    not a valid [timespec]. *)
Record timerfd := Timerfd { tf_deadline : option Z (* in ns *) }.

Definition timerfd_settime (now : Z) (value : timespec) (f : timerfd) : timerfd * Z :=
  if ((tv_sec value <? 0) || (tv_nsec value <? 0) || (999999999 <? tv_nsec value))%Z then (f, (-1)%Z)
  else if (ns_of value =? 0)%Z then (Timerfd None, 0%Z)
  else (Timerfd (Some (now + ns_of value))%Z, 0%Z).

(** Whether [read] returned the 8 bytes of the count. *)
Definition timerfd_read (now : Z) (f : timerfd) : timerfd * bool :=
  match tf_deadline f with
  | Some d => if (d <=? now)%Z then (Timerfd None, true) else (f, false)
  | None => (f, false)
  end.

Definition timerfd_gettime (now : Z) (f : timerfd) : timespec :=
  match tf_deadline f with
  | Some d => if (d <=? now)%Z then Timespec 0 0
              else Timespec ((d - now) / 1000000000) ((d - now) mod 1000000000)
  | None => Timespec 0 0
  end.

(** [t_fd] is [None] when the descriptor is -1. *)
Record qwe_timer := Timer { t_fd : option timerfd; t_fired : bool }.

(** [ok]: whether [timerfd_create] worked. *)
Definition qwe_timer_open (ok : bool) : qwe_timer * Z :=
  if ok then (Timer (Some (Timerfd None)) false, 0%Z) else (Timer None false, (-1)%Z).

Definition qwe_timer_close (t : qwe_timer) : qwe_timer := Timer None (t_fired t).

(** [ms / 1000] and [ms % 1000] truncate towards zero. *)
Definition arm_value (ms : Z) : timespec :=
  let value := Timespec (Z.quot ms 1000) (Z.rem ms 1000 * 1000000) in
  if (ms <=? 0)%Z then Timespec (tv_sec value) 1 else value.

Definition qwe_timer_arm (now : Z) (t : qwe_timer) (ms : Z) : qwe_timer * Z :=
  match t_fd t with
  | None => (t, (-1)%Z)
  | Some f =>
      let '(f, rc) := timerfd_settime now (arm_value ms) f in (Timer (Some f) (t_fired t), rc)
  end.

Definition qwe_timer_disarm (now : Z) (t : qwe_timer) : qwe_timer * Z :=
  match t_fd t with
  | None => (t, (-1)%Z)
  | Some f =>
      let '(f, rc) := timerfd_settime now (Timespec 0 0) f in (Timer (Some f) (t_fired t), rc)
  end.

Definition qwe_timer_expired (now : Z) (t : qwe_timer) : qwe_timer * bool :=
  if t_fired t then (t, true)
  else
    match t_fd t with
    | None => (t, false)
    | Some f =>
        let '(f, got) := timerfd_read now f in
        (Timer (Some f) got, got)
    end.

Definition qwe_timer_remaining_ms (now : Z) (t : qwe_timer) : Z :=
  if t_fired t then (-1)%Z
  else
    match t_fd t with
    | None => (-1)%Z
    | Some f =>
        let v := timerfd_gettime now f in
        if ((tv_sec v =? 0) && (tv_nsec v =? 0))%Z then (-1)%Z
        else (tv_sec v * 1000 + Z.quot (tv_nsec v) 1000000)%Z
    end.

(** ** Timer properties *)

(** When a timer armed at [now] for [ms] fires: [ms] milliseconds later, or the
    next nanosecond for a time that has already come. *)
Definition deadline (now ms : Z) : Z := (now + (if ms <=? 0 then 1 else ms * 1000000))%Z.

Lemma arm_value_ok ms : (-1000 < ms)%Z ->
  (0 <= tv_sec (arm_value ms) /\ 0 <= tv_nsec (arm_value ms) <= 999999999)%Z /\
  ns_of (arm_value ms) = (if ms <=? 0 then 1 else ms * 1000000)%Z.
Proof.
  intros H. unfold arm_value, ns_of. pose proof (Z.quot_rem' ms 1000) as E.
  destruct (Z.leb_spec ms 0) as [Hm|Hm]; simpl.
  - assert (Z.quot ms 1000 = 0%Z) as ->; [| lia].
    destruct (decide (ms = 0%Z)) as [->|]; [done |].
    rewrite <- (Z.opp_involutive ms), Z.quot_opp_l by lia. rewrite Z.quot_small by lia. done.
  - pose proof (Z.rem_bound_pos ms 1000 ltac:(lia) ltac:(lia)).
    pose proof (Z.quot_pos ms 1000 ltac:(lia) ltac:(lia)). lia.
Qed.

(** A timer fires once and only when it should: armed for [ms]
    milliseconds, a later query says so exactly from the deadline on, keeps
    saying so whatever happens after, and until then reports the whole
    milliseconds left, never more than were asked for.  Disarming an armed timer
    that nobody saw fire stops it for good.  (A time of -1000 ms or less is
    refused by the kernel and changes nothing.) *)
Theorem timer_fires t f now now' later ms :
  t_fd t = Some f -> t_fired t = false -> (now <= now')%Z ->
  ((-1000 < ms)%Z ->
   exists t1, qwe_timer_arm now t ms = (t1, 0%Z) /\
   snd (qwe_timer_expired now' t1) = bool_decide (deadline now ms <= now')%Z /\
   ((deadline now ms <= now')%Z ->
     let t2 := fst (qwe_timer_expired now' t1) in
     snd (qwe_timer_expired later (fst (qwe_timer_arm later t2 ms))) = true /\
     qwe_timer_remaining_ms later t2 = (-1)%Z) /\
   ((0 < ms)%Z -> (now' < deadline now ms)%Z ->
     (qwe_timer_remaining_ms now' t1 = (deadline now ms - now') / 1000000 /\
      qwe_timer_remaining_ms now' t1 <= ms)%Z) /\
   (let t3 := fst (qwe_timer_disarm now' t1) in
    snd (qwe_timer_expired later t3) = false /\ qwe_timer_remaining_ms later t3 = (-1)%Z)) /\
  ((ms <= -1000)%Z -> qwe_timer_arm now t ms = (t, (-1)%Z)).
Proof.
  intros Hf Hfired Hle. split.
  - intros Hms. destruct (arm_value_ok ms Hms) as [(H1 & H2 & H3) H4].
    exists (Timer (Some (Timerfd (Some (deadline now ms)))) false).
    assert (Hset : timerfd_settime now (arm_value ms) f = (Timerfd (Some (deadline now ms)), 0%Z)).
    { unfold timerfd_settime, deadline. rewrite H4.
      destruct (Z.ltb_spec (tv_sec (arm_value ms)) 0); [lia |].
      destruct (Z.ltb_spec (tv_nsec (arm_value ms)) 0); [lia |].
      destruct (Z.ltb_spec 999999999 (tv_nsec (arm_value ms))); [lia |].
      destruct (Z.leb_spec ms 0); simpl; [done |]. destruct (Z.eqb_spec (ms * 1000000) 0); [lia | done]. }
    split; [unfold qwe_timer_arm; by rewrite Hf, Hset, Hfired |].
    split; [| split; [| split]].
    + unfold qwe_timer_expired, timerfd_read. simpl.
      destruct (Z.leb_spec (deadline now ms) now'); case_bool_decide; (done || lia).
    + intros Hd. assert (E : qwe_timer_expired now' (Timer (Some (Timerfd (Some (deadline now ms)))) false) =
        (Timer (Some (Timerfd None)) true, true)).
      { unfold qwe_timer_expired, timerfd_read. simpl. by destruct (Z.leb_spec (deadline now ms) now'); [| lia]. }
      rewrite E. split; [| done]. unfold qwe_timer_arm. cbn [t_fd fst snd].
      destruct (timerfd_settime later _ _). reflexivity.
    + intros Hpos Hd. unfold qwe_timer_remaining_ms, timerfd_gettime. simpl.
      destruct (Z.leb_spec (deadline now ms) now'); [lia |]. simpl.
      set (d := (deadline now ms - now')%Z).
      assert (Hd0 : (0 < d <= ms * 1000000)%Z).
      { subst d. unfold deadline in *. destruct (Z.leb_spec ms 0); lia. }
      pose proof (Z.div_mod d 1000000000 ltac:(lia)) as E.
      pose proof (Z.mod_pos_bound d 1000000000 ltac:(lia)).
      destruct ((d / 1000000000 =? 0) && (d mod 1000000000 =? 0))%Z eqn:E0.
      { apply andb_true_iff in E0 as [E1%Z.eqb_eq E2%Z.eqb_eq]. lia. }
      rewrite Z.quot_div_nonneg by lia.
      assert (Hv : (d / 1000000000 * 1000 + d mod 1000000000 / 1000000 = d / 1000000)%Z).
      { rewrite <- Z.div_add_l by lia. f_equal. lia. }
      rewrite Hv. split; [done |]. apply Z.div_le_upper_bound; lia.
    + done.
  - intros Hms. unfold qwe_timer_arm, timerfd_settime. rewrite Hf.
    assert (Hneg : (tv_sec (arm_value ms) <? 0)%Z = true).
    { apply Z.ltb_lt. unfold arm_value. destruct (Z.leb_spec ms 0); [| lia]. simpl.
      rewrite <- (Z.opp_involutive ms), Z.quot_opp_l by lia. rewrite Z.quot_div_nonneg by lia.
      assert (1 <= - ms / 1000)%Z by (apply Z.div_le_lower_bound; lia). lia. }
    rewrite Hneg. simpl. by destruct t as [fd fr]; simpl in *; subst.
Qed.

Lemma timer_fires_witness :
  snd (qwe_timer_expired 2500000000 (fst (qwe_timer_arm 1000000000 (fst (qwe_timer_open true)) 1500))) = true.
Proof.
  destruct (timer_fires (fst (qwe_timer_open true)) (Timerfd None) 1000000000 2500000000 0 1500) as [H _].
  - reflexivity.
  - reflexivity.
  - lia.
  - destruct (H ltac:(lia)) as (t1 & E & Hx & _). rewrite E. simpl. rewrite Hx. reflexivity.
Defined.

(** ** Decimal numbers *)

Definition is_digit (c : ascii) : bool := (48 <=? N_of_ascii c)%N && (N_of_ascii c <=? 57)%N.

Definition digits (l : bytes) : Prop := Forall (fun c => is_digit c = true) l.

Lemma pretty_char_digit x : (x < 10)%N -> is_digit (pretty_N_char x) = true.
Proof.
  intros H. destruct x as [|p]; [done |].
  do 4 (destruct p as [p|p|]; [| | done]); try done; lia.
Qed.

Lemma pretty_go_ok k x s : (x < 10 ^ N.of_nat k)%N ->
  digits (bytes_of s) -> digits (bytes_of (pretty_N_go x s)) /\
  String.length (pretty_N_go x s) <= k + String.length s.
Proof.
  revert x s. induction k as [|k IH]; intros x s Hx Hs.
  - assert (x = 0%N) as -> by (simpl in Hx; lia). rewrite pretty_N_go_0. split; [done | lia].
  - destruct (decide (x = 0)%N) as [->|Hx0]; [rewrite pretty_N_go_0; split; [done | lia] |].
    rewrite pretty_N_go_step by lia. destruct (IH (x / 10)%N (String (pretty_N_char (x `mod` 10)) s)) as [H1 H2].
    + rewrite Nat2N.inj_succ, N.pow_succ_r' in Hx. apply N.Div0.div_lt_upper_bound. lia.
    + apply Forall_cons. split; [| exact Hs]. apply pretty_char_digit. apply N.mod_lt. lia.
    + split; [exact H1 |]. simpl in H2. lia.
Qed.

Lemma dec_inj n n' : dec n = dec n' -> n = n'.
Proof.
  intros H. apply (inj pretty). unfold dec in H. rewrite <- (String.string_of_list_ascii_of_string (pretty n)), <- (String.string_of_list_ascii_of_string (pretty n')).
  f_equal. exact H.
Qed.

(** A number below [10^k], [0 < k], has at most [k] digits. *)
Lemma dec_digits k n : 0 < k -> (0 <= n < 10 ^ Z.of_nat k)%Z -> digits (dec n) /\ length (dec n) <= k.
Proof.
  intros Hk Hn. unfold dec. rewrite length_bytes_of.
  destruct n as [|p|p]; [split; [by repeat constructor | simpl; lia] | | lia].
  change (pretty (Z.pos p)) with (pretty (N.pos p)).
  assert (E : pretty (N.pos p) = pretty_N_go (N.pos p) "") by done.
  rewrite E. destruct (pretty_go_ok k (N.pos p) "") as [H1 H2].
  - apply N2Z.inj_lt. rewrite N2Z.inj_pow, nat_N_Z. simpl. lia.
  - constructor.
  - split; [done |]. simpl in H2. lia.
Qed.

Lemma digit_not_NL l : digits l -> NL ∉ l.
Proof. unfold digits. rewrite Forall_forall. intros H Hin. by apply H in Hin. Qed.

Lemma pad6_digits n : (0 <= n < 1000000)%Z -> digits (pad6 n) /\ length (pad6 n) = 6.
Proof.
  intros Hn. destruct (dec_digits 6 n) as [H1 H2]; [lia | simpl; lia |]. unfold pad6. split.
  - apply Forall_app. split; [| done]. apply Forall_replicate. done.
  - rewrite length_app, length_replicate. lia.
Qed.

Lemma dec_no_NL n : NL ∉ dec n.
Proof.
  assert (H : forall p, NL ∉ dec (Z.pos p)).
  { intros p. apply digit_not_NL, (dec_digits (S (Pos.to_nat p))); [lia |].
    pose proof (Z.pow_gt_lin_r 10 (Z.of_nat (S (Pos.to_nat p)))). lia. }
  destruct n as [|p|p]; [apply digit_not_NL, (dec_digits 1); simpl; lia | done |].
  change (dec (Z.neg p)) with ("-"%char :: dec (Z.pos p)). set_solver.
Qed.
