(* ===== verification/Sink.v ===== *)
(** * The log sink

    Models [src/kernel/sink.h] and [src/kernel/sink.c]: each job's bytes go raw
    to its log file and, line by line with the job's id in front, to the
    terminal, which all jobs share.  A file is the bytes written to it so far.
    The results of [write] come from a list of answers (no answer left: the
    whole of it is written); a positive answer larger than what was asked for
    counts as that.  [qwe_xmalloc] and [qwe_xrealloc] do not return without
    memory, so they have no answer. *)

From S2P Require Import Prelude Fmt.
From Stdlib Require Import Ascii NArith ZArith Lia.
From stdpp Require Import base sets list strings numbers.

(** ** Operations *)

Inductive write_result := Wrote (n : nat) | Interrupted (* EINTR *) | WriteError.

(** The files a sink writes to, and the answers [write] will give. *)
Record files := Files { f_log : bytes; f_term : bytes; f_ans : list write_result }.

Fixpoint write_all (ans : list write_result) (file p : bytes) : list write_result * bytes :=
  match p with
  | [] => (ans, file)
  | _ :: _ =>
      match ans with
      | [] => ([], file ++ p)
      | Interrupted :: ans => write_all ans file p
      | WriteError :: ans => (ans, file)
      | Wrote 0 :: ans => (ans, file)
      | Wrote n :: ans => write_all ans (file ++ take n p) (drop n p)
      end
  end.

Record qwe_sink := Sink {
  sk_job : string;
  sk_line : bytes; (* the terminal's unfinished line *)
  sk_line_cap : nat;
}.

(** The path of the log, if [malloc] gave room for it. *)
Definition log_path (mem : bool) (dir job : string) : cres (option bytes) :=
  if mem
  then
    path ← qwe_xfmt (String.length dir + String.length job + 8)
             (bytes_of dir ++ bytes_of "/" ++ bytes_of job ++ bytes_of ".log");
    mret (Some path)
  else mret None.

(** [opened]: whether [open] worked; the file is then empty.  Returns the sink
    and its log, or nothing for -1. *)
Definition qwe_sink_open (mem opened : bool) (job dir : string) : cres (option (qwe_sink * bytes)) :=
  path ← log_path mem dir job;
  match path with
  | Some _ => mret (if opened then Some (Sink job [] 0, []) else None)
  | None => mret None
  end.

Definition prefix_text (job : string) : bytes := bytes_of "[" ++ bytes_of job ++ bytes_of "] ".

Definition emit_line (s : qwe_sink) (w : files) : cres (qwe_sink * files) :=
  let n := String.length (sk_job s) + 3 in
  out ← qwe_xfmt (n + 1) (prefix_text (sk_job s));
  let '(ans, term) := write_all (f_ans w) (f_term w) (out ++ sk_line s ++ [NL]) in
  mret (Sink (sk_job s) [] (sk_line_cap s), Files (f_log w) term ans).

(** The loop over the bytes. *)
Fixpoint sink_bytes (s : qwe_sink) (w : files) (p : bytes) : cres (qwe_sink * files) :=
  match p with
  | [] => CRet (s, w)
  | c :: p =>
      if decide (c = NL)
      then
        '(s, w) ← emit_line s w;
        sink_bytes s w p
      else
        let cap := if length (sk_line s) =? sk_line_cap s
                   then (if sk_line_cap s =? 0 then 256 else sk_line_cap s * 2) else sk_line_cap s in
        (* line[line_len++] = c *)
        if length (sk_line s) <? cap
        then sink_bytes (Sink (sk_job s) (sk_line s ++ [c]) cap) w p
        else CUndef
  end.

Definition qwe_sink_write (s : qwe_sink) (w : files) (data : bytes) : cres (qwe_sink * files) :=
  let '(ans, log) := write_all (f_ans w) (f_log w) data in
  sink_bytes s (Files log (f_term w) ans) data.

Definition qwe_sink_close (s : qwe_sink) (w : files) : cres files :=
  if 0 <? length (sk_line s)
  then '(_, w) ← emit_line s w; mret w
  else mret w.

(** ** What a sink promises *)

(** The whole lines of a text, and its unfinished last line. *)
Fixpoint lines_of (p : bytes) : list bytes * bytes :=
  match p with
  | [] => ([], [])
  | c :: p =>
      let '(ls, last) := lines_of p in
      if decide (c = NL) then ([] :: ls, last)
      else match ls with
           | [] => ([], c :: last)
           | l :: ls => ((c :: l) :: ls, last)
           end
  end.

(** The terminal's text for a job's output. *)
Definition terminal_text (job : string) (p : bytes) : bytes :=
  let '(ls, last) := lines_of p in
  mjoin ((fun l => prefix_text job ++ l ++ [NL]) <$> (ls ++ (if decide (last = []) then [] else [last]))).

Fixpoint sink_all (s : qwe_sink) (w : files) (chunks : list bytes) : cres (qwe_sink * files) :=
  match chunks with
  | [] => CRet (s, w)
  | data :: chunks =>
      '(s, w) ← qwe_sink_write s w data;
      sink_all s w chunks
  end.

(** Writes may be short or interrupted, but none fails. *)
Definition no_error (ans : list write_result) : Prop :=
  Forall (fun a => match a with Wrote n => n <> 0 | Interrupted => True | WriteError => False end) ans.

Definition sink_wf (s : qwe_sink) : Prop := length (sk_line s) <= sk_line_cap s.

(** ** Lemmas *)

Lemma write_all_ok ans file p : no_error ans ->
  exists ans', write_all ans file p = (ans', file ++ p) /\ no_error ans'.
Proof.
  intros Ha. revert file p. induction Ha as [|a ans Ha Hr IH]; intros file p.
  - exists []. split; [| constructor]. destruct p; simpl; [by rewrite app_nil_r | done].
  - destruct p as [|c p]; [exists (a :: ans); simpl; rewrite app_nil_r; split; [done | by constructor] |].
    destruct a as [[|n]| |]; cbn [write_all]; [done | | apply IH | done].
    destruct (IH (file ++ take (S n) (c :: p)) (drop (S n) (c :: p))) as (ans' & -> & Hn).
    exists ans'. by rewrite <- app_assoc, take_drop.
Qed.

Lemma prefix_fits job : length (prefix_text job) < String.length job + 3 + 1.
Proof. unfold prefix_text. rewrite !length_app, !length_bytes_of. simpl. lia. Qed.

Lemma emit_line_ok s w : no_error (f_ans w) ->
  exists ans, emit_line s w = CRet (Sink (sk_job s) [] (sk_line_cap s),
    Files (f_log w) (f_term w ++ prefix_text (sk_job s) ++ sk_line s ++ [NL]) ans) /\ no_error ans.
Proof.
  intros Ha. unfold emit_line. rewrite qwe_xfmt_fits by apply prefix_fits. cstep.
  destruct (write_all_ok (f_ans w) (f_term w) (prefix_text (sk_job s) ++ sk_line s ++ [NL]) Ha) as (ans & -> & Hn).
  by exists ans.
Qed.

(** The lines of the unfinished line followed by [p]. *)
Definition line_text (job : string) (ls : list bytes) : bytes :=
  mjoin ((fun l => prefix_text job ++ l ++ [NL]) <$> ls).

Lemma line_text_cons job l ls : line_text job (l :: ls) = (prefix_text job ++ l ++ [NL]) ++ line_text job ls.
Proof. done. Qed.

Lemma lines_of_noNL l p : NL ∉ l ->
  lines_of (l ++ p) = (match fst (lines_of p) with [] => ([], l ++ snd (lines_of p))
                       | x :: ls => ((l ++ x) :: ls, snd (lines_of p)) end).
Proof.
  induction l as [|c l IH]; intros Hl; cbn [app lines_of].
  - by destruct (lines_of p) as [[|x ls] last].
  - rewrite IH by set_solver. assert (Hc : c <> NL) by set_solver.
    destruct (lines_of p) as [[|x ls] last]; cbn [fst snd]; by rewrite decide_False.
Qed.

Lemma sink_bytes_ok s w p : sink_wf s -> NL ∉ sk_line s -> no_error (f_ans w) ->
  exists cap ans, sink_bytes s w p = CRet (Sink (sk_job s) (snd (lines_of (sk_line s ++ p))) cap,
      Files (f_log w) (f_term w ++ line_text (sk_job s) (fst (lines_of (sk_line s ++ p)))) ans) /\
    length (snd (lines_of (sk_line s ++ p))) <= cap /\ (NL ∉ snd (lines_of (sk_line s ++ p))) /\ no_error ans.
Proof.
  revert s w. induction p as [|c p IH]; intros s w Hwf Hl Ha.
  - destruct s as [job line cap], w as [log term ans]. exists cap, ans. simpl in *.
    rewrite lines_of_noNL by done. simpl. rewrite !app_nil_r. done.
  - cbn [sink_bytes]. destruct (decide (c = NL)) as [->|Hc].
    + destruct (emit_line_ok s w Ha) as (ans & -> & Hn). cstep.
      edestruct (IH (Sink (sk_job s) [] (sk_line_cap s))) as (cap & ans' & -> & Hcap & Hnl & Hn');
        [unfold sink_wf; simpl; lia | set_solver | exact Hn |].
      exists cap, ans'. cbn [sk_line sk_job f_log f_term app] in *. rewrite lines_of_noNL by done.
      cbn [lines_of]. destruct (lines_of p) as [ls last]. rewrite decide_True by done.
      cbn [fst snd] in *. rewrite line_text_cons, app_nil_r, <- !app_assoc. done.
    + set (cap := if length (sk_line s) =? sk_line_cap s then _ else _).
      assert (Hlt : length (sk_line s) < cap).
      { subst cap. unfold sink_wf in Hwf. destruct (Nat.eqb_spec (length (sk_line s)) (sk_line_cap s)); [| lia].
        destruct (Nat.eqb_spec (sk_line_cap s) 0) as [E|]; [rewrite E in *; lia | lia]. }
      destruct (Nat.ltb_spec (length (sk_line s)) cap); [| lia].
      edestruct (IH (Sink (sk_job s) (sk_line s ++ [c]) cap) w) as (cap' & ans & -> & Hr).
      { unfold sink_wf. simpl. rewrite length_app. simpl. lia. }
      { simpl. set_solver. }
      { done. }
      exists cap', ans. simpl in *. by rewrite <- app_assoc in *.
Qed.

Lemma lines_of_app p q : (NL ∉ snd (lines_of p)) /\
  lines_of (p ++ q) = (fst (lines_of p) ++ fst (lines_of (snd (lines_of p) ++ q)), snd (lines_of (snd (lines_of p) ++ q))).
Proof.
  induction p as [|c p [IHn IH]]; cbn [app lines_of fst snd];
    [split; [set_solver | by destruct (lines_of q)] |].
  rewrite IH. destruct (lines_of p) as [ls last] eqn:E. cbn [fst snd app] in *.
  case_decide as Hc; cbn [fst snd app lines_of]; [done |]. destruct ls as [|l ls]; cbn [fst snd app lines_of]; [| done].
  split; [set_solver |].
  destruct (lines_of (last ++ q)) as [[|x ys] last']; cbn [fst snd]; by rewrite decide_False.
Qed.

Lemma sink_write_ok s w p data : sink_wf s -> no_error (f_ans w) ->
  sk_line s = snd (lines_of p) -> f_term w = line_text (sk_job s) (fst (lines_of p)) ->
  exists s' w', qwe_sink_write s w data = CRet (s', w') /\ sink_wf s' /\ no_error (f_ans w') /\
    sk_job s' = sk_job s /\ sk_line s' = snd (lines_of (p ++ data)) /\ f_log w' = f_log w ++ data /\
    f_term w' = line_text (sk_job s) (fst (lines_of (p ++ data))).
Proof.
  intros Hwf Ha Hl Ht. unfold qwe_sink_write.
  destruct (write_all_ok (f_ans w) (f_log w) data Ha) as (ans & -> & Hn).
  destruct (lines_of_app p data) as [Hnl Happ]. rewrite <- Hl in Hnl, Happ.
  destruct (sink_bytes_ok s (Files (f_log w ++ data) (f_term w) ans) data Hwf Hnl Hn)
    as (cap & ans' & -> & Hcap & _ & Hn').
  do 2 eexists. split; [done |]. rewrite Happ. cbn [fst snd f_log f_term f_ans sk_job sk_line].
  split_and!; try done. rewrite Ht. unfold line_text. by rewrite fmap_app, join_app.
Qed.

Lemma sink_all_ok chunks s w p : sink_wf s -> no_error (f_ans w) ->
  sk_line s = snd (lines_of p) -> f_term w = line_text (sk_job s) (fst (lines_of p)) ->
  exists s' w', sink_all s w chunks = CRet (s', w') /\ no_error (f_ans w') /\
    sk_job s' = sk_job s /\ sk_line s' = snd (lines_of (p ++ mjoin chunks)) /\
    f_log w' = f_log w ++ mjoin chunks /\
    f_term w' = line_text (sk_job s) (fst (lines_of (p ++ mjoin chunks))).
Proof.
  revert s w p. induction chunks as [|data chunks IH]; intros s w p Hwf Ha Hl Ht; cbn [sink_all].
  - exists s, w. cbn [mjoin list_join]. rewrite !app_nil_r. done.
  - destruct (sink_write_ok s w p data Hwf Ha Hl Ht) as (s1 & w1 & -> & Hwf1 & Ha1 & Hj1 & Hl1 & Hlog1 & Ht1).
    cstep. destruct (IH s1 w1 (p ++ data) Hwf1 Ha1 Hl1) as (s2 & w2 & -> & Ha2 & Hj2 & Hl2 & Hlog2 & Ht2);
      [by rewrite Hj1 |].
    exists s2, w2. change (mjoin (data :: chunks)) with (data ++ mjoin chunks). rewrite Hj1 in *.
    rewrite Hlog1 in Hlog2. rewrite <- app_assoc in *. done.
Qed.

(** ** Properties *)

(** C35. However a job's output is cut into writes, and even if the kernel takes
    them in pieces or interrupts them, the log file ends up with exactly the
    job's bytes and the terminal with its lines, each whole, in order and
    prefixed with the job's id; closing the sink completes a last line that has
    no newline. *)
Theorem sink_faithful job dir chunks ans :
  no_error ans ->
  exists s w w', qwe_sink_open true true job dir = CRet (Some (s, [])) /\
    sink_all s (Files [] [] ans) chunks = CRet w /\
    qwe_sink_close (fst w) (snd w) = CRet w' /\
    f_log w' = mjoin chunks /\ f_term w' = terminal_text job (mjoin chunks).
Proof.
  intros Ha. unfold qwe_sink_open, log_path. rewrite qwe_xfmt_fits.
  2:{ rewrite !length_app, !length_bytes_of. simpl. lia. }
  cstep. exists (Sink job [] 0).
  destruct (sink_all_ok chunks (Sink job [] 0) (Files [] [] ans) []) as (s & w & -> & Hn & Hj & Hl & Hlog & Ht);
    [unfold sink_wf; simpl; lia | done | done | done |].
  exists (s, w). cbn [fst snd app f_log f_term sk_job] in *. unfold qwe_sink_close, terminal_text.
  destruct (lines_of (mjoin chunks)) as [ls last]. cbn [fst snd] in *.
  destruct (Nat.ltb_spec 0 (length (sk_line s))) as [H|H].
  - destruct (emit_line_ok s w Hn) as (ans' & -> & _). cstep. eexists. do 3 (split; [done |]).
    cbn [f_log f_term]. split; [done |]. rewrite decide_False by (intros ->; rewrite Hl in H; simpl in H; lia).
    rewrite Ht, Hj, Hl. unfold line_text. rewrite fmap_app, join_app. cbn [fmap list_fmap mjoin list_join].
    by rewrite app_nil_r.
  - eexists. do 3 (split; [done |]). split; [done |].
    assert (last = []) as -> by (apply nil_length_inv; rewrite <- Hl; lia).
    by rewrite decide_True, app_nil_r by done.
Qed.

Lemma sink_faithful_witness :
  exists s w w', qwe_sink_open true true "build" "logs" = CRet (Some (s, [])) /\
    sink_all s (Files [] [] [Wrote 1; Interrupted; Wrote 2]) [bytes_of "a"; bytes_of "bc"] = CRet w /\
    qwe_sink_close (fst w) (snd w) = CRet w' /\
    f_log w' = bytes_of "abc" /\ f_term w' = bytes_of "[build] abc" ++ [NL].
Proof.
  exact (sink_faithful "build" "logs" [bytes_of "a"; bytes_of "bc"] [Wrote 1; Interrupted; Wrote 2]
    ltac:(repeat constructor; discriminate)).
Defined.
