(* ===== verification/Trace.v ===== *)
(** * The lifecycle trace

    Models [src/kernel/trace.h] and [src/kernel/trace.c]: one line per record,
    written with one [write].  The file is the bytes written to it so far;
    [errno_name_np] is the build's own table (the one used without glibc's
    [strerrorname_np]), with Linux's error numbers. *)

From S2P Require Import Prelude Fmt Lifecycle Sink.
From Stdlib Require Import Ascii NArith ZArith Lia.
From stdpp Require Import base sets list strings numbers pretty.

(** ** Data and operations *)

Record qwe_trace := Trace {
  tr_fd : option bytes; (* the open file's content *)
  tr_debug : bool;
  tr_t0 : timespec;
  tr_job : option string;
  tr_step : Z;
}.

(** [opened]: whether [open] worked; [clock] is what the clock said. *)
Definition qwe_trace_open (opened : bool) (clock : option timespec) (debug : bool) : cres (qwe_trace * Z) :=
  if opened
  then t0 ← qwe_mono_now clock; mret (Trace (Some []) debug t0 None (-1), 0%Z)
  else mret (Trace None debug (Timespec 0 0) None (-1), (-1)%Z).

Definition qwe_trace_close (t : qwe_trace) : qwe_trace :=
  Trace None (tr_debug t) (tr_t0 t) (tr_job t) (tr_step t).

(** Seconds and microseconds since the run started. *)
Definition since (t0 now : timespec) : Z * Z :=
  let sec := (tv_sec now - tv_sec t0)%Z in
  let usec := Z.quot (tv_nsec now - tv_nsec t0) 1000 in
  if (usec <? 0)%Z then (sec - 1, usec + 1000000)%Z else (sec, usec).

Definition SP : bytes := bytes_of " ".

Definition or_dash (s : option string) : bytes := bytes_of (default "-"%string s).

(** The step's index, in a buffer of 24 bytes. *)
Definition step_text (step : Z) : cres bytes :=
  if (0 <=? step)%Z then qwe_xfmt 24 (dec step) else mret (bytes_of "-").

Definition record_text (sec usec : Z) (job : option string) (step : bytes) (state : qwe_lc_state)
    (event : string) (next : option string) (kind : string) (reason detail : option string) : bytes :=
  dec sec ++ bytes_of "." ++ pad6 usec ++ SP ++ or_dash job ++ SP ++ step ++ SP ++
  bytes_of (qwe_lc_state_name state) ++ SP ++ bytes_of event ++ SP ++ or_dash next ++ SP ++
  bytes_of kind ++ SP ++ or_dash reason ++
  match detail with Some d => SP ++ bytes_of d | None => [] end ++ [NL].

Definition LINE_SIZE : nat := 512.

(** What [snprintf] left in the buffer, cut to one line if it did not fit. *)
Definition one_line (text : bytes) : bytes :=
  if LINE_SIZE - 1 <? length text
  then take (LINE_SIZE - 2) text ++ [NL]
  else text.

(** [ans] is what [write] returns. *)
Definition qwe_trace_record (clock : option timespec) (ans : write_result) (t : qwe_trace)
    (job : option string) (step : Z) (state : qwe_lc_state) (event : string) (next : option string)
    (kind : string) (reason detail : option string) : cres qwe_trace :=
  match tr_fd t with
  | None => mret t
  | Some file =>
      now ← qwe_mono_now clock;
      let '(sec, usec) := since (tr_t0 t) now in
      st ← step_text step;
      let line := one_line (record_text sec usec job st state event next kind reason detail) in
      let file := match ans with Wrote n => file ++ take n line | _ => file end in
      mret (Trace (Some file) (tr_debug t) (tr_t0 t) (tr_job t) (tr_step t))
  end.

(** What an impossible lookup writes before it aborts. *)
Definition abort_hook (clock : option timespec) (ans : write_result) (s : qwe_lc_state) (e : qwe_lc_event)
    (t : qwe_trace) : cres qwe_trace :=
  qwe_trace_record clock ans t (tr_job t) (tr_step t) s (qwe_lc_event_name e) None "impossible" None None.

Definition errno_names : list (Z * string) :=
  [(1, "EPERM"); (2, "ENOENT"); (3, "ESRCH"); (4, "EINTR"); (5, "EIO"); (7, "E2BIG"); (8, "ENOEXEC");
   (9, "EBADF"); (10, "ECHILD"); (11, "EAGAIN"); (12, "ENOMEM"); (13, "EACCES"); (14, "EFAULT");
   (16, "EBUSY"); (17, "EEXIST"); (20, "ENOTDIR"); (21, "EISDIR"); (22, "EINVAL"); (23, "ENFILE");
   (24, "EMFILE"); (28, "ENOSPC"); (32, "EPIPE"); (36, "ENAMETOOLONG")]%Z%string.

Definition errno_name_np (err : Z) : option string :=
  snd <$> find (fun p => (fst p =? err)%Z) errno_names.

Definition qwe_errno_name (err : Z) : cres bytes :=
  match errno_name_np err with
  | Some name => mret (bytes_of name)
  | None => qwe_xfmt 24 (bytes_of "E" ++ dec err)
  end.

(** ** Lemmas *)

Lemma quot_ge_0 a : (0 <= a)%Z -> Z.quot a 1000 = (a / 1000)%Z.
Proof. intros. apply Z.quot_div_nonneg; lia. Qed.

Lemma quot_lt_0 a : (a < 0)%Z -> Z.quot a 1000 = (- (- a / 1000))%Z.
Proof.
  intros. rewrite <- (Z.opp_involutive a) at 1. rewrite Z.quot_opp_l by lia.
  by rewrite Z.quot_div_nonneg by lia.
Qed.

Lemma since_bounds t0 now : timespec_wf t0 -> timespec_wf now ->
  let '(sec, usec) := since t0 now in
  (0 <= usec < 1000000 /\ -1000 < (sec * 1000000 + usec) * 1000 - (ns_of now - ns_of t0) < 1000)%Z.
Proof.
  unfold timespec_wf, since, ns_of. intros H0 H1. set (d := (tv_nsec now - tv_nsec t0)%Z).
  destruct (Z.ltb_spec d 0) as [Hd|Hd].
  - rewrite quot_lt_0 by done. pose proof (Z.div_mod (- d) 1000 ltac:(lia)).
    pose proof (Z.mod_pos_bound (- d) 1000 ltac:(lia)). destruct (Z.ltb_spec (- (- d / 1000)) 0); lia.
  - rewrite quot_ge_0 by done. pose proof (Z.div_mod d 1000 ltac:(lia)).
    pose proof (Z.mod_pos_bound d 1000 ltac:(lia)). destruct (Z.ltb_spec (d / 1000) 0); lia.
Qed.

Definition since_us (t0 now : timespec) : Z := let '(sec, usec) := since t0 now in (sec * 1000000 + usec)%Z.

Lemma since_us_eq t0 now :
  since_us t0 now = ((tv_sec now - tv_sec t0) * 1000000 + Z.quot (tv_nsec now - tv_nsec t0) 1000)%Z.
Proof. unfold since_us, since. destruct (Z.ltb_spec (Z.quot (tv_nsec now - tv_nsec t0) 1000) 0); lia. Qed.

Lemma since_us_mono t0 a b : timespec_wf t0 -> timespec_wf a -> timespec_wf b ->
  (ns_of a <= ns_of b)%Z -> (since_us t0 a <= since_us t0 b)%Z.
Proof.
  intros H0 Ha Hb Hle. rewrite !since_us_eq. unfold timespec_wf, ns_of in *.
  destruct (decide (tv_sec a = tv_sec b)) as [E|E].
  - rewrite E. assert (Z.quot (tv_nsec a - tv_nsec t0) 1000 <= Z.quot (tv_nsec b - tv_nsec t0) 1000)%Z; [| lia].
    apply Z.quot_le_mono; lia.
  - assert (Hs : (tv_sec a + 1 <= tv_sec b)%Z) by lia.
    assert (Z.quot (tv_nsec a - tv_nsec t0) 1000 <= 1000000 + Z.quot (tv_nsec b - tv_nsec t0) 1000)%Z; [| lia].
    assert (Hqa : (Z.quot (tv_nsec a - tv_nsec t0) 1000 <= (999999999 - tv_nsec t0) / 1000)%Z).
    { rewrite <- quot_ge_0 by lia. apply Z.quot_le_mono; lia. }
    assert (Hqb : (- (tv_nsec t0 / 1000) <= Z.quot (tv_nsec b - tv_nsec t0) 1000)%Z).
    { rewrite <- quot_ge_0 by lia. rewrite <- Z.quot_opp_l by lia. apply Z.quot_le_mono; lia. }
    assert ((999999999 - tv_nsec t0) / 1000 + tv_nsec t0 / 1000 <= 1000000)%Z; [| lia].
    pose proof (Z.div_mod (999999999 - tv_nsec t0) 1000 ltac:(lia)).
    pose proof (Z.mod_pos_bound (999999999 - tv_nsec t0) 1000 ltac:(lia)).
    pose proof (Z.div_mod (tv_nsec t0) 1000 ltac:(lia)).
    pose proof (Z.mod_pos_bound (tv_nsec t0) 1000 ltac:(lia)). lia.
Qed.

(** ** Properties *)

Definition no_NL (s : string) : Prop := NL ∉ bytes_of s.

Lemma or_dash_no_NL s : (forall x, s = Some x -> no_NL x) -> NL ∉ or_dash s.
Proof. intros H. destruct s as [x|]; [by apply H |]. unfold or_dash. vm_compute. set_solver. Qed.

Lemma state_name_no_NL s : no_NL (qwe_lc_state_name s).
Proof. unfold no_NL. intros H. destruct s; vm_compute in H; set_solver. Qed.

Lemma step_text_ok step : (step < 2 ^ 63)%Z -> exists st, step_text step = CRet st /\ NL ∉ st.
Proof.
  intros H. unfold step_text. destruct (Z.leb_spec 0 step) as [Hs|Hs].
  - exists (dec step). split; [| apply dec_no_NL]. apply qwe_xfmt_fits.
    destruct (dec_digits 19 step) as [_ Hl]; [lia | simpl; lia | lia].
  - exists (bytes_of "-"). split; [done |]. vm_compute. set_solver.
Qed.

Lemma record_text_ends sec usec job st state event next kind reason detail :
  (NL ∉ st) -> (forall x, job = Some x -> no_NL x) -> no_NL event -> (forall x, next = Some x -> no_NL x) ->
  no_NL kind -> (forall x, reason = Some x -> no_NL x) -> (forall x, detail = Some x -> no_NL x) ->
  (0 <= usec < 1000000)%Z ->
  exists body, record_text sec usec job st state event next kind reason detail = body ++ [NL] /\ NL ∉ body.
Proof.
  intros Hst Hj He Hn Hk Hr Hd Hu. unfold record_text. rewrite !app_assoc.
  eexists. split; [reflexivity |].
  pose proof (digit_not_NL _ (proj1 (pad6_digits usec Hu))) as Hp.
  pose proof (dec_no_NL sec). pose proof (state_name_no_NL state). unfold no_NL in *.
  assert (Hsp : NL ∉ SP) by (vm_compute; set_solver).
  assert (Hdot : NL ∉ bytes_of ".") by (vm_compute; set_solver).
  pose proof (or_dash_no_NL job Hj). pose proof (or_dash_no_NL next Hn). pose proof (or_dash_no_NL reason Hr).
  rewrite !not_elem_of_app. repeat (split; [| done]).
  destruct detail as [d|]; [| set_solver]. specialize (Hd d eq_refl). rewrite not_elem_of_app. done.
Qed.

(** A record is one line: whatever its fields, if they hold no newline, an
    open trace grows by a text that has no newline and one newline after it, at
    most 511 bytes together, which is the whole record if that fits. *)
Theorem trace_record_one_line t file now ans job step state event next kind reason detail :
  tr_fd t = Some file -> timespec_wf (tr_t0 t) -> timespec_wf now -> (step < 2 ^ 63)%Z ->
  (forall x, job = Some x -> no_NL x) -> no_NL event -> (forall x, next = Some x -> no_NL x) ->
  no_NL kind -> (forall x, reason = Some x -> no_NL x) -> (forall x, detail = Some x -> no_NL x) ->
  LINE_SIZE <= ans ->
  exists body st, qwe_trace_record (Some now) (Wrote ans) t job step state event next kind reason detail =
    CRet (Trace (Some (file ++ body ++ [NL])) (tr_debug t) (tr_t0 t) (tr_job t) (tr_step t)) /\
  step_text step = CRet st /\ (NL ∉ body) /\ length body + 1 <= LINE_SIZE - 1 /\
  let text := record_text (fst (since (tr_t0 t) now)) (snd (since (tr_t0 t) now)) job st state event next kind
                reason detail in
  (length text < LINE_SIZE -> body ++ [NL] = text).
Proof.
  intros Hfd H0 H1 Hstep Hj He Hn Hk Hr Hd Ha. unfold qwe_trace_record. rewrite Hfd. cstep. unfold qwe_mono_now. cstep.
  pose proof (since_bounds (tr_t0 t) now H0 H1) as Hs. destruct (since (tr_t0 t) now) as [sec usec].
  destruct Hs as [Hu _]. destruct (step_text_ok step Hstep) as (st & Hst & Hnl). rewrite Hst. cstep.
  destruct (record_text_ends sec usec job st state event next kind reason detail) as (body & Hb & Hbn); try done.
  cbn [fst snd]. rewrite Hb. unfold one_line, LINE_SIZE in *. rewrite length_app. cbn [length].
  destruct (Nat.ltb_spec (512 - 1) (length body + 1)) as [Hlong|Hshort].
  - exists (take 510 body), st. rewrite (take_app_le body) by lia.
    rewrite (take_ge _ ans) by (rewrite length_app, length_take; cbn [length]; lia).
    split; [done |]. split; [done |]. split; [| rewrite length_take; split; [lia |]].
    + intros Hin. apply Hbn. eapply elem_of_prefix; [exact Hin | apply prefix_take].
    + cbv zeta. rewrite Hb. intros Hlt. exfalso. rewrite length_app in Hlt. cbn [length] in Hlt. lia.
  - exists body, st. rewrite (take_ge _ ans) by (rewrite length_app; cbn [length]; lia).
    split; [done |]. split; [done |]. split; [done |]. split; [lia | done].
Qed.

Lemma trace_record_one_line_witness :
  exists body st, qwe_trace_record (Some (Timespec 12 250000)) (Wrote 512)
    (Trace (Some []) false (Timespec 10 0) None (-1)) (Some "build"%string) 0 QWE_LC_STEP_RUNNING
    "leader_exit_ok" None "ignore" None None =
    CRet (Trace (Some ([] ++ body ++ [NL])) false (Timespec 10 0) None (-1)) /\
  step_text 0 = CRet st /\ (NL ∉ body) /\ length body + 1 <= LINE_SIZE - 1.
Proof.
  destruct (trace_record_one_line (Trace (Some []) false (Timespec 10 0) None (-1)) [] (Timespec 12 250000) 512
    (Some "build"%string) 0 QWE_LC_STEP_RUNNING "leader_exit_ok" None "ignore" None None)
    as (body & st & H1 & H2 & H3 & H4 & _);
    [reflexivity | unfold timespec_wf; simpl; lia | unfold timespec_wf; simpl; lia | lia | | | done | | done | done | done | ].
  - intros x [= <-]. unfold no_NL. vm_compute. set_solver.
  - unfold no_NL. vm_compute. set_solver.
  - unfold no_NL. vm_compute. set_solver.
  - exists body, st. auto.
Defined.

(** The time a record carries is less than a microsecond off the time since
    the run started, its microseconds are below a million, and it never runs
    backwards. *)
Theorem trace_time_exact t0 now later :
  timespec_wf t0 -> timespec_wf now -> timespec_wf later -> (ns_of now <= ns_of later)%Z ->
  (let '(sec, usec) := since t0 now in
   0 <= usec < 1000000 /\ -1000 < (sec * 1000000 + usec) * 1000 - (ns_of now - ns_of t0) < 1000)%Z /\
  (let '(sec, usec) := since t0 now in
   let '(sec', usec') := since t0 later in sec * 1000000 + usec <= sec' * 1000000 + usec')%Z.
Proof.
  intros H0 H1 H2 Hle. split; [by apply since_bounds |].
  pose proof (since_us_mono t0 now later H0 H1 H2 Hle) as Hm. unfold since_us in Hm.
  by destruct (since t0 now), (since t0 later).
Qed.

Lemma trace_time_exact_witness :
  since (Timespec 0 999999500) (Timespec 1 0) = (0, 1)%Z /\
  (let '(sec, usec) := since (Timespec 0 999999500) (Timespec 1 0) in 0 <= usec < 1000000)%Z.
Proof.
  split; [reflexivity |].
  destruct (trace_time_exact (Timespec 0 999999500) (Timespec 1 0) (Timespec 1 0)) as [[H _] _];
    [unfold timespec_wf; simpl; lia | unfold timespec_wf; simpl; lia | unfold timespec_wf; simpl; lia | lia |].
  exact H.
Defined.
