(* ===== verification/Result.v ===== *)
(** * result.json

    Models [src/kernel/result.h] and [src/kernel/result.c], with the stream
    helpers of [src/kernel/put.h]: a stream is the bytes written to it and its
    sticky error flag is asked for at the end.  [gmtime_r] and [strftime] are the
    proleptic Gregorian calendar.  A [NULL] outcome passed to [qwe_json_string]
    is [CUndef].

    The theorems show that a string literal decodes to the string it was made
    from, and that the whole document is one JSON object, whose members a JSON
    parser reads back. *)

From S2P Require Import Prelude Fmt.
From Stdlib Require Import Ascii NArith ZArith Lia.
From stdpp Require Import base sets list strings numbers pretty.

(** ** Data *)

Record qwe_step_result := StepResult {
  sr_id : option string;
  sr_outcome : option string;
  sr_reason : option string;
  sr_changed : bool;
  sr_outputs_json : option bytes;
  sr_started : Z; (* 0 if it never started *)
  sr_ended : Z;
  sr_duration_ms : Z; (* -1 if it never started *)
  sr_name : option string;
  sr_plugin : option string;
}.

Record qwe_job_result := JobResult {
  jr_id : string;
  jr_outcome : option string;
  jr_reason : option string;
  jr_detail : option string;
  jr_started : Z;
  jr_ended : Z;
  jr_duration_ms : Z;
  jr_dropped_bytes : N;
  jr_steps : list qwe_step_result;
}.

(** ** Time as text *)

(** Year, month and day of a number of days since 1970-01-01: the era of 400
    years, the day of the era, the year of the era counted from March. *)
Definition civil_from_days (days : Z) : Z * Z * Z :=
  let z := (days + 719468)%Z in
  let era := (z / 146097)%Z in
  let doe := (z - era * 146097)%Z in
  let yoe := ((doe - doe / 1460 + doe / 36524 - doe / 146096) / 365)%Z in
  let doy := (doe - (365 * yoe + yoe / 4 - yoe / 100))%Z in
  let mp := ((5 * doy + 2) / 153)%Z in
  let d := (doy - (153 * mp + 2) / 5 + 1)%Z in
  let m := (if mp <? 10 then mp + 3 else mp - 9)%Z in
  let y := (yoe + era * 400)%Z in
  (if (m <=? 2)%Z then y + 1 else y, m, d)%Z.

Definition pad2 (n : Z) : bytes := let d := dec n in replicate (2 - length d) "0"%char ++ d.

(** [gmtime_r] fails when the year does not fit an [int]. *)
Definition gmtime_fits (y : Z) : bool := ((- 2 ^ 31 <=? y - 1900) && (y - 1900 <? 2 ^ 31))%Z.

(** [gmtime_r] and [strftime] with "%Y-%m-%dT%H:%M:%SZ" into 32 bytes. *)
Definition iso8601 (t : Z) : option bytes :=
  let '(y, m, d) := civil_from_days (t / 86400)%Z in
  let s := (t mod 86400)%Z in
  let text := dec y ++ bytes_of "-" ++ pad2 m ++ bytes_of "-" ++ pad2 d ++ bytes_of "T" ++
              pad2 (s / 3600) ++ bytes_of ":" ++ pad2 (s / 60 mod 60) ++ bytes_of ":" ++
              pad2 (s mod 60) ++ bytes_of "Z" in
  if gmtime_fits y && (length text <? 32) then Some text else None.

(** ** Writing *)

Definition put_time (t : Z) : bytes :=
  if (t =? 0)%Z then bytes_of "null"
  else match iso8601 t with
       | None => [DQ] ++ dec t ++ [DQ]
       | Some buf => [DQ] ++ buf ++ [DQ]
       end.

Definition BS : ascii := "\"%char.

(** One hexadecimal digit, lower case. *)
Definition hex1 (n : N) : ascii :=
  ascii_of_N (if (n <? 10)%N then 48 + n else 87 + n).

(** ["\u%04x"] of a byte. *)
Definition u_escape (c : ascii) : bytes :=
  bytes_of "\u00" ++ [hex1 (N_of_ascii c / 16); hex1 (N_of_ascii c mod 16)].

Definition json_char (c : ascii) : bytes :=
  if decide (c = DQ) then [BS; DQ]
  else if decide (c = BS) then [BS; BS]
  else if decide (c = "010"%char) then bytes_of "\n"
  else if decide (c = "013"%char) then bytes_of "\r"
  else if decide (c = "009"%char) then bytes_of "\t"
  else if (N_of_ascii c <? 32)%N then u_escape c
  else [c].

Definition qwe_json_string (s : bytes) : bytes := [DQ] ++ (s ≫= json_char) ++ [DQ].

Definition json_str (s : string) : bytes := qwe_json_string (bytes_of s).

(** A string argument that must not be [NULL]. *)
Definition json_string_ptr (s : option string) : cres bytes :=
  match s with
  | Some s => mret (json_str s)
  | None => CUndef
  end.

Definition put_opt (s : option string) : bytes :=
  match s with
  | Some s => json_str s
  | None => bytes_of "null"
  end.

Definition put_duration (ms : Z) : bytes :=
  if (ms <? 0)%Z then bytes_of "null" else dec ms.

(** A newline and an indent. *)
Definition nl (n : nat) : bytes := NL :: replicate n " "%char.

Definition key (k : string) : bytes := [DQ] ++ bytes_of k ++ [DQ] ++ bytes_of ": ".

Definition member (indent : nat) (k : string) (v : bytes) : bytes :=
  bytes_of "," ++ nl indent ++ key k ++ v.

Definition write_step (first : bool) (s : qwe_step_result) : cres bytes :=
  outcome ← json_string_ptr (sr_outcome s);
  mret ((if first then [] else bytes_of ",") ++ nl 8 ++ bytes_of "{" ++ nl 10 ++ key "id" ++
        put_opt (sr_id s) ++
        member 10 "outcome" outcome ++
        member 10 "reason" (put_opt (sr_reason s)) ++
        member 10 "changed" (bytes_of (if sr_changed s then "true" else "false")) ++
        member 10 "started" (put_time (sr_started s)) ++
        member 10 "ended" (put_time (sr_ended s)) ++
        member 10 "duration_ms" (put_duration (sr_duration_ms s)) ++
        match sr_outputs_json s with
        | Some o => member 10 "outputs" o
        | None => []
        end ++
        nl 8 ++ bytes_of "}").

Fixpoint write_steps (first : bool) (steps : list qwe_step_result) : cres bytes :=
  match steps with
  | [] => CRet []
  | s :: steps =>
      a ← write_step first s;
      b ← write_steps false steps;
      mret (a ++ b)
  end.

Definition write_job (first : bool) (j : qwe_job_result) : cres bytes :=
  outcome ← json_string_ptr (jr_outcome j);
  steps ← write_steps true (jr_steps j);
  mret ((if first then [] else bytes_of ",") ++ nl 4 ++ json_str (jr_id j) ++ bytes_of ": {" ++
        nl 6 ++ key "outcome" ++ outcome ++
        member 6 "reason" (put_opt (jr_reason j)) ++
        match jr_detail j with
        | Some d => member 6 "detail" (json_str d)
        | None => []
        end ++
        member 6 "started" (put_time (jr_started j)) ++
        member 6 "ended" (put_time (jr_ended j)) ++
        member 6 "duration_ms" (put_duration (jr_duration_ms j)) ++
        member 6 "dropped_bytes" (dec (Z.of_N (jr_dropped_bytes j))) ++
        member 6 "steps" (bytes_of "[") ++ steps ++
        (if length (jr_steps j) =? 0 then bytes_of "]" ++ nl 4 ++ bytes_of "}"
         else nl 6 ++ bytes_of "]" ++ nl 4 ++ bytes_of "}")).

Fixpoint write_jobs (first : bool) (jobs : list qwe_job_result) : cres bytes :=
  match jobs with
  | [] => CRet []
  | j :: jobs =>
      a ← write_job first j;
      b ← write_jobs false jobs;
      mret (a ++ b)
  end.

(** [failed]: whether any write to the stream failed. *)
Definition qwe_result_write (failed : bool) (run_id : string) (jobs : list qwe_job_result) :
    cres (bytes * Z) :=
  body ← write_jobs true jobs;
  mret (bytes_of "{" ++ nl 2 ++ key "run_id" ++ json_str run_id ++
        member 2 "jobs" (bytes_of "{") ++ body ++
        (if length jobs =? 0 then bytes_of "}" ++ nl 0 ++ bytes_of "}" ++ nl 0
         else nl 2 ++ bytes_of "}" ++ nl 0 ++ bytes_of "}" ++ nl 0),
        if failed then (-1)%Z else 0%Z).

(** The calendar on a few dates. *)
Example iso_epoch : iso8601 1 = Some (bytes_of "1970-01-01T00:00:01Z").
Proof. vm_compute. reflexivity. Qed.
Example iso_leap : iso8601 951827696 = Some (bytes_of "2000-02-29T12:34:56Z").
Proof. vm_compute. reflexivity. Qed.

(** ** Reading JSON back

    A parser of JSON text (RFC 8259) over bytes; it accepts [\u] escapes of
    bytes only and keeps a number as its text. *)

#[warnings="-register-all"] Inductive json :=
| JNull
| JBool (b : bool)
| JNum (text : bytes)
| JStr (s : bytes)
| JArr (l : list json)
| JObj (l : list (bytes * json)).

Definition is_ws (c : ascii) : bool := existsb (Ascii.eqb c) [" "; "009"; "010"; "013"]%char.

Fixpoint skip_ws (l : bytes) : bytes :=
  match l with
  | c :: l' => if is_ws c then skip_ws l' else l
  | [] => []
  end.

Definition unhex (c : ascii) : option N :=
  let n := N_of_ascii c in
  if ((48 <=? n) && (n <=? 57))%N then Some (n - 48)%N
  else if ((97 <=? n) && (n <=? 102))%N then Some (n - 87)%N
  else None.

(** The rest of a string literal, after its opening quote. *)
Fixpoint parse_chars (l : bytes) : option (bytes * bytes) :=
  match l with
  | [] => None
  | c :: l =>
      if Ascii.eqb c DQ then Some ([], l)
      else if Ascii.eqb c BS
      then
        match l with
        | e :: l =>
            if Ascii.eqb e "u"%char
            then
              match l with
              | "0"%char :: "0"%char :: h1 :: h2 :: l =>
                  match unhex h1, unhex h2, parse_chars l with
                  | Some a, Some b, Some (s, l) => Some (ascii_of_N (16 * a + b) :: s, l)
                  | _, _, _ => None
                  end
              | _ => None
              end
            else
              match
                (if Ascii.eqb e DQ then Some DQ
                 else if Ascii.eqb e BS then Some BS
                 else if Ascii.eqb e "n"%char then Some "010"%char
                 else if Ascii.eqb e "r"%char then Some "013"%char
                 else if Ascii.eqb e "t"%char then Some "009"%char
                 else None), parse_chars l with
              | Some x, Some (s, l) => Some (x :: s, l)
              | _, _ => None
              end
        | [] => None
        end
      else if (N_of_ascii c <? 32)%N then None
      else match parse_chars l with
           | Some (s, l) => Some (c :: s, l)
           | None => None
           end
  end.

Definition num_char (c : ascii) : bool := is_digit c || existsb (Ascii.eqb c) ["-"; "+"; "."; "e"; "E"]%char.

Fixpoint parse_num (l : bytes) : bytes * bytes :=
  match l with
  | c :: l' => if num_char c then let '(a, b) := parse_num l' in (c :: a, b) else ([], l)
  | [] => ([], [])
  end.

(** The text [w], if [l] starts with it. *)
Definition expect (w : bytes) (l : bytes) : option bytes :=
  if decide (take (length w) l = w) then Some (drop (length w) l) else None.

Fixpoint parse_value (fuel : nat) (l : bytes) : option (json * bytes) :=
  match fuel with
  | 0 => None
  | S fuel =>
      match skip_ws l with
      | [] => None
      | c :: l' =>
          if Ascii.eqb c DQ
          then '(s, r) ← parse_chars l'; Some (JStr s, r)
          else if Ascii.eqb c "{"%char
          then match skip_ws l' with
               | "}"%char :: r => Some (JObj [], r)
               | _ => '(ms, r) ← parse_members fuel l'; Some (JObj ms, r)
               end
          else if Ascii.eqb c "["%char
          then match skip_ws l' with
               | "]"%char :: r => Some (JArr [], r)
               | _ => '(vs, r) ← parse_elements fuel l'; Some (JArr vs, r)
               end
          else if num_char c
          then let '(n, r) := parse_num (c :: l') in Some (JNum n, r)
          else
            match expect (bytes_of "null") (c :: l') with
            | Some r => Some (JNull, r)
            | None =>
                match expect (bytes_of "true") (c :: l') with
                | Some r => Some (JBool true, r)
                | None => r ← expect (bytes_of "false") (c :: l'); Some (JBool false, r)
                end
            end
      end
  end
with parse_members (fuel : nat) (l : bytes) : option (list (bytes * json) * bytes) :=
  match fuel with
  | 0 => None
  | S fuel =>
      match skip_ws l with
      | c :: l' =>
          if Ascii.eqb c DQ
          then
            '(k, r) ← parse_chars l';
            match skip_ws r with
            | ":"%char :: r =>
                '(v, r) ← parse_value fuel r;
                match skip_ws r with
                | "}"%char :: r => Some ([(k, v)], r)
                | ","%char :: r => '(ms, r) ← parse_members fuel r; Some ((k, v) :: ms, r)
                | _ => None
                end
            | _ => None
            end
          else None
      | [] => None
      end
  end
with parse_elements (fuel : nat) (l : bytes) : option (list json * bytes) :=
  match fuel with
  | 0 => None
  | S fuel =>
      '(v, r) ← parse_value fuel l;
      match skip_ws r with
      | "]"%char :: r => Some ([v], r)
      | ","%char :: r => '(vs, r) ← parse_elements fuel r; Some (v :: vs, r)
      | _ => None
      end
  end.

(** ** What the document says *)

Definition jopt (s : option string) : json :=
  match s with Some s => JStr (bytes_of s) | None => JNull end.

Definition jtime (t : Z) : json :=
  if (t =? 0)%Z then JNull else JStr (default (dec t) (iso8601 t)).

Definition jduration (ms : Z) : json := if (ms <? 0)%Z then JNull else JNum (dec ms).

(** [outputs] maps a step's outputs text to its value. *)
Definition step_json (outputs : bytes -> json) (s : qwe_step_result) : json :=
  JObj ([(bytes_of "id", jopt (sr_id s)); (bytes_of "outcome", jopt (sr_outcome s));
         (bytes_of "reason", jopt (sr_reason s)); (bytes_of "changed", JBool (sr_changed s));
         (bytes_of "started", jtime (sr_started s)); (bytes_of "ended", jtime (sr_ended s));
         (bytes_of "duration_ms", jduration (sr_duration_ms s))] ++
        match sr_outputs_json s with Some o => [(bytes_of "outputs", outputs o)] | None => [] end).

Definition job_json (outputs : bytes -> json) (j : qwe_job_result) : bytes * json :=
  (bytes_of (jr_id j),
   JObj ([(bytes_of "outcome", jopt (jr_outcome j)); (bytes_of "reason", jopt (jr_reason j))] ++
         match jr_detail j with Some d => [(bytes_of "detail", JStr (bytes_of d))] | None => [] end ++
         [(bytes_of "started", jtime (jr_started j)); (bytes_of "ended", jtime (jr_ended j));
          (bytes_of "duration_ms", jduration (jr_duration_ms j));
          (bytes_of "dropped_bytes", JNum (dec (Z.of_N (jr_dropped_bytes j))));
          (bytes_of "steps", JArr (step_json outputs <$> jr_steps j))])).

Definition result_json (outputs : bytes -> json) (run_id : string) (jobs : list qwe_job_result) : json :=
  JObj [(bytes_of "run_id", JStr (bytes_of run_id)); (bytes_of "jobs", JObj (job_json outputs <$> jobs))].

(** Nothing that would continue a number. *)
Definition ends (rest : bytes) : Prop := match rest with [] => True | c :: _ => num_char c = false end.

(** With enough fuel, the text is read as the value, leaving what follows. *)
Definition parses (l : bytes) (v : json) : Prop :=
  exists n0, forall n rest, n0 <= n -> ends rest -> parse_value n (l ++ rest) = Some (v, rest).

Definition parses_members (l : bytes) (ms : list (bytes * json)) : Prop :=
  exists n0, forall n rest, n0 <= n -> parse_members n (l ++ rest) = Some (ms, rest).

Definition parses_elements (l : bytes) (vs : list json) : Prop :=
  exists n0, forall n rest, n0 <= n -> parse_elements n (l ++ rest) = Some (vs, rest).

(** ** Lemmas *)

Lemma json_char_ok c l :
  parse_chars (json_char c ++ l) =
  match parse_chars l with Some (s, r) => Some (c :: s, r) | None => None end.
Proof. destruct c as [[] [] [] [] [] [] [] []]; reflexivity. Qed.

Lemma parse_chars_ok s rest : parse_chars ((s ≫= json_char) ++ DQ :: rest) = Some (s, rest).
Proof.
  induction s as [|c s IH]; [done |]. rewrite bind_cons, <- app_assoc, json_char_ok.
  by rewrite IH.
Qed.

Lemma skip_ws_app w l : Forall (fun c => is_ws c = true) w -> skip_ws (w ++ l) = skip_ws l.
Proof. induction 1 as [|c w Hc Hw IH]; simpl; [done |]. by rewrite Hc. Qed.

Lemma ws_nl n : Forall (fun c => is_ws c = true) (nl n).
Proof. constructor; [done |]. by apply Forall_replicate. Qed.

Lemma parse_num_ok l rest : Forall (fun c => num_char c = true) l -> ends rest -> parse_num (l ++ rest) = (l, rest).
Proof.
  intros Hl Hr. induction Hl as [|c l Hc Hl IH]; simpl.
  - destruct rest as [|c rest]; [done |]. simpl in *. by rewrite Hr.
  - by rewrite Hc, IH.
Qed.

Lemma digits_num l : digits l -> Forall (fun c => num_char c = true) l.
Proof. intros H. eapply Forall_impl; [exact H |]. intros c Hc. unfold num_char. by rewrite Hc. Qed.

Lemma num_not_other c : num_char c = true -> is_ws c = false /\ Ascii.eqb c DQ = false /\
  Ascii.eqb c "{"%char = false /\ Ascii.eqb c "["%char = false.
Proof. destruct c as [[] [] [] [] [] [] [] []]; vm_compute; intuition discriminate. Qed.

(** *** Leaves *)

Lemma parses_str s : parses (qwe_json_string s) (JStr s).
Proof.
  exists 1. intros [|n] rest Hn _; [lia |]. unfold qwe_json_string. rewrite <- !app_assoc.
  cbn [parse_value]. change (skip_ws ([DQ] ++ ?l)) with (DQ :: l). cbv iota.
  change (Ascii.eqb DQ DQ) with true. cbv iota. change ([DQ] ++ rest) with (DQ :: rest).
  by rewrite parse_chars_ok.
Qed.

Lemma parses_word w v : (w = bytes_of "null" /\ v = JNull) \/ (w = bytes_of "true" /\ v = JBool true) \/
  (w = bytes_of "false" /\ v = JBool false) -> parses w v.
Proof.
  intros H. exists 1. intros [|n] rest Hn _; [lia |].
  destruct H as [[-> ->]|[[-> ->]|[-> ->]]]; reflexivity.
Qed.

Lemma parses_num l : l <> [] -> digits l -> parses l (JNum l).
Proof.
  intros Hne Hd. exists 1. intros [|n] rest Hn Hr; [lia |]. apply digits_num in Hd.
  destruct l as [|c l]; [done |]. pose proof (parse_num_ok (c :: l) rest Hd Hr) as Hp.
  apply Forall_cons in Hd as [Hc _]. destruct (num_not_other c Hc) as (H1 & H2 & H3 & H4).
  cbn [app parse_value]. cbn [skip_ws]. rewrite H1, H2, H3, H4, Hc. cbn [app] in Hp. by rewrite Hp.
Qed.

Lemma dec_not_nil n : dec n <> [].
Proof.
  assert (H : forall p, dec (Z.pos p) <> []).
  { intros p. unfold dec. change (pretty (Z.pos p)) with (pretty_N_go (N.pos p) "").
    rewrite pretty_N_go_step by done. intros E.
    assert (Hl : forall x s, s <> ""%string -> pretty_N_go x s <> ""%string).
    { intros x. induction (N.lt_wf_0 x) as [x _ IH]. intros s Hs. destruct (decide (x = 0)%N) as [->|].
      - by rewrite pretty_N_go_0.
      - rewrite pretty_N_go_step by lia. apply IH; [apply N.div_lt; lia | done]. }
    eapply (Hl (N.pos p / 10)%N); [| by destruct (pretty_N_go _ _) eqn:E'; [exact E' | done]]. done. }
  destruct n as [|p|p]; [done | apply H | done].
Qed.

Lemma parses_dec n : (0 <= n)%Z -> parses (dec n) (JNum (dec n)).
Proof.
  intros Hn. apply parses_num; [apply dec_not_nil |].
  apply (dec_digits (S (Z.to_nat n))); [lia |].
  pose proof (Z.pow_gt_lin_r 10 (Z.of_nat (S (Z.to_nat n)))). lia.
Qed.

Lemma parses_opt s : parses (put_opt s) (jopt s).
Proof. destruct s; [apply parses_str | apply parses_word; tauto]. Qed.

Lemma parses_duration ms : parses (put_duration ms) (jduration ms).
Proof.
  unfold put_duration, jduration. destruct (Z.ltb_spec ms 0); [apply parses_word; tauto | by apply parses_dec].
Qed.

(** Text that needs no escape. *)
Definition plain (l : bytes) : Prop := Forall (fun c => json_char c = [c]) l.

Lemma plain_string l : plain l -> qwe_json_string l = [DQ] ++ l ++ [DQ].
Proof.
  intros H. unfold qwe_json_string. do 2 f_equal. induction H as [|c l Hc _ IH]; [done |].
  rewrite bind_cons, Hc, IH. done.
Qed.

Lemma digits_plain l : digits l -> plain l.
Proof.
  intros H. eapply Forall_impl; [exact H |]. intros c.
  destruct c as [[] [] [] [] [] [] [] []]; vm_compute; (reflexivity || discriminate).
Qed.

Lemma dec_plain n : plain (dec n).
Proof.
  assert (H : forall n, (0 <= n)%Z -> plain (dec n)).
  { intros m Hm. apply digits_plain, (dec_digits (S (Z.to_nat m))); [lia |].
    pose proof (Z.pow_gt_lin_r 10 (Z.of_nat (S (Z.to_nat m)))). lia. }
  destruct n as [|p|p]; [by apply H | by apply H |].
  change (dec (Z.neg p)) with ("-"%char :: dec (Z.pos p)). constructor; [done | by apply H].
Qed.

Lemma pad2_plain n : plain (pad2 n).
Proof. apply Forall_app. split; [by apply Forall_replicate | apply dec_plain]. Qed.

Lemma iso8601_plain t buf : iso8601 t = Some buf -> plain buf.
Proof.
  unfold iso8601. destruct (civil_from_days _) as [[y m] d]. destruct (_ && _); [| done]. intros [= <-].
  repeat first [apply dec_plain | apply pad2_plain | apply Forall_cons; split; [reflexivity |]
    | apply Forall_app; split | by repeat constructor].
Qed.

Lemma parses_time t : parses (put_time t) (jtime t).
Proof.
  unfold put_time, jtime. destruct (Z.eqb_spec t 0); [apply parses_word; tauto |].
  destruct (iso8601 t) as [buf|] eqn:E; simpl default.
  - rewrite <- plain_string by (by eapply iso8601_plain). apply parses_str.
  - rewrite <- plain_string by apply dec_plain. apply parses_str.
Qed.

(** *** Objects and arrays *)

Lemma parses_skip w l v : Forall (fun c => is_ws c = true) w -> parses l v -> parses (w ++ l) v.
Proof.
  intros Hw [n0 H]. exists n0. intros n rest Hn Hr. specialize (H n rest Hn Hr).
  destruct n as [|n]; [done |]. rewrite <- app_assoc. cbn [parse_value] in *. by rewrite skip_ws_app.
Qed.

Lemma ends_ws w c rest : Forall (fun c => is_ws c = true) w -> num_char c = false -> ends (w ++ c :: rest).
Proof.
  intros Hw Hc. destruct Hw as [|x w Hx _]; [done |]. simpl. clear -Hx. revert Hx.
  destruct x as [[] [] [] [] [] [] [] []]; vm_compute; congruence.
Qed.

Definition keyj (k : bytes) : bytes := qwe_json_string k ++ bytes_of ": ".

Lemma key_keyj k : plain (bytes_of k) -> key k = keyj (bytes_of k).
Proof. intros H. unfold key, keyj. rewrite plain_string by done. by rewrite <- !app_assoc. Qed.

(** A member, and what follows it. *)
Lemma parse_member n w k vt v rest r :
  Forall (fun c => is_ws c = true) w -> parse_value n (" "%char :: vt ++ rest) = Some (v, r) ->
  parse_members (S n) (w ++ keyj k ++ vt ++ rest) =
  match skip_ws r with
  | "}"%char :: r => Some ([(k, v)], r)
  | ","%char :: r => '(ms, r) ← parse_members n r; Some ((k, v) :: ms, r)
  | _ => None
  end.
Proof.
  intros Hw Hv. cbn [parse_members]. rewrite skip_ws_app by done. unfold keyj, qwe_json_string.
  rewrite <- !app_assoc. change (skip_ws ([DQ] ++ ?l)) with (DQ :: l). cbv iota.
  change (Ascii.eqb DQ DQ) with true. cbv iota. change ([DQ] ++ ?l) with (DQ :: l).
  rewrite parse_chars_ok. cbn [mbind option_bind].
  change (skip_ws (bytes_of ": " ++ vt ++ rest)) with (":"%char :: " "%char :: vt ++ rest). cbv iota beta.
  rewrite Hv. reflexivity.
Qed.

(** The members of an object, each on a line of its own. *)
Fixpoint members_text (i : nat) (kvs : list (bytes * bytes)) : bytes :=
  match kvs with
  | [] => []
  | [(k, v)] => nl i ++ keyj k ++ v
  | (k, v) :: kvs => nl i ++ keyj k ++ v ++ bytes_of "," ++ members_text i kvs
  end.

Lemma parses_members_text i kvs vs w : kvs <> [] -> Forall (fun c => is_ws c = true) w ->
  Forall2 (fun kv v => parses (snd kv) v) kvs vs ->
  parses_members (members_text i kvs ++ w ++ bytes_of "}") (zip (fst <$> kvs) vs).
Proof.
  intros Hne Hw H. induction H as [|[k vt] v kvs vs Hv H IH]; [done |]. clear Hne.
  apply (parses_skip [" "%char]) in Hv; [| by repeat constructor]. destruct Hv as [n1 Hv]. simpl in Hv.
  destruct kvs as [|kv kvs].
  - inversion H; subst. exists (S n1). intros [|n] rest Hn; [lia |]. cbn [members_text].
    rewrite <- !app_assoc. erewrite parse_member; [| apply ws_nl | apply Hv; [lia |]].
    + rewrite skip_ws_app by done. reflexivity.
    + by apply ends_ws.
  - destruct IH as [n2 IH]; [done |]. exists (S (n1 + n2)). intros [|n] rest Hn; [lia |].
    destruct kv as [k' vt']. cbn [members_text]. rewrite <- !app_assoc.
    erewrite parse_member; [| apply ws_nl | apply Hv; [lia | reflexivity]].
    change (skip_ws (bytes_of "," ++ ?l)) with (","%char :: l). cbv iota.
    specialize (IH n rest ltac:(lia)). cbn [members_text] in IH.
    rewrite <- !app_assoc in IH. rewrite IH. reflexivity.
Qed.

Lemma parses_obj i kvs vs w : Forall (fun c => is_ws c = true) w -> kvs <> [] ->
  Forall2 (fun kv v => parses (snd kv) v) kvs vs ->
  parses (bytes_of "{" ++ members_text i kvs ++ w ++ bytes_of "}") (JObj (zip (fst <$> kvs) vs)).
Proof.
  intros Hw Hne H. destruct (parses_members_text i kvs vs w Hne Hw H) as [n0 Hm].
  exists (S n0). intros [|n] rest Hn _; [lia |]. specialize (Hm n rest ltac:(lia)).
  rewrite <- app_assoc. cbn [parse_value]. change (skip_ws (bytes_of "{" ++ ?l)) with ("{"%char :: l).
  cbv iota. change (Ascii.eqb "{"%char DQ) with false. change (Ascii.eqb "{"%char "{"%char) with true. cbv iota.
  assert (Hs : exists l, skip_ws ((members_text i kvs ++ w ++ bytes_of "}") ++ rest) = DQ :: l).
  { destruct kvs as [|[k v] [|kv kvs]]; [done | |]; cbn [members_text]; rewrite <- !app_assoc;
      rewrite skip_ws_app by apply ws_nl; unfold keyj, qwe_json_string; rewrite <- !app_assoc;
      change (skip_ws ([DQ] ++ ?l)) with (DQ :: l); eauto. }
  destruct Hs as [l ->]. unfold DQ at 1. cbv iota. by rewrite Hm.
Qed.

Lemma parses_empty_obj : parses (bytes_of "{}") (JObj []).
Proof. exists 1. intros [|n] rest Hn _; [lia |]. reflexivity. Qed.

(** *** Arrays *)

Fixpoint elements_text (vts : list bytes) : bytes :=
  match vts with
  | [] => []
  | [v] => v
  | v :: vts => v ++ bytes_of "," ++ elements_text vts
  end.

Lemma parses_elements_text vts vs w : vts <> [] -> Forall (fun c => is_ws c = true) w ->
  Forall2 parses vts vs -> parses_elements (elements_text vts ++ w ++ bytes_of "]") vs.
Proof.
  intros Hne Hw H. induction H as [|vt v vts vs [n1 Hv] H IH]; [done |]. clear Hne.
  destruct vts as [|vt' vts].
  - inversion H; subst. exists (S n1). intros [|n] rest Hn; [lia |]. cbn [elements_text parse_elements].
    rewrite <- !app_assoc. rewrite Hv; [| lia | by apply ends_ws]. cbn [mbind option_bind].
    rewrite skip_ws_app by done. reflexivity.
  - destruct IH as [n2 IH]; [done |]. exists (S (n1 + n2)). intros [|n] rest Hn; [lia |].
    cbn [elements_text parse_elements]. cbn [elements_text] in IH. rewrite <- !app_assoc.
    rewrite Hv; [| lia | reflexivity]. cbn [mbind option_bind].
    change (skip_ws (bytes_of "," ++ ?l)) with (","%char :: l). cbv iota.
    specialize (IH n rest ltac:(lia)). rewrite <- !app_assoc in IH. rewrite IH. reflexivity.
Qed.

(** An array of objects, each on a line of its own. *)
Lemma parses_arr vts vs w : vts <> [] -> Forall (fun c => is_ws c = true) w ->
  Forall2 parses vts vs -> (forall vt l, vt ∈ vts -> exists x, skip_ws (vt ++ l) = "{"%char :: x) ->
  parses (bytes_of "[" ++ elements_text vts ++ w ++ bytes_of "]") (JArr vs).
Proof.
  intros Hne Hw H Hobj. destruct (parses_elements_text vts vs w Hne Hw H) as [n0 He].
  exists (S n0). intros [|n] rest Hn _; [lia |]. specialize (He n rest ltac:(lia)).
  rewrite <- app_assoc. cbn [parse_value]. change (skip_ws (bytes_of "[" ++ ?l)) with ("["%char :: l).
  cbv iota. change (Ascii.eqb "["%char DQ) with false. change (Ascii.eqb "["%char "{"%char) with false.
  change (Ascii.eqb "["%char "["%char) with true. cbv iota.
  assert (Hs : exists x, skip_ws ((elements_text vts ++ w ++ bytes_of "]") ++ rest) = "{"%char :: x).
  { destruct vts as [|vt [|vt' vts]]; [done | |]; cbn [elements_text]; rewrite <- !app_assoc; apply Hobj; set_solver. }
  destruct Hs as [x ->]. cbv iota. by rewrite He.
Qed.

Lemma parses_empty_arr : parses (bytes_of "[]") (JArr []).
Proof. exists 1. intros [|n] rest Hn _; [lia |]. reflexivity. Qed.

(** *** The writer *)

Ltac keys := rewrite <- ?key_keyj by (by repeat constructor).

(** What must hold of a step for its result to be written. *)
Definition step_ok (outputs : bytes -> json) (s : qwe_step_result) : Prop :=
  is_Some (sr_outcome s) /\ forall o, sr_outputs_json s = Some o -> parses o (outputs o).

Definition job_ok (outputs : bytes -> json) (j : qwe_job_result) : Prop :=
  is_Some (jr_outcome j) /\ Forall (step_ok outputs) (jr_steps j).

Definition object_text (i : nat) (kvs : list (bytes * bytes)) (w : bytes) : bytes :=
  bytes_of "{" ++ members_text i kvs ++ w ++ bytes_of "}".

Lemma parses_object i kvs ms w : Forall (fun c => is_ws c = true) w -> kvs <> [] ->
  Forall2 (fun kv m => fst kv = fst m /\ parses (snd kv) (snd m)) kvs ms ->
  parses (object_text i kvs w) (JObj ms).
Proof.
  intros Hw Hne H. replace ms with (zip (fst <$> kvs) (snd <$> ms)).
  - apply parses_obj; [done | done |]. clear -H. induction H as [|kv m kvs ms [_ Hp] _ IH]; constructor; done.
  - clear -H. induction H as [|[k t] [k' v] kvs ms [E _] _ IH]; [done |].
    rewrite !fmap_cons. cbn [zip_with fst snd] in *. rewrite E. by f_equal.
Qed.

Lemma parses_bool b : parses (bytes_of (if b : bool then "true" else "false")) (JBool b).
Proof. destruct b; apply parses_word; tauto. Qed.

#[local] Hint Resolve parses_opt parses_str parses_bool parses_time parses_duration : qwe.

Definition step_text (s : qwe_step_result) (oc : string) : bytes :=
  nl 8 ++ object_text 10
    ([(bytes_of "id", put_opt (sr_id s)); (bytes_of "outcome", json_str oc);
      (bytes_of "reason", put_opt (sr_reason s));
      (bytes_of "changed", bytes_of (if sr_changed s then "true" else "false"));
      (bytes_of "started", put_time (sr_started s)); (bytes_of "ended", put_time (sr_ended s));
      (bytes_of "duration_ms", put_duration (sr_duration_ms s))] ++
     match sr_outputs_json s with Some o => [(bytes_of "outputs", o)] | None => [] end) (nl 8).

Lemma write_step_text first s oc : sr_outcome s = Some oc ->
  write_step first s = CRet ((if first then [] else bytes_of ",") ++ step_text s oc).
Proof.
  intros E. unfold write_step, step_text, object_text. rewrite E. cstep. f_equal.
  destruct (sr_outputs_json s); cbn [app members_text]; keys; unfold member;
    rewrite <- ?app_assoc; reflexivity.
Qed.

Lemma parses_step outputs s oc : step_ok outputs s -> sr_outcome s = Some oc ->
  parses (step_text s oc) (step_json outputs s).
Proof.
  intros [_ Ho] E. apply parses_skip; [apply ws_nl |]. unfold step_json. rewrite E.
  apply parses_object; [apply ws_nl | done |].
  destruct (sr_outputs_json s) as [o|]; cbn [app]; repeat constructor; simpl; eauto with qwe.
Qed.

Definition outcome_of (s : qwe_step_result) : string := default "" (sr_outcome s).

Lemma write_steps_text outputs first steps : Forall (step_ok outputs) steps ->
  write_steps first steps = CRet
    match steps with
    | [] => []
    | _ => (if first then [] else bytes_of ",") ++ elements_text ((fun s => step_text s (outcome_of s)) <$> steps)
    end.
Proof.
  intros H. revert first. induction H as [|s steps [[oc Hoc] _] _ IH]; intros first; [done |].
  cbn [write_steps]. rewrite (write_step_text _ _ _ Hoc). cstep. rewrite IH. cstep. f_equal.
  rewrite <- app_assoc. f_equal. unfold outcome_of. destruct steps as [|s' steps]; cbn [fmap list_fmap elements_text];
    rewrite Hoc; simpl default; [by rewrite app_nil_r | done].
Qed.

Definition steps_text (steps : list qwe_step_result) : bytes :=
  match steps with
  | [] => bytes_of "[]"
  | _ => bytes_of "[" ++ elements_text ((fun s => step_text s (outcome_of s)) <$> steps) ++ nl 6 ++ bytes_of "]"
  end.

Lemma parses_steps outputs steps : Forall (step_ok outputs) steps ->
  parses (steps_text steps) (JArr (step_json outputs <$> steps)).
Proof.
  intros H. destruct steps as [|s steps]; [apply parses_empty_arr |]. apply parses_arr; [done | apply ws_nl | |].
  - apply Forall2_fmap. revert H. generalize (s :: steps). intros l. induction 1 as [|x l Hx _ IH]; constructor; [| done].
    apply parses_step; [done |]. destruct Hx as [[oc E] _]. unfold outcome_of. by rewrite E.
  - intros vt l (x & -> & _)%list_elem_of_fmap. unfold step_text, object_text. rewrite <- !app_assoc.
    rewrite skip_ws_app by apply ws_nl. eexists. reflexivity.
Qed.

Definition job_text (j : qwe_job_result) (oc : string) : bytes :=
  object_text 6
    ([(bytes_of "outcome", json_str oc); (bytes_of "reason", put_opt (jr_reason j))] ++
     match jr_detail j with Some d => [(bytes_of "detail", json_str d)] | None => [] end ++
     [(bytes_of "started", put_time (jr_started j)); (bytes_of "ended", put_time (jr_ended j));
      (bytes_of "duration_ms", put_duration (jr_duration_ms j));
      (bytes_of "dropped_bytes", dec (Z.of_N (jr_dropped_bytes j)));
      (bytes_of "steps", steps_text (jr_steps j))]) (nl 4).

Lemma write_job_text outputs first j oc : job_ok outputs j -> jr_outcome j = Some oc ->
  write_job first j = CRet ((if first then [] else bytes_of ",") ++ nl 4 ++ keyj (bytes_of (jr_id j)) ++ job_text j oc).
Proof.
  intros [_ Hs] E. unfold write_job, job_text, object_text, keyj. rewrite E. cstep.
  rewrite (write_steps_text _ _ _ Hs). cstep. f_equal. unfold steps_text, json_str.
  destruct (jr_detail j), (jr_steps j) as [|x steps]; cbn [app members_text length Nat.eqb]; keys; unfold member;
    rewrite <- ?app_assoc; reflexivity.
Qed.

Lemma parses_job outputs j oc : job_ok outputs j -> jr_outcome j = Some oc ->
  parses (job_text j oc) (snd (job_json outputs j)).
Proof.
  intros [_ Hs] E. unfold job_json. rewrite E. cbn [snd].
  apply parses_object; [apply ws_nl | done |].
  destruct (jr_detail j) as [d|]; cbn [app]; repeat constructor; simpl; eauto using parses_steps with qwe;
    try (apply parses_dec; lia); apply (parses_str (bytes_of _)).
Qed.

Definition job_outcome_of (j : qwe_job_result) : string := default "" (jr_outcome j).

Definition job_members (jobs : list qwe_job_result) : list (bytes * bytes) :=
  (fun j => (bytes_of (jr_id j), job_text j (job_outcome_of j))) <$> jobs.

Lemma write_jobs_text outputs first jobs : Forall (job_ok outputs) jobs ->
  write_jobs first jobs = CRet
    match jobs with
    | [] => []
    | _ => (if first then [] else bytes_of ",") ++ members_text 4 (job_members jobs)
    end.
Proof.
  intros H. revert first. induction H as [|j jobs Hj _ IH]; intros first; [done |].
  pose proof Hj as [[oc Hoc] _]. cbn [write_jobs]. rewrite (write_job_text _ _ _ _ Hj Hoc). cstep.
  rewrite IH. cstep. f_equal. unfold job_members, job_outcome_of.
  destruct jobs as [|j' jobs]; cbn [fmap list_fmap members_text]; rewrite Hoc; simpl default;
    rewrite <- ?app_assoc; [by rewrite ?app_nil_r | done].
Qed.

(** ** Properties *)

(** Any string survives the trip through a JSON literal: whatever bytes it
    has, the literal written for it is read back as the same bytes, and ends
    where it should. *)
Theorem json_string_round_trip s rest : 
  parse_value 1 (qwe_json_string s ++ rest) = Some (JStr s, rest).
Proof.
  unfold qwe_json_string. rewrite <- !app_assoc.
  cbn [parse_value]. change (skip_ws ([DQ] ++ ?l)) with (DQ :: l). cbv iota.
  change (Ascii.eqb DQ DQ) with true. cbv iota. change ([DQ] ++ rest) with (DQ :: rest).
  by rewrite parse_chars_ok.
Qed.

(** C36. result.json says what happened: if every job and every step has an
    outcome and the steps' outputs are JSON, the file is one JSON value, which
    reads back as the run's id with, per job, its outcome, reason, times,
    duration, dropped bytes and steps. *)
Theorem result_round_trip failed run_id jobs outputs :
  Forall (job_ok outputs) jobs ->
  exists text n0, qwe_result_write failed run_id jobs = CRet (text, if failed then (-1)%Z else 0%Z) /\
  forall n, n0 <= n -> parse_value n text = Some (result_json outputs run_id jobs, [NL]).
Proof.
  intros H. unfold qwe_result_write. rewrite (write_jobs_text _ _ _ H). cstep.
  assert (Hj : parses (match jobs with [] => bytes_of "{}" | _ => object_text 4 (job_members jobs) (nl 2) end)
    (JObj (job_json outputs <$> jobs))).
  { destruct jobs as [|j jobs]; [apply parses_empty_obj |]. apply parses_object; [apply ws_nl | done |].
    apply Forall2_fmap. revert H. generalize (j :: jobs). intros l. induction 1 as [|x l Hx _ IH]; constructor; [| done].
    split; [done |]. apply parses_job; [done |]. destruct Hx as [[oc E] _]. unfold job_outcome_of. by rewrite E. }
  assert (Hdoc : parses (object_text 2 [(bytes_of "run_id", json_str run_id);
      (bytes_of "jobs", match jobs with [] => bytes_of "{}" | _ => object_text 4 (job_members jobs) (nl 2) end)] (nl 0))
    (result_json outputs run_id jobs)).
  { apply parses_object; [apply ws_nl | done |]. repeat constructor; [apply (parses_str (bytes_of run_id)) | done]. }
  destruct Hdoc as [n0 Hdoc]. do 2 eexists. split; [reflexivity |]. intros n Hn. specialize (Hdoc n [NL] Hn eq_refl).
  rewrite <- Hdoc. f_equal. unfold object_text, member. cbn [members_text]. keys. rewrite <- ?app_assoc.
  destruct jobs as [|j jobs]; [reflexivity |]. cbn [length Nat.eqb]. rewrite <- ?app_assoc. reflexivity.
Qed.

Definition example_result : list qwe_job_result :=
  [JobResult "a" (Some "failed"%string) (Some "exit-code"%string) None 951827696 951827697 1000 0
     [StepResult (Some "s1"%string) (Some "failed"%string) (Some "exit-code"%string) true (Some (bytes_of "{}"))
        951827696 951827697 999 None (Some "run"%string)]].

Lemma result_round_trip_witness :
  exists text n0, qwe_result_write false "r1" example_result = CRet (text, 0%Z) /\
  forall n, n0 <= n -> parse_value n text = Some (result_json (fun _ => JObj []) "r1" example_result, [NL]).
Proof.
  apply (result_round_trip false "r1" example_result (fun _ => JObj [])).
  repeat constructor; [by eexists | by eexists |]. intros o [= <-]. apply parses_empty_obj.
Defined.
