(* ===== verification/Summary.v ===== *)
(** * The run summary

    Models [src/kernel/summary.h] and [src/kernel/summary.c]: the markdown
    report of a run.  The stream is the text written to it.  A log tail is what
    [log_tail] gets from the file (or nothing when it cannot be read); like the
    code, it is used as a C string, so it ends at its first NUL byte.

    The theorems show that no id, name or reason can break a table row, that the
    log tail is the log's last lines, and that its fence cannot be closed from
    inside. *)

From S2P Require Import Prelude Fmt Sink Result.
From Stdlib Require Import Ascii NArith ZArith Lia.
From stdpp Require Import base sets list strings numbers pretty.

(** ** Operations *)

Definition CELL_MAX : nat := 200.
Definition LOG_TAIL_LINES : nat := 20.

Definition raw (l : list nat) : bytes := ascii_of_nat <$> l.

Definition marker (outcome : string) : bytes :=
  if decide (outcome = "success"%string) then raw [226; 156; 133] ++ bytes_of " success"
  else if decide (outcome = "failed"%string) then raw [226; 157; 140] ++ bytes_of " failed"
  else if decide (outcome = "skipped"%string) then raw [226; 143; 173; 239; 184; 143] ++ bytes_of " skipped"
  else if decide (outcome = "cancelled"%string) then raw [226; 143; 185; 239; 184; 143] ++ bytes_of " cancelled"
  else bytes_of outcome.

Definition put_ms (ms : Z) : bytes := if (0 <=? ms)%Z then dec ms else [].

Definition changed_cell (outcome : string) (changed : bool) : bytes :=
  if decide (outcome = "success"%string) then bytes_of (if changed then "changed" else "unchanged") else [].

Definition PIPE : ascii := "|"%char.
Definition ELLIPSIS : bytes := raw [226; 128; 166].

Definition escape_char (c : ascii) : bytes :=
  if decide (c = PIPE) then [BS; PIPE] else if decide (c = NL) then bytes_of " " else [c].

Definition escape_cell (s : bytes) : bytes :=
  let out := s ≫= escape_char in
  if CELL_MAX <? length out then take CELL_MAX out ++ ELLIPSIS else out.

Definition put_cell (s : option string) : bytes := escape_cell (bytes_of (default "" s)).

Definition BACKTICK : ascii := "`"%char.

Fixpoint backtick_run (longest cur : nat) (s : bytes) : nat :=
  match s with
  | [] => longest
  | c :: s =>
      if decide (c = BACKTICK)
      then backtick_run (if longest <? S cur then S cur else longest) (S cur) s
      else backtick_run longest 0 s
  end.

Definition longest_backtick_run (s : bytes) : nat := backtick_run 0 0 s.

(** The walk back over the file's bytes: [start] is an index, [left] the lines
    still wanted. *)
Fixpoint walk_back (buf : bytes) (start left : nat) : nat :=
  match start with
  | 0 => 0
  | S s =>
      if left =? 0 then S s
      else if decide (buf !! s = Some NL)
      then if left - 1 =? 0 then S s else walk_back buf s (left - 1)
      else walk_back buf s left
  end.

(** [file] is the log, [None] if it cannot be opened or read (or no memory). *)
Definition log_tail (file : option bytes) (n : nat) : option bytes :=
  match file with
  | None => None
  | Some buf =>
      let len := length buf in
      let start := if decide (buf !! (len - 1) = Some NL) then len - 1 else len in
      Some (drop (walk_back buf start n) buf)
  end.

(** A buffer used as a C string. *)
Fixpoint cstr (l : bytes) : bytes :=
  match l with
  | [] => []
  | c :: l => if decide (c = "000"%char) then [] else c :: cstr l
  end.

Definition SEP : bytes := bytes_of " | ".

Definition job_row (j : qwe_job_result) (outcome : string) : bytes :=
  bytes_of "| " ++ put_cell (Some (jr_id j)) ++ SEP ++ marker outcome ++ SEP ++
  put_cell (jr_reason j) ++ SEP ++ put_ms (jr_duration_ms j) ++ bytes_of " |" ++ [NL].

Definition step_label (s : qwe_step_result) : option string :=
  match sr_id s with Some i => Some i | None => sr_name s end.

Definition step_row (k : nat) (s : qwe_step_result) (outcome : string) : bytes :=
  bytes_of "| " ++ dec (Z.of_nat (k + 1)) ++ SEP ++ put_cell (step_label s) ++ SEP ++
  put_cell (Some (default "run"%string (sr_plugin s))) ++ SEP ++
  marker outcome ++ SEP ++ changed_cell outcome (sr_changed s) ++ SEP ++
  put_cell (sr_reason s) ++ SEP ++ put_ms (sr_duration_ms s) ++ bytes_of " |" ++ [NL].

(** [strcmp] and [marker] read the outcome: a missing one is [CUndef]. *)
Definition need_outcome (o : option string) : cres string :=
  match o with Some o => mret o | None => CUndef end.

Fixpoint job_rows (jobs : list qwe_job_result) : cres bytes :=
  match jobs with
  | [] => CRet []
  | j :: jobs =>
      o ← need_outcome (jr_outcome j);
      rest ← job_rows jobs;
      mret (job_row j o ++ rest)
  end.

Definition is_failure (outcome : string) : bool :=
  bool_decide (outcome = "failed"%string) || bool_decide (outcome = "cancelled"%string).

Fixpoint step_rows (k : nat) (steps : list qwe_step_result) (has_failure : bool) : cres (bytes * bool) :=
  match steps with
  | [] => CRet ([], has_failure)
  | s :: steps =>
      o ← need_outcome (sr_outcome s);
      '(rest, failed) ← step_rows (S k) steps (has_failure || is_failure o);
      mret (step_row k s o ++ rest, failed)
  end.

Definition fence_len (tail : bytes) : nat :=
  let n := longest_backtick_run tail + 1 in if n <? 3 then 3 else n.

Definition tail_block (tail : bytes) : bytes :=
  bytes_of "<details><summary>log tail</summary>" ++ [NL; NL] ++
  replicate (fence_len tail) BACKTICK ++ [NL] ++ tail ++
  (if decide (last tail = Some NL) then [] else [NL]) ++
  replicate (fence_len tail) BACKTICK ++ [NL; NL] ++ bytes_of "</details>" ++ [NL; NL].

(** [log j] is the job's log file, if it can be read. *)
Definition job_section (log : option bytes) (j : qwe_job_result) : cres bytes :=
  match jr_steps j with
  | [] => mret []
  | _ =>
      '(rows, has_failure) ← step_rows 0 (jr_steps j) false;
      mret (bytes_of "#### " ++ put_cell (Some (jr_id j)) ++ [NL; NL] ++
            bytes_of "| # | id | plugin | outcome | changed | reason | duration (ms) |" ++ [NL] ++
            bytes_of "| --- | --- | --- | --- | --- | --- | --- |" ++ [NL] ++ rows ++ [NL] ++
            (if (has_failure : bool)
             then match cstr <$> log_tail log LOG_TAIL_LINES with
                  | Some (c :: t) => tail_block (c :: t)
                  | _ => []
                  end
             else []))
  end.

Fixpoint job_sections (logs : option (string -> option bytes)) (jobs : list qwe_job_result) : cres bytes :=
  match jobs with
  | [] => CRet []
  | j :: jobs =>
      a ← job_section (match logs with Some f => f (jr_id j) | None => None end) j;
      b ← job_sections logs jobs;
      mret (a ++ b)
  end.

(** [logs] is [None] when [run_dir] is [NULL]; [failed] is the stream's flag. *)
Definition qwe_summary_render (failed : bool) (logs : option (string -> option bytes))
    (workflow_file overall_outcome : string) (run_duration_ms : Z) (jobs : list qwe_job_result) :
    cres (bytes * Z) :=
  rows ← job_rows jobs;
  sections ← job_sections logs jobs;
  mret (bytes_of "### " ++ bytes_of workflow_file ++ bytes_of ": " ++ marker overall_outcome ++
        bytes_of " (" ++ put_ms run_duration_ms ++ bytes_of " ms)" ++ [NL; NL] ++
        bytes_of "| job | outcome | reason | duration (ms) |" ++ [NL] ++
        bytes_of "| --- | --- | --- | --- |" ++ [NL] ++ rows ++ [NL] ++ sections,
        if failed then (-1)%Z else 0%Z).

(** Appends to the file: [opened] is what [fopen] said and [closed] whether
    [fclose] worked. *)
Definition qwe_summary_write (opened failed closed : bool) (file : bytes)
    (logs : option (string -> option bytes)) (workflow_file overall_outcome : string)
    (run_duration_ms : Z) (jobs : list qwe_job_result) : cres (bytes * Z) :=
  if opened
  then
    '(text, rc) ← qwe_summary_render failed logs workflow_file overall_outcome run_duration_ms jobs;
    mret (file ++ text, if closed : bool then rc else (-1)%Z)
  else mret (file, (-1)%Z).

(** ** What the summary promises *)

(** Pipes that a table row would be cut at. *)
Fixpoint bare_pipes (escaped : bool) (l : bytes) : nat :=
  match l with
  | [] => 0
  | c :: l =>
      (if decide (c = PIPE) then if escaped then 0 else 1 else 0) + bare_pipes (bool_decide (c = BS)) l
  end.

Definition newlines (l : bytes) : nat := length (filter (fun c => c = NL) l).

(** Lines of a text, an unfinished last one counted. *)
Definition line_count (l : bytes) : nat :=
  newlines l + match last l with Some c => if decide (c = NL) then 0 else 1 | None => 0 end.

(** ** Lemmas *)

(** A text that cannot be taken for anything but cell content, and does not
    escape what follows a space. *)
Definition cell_safe (l : bytes) : Prop :=
  (NL ∉ l) /\ forall esc rest, bare_pipes esc (l ++ " "%char :: rest) = bare_pipes false rest.

Lemma bare_space esc l : bare_pipes esc (" "%char :: l) = bare_pipes false l.
Proof. by destruct esc. Qed.

Lemma plain_safe l : NL ∉ l -> PIPE ∉ l -> cell_safe l.
Proof.
  intros Hn Hp. split; [done |]. clear Hn. induction l as [|c l IH]; intros esc rest; [apply bare_space |].
  cbn [app bare_pipes]. rewrite decide_False by set_solver. rewrite IH by set_solver. done.
Qed.

(** Bytes that are not the whole of an escape leave no bare pipe either. *)
Lemma escaped_prefix s k esc rest : esc = false \/ esc = true ->
  (forall e, bare_pipes e rest = bare_pipes false rest) ->
  (NL ∉ take k (s ≫= escape_char)) /\
  bare_pipes esc (take k (s ≫= escape_char) ++ rest) = bare_pipes false rest.
Proof.
  intros _ Hrest. revert k esc. induction s as [|c s IH]; intros k esc;
    [destruct k; (split; [set_solver | apply Hrest]) |].
  rewrite bind_cons. destruct (decide (c = PIPE)) as [->|Hp].
  - change (escape_char PIPE) with [BS; PIPE]. destruct k as [|[|k]]; cbn [take firstn app].
    + split; [set_solver | apply Hrest].
    + split; [set_solver |]. cbn [bare_pipes app]. rewrite decide_False by done. apply Hrest.
    + destruct (IH k false) as [H1 H2]. split; [set_solver |].
      cbn [bare_pipes app]. rewrite decide_False, decide_True by done.
      rewrite (bool_decide_eq_true_2 (BS = BS)) by done. exact H2.
  - assert (H : exists x, escape_char c = [x] /\ x <> NL /\ x <> PIPE).
    { unfold escape_char. rewrite decide_False by done.
      destruct (decide (c = NL)); [by exists " "%char | by exists c]. }
    destruct H as (x & -> & Hn & Hx). destruct k as [|k]; cbn [take firstn app]; [split; [set_solver | apply Hrest] |].
    destruct (IH k (bool_decide (x = BS))) as [H1 H2]. split; [set_solver |].
    cbn [bare_pipes]. rewrite decide_False by done. done.
Qed.

Lemma escape_cell_safe s : cell_safe (escape_cell s).
Proof.
  assert (Hell : forall e rest, bare_pipes e (ELLIPSIS ++ " "%char :: rest) = bare_pipes false (ELLIPSIS ++ " "%char :: rest)).
  { intros e rest. by destruct e. }
  unfold escape_cell. destruct (_ <? _).
  - split.
    + destruct (escaped_prefix s CELL_MAX false [] ltac:(auto)) as [H _]; [done |].
      apply not_elem_of_app. split; [done |]. vm_compute. set_solver.
    + intros esc rest. rewrite <- app_assoc.
      destruct (escaped_prefix s CELL_MAX esc (ELLIPSIS ++ " "%char :: rest)) as [_ ->]; [destruct esc; auto | by intros |].
      done.
  - rewrite <- (firstn_all (s ≫= escape_char)). change firstn with (@take ascii). split.
    + by apply (escaped_prefix s _ false []); [auto |].
    + intros esc rest. destruct (escaped_prefix s (length (s ≫= escape_char)) esc (" "%char :: rest)) as [_ ->];
        [destruct esc; auto | intros e; by rewrite !bare_space | apply bare_space].
Qed.

(** A row: cells between separators. *)
Definition row_text (cells : list bytes) : bytes :=
  bytes_of "|" ++ (cells ≫= (fun c => bytes_of " " ++ c ++ bytes_of " |")).

Lemma row_text_ok cells : Forall cell_safe cells ->
  (NL ∉ row_text cells) /\ bare_pipes false (row_text cells) = S (length cells).
Proof.
  intros H. unfold row_text. split.
  - apply not_elem_of_app. split; [vm_compute; set_solver |].
    induction H as [|c cells [Hc _] _ IH]; [set_solver |]. rewrite bind_cons, !not_elem_of_app.
    split_and!; [vm_compute; set_solver | done | vm_compute; set_solver | done].
  - change (bytes_of "|" ++ ?l) with (PIPE :: l). cbn [bare_pipes]. rewrite decide_True by done.
    rewrite bool_decide_eq_false_2 by done. f_equal.
    induction H as [|c cells [_ Hc] _ IH]; [done |]. rewrite bind_cons, <- !app_assoc.
    change (bytes_of " " ++ ?l) with (" "%char :: l). rewrite bare_space.
    change (bytes_of " |" ++ ?l) with (" "%char :: PIPE :: l). rewrite Hc.
    cbn [bare_pipes]. rewrite decide_True by done. rewrite bool_decide_eq_false_2 by done.
    cbn [Nat.add length]. f_equal. exact IH.
Qed.

Lemma dec_no_PIPE n : (0 <= n)%Z -> PIPE ∉ dec n.
Proof.
  intros Hn Hin. destruct (dec_digits (S (Z.to_nat n)) n) as [Hd _]; [lia | |].
  - pose proof (Z.pow_gt_lin_r 10 (Z.of_nat (S (Z.to_nat n)))). lia.
  - unfold digits in Hd. rewrite Forall_forall in Hd. by apply Hd in Hin.
Qed.

Lemma put_ms_safe ms : cell_safe (put_ms ms).
Proof.
  unfold put_ms. destruct (Z.leb_spec 0 ms); [| apply plain_safe; set_solver].
  apply plain_safe; [apply dec_no_NL | by apply dec_no_PIPE].
Qed.

(** The outcomes the lifecycle has names for. *)
Definition known_outcome (o : string) : Prop :=
  o ∈ ["success"; "failed"; "skipped"; "cancelled"]%string.

Lemma marker_safe o : known_outcome o -> cell_safe (marker o).
Proof.
  unfold known_outcome. intros H. set_unfold in H.
  destruct H as [->|[->|[->|[->|[]]]]]; apply plain_safe; vm_compute; set_solver.
Qed.

Lemma changed_safe o c : cell_safe (changed_cell o c).
Proof. unfold changed_cell. case_decide; [destruct c |]; apply plain_safe; vm_compute; set_solver. Qed.

(** *** The log tail *)

Lemma newlines_app a b : newlines (a ++ b) = newlines a + newlines b.
Proof. unfold newlines. by rewrite filter_app, length_app. Qed.

Lemma newlines_one c : newlines [c] = if decide (c = NL) then 1 else 0.
Proof. unfold newlines. cbn [filter list_filter]. by case_decide. Qed.

Lemma walk_back_ok a b left : 0 < left ->
  exists a1 a2, a = a1 ++ a2 /\ walk_back (a ++ b) (length a) left = length a1 /\
  ((a1 = [] /\ newlines a2 < left) \/ (last a1 = Some NL /\ newlines a2 = left - 1)).
Proof.
  revert b left. induction a as [|c a IH] using rev_ind; intros b left Hl.
  - exists [], []. split_and!; [done | done |]. left. split; [done | unfold newlines; simpl; lia].
  - rewrite length_app, Nat.add_1_r. cbn [walk_back]. destruct (Nat.eqb_spec left 0); [lia |].
    rewrite <- app_assoc. rewrite (list_lookup_middle a b c (length a) eq_refl : (a ++ [c] ++ b) !! length a = Some c).
    destruct (decide (Some c = Some NL)) as [E|E].
    + injection E as ->. destruct (Nat.eqb_spec (left - 1) 0) as [E1|E1].
      * exists (a ++ [NL]), []. rewrite app_nil_r, length_app, Nat.add_1_r. split_and!; [done | done |].
        right. rewrite last_snoc. split; [done | unfold newlines; simpl; lia].
      * destruct (IH ([NL] ++ b) (left - 1)) as (a1 & a2 & Ha & Hw & Hc); [lia |].
        exists a1, (a2 ++ [NL]). split; [by rewrite Ha, app_assoc |]. split; [exact Hw |].
        rewrite newlines_app, newlines_one, decide_True by done. destruct Hc as [[-> ?]|[? ?]]; [left; split; [done | lia] | right; split; [done | lia]].
    + destruct (IH ([c] ++ b) left Hl) as (a1 & a2 & Ha & Hw & Hc).
      exists a1, (a2 ++ [c]). split; [by rewrite Ha, app_assoc |]. split; [exact Hw |].
      rewrite newlines_app, newlines_one, decide_False by congruence. rewrite Nat.add_0_r. done.
Qed.

(** *** The fence *)

Lemma backtick_run_mono l longest cur : longest <= backtick_run longest cur l.
Proof.
  revert longest cur. induction l as [|c l IH]; intros longest cur; cbn [backtick_run]; [lia |].
  case_decide; [| apply IH]. destruct (Nat.ltb_spec longest (S cur)); [| apply IH].
  etrans; [| apply IH]. lia.
Qed.

Lemma backtick_run_ge k l longest cur : cur <= longest ->
  cur + k <= backtick_run longest cur (replicate k BACKTICK ++ l).
Proof.
  revert longest cur. induction k as [|k IH]; intros longest cur Hc; cbn [replicate app].
  - rewrite Nat.add_0_r. etrans; [exact Hc |]. apply backtick_run_mono.
  - cbn [backtick_run]. rewrite decide_True by done.
    replace (cur + S k) with (S cur + k) by lia.
    destruct (Nat.ltb_spec longest (S cur)); [apply (IH (S cur) (S cur)); lia | apply IH; lia].
Qed.

Lemma longest_run_ok k a b : k <= longest_backtick_run (a ++ replicate k BACKTICK ++ b).
Proof.
  unfold longest_backtick_run. assert (H : forall longest cur, cur <= longest ->
    k <= backtick_run longest cur (a ++ replicate k BACKTICK ++ b)); [| apply H; lia].
  induction a as [|c a IH]; intros longest cur Hc; cbn [app].
  - pose proof (backtick_run_ge k b longest cur Hc). lia.
  - cbn [backtick_run]. case_decide; [| apply IH; lia].
    destruct (Nat.ltb_spec longest (S cur)); apply IH; lia.
Qed.

(** ** Properties *)

(** C40. No id, name, plugin, reason or duration can break a table: the row of a
    job is one line with exactly the five pipes that bound its four cells, and
    the row of a step one line with the eight pipes of its seven cells. *)
Theorem summary_rows_hold j jo k s so :
  known_outcome jo -> known_outcome so ->
  (exists line, job_row j jo = line ++ [NL] /\ (NL ∉ line) /\ bare_pipes false line = 5) /\
  (exists line, step_row k s so = line ++ [NL] /\ (NL ∉ line) /\ bare_pipes false line = 8).
Proof.
  intros Hj Hs. split.
  - exists (row_text [put_cell (Some (jr_id j)); marker jo; put_cell (jr_reason j); put_ms (jr_duration_ms j)]).
    split; [unfold job_row, row_text; cbn [mbind list_bind]; rewrite <- ?app_assoc, ?app_nil_r; reflexivity |].
    apply row_text_ok. repeat constructor; try apply escape_cell_safe; try apply marker_safe; try apply put_ms_safe; done.
  - exists (row_text [dec (Z.of_nat (k + 1)); put_cell (step_label s);
      put_cell (Some (default "run"%string (sr_plugin s))); marker so; changed_cell so (sr_changed s);
      put_cell (sr_reason s); put_ms (sr_duration_ms s)]).
    split; [unfold step_row, row_text; cbn [mbind list_bind]; rewrite <- ?app_assoc, ?app_nil_r; reflexivity |].
    apply row_text_ok. constructor; [apply plain_safe; [apply dec_no_NL | apply dec_no_PIPE; lia] |].
    constructor; [apply escape_cell_safe |]. constructor; [apply escape_cell_safe |].
    constructor; [by apply marker_safe |]. constructor; [apply changed_safe |].
    constructor; [apply escape_cell_safe |]. constructor; [apply put_ms_safe | constructor].
Qed.

Lemma summary_rows_hold_witness :
  let j := JobResult "a|b" (Some "failed"%string) (Some "x|y"%string) None 1 2 3 0 [] in
  exists line, job_row j "failed" = line ++ [NL] /\ bare_pipes false line = 5.
Proof.
  destruct (summary_rows_hold (JobResult "a|b" (Some "failed"%string) (Some "x|y"%string) None 1 2 3 0 []) "failed" 0
    (StepResult None (Some "success"%string) None true None 0 0 0 None None) "success") as [(line & H & _ & Hb) _].
  - unfold known_outcome. set_solver.
  - unfold known_outcome. set_solver.
  - by exists line.
Defined.

(** The log tail is the log's last lines: a suffix of the file that starts
    at the beginning of a line and has exactly the number of lines asked for, or
    the whole file if that has no more. *)
Theorem log_tail_last_lines buf n : 0 < n ->
  exists p r, log_tail (Some buf) n = Some r /\ buf = p ++ r /\
  ((p = [] /\ line_count r <= n) \/ (last p = Some NL /\ line_count r = n)).
Proof.
  intros Hn. unfold log_tail.
  assert (Hsplit : exists a b, buf = a ++ b /\ (if decide (buf !! (length buf - 1) = Some NL) then length buf - 1 else length buf) = length a /\
    ((b = [NL]) \/ (b = [] /\ last a <> Some NL))).
  { rewrite Nat.sub_1_r, <- last_lookup. destruct (last buf) as [c|] eqn:E.
    - apply last_Some in E as [a ->]. destruct (decide (Some c = Some NL)) as [[= ->]|Hc].
      + exists a, [NL]. rewrite length_app. simpl. split_and!; [done | lia | by left].
      + exists (a ++ [c]), []. rewrite app_nil_r, last_snoc. split_and!; [done | done | by right].
    - apply last_None in E as ->. exists [], []. split_and!; [done | done | by right]. }
  destruct Hsplit as (a & b & Hb & -> & Hcase).
  destruct (walk_back_ok a b n Hn) as (a1 & a2 & Ha & Hw & Hc).
  exists a1, (a2 ++ b). rewrite Hb. rewrite Hw. split.
  { f_equal. rewrite Ha, <- app_assoc. by rewrite drop_app_length. }
  split; [by rewrite Ha, <- app_assoc |].
  assert (Hlc : line_count (a2 ++ b) <= S (newlines a2) /\ (last a1 = Some NL -> line_count (a2 ++ b) = S (newlines a2))).
  { unfold line_count. rewrite newlines_app. destruct Hcase as [->|[-> Hl]].
    - rewrite last_snoc, newlines_one, !decide_True by done. lia.
    - rewrite app_nil_r. change (newlines []) with 0. rewrite !Nat.add_0_r.
      destruct (last a2) as [c|] eqn:E.
      + destruct (decide (c = NL)) as [->|]; [| lia]. destruct Hl. rewrite Ha, last_app, E. done.
      + apply last_None in E as ->. split; [lia |]. intros E. destruct Hl. by rewrite Ha, app_nil_r. }
  destruct Hlc as [H1 H2]. destruct Hc as [[-> Hc]|[Hc1 Hc2]]; [left; split; [done | lia] | right].
  split; [done |]. rewrite H2 by done. lia.
Qed.

Lemma log_tail_last_lines_witness :
  exists p r, log_tail (Some (bytes_of "a" ++ [NL] ++ bytes_of "b" ++ [NL] ++ bytes_of "c")) 2 = Some r /\
  bytes_of "a" ++ [NL] ++ bytes_of "b" ++ [NL] ++ bytes_of "c" = p ++ r /\
  ((p = [] /\ line_count r <= 2) \/ (last p = Some NL /\ line_count r = 2)).
Proof. apply (log_tail_last_lines (bytes_of "a" ++ [NL] ++ bytes_of "b" ++ [NL] ++ bytes_of "c") 2). lia. Defined.

(** A log tail cannot close its own fence: the fence is at least three
    backticks long, and the tail nowhere has as many in a row. *)
Theorem fence_outruns_tail tail :
  3 <= fence_len tail /\ forall a b, tail <> a ++ replicate (fence_len tail) BACKTICK ++ b.
Proof.
  unfold fence_len. split.
  - destruct (Nat.ltb_spec (longest_backtick_run tail + 1) 3); lia.
  - intros a b E. pose proof (longest_run_ok (if longest_backtick_run tail + 1 <? 3 then 3 else longest_backtick_run tail + 1) a b) as H.
    rewrite <- E in H. destruct (Nat.ltb_spec (longest_backtick_run tail + 1) 3); lia.
Qed.
