(* ===== verification/Cbor.v ===== *)
(** * CBOR, as the bundled TinyCBOR writes and reads it

    Models [src/third_party/tinycbor/src/cborencoder.c] and [cborparser.c], as
    far as [luacbor.c] and [transcode.c] call them: an encoder that appends to a
    buffer and remembers when it did not fit, and a parser that has always read
    the head of the next item.  The parser is total on any bytes: it never reads
    outside its buffer and never fails one of its own assertions. *)

From Stdlib Require Import Ascii NArith ZArith Lia.
From stdpp Require Import base list strings numbers.
From S2P Require Import Prelude.

(** ** Bytes and numbers *)

Definition Zb (a : ascii) : Z := Z.of_N (N_of_ascii a).
Definition byte (z : Z) : ascii := ascii_of_N (Z.to_N (z mod 256)).

(** Big endian: [n] bytes of [z], and back. *)
Fixpoint put_be (n : nat) (z : Z) : bytes :=
  match n with
  | 0 => []
  | S n => byte (z / 256 ^ Z.of_nat n) :: put_be n z
  end.

Definition get_be (l : bytes) : Z := foldl (fun acc a => (acc * 256 + Zb a)%Z) 0%Z l.

(** ** Errors *)

Inductive CborError :=
| CborNoError
| CborErrorAdvancePastEOF
| CborErrorUnexpectedEOF
| CborErrorUnexpectedBreak
| CborErrorUnknownType
| CborErrorIllegalType
| CborErrorIllegalNumber
| CborErrorIllegalSimpleType
| CborErrorNoMoreStringChunks
| CborErrorTooManyItems
| CborErrorTooFewItems
| CborErrorDataTooLarge
| CborErrorOutOfMemory.

#[export] Instance CborError_eq_dec : EqDecision CborError.
Proof. solve_decision. Defined.

(** Major types, in the high three bits of an item's first byte. *)
Definition UnsignedInteger : Z := 0.
Definition NegativeInteger : Z := 32.
Definition ByteString : Z := 64.
Definition TextString : Z := 96.
Definition ArrayType : Z := 128.
Definition MapType : Z := 160.
Definition TagType : Z := 192.
Definition SimpleTypes : Z := 224.

Definition BreakByte : Z := 255.

(** ** The encoder *)

(** [en_out]: the bytes from the buffer's start to [data.ptr]; [en_full]: [end]
    is null since something did not fit; [en_cap]: where the buffer ends. *)
Record CborEncoder := Enc {
  en_cap : nat;
  en_out : bytes;
  en_full : bool;
  en_remaining : Z;
  en_unknown : bool;
}.

#[export] Instance CborEncoder_eta : Eta CborEncoder :=
  fun e => Enc (en_cap e) (en_out e) (en_full e) (en_remaining e) (en_unknown e).

Definition cbor_encoder_init (cap : nat) : CborEncoder := Enc cap [] false 2 false.

(** Once full, [bytes_needed] is positive and every append fails. *)
Definition append_to_buffer (e : CborEncoder) (data : bytes) : CborEncoder * CborError :=
  if en_full e then (e, CborErrorOutOfMemory)
  else if en_cap e <? length (en_out e) + length data then (e <| en_full := true |>, CborErrorOutOfMemory)
  else (e <| en_out := en_out e ++ data |>, CborNoError).

(** The head of an item: its major type and a number, as short as it can be. *)
Definition head (ui shifted : Z) : bytes :=
  if (ui <? 24)%Z then [byte (shifted + ui)]
  else if (ui <=? 255)%Z then byte (shifted + 24) :: put_be 1 ui
  else if (ui <=? 65535)%Z then byte (shifted + 25) :: put_be 2 ui
  else if (ui <=? 4294967295)%Z then byte (shifted + 26) :: put_be 4 ui
  else byte (shifted + 27) :: put_be 8 ui.

Definition encode_number_no_update (e : CborEncoder) (ui shifted : Z) : CborEncoder * CborError :=
  append_to_buffer e (head ui shifted).

Definition saturated_decrement (e : CborEncoder) : CborEncoder :=
  e <| en_remaining := if (en_remaining e =? 0)%Z then 0%Z else (en_remaining e - 1)%Z |>.

Definition encode_number (e : CborEncoder) (ui shifted : Z) : CborEncoder * CborError :=
  encode_number_no_update (saturated_decrement e) ui shifted.

(** [value >> 63] spreads the sign; a negative number is complemented. *)
Definition cbor_encode_int (e : CborEncoder) (value : Z) : CborEncoder * CborError :=
  if (value <? 0)%Z then encode_number e (- value - 1) NegativeInteger
  else encode_number e value UnsignedInteger.

Definition cbor_encode_boolean (e : CborEncoder) (b : bool) : CborEncoder * CborError :=
  encode_number e (if b then 21 else 20)%Z SimpleTypes.

Definition cbor_encode_null (e : CborEncoder) : CborEncoder * CborError := encode_number e 22 SimpleTypes.

(** [bits]: the 64 bits of the double. *)
Definition cbor_encode_double (e : CborEncoder) (bits : Z) : CborEncoder * CborError :=
  append_to_buffer (saturated_decrement e) (byte 251 :: put_be 8 bits).

Definition cbor_encode_tag (e : CborEncoder) (tag : Z) : CborEncoder * CborError :=
  encode_number_no_update e tag TagType.

(** The only error of the head is that it does not fit; then nothing else does. *)
Definition encode_string (e : CborEncoder) (s : bytes) (shifted : Z) : CborEncoder * CborError :=
  let '(e, _) := encode_number e (Z.of_nat (length s)) shifted in append_to_buffer e s.

Definition cbor_encode_text_string (e : CborEncoder) (s : bytes) : CborEncoder * CborError :=
  encode_string e s TextString.

(** [length]: [None] for an indefinite one.  The new encoder goes on where the
    old one is; [remaining] is a [size_t]. *)
Definition create_container (e : CborEncoder) (length : option nat) (shifted : Z) :
    CborEncoder * CborEncoder * CborError :=
  let parent := saturated_decrement e in
  match length with
  | None =>
      let '(inner, err) := append_to_buffer (e <| en_remaining := 0%Z |> <| en_unknown := true |>) [byte (shifted + 31)] in
      (parent, inner, err)
  | Some n =>
      let remaining := (Z.of_nat n + 1 + if (shifted =? MapType)%Z then Z.of_nat n else 0)%Z in
      let '(inner, err) := encode_number_no_update
        (e <| en_remaining := (remaining mod 2 ^ 64)%Z |> <| en_unknown := false |>) (Z.of_nat n) shifted in
      (parent, inner, err)
  end.

Definition cbor_encoder_close_container (parent inner : CborEncoder) : CborEncoder * CborError :=
  let parent := parent <| en_out := en_out inner |> <| en_full := en_full inner |> in
  if en_unknown inner then append_to_buffer parent [byte BreakByte]
  else if negb (en_remaining inner =? 1)%Z
  then (parent, if (en_remaining inner =? 0)%Z then CborErrorTooManyItems else CborErrorTooFewItems)
  else (parent, if en_full parent then CborErrorOutOfMemory else CborNoError).

(** ** The parser *)

Definition CborIntegerType : Z := 0.
Definition CborByteStringType : Z := 64.
Definition CborTextStringType : Z := 96.
Definition CborArrayType : Z := 128.
Definition CborMapType : Z := 160.
Definition CborTagType : Z := 192.
Definition CborSimpleType : Z := 224.
Definition CborBooleanType : Z := 245.
Definition CborNullType : Z := 246.
Definition CborUndefinedType : Z := 247.
Definition CborHalfFloatType : Z := 249.
Definition CborFloatType : Z := 250.
Definition CborDoubleType : Z := 251.
Definition CborInvalidType : Z := 255.

Definition UINT32_MAX : Z := 4294967295.

(** The flags of an iterator.  (The bit that marks a negative integer marks the
    first chunk of a string while its chunks are read.) *)
Record cflags := CFlags {
  f_64 : bool;
  f_large : bool;
  f_neg : bool;
  f_chunks : bool;
  f_unknown : bool;
  f_map : bool;
  f_key : bool;
}.

(** [cv_rest]: the bytes from [source.ptr] to the end of the buffer. *)
Record CborValue := CV {
  cv_rest : bytes;
  cv_remaining : Z;
  cv_extra : Z;
  cv_type : Z;
  cv_flags : cflags;
}.

#[export] Instance cflags_eta : Eta cflags :=
  fun f => CFlags (f_64 f) (f_large f) (f_neg f) (f_chunks f) (f_unknown f) (f_map f) (f_key f).
#[export] Instance CborValue_eta : Eta CborValue :=
  fun v => CV (cv_rest v) (cv_remaining v) (cv_extra v) (cv_type v) (cv_flags v).

(** What a call of the parser gives: an error, or a result. *)
Definition parsed (A : Type) : Type := cres (CborError + A).

Definition pret {A} (a : A) : parsed A := CRet (inr a).
Definition perr {A} (e : CborError) : parsed A := CRet (inl e).
Definition pbind {A B} (m : parsed A) (k : A -> parsed B) : parsed B :=
  cbind m (fun r => match r with inl e => CRet (inl e) | inr a => k a end).

Notation "x <-- m ; k" := (pbind m (fun x => k)) (at level 100, m at next level, right associativity).

(** [cbor_assert]. *)
Definition passert {A} (b : bool) (k : parsed A) : parsed A := if b then k else CUndef.

Definition can_read_bytes (v : CborValue) (n : nat) : bool := n <=? length (cv_rest v).

(** [read_bytes_unchecked(it, dst, offset, n)], as a number. *)
Definition read_unchecked (v : CborValue) (offset n : nat) : cres Z :=
  if offset + n <=? length (cv_rest v) then CRet (get_be (take n (drop offset (cv_rest v)))) else CUndef.

(** A pointer past the end is undefined. *)
Definition advance_bytes (v : CborValue) (n : nat) : cres CborValue :=
  if n <=? length (cv_rest v) then CRet (v <| cv_rest := drop n (cv_rest v) |>) else CUndef.

Definition plift {A} (m : cres A) : parsed A := cbind m (fun a => CRet (inr a)).

(** How many bytes follow the first for the number. *)
Definition bytes_needed (descriptor : Z) : nat :=
  if (descriptor <? 24)%Z then 0 else Z.to_nat (2 ^ (descriptor - 24)).

Definition is_fixed_type (type : Z) : bool :=
  negb ((type =? CborTextStringType) || (type =? CborByteStringType) || (type =? CborArrayType) || (type =? CborMapType))%Z.

(** What [preparse_value] makes of an item whose number is read. *)
Definition preparse_type (v : CborValue) (type descriptor : Z) : parsed CborValue :=
  if (type =? NegativeInteger)%Z
  then pret (v <| cv_flags := (cv_flags v) <| f_neg := true |> |> <| cv_type := CborIntegerType |>)
  else if (type =? SimpleTypes)%Z then
    if (descriptor =? 20)%Z then pret (v <| cv_extra := 0%Z |> <| cv_type := CborBooleanType |>)
    else if ((descriptor =? 26) || (descriptor =? 27))%Z
    then b <-- plift (read_unchecked v 0 1);
         pret (v <| cv_flags := (cv_flags v) <| f_large := true |> |> <| cv_type := b |>)
    else if ((descriptor =? 21) || (descriptor =? 22) || (descriptor =? 23) || (descriptor =? 25))%Z
    then b <-- plift (read_unchecked v 0 1); pret (v <| cv_type := b |>)
    else if (descriptor =? 24)%Z
    then if (cv_extra v <? 32)%Z then perr CborErrorIllegalSimpleType else pret v
    else pret v
  else pret v.

Definition preparse_value (v : CborValue) : parsed CborValue :=
  let v := v <| cv_type := CborInvalidType |>
             <| cv_flags := CFlags false false false false false (f_map (cv_flags v)) (f_key (cv_flags v)) |> in
  if negb (can_read_bytes v 1) then perr CborErrorUnexpectedEOF
  else
    b <-- plift (read_unchecked v 0 1);
    let type := (Z.land b 224)%Z in
    let descriptor := (Z.land b 31)%Z in
    let v := v <| cv_type := type |> <| cv_extra := descriptor |> in
    if (27 <? descriptor)%Z then
      if negb (descriptor =? 31)%Z
      then perr (if (type =? CborSimpleType)%Z then CborErrorUnknownType else CborErrorIllegalNumber)
      else if negb (is_fixed_type type) then pret (v <| cv_flags := (cv_flags v) <| f_unknown := true |> |>)
      else perr (if (type =? CborSimpleType)%Z then CborErrorUnexpectedBreak else CborErrorIllegalNumber)
    else
      let n := bytes_needed descriptor in
      if n =? 0 then preparse_type v type descriptor
      else if negb (can_read_bytes v (n + 1)) then perr CborErrorUnexpectedEOF
      else if n <=? 2
      then extra <-- plift (read_unchecked v 1 n);
           preparse_type (v <| cv_extra := extra |>) type descriptor
      else preparse_type
             (v <| cv_extra := 0%Z |>
                <| cv_flags := (cv_flags v) <| f_large := true |> <| f_64 := (descriptor =? 27)%Z |> |>) type descriptor.

Definition preparse_next_value_nodecrement (v : CborValue) : parsed CborValue :=
  let brk := match cv_rest v with a :: _ => (Zb a =? BreakByte)%Z | [] => false end in
  if ((cv_remaining v =? UINT32_MAX)%Z && brk)
  then
    if (f_map (cv_flags v) && f_key (cv_flags v)) || (cv_type v =? CborTagType)%Z then perr CborErrorUnexpectedBreak
    else pret (v <| cv_type := CborInvalidType |> <| cv_remaining := 0%Z |>
                 <| cv_flags := (cv_flags v) <| f_unknown := true |> |>)
  else preparse_value v.

Definition preparse_next_value (v : CborValue) : parsed CborValue :=
  let counts := negb (cv_type v =? CborTagType)%Z in
  let dec := (negb (cv_remaining v =? UINT32_MAX) && counts)%Z in
  let v := if dec then v <| cv_remaining := ((cv_remaining v - 1) mod 2 ^ 32)%Z |> else v in
  if dec && (cv_remaining v =? 0)%Z
  then pret (v <| cv_type := CborInvalidType |> <| cv_flags := (cv_flags v) <| f_unknown := false |> |>)
  else
    preparse_next_value_nodecrement
      (if counts then v <| cv_flags := (cv_flags v) <| f_key := negb (f_key (cv_flags v)) |> |> else v).

(** [_cbor_value_extract_int64_helper]. *)
Definition extract_int64 (v : CborValue) : cres Z :=
  if f_large (cv_flags v) then read_unchecked v 1 (if f_64 (cv_flags v) then 8 else 4) else CRet (cv_extra v).

Definition extract_number_and_advance (v : CborValue) : cres (Z * CborValue) :=
  n ← extract_int64 v;
  b ← read_unchecked v 0 1;
  let descriptor := (Z.land b 31)%Z in
  v ← advance_bytes v (bytes_needed descriptor + 1);
  mret (n, v).

Definition advance_internal (v : CborValue) : parsed CborValue :=
  r <-- plift (extract_number_and_advance v);
  let '(n, v) := r in
  if ((cv_type v =? CborByteStringType) || (cv_type v =? CborTextStringType))%Z
  then passert (negb (f_unknown (cv_flags v)))
         (v <-- plift (advance_bytes v (Z.to_nat n)); preparse_next_value v)
  else preparse_next_value v.

Definition cbor_parser_init (buf : bytes) : parsed CborValue :=
  preparse_value (CV buf 1 0 0 (CFlags false false false false false false false)).

Definition cbor_value_advance_fixed (v : CborValue) : parsed CborValue :=
  passert (negb (cv_type v =? CborInvalidType)%Z && is_fixed_type (cv_type v))
    (if (cv_remaining v =? 0)%Z then perr CborErrorAdvancePastEOF else advance_internal v).

Definition cbor_value_get_tag (v : CborValue) : cres Z :=
  if (cv_type v =? CborTagType)%Z then extract_int64 v else CUndef.

(** [while (cbor_value_is_tag(it))]: at most one tag for each byte left. *)
Fixpoint skip_tags (fuel : nat) (v : CborValue) : parsed CborValue :=
  if (cv_type v =? CborTagType)%Z then
    match fuel with
    | 0 => CFuel
    | S fuel => v <-- cbor_value_advance_fixed v; skip_tags fuel v
    end
  else pret v.

Definition cbor_value_skip_tag (v : CborValue) : parsed CborValue := skip_tags (length (cv_rest v)) v.

Definition is_container (type : Z) : bool := ((type =? CborArrayType) || (type =? CborMapType))%Z.

Definition cbor_value_at_end (v : CborValue) : bool := (cv_remaining v =? 0)%Z.

Definition cbor_value_enter_container (v : CborValue) : parsed CborValue :=
  passert (is_container (cv_type v))
  (let enter v := preparse_next_value_nodecrement
     (v <| cv_flags := CFlags false false false false false (cv_type v =? CborMapType)%Z false |>) in
   if f_unknown (cv_flags v)
   then v <-- plift (advance_bytes v 1); enter (v <| cv_remaining := UINT32_MAX |>)
   else
     r <-- plift (extract_number_and_advance v);
     let '(len, v) := r in
     if ((4294967295 <? len) || (len =? UINT32_MAX))%Z then perr CborErrorDataTooLarge
     else
       let map := (cv_type v =? CborMapType)%Z in
       if map && (UINT32_MAX / 2 <? len)%Z then perr CborErrorDataTooLarge
       else
         let v := v <| cv_remaining := if map then (len * 2)%Z else len |> in
         if (len =? 0)%Z then pret (v <| cv_type := CborInvalidType |>) else enter v).

Definition cbor_value_leave_container (v inner : CborValue) : parsed CborValue :=
  passert (is_container (cv_type v) && (cv_type inner =? CborInvalidType)%Z)
  (v <-- plift (if f_unknown (cv_flags inner) then advance_bytes (v <| cv_rest := cv_rest inner |>) 1
                else CRet (v <| cv_rest := cv_rest inner |>));
   preparse_next_value v).

Definition cbor_value_get_int64_checked (v : CborValue) : parsed Z :=
  passert (cv_type v =? CborIntegerType)%Z
  (n <-- plift (extract_int64 v);
   if (2 ^ 63 - 1 <? n)%Z then perr CborErrorDataTooLarge
   else pret (if f_neg (cv_flags v) then (- n - 1)%Z else n)).

Definition cbor_value_get_boolean (v : CborValue) : cres bool :=
  if (cv_type v =? CborBooleanType)%Z then CRet (negb (cv_extra v =? 0)%Z) else CUndef.

(** The bits of the number. *)
Definition cbor_value_get_float (v : CborValue) : cres Z :=
  if ((cv_type v =? CborFloatType)%Z && f_large (cv_flags v)) then extract_int64 v else CUndef.
Definition cbor_value_get_double (v : CborValue) : cres Z :=
  if ((cv_type v =? CborDoubleType)%Z && f_large (cv_flags v)) then extract_int64 v else CUndef.

(** *** Strings, in one piece or in chunks *)

Definition begin_string_iteration (v : CborValue) : cres CborValue :=
  let v := v <| cv_flags := (cv_flags v) <| f_neg := true |> <| f_chunks := true |> |> in
  if f_unknown (cv_flags v) then advance_bytes v 1 else mret v.

Definition finish_string_iteration (v : CborValue) : parsed CborValue :=
  v <-- plift (if f_unknown (cv_flags v) then advance_bytes v 1 else mret v);
  preparse_next_value v.

(** The offset of the chunk and its length. *)
Definition get_string_chunk_size (v : CborValue) : parsed (nat * Z) :=
  if negb (f_unknown (cv_flags v)) && negb (f_neg (cv_flags v)) then perr CborErrorNoMoreStringChunks
  else if negb (can_read_bytes v 1) then perr CborErrorUnexpectedEOF
  else
    b <-- plift (read_unchecked v 0 1);
    if (b =? BreakByte)%Z then perr CborErrorNoMoreStringChunks
    else if negb (Z.land b 224 =? cv_type v)%Z then perr CborErrorIllegalType
    else
      let descriptor := (Z.land b 31)%Z in
      if (descriptor <? 24)%Z then pret (1, descriptor)
      else if (27 <? descriptor)%Z then perr CborErrorIllegalNumber
      else
        let n := bytes_needed descriptor in
        if negb (can_read_bytes v (1 + n)) then perr CborErrorUnexpectedEOF
        else val <-- plift (read_unchecked v 1 n); pret (n + 1, val).

Definition get_string_chunk (v : CborValue) : parsed (bytes * CborValue) :=
  r <-- get_string_chunk_size v;
  let '(offset, len) := r in
  v <-- plift (advance_bytes v offset);
  if (len <=? Z.of_nat (length (cv_rest v)))%Z
  then pret (take (Z.to_nat len) (cv_rest v),
             (v <| cv_rest := drop (Z.to_nat len) (cv_rest v) |>) <| cv_flags := (cv_flags v) <| f_neg := false |> |>)
  else perr CborErrorUnexpectedEOF.

(** The loop over the chunks: each has a byte at least, but for the end. *)
Fixpoint string_chunks (fuel : nat) (v : CborValue) (text : bytes) : parsed (bytes * CborValue) :=
  match fuel with
  | 0 => CFuel
  | S fuel =>
      cbind (get_string_chunk v) (fun r =>
      match r with
      | inl CborErrorNoMoreStringChunks => pret (text, v)
      | inl e => perr e
      | inr (chunk, v) => string_chunks fuel v (text ++ chunk)
      end)
  end.

(** [_cbor_value_copy_string] with room for all of it. *)
Definition iterate_string_chunks (v : CborValue) : parsed (bytes * CborValue) :=
  passert ((cv_type v =? CborByteStringType) || (cv_type v =? CborTextStringType))%Z
  (v <-- plift (begin_string_iteration v);
   r <-- string_chunks (S (S (length (cv_rest v)))) v [];
   let '(text, v) := r in
   v <-- finish_string_iteration v;
   pret (text, v)).
