(* ===== verification/Positions.v ===== *)
(** * The position table

    Models [src/edge/yaml/positions.c]: from the JSON Pointer of every node of a
    YAML document to where it stands in the source.  The transcoder fills the
    table in document order; [qwe_positions_finish] sorts it, and the validator
    looks pointers up in it.  [bsearch] halves an interval, as in glibc;
    allocations answer as in [Redact]. *)

From Stdlib Require Import Ascii String NArith ZArith Lia.
From stdpp Require Import base sets list sorting.
From S2P Require Import Prelude Cstr Redact.

(** 1-based. *)
Record qwe_pos := Pos { p_line : Z; p_col : Z }.

#[export] Instance qwe_pos_eq_dec : EqDecision qwe_pos.
Proof. solve_decision. Defined.

(** [has_key] and [has_value] say whether there is a position. *)
Record entry := Entry { e_pointer : bytes; e_key : option qwe_pos; e_value : option qwe_pos }.

#[export] Instance entry_eta : Eta entry := fun e => Entry (e_pointer e) (e_key e) (e_value e).

(** [ps_cap]: how many entries there is room for. *)
Record qwe_positions := Positions { ps_e : list entry; ps_cap : nat }.

#[export] Instance qwe_positions_eta : Eta qwe_positions := fun p => Positions (ps_e p) (ps_cap p).

Definition qwe_positions_new : qwe_positions := Positions [] 0.

Definition qwe_positions_count (p : qwe_positions) : nat := length (ps_e p).

(** The index of the new entry, or -1.  The pointer is copied as [len] bytes and
    read as a C string ever after. *)
Definition qwe_positions_add (mem : list bool) (p : qwe_positions) (pointer : bytes) (key value : option qwe_pos) :
    list bool * qwe_positions * Z :=
  let full := length (ps_e p) =? ps_cap p in
  let '(ok, mem) := if full then alloc mem else (true, mem) in
  if negb ok then (mem, p, (-1)%Z)
  else
    let p := if full then p <| ps_cap := if ps_cap p =? 0 then 64 else ps_cap p * 2 |> else p in
    let '(ok, mem) := alloc mem in
    if negb ok then (mem, p, (-1)%Z)
    else (mem, p <| ps_e := ps_e p ++ [Entry (cstr pointer) key value] |>, Z.of_nat (length (ps_e p))).

Definition qwe_positions_set_value (p : qwe_positions) (index : Z) (value : qwe_pos) : cres qwe_positions :=
  if (index <? 0)%Z then CUndef
  else
    e ← cread (ps_e p) (Z.to_nat index);
    l ← cwrite (ps_e p) (Z.to_nat index) (e <| e_value := Some value |>);
    mret (p <| ps_e := l |>).

Definition cmp_pos (x y : qwe_pos) : comparison :=
  if negb (p_line x =? p_line y)%Z then if (p_line x <? p_line y)%Z then Lt else Gt
  else if negb (p_col x =? p_col y)%Z then if (p_col x <? p_col y)%Z then Lt else Gt
  else Eq.

Definition cmp (x y : entry) : comparison :=
  match strcmp (e_pointer x) (e_pointer y), e_key x, e_key y with
  | Eq, Some k, Some k' => cmp_pos k k'
  | c, _, _ => c
  end.

Definition cmp_le (x y : entry) : Prop := cmp x y <> Gt.

#[export] Instance cmp_le_dec : RelDecision cmp_le.
Proof. intros x y. unfold cmp_le. destruct (cmp x y); [left | left | right]; congruence. Defined.

Definition qwe_positions_finish (p : qwe_positions) : qwe_positions := p <| ps_e := qsort cmp_le (ps_e p) |>.

(** The calls of [fn], in order; [first] is the first entry of its pointer. *)
Fixpoint duplicates_from (first : entry) (rest : list entry) : list (bytes * qwe_pos * qwe_pos) :=
  match rest with
  | [] => []
  | e :: rest =>
      if strcmp (e_pointer e) (e_pointer first) is Eq then
        match e_key first, e_key e with
        | Some k, Some k' => (e_pointer e, k, k') :: duplicates_from first rest
        | _, _ => duplicates_from first rest
        end
      else duplicates_from e rest
  end.

Definition qwe_positions_duplicates (p : qwe_positions) : list (bytes * qwe_pos * qwe_pos) :=
  match ps_e p with
  | [] => []
  | e :: rest => duplicates_from e rest
  end.

(** [bsearch] between [lo] and [hi]; each round at least halves the interval. *)
Fixpoint bsearch (fuel : nat) (key : bytes) (l : list entry) (lo hi : nat) : cres (option entry) :=
  if lo <? hi then
    match fuel with
    | 0 => CFuel
    | S fuel =>
        let idx := (lo + hi) / 2 in
        e ← cread l idx;
        match strcmp key (e_pointer e) with
        | Lt => bsearch fuel key l lo idx
        | Gt => bsearch fuel key l (idx + 1) hi
        | Eq => mret (Some e)
        end
    end
  else mret None.

Definition find (p : qwe_positions) (pointer : bytes) : cres (option entry) :=
  bsearch (length (ps_e p)) pointer (ps_e p) 0 (length (ps_e p)).

(** [Some pos]: 0 and [*out]; [None]: -1. *)
Definition qwe_positions_value (p : qwe_positions) (pointer : bytes) : cres (option qwe_pos) :=
  e ← find p pointer; mret (e ≫= e_value).

Definition qwe_positions_key (p : qwe_positions) (pointer : bytes) : cres (option qwe_pos) :=
  e ← find p pointer; mret (e ≫= e_key).

(** ** Order *)

Definition pos_le (x y : qwe_pos) : Prop := (p_line x < p_line y)%Z \/ p_line x = p_line y /\ (p_col x <= p_col y)%Z.

#[export] Instance pos_le_dec : RelDecision pos_le.
Proof. intros x y. unfold pos_le. apply _. Defined.

#[export] Instance pos_le_total : Total pos_le.
Proof. intros x y. unfold pos_le. lia. Qed.

#[export] Instance pos_le_trans : Transitive pos_le.
Proof. intros x y z. unfold pos_le. lia. Qed.

#[export] Instance pos_le_anti : AntiSymm (=) pos_le.
Proof. intros [l c] [l' c']. unfold pos_le. cbn. intros. f_equal; lia. Qed.

Lemma cmp_pos_spec x y : match cmp_pos x y with Lt => pos_le x y /\ x <> y | Eq => x = y | Gt => pos_le y x /\ x <> y end.
Proof.
  destruct x as [l c], y as [l' c']. unfold cmp_pos, pos_le. cbn.
  destruct (Z.eqb_spec l l'), (Z.eqb_spec c c'), (Z.ltb_spec l l'), (Z.ltb_spec c c'); cbn; subst; try done;
    (split; [lia | intros [=]; lia]).
Qed.

Lemma cmp_pos_antisym x y : cmp_pos y x = CompOpp (cmp_pos x y).
Proof.
  unfold cmp_pos. destruct (Z.eqb_spec (p_line x) (p_line y)), (Z.eqb_spec (p_line y) (p_line x)); cbn; try lia.
  - destruct (Z.eqb_spec (p_col x) (p_col y)), (Z.eqb_spec (p_col y) (p_col x)); cbn; try lia; [done |].
    destruct (Z.ltb_spec (p_col x) (p_col y)), (Z.ltb_spec (p_col y) (p_col x)); try lia; done.
  - destruct (Z.ltb_spec (p_line x) (p_line y)), (Z.ltb_spec (p_line y) (p_line x)); try lia; done.
Qed.

Lemma cmp_antisym x y : cmp y x = CompOpp (cmp x y).
Proof.
  unfold cmp. rewrite (strcmp_antisym (e_pointer x) (e_pointer y)).
  destruct (strcmp _ _), (e_key x), (e_key y); cbn; try done. apply cmp_pos_antisym.
Qed.

#[export] Instance cmp_le_total : Total cmp_le.
Proof. intros x y. unfold cmp_le. rewrite (cmp_antisym x y). destruct (cmp x y); cbn; [by left | by left | by right]. Qed.

Definition ptr_le (x y : entry) : Prop := key_cmp (e_pointer x) (e_pointer y).

#[export] Instance ptr_le_trans : Transitive ptr_le.
Proof. intros x y z. apply key_cmp_trans. Qed.

Lemma cmp_le_ptr x y : cmp_le x y -> ptr_le x y.
Proof.
  unfold cmp_le, cmp, ptr_le, key_cmp, strcmp_le. by destruct (strcmp _ _).
Qed.

Lemma Sorted_weaken {A} (R R' : relation A) l : (forall x y, R x y -> R' x y) -> Sorted R l -> Sorted R' l.
Proof. intros HR. induction 1 as [|x l _ IH Hh]; constructor; [done |]. destruct Hh; constructor. auto. Qed.

Lemma finish_sorted p : StronglySorted ptr_le (ps_e (qwe_positions_finish p)).
Proof.
  apply Sorted_StronglySorted; [apply _ |]. eapply Sorted_weaken; [apply cmp_le_ptr |]. apply Sorted_qsort. apply _.
Qed.

Lemma finish_perm p : ps_e (qwe_positions_finish p) ≡ₚ ps_e p.
Proof. apply qsort_Permutation. Qed.

(** ** Lookup *)

Lemma sorted_lookup l i j x y : StronglySorted ptr_le l -> i < j -> l !! i = Some x -> l !! j = Some y -> ptr_le x y.
Proof.
  intros Hs. revert i j. induction Hs as [|z l _ IH Hz]; intros [|i] [|j] Hij; cbn; try done; try lia.
  - intros [= ->] Hy. rewrite Forall_forall in Hz. by apply Hz, list_elem_of_lookup_2 with j.
  - apply IH. lia.
Qed.

Lemma bsearch_ok key l lo hi fuel : StronglySorted ptr_le l -> hi <= length l -> hi - lo <= fuel ->
  (forall i e, l !! i = Some e -> e_pointer e = key -> lo <= i < hi) ->
  exists r, bsearch fuel key l lo hi = CRet r /\
    match r with
    | Some e => e ∈ l /\ e_pointer e = key
    | None => forall e, e ∈ l -> e_pointer e <> key
    end.
Proof.
  intros Hs. revert lo hi. induction fuel as [|fuel IH]; intros lo hi Hhi Hfuel Hin; cbn [bsearch];
    destruct (Nat.ltb_spec lo hi) as [Hlt|Hge]; try lia.
  1, 3: exists None; split; [done |]; intros e [i Hi]%list_elem_of_lookup He; specialize (Hin i e Hi He); lia.
  assert (Hm : lo <= (lo + hi) / 2 < hi) by (split; [apply Nat.div_le_lower_bound | apply Nat.Div0.div_lt_upper_bound]; lia).
  set (m := (lo + hi) / 2) in *. destruct (lookup_lt_is_Some_2 l m ltac:(lia)) as [e He].
  rewrite (cread_Some _ _ _ He). cstep. destruct (strcmp key (e_pointer e)) eqn:Hc.
  - exists (Some e). apply strcmp_eq in Hc. split_and!; [done | by apply list_elem_of_lookup_2 with m | done].
  - apply IH; [lia | lia |]. intros i e' Hi He'. specialize (Hin i e' Hi He').
    assert (~ m <= i); [| lia]. intros Hle. destruct (decide (m = i)) as [->|Hn].
    + simplify_eq. by rewrite strcmp_refl in Hc.
    + pose proof (sorted_lookup l m i e e' Hs ltac:(lia) He Hi) as Ho. unfold ptr_le, key_cmp, strcmp_le in Ho.
      rewrite He', (strcmp_antisym key), Hc in Ho. done.
  - apply IH; [lia | lia |]. intros i e' Hi He'. specialize (Hin i e' Hi He').
    assert (~ i <= m); [| lia]. intros Hle. destruct (decide (m = i)) as [->|Hn].
    + simplify_eq. by rewrite strcmp_refl in Hc.
    + pose proof (sorted_lookup l i m e' e Hs ltac:(lia) Hi He) as Ho. unfold ptr_le, key_cmp, strcmp_le in Ho.
      by rewrite He', Hc in Ho.
Qed.

Lemma find_ok p pointer : exists r, find (qwe_positions_finish p) pointer = CRet r /\
  match r with
  | Some e => e ∈ ps_e p /\ e_pointer e = pointer
  | None => forall e, e ∈ ps_e p -> e_pointer e <> pointer
  end.
Proof.
  unfold find. destruct (bsearch_ok pointer (ps_e (qwe_positions_finish p)) 0 (length (ps_e (qwe_positions_finish p)))
    (length (ps_e (qwe_positions_finish p)))) as (r & E & Hr); [apply finish_sorted | lia | lia | |].
  - intros i e Hi%lookup_lt_Some _. lia.
  - exists r. split; [exact E |]. destruct r as [e|]; [by rewrite finish_perm in Hr |].
    intros e He. apply Hr. by rewrite finish_perm.
Qed.

(** What the tables of a document have: one entry, at most, per pointer and
    position. *)
Lemma find_unique p e : (forall e', e' ∈ ps_e p -> e_pointer e' = e_pointer e -> e' = e) -> e ∈ ps_e p ->
  find (qwe_positions_finish p) (e_pointer e) = CRet (Some e).
Proof.
  intros Hu He. destruct (find_ok p (e_pointer e)) as ([e'|] & E & Hr).
  - destruct Hr as [Hin Hp]. by rewrite E, (Hu e' Hin Hp).
  - by destruct (Hr e He).
Qed.

(** ** Duplicates *)

Definition group (q : bytes) (l : list entry) : list entry := filter (fun e => e_pointer e = q) l.

Definition report (first e : entry) : option (bytes * qwe_pos * qwe_pos) :=
  match e_key first, e_key e with
  | Some k, Some k' => Some (e_pointer e, k, k')
  | _, _ => None
  end.

Definition reports (l : list entry) : list (bytes * qwe_pos * qwe_pos) :=
  match l with
  | [] => []
  | f :: l => omap (report f) l
  end.

Lemma group_none q l : (forall e, e ∈ l -> e_pointer e <> q) -> group q l = [].
Proof.
  induction l as [|e l IH]; intros H; [done |]. unfold group. rewrite filter_cons_False; [apply IH; set_solver | apply H; set_solver].
Qed.

Lemma duplicates_group q f l : StronglySorted ptr_le (f :: l) ->
  filter (fun d => fst (fst d) = q) (duplicates_from f l) = reports (group q (f :: l)).
Proof.
  revert f. induction l as [|e l IH]; intros f Hs.
  - cbn [duplicates_from]. unfold group. destruct (decide (e_pointer f = q)); [by rewrite filter_cons_True | by rewrite filter_cons_False].
  - apply StronglySorted_inv in Hs as [Hs Hf]. cbn [duplicates_from]. destruct (strcmp (e_pointer e) (e_pointer f)) eqn:Hc.
    + apply strcmp_eq in Hc. assert (Hs' : StronglySorted ptr_le (f :: l)).
      { apply StronglySorted_inv in Hs as [Hs He]. apply Forall_cons in Hf as [_ Hf]. by constructor. }
      specialize (IH f Hs'). unfold group in *. destruct (decide (e_pointer f = q)) as [Hq|Hq].
      * rewrite filter_cons_True in IH |- * by done. rewrite filter_cons_True by congruence. cbn [reports omap list_omap] in *.
        unfold report at 1. destruct (e_key f), (e_key e); try done. rewrite filter_cons_True by (cbn; congruence). f_equal. exact IH.
      * rewrite filter_cons_False in IH |- * by done. rewrite filter_cons_False by congruence. cbn [reports omap list_omap] in *.
        destruct (e_key f), (e_key e); try done. by rewrite filter_cons_False by (cbn; congruence).
    + exfalso. apply Forall_cons in Hf as [Hf _]. unfold ptr_le, key_cmp, strcmp_le in Hf.
      by rewrite (strcmp_antisym (e_pointer e)), Hc in Hf.
    + rewrite (IH e Hs). unfold group. destruct (decide (e_pointer f = q)) as [Hq|Hq]; [| by rewrite (filter_cons_False _ f)].
      assert (Hn : group q (e :: l) = []).
      { apply group_none. intros e' He' Hq'. apply StronglySorted_inv in Hs as [_ He].
        assert (Ho : ptr_le e e'). { apply elem_of_cons in He' as [->|He']; [| by rewrite Forall_forall in He; apply He].
          unfold ptr_le, key_cmp, strcmp_le. by rewrite strcmp_refl. }
        unfold ptr_le, key_cmp, strcmp_le in Ho. rewrite Hq', <- Hq, Hc in Ho. done. }
      unfold group in Hn. rewrite (filter_cons_True _ f) by done. by rewrite Hn.
Qed.

Definition keys_at (q : bytes) (l : list entry) : list qwe_pos := omap e_key (group q l).

Definition keyed (q : bytes) (l : list entry) : Prop := forall e, e ∈ l -> e_pointer e = q -> is_Some (e_key e).

Lemma keyed_cons q e l : keyed q (e :: l) -> keyed q l.
Proof. intros H e' He'. apply H. by right. Qed.

Lemma ptr_between q e e2 l : StronglySorted ptr_le (e :: e2 :: l) -> e_pointer e = q -> e_pointer e2 <> q -> group q (e2 :: l) = [].
Proof.
  intros Hs He He2. apply group_none. intros e' He' Hq.
  apply StronglySorted_inv in Hs as [Hs H1]. apply StronglySorted_inv in Hs as [_ H2].
  apply Forall_cons in H1 as [H1 _]. apply elem_of_cons in He' as [->|He']; [done |].
  rewrite Forall_forall in H2. specialize (H2 e' He'). unfold ptr_le in H1, H2. rewrite Hq in H2. rewrite He in H1.
  destruct He2. by apply (anti_symm key_cmp).
Qed.

Lemma keys_sorted q l : Sorted cmp_le l -> StronglySorted ptr_le l -> keyed q l -> Sorted pos_le (keys_at q l).
Proof.
  unfold keys_at. induction l as [|e l IH]; intros Hc Hp Hk; [constructor |].
  apply Sorted_inv in Hc as [Hc Hh]. pose proof (StronglySorted_inv Hp) as [Hp' _].
  specialize (IH Hc Hp' (keyed_cons _ _ _ Hk)). destruct (decide (e_pointer e = q)) as [Hq|Hq].
  - destruct (Hk e ltac:(by left) Hq) as [k Ek]. unfold group. rewrite filter_cons_True by done. cbn [omap list_omap]. rewrite Ek.
    constructor; [done |]. destruct l as [|e2 l]; [constructor |]. destruct (decide (e_pointer e2 = q)) as [Hq2|Hq2].
    + destruct (Hk e2 ltac:(by right; left) Hq2) as [k2 Ek2]. unfold group. rewrite filter_cons_True by done. cbn [omap list_omap]. rewrite Ek2.
      constructor. inversion_clear Hh as [|? ? Hcmp]. unfold cmp_le, cmp in Hcmp. rewrite Hq, Hq2, strcmp_refl, Ek, Ek2 in Hcmp.
      pose proof (cmp_pos_spec k k2) as Hs. destruct (cmp_pos k k2); [subst; unfold pos_le; lia | by destruct Hs | by destruct Hcmp].
    + fold (group q (e2 :: l)). rewrite (ptr_between q e e2 l) by done. constructor.
  - unfold group. by rewrite filter_cons_False.
Qed.

Lemma reports_keyed q l : keyed q l -> reports (group q l) =
  match keys_at q l with
  | [] => []
  | k :: ks => (fun k' => (q, k, k')) <$> ks
  end.
Proof.
  intros Hk. unfold keys_at. assert (Hg : Forall (fun e => e_pointer e = q /\ is_Some (e_key e)) (group q l)).
  { apply Forall_forall. intros e [He Hin]%list_elem_of_filter. auto. }
  revert Hg. generalize (group q l). intros [|f es] Hg; [done |]. apply Forall_cons in Hg as [[_ [k Ek]] Hg].
  cbn [reports omap list_omap]. rewrite Ek. induction Hg as [|e es [Hq [k' Ek']] Hg IH]; [done |].
  cbn [omap list_omap]. unfold report at 1. rewrite Ek, Ek', Hq. cbn [fmap list_fmap]. by rewrite <- IH.
Qed.

(** The validator is told of repeated keys exactly: for a pointer that only
    map entries have, a key written n times gives n - 1 reports, in the order of
    the source, each against the first time it was written. *)
Theorem duplicates_exact p q : keyed q (ps_e p) ->
  filter (fun d => fst (fst d) = q) (qwe_positions_duplicates (qwe_positions_finish p)) =
  match qsort pos_le (keys_at q (ps_e p)) with
  | [] => []
  | k :: ks => (fun k' => (q, k, k')) <$> ks
  end.
Proof.
  intros Hk. pose proof (finish_perm p) as Hperm. pose proof (finish_sorted p) as Hs.
  assert (Hk' : keyed q (ps_e (qwe_positions_finish p))) by (intros e He; rewrite Hperm in He; by apply Hk).
  assert (E : qsort pos_le (keys_at q (ps_e p)) = keys_at q (ps_e (qwe_positions_finish p))).
  { apply (Sorted_unique pos_le); [apply Sorted_qsort, _ | |].
    - apply keys_sorted; [apply Sorted_qsort, _ | done | done].
    - rewrite qsort_Permutation. unfold keys_at, group. by rewrite Hperm. }
  rewrite E, <- reports_keyed by done. unfold qwe_positions_duplicates.
  destruct (ps_e (qwe_positions_finish p)) as [|f l]; [done |]. by apply duplicates_group.
Qed.

Definition sample_table : qwe_positions :=
  Positions [Entry [] None (Some (Pos 1 1)); Entry (bytes_of "/b") (Some (Pos 1 1)) (Some (Pos 1 4));
    Entry (bytes_of "/a") (Some (Pos 2 1)) (Some (Pos 2 4)); Entry (bytes_of "/b") (Some (Pos 3 1)) (Some (Pos 3 4));
    Entry (bytes_of "/b") (Some (Pos 4 1)) (Some (Pos 4 4))] 64.

Lemma duplicates_exact_witness :
  filter (fun d => fst (fst d) = bytes_of "/b") (qwe_positions_duplicates (qwe_positions_finish sample_table)) =
  [(bytes_of "/b", Pos 1 1, Pos 3 1); (bytes_of "/b", Pos 1 1, Pos 4 1)].
Proof.
  assert (Hk : keyed (bytes_of "/b") (ps_e sample_table)).
  { intros e He. do 5 (apply elem_of_cons in He as [->|He]; [cbn; first [by intros [=] | by eexists] |]). by apply not_elem_of_nil in He. }
  exact (duplicates_exact sample_table (bytes_of "/b") Hk).
Defined.

(** [a: [1]] and again [a: {0: x, 0: y}]: since a sequence's item has the same
    pointer as a key that spells its index, the repeated key 0 goes unreported. *)
Lemma duplicate_hidden :
  qwe_positions_duplicates (qwe_positions_finish (Positions
    [Entry [] None (Some (Pos 1 1));
     Entry (bytes_of "/a") (Some (Pos 1 1)) (Some (Pos 1 4)); Entry (bytes_of "/a/0") None (Some (Pos 1 5));
     Entry (bytes_of "/a") (Some (Pos 2 1)) (Some (Pos 2 4));
     Entry (bytes_of "/a/0") (Some (Pos 2 5)) (Some (Pos 2 8)); Entry (bytes_of "/a/0") (Some (Pos 2 11)) (Some (Pos 2 14))] 64)) =
  [(bytes_of "/a", Pos 1 1, Pos 2 1)].
Proof. reflexivity. Qed.
