(* ===== verification/Strtod.v ===== *)
(** * Reading numbers

    What the C library gives for the texts the transcoder calls [strtoll] and
    [strtod] on: decimal integers and decimal floats.  A double is its 64 bits;
    it is the one nearest to the decimal, ties to even. *)

From Stdlib Require Import Ascii NArith ZArith Lia SpecFloat.
From stdpp Require Import base list.
From S2P Require Import Prelude Fmt.

#[local] Open Scope Z_scope.

Definition digit_value (c : ascii) : Z := Z.of_N (N_of_ascii c) - 48.

Definition decimal (ds : bytes) : Z := foldl (fun acc c => acc * 10 + digit_value c) 0 ds.

Fixpoint span_digits (s : bytes) : bytes * bytes :=
  match s with
  | c :: s' => if is_digit c then let '(ds, rest) := span_digits s' in (c :: ds, rest) else ([], s)
  | [] => ([], [])
  end.

(** A leading sign, if there is one: whether it is a minus, and what follows. *)
Definition span_sign (s : bytes) : bool * bytes :=
  match s with
  | c :: s' => if Ascii.eqb c "-" then (true, s') else if Ascii.eqb c "+" then (false, s') else (false, s)
  | [] => (false, [])
  end.

Definition strtoll (s : bytes) : Z :=
  let '(neg, s) := span_sign s in
  let v := decimal (fst (span_digits s)) in
  if neg then - v else v.

(** The bits of a double. *)
Definition double_bits (f : spec_float) : Z :=
  let sign (s : bool) := if s then 2 ^ 63 else 0 in
  match f with
  | S754_zero s => sign s
  | S754_infinity s => sign s + 2047 * 2 ^ 52
  | S754_nan => 2047 * 2 ^ 52 + 2 ^ 51
  | S754_finite s m e =>
      sign s + (if Z.pos m <? 2 ^ 52 then 0 else (e + 1075) mod 2 ^ 11) * 2 ^ 52 + Z.pos m mod 2 ^ 52
  end.

(** [m * 10^e], rounded. *)
Definition round_decimal (neg : bool) (m e : Z) : spec_float :=
  match m with
  | Z.pos _ =>
      if 0 <=? e then
        match m * 10 ^ e with
        | Z.pos p => binary_round 53 1024 neg p 0
        | _ => S754_zero neg
        end
      else
        let '(q, e, l) := SFdiv_core_binary 53 1024 m 0 (10 ^ (- e)) 0 in
        binary_round_aux 53 1024 neg q e l
  | _ => S754_zero neg
  end.

Definition strtod (s : bytes) : Z :=
  let '(neg, s) := span_sign s in
  let '(whole, s) := span_digits s in
  let '(fraction, s) :=
    match s with
    | c :: s' => if Ascii.eqb c "." then span_digits s' else ([], s)
    | [] => ([], [])
    end in
  let exponent :=
    match s with
    | c :: s' => if Ascii.eqb c "e" || Ascii.eqb c "E" then strtoll s' else 0
    | [] => 0
    end in
  double_bits (round_decimal neg (decimal (whole ++ fraction)) (exponent - Z.of_nat (length fraction))).

Lemma double_bits_range f : 0 <= double_bits f < 2 ^ 64.
Proof.
  destruct f as [s|s| |s m e]; cbn [double_bits]; try (destruct s; lia); [lia |].
  pose proof (Z.mod_pos_bound (Z.pos m) (2 ^ 52) ltac:(lia)). pose proof (Z.mod_pos_bound (e + 1075) (2 ^ 11) ltac:(lia)).
  destruct s, (Z.ltb_spec (Z.pos m) (2 ^ 52)); lia.
Qed.

Lemma strtod_range s : 0 <= strtod s < 2 ^ 64.
Proof. unfold strtod. repeat case_match; apply double_bits_range. Qed.

Lemma decimal_snoc ds c : decimal (ds ++ [c]) = decimal ds * 10 + digit_value c.
Proof. unfold decimal. by rewrite foldl_app. Qed.

Lemma decimal_range ds : Forall (fun c => is_digit c = true) ds -> 0 <= decimal ds < 10 ^ Z.of_nat (length ds).
Proof.
  induction ds as [|c ds IH] using rev_ind; [done |]. intros [Hds Hc]%Forall_app. rewrite Forall_singleton in Hc.
  rewrite decimal_snoc, length_app. cbn [length]. replace (Z.of_nat (length ds + 1)) with (Z.succ (Z.of_nat (length ds))) by lia.
  rewrite Z.pow_succ_r by lia. specialize (IH Hds). unfold is_digit in Hc. apply andb_true_iff in Hc as [H1%N.leb_le H2%N.leb_le].
  unfold digit_value. lia.
Qed.

Lemma span_digits_all ds : Forall (fun c => is_digit c = true) ds -> span_digits ds = (ds, []).
Proof. induction 1 as [|c ds Hc _ IH]; [done |]. cbn. by rewrite Hc, IH. Qed.
