(* ===== verification/LuaCbor.v ===== *)
(** * CBOR to Lua and back

    Models [src/kernel/luacbor.c]: [qwe_cbor_to_lua], [qwe_lua_to_cbor] and the
    functions of the Lua module.  Lua values are trees; of a table it is known
    what the C code asks for: its metatable, its sequence part (up to the border
    [lua_objlen] gives) and its other fields.  Numbers are the 64 bits of their
    double.  Errors that Lua raises for want of memory are not modelled. *)

From Stdlib Require Import Ascii String NArith ZArith Lia.
From stdpp Require Import base sets list strings numbers sorting.
From S2P Require Import Prelude Cstr Redact Cbor.

Definition QWE_LUA_MAX_DEPTH : nat := 64.
Definition QWE_SECRET_TAG : Z := 32768.

(** ** Lua values *)

Inductive meta := NoMeta | ArrayMeta | MapMeta | SecretMeta | OtherMeta.

#[export] Instance meta_eq_dec : EqDecision meta.
Proof. solve_decision. Defined.

(** The key of a field: a string, or anything else. *)
Inductive lkey := KStr (s : bytes) | KOther.

(** [LNull]: the light userdata NULL; [LUserdata]: any other light one;
    [LOther]: a function, a thread, full userdata. *)
#[warnings="-register-all"] Inductive lua :=
| LNil
| LBool (b : bool)
| LNum (bits : Z)
| LStr (s : bytes)
| LNull
| LUserdata
| LOther
| LTable (mt : meta) (seq : list lua) (fields : list (lkey * lua)).

(** [lua_settable] with a string key and a value that is not nil. *)
Fixpoint set_field (k : bytes) (v : lua) (fields : list (lkey * lua)) : list (lkey * lua) :=
  match fields with
  | [] => [(KStr k, v)]
  | (KStr k', v') :: fields =>
      if decide (k' = k) then (KStr k, v) :: fields else (KStr k', v') :: set_field k v fields
  | f :: fields => f :: set_field k v fields
  end.

(** [lua_gettable] with a string key. *)
Fixpoint get_field (k : bytes) (fields : list (lkey * lua)) : lua :=
  match fields with
  | [] => LNil
  | (KStr k', v) :: fields => if decide (k' = k) then v else get_field k fields
  | _ :: fields => get_field k fields
  end.

(** ** Doubles, as bits *)

Definition d_sign (b : Z) : Z := (b / 2 ^ 63) mod 2.
Definition d_exp (b : Z) : Z := (b / 2 ^ 52) mod 2 ^ 11.
Definition d_mant (b : Z) : Z := b mod 2 ^ 52.

(** The bits of [m * 2^e], for a positive [m] up to 2^53 whose value is normal. *)
Definition double_scaled (sign m e : Z) : Z :=
  (sign * 2 ^ 63 + (e + Z.log2 m + 1023) * 2 ^ 52 + (Z.shiftl m (52 - Z.log2 m) - 2 ^ 52))%Z.

(** [(lua_Number)v], for an integer a double holds. *)
Definition double_of_Z (v : Z) : Z :=
  if (v =? 0)%Z then 0%Z else double_scaled (if (v <? 0)%Z then 1 else 0) (Z.abs v) 0.

(** [(lua_Number)f], for the 32 bits of a float. *)
Definition double_of_float (b : Z) : Z :=
  let s := (b / 2 ^ 31)%Z in
  let e := ((b / 2 ^ 23) mod 2 ^ 8)%Z in
  let m := (b mod 2 ^ 23)%Z in
  if (e =? 255)%Z then (s * 2 ^ 63 + 2047 * 2 ^ 52 + m * 2 ^ 29)%Z
  else if (e =? 0)%Z then if (m =? 0)%Z then (s * 2 ^ 63)%Z else double_scaled s m (-149)
  else (s * 2 ^ 63 + (e + 896) * 2 ^ 52 + m * 2 ^ 29)%Z.

Definition is_nan (b : Z) : bool := (d_exp b =? 2047)%Z && negb (d_mant b =? 0)%Z.

(** [lua_pushnumber]: LuaJIT has one NaN. *)
Definition push_number (b : Z) : lua := LNum (if is_nan b then 18444492273895866368%Z else b).

(** ** CBOR to Lua *)

Inductive derr := DCbor (e : CborError) | DMsg (s : string).

(** A conversion takes the answers of its allocations, and gives an error or a
    value and the iterator behind it. *)
Definition D (A : Type) : Type := list bool -> cres (list bool * (derr + A)).

#[export] Instance D_ret : MRet D := fun A a mem => CRet (mem, inr a).
#[export] Instance D_bind : MBind D := fun A B k m mem =>
  cbind (m mem) (fun r => match r with
                          | (mem, inl e) => CRet (mem, inl e)
                          | (mem, inr a) => k a mem
                          end).

Definition dfail {A} (msg : string) : D A := fun mem => CRet (mem, inl (DMsg msg)).

(** A call of the parser whose failure is [msg]. *)
Definition dcall {A} (msg : string) (p : parsed A) : D A := fun mem =>
  cbind p (fun r => CRet (mem, match r with inl _ => inl (DMsg msg) | inr a => inr a end)).

Definition dlift {A} (p : cres A) : D A := fun mem => cbind p (fun a => CRet (mem, inr a)).

(** [cbor_value_dup_text_string] and [..._byte_string]. *)
Definition convert_string (it : CborValue) : D (bytes * CborValue) := fun mem =>
  cbind (iterate_string_chunks it) (fun r =>
    match r with
    | inl e => CRet (mem, inl (DCbor e))
    | inr (s, it) =>
        let '(ok, mem) := alloc mem in
        CRet (mem, if (ok : bool) then inr (s, it) else inl (DCbor CborErrorOutOfMemory))
    end).

Definition convert_tagged (it : CborValue) : D (lua * CborValue) :=
  tag ← dlift (cbor_value_get_tag it);
  if negb (tag =? QWE_SECRET_TAG)%Z then dfail "unsupported CBOR tag"
  else
    it ← dcall "a secret must wrap a text string" (cbor_value_skip_tag it);
    if negb (cv_type it =? CborTextStringType)%Z then dfail "a secret must wrap a text string"
    else
      '(s, it) ← convert_string it;
      mret (LTable SecretMeta [] [(KStr (bytes_of "value"), LStr s)], it).

Section container.
Variable convert : CborValue -> D (lua * CborValue).

(** [while (!cbor_value_at_end(&inner))]: each element has a byte. *)
Fixpoint convert_items (fuel : nat) (is_map : bool) (inner : CborValue) (seq : list lua) (fields : list (lkey * lua)) :
    D (list lua * list (lkey * lua) * CborValue) :=
  if cbor_value_at_end inner then mret (seq, fields, inner)
  else
    match fuel with
    | 0 => dlift CFuel
    | S fuel =>
        if is_map then
          if negb (cv_type inner =? CborTextStringType)%Z then dfail "map key is not a string"
          else
            '(k, inner) ← convert_string inner;
            '(v, inner) ← convert inner;
            convert_items fuel is_map inner seq (set_field k v fields)
        else
          '(v, inner) ← convert inner;
          convert_items fuel is_map inner (seq ++ [v]) fields
    end.

Definition convert_container (it : CborValue) (is_map : bool) : D (lua * CborValue) :=
  inner ← dcall "malformed container" (cbor_value_enter_container it);
  '(seq, fields, inner) ← convert_items (length (cv_rest inner)) is_map inner [] [];
  it ← dcall "malformed container" (cbor_value_leave_container it inner);
  mret (LTable (if is_map then MapMeta else ArrayMeta) seq fields, it).
End container.

Definition MAX_EXACT : Z := 9007199254740992.

(** The switch of [convert], on what it does with a container. *)
Definition convert_item (container : bool -> D (lua * CborValue)) (it : CborValue) : D (lua * CborValue) :=
  let t := cv_type it in
  if (t =? CborIntegerType)%Z then
    v ← dcall "integer out of range (beyond 2^53)" (cbor_value_get_int64_checked it);
    if ((MAX_EXACT <? v) || (v <? - MAX_EXACT))%Z then dfail "integer out of range (beyond 2^53)"
    else it ← dcall "malformed integer" (cbor_value_advance_fixed it); mret (push_number (double_of_Z v), it)
  else if ((t =? CborTextStringType) || (t =? CborByteStringType))%Z then
    '(s, it) ← convert_string it; mret (LStr s, it)
  else if (t =? CborMapType)%Z then container true
  else if (t =? CborArrayType)%Z then container false
  else if (t =? CborTagType)%Z then convert_tagged it
  else if (t =? CborBooleanType)%Z then
    b ← dlift (cbor_value_get_boolean it);
    it ← dcall "malformed boolean" (cbor_value_advance_fixed it); mret (LBool b, it)
  else if ((t =? CborNullType) || (t =? CborUndefinedType))%Z then
    it ← dcall "malformed null" (cbor_value_advance_fixed it); mret (LNull, it)
  else if (t =? CborDoubleType)%Z then
    d ← dlift (cbor_value_get_double it);
    it ← dcall "malformed float" (cbor_value_advance_fixed it); mret (push_number d, it)
  else if (t =? CborFloatType)%Z then
    f ← dlift (cbor_value_get_float it);
    it ← dcall "malformed float" (cbor_value_advance_fixed it); mret (push_number (double_of_float f), it)
  else dfail "unsupported CBOR type".

(** [levels]: the levels below [QWE_LUA_MAX_DEPTH] that are left. *)
Fixpoint convert (levels : nat) (it : CborValue) : D (lua * CborValue) :=
  convert_item (fun is_map =>
    match levels with
    | 0 => dfail "nesting too deep"
    | S levels => convert_container (convert levels) it is_map
    end) it.

Definition qwe_cbor_to_lua (mem : list bool) (buf : bytes) : cres (derr + lua) :=
  cbind ((it ← dcall "invalid CBOR" (cbor_parser_init buf); convert QWE_LUA_MAX_DEPTH it) mem) (fun r =>
    CRet match r with
         | (_, inl e) => inl e
         | (_, inr (v, _)) => inr v
         end).

(** ** Lua to CBOR *)

Inductive kind := K_ARRAY | K_MAP | K_SECRET.

Definition classify (mt : meta) (seq : list lua) : kind :=
  match mt with
  | NoMeta => if 0 <? length seq then K_ARRAY else K_MAP
  | ArrayMeta => K_ARRAY
  | SecretMeta => K_SECRET
  | _ => K_MAP
  end.

(** What the encoding functions return: 0, [CborErrorOutOfMemory], or a failure,
    with the message it leaves in [*err] if it does. *)
Inductive rcode := ROk | ROom | RErr (msg : option string).

Definition rcode_of (e : CborError) : rcode :=
  match e with
  | CborNoError => ROk
  | CborErrorOutOfMemory => ROom
  | _ => RErr None
  end.

(** Whether the number is whole and within 2^53 of zero. *)
Definition is_exact_integer (b : Z) : bool :=
  let ex := d_exp b in
  let m := d_mant b in
  if (ex =? 0)%Z then (m =? 0)%Z
  else if (1076 <? ex)%Z then false
  else if (ex =? 1076)%Z then (m =? 0)%Z
  else if (1075 <=? ex)%Z then true
  else (1023 <=? ex)%Z && ((2 ^ 52 + m) mod 2 ^ (1075 - ex) =? 0)%Z.

(** [(int64_t)d], for such a number. *)
Definition int_of_double (b : Z) : Z :=
  if (d_exp b =? 0)%Z then 0%Z
  else
    let q := (if (d_exp b <=? 1075)%Z then (2 ^ 52 + d_mant b) / 2 ^ (1075 - d_exp b) else (2 ^ 52 + d_mant b) * 2)%Z in
    if (d_sign b =? 1)%Z then (- q)%Z else q.

(** The keys of the fields, in an array that doubles from [cap]; and why it
    stops, if it does. *)
Fixpoint collect_keys (mem : list bool) (n cap : nat) (fields : list (lkey * lua)) : list bool * (rcode + list bytes) :=
  match fields with
  | [] => (mem, inr [])
  | (KOther, _) :: _ => (mem, inl (RErr (Some "map key is not a string"%string)))
  | (KStr k, _) :: fields =>
      let '(ok, mem) := if n =? cap then alloc mem else (true, mem) in
      if negb ok then (mem, inl (RErr (Some "out of memory"%string)))
      else
        match collect_keys mem (S n) (if n =? cap then cap * 2 else cap) fields with
        | (mem, inr ks) => (mem, inr (cstr k :: ks))
        | r => r
        end
  end.

(** The sequence part comes first in [lua_next]: its keys are numbers. *)
Definition has_number_key (seq : list lua) : bool :=
  existsb (fun v => match v with LNil => false | _ => true end) seq.

Section encode.
(** [lua_tolstring] of a number. *)
Variable number_text : Z -> bytes.

Section table.
Variable encode_value : lua -> list bool -> CborEncoder -> list bool * CborEncoder * rcode.

(** The loop over the elements; [oom]: whether [rc] is out of memory. *)
Fixpoint encode_items (items : list lua) (mem : list bool) (inner : CborEncoder) (oom : bool) :
    list bool * CborEncoder * (rcode + bool) :=
  match items with
  | [] => (mem, inner, inr oom)
  | v :: items =>
      match encode_value v mem inner with
      | (mem, inner, ROk) => encode_items items mem inner oom
      | (mem, inner, ROom) => encode_items items mem inner true
      | (mem, inner, RErr m) => (mem, inner, inl (RErr m))
      end
  end.

Fixpoint encode_fields (keys : list bytes) (fields : list (lkey * lua)) (mem : list bool) (inner : CborEncoder) (oom : bool) :
    list bool * CborEncoder * (rcode + bool) :=
  match keys with
  | [] => (mem, inner, inr oom)
  | k :: keys =>
      let '(inner, e) := cbor_encode_text_string inner k in
      let oom := oom || bool_decide (e = CborErrorOutOfMemory) in
      match encode_value (get_field k fields) mem inner with
      | (mem, inner, ROk) => encode_fields keys fields mem inner oom
      | (mem, inner, ROom) => encode_fields keys fields mem inner true
      | (mem, inner, RErr m) => (mem, inner, inl (RErr m))
      end
  end.

Definition close_table (mem : list bool) (enc inner : CborEncoder) (oom : bool) : list bool * CborEncoder * rcode :=
  let '(enc, e) := cbor_encoder_close_container enc inner in
  (mem, enc, if bool_decide (e = CborErrorOutOfMemory) || oom then ROom
             else match e with CborNoError => ROk | _ => RErr None end).

Definition encode_secret (fields : list (lkey * lua)) (mem : list bool) (enc : CborEncoder) : list bool * CborEncoder * rcode :=
  let text := match get_field (bytes_of "value") fields with
              | LStr s => Some s
              | LNum n => Some (number_text n)
              | _ => None
              end in
  match text with
  | None => (mem, enc, RErr (Some "a secret needs a string value"%string))
  | Some s =>
      let '(enc, _) := cbor_encode_tag enc QWE_SECRET_TAG in
      let '(enc, e) := cbor_encode_text_string enc s in
      (mem, enc, rcode_of e)
  end.

Definition encode_array (seq : list lua) (mem : list bool) (enc : CborEncoder) : list bool * CborEncoder * rcode :=
  let '(enc, inner, e) := create_container enc (Some (length seq)) ArrayType in
  match encode_items seq mem inner (bool_decide (e = CborErrorOutOfMemory)) with
  | (mem, _, inl r) => (mem, enc, r)
  | (mem, inner, inr oom) => close_table mem enc inner oom
  end.

Definition encode_map (seq : list lua) (fields : list (lkey * lua)) (mem : list bool) (enc : CborEncoder) :
    list bool * CborEncoder * rcode :=
  let '(ok, mem) := alloc mem in
  if negb ok then (mem, enc, RErr (Some "out of memory"%string))
  else if has_number_key seq then (mem, enc, RErr (Some "map key is not a string"%string))
  else
    match collect_keys mem 0 8 fields with
    | (mem, inl r) => (mem, enc, r)
    | (mem, inr keys) =>
        let '(enc, inner, e) := create_container enc (Some (length keys)) MapType in
        match encode_fields (merge_sort key_cmp keys) fields mem inner (bool_decide (e = CborErrorOutOfMemory)) with
        | (mem, _, inl r) => (mem, enc, r)
        | (mem, inner, inr oom) => close_table mem enc inner oom
        end
    end.
End table.

Fixpoint encode_value (levels : nat) (v : lua) (mem : list bool) (enc : CborEncoder) : list bool * CborEncoder * rcode :=
  let simple '(enc, e) := (mem, enc, rcode_of e) in
  match v with
  | LBool b => simple (cbor_encode_boolean enc b)
  | LNum d => simple (if is_exact_integer d then cbor_encode_int enc (int_of_double d) else cbor_encode_double enc d)
  | LStr s => simple (cbor_encode_text_string enc s)
  | LNull => simple (cbor_encode_null enc)
  | LUserdata => (mem, enc, RErr (Some "cannot encode this userdata"%string))
  | LTable mt seq fields =>
      match levels with
      | 0 => (mem, enc, RErr (Some "nesting too deep"%string))
      | S levels =>
          match classify mt seq with
          | K_SECRET => encode_secret fields mem enc
          | K_ARRAY => encode_array (encode_value levels) seq mem enc
          | K_MAP => encode_map (encode_value levels) seq fields mem enc
          end
      end
  | LNil | LOther => (mem, enc, RErr (Some "cannot encode this Lua type"%string))
  end.

(** The buffer doubles until the value fits: [fuel] tries. *)
Fixpoint encode_retry (fuel : nat) (cap : nat) (v : lua) (mem : list bool) : cres (string + bytes) :=
  match fuel with
  | 0 => CFuel
  | S fuel =>
      let '(ok, mem) := alloc mem in
      if negb ok then CRet (inl "out of memory"%string)
      else
        match encode_value QWE_LUA_MAX_DEPTH v mem (cbor_encoder_init cap) with
        | (_, enc, ROk) => CRet (inr (en_out enc))
        | (mem, _, ROom) => encode_retry fuel (cap * 2) v mem
        | (_, _, RErr m) => CRet (inl (default "cannot encode value"%string m))
        end
  end.

Definition qwe_lua_to_cbor (fuel : nat) (mem : list bool) (v : lua) : cres (string + bytes) := encode_retry fuel 256 v mem.
End encode.

(** ** The Lua module *)

(** [set_mt]: a new table, or the argument itself with its metatable changed;
    [None] where Lua raises an error. *)
Definition set_mt (arg : option lua) (m : meta) : option lua :=
  match arg with
  | None => Some (LTable m [] [])
  | Some (LTable _ seq fields) => Some (LTable m seq fields)
  | Some _ => None
  end.

Definition l_array (arg : option lua) : option lua := set_mt arg ArrayMeta.
Definition l_map (arg : option lua) : option lua := set_mt arg MapMeta.

Definition has_mt (v : lua) (m : meta) : bool :=
  match v with LTable m' _ _ => bool_decide (m' = m) | _ => false end.

Definition l_is_array (v : lua) : lua := LBool (has_mt v ArrayMeta).
Definition l_is_map (v : lua) : lua := LBool (has_mt v MapMeta).
Definition l_is_secret (v : lua) : lua := LBool (has_mt v SecretMeta).

(** [luaL_checkstring] makes a string of a number where it stands. *)
Definition l_secret (number_text : Z -> bytes) (v : lua) : option lua :=
  match v with
  | LStr s => Some (LTable SecretMeta [] [(KStr (bytes_of "value"), LStr s)])
  | LNum n => Some (LTable SecretMeta [] [(KStr (bytes_of "value"), LStr (number_text n))])
  | _ => None
  end.
