(* ===== verification/CborOk.v ===== *)
(** * The encoder and the parser of CBOR

    Lemmas about [Cbor]: what the encoder's calls append, what the parser makes
    of the head of an item, and that it returns on any bytes. *)

From Stdlib Require Import Ascii NArith ZArith Lia.
From stdpp Require Import base list strings numbers.
From S2P Require Import Prelude Cbor.

(** ** Bytes *)

Lemma Zb_range a : (0 <= Zb a < 256)%Z.
Proof. unfold Zb. pose proof (N_ascii_bounded a). lia. Qed.

Lemma Zb_byte z : Zb (byte z) = (z mod 256)%Z.
Proof.
  unfold Zb, byte. pose proof (Z.mod_pos_bound z 256 ltac:(lia)).
  rewrite N_ascii_embedding by lia. lia.
Qed.

Lemma Zb_byte_small z : (0 <= z < 256)%Z -> Zb (byte z) = z.
Proof. intros. by rewrite Zb_byte, Z.mod_small by lia. Qed.

Lemma length_put_be n z : length (put_be n z) = n.
Proof. induction n; cbn; lia. Qed.

Lemma get_be_app l l' : get_be (l ++ l') = (get_be l * 256 ^ Z.of_nat (length l') + get_be l')%Z.
Proof.
  unfold get_be. assert (H : forall l acc, foldl (fun acc a => (acc * 256 + Zb a)%Z) acc l =
    (acc * 256 ^ Z.of_nat (length l) + foldl (fun acc a => (acc * 256 + Zb a)%Z) 0%Z l)%Z).
  { clear. induction l as [|a l IH]; intros acc; cbn [foldl length]; [lia |].
    rewrite IH, (IH (0 * 256 + Zb a)%Z), Nat2Z.inj_succ, Z.pow_succ_r by lia. ring. }
  rewrite foldl_app, H. done.
Qed.

Lemma get_be_one a : get_be [a] = Zb a.
Proof. done. Qed.

Lemma get_be_range l : (0 <= get_be l < 256 ^ Z.of_nat (length l))%Z.
Proof.
  induction l as [|a l IH] using rev_ind; [done |].
  rewrite get_be_app, length_app, get_be_one. cbn [length].
  pose proof (Zb_range a). rewrite Nat2Z.inj_add, Z.pow_add_r by lia. change (256 ^ Z.of_nat 1)%Z with 256%Z. nia.
Qed.

Lemma get_put_be n z : (0 <= z)%Z -> get_be (put_be n z) = (z mod 256 ^ Z.of_nat n)%Z.
Proof.
  intros Hz. induction n as [|n IH]; cbn [put_be]; [cbn; by rewrite Z.mod_1_r |].
  change (byte (z / 256 ^ Z.of_nat n) :: put_be n z) with ([byte (z / 256 ^ Z.of_nat n)] ++ put_be n z).
  rewrite get_be_app, length_put_be, IH, get_be_one, Zb_byte.
  rewrite Nat2Z.inj_succ, Z.pow_succ_r by lia. rewrite (Z.mul_comm 256), Z.rem_mul_r by lia. lia.
Qed.

Lemma land_31 b : (0 <= b < 256)%Z -> Z.land b 31 = (b mod 32)%Z.
Proof. intros. change 31%Z with (Z.ones 5). by rewrite Z.land_ones by lia. Qed.

Lemma land_224 b : (0 <= b < 256)%Z -> Z.land b 224 = (b / 32 * 32)%Z.
Proof.
  intros Hb. assert (H : forallb (fun n => Z.land (Z.of_nat n) 224 =? Z.of_nat n / 32 * 32)%Z (seq 0 256) = true)
    by (vm_compute; reflexivity).
  rewrite forallb_forall in H. specialize (H (Z.to_nat b)). rewrite Z2Nat.id in H by lia.
  apply Z.eqb_eq, H. apply in_seq. lia.
Qed.

(** ** Heads

    [width ui] bytes follow the first. *)
Definition width (ui : Z) : nat :=
  if (ui <? 24)%Z then 0 else if (ui <=? 255)%Z then 1 else if (ui <=? 65535)%Z then 2 else if (ui <=? 4294967295)%Z then 4 else 8.

Definition descriptor (ui : Z) : Z :=
  if (ui <? 24)%Z then ui else if (ui <=? 255)%Z then 24 else if (ui <=? 65535)%Z then 25 else if (ui <=? 4294967295)%Z then 26 else 27.

Lemma head_split ui shifted : head ui shifted = byte (shifted + descriptor ui) :: put_be (width ui) ui.
Proof.
  unfold head, width, descriptor.
  destruct (ui <? 24)%Z; [done |]. destruct (ui <=? 255)%Z; [done |]. destruct (ui <=? 65535)%Z; [done |].
  by destruct (ui <=? 4294967295)%Z.
Qed.

Lemma descriptor_range ui : (0 <= ui)%Z -> (0 <= descriptor ui <= 27)%Z.
Proof. intros. unfold descriptor. repeat case_match; lia. Qed.

Lemma width_needed ui : (0 <= ui)%Z -> bytes_needed (descriptor ui) = width ui.
Proof.
  intros. unfold descriptor, width, bytes_needed. destruct (Z.ltb_spec ui 24).
  - by destruct (Z.ltb_spec ui 24); [| lia].
  - destruct (ui <=? 255)%Z; [done |]. destruct (ui <=? 65535)%Z; [done |]. by destruct (ui <=? 4294967295)%Z.
Qed.

Lemma width_fits ui : (0 <= ui < 2 ^ 64)%Z -> width ui <> 0 -> (ui mod 256 ^ Z.of_nat (width ui))%Z = ui.
Proof.
  intros. apply Z.mod_small. unfold width in *. destruct (Z.ltb_spec ui 24); [done |].
  destruct (Z.leb_spec ui 255); [cbn; lia |]. destruct (Z.leb_spec ui 65535); [cbn; lia |].
  destruct (Z.leb_spec ui 4294967295); [cbn; lia |]. change (256 ^ Z.of_nat 8)%Z with (2 ^ 64)%Z. lia.
Qed.

(** A major type that has a number, which is its length or value. *)
Definition numbered (shifted : Z) : Prop :=
  shifted = UnsignedInteger \/ shifted = NegativeInteger \/ shifted = ByteString \/ shifted = TextString \/
  shifted = ArrayType \/ shifted = MapType \/ shifted = TagType.

Lemma numbered_first shifted d : numbered shifted -> (0 <= d <= 31)%Z ->
  Zb (byte (shifted + d)) = (shifted + d)%Z /\ Z.land (shifted + d) 224 = shifted /\ Z.land (shifted + d) 31 = d.
Proof.
  intros Hs Hd. assert (Hk : exists k, (0 <= k <= 6)%Z /\ shifted = (32 * k)%Z).
  { unfold numbered in Hs. destruct Hs as [->|[->|[->|[->|[->|[->| ->]]]]]].
    - by exists 0%Z. - by exists 1%Z. - by exists 2%Z. - by exists 3%Z. - by exists 4%Z. - by exists 5%Z. - by exists 6%Z. }
  destruct Hk as (k & Hk & ->). rewrite Zb_byte_small, land_224, land_31 by lia.
  split; [done |]. split.
  - rewrite (Z.mul_comm 32 k), Z.div_add_l by lia. rewrite Z.div_small by lia. lia.
  - rewrite (Z.mul_comm 32 k), Z.add_comm, Z.mod_add by lia. apply Z.mod_small; lia.
Qed.

(** ** What the parser makes of a head *)

(** The two iterators count the same items of the same container. *)
Record same_place (v v' : CborValue) : Prop := {
  sp_remaining : cv_remaining v' = cv_remaining v;
  sp_map : f_map (cv_flags v') = f_map (cv_flags v);
  sp_key : f_key (cv_flags v') = f_key (cv_flags v);
}.

Lemma same_place_trans v1 v2 v3 : same_place v1 v2 -> same_place v2 v3 -> same_place v1 v3.
Proof. intros [] []. constructor; congruence. Qed.

(** The iterator has read the head of an item with the number [ui], which [rest]
    follows. *)
Record at_head (v : CborValue) (ui shifted : Z) (rest : bytes) : Prop := {
  ah_rest : cv_rest v = head ui shifted ++ rest;
  ah_type : cv_type v = if (shifted =? NegativeInteger)%Z then CborIntegerType else shifted;
  ah_number : extract_int64 v = CRet ui;
  ah_advance : extract_number_and_advance v = CRet (ui, v <| cv_rest := rest |>);
  ah_neg : f_neg (cv_flags v) = (shifted =? NegativeInteger)%Z;
  ah_known : f_unknown (cv_flags v) = false;
}.

Lemma read_head_first v ui shifted rest : numbered shifted -> (0 <= ui)%Z -> cv_rest v = head ui shifted ++ rest ->
  read_unchecked v 0 1 = CRet (shifted + descriptor ui)%Z.
Proof.
  intros Hs Hu E. unfold read_unchecked. rewrite E, head_split. cbn [length app]. rewrite (proj2 (Nat.leb_le _ _)) by lia.
  cbn [drop take]. rewrite get_be_one. pose proof (descriptor_range ui Hu).
  by destruct (numbered_first shifted (descriptor ui)) as (-> & _); [done | lia |].
Qed.

Lemma read_head_number v ui shifted rest : (0 <= ui < 2 ^ 64)%Z -> width ui <> 0 -> cv_rest v = head ui shifted ++ rest ->
  read_unchecked v 1 (width ui) = CRet ui.
Proof.
  intros Hu Hw E. unfold read_unchecked. rewrite E, head_split, <- app_comm_cons. cbn [length drop].
  rewrite length_app, length_put_be. rewrite (proj2 (Nat.leb_le _ _)) by lia.
  rewrite drop_0, take_app_length' by by rewrite length_put_be. by rewrite get_put_be, width_fits by lia.
Qed.

Lemma head_advance v ui shifted rest : numbered shifted -> (0 <= ui < 2 ^ 64)%Z -> cv_rest v = head ui shifted ++ rest ->
  extract_int64 v = CRet ui -> extract_number_and_advance v = CRet (ui, v <| cv_rest := rest |>).
Proof.
  intros Hs Hu E En. unfold extract_number_and_advance. rewrite En. cstep.
  rewrite (read_head_first v ui shifted rest) by (lia || done). cstep.
  pose proof (descriptor_range ui ltac:(lia)). destruct (numbered_first shifted (descriptor ui)) as (_ & _ & ->); [done | lia |].
  rewrite width_needed by lia. unfold advance_bytes. rewrite E, head_split, <- app_comm_cons. cbn [length].
  rewrite length_app, length_put_be. rewrite (proj2 (Nat.leb_le _ _)) by lia. cstep.
  rewrite Nat.add_1_r. cbn [drop]. by rewrite drop_app_length' by by rewrite length_put_be.
Qed.

Lemma preparse_numbered v shifted d : numbered shifted ->
  preparse_type v shifted d = pret (if (shifted =? NegativeInteger)%Z
    then v <| cv_flags := (cv_flags v) <| f_neg := true |> |> <| cv_type := CborIntegerType |> else v).
Proof.
  intros Hs. unfold preparse_type. destruct (Z.eqb_spec shifted NegativeInteger); [done |].
  destruct (Z.eqb_spec shifted SimpleTypes) as [->|]; [| done].
  by destruct Hs as [?|[?|[?|[?|[?|[?|?]]]]]].
Qed.

Lemma preparse_head v ui shifted rest : numbered shifted -> (0 <= ui < 2 ^ 64)%Z -> cv_rest v = head ui shifted ++ rest ->
  exists st, preparse_value v = pret st /\ at_head st ui shifted rest /\ same_place v st.
Proof.
  intros Hs Hu E. unfold preparse_value. set (v0 := setf cv_flags _ _). assert (E0 : cv_rest v0 = head ui shifted ++ rest) by done.
  assert (Hlen : can_read_bytes v0 1 = true /\ can_read_bytes v0 (width ui + 1) = true).
  { unfold can_read_bytes. rewrite E0, head_split, <- app_comm_cons. cbn [length]. rewrite length_app, length_put_be.
    split; apply Nat.leb_le; lia. }
  destruct Hlen as [-> Hlen]. cbn [negb]. rewrite (read_head_first v0 ui shifted rest) by (lia || done).
  unfold pbind, plift. cstep. pose proof (descriptor_range ui ltac:(lia)) as Hd.
  destruct (numbered_first shifted (descriptor ui)) as (_ & -> & ->); [done | lia |].
  rewrite width_needed by lia. destruct (Z.ltb_spec 27 (descriptor ui)); [lia |].
  assert (Hst : forall st, cv_rest st = head ui shifted ++ rest -> extract_int64 st = CRet ui ->
    same_place v st -> cv_type st = shifted -> f_neg (cv_flags st) = false -> f_unknown (cv_flags st) = false ->
    exists st', preparse_type st shifted (descriptor ui) = pret st' /\ at_head st' ui shifted rest /\ same_place v st').
  { intros st H1 H2 [H3 H4 H5] H6 H7 H8. rewrite preparse_numbered by done. eexists. split; [done |].
    destruct (Z.eqb_spec shifted NegativeInteger) as [->|Hn].
    - split; [| done]. constructor; try done. by eapply head_advance.
    - split; [| done]. constructor; rewrite ?(proj2 (Z.eqb_neq _ _) Hn); try done. by eapply head_advance. }
  destruct (Nat.eqb_spec (width ui) 0) as [Hw|Hw].
  - apply Hst; try done. unfold extract_int64. cbn. f_equal. revert Hw. unfold width, descriptor. by repeat case_match.
  - match goal with |- context [can_read_bytes ?w (width ui + 1)] => change (can_read_bytes w (width ui + 1)) with (can_read_bytes v0 (width ui + 1)) end.
    rewrite Hlen. cbn [negb]. destruct (Nat.leb_spec (width ui) 2) as [H2|H2].
    + rewrite (read_head_number _ ui shifted rest) by done. cstep. by apply Hst.
    + apply Hst; try done. unfold extract_int64.
      match goal with |- context [if f_64 ?f then 8 else 4] => replace (if f_64 f then 8 else 4) with (width ui) end.
      * by apply (read_head_number _ ui shifted rest).
      * cbn. revert H2. unfold width, descriptor. repeat case_match; lia.
Qed.

(** ** From one item to the next *)

Lemma preparse_start v v' : cv_rest v' = cv_rest v -> same_place v v' -> preparse_value v' = preparse_value v.
Proof.
  destruct v as [r rem ex ty [? ? ? ? ? m k]], v' as [r' rem' ex' ty' [? ? ? ? ? m' k']].
  intros E [Hr Hm Hk]. cbn in E, Hr, Hm, Hk. subst. by destruct r.
Qed.

(** The iterator is past an item of the place of [v]. *)
Record past (v it : CborValue) (rest : bytes) : Prop := {
  pa_rest : cv_rest it = rest;
  pa_place : same_place v it;
  pa_type : cv_type it <> CborTagType;
}.

(** Bytes that begin as an item does. *)
Definition item (data : bytes) : Prop :=
  (exists a l, data = a :: l /\ Zb a <> BreakByte) /\
  forall v rest, cv_rest v = data ++ rest -> exists st, preparse_value v = pret st /\ same_place v st.

Lemma item_app data data' : item data -> item (data ++ data').
Proof.
  intros [(a & l & -> & Ha) H]. split; [by exists a, (l ++ data') |].
  intros v rest E. eapply H. by rewrite E, <- app_assoc.
Qed.

Lemma item_head ui shifted data : numbered shifted -> (0 <= ui < 2 ^ 64)%Z -> item (head ui shifted ++ data).
Proof.
  intros Hs Hu. split.
  - rewrite head_split. eexists _, _. split; [done |]. pose proof (descriptor_range ui ltac:(lia)) as Hd.
    destruct (numbered_first shifted (descriptor ui)) as (-> & _ & _); [done | lia |]. unfold BreakByte.
    destruct Hs as [->|[->|[->|[->|[->|[->| ->]]]]]]; unfold UnsignedInteger, NegativeInteger, ByteString, TextString, ArrayType, MapType, TagType; lia.
  - intros v rest E. rewrite <- app_assoc in E. destruct (preparse_head v ui shifted _ Hs Hu E) as (st & ? & ? & ?). by exists st.
Qed.

(** What ends a container's items: nothing, or the byte that breaks off an
    indefinite one. *)
Definition tail (definite : bool) (rest : bytes) : bytes := if definite then rest else byte BreakByte :: rest.

(** [inner] iterates a container of which [cnt] items are left, in [data]. *)
Definition inner_at (definite m k : bool) (cnt : nat) (data rest : bytes) (inner : CborValue) : Prop :=
  match cnt with
  | 0 => data = [] /\ cv_remaining inner = 0%Z /\ cv_type inner = CborInvalidType /\
         f_unknown (cv_flags inner) = negb definite /\ cv_rest inner = tail definite rest
  | _ => exists v, preparse_value v = pret inner /\ same_place v inner /\ cv_rest v = data ++ tail definite rest /\
         cv_remaining v = (if definite then Z.of_nat cnt else UINT32_MAX) /\ f_map (cv_flags v) = m /\ f_key (cv_flags v) = k
  end.

Lemma nodecrement_item v data rest : item data -> cv_rest v = data ++ rest ->
  preparse_next_value_nodecrement v = preparse_value v.
Proof.
  intros [(a & l & -> & Ha) _] E. unfold preparse_next_value_nodecrement. rewrite E. cbn [app].
  rewrite (proj2 (Z.eqb_neq _ _) Ha). by rewrite andb_false_r.
Qed.

Lemma next_inner definite m k cnt v it data rest : past v it (data ++ tail definite rest) ->
  cv_remaining v = (if definite then Z.of_nat (S cnt) else UINT32_MAX) -> (Z.of_nat (S cnt) < UINT32_MAX)%Z ->
  f_map (cv_flags v) = m -> f_key (cv_flags v) = k ->
  (if cnt is 0 then data = [] /\ m && negb k = false else item data) ->
  exists inner, preparse_next_value it = pret inner /\ inner_at definite m (negb k) cnt data rest inner.
Proof.
  intros [Hrest [Hr Hm Hk] Ht] Erem Hmax <- <- Hd. unfold preparse_next_value.
  rewrite (proj2 (Z.eqb_neq _ _) Ht). cbn [negb]. rewrite Hr, Erem.
  destruct definite; cbn [tail] in Hrest.
  - rewrite (proj2 (Z.eqb_neq _ UINT32_MAX)) by lia. cbn [negb andb].
    replace ((Z.of_nat (S cnt) - 1) mod 2 ^ 32)%Z with (Z.of_nat cnt) by (rewrite Z.mod_small; unfold UINT32_MAX in *; lia).
    destruct cnt as [|cnt].
    + destruct Hd as [-> _]. eexists. split; [reflexivity |]. by split_and!.
    + cbn [cv_remaining setf]. destruct (Z.eqb_spec (Z.of_nat (S cnt)) 0); [lia |].
      set (it' := setf cv_flags _ _). rewrite (nodecrement_item it' data rest) by done.
      destruct (proj2 Hd it' rest Hrest) as (st & E & Hp). exists st. split; [done |].
      exists it'. split_and!; try done; cbn; congruence.
  - rewrite Z.eqb_refl. cbn [negb andb]. set (it' := setf cv_flags _ _).
    destruct cnt as [|cnt].
    + destruct Hd as [-> Hkey]. unfold preparse_next_value_nodecrement.
      assert (Hr' : cv_rest it' = byte BreakByte :: rest) by done. rewrite Hr'.
      rewrite Zb_byte_small by done. rewrite Z.eqb_refl.
      replace (cv_remaining it') with UINT32_MAX by (cbn; congruence). rewrite Z.eqb_refl. cbn [andb].
      replace (f_map (cv_flags it') && f_key (cv_flags it')) with false by (cbn; by rewrite Hm, Hk, Hkey).
      replace (cv_type it' =? CborTagType)%Z with false by (symmetry; by apply Z.eqb_neq). cbn [orb].
      eexists. split; [reflexivity |]. by split_and!.
    + rewrite (nodecrement_item it' data (byte BreakByte :: rest)) by done.
      destruct (proj2 Hd it' (byte BreakByte :: rest) Hrest) as (st & E & Hp). exists st. split; [done |].
      exists it'. split_and!; try done; cbn; congruence.
Qed.

Lemma enter_definite st shifted n cnt data rest : shifted = ArrayType \/ shifted = MapType ->
  cnt = (if (shifted =? MapType)%Z then n * 2 else n) -> (Z.of_nat cnt < UINT32_MAX)%Z ->
  (if cnt is 0 then data = [] else item data) -> at_head st (Z.of_nat n) shifted (data ++ rest) ->
  exists inner, cbor_value_enter_container st = pret inner /\ inner_at true (shifted =? MapType)%Z false cnt data rest inner.
Proof.
  intros Hs Hcnt Hmax Hd [Er Et _ Ea _ Eu]. unfold cbor_value_enter_container.
  replace (is_container (cv_type st)) with true by (rewrite Et; by destruct Hs as [->| ->]). cbn [passert].
  rewrite Eu, Ea. unfold pbind, plift. cstep.
  assert (Ht : cv_type st = shifted) by (rewrite Et; by destruct Hs as [->| ->]). clear Et.
  set (v := setf cv_rest _ _). change (cv_type v) with (cv_type st). rewrite Ht. change CborMapType with MapType.
  assert (Hn : (Z.of_nat n <= Z.of_nat cnt)%Z) by (rewrite Hcnt; destruct (shifted =? MapType)%Z; lia).
  destruct (Z.ltb_spec 4294967295 (Z.of_nat n)); [unfold UINT32_MAX in *; lia |].
  destruct (Z.eqb_spec (Z.of_nat n) UINT32_MAX); [lia |]. cbn [orb].
  replace ((shifted =? MapType)%Z && (UINT32_MAX / 2 <? Z.of_nat n)%Z) with false.
  2:{ clear -Hcnt Hmax. revert Hcnt. destruct (shifted =? MapType)%Z; [| done]. intros ->. symmetry. apply Z.ltb_ge.
      unfold UINT32_MAX in *. change (4294967295 / 2)%Z with 2147483647%Z. lia. }
  set (v' := setf cv_remaining _ _).
  assert (Hrem : cv_remaining v' = Z.of_nat cnt) by (subst v'; cbn; rewrite Hcnt; destruct (shifted =? MapType)%Z; lia).
  destruct cnt as [|cnt].
  - assert (n = 0) as -> by (revert Hcnt; destruct (shifted =? MapType)%Z; lia). cbn [Z.of_nat Z.eqb].
    eexists. split; [reflexivity |]. subst data. by split_and!.
  - destruct (Z.eqb_spec (Z.of_nat n) 0); [revert Hcnt; destruct (shifted =? MapType)%Z; lia |].
    set (v2 := setf cv_flags _ _). rewrite (nodecrement_item v2 data rest) by done.
    destruct (proj2 Hd v2 rest eq_refl) as (inner & E & Hp). exists inner. split; [done |].
    exists v2. split_and!; try done. cbn. by rewrite Ht.
Qed.

Lemma enter_indefinite st shifted a cnt data rest : shifted = ArrayType \/ shifted = MapType ->
  (if cnt is 0 then data = [] else item data) -> cv_type st = shifted -> f_unknown (cv_flags st) = true ->
  cv_rest st = a :: data ++ tail false rest ->
  exists inner, cbor_value_enter_container st = pret inner /\ inner_at false (shifted =? MapType)%Z false cnt data rest inner.
Proof.
  intros Hs Hd Ht Hu Hr. unfold cbor_value_enter_container.
  replace (is_container (cv_type st)) with true by (rewrite Ht; by destruct Hs as [->| ->]). cbn [passert].
  rewrite Hu. unfold pbind, plift, advance_bytes. rewrite Hr. cbn [length]. rewrite (proj2 (Nat.leb_le _ _)) by lia. cstep.
  rewrite skipn_cons, drop_0. set (v2 := setf cv_flags _ _). destruct cnt as [|cnt].
  - subst data. unfold preparse_next_value_nodecrement.
    assert (Hr' : cv_rest v2 = byte BreakByte :: rest) by done. rewrite Hr'.
    rewrite Zb_byte_small by done. rewrite Z.eqb_refl. change (cv_remaining v2) with UINT32_MAX. rewrite Z.eqb_refl. cbn [andb].
    replace (f_map (cv_flags v2) && f_key (cv_flags v2)) with false by (cbn; by rewrite andb_false_r).
    replace (cv_type v2 =? CborTagType)%Z with false by (cbn; rewrite Ht; by destruct Hs as [->| ->]). cbn [orb].
    eexists. split; [reflexivity |]. by split_and!.
  - rewrite (nodecrement_item v2 data (byte BreakByte :: rest)) by done.
    destruct (proj2 Hd v2 (byte BreakByte :: rest) eq_refl) as (inner & E & Hp). exists inner. split; [done |].
    exists v2. split_and!; try done. cbn. by rewrite Ht.
Qed.

Lemma leave_inner st definite m k rest inner : is_container (cv_type st) = true -> inner_at definite m k 0 [] rest inner ->
  exists it, past st it rest /\ cbor_value_leave_container st inner = preparse_next_value it.
Proof.
  intros Hc (_ & _ & Ht & Hu & Hr). unfold cbor_value_leave_container. rewrite Hc, Ht. cbn [andb passert Z.eqb CborInvalidType].
  change (255 =? 255)%Z with true. cbn [passert].
  assert (Htag : cv_type st <> CborTagType) by (intros E; by rewrite E in Hc).
  rewrite Hu. destruct definite; cbn [negb tail] in *.
  - eexists. split; [| unfold pbind, plift; cstep; reflexivity]. by constructor.
  - eexists. split; [| unfold pbind, plift, advance_bytes; cbn [cv_rest setf]; rewrite Hr; cbn [length]; cbn [Nat.leb]; cstep; reflexivity].
    by constructor.
Qed.

(** ** Values *)

Lemma advance_number st ui shifted rest :
  shifted = UnsignedInteger \/ shifted = NegativeInteger \/ shifted = TagType ->
  at_head st ui shifted rest -> cv_remaining st <> 0%Z ->
  cbor_value_advance_fixed st = preparse_next_value (st <| cv_rest := rest |>).
Proof.
  intros Hs [Er Et _ Ea _ Eu] Hr. unfold cbor_value_advance_fixed.
  replace (negb (cv_type st =? CborInvalidType)%Z && is_fixed_type (cv_type st)) with true
    by (rewrite Et; by destruct Hs as [->|[->| ->]]).
  cbn [passert]. rewrite (proj2 (Z.eqb_neq _ _) Hr). unfold advance_internal. rewrite Ea. unfold pbind, plift. cstep.
  replace ((cv_type (st <| cv_rest := rest |>) =? CborByteStringType) || (cv_type (st <| cv_rest := rest |>) =? CborTextStringType))%Z
    with false by (cbn; rewrite Et; by destruct Hs as [->|[->| ->]]).
  done.
Qed.

(** A tag in front of an item. *)
Lemma advance_tag st ui data rest : at_head st ui TagType (data ++ rest) -> cv_remaining st <> 0%Z -> item data ->
  exists st', cbor_value_advance_fixed st = pret st' /\ same_place st st' /\
    forall v, cv_rest v = data ++ rest -> same_place st v -> preparse_value v = pret st'.
Proof.
  intros Hh Hr Hd. rewrite (advance_number st ui TagType (data ++ rest)) by auto. pose proof Hh as [_ Et _ _ _ _].
  unfold preparse_next_value. change (cv_type (st <| cv_rest := data ++ rest |>)) with (cv_type st). rewrite Et.
  change ((if (TagType =? NegativeInteger)%Z then CborIntegerType else TagType) =? CborTagType)%Z with true. cbn [negb].
  rewrite andb_false_r. cbn [andb]. set (st1 := st <| cv_rest := data ++ rest |>). rewrite (nodecrement_item st1 data rest) by done.
  destruct (proj2 Hd st1 rest eq_refl) as (st' & E & Hp). exists st'. split; [done |]. split; [by destruct Hp |].
  intros v Ev Hv. rewrite <- E. apply preparse_start; [done |]. by destruct Hv.
Qed.

Lemma drop_head ui shifted rest : drop (width ui + 1) (head ui shifted ++ rest) = rest.
Proof. rewrite head_split, Nat.add_1_r, <- app_comm_cons, skipn_cons. apply drop_app_length'. by rewrite length_put_be. Qed.

Lemma length_head ui shifted : length (head ui shifted) = width ui + 1.
Proof. rewrite head_split. cbn [length]. rewrite length_put_be. lia. Qed.

Lemma string_size st ui shifted rest : shifted = TextString \/ shifted = ByteString -> (0 <= ui < 2 ^ 64)%Z ->
  cv_rest st = head ui shifted ++ rest -> cv_type st = shifted -> f_neg (cv_flags st) = true ->
  get_string_chunk_size st = pret (width ui + 1, ui).
Proof.
  intros Hs Hu Er Et En. unfold get_string_chunk_size. rewrite En, andb_false_r.
  assert (Hn : numbered shifted) by (unfold numbered; tauto).
  assert (Hlen : can_read_bytes st 1 = true /\ can_read_bytes st (1 + width ui) = true).
  { unfold can_read_bytes. rewrite Er, length_app, length_head. split; apply Nat.leb_le; lia. }
  destruct Hlen as [-> Hlen]. cbn [negb]. rewrite (read_head_first st ui shifted rest) by (done || lia).
  unfold pbind, plift. cstep. pose proof (descriptor_range ui ltac:(lia)) as Hd.
  destruct (numbered_first shifted (descriptor ui)) as (_ & -> & ->); [done | lia |].
  rewrite (proj2 (Z.eqb_neq _ BreakByte)) by (unfold BreakByte; destruct Hs as [->| ->]; unfold TextString, ByteString; lia).
  rewrite Et, Z.eqb_refl. cbn [negb]. rewrite width_needed by lia.
  destruct (Z.ltb_spec (descriptor ui) 24) as [H|H].
  - assert (Hw : width ui = 0 /\ descriptor ui = ui) by (revert H; unfold width, descriptor; repeat case_match; lia).
    destruct Hw as [-> ->]. done.
  - assert (Hw : width ui <> 0) by (revert H; unfold width, descriptor; repeat case_match; lia).
    destruct (Z.ltb_spec 27 (descriptor ui)); [lia |]. rewrite Hlen. cbn [negb].
    by rewrite (read_head_number st ui shifted rest).
Qed.

Lemma string_chunk st s shifted rest : shifted = TextString \/ shifted = ByteString ->
  (Z.of_nat (length s) < 2 ^ 64)%Z -> cv_rest st = head (Z.of_nat (length s)) shifted ++ s ++ rest ->
  cv_type st = shifted -> f_neg (cv_flags st) = true ->
  get_string_chunk st = pret (s, (st <| cv_rest := rest |>) <| cv_flags := (cv_flags st) <| f_neg := false |> |>).
Proof.
  intros Hs Hl Er Et En. unfold get_string_chunk.
  rewrite (string_size st (Z.of_nat (length s)) shifted (s ++ rest)) by (done || lia).
  unfold pbind, plift, advance_bytes, pret. cstep. rewrite Er, drop_head, length_app, length_head.
  rewrite (proj2 (Nat.leb_le _ _)) by lia. cstep. cbn [cv_rest setf]. rewrite length_app, Nat2Z.id.
  rewrite (proj2 (Z.leb_le _ _)) by lia. rewrite take_app_length, drop_app_length. done.
Qed.

Lemma string_item st s shifted rest : shifted = TextString \/ shifted = ByteString ->
  (Z.of_nat (length s) < 2 ^ 64)%Z -> at_head st (Z.of_nat (length s)) shifted (s ++ rest) ->
  exists it, past st it rest /\
    forall st', preparse_next_value it = pret st' -> iterate_string_chunks st = pret (s, st').
Proof.
  intros Hs Hl [Er Et _ _ _ Eu]. assert (Ht : cv_type st = shifted) by (rewrite Et; by destruct Hs as [->| ->]). clear Et.
  set (v1 := st <| cv_flags := (cv_flags st) <| f_neg := true |> <| f_chunks := true |> |>).
  set (v2 := (v1 <| cv_rest := rest |>) <| cv_flags := (cv_flags v1) <| f_neg := false |> |>).
  assert (E1 : get_string_chunk v1 = pret (s, v2)) by (by apply string_chunk with shifted).
  assert (E2 : get_string_chunk v2 = perr CborErrorNoMoreStringChunks).
  { unfold get_string_chunk, get_string_chunk_size. change (f_unknown (cv_flags v2)) with (f_unknown (cv_flags st)).
    rewrite Eu. done. }
  exists v2. split; [constructor; [done | done |]; cbn; rewrite Ht; by destruct Hs as [->| ->] |].
  intros st' Hst. unfold iterate_string_chunks. rewrite Ht.
  replace ((shifted =? CborByteStringType) || (shifted =? CborTextStringType))%Z with true by (by destruct Hs as [->| ->]).
  cbn [passert]. unfold begin_string_iteration. fold v1. change (f_unknown (cv_flags v1)) with (f_unknown (cv_flags st)). rewrite Eu.
  unfold pbind at 1, plift at 1. cstep. cbn [string_chunks]. rewrite E1. unfold pret. cstep. rewrite E2. unfold pbind, perr. cstep.
  unfold finish_string_iteration. change (f_unknown (cv_flags v2)) with (f_unknown (cv_flags st)). rewrite Eu.
  unfold pbind, plift. cstep. rewrite Hst. done.
Qed.

(** Booleans and null. *)
Lemma preparse_simple v d rest : (20 <= d <= 22)%Z -> cv_rest v = byte (224 + d) :: rest ->
  exists st, preparse_value v = pret st /\ same_place v st /\ cv_rest st = cv_rest v /\
    cv_type st = (if (d =? 20)%Z then CborBooleanType else 224 + d)%Z /\ cv_extra st = (if (d =? 20)%Z then 0 else d)%Z /\
    extract_number_and_advance st = CRet (cv_extra st, st <| cv_rest := rest |>).
Proof.
  intros Hd E. destruct v as [r rem ex ty [? ? ? ? ? m k]]. cbn in E. subst r.
  assert (d = 20 \/ d = 21 \/ d = 22)%Z as [->|[->| ->]] by lia; eexists; (split; [reflexivity |]); (split; [by constructor |]); by split_and!.
Qed.

Lemma item_simple d data : (20 <= d <= 22)%Z -> item (byte (224 + d) :: data).
Proof.
  intros Hd. split.
  - eexists _, _. split; [done |]. rewrite Zb_byte_small by lia. unfold BreakByte. lia.
  - intros v rest E. destruct (preparse_simple v d (data ++ rest) Hd E) as (st & ? & ? & _). by exists st.
Qed.

Lemma preparse_double v bits rest : (0 <= bits < 2 ^ 64)%Z -> cv_rest v = byte 251 :: put_be 8 bits ++ rest ->
  exists st, preparse_value v = pret st /\ same_place v st /\ cv_rest st = cv_rest v /\ cv_type st = CborDoubleType /\
    f_large (cv_flags st) = true /\ extract_int64 st = CRet bits /\
    extract_number_and_advance st = CRet (bits, st <| cv_rest := rest |>).
Proof.
  intros Hb. assert (Hg : get_be (put_be 8 bits) = bits) by (rewrite get_put_be by lia; apply Z.mod_small; done).
  pose proof (length_put_be 8 bits) as Hl. revert Hg Hl. generalize (put_be 8 bits) as l. intros l Hg Hl E.
  destruct v as [r rem ex ty [? ? ? ? ? m k]]. cbn [cv_rest] in E. subst r.
  do 8 (destruct l as [|? l]; [done |]). destruct l; [| done]. subst bits.
  eexists. split; [reflexivity |]. split; [by constructor |]. by split_and!.
Qed.

Lemma item_double bits data : (0 <= bits < 2 ^ 64)%Z -> item (byte 251 :: put_be 8 bits ++ data).
Proof.
  intros Hd. split.
  - eexists _, _. split; [done |]. done.
  - intros v rest E. rewrite <- app_comm_cons, <- app_assoc in E.
    destruct (preparse_double v bits (data ++ rest) Hd E) as (st & ? & ? & _). by exists st.
Qed.

(** What is not a number, string or container is passed over alike. *)
Lemma advance_fixed st n rest : is_fixed_type (cv_type st) = true -> cv_type st <> CborInvalidType -> cv_remaining st <> 0%Z ->
  extract_number_and_advance st = CRet (n, st <| cv_rest := rest |>) ->
  cbor_value_advance_fixed st = preparse_next_value (st <| cv_rest := rest |>).
Proof.
  intros Hf Hi Hr E. unfold cbor_value_advance_fixed. rewrite Hf, (proj2 (Z.eqb_neq _ _) Hi), (proj2 (Z.eqb_neq _ _) Hr).
  cbn [negb andb passert]. unfold advance_internal. rewrite E. unfold pbind, plift. cstep.
  change (cv_type (st <| cv_rest := rest |>)) with (cv_type st).
  unfold is_fixed_type in Hf. apply negb_true_iff in Hf. rewrite !orb_false_iff in Hf. destruct Hf as [[[H1 H2] _] _]. by rewrite H1, H2.
Qed.

(** ** What the encoder appends

    [writes e data n e']: from [e] to [e'] the encoder appended [data], if there
    was room for it, and has [n] items left to count. *)
Record writes (e : CborEncoder) (data : bytes) (n : Z) (e' : CborEncoder) : Prop := {
  wr_cap : en_cap e' = en_cap e;
  wr_remaining : en_remaining e' = n;
  wr_fits : en_full e = false -> length (en_out e) + length data <= en_cap e ->
    en_full e' = false /\ en_out e' = en_out e ++ data;
  wr_full : en_full e = true \/ en_cap e < length (en_out e) + length data -> en_full e' = true;
}.

(** What such a call returns. *)
Definition enc_err (e : CborEncoder) : CborError := if en_full e then CborErrorOutOfMemory else CborNoError.

Definition one_less (e : CborEncoder) : Z := en_remaining (saturated_decrement e).

Lemma writes_app e d1 n1 e1 d2 n2 e2 : writes e d1 n1 e1 -> writes e1 d2 n2 e2 -> writes e (d1 ++ d2) n2 e2.
Proof.
  intros [C1 _ F1 G1] [C2 R2 F2 G2]. constructor; rewrite ?length_app; [congruence | done | |].
  - intros Hf Hl. destruct F1 as [Hf1 Ho1]; [done | lia |]. destruct F2 as [? ->]; [done | rewrite Ho1, length_app; lia |].
    by rewrite Ho1, app_assoc.
  - intros Hf. apply G2. destruct (en_full e1) eqn:E1; [by left | right].
    destruct (en_full e) eqn:E0; [by specialize (G1 (or_introl eq_refl)) |]. destruct Hf as [?|Hf]; [done |].
    destruct (decide (length (en_out e) + length d1 <= en_cap e)) as [Hl|Hl].
    + destruct F1 as [_ ->]; [done | done |]. rewrite length_app. lia.
    + by specialize (G1 ltac:(right; lia)).
Qed.

Lemma append_writes e data : writes e data (en_remaining e) (fst (append_to_buffer e data)) /\
  snd (append_to_buffer e data) = enc_err (fst (append_to_buffer e data)) /\
  en_unknown (fst (append_to_buffer e data)) = en_unknown e.
Proof.
  unfold append_to_buffer, enc_err. destruct (en_full e) eqn:Ef; cbn [fst snd].
  - rewrite Ef. split; [| done]. constructor; try done. congruence.
  - destruct (Nat.ltb_spec (en_cap e) (length (en_out e) + length data)) as [H|H]; cbn [fst snd].
    + split; [| done]. constructor; try done. intros; lia.
    + change (en_full (e <| en_out := en_out e ++ data |>)) with (en_full e). rewrite Ef.
      split; [| done]. constructor; try done. intros [?|?]; [congruence | lia].
Qed.

(** A call that appends [data] and counts one item. *)
Definition appends (f : CborEncoder -> CborEncoder * CborError) (data : bytes) : Prop :=
  forall e, writes e data (one_less e) (fst (f e)) /\ snd (f e) = enc_err (fst (f e)) /\ en_unknown (fst (f e)) = en_unknown e.

Lemma number_appends ui shifted : appends (fun e => encode_number e ui shifted) (head ui shifted).
Proof.
  intros e. destruct (append_writes (saturated_decrement e) (head ui shifted)) as ([H1 H2 H3 H4] & ? & ?).
  split; [| done]. by constructor.
Qed.

Lemma double_appends bits : appends (fun e => cbor_encode_double e bits) (byte 251 :: put_be 8 bits).
Proof.
  intros e. destruct (append_writes (saturated_decrement e) (byte 251 :: put_be 8 bits)) as ([H1 H2 H3 H4] & ? & ?).
  split; [| done]. by constructor.
Qed.

Lemma string_appends s shifted : appends (fun e => encode_string e s shifted) (head (Z.of_nat (length s)) shifted ++ s).
Proof.
  intros e. unfold encode_string. destruct (number_appends (Z.of_nat (length s)) shifted e) as (H1 & _ & U1).
  destruct (encode_number e _ _) as [e1 r1]. cbn [fst] in *. destruct (append_writes e1 s) as (H2 & E2 & U2).
  split; [| split; [done | congruence]]. eapply writes_app; [done |]. by rewrite <- (wr_remaining _ _ _ _ H1).
Qed.

(** A tag, and the string behind it. *)
Lemma tagged_appends tag s shifted :
  appends (fun e => encode_string (fst (cbor_encode_tag e tag)) s shifted)
    (head tag TagType ++ head (Z.of_nat (length s)) shifted ++ s).
Proof.
  intros e. destruct (append_writes e (head tag TagType)) as (H1 & _ & U1).
  unfold cbor_encode_tag, encode_number_no_update.
  destruct (string_appends s shifted (fst (append_to_buffer e (head tag TagType)))) as (H2 & E2 & U2).
  split; [| split; [done | congruence]]. eapply writes_app; [done |].
  unfold one_less, saturated_decrement in *. cbn in *. by rewrite (wr_remaining _ _ _ _ H1) in H2.
Qed.

(** A container of [n] elements is [n + 1] to its encoder, or [2n + 1] if it is a map. *)
Lemma create_definite e n shifted : (Z.of_nat n < 2 ^ 32)%Z ->
  let '(parent, inner, err) := create_container e (Some n) shifted in
  parent = saturated_decrement e /\ err = enc_err inner /\ en_unknown inner = false /\
  writes e (head (Z.of_nat n) shifted) (Z.of_nat ((if (shifted =? MapType)%Z then n * 2 else n) + 1)) inner.
Proof.
  intros Hn. unfold create_container, encode_number_no_update.
  set (e0 := setf en_unknown _ _). destruct (append_writes e0 (head (Z.of_nat n) shifted)) as ([H1 H2 H3 H4] & E & U).
  destruct (append_to_buffer e0 _) as [inner err]. cbn [fst snd] in *. split_and!; [done | done | done |].
  constructor; [done | | done | done]. rewrite H2. cbn. rewrite Z.mod_small; destruct (shifted =? MapType)%Z; lia.
Qed.

Lemma create_indefinite e shifted :
  let '(parent, inner, err) := create_container e None shifted in
  parent = saturated_decrement e /\ err = enc_err inner /\ en_unknown inner = true /\
  writes e [byte (shifted + 31)] 0 inner.
Proof.
  unfold create_container. set (e0 := setf en_unknown _ _).
  destruct (append_writes e0 [byte (shifted + 31)]) as ([H1 H2 H3 H4] & E & U).
  destruct (append_to_buffer e0 _) as [inner err]. cbn [fst snd] in *. by split_and!.
Qed.

Lemma close_definite e data inner : writes e data 1 inner -> en_unknown inner = false ->
  let '(e', err) := cbor_encoder_close_container (saturated_decrement e) inner in
  writes e data (one_less e) e' /\ err = enc_err e' /\ en_unknown e' = en_unknown e.
Proof.
  intros [H1 H2 H3 H4] Hu. unfold cbor_encoder_close_container. rewrite Hu, H2. cbn [negb Z.eqb]. change (1 =? 1)%Z with true. cbn [negb].
  split_and!; [by constructor | done | done].
Qed.

Lemma close_indefinite e data n inner : writes e data n inner -> en_unknown inner = true ->
  let '(e', err) := cbor_encoder_close_container (saturated_decrement e) inner in
  writes e (data ++ [byte BreakByte]) (one_less e) e' /\ err = enc_err e' /\ en_unknown e' = en_unknown e.
Proof.
  intros [H1 H2 H3 H4] Hu. unfold cbor_encoder_close_container. rewrite Hu.
  set (p := setf en_full _ _). destruct (append_writes p [byte BreakByte]) as (H & E & U).
  destruct (append_to_buffer p _) as [e' err]. cbn [fst snd] in *. split_and!; [| done | done].
  eapply writes_app; [| exact H]. by constructor.
Qed.

(** ** The parser on any bytes *)

(** [m] returns, and what it returns without an error satisfies [Q]. *)
Definition safe {A} (m : parsed A) (Q : A -> Prop) : Prop :=
  match m with
  | CRet (inl _) => True
  | CRet (inr a) => Q a
  | _ => False
  end.

Lemma safe_bind {A B} (m : parsed A) (k : A -> parsed B) (Q : A -> Prop) (Q' : B -> Prop) :
  safe m Q -> (forall a, Q a -> safe (k a) Q') -> safe (pbind m k) Q'.
Proof. intros Hm Hk. destruct m as [[e|a]| | |]; try done. by apply Hk. Qed.

Lemma safe_mono {A} (m : parsed A) (Q Q' : A -> Prop) : safe m Q -> (forall a, Q a -> Q' a) -> safe m Q'.
Proof. intros Hm Hk. destruct m as [[e|a]| | |]; try done. by apply Hk. Qed.

Lemma safe_lift {A} (m : cres A) a (Q : A -> Prop) : m = CRet a -> Q a -> safe (plift m) Q.
Proof. by intros ->. Qed.

(** The type the parser gives to an item that begins with [a]. *)
Definition item_type (a : ascii) : Z :=
  let t := (Zb a / 32 * 32)%Z in
  let d := (Zb a mod 32)%Z in
  if (t =? NegativeInteger)%Z then CborIntegerType
  else if (t =? SimpleTypes)%Z then
    if (d =? 20)%Z then CborBooleanType
    else if ((21 <=? d) && (d <=? 27) && negb (d =? 24))%Z then Zb a else CborSimpleType
  else t.

(** The head of the item at the iterator is read, and the bytes it needs are there. *)
Record ready (v : CborValue) : Prop := Ready {
  rd_extra : (0 <= cv_extra v)%Z;
  rd_byte : exists a l, cv_rest v = a :: l /\ cv_type v = item_type a /\
    if f_unknown (cv_flags v) then (Zb a mod 32)%Z = 31%Z /\ is_fixed_type (cv_type v) = false
    else (Zb a mod 32 <= 27)%Z /\ bytes_needed (Zb a mod 32) <= length l /\
         f_large (cv_flags v) = (26 <=? Zb a mod 32)%Z /\ f_64 (cv_flags v) = (Zb a mod 32 =? 27)%Z;
}.

Lemma read_first v a l : cv_rest v = a :: l -> read_unchecked v 0 1 = CRet (Zb a).
Proof.
  intros E. unfold read_unchecked. rewrite E. cbn [length]. rewrite (proj2 (Nat.leb_le _ _)) by lia.
  cbn [drop take]. by rewrite get_be_one.
Qed.

Lemma bytes_needed_cases d : (0 <= d <= 27)%Z ->
  ((d < 24)%Z /\ bytes_needed d = 0) \/ ((d = 24)%Z /\ bytes_needed d = 1) \/ ((d = 25)%Z /\ bytes_needed d = 2) \/
  ((d = 26)%Z /\ bytes_needed d = 4) \/ ((d = 27)%Z /\ bytes_needed d = 8).
Proof.
  intros Hd. destruct (decide (d < 24)%Z) as [H|H].
  - left. split; [done |]. unfold bytes_needed. by destruct (Z.ltb_spec d 24); [| lia].
  - right. assert (d = 24 \/ d = 25 \/ d = 26 \/ d = 27)%Z as [->|[->|[->| ->]]] by lia; tauto.
Qed.

(** [preparse_value] on a head that is there. *)
Lemma preparse_type_ready v a l large is64 : cv_rest v = a :: l -> (Zb a mod 32 <= 27)%Z -> bytes_needed (Zb a mod 32) <= length l ->
  cv_type v = (Zb a / 32 * 32)%Z -> (0 <= cv_extra v)%Z -> f_unknown (cv_flags v) = false ->
  f_large (cv_flags v) = large -> large = (26 <=? Zb a mod 32)%Z -> f_64 (cv_flags v) = is64 -> is64 = (Zb a mod 32 =? 27)%Z ->
  safe (preparse_type v (Zb a / 32 * 32) (Zb a mod 32)) (fun st => ready st /\ cv_rest st = cv_rest v /\ same_place v st).
Proof.
  intros E Hd Hl Ht Hx Hu Hlg El H6 E6. unfold preparse_type.
  pose proof (Zb_range a) as Ha. pose proof (Z.mod_pos_bound (Zb a) 32 ltac:(lia)) as Hm.
  rewrite (read_first v a l E). unfold pbind, plift. cstep.
  assert (HR : forall st, cv_rest st = a :: l -> (0 <= cv_extra st)%Z -> cv_type st = item_type a -> f_unknown (cv_flags st) = false ->
    f_large (cv_flags st) = (26 <=? Zb a mod 32)%Z -> f_64 (cv_flags st) = (Zb a mod 32 =? 27)%Z -> ready st).
  { intros st H1 H0 H2 H3 H4 H5. constructor; [done |]. exists a, l. rewrite H3. by split_and!. }
  destruct (Z.eqb_spec (Zb a / 32 * 32) NegativeInteger) as [En|En].
  { cbn. split; [| split; [done | by constructor]]. apply HR; try done; [| by subst | by subst]. cbn. unfold item_type. by rewrite En. }
  destruct (Z.eqb_spec (Zb a / 32 * 32) SimpleTypes) as [Es|Es].
  2:{ cbn. split; [| split; [done | by constructor]]. apply HR; try done; [| by subst | by subst]. unfold item_type.
      by rewrite (proj2 (Z.eqb_neq _ _) En), (proj2 (Z.eqb_neq _ _) Es). }
  assert (Ht' : item_type a = if (Zb a mod 32 =? 20)%Z then CborBooleanType
    else if ((21 <=? Zb a mod 32) && (Zb a mod 32 <=? 27) && negb (Zb a mod 32 =? 24))%Z then Zb a else CborSimpleType).
  { unfold item_type. rewrite Es. done. }
  rewrite Es in Ht. remember (Zb a mod 32)%Z as d eqn:Ed. clear Ed.
  destruct (Z.eqb_spec d 20); [cbn; split; [| split; [done | by constructor]]; apply HR; try done; by subst |].
  destruct (Z.eqb_spec d 26); [cbn; split; [| split; [done | by constructor]]; apply HR; try done; by subst |].
  destruct (Z.eqb_spec d 27); [cbn; split; [| split; [done | by constructor]]; apply HR; try done; by subst |]. cbn [orb].
  destruct (Z.eqb_spec d 21); [cbn; split; [| split; [done | by constructor]]; apply HR; try done; by subst |].
  destruct (Z.eqb_spec d 22); [cbn; split; [| split; [done | by constructor]]; apply HR; try done; by subst |].
  destruct (Z.eqb_spec d 23); [cbn; split; [| split; [done | by constructor]]; apply HR; try done; by subst |].
  destruct (Z.eqb_spec d 25); [cbn; split; [| split; [done | by constructor]]; apply HR; try done; by subst |]. cbn [orb].
  assert (Hsimple : ready v).
  { apply HR; try done; [| by subst | by subst]. rewrite Ht, Ht'.
    destruct (Z.leb_spec 21 d), (Z.leb_spec d 27), (Z.eqb_spec d 24); cbn; try done; lia. }
  destruct (d =? 24)%Z; [destruct (_ <? _)%Z; [done |] |]; cbn; by split_and!.
Qed.

Lemma preparse_safe v : safe (preparse_value v) (fun st => ready st /\ cv_rest st = cv_rest v /\ same_place v st).
Proof.
  unfold preparse_value. set (v0 := setf cv_flags _ _).
  apply (safe_mono _ (fun st => ready st /\ cv_rest st = cv_rest v0 /\ same_place v0 st));
    [| intros st (? & ? & [? ? ?]); split; [done |]; split; [done | by constructor]].
  unfold can_read_bytes at 1. destruct (cv_rest v) as [|a l] eqn:E.
  { change (cv_rest v0) with (cv_rest v). by rewrite E. }
  assert (E0 : cv_rest v0 = a :: l) by done. rewrite E0 at 1. cbn [length Nat.leb negb]. rewrite (read_first v0 a l E0). unfold pbind at 1, plift at 1. cstep.
  pose proof (Zb_range a) as Ha. rewrite land_31, land_224 by done.
  pose proof (Z.mod_pos_bound (Zb a) 32 ltac:(lia)) as Hm.
  destruct (Z.ltb_spec 27 (Zb a mod 32)) as [H27|H27].
  { destruct (Z.eqb_spec (Zb a mod 32) 31) as [H31|]; cbn [negb]; [| done].
    destruct (is_fixed_type (Zb a / 32 * 32)) eqn:Hf; cbn [negb]; [done |]. cbn. split; [| split; [done | by constructor]].
    constructor; [cbn; lia |]. exists a, l. cbn. split_and!; [done | | done | done].
    unfold item_type. destruct (Z.eqb_spec (Zb a / 32 * 32) NegativeInteger) as [E32|]; [by rewrite E32 in Hf |].
    destruct (Z.eqb_spec (Zb a / 32 * 32) SimpleTypes) as [E32|]; [by rewrite E32 in Hf | done]. }
  pose proof (bytes_needed_cases (Zb a mod 32) ltac:(lia)) as Hcases.
  assert (Hgo : forall st, cv_rest st = a :: l -> cv_type st = (Zb a / 32 * 32)%Z -> (0 <= cv_extra st)%Z -> f_unknown (cv_flags st) = false ->
    f_large (cv_flags st) = (26 <=? Zb a mod 32)%Z -> f_64 (cv_flags st) = (Zb a mod 32 =? 27)%Z -> same_place v0 st ->
    bytes_needed (Zb a mod 32) <= length l ->
    safe (preparse_type st (Zb a / 32 * 32) (Zb a mod 32)) (fun st => ready st /\ cv_rest st = cv_rest v0 /\ same_place v0 st)).
  { intros st H1 H2 H0 H3 H4 H5 H6 H7. eapply safe_mono; [by eapply preparse_type_ready |]. cbn beta. intros st' (? & Er & ?).
    split; [done |]. split; [by rewrite Er, H1 | by eapply same_place_trans]. }
  destruct (Nat.eqb_spec (bytes_needed (Zb a mod 32)) 0) as [Hn|Hn].
  { apply Hgo; try done; cbn; lia. }
  set (v1 := setf cv_extra _ _). assert (E1 : cv_rest v1 = a :: l) by done. unfold can_read_bytes. rewrite E1. cbn [length].
  destruct (Nat.leb_spec (bytes_needed (Zb a mod 32) + 1) (S (length l))) as [Hl|]; cbn [negb]; [| done].
  destruct (Nat.leb_spec (bytes_needed (Zb a mod 32)) 2) as [H2|H2].
  - unfold read_unchecked. rewrite E1. cbn [length]. rewrite (proj2 (Nat.leb_le _ _)) by lia. unfold pbind, plift. cstep.
    apply Hgo; try done; try (apply get_be_range); cbn; lia.
  - apply Hgo; try done; cbn; lia.
Qed.

Lemma preparse_rest v st : preparse_value v = pret st -> cv_rest st = cv_rest v /\ same_place v st.
Proof. intros E. pose proof (preparse_safe v) as H. rewrite E in H. by destruct H as (_ & ? & ?). Qed.

(** What is always true of an iterator. *)
Definition cv_ok (v : CborValue) : Prop :=
  (0 <= cv_remaining v <= UINT32_MAX)%Z /\
  if (cv_remaining v =? 0)%Z then cv_type v = CborInvalidType /\ (f_unknown (cv_flags v) = true -> cv_rest v <> [])
  else ready v.

Lemma nodecrement_safe v : (1 <= cv_remaining v <= UINT32_MAX)%Z ->
  safe (preparse_next_value_nodecrement v) (fun st => cv_ok st /\ cv_rest st = cv_rest v).
Proof.
  intros Hr. unfold preparse_next_value_nodecrement.
  destruct (cv_rest v) as [|a l] eqn:E; [| destruct (Zb a =? BreakByte)%Z]; rewrite ?andb_false_r, ?andb_true_r.
  - eapply safe_mono; [apply preparse_safe |]. intros st (H1 & H2 & [H3 _ _]). rewrite E in H2. split; [| done]. unfold cv_ok.
    rewrite H3, (proj2 (Z.eqb_neq _ 0)) by lia. by split; [lia |].
  - destruct (cv_remaining v =? UINT32_MAX)%Z.
    + destruct (_ || _); [done |]. cbn. split; [| done]. split; [cbn; lia |]. cbn. split; [done |]. intros _. by rewrite E.
    + eapply safe_mono; [apply preparse_safe |]. intros st (H1 & H2 & [H3 _ _]). rewrite E in H2. split; [| done]. unfold cv_ok.
      rewrite H3, (proj2 (Z.eqb_neq _ 0)) by lia. by split; [lia |].
  - eapply safe_mono; [apply preparse_safe |]. intros st (H1 & H2 & [H3 _ _]). rewrite E in H2. split; [| done]. unfold cv_ok.
    rewrite H3, (proj2 (Z.eqb_neq _ 0)) by lia. by split; [lia |].
Qed.

Lemma next_safe v : (1 <= cv_remaining v <= UINT32_MAX)%Z ->
  safe (preparse_next_value v) (fun st => cv_ok st /\ cv_rest st = cv_rest v).
Proof.
  intros Hr. unfold preparse_next_value. destruct (cv_type v =? CborTagType)%Z; cbn [negb].
  { rewrite andb_false_r. cbn [andb]. by apply nodecrement_safe. }
  rewrite andb_true_r. destruct (Z.eqb_spec (cv_remaining v) UINT32_MAX) as [E|E]; cbn [negb andb].
  { set (v' := setf cv_flags _ _). by apply (nodecrement_safe v'). }
  rewrite Z.mod_small by (unfold UINT32_MAX in *; lia). set (v1 := setf cv_remaining _ _).
  destruct (Z.eqb_spec (cv_remaining v1) 0) as [E1|E1].
  - cbn. split; [| done]. unfold cv_ok. cbn in *. rewrite E1. cbn. split; [unfold UINT32_MAX; lia | done].
  - set (v2 := setf cv_flags _ _). apply (nodecrement_safe v2). cbn in *. lia.
Qed.


(** The number at the head of an item, and what lies behind it. *)
Lemma ready_number v : ready v -> f_unknown (cv_flags v) = false ->
  exists n rest, (0 <= n)%Z /\ extract_int64 v = CRet n /\ extract_number_and_advance v = CRet (n, v <| cv_rest := rest |>) /\
    length rest < length (cv_rest v).
Proof.
  intros [Hx (a & l & E & Ht & H)] Hu. rewrite Hu in H. destruct H as (Hd & Hl & Hlg & H6).
  pose proof (Z.mod_pos_bound (Zb a) 32 ltac:(lia)) as Hm.
  pose proof (bytes_needed_cases (Zb a mod 32) ltac:(lia)) as Hcases.
  assert (Hn : exists n, (0 <= n)%Z /\ extract_int64 v = CRet n).
  { unfold extract_int64. rewrite Hlg, H6. destruct (Z.leb_spec 26 (Zb a mod 32)); [| by eexists].
    unfold read_unchecked. rewrite E. cbn [length].
    replace (if (Zb a mod 32 =? 27)%Z then 8 else 4) with (bytes_needed (Zb a mod 32)) by (destruct (Z.eqb_spec (Zb a mod 32) 27); lia).
    rewrite (proj2 (Nat.leb_le _ _)) by lia. eexists. split; [| done]. apply get_be_range. }
  destruct Hn as (n & Hn & En). exists n, (drop (bytes_needed (Zb a mod 32) + 1) (cv_rest v)). split_and!; [done | done | |].
  - unfold extract_number_and_advance. rewrite En. cstep. rewrite (read_first v a l E). cstep.
    pose proof (Zb_range a). rewrite land_31 by done. unfold advance_bytes.
    rewrite (proj2 (Nat.leb_le _ _)); [done |]. rewrite E. cbn [length]. lia.
  - rewrite length_drop, E. cbn [length]. lia.
Qed.

Lemma item_type_major a : (0 < item_type a < 224)%Z -> (Zb a / 32 * 32)%Z = item_type a.
Proof.
  unfold item_type. pose proof (Zb_range a). pose proof (Z.div_mod (Zb a) 32 ltac:(lia)). pose proof (Z.mod_pos_bound (Zb a) 32 ltac:(lia)).
  destruct (Z.eqb_spec (Zb a / 32 * 32) NegativeInteger); [unfold CborIntegerType; lia |].
  destruct (Z.eqb_spec (Zb a / 32 * 32) SimpleTypes); [| done]. unfold SimpleTypes, CborBooleanType, CborSimpleType in *.
  destruct (_ =? 20)%Z; [lia |]. destruct (_ && _); lia.
Qed.

Lemma ready_not_invalid v : ready v -> cv_type v <> CborInvalidType.
Proof.
  intros [_ (a & l & _ & -> & _)]. unfold item_type, CborInvalidType. pose proof (Zb_range a). pose proof (Z.div_mod (Zb a) 32 ltac:(lia)).
  destruct (_ =? NegativeInteger)%Z; [done |]. destruct (Z.eqb_spec (Zb a / 32 * 32) SimpleTypes) as [Es|]; [| lia]. unfold SimpleTypes in Es.
  destruct (_ =? 20)%Z; [done |]. destruct (Z.leb_spec 21 (Zb a mod 32)), (Z.leb_spec (Zb a mod 32) 27); cbn; try done.
  destruct (negb _); [lia | done].
Qed.

Lemma advance_safe v : cv_ok v -> cv_remaining v <> 0%Z -> is_fixed_type (cv_type v) = true ->
  safe (cbor_value_advance_fixed v) (fun st => cv_ok st /\ length (cv_rest st) < length (cv_rest v)).
Proof.
  intros [Hr Hv] H0 Hf. rewrite (proj2 (Z.eqb_neq _ _) H0) in Hv.
  assert (Hu : f_unknown (cv_flags v) = false).
  { pose proof Hv as [_ (a & l & _ & _ & H)]. destruct (f_unknown (cv_flags v)); [| done]. destruct H as [_ H]. congruence. }
  destruct (ready_number v Hv Hu) as (n & rest & _ & _ & E & Hl).
  rewrite (advance_fixed v n rest) by (done || by apply ready_not_invalid).
  eapply safe_mono; [apply next_safe; cbn; lia |]. intros st [H1 H2]. split; [done |]. by rewrite H2.
Qed.

(** *** Strings *)

Lemma chunk_size_safe v : safe (get_string_chunk_size v) (fun r => 1 <= fst r <= length (cv_rest v) /\ (0 <= snd r)%Z) /\
  (get_string_chunk_size v = perr CborErrorNoMoreStringChunks -> f_unknown (cv_flags v) = true -> cv_rest v <> []).
Proof.
  unfold get_string_chunk_size. destruct (negb (f_unknown (cv_flags v)) && negb (f_neg (cv_flags v))) eqn:Ek.
  { split; [done |]. intros _ Hu. by rewrite Hu in Ek. }
  unfold can_read_bytes. destruct (cv_rest v) as [|a l] eqn:E; cbn [length Nat.leb negb]; [split; [done | discriminate] |].
  split; [| done]. rewrite (read_first v a l E). unfold pbind, plift. cstep.
  destruct (_ =? BreakByte)%Z; [done |]. destruct (Z.land (Zb a) 224 =? cv_type v)%Z; cbn [negb]; [| done].
  pose proof (Zb_range a). rewrite land_31 by done. pose proof (Z.mod_pos_bound (Zb a) 32 ltac:(lia)) as Hm.
  destruct (Z.ltb_spec (Zb a mod 32) 24); [cbn; lia |]. destruct (Z.ltb_spec 27 (Zb a mod 32)); [done |].
  destruct (Nat.leb_spec (1 + bytes_needed (Zb a mod 32)) (S (length l))); cbn [negb]; [| done].
  unfold read_unchecked. rewrite E. cbn [length]. rewrite (proj2 (Nat.leb_le _ _)) by lia. cstep. cbn [fst snd safe pret].
  split; [lia | apply get_be_range].
Qed.

Lemma chunk_safe v : safe (get_string_chunk v) (fun r => length (cv_rest (snd r)) < length (cv_rest v) /\
    f_unknown (cv_flags (snd r)) = f_unknown (cv_flags v) /\ cv_remaining (snd r) = cv_remaining v) /\
  (get_string_chunk v = perr CborErrorNoMoreStringChunks -> f_unknown (cv_flags v) = true -> cv_rest v <> []).
Proof.
  unfold get_string_chunk. destruct (chunk_size_safe v) as [H1 H2].
  destruct (get_string_chunk_size v) as [[e|[offset len]]| | |]; try done; cbn [pbind cbind].
  - split; [done |]. intros [= ->]. by apply H2.
  - cbn in H1. destruct H1 as [Ho Hl]. unfold advance_bytes. rewrite (proj2 (Nat.leb_le _ _)) by lia. unfold pbind, plift. cstep.
    cbn [cv_rest setf]. destruct (len <=? _)%Z; [| by split]. split; [| done]. cbn.
    rewrite !length_drop. split_and!; [lia | done | done].
Qed.

Lemma chunks_safe fuel v text : length (cv_rest v) < fuel ->
  safe (string_chunks fuel v text) (fun r => length (cv_rest (snd r)) <= length (cv_rest v) /\
    f_unknown (cv_flags (snd r)) = f_unknown (cv_flags v) /\ cv_remaining (snd r) = cv_remaining v /\
    (f_unknown (cv_flags v) = true -> cv_rest (snd r) <> [])).
Proof.
  revert v text. induction fuel as [|fuel IH]; intros v text Hf; [lia |]. cbn [string_chunks].
  destruct (chunk_safe v) as [H1 H2]. destruct (get_string_chunk v) as [[e|[chunk v1]]| | |]; try done; cbn [cbind].
  - destruct (decide (e = CborErrorNoMoreStringChunks)) as [->|]; [| by destruct e]. cbn. split_and!; [lia | done | done |]. by apply H2.
  - destruct H1 as (Hl & Hu & Hr). cbn in Hl, Hu, Hr. eapply safe_mono; [apply (IH v1); lia |].
    intros [t v2]. cbn. rewrite Hu, Hr. intros (? & ? & ? & ?). split_and!; [lia | done..].
Qed.

Lemma strings_safe v : cv_ok v -> cv_remaining v <> 0%Z -> (cv_type v = CborTextStringType \/ cv_type v = CborByteStringType) ->
  safe (iterate_string_chunks v) (fun r => cv_ok (snd r) /\ length (cv_rest (snd r)) < length (cv_rest v)).
Proof.
  intros [Hr Hv] H0 Ht. rewrite (proj2 (Z.eqb_neq _ _) H0) in Hv. unfold iterate_string_chunks.
  replace ((cv_type v =? CborByteStringType) || (cv_type v =? CborTextStringType))%Z with true by (by destruct Ht as [->| ->]).
  cbn [passert]. pose proof Hv as [_ (a & l & E & _ & _)]. unfold begin_string_iteration.
  set (v1 := setf cv_flags _ _). change (f_unknown (cv_flags v1)) with (f_unknown (cv_flags v)).
  eapply (safe_bind _ _ (fun v2 => length (cv_rest v2) <= length (cv_rest v) /\ f_unknown (cv_flags v2) = f_unknown (cv_flags v) /\
    cv_remaining v2 = cv_remaining v /\ (f_unknown (cv_flags v) = true -> length (cv_rest v2) < length (cv_rest v)) /\
    (f_unknown (cv_flags v) = false -> v2 = v1))).
  { destruct (f_unknown (cv_flags v)) eqn:Hu.
    - unfold advance_bytes. change (cv_rest v1) with (cv_rest v). rewrite E. cbn [length]. rewrite (proj2 (Nat.leb_le _ _)) by lia.
      cbn. rewrite drop_0. split_and!; try done; intros; lia.
    - cbn. by split_and!. }
  intros v2 (Hl & Hu & Hr2 & Hlt & Heq).
  eapply (safe_bind _ _ (fun r => length (cv_rest (snd r)) <= length (cv_rest v2) /\
    f_unknown (cv_flags (snd r)) = f_unknown (cv_flags v) /\ cv_remaining (snd r) = cv_remaining v /\
    (f_unknown (cv_flags v) = true -> cv_rest (snd r) <> []) /\
    (f_unknown (cv_flags v) = false -> length (cv_rest (snd r)) < length (cv_rest v)))).
  { destruct (f_unknown (cv_flags v)) eqn:Huv.
    - eapply safe_mono; [apply chunks_safe; lia |]. intros r. rewrite Hu, Hr2. intros (? & ? & ? & ?). by split_and!.
    - rewrite (Heq eq_refl). change (cv_rest v1) with (cv_rest v). remember (S (length (cv_rest v))) as f eqn:Ef. cbn [string_chunks].
      destruct (chunk_safe v1) as [H1 _]. destruct (get_string_chunk v1) as [[e|[chunk v3]]| | |] eqn:E3; try done; cbn [cbind].
      + destruct (decide (e = CborErrorNoMoreStringChunks)) as [->|]; [| by destruct e]. exfalso. revert E3.
        unfold get_string_chunk, get_string_chunk_size. change (f_neg (cv_flags v1)) with true. rewrite andb_false_r.
        unfold can_read_bytes. change (cv_rest v1) with (cv_rest v). rewrite E. cbn [length Nat.leb negb].
        rewrite (read_first v1 a l E). unfold pbind, plift. cstep.
        destruct Hv as [_ (a' & l' & E' & Ht' & Hd)]. rewrite E in E'. injection E' as <- <-. rewrite Huv in Hd. destruct Hd as (Hd & Hl' & _).
        pose proof (Zb_range a) as Ha. pose proof (Z.div_mod (Zb a) 32 ltac:(lia)) as Hdm. pose proof (Z.mod_pos_bound (Zb a) 32 ltac:(lia)).
        assert (Hmaj : (Zb a / 32 * 32)%Z = cv_type v).
        { rewrite Ht'. apply item_type_major. rewrite <- Ht'. by destruct Ht as [->| ->]. }
        rewrite land_31, land_224, Hmaj by done. change (cv_type v1) with (cv_type v). rewrite Z.eqb_refl. cbn [negb].
        rewrite (proj2 (Z.eqb_neq _ BreakByte)) by (unfold BreakByte; destruct Ht as [E1|E1]; rewrite E1 in Hmaj; unfold CborTextStringType, CborByteStringType in *; lia).
        destruct (Z.ltb_spec (Zb a mod 32) 24).
        -- unfold pret, advance_bytes. cstep. change (cv_rest v1) with (cv_rest v). rewrite E. cbn [length]. rewrite (proj2 (Nat.leb_le _ _)) by lia.
           cstep. by destruct (_ <=? _)%Z.
        -- destruct (Z.ltb_spec 27 (Zb a mod 32)); [done |]. rewrite (proj2 (Nat.leb_le _ _)) by lia. cbn [negb].
           unfold read_unchecked. change (cv_rest v1) with (cv_rest v). rewrite E. cbn [length]. rewrite (proj2 (Nat.leb_le _ _)) by lia. cstep.
           unfold pret, advance_bytes. cstep. change (cv_rest v1) with (cv_rest v). rewrite E. cbn [length]. rewrite (proj2 (Nat.leb_le _ _)) by lia.
           cstep. by destruct (_ <=? _)%Z.
      + destruct H1 as (Hl1 & Hu1 & Hr1). cbn in Hl1, Hu1, Hr1. eapply safe_mono; [apply (chunks_safe _ v3); lia |].
        intros r. rewrite Hu1, Hr1. change (f_unknown (cv_flags v)) with (f_unknown (cv_flags v)). rewrite Huv. intros (? & ? & ? & ?).
        split_and!; [lia | done | done | done | lia]. }
  intros [text v3] (Hl3 & Hu3 & Hr3 & Hb & Hlt3). cbn [fst snd] in *. unfold finish_string_iteration. rewrite Hu3.
  eapply (safe_bind _ _ (fun st => cv_ok st /\ length (cv_rest st) < length (cv_rest v))); [| by intros].
  destruct (f_unknown (cv_flags v)) eqn:Huv.
  - unfold advance_bytes. specialize (Hb eq_refl). specialize (Hlt eq_refl). destruct (cv_rest v3) as [|b l3] eqn:E3; [done |].
    cbn [length]. rewrite (proj2 (Nat.leb_le _ _)) by lia. unfold pbind, plift. cstep. cbn [length] in Hl3. set (v4 := setf cv_rest _ _).
    eapply safe_mono; [apply (next_safe v4); cbn; lia |]. intros st [? Hst]. split; [done |]. rewrite Hst. cbn. rewrite drop_0. lia.
  - unfold pbind, plift. cstep. eapply safe_mono; [apply next_safe; lia |]. intros st [? Hst]. split; [done |]. rewrite Hst. auto.
Qed.

(** *** Containers *)

Lemma enter_safe v : cv_ok v -> cv_remaining v <> 0%Z -> is_container (cv_type v) = true ->
  safe (cbor_value_enter_container v) (fun inner => cv_ok inner /\ length (cv_rest inner) < length (cv_rest v)).
Proof.
  intros [Hr Hv] H0 Hc. rewrite (proj2 (Z.eqb_neq _ _) H0) in Hv. unfold cbor_value_enter_container. rewrite Hc. cbn [passert].
  pose proof Hv as [_ (a & l & E & _ & _)]. destruct (f_unknown (cv_flags v)) eqn:Hu.
  - unfold advance_bytes. rewrite E. cbn [length]. rewrite (proj2 (Nat.leb_le _ _)) by lia. unfold pbind, plift. cstep.
    set (v1 := setf cv_flags _ _). eapply safe_mono; [apply (nodecrement_safe v1); by cbn |].
    intros st [? Hst]. split; [done |]. rewrite Hst. cbn. rewrite drop_0. lia.
  - destruct (ready_number v Hv Hu) as (n & rest & Hn & _ & -> & Hl). unfold pbind, plift. cstep.
    destruct (Z.ltb_spec 4294967295 n); [done |]. destruct (Z.eqb_spec n UINT32_MAX); [done |]. cbn [orb].
    change (cv_type (v <| cv_rest := rest |>)) with (cv_type v).
    destruct ((cv_type v =? CborMapType)%Z && (UINT32_MAX / 2 <? n)%Z) eqn:Hm; [done |].
    assert (Hrem : (0 <= (if (cv_type v =? CborMapType)%Z then n * 2 else n) <= UINT32_MAX)%Z).
    { unfold UINT32_MAX in *. destruct (cv_type v =? CborMapType)%Z; [| lia]. apply Z.ltb_ge in Hm. change (4294967295 / 2)%Z with 2147483647%Z in Hm. lia. }
    destruct (Z.eqb_spec n 0) as [->|Hn0].
    + cbn. split; [| done]. unfold cv_ok. cbn. rewrite Hu. by destruct (cv_type v =? CborMapType)%Z.
    + set (v1 := setf cv_flags _ _). eapply safe_mono; [apply (nodecrement_safe v1) |].
      * cbn. unfold UINT32_MAX in *. destruct (cv_type v =? CborMapType)%Z; lia.
      * intros st [? Hst]. split; [done |]. by rewrite Hst.
Qed.

Lemma leave_safe v inner : cv_ok v -> cv_remaining v <> 0%Z -> is_container (cv_type v) = true ->
  cv_ok inner -> cv_remaining inner = 0%Z ->
  safe (cbor_value_leave_container v inner) (fun st => cv_ok st /\ length (cv_rest st) <= length (cv_rest inner)).
Proof.
  intros [Hr Hv] H0 Hc [_ Hi] Hi0. rewrite Hi0 in Hi. cbn in Hi. destruct Hi as [Ht Hu]. unfold cbor_value_leave_container.
  rewrite Hc, Ht. change ((CborInvalidType =? CborInvalidType)%Z) with true. cbn [andb passert].
  destruct (f_unknown (cv_flags inner)).
  - specialize (Hu eq_refl). unfold advance_bytes. cbn [cv_rest setf]. destruct (cv_rest inner) as [|b l]; [done |].
    cbn [length]. rewrite (proj2 (Nat.leb_le _ _)) by lia. unfold pbind, plift. cstep. set (v1 := setf cv_rest _ _).
    eapply safe_mono; [apply (next_safe v1); cbn; lia |]. intros st [? Hst]. split; [done |]. rewrite Hst. cbn. rewrite drop_0. lia.
  - unfold pbind, plift. cstep. set (v1 := setf cv_rest _ _). eapply safe_mono; [apply (next_safe v1); cbn; lia |].
    intros st [? Hst]. split; [done |]. by rewrite Hst.
Qed.

(** A tag is passed over, and so are those behind it. *)
Lemma tag_safe v : cv_ok v -> cv_remaining v <> 0%Z -> cv_type v = CborTagType ->
  safe (cbor_value_advance_fixed v) (fun st => cv_ok st /\ cv_remaining st = cv_remaining v /\ length (cv_rest st) < length (cv_rest v)).
Proof.
  intros [Hr Hv] H0 Ht. rewrite (proj2 (Z.eqb_neq _ _) H0) in Hv.
  assert (Hu : f_unknown (cv_flags v) = false).
  { pose proof Hv as [_ (a & l & _ & _ & H)]. destruct (f_unknown (cv_flags v)); [| done]. destruct H as [_ H]. by rewrite Ht in H. }
  destruct (ready_number v Hv Hu) as (n & rest & _ & _ & E & Hl).
  rewrite (advance_fixed v n rest) by (done || by rewrite Ht).
  unfold preparse_next_value. change (cv_type (v <| cv_rest := rest |>)) with (cv_type v). rewrite Ht.
  change (CborTagType =? CborTagType)%Z with true. cbn [negb]. rewrite andb_false_r. cbn [andb].
  set (v1 := setf cv_rest _ _). unfold preparse_next_value_nodecrement. change (cv_type v1) with (cv_type v). rewrite Ht.
  change (CborTagType =? CborTagType)%Z with true. rewrite orb_true_r. destruct (_ && _); [done |].
  eapply safe_mono; [apply (preparse_safe v1) |]. intros st (H1 & H2 & [H3 _ _]). change (cv_remaining v1) with (cv_remaining v) in H3.
  split_and!; [| done | by rewrite H2]. unfold cv_ok. rewrite H3, (proj2 (Z.eqb_neq _ _) H0). by split.
Qed.

Lemma skip_tags_safe fuel v : cv_ok v -> cv_remaining v <> 0%Z -> length (cv_rest v) <= fuel ->
  safe (skip_tags fuel v) (fun st => cv_ok st /\ cv_remaining st <> 0%Z /\ length (cv_rest st) <= length (cv_rest v)).
Proof.
  revert v. induction fuel as [|fuel IH]; intros v Hv H0 Hf; cbn [skip_tags]; destruct (Z.eqb_spec (cv_type v) CborTagType) as [Ht|Ht]; try done.
  - destruct Hv as [_ Hv]. rewrite (proj2 (Z.eqb_neq _ _) H0) in Hv. destruct Hv as [_ (a & l & E & _)]. rewrite E in Hf. cbn in Hf. lia.
  - eapply safe_bind; [by apply tag_safe |]. cbn beta. intros st (H1 & H2 & H3). eapply safe_mono; [apply IH; [done | by rewrite H2 | lia] |].
    intros st' (? & ? & ?). split_and!; [done | done | lia].
Qed.

Lemma init_safe buf : safe (cbor_parser_init buf) (fun st => cv_ok st /\ cv_remaining st <> 0%Z).
Proof.
  unfold cbor_parser_init. eapply safe_mono; [apply preparse_safe |]. intros st (H1 & _ & [H2 _ _]). cbn in H2.
  unfold cv_ok. by rewrite H2.
Qed.

(** *** Containers *)

Lemma preparse_indefinite v shifted rest : shifted = ArrayType \/ shifted = MapType -> cv_rest v = byte (shifted + 31) :: rest ->
  exists st, preparse_value v = pret st /\ same_place v st /\ cv_rest st = cv_rest v /\ cv_type st = shifted /\
    f_unknown (cv_flags st) = true.
Proof.
  intros Hs E. destruct v as [r rem ex ty [? ? ? ? ? m k]]. cbn [cv_rest] in E. subst r.
  destruct Hs as [->| ->]; (eexists; split; [reflexivity |]; split; [by constructor | by split_and!]).
Qed.

(** A container around the bytes of its [n] elements. *)
Definition container (definite : bool) (shifted : Z) (n : nat) (body : bytes) : bytes :=
  if definite then head (Z.of_nat n) shifted ++ body else byte (shifted + 31) :: body ++ [byte BreakByte].

Lemma item_container definite shifted n body : shifted = ArrayType \/ shifted = MapType -> (Z.of_nat n < 2 ^ 32)%Z ->
  item (container definite shifted n body).
Proof.
  intros Hs Hn. destruct definite; cbn [container].
  - apply item_head; [unfold numbered; tauto | lia].
  - split.
    + eexists _, _. split; [done |]. by destruct Hs as [->| ->].
    + intros v rest E. destruct (preparse_indefinite v shifted ((body ++ [byte BreakByte]) ++ rest) Hs E) as (st & ? & ? & _).
      by exists st.
Qed.

Definition item_count (shifted : Z) (n : nat) : nat := if (shifted =? MapType)%Z then n * 2 else n.

Lemma enter_container_ok v definite shifted n body rest : shifted = ArrayType \/ shifted = MapType ->
  (Z.of_nat (item_count shifted n) < UINT32_MAX)%Z -> (if item_count shifted n is 0 then body = [] else item body) ->
  cv_rest v = container definite shifted n body ++ rest ->
  exists st inner, preparse_value v = pret st /\ same_place v st /\ cv_type st = shifted /\
    cbor_value_enter_container st = pret inner /\
    inner_at definite (shifted =? MapType)%Z false (item_count shifted n) body rest inner /\
    (length body <= length (cv_rest inner)).
Proof.
  intros Hs Hn Hb E. assert (Hlt : (Z.of_nat n < 2 ^ 32)%Z).
  { unfold item_count, UINT32_MAX in Hn. destruct (shifted =? MapType)%Z; lia. }
  assert (Hlen : forall inner, inner_at definite (shifted =? MapType)%Z false (item_count shifted n) body rest inner ->
    length body <= length (cv_rest inner)).
  { intros inner Hi. destruct (item_count shifted n); cbn in Hi; [destruct Hi as [-> _]; cbn; lia |].
    destruct Hi as (v0 & E0 & _ & Er & _). destruct (preparse_rest _ _ E0) as [-> _]. rewrite Er, length_app. lia. }
  destruct definite; cbn [container] in E.
  - rewrite <- app_assoc in E. destruct (preparse_head v (Z.of_nat n) shifted (body ++ rest)) as (st & E1 & Hh & Hp);
      [unfold numbered; tauto | lia | done |].
    destruct (enter_definite st shifted n (item_count shifted n) body rest Hs eq_refl Hn Hb Hh) as (inner & E2 & Hi).
    exists st, inner. split_and!; try done; [| auto]. rewrite (ah_type _ _ _ _ Hh). by destruct Hs as [->| ->].
  - assert (E' : cv_rest v = byte (shifted + 31) :: body ++ tail false rest).
    { rewrite E. cbn [app tail]. by rewrite <- app_assoc. }
    destruct (preparse_indefinite v shifted _ Hs E') as (st & E1 & Hp & Er & Et & Eu). rewrite E' in Er.
    destruct (enter_indefinite st shifted _ (item_count shifted n) body rest Hs Hb Et Eu Er) as (inner & E2 & Hi).
    exists st, inner. split_and!; try done. auto.
Qed.
