(* ===== verification/LuaCborOk.v ===== *)
(** * CBOR and Lua agree

    Theorems about [LuaCbor]: which values can be encoded and that the search
    for a large enough buffer ends; that what was encoded is read back as the
    same value; that any bytes at all can be read without harm. *)

From Stdlib Require Import Ascii String NArith ZArith Lia.
From stdpp Require Import base sets list strings numbers sorting.
From S2P Require Import Prelude Cstr Redact Cbor LuaCbor CborOk.

#[local] Opaque QWE_LUA_MAX_DEPTH.

(** ** Keys *)

Definition str_keys (fields : list (lkey * lua)) : list bytes :=
  omap (fun f => match fst f with KStr k => Some k | KOther => None end) fields.

Definition all_str (fields : list (lkey * lua)) : bool :=
  forallb (fun f => match fst f with KStr _ => true | KOther => false end) fields.

Section encode.
Context (number_text : Z -> bytes).

(** ** What can be encoded, and as what *)

Fixpoint encodable (levels : nat) (v : lua) : bool :=
  match v with
  | LBool _ | LNum _ | LStr _ | LNull => true
  | LTable mt seq fields =>
      match levels with
      | 0 => false
      | S levels =>
          match classify mt seq with
          | K_SECRET => match get_field (bytes_of "value") fields with LStr _ | LNum _ => true | _ => false end
          | K_ARRAY => forallb (encodable levels) seq
          | K_MAP => negb (has_number_key seq) && all_str fields &&
                     forallb (fun k => encodable levels (get_field (cstr k) fields)) (str_keys fields)
          end
      end
  | _ => false
  end.

Definition text_item (s : bytes) : bytes := head (Z.of_nat (length s)) TextString ++ s.

Definition num_item (d : Z) : bytes :=
  if is_exact_integer d then
    let n := int_of_double d in
    if (n <? 0)%Z then head (- n - 1) NegativeInteger else head n UnsignedInteger
  else byte 251 :: put_be 8 d.

Definition secret_text (fields : list (lkey * lua)) : bytes :=
  match get_field (bytes_of "value") fields with
  | LStr s => s
  | LNum n => number_text n
  | _ => []
  end.

Fixpoint item_of (levels : nat) (v : lua) : bytes :=
  match v with
  | LBool b => [byte (224 + if b then 21 else 20)]
  | LNum d => num_item d
  | LStr s => text_item s
  | LNull => [byte (224 + 22)]
  | LTable mt seq fields =>
      match levels with
      | 0 => []
      | S levels =>
          match classify mt seq with
          | K_SECRET => head QWE_SECRET_TAG TagType ++ text_item (secret_text fields)
          | K_ARRAY => head (Z.of_nat (length seq)) ArrayType ++ mjoin (item_of levels <$> seq)
          | K_MAP =>
              let keys := merge_sort key_cmp (cstr <$> str_keys fields) in
              head (Z.of_nat (length keys)) MapType ++
              mjoin ((fun k => text_item k ++ item_of levels (get_field k fields)) <$> keys)
          end
      end
  | _ => []
  end.

Definition enc_rc (e : CborEncoder) : rcode := if en_full e then ROom else ROk.

(** Tables stay below the counts the format can hold. *)
Fixpoint small (levels : nat) (v : lua) : Prop :=
  match v with
  | LTable mt seq fields =>
      match levels with
      | 0 => True
      | S levels => (Z.of_nat (length seq) < 2 ^ 31 - 1)%Z /\ (Z.of_nat (length fields) < 2 ^ 31 - 1)%Z /\
          Forall (small levels) seq /\ forall k, small levels (get_field k fields)
      end
  | _ => True
  end.

(** What an encoding function does to a value: it appends its item, or fails for
    a reason of its own. *)
Definition encodes (levels : nat) (v : lua) : Prop := forall mem e,
  let '(mem', e', r) := encode_value number_text levels v mem e in
  (mem = [] -> mem' = []) /\
  match r with
  | RErr _ => mem = [] -> encodable levels v = false
  | _ => encodable levels v = true /\ r = enc_rc e' /\ writes e (item_of levels v) (one_less e) e' /\
         en_unknown e' = en_unknown e
  end.

Lemma simple_encodes levels v f data : item_of levels v = data -> encodable levels v = true -> appends f data ->
  (forall mem e, encode_value number_text levels v mem e = (mem, fst (f e), rcode_of (snd (f e)))) -> encodes levels v.
Proof.
  intros Hi He Ha Hf mem e. rewrite Hf, Hi. destruct (Ha e) as (H1 & -> & H3). split; [done |].
  unfold enc_err, enc_rc, rcode_of. by destruct (en_full (fst (f e))).
Qed.

Lemma alloc_nil : alloc [] = (true, []).
Proof. done. Qed.

Lemma collect_keys_ok mem n cap fields :
  let '(mem', r) := collect_keys mem n cap fields in
  (mem = [] -> mem' = []) /\
  match r with
  | inl (RErr _) => mem = [] -> all_str fields = false
  | inl _ => False
  | inr ks => all_str fields = true /\ ks = cstr <$> str_keys fields
  end.
Proof.
  revert mem n cap. induction fields as [|[[k|] v] fields IH]; intros mem n cap; cbn [collect_keys]; [done | | done].
  destruct (if n =? cap then alloc mem else (true, mem)) as [ok mem1] eqn:Em.
  assert (H1 : mem = [] -> ok = true /\ mem1 = []) by (intros ->; destruct (n =? cap); by injection Em as <- <-).
  destruct ok; cbn [negb].
  - specialize (IH mem1 (S n) (if n =? cap then cap * 2 else cap)).
    destruct (collect_keys mem1 _ _ fields) as [mem2 [r|ks]]; destruct IH as [I1 I2].
    + split; [intros Hm; apply I1, H1, Hm |]. destruct r as [| |]; [done | done |]. intros Hm. cbn. apply I2, H1, Hm.
    + split; [intros Hm; apply I1, H1, Hm |]. destruct I2 as [I2 ->]. by split.
  - split; [intros Hm; by destruct (H1 Hm) |]. intros Hm. by destruct (H1 Hm).
Qed.

Section loops.
Context (levels : nat) (e0 : CborEncoder).
Implicit Types inner : CborEncoder.

(** The loops keep track of all that was written since [e0]. *)
Lemma encode_items_ok seq mem inner data n oom : Forall (encodes levels) seq ->
  writes e0 data (n + Z.of_nat (length seq)) inner -> (0 < n)%Z -> en_unknown inner = false -> (oom = true -> en_full inner = true) ->
  let '(mem', inner', r) := encode_items (encode_value number_text levels) seq mem inner oom in
  (mem = [] -> mem' = []) /\
  match r with
  | inl (RErr _) => mem = [] -> forallb (encodable levels) seq = false
  | inl _ => False
  | inr oom' => forallb (encodable levels) seq = true /\ (oom' = true -> en_full inner' = true) /\ en_unknown inner' = false /\
      writes e0 (data ++ mjoin (item_of levels <$> seq)) n inner'
  end.
Proof.
  intros Hs. revert mem inner data oom. induction Hs as [|v seq Hv _ IH]; intros mem inner data oom Hw Hn Hu Ho; cbn [encode_items].
  { split; [done |]. cbn. rewrite app_nil_r. split_and!; [done | done | done |]. by rewrite Z.add_0_r in Hw. }
  specialize (Hv mem inner). destruct (encode_value number_text levels v mem inner) as [[mem1 inner1] r]. destruct Hv as [M1 Hv].
  assert (Hgo : encodable levels v = true -> writes inner (item_of levels v) (one_less inner) inner1 -> en_unknown inner1 = false ->
    forall oom1, (oom1 = true -> en_full inner1 = true) ->
    let '(mem', inner', r) := encode_items (encode_value number_text levels) seq mem1 inner1 oom1 in
    (mem = [] -> mem' = []) /\
    match r with
    | inl (RErr _) => mem = [] -> forallb (encodable levels) (v :: seq) = false
    | inl _ => False
    | inr oom' => forallb (encodable levels) (v :: seq) = true /\ (oom' = true -> en_full inner' = true) /\ en_unknown inner' = false /\
        writes e0 (data ++ mjoin (item_of levels <$> v :: seq)) n inner'
    end).
  { intros He Hw1 Hu1 oom1 Ho1. specialize (IH mem1 inner1 (data ++ item_of levels v) oom1).
    destruct (encode_items _ seq mem1 inner1 oom1) as [[mem2 inner2] r2]. destruct IH as [I1 I2]; [| done | done | done |].
    { replace (n + Z.of_nat (length seq))%Z with (one_less inner); [by eapply writes_app |].
      unfold one_less, saturated_decrement. cbn. rewrite (wr_remaining _ _ _ _ Hw). cbn [length].
      destruct (Z.eqb_spec (n + Z.of_nat (S (length seq))) 0); lia. }
    split; [auto |]. cbn [forallb]. rewrite He. cbn [andb]. destruct r2 as [[| |]|oom2]; [done | done | auto |].
    destruct I2 as (? & ? & ? & I2). split_and!; [done | done | done |].
    rewrite fmap_cons. cbn [mjoin list_join]. by rewrite <- app_assoc in I2. }
  destruct r as [| |msg].
  - destruct Hv as (He & Hr & Hw1 & Hu1). apply Hgo; [done | done | congruence |]. intros E.
    assert (Hf : en_full inner1 = false) by (unfold enc_rc in Hr; by destruct (en_full inner1)). specialize (Ho E).
    by rewrite (wr_full _ _ _ _ Hw1 (or_introl Ho)) in Hf.
  - destruct Hv as (He & Hr & Hw1 & Hu1). apply Hgo; [done | done | congruence |]. intros _.
    unfold enc_rc in Hr. by destruct (en_full inner1).
  - split; [done |]. intros Hm. cbn [forallb]. by rewrite (Hv Hm).
Qed.

Definition field_item (fields : list (lkey * lua)) (k : bytes) : bytes := text_item k ++ item_of levels (get_field k fields).

Lemma encode_fields_ok keys fields mem inner data n oom : (forall k, encodes levels (get_field k fields)) ->
  writes e0 data (n + Z.of_nat (length keys * 2)) inner -> (0 < n)%Z -> en_unknown inner = false -> (oom = true -> en_full inner = true) ->
  let '(mem', inner', r) := encode_fields (encode_value number_text levels) keys fields mem inner oom in
  (mem = [] -> mem' = []) /\
  match r with
  | inl (RErr _) => mem = [] -> forallb (fun k => encodable levels (get_field k fields)) keys = false
  | inl _ => False
  | inr oom' => forallb (fun k => encodable levels (get_field k fields)) keys = true /\
      (oom' = true -> en_full inner' = true) /\ en_unknown inner' = false /\
      writes e0 (data ++ mjoin (field_item fields <$> keys)) n inner'
  end.
Proof.
  intros Hv. revert mem inner data oom. induction keys as [|k keys IH]; intros mem inner data oom Hw Hn Hu Ho; cbn [encode_fields].
  { split; [done |]. cbn. rewrite app_nil_r. split_and!; [done | done | done |]. by rewrite Z.add_0_r in Hw. }
  destruct (string_appends k TextString inner) as (Hwk & Ek & Uk). fold (text_item k) in Hwk.
  unfold cbor_encode_text_string. destruct (encode_string inner k TextString) as [innerk ek]. cbn [fst snd] in *.
  set (oomk := oom || bool_decide (ek = CborErrorOutOfMemory)).
  assert (Hok : oomk = true -> en_full innerk = true).
  { unfold oomk. rewrite orb_true_iff. intros [E|E%bool_decide_eq_true].
    - apply (wr_full _ _ _ _ Hwk). left. auto.
    - rewrite Ek in E. unfold enc_err in E. by destruct (en_full innerk). }
  pose proof (writes_app _ _ _ _ _ _ _ Hw Hwk) as Hw1. clear Hwk.
  assert (Rk : one_less inner = (n + Z.of_nat (length keys * 2) + 1)%Z).
  { unfold one_less, saturated_decrement. cbn. rewrite (wr_remaining _ _ _ _ Hw). cbn [length].
    destruct (Z.eqb_spec (n + Z.of_nat (S (length keys) * 2)) 0); lia. }
  rewrite Rk in Hw1. clear Rk.
  specialize (Hv k mem innerk). destruct (encode_value number_text levels (get_field k fields) mem innerk) as [[mem1 inner1] r] eqn:Ev.
  destruct Hv as [M1 Hv].
  assert (Hgo : encodable levels (get_field k fields) = true -> writes innerk (item_of levels (get_field k fields)) (one_less innerk) inner1 ->
    en_unknown inner1 = false -> forall oom1, (oom1 = true -> en_full inner1 = true) ->
    let '(mem', inner', r) := encode_fields (encode_value number_text levels) keys fields mem1 inner1 oom1 in
    (mem = [] -> mem' = []) /\
    match r with
    | inl (RErr _) => mem = [] -> forallb (fun k => encodable levels (get_field k fields)) (k :: keys) = false
    | inl _ => False
    | inr oom' => forallb (fun k => encodable levels (get_field k fields)) (k :: keys) = true /\
        (oom' = true -> en_full inner' = true) /\ en_unknown inner' = false /\
        writes e0 (data ++ mjoin (field_item fields <$> k :: keys)) n inner'
    end).
  { intros He Hw2 Hu1 oom1 Ho1. specialize (IH mem1 inner1 (data ++ field_item fields k) oom1).
    destruct (encode_fields _ keys fields mem1 inner1 oom1) as [[mem2 inner2] r2]. destruct IH as [I1 I2]; [| done | done | done |].
    { unfold field_item. rewrite app_assoc. replace (n + Z.of_nat (length keys * 2))%Z with (one_less innerk); [by eapply writes_app |].
      unfold one_less, saturated_decrement. cbn. rewrite (wr_remaining _ _ _ _ Hw1).
      destruct (Z.eqb_spec (n + Z.of_nat (length keys * 2) + 1) 0); lia. }
    split; [auto |]. cbn [forallb]. rewrite He. cbn [andb]. destruct r2 as [[| |]|oom2]; [done | done | auto |].
    destruct I2 as (? & ? & ? & I2). split_and!; [done | done | done |].
    rewrite fmap_cons. cbn [mjoin list_join]. by rewrite <- app_assoc in I2. }
  destruct r as [| |msg].
  - destruct Hv as (He & Hr & Hw2 & Hu1). apply Hgo; [done | done | congruence |]. intros E.
    assert (Hf : en_full inner1 = false) by (unfold enc_rc in Hr; by destruct (en_full inner1)).
    by rewrite (wr_full _ _ _ _ Hw2 (or_introl (Hok E))) in Hf.
  - destruct Hv as (He & Hr & Hw2 & Hu1). apply Hgo; [done | done | congruence |]. intros _.
    unfold enc_rc in Hr. by destruct (en_full inner1).
  - split; [done |]. intros Hm. cbn [forallb]. by rewrite (Hv Hm).
Qed.

Lemma close_table_ok e mem inner data oom : writes e data 1 inner -> en_unknown inner = false -> (oom = true -> en_full inner = true) ->
  let '(mem', e', r) := close_table mem (saturated_decrement e) inner oom in
  mem' = mem /\ r = enc_rc e' /\ writes e data (one_less e) e' /\ en_unknown e' = en_unknown e.
Proof.
  intros Hw Hu Ho. pose proof (close_definite e data inner Hw Hu) as H. unfold close_table.
  destruct (cbor_encoder_close_container _ inner) as [e' err] eqn:E. destruct H as (H1 & -> & H3).
  assert (Hf : en_full e' = en_full inner).
  { unfold cbor_encoder_close_container in E. rewrite Hu, (wr_remaining _ _ _ _ Hw) in E. by injection E as <- _. }
  split_and!; [done | | done | done]. unfold enc_rc, enc_err. destruct (en_full e') eqn:F.
  - by rewrite bool_decide_true by done.
  - rewrite bool_decide_false by done. destruct oom; [by rewrite Ho in Hf |]. done.
Qed.
End loops.

Lemma sorted_forallb (f : bytes -> bool) l : forallb f (merge_sort key_cmp l) = forallb f l.
Proof.
  apply eq_true_iff_eq. rewrite !forallb_forall. setoid_rewrite <- list_elem_of_In.
  pose proof (merge_sort_Permutation key_cmp l) as Hp. split; intros H x Hx; apply H; by rewrite Hp in *.
Qed.

Lemma secret_encodes levels mt seq fields : classify mt seq = K_SECRET -> encodes (S levels) (LTable mt seq fields).
Proof.
  intros Hk mem e. cbn [encode_value encodable item_of]. rewrite Hk. unfold encode_secret, secret_text.
  assert (H : forall s, (mem = [] -> mem = []) /\
    let '(mem', e', r) := (let '(enc, _) := cbor_encode_tag e QWE_SECRET_TAG in
                           let '(enc, er) := cbor_encode_text_string enc s in (mem, enc, rcode_of er)) in
    (mem = [] -> mem' = []) /\
    match r with
    | RErr _ => False
    | _ => r = enc_rc e' /\ writes e (head QWE_SECRET_TAG TagType ++ text_item s) (one_less e) e' /\ en_unknown e' = en_unknown e
    end).
  { intros s. split; [done |]. destruct (tagged_appends QWE_SECRET_TAG s TextString e) as (H1 & H2 & H3).
    destruct (cbor_encode_tag e QWE_SECRET_TAG) as [e1 r1]. cbn [fst] in *. unfold cbor_encode_text_string.
    destruct (encode_string e1 s TextString) as [e2 r2]. cbn [fst snd] in *. rewrite H2. unfold enc_err, enc_rc, rcode_of.
    by destruct (en_full e2). }
  destruct (get_field (bytes_of "value") fields) as [|b|d|s| | | |mt' seq' fields']; try done.
  - destruct (H (number_text d)) as [_ H']. destruct (cbor_encode_tag e _) as [e1 r1], (cbor_encode_text_string e1 _) as [e2 r2].
    destruct H' as [? H']. split; [done |]. destruct (rcode_of r2); [by destruct H' | by destruct H' | done].
  - destruct (H s) as [_ H']. destruct (cbor_encode_tag e _) as [e1 r1], (cbor_encode_text_string e1 _) as [e2 r2].
    destruct H' as [? H']. split; [done |]. destruct (rcode_of r2); [by destruct H' | by destruct H' | done].
Qed.

Lemma array_encodes levels mt seq fields : classify mt seq = K_ARRAY -> (Z.of_nat (length seq) < 2 ^ 31)%Z ->
  Forall (encodes levels) seq -> encodes (S levels) (LTable mt seq fields).
Proof.
  intros Hk Hl Hs mem e. cbn [encode_value encodable item_of]. rewrite Hk. unfold encode_array.
  pose proof (create_definite e (length seq) ArrayType ltac:(lia)) as H.
  destruct (create_container e (Some (length seq)) ArrayType) as [[p inner] er]. destruct H as (-> & -> & Hu & Hw).
  change (ArrayType =? MapType)%Z with false in Hw. cbv iota in Hw.
  pose proof (encode_items_ok levels e seq mem inner (head (Z.of_nat (length seq)) ArrayType) 1
    (bool_decide (enc_err inner = CborErrorOutOfMemory)) Hs) as H.
  destruct (encode_items _ seq mem inner _) as [[mem1 inner1] r]. destruct H as [M1 H].
  - by replace (1 + Z.of_nat (length seq))%Z with (Z.of_nat (length seq + 1)) by lia.
  - done.
  - done.
  - intros E%bool_decide_eq_true. unfold enc_err in E. by destruct (en_full inner).
  - destruct r as [[| |]|oom]; [done | done | by split |]. destruct H as (He & Ho & Hu1 & Hw1).
    pose proof (close_table_ok e mem1 inner1 _ oom Hw1 Hu1 Ho) as H.
    destruct (close_table mem1 _ inner1 oom) as [[mem2 e2] r2]. destruct H as (-> & -> & Hw2 & Hu2).
    split; [done |]. unfold enc_rc in *. by destruct (en_full e2).
Qed.

Lemma length_str_keys fields : length (str_keys fields) <= length fields.
Proof.
  induction fields as [|[[k|] v] fields IH]; [done | |].
  - change (str_keys ((KStr k, v) :: fields)) with (k :: str_keys fields). cbn [length]. lia.
  - change (str_keys ((KOther, v) :: fields)) with (str_keys fields). cbn [length]. lia.
Qed.

Lemma map_encodes levels mt seq fields : classify mt seq = K_MAP -> (Z.of_nat (length fields) < 2 ^ 31)%Z ->
  (forall k, encodes levels (get_field k fields)) -> encodes (S levels) (LTable mt seq fields).
Proof.
  intros Hk Hl Hf mem e. cbn [encode_value encodable item_of]. rewrite Hk. unfold encode_map.
  destruct (alloc mem) as [ok mem0] eqn:Ea. assert (H0 : mem = [] -> ok = true /\ mem0 = []) by (intros ->; by injection Ea as <- <-).
  destruct ok; cbn [negb]; [| split; intros Hm; by destruct (H0 Hm)].
  destruct (has_number_key seq); cbn [negb andb]; [split; [intros Hm; by apply H0 | done] |].
  pose proof (collect_keys_ok mem0 0 8 fields) as H. destruct (collect_keys mem0 0 8 fields) as [mem1 [r|ks]]; destruct H as [M1 H].
  { split; [intros Hm; apply M1, H0, Hm |]. destruct r as [| |]; [done | done |]. intros Hm. by rewrite H by apply H0, Hm. }
  destruct H as [Ha ->]. rewrite Ha. cbn [andb]. set (keys := merge_sort key_cmp (cstr <$> str_keys fields)).
  assert (Hlen : length (cstr <$> str_keys fields) = length keys).
  { unfold keys. symmetry. apply Permutation_length, merge_sort_Permutation. }
  assert (Hle : length (cstr <$> str_keys fields) <= length fields).
  { rewrite length_fmap. apply length_str_keys. }
  pose proof (create_definite e (length (cstr <$> str_keys fields)) MapType) as H. lapply H; clear H; [intros H | lia].
  destruct (create_container e (Some _) MapType) as [[p inner] er]. destruct H as (-> & -> & Hu & Hw).
  change (MapType =? MapType)%Z with true in Hw. cbv iota in Hw. rewrite Hlen in Hw.
  pose proof (encode_fields_ok levels e keys fields mem1 inner (head (Z.of_nat (length keys)) MapType) 1
    (bool_decide (enc_err inner = CborErrorOutOfMemory)) Hf) as H.
  assert (Hall : forallb (fun k => encodable levels (get_field k fields)) keys =
    forallb (fun k => encodable levels (get_field (cstr k) fields)) (str_keys fields)).
  { unfold keys. rewrite sorted_forallb. clear. induction (str_keys fields) as [|k l IH]; [done |]. cbn. by rewrite IH. }
  rewrite Hall in H. destruct (encode_fields _ keys fields mem1 inner _) as [[mem2 inner2] r]. destruct H as [M2 H].
  - by replace (1 + Z.of_nat (length keys * 2))%Z with (Z.of_nat (length keys * 2 + 1)) by lia.
  - done.
  - done.
  - intros E%bool_decide_eq_true. unfold enc_err in E. by destruct (en_full inner).
  - destruct r as [[| |]|oom]; [done | done | |].
    + split; [intros Hm; apply M2, M1, H0, Hm |]. intros Hm. apply H, M1, H0, Hm.
    + destruct H as (He & Ho & Hu2 & Hw2).
      pose proof (close_table_ok e mem2 inner2 _ oom Hw2 Hu2 Ho) as H.
      destruct (close_table mem2 _ inner2 oom) as [[mem3 e3] r3]. destruct H as (-> & -> & Hw3 & Hu3).
      split; [intros Hm; apply M2, M1, H0, Hm |]. unfold enc_rc in *. by destruct (en_full e3).
Qed.

Lemma all_encodes levels v : small levels v -> encodes levels v.
Proof.
  revert v. induction levels as [|levels IH]; intros v Hv; (destruct v as [|b|d|s| | | |mt seq fields]; [
    by intros mem e
  | apply (simple_encodes _ _ (fun e => cbor_encode_boolean e b) (item_of 0 (LBool b))); [done | done | | intros; cbn; by destruct (cbor_encode_boolean _ _)];
    destruct b; apply number_appends
  | apply (simple_encodes _ _ (fun e => if is_exact_integer d then cbor_encode_int e (int_of_double d) else cbor_encode_double e d) (num_item d));
    [done | done | | intros; cbn; by destruct (if is_exact_integer d then _ else _)];
    unfold num_item, cbor_encode_int; destruct (is_exact_integer d); [| apply double_appends];
    destruct (int_of_double d <? 0)%Z; apply number_appends
  | apply (simple_encodes _ _ (fun e => cbor_encode_text_string e s) (text_item s)); [done | done | apply string_appends | intros; cbn; by destruct (cbor_encode_text_string _ _)]
  | apply (simple_encodes _ _ cbor_encode_null (item_of 0 LNull)); [done | done | apply number_appends | intros; cbn; by destruct (cbor_encode_null _)]
  | by intros mem e | by intros mem e | ]); [by intros mem e |].
  cbn in Hv. destruct Hv as (H1 & H2 & H3 & H4). destruct (classify mt seq) eqn:Hk.
  - apply array_encodes; [done | lia |]. eapply Forall_impl; [exact H3 |]. apply IH.
  - apply map_encodes; [done | lia |]. intros k. apply IH, H4.
  - by apply secret_encodes.
Qed.

(** The buffer has doubled often enough after [k] tries when it holds the item. *)
Lemma retry_ok v k cap mem fuel : small QWE_LUA_MAX_DEPTH v -> length (item_of QWE_LUA_MAX_DEPTH v) <= cap * 2 ^ k -> k < fuel ->
  exists r, encode_retry number_text fuel cap v mem = CRet r /\
    (forall b, r = inr b -> encodable QWE_LUA_MAX_DEPTH v = true /\ b = item_of QWE_LUA_MAX_DEPTH v) /\
    (mem = [] -> encodable QWE_LUA_MAX_DEPTH v = true -> r = inr (item_of QWE_LUA_MAX_DEPTH v)) /\
    (encodable QWE_LUA_MAX_DEPTH v = false -> exists msg, r = inl msg).
Proof.
  intros Hv. revert cap mem fuel. induction k as [|k IH]; intros cap mem [|fuel] Hl Hk; try lia; cbn [encode_retry Nat.pow] in *;
    (destruct (alloc mem) as [ok mem0] eqn:Ea; assert (H0 : mem = [] -> ok = true /\ mem0 = []) by (intros ->; by injection Ea as <- <-);
     destruct ok; cbn [negb]; [| eexists; split; [done |]; split_and!; [done | intros Hm; by destruct (H0 Hm) | by eexists]]);
    pose proof (all_encodes QWE_LUA_MAX_DEPTH v Hv mem0 (cbor_encoder_init cap)) as H;
    destruct (encode_value number_text QWE_LUA_MAX_DEPTH v mem0 (cbor_encoder_init cap)) as [[mem1 enc] r]; destruct H as [M1 H];
    (destruct r as [| |msg]; [| | eexists; split; [done |]; split_and!; [done | intros Hm; by rewrite (H (proj2 (H0 Hm))) | by eexists]]);
    destruct H as (He & Hr & [W1 W2 W3 W4] & Hu); rewrite He.
  - eexists. split; [done |]. cbn in W3. rewrite Nat.mul_1_r in Hl. destruct W3 as [_ ->]; [done | done |]. split_and!; [by intros b [= <-] | done | done].
  - cbn in W3. rewrite Nat.mul_1_r in Hl. destruct W3 as [Hf _]; [done | done |]. unfold enc_rc in Hr. by rewrite Hf in Hr.
  - eexists. split; [done |]. unfold enc_rc in Hr. cbn in W3, W4. destruct (en_full enc) eqn:Hf; [done |].
    destruct (decide (length (item_of QWE_LUA_MAX_DEPTH v) <= cap)) as [Hc|Hc]; [| by specialize (W4 (or_intror ltac:(lia)))].
    destruct W3 as [_ ->]; [done | lia |]. split_and!; [by intros b [= <-] | done | done].
  - destruct (IH (cap * 2) mem1 fuel) as (r & -> & R1 & R2 & R3); [rewrite <- Nat.mul_assoc; simpl; lia | lia |].
    exists r. split; [done |]. rewrite He in R1, R2, R3. split_and!; [done | | done]. intros Hm. apply R2, M1, H0, Hm.
Qed.

(** ** Reading back what was written *)

(** A value whose tables have no key cut short by a NUL and whose parts have the
    sizes C and the format allow. *)
Fixpoint plain (levels : nat) (v : lua) : Prop :=
  match v with
  | LNum d => (0 <= d < 2 ^ 64)%Z
  | LStr s => (Z.of_nat (length s) < 2 ^ 64)%Z
  | LTable mt seq fields =>
      match levels with
      | 0 => True
      | S levels =>
          (Z.of_nat (length seq) < 2 ^ 31 - 1)%Z /\ (Z.of_nat (length fields) < 2 ^ 31 - 1)%Z /\
          (Z.of_nat (length (secret_text fields)) < 2 ^ 64)%Z /\ NoDup (str_keys fields) /\
          Forall (fun k => cstr k = k /\ (Z.of_nat (length k) < 2 ^ 64)%Z) (str_keys fields) /\
          Forall (plain levels) seq /\ forall k, plain levels (get_field k fields)
      end
  | _ => True
  end.

Lemma plain_small levels v : plain levels v -> small levels v.
Proof.
  revert v. induction levels as [|levels IH]; intros [|b|d|s| | | |mt seq fields]; cbn; try done.
  intros (H1 & H2 & _ & _ & _ & H3 & H4). split_and!; [done | done | | auto]. eapply Forall_impl; [exact H3 | apply IH].
Qed.

(** The same number: a zero may lose its sign, and there is one NaN. *)
Definition num_eq (d d' : Z) : Prop :=
  d = d' \/ (is_nan d = true /\ is_nan d' = true) \/ ((d mod 2 ^ 63)%Z = 0%Z /\ d' = 0%Z).

(** The same value: a table's metatable says what it was taken for, and the
    fields of a map come sorted. *)
#[warnings="-register-all"] Inductive same : lua -> lua -> Prop :=
| same_bool b : same (LBool b) (LBool b)
| same_num d d' : num_eq d d' -> same (LNum d) (LNum d')
| same_str s : same (LStr s) (LStr s)
| same_null : same LNull LNull
| same_secret mt seq fields : classify mt seq = K_SECRET ->
    same (LTable mt seq fields) (LTable SecretMeta [] [(KStr (bytes_of "value"), LStr (secret_text fields))])
| same_array mt seq fields seq' : classify mt seq = K_ARRAY -> Forall2 same seq seq' ->
    same (LTable mt seq fields) (LTable ArrayMeta seq' [])
| same_map mt seq fields keys vals : classify mt seq = K_MAP -> keys ≡ₚ str_keys fields -> Sorted key_cmp keys ->
    Forall2 (fun k v => same (get_field k fields) v) keys vals ->
    same (LTable mt seq fields) (LTable MapMeta [] (zip (KStr <$> keys) vals)).

(** *** Numbers *)

Lemma double_parts d : (0 <= d < 2 ^ 64)%Z ->
  d = (d_sign d * 2 ^ 63 + d_exp d * 2 ^ 52 + d_mant d)%Z /\ (0 <= d_sign d < 2)%Z /\ (0 <= d_exp d < 2048)%Z /\ (0 <= d_mant d < 2 ^ 52)%Z.
Proof.
  intros Hd. unfold d_sign, d_exp, d_mant.
  pose proof (Z.mod_pos_bound (d / 2 ^ 63) 2 ltac:(lia)). pose proof (Z.mod_pos_bound (d / 2 ^ 52) (2 ^ 11) ltac:(lia)).
  pose proof (Z.mod_pos_bound d (2 ^ 52) ltac:(lia)). split; [| lia].
  pose proof (Z.div_mod d (2 ^ 52) ltac:(lia)). pose proof (Z.div_mod (d / 2 ^ 52) (2 ^ 11) ltac:(lia)) as Hm.
  rewrite Z.div_div in Hm by lia. change (2 ^ 52 * 2 ^ 11)%Z with (2 ^ 63)%Z in Hm.
  rewrite (Z.mod_small (d / 2 ^ 63) 2); [lia |]. split; [apply Z.div_pos; lia | apply Z.div_lt_upper_bound; lia].
Qed.

Lemma exact_integer_int d : (0 <= d < 2 ^ 64)%Z -> is_exact_integer d = true ->
  (- MAX_EXACT <= int_of_double d <= MAX_EXACT)%Z /\ num_eq d (double_of_Z (int_of_double d)) /\
  is_nan (double_of_Z (int_of_double d)) = false.
Proof.
  intros Hd He. destruct (double_parts d Hd) as (Ed & Hs & Hx & Hm). unfold is_exact_integer, int_of_double in *.
  destruct (Z.eqb_spec (d_exp d) 0) as [E0|E0].
  { split; [done |]. split; [| done]. right. right. split; [| done]. apply Z.eqb_eq in He. rewrite Ed, E0, He.
    rewrite Z.mul_0_l, !Z.add_0_r. apply Z.mod_mul. lia. }
  assert (Hn : forall q, (0 < q <= MAX_EXACT)%Z -> (d_exp d * 2 ^ 52 + d_mant d = (Z.log2 q + 1023) * 2 ^ 52 + (Z.shiftl q (52 - Z.log2 q) - 2 ^ 52))%Z ->
    d_exp d <> 2047%Z ->
    let n := (if (d_sign d =? 1)%Z then - q else q)%Z in
    (- MAX_EXACT <= n <= MAX_EXACT)%Z /\ num_eq d (double_of_Z n) /\ is_nan (double_of_Z n) = false).
  { intros q Hq Eq Hnan n. assert (En : double_of_Z n = d).
    { unfold double_of_Z, double_scaled. rewrite Z.add_0_l. unfold n.
      destruct (Z.eqb_spec (d_sign d) 1) as [E1|E1].
      - destruct (Z.eqb_spec (- q) 0); [lia |]. destruct (Z.ltb_spec (- q) 0); [| lia]. rewrite Z.abs_opp, Z.abs_eq by lia. rewrite E1 in Ed. lia.
      - destruct (Z.eqb_spec q 0); [lia |]. destruct (Z.ltb_spec q 0); [lia |]. rewrite Z.abs_eq by lia. replace (d_sign d) with 0%Z in Ed by lia. lia. }
    rewrite En. split; [unfold n; destruct (_ =? 1)%Z; lia |]. split; [by left |].
    unfold is_nan. by rewrite (proj2 (Z.eqb_neq _ _) Hnan). }
  destruct (Z.ltb_spec 1076 (d_exp d)) as [|Hx1]; [done |].
  destruct (Z.eqb_spec (d_exp d) 1076) as [E1|E1].
  { apply Z.eqb_eq in He. destruct (Z.leb_spec (d_exp d) 1075); [lia |]. rewrite He.
    apply (Hn ((2 ^ 52 + 0) * 2)%Z); [unfold MAX_EXACT; lia | by rewrite E1, He | lia]. }
  destruct (Z.leb_spec (d_exp d) 1075); [| lia]. remember (1075 - d_exp d)%Z as k eqn:Ek.
  assert (Hk : (0 <= k <= 52 /\ (2 ^ 52 + d_mant d) mod 2 ^ k = 0)%Z).
  { destruct (Z.leb_spec 1075 (d_exp d)); [split; [lia |]; replace k with 0%Z by lia; apply Z.mod_1_r |].
    apply andb_true_iff in He as [H1%Z.leb_le H2%Z.eqb_eq]. split; [lia | done]. }
  destruct Hk as [Hk Hmod]. set (q := ((2 ^ 52 + d_mant d) / 2 ^ k)%Z).
  pose proof (Z.pow_pos_nonneg 2 k ltac:(lia) ltac:(lia)) as Hp.
  assert (Eq : (q * 2 ^ k = 2 ^ 52 + d_mant d)%Z).
  { unfold q. pose proof (Z.div_mod (2 ^ 52 + d_mant d) (2 ^ k) ltac:(lia)). lia. }
  assert (Hlog : Z.log2 q = (52 - k)%Z).
  { apply Z.log2_unique; [lia |]. replace (2 ^ Z.succ (52 - k))%Z with (2 * 2 ^ (52 - k))%Z by (rewrite <- Z.pow_succ_r by lia; done).
    assert (Hpk : (2 ^ (52 - k) * 2 ^ k = 2 ^ 52)%Z) by (rewrite <- Z.pow_add_r by lia; f_equal; lia).
    split; [apply (Z.mul_le_mono_pos_r _ _ (2 ^ k)); lia | apply (Z.mul_lt_mono_pos_r (2 ^ k)); lia]. }
  apply Hn; [| | lia].
  - split; [apply (Z.mul_lt_mono_pos_r (2 ^ k)); lia |]. unfold MAX_EXACT. change 9007199254740992%Z with (2 ^ 53)%Z.
    assert (1 <= 2 ^ k)%Z by lia. nia.
  - rewrite Hlog, Z.shiftl_mul_pow2 by lia. replace (52 - (52 - k))%Z with k by lia. rewrite Eq. lia.
Qed.
End encode.

(** ** Any bytes can be read

    [dsafe m Q]: [m] returns, and what it returns without an error satisfies [Q]. *)
Definition dsafe {A} (m : D A) (Q : A -> Prop) : Prop := forall mem,
  match m mem with
  | CRet (_, inl _) => True
  | CRet (_, inr a) => Q a
  | _ => False
  end.

Lemma dsafe_bind {A B} (m : D A) (k : A -> D B) (Q : A -> Prop) (Q' : B -> Prop) :
  dsafe m Q -> (forall a, Q a -> dsafe (k a) Q') -> dsafe (m ≫= k) Q'.
Proof.
  intros Hm Hk mem. specialize (Hm mem). unfold mbind, D_bind. destruct (m mem) as [[mem' [e|a]]| | |]; try done. by apply Hk.
Qed.

Lemma dsafe_mono {A} (m : D A) (Q Q' : A -> Prop) : dsafe m Q -> (forall a, Q a -> Q' a) -> dsafe m Q'.
Proof. intros Hm Hk mem. specialize (Hm mem). destruct (m mem) as [[mem' [e|a]]| | |]; try done. by apply Hk. Qed.

Lemma dsafe_ret {A} (a : A) (Q : A -> Prop) : Q a -> dsafe (mret a) Q.
Proof. by intros H mem. Qed.

Lemma dsafe_fail {A} msg (Q : A -> Prop) : dsafe (dfail msg) Q.
Proof. by intros mem. Qed.

Lemma dsafe_call {A} msg (p : parsed A) (Q : A -> Prop) : safe p Q -> dsafe (dcall msg p) Q.
Proof. intros H mem. unfold dcall, safe in *. by destruct p as [[e|a]| | |]. Qed.

Lemma dsafe_lift {A} (p : cres A) a (Q : A -> Prop) : p = CRet a -> Q a -> dsafe (dlift p) Q.
Proof. by intros -> H mem. Qed.

(** The numbers a conversion pushes. *)
Definition lua_number (d : Z) : Prop := (0 <= d < 2 ^ 64)%Z /\ (is_nan d = true -> d = 18444492273895866368%Z).

Lemma push_number_ok d : (0 <= d < 2 ^ 64)%Z -> exists d', push_number d = LNum d' /\ lua_number d'.
Proof.
  intros Hd. unfold push_number. destruct (is_nan d) eqn:E; eexists; (split; [reflexivity |]); (split; [lia |]); [done | congruence].
Qed.

Lemma double_scaled_range s m e : (0 <= s <= 1)%Z -> (0 < m <= 2 ^ 53)%Z -> (1 <= e + Z.log2 m + 1023 <= 2046)%Z ->
  (0 <= double_scaled s m e < 2 ^ 64)%Z.
Proof.
  intros Hs Hm He. unfold double_scaled.
  assert (Hsh : (2 ^ 52 <= Z.shiftl m (52 - Z.log2 m) < 2 ^ 53)%Z).
  { pose proof (Z.log2_spec m ltac:(lia)) as [Hl1 Hl2]. rewrite Z.pow_succ_r in Hl2 by apply Z.log2_nonneg.
    assert (Hlog : (0 <= Z.log2 m <= 53)%Z) by (split; [apply Z.log2_nonneg | apply (Z.log2_le_mono m (2 ^ 53)); lia]).
    destruct (decide (Z.log2 m <= 52)%Z) as [Hle|Hgt].
    - rewrite Z.shiftl_mul_pow2 by lia.
      assert (E : (2 ^ Z.log2 m * 2 ^ (52 - Z.log2 m) = 2 ^ 52)%Z) by (rewrite <- Z.pow_add_r by lia; f_equal; lia).
      pose proof (Z.pow_pos_nonneg 2 (52 - Z.log2 m) ltac:(lia) ltac:(lia)). nia.
    - replace (Z.log2 m) with 53%Z in * by lia. assert (m = 2 ^ 53)%Z as -> by lia. vm_compute. split; congruence. }
  lia.
Qed.

Lemma double_of_Z_range v : (- MAX_EXACT <= v <= MAX_EXACT)%Z -> (0 <= double_of_Z v < 2 ^ 64)%Z.
Proof.
  intros Hv. unfold double_of_Z. destruct (Z.eqb_spec v 0); [lia |]. unfold MAX_EXACT in Hv.
  apply double_scaled_range; [by destruct (_ <? _)%Z | lia |].
  assert ((0 <= Z.log2 (Z.abs v) <= 53)%Z) by (split; [apply Z.log2_nonneg | apply (Z.log2_le_mono (Z.abs v) (2 ^ 53)); lia]). lia.
Qed.

Lemma double_of_float_range b : (0 <= b < 2 ^ 32)%Z -> (0 <= double_of_float b < 2 ^ 64)%Z.
Proof.
  intros Hb. unfold double_of_float. pose proof (Z.mod_pos_bound (b / 2 ^ 23) (2 ^ 8) ltac:(lia)).
  pose proof (Z.mod_pos_bound b (2 ^ 23) ltac:(lia)).
  assert ((0 <= b / 2 ^ 31 <= 1)%Z).
  { split; [apply Z.div_pos; lia |]. assert (b / 2 ^ 31 < 2)%Z by (apply Z.div_lt_upper_bound; lia). lia. }
  destruct (_ =? 255)%Z; [lia |]. destruct (Z.eqb_spec ((b / 2 ^ 23) mod 2 ^ 8) 0); [| lia].
  destruct (Z.eqb_spec (b mod 2 ^ 23) 0); [lia |]. apply double_scaled_range; [done | lia |].
  assert ((0 <= Z.log2 (b mod 2 ^ 23) <= 22)%Z); [| lia].
  split; [apply Z.log2_nonneg |]. apply Z.lt_succ_r. change (Z.succ 22) with 23%Z. apply Z.log2_lt_pow2; lia.
Qed.

(** What a decoded value is: numbers of Lua, lists with the metatable of arrays,
    maps with theirs, string keys only and each once, and secrets; at most
    [levels] levels deep. *)
Fixpoint decoded (levels : nat) (w : lua) : Prop :=
  match w with
  | LBool _ | LStr _ | LNull => True
  | LNum d => lua_number d
  | LTable mt seq fields =>
      (mt = SecretMeta /\ seq = [] /\ exists s, fields = [(KStr (bytes_of "value"), LStr s)]) \/
      match levels with
      | 0 => False
      | S levels =>
          (mt = ArrayMeta /\ fields = [] /\ Forall (decoded levels) seq) \/
          (mt = MapMeta /\ seq = [] /\ all_str fields = true /\ NoDup (str_keys fields) /\
           Forall (fun f => decoded levels (snd f)) fields)
      end
  | _ => False
  end.

Lemma str_keys_cons k v fields : str_keys ((KStr k, v) :: fields) = k :: str_keys fields.
Proof. done. Qed.

Lemma set_field_keys k v fields : all_str fields = true -> NoDup (str_keys fields) ->
  all_str (set_field k v fields) = true /\ NoDup (str_keys (set_field k v fields)) /\
  (forall x, x ∈ str_keys (set_field k v fields) <-> x = k \/ x ∈ str_keys fields).
Proof.
  induction fields as [|[[k'|] v'] fields IH]; intros Ha Hn; [| | done].
  - split; [done |]. split; [apply NoDup_singleton |]. intros x. cbn. set_solver.
  - cbn [set_field]. rewrite str_keys_cons in *. apply NoDup_cons in Hn as [Hk Hn].
    destruct (decide (k' = k)) as [->|Hd]; rewrite str_keys_cons.
    + split; [done |]. split; [by constructor |]. intros x. set_solver.
    + destruct (IH Ha Hn) as (I1 & I2 & I3). split; [done |]. split; [constructor; [rewrite I3; set_solver | done] |].
      intros x. set_solver.
Qed.

Lemma set_field_forall (P : lua -> Prop) k v fields : P v -> Forall (fun f => P (snd f)) fields ->
  Forall (fun f => P (snd f)) (set_field k v fields).
Proof.
  intros Hv. induction 1 as [|[[k'|] v'] fields Hf Hfs IH]; cbn [set_field].
  - by repeat constructor.
  - case_decide; by constructor.
  - by constructor.
Qed.

Lemma convert_string_safe it : cv_ok it -> cv_remaining it <> 0%Z -> (cv_type it = CborTextStringType \/ cv_type it = CborByteStringType) ->
  dsafe (convert_string it) (fun r => cv_ok (snd r) /\ length (cv_rest (snd r)) < length (cv_rest it)).
Proof.
  intros H1 H2 H3 mem. pose proof (strings_safe it H1 H2 H3) as H. unfold convert_string.
  destruct (iterate_string_chunks it) as [[e|[s it']]| | |]; try done. cbn [cbind]. by destruct (alloc mem) as [[] mem'].
Qed.

(** What a conversion of an element promises. *)
Definition converts (levels : nat) (conv : CborValue -> D (lua * CborValue)) : Prop := forall it, cv_ok it ->
  dsafe (conv it) (fun r => decoded levels (fst r) /\ cv_ok (snd r) /\ length (cv_rest (snd r)) < length (cv_rest it)).

Lemma items_safe levels conv fuel is_map inner seq fields : converts levels conv -> cv_ok inner -> length (cv_rest inner) <= fuel ->
  Forall (decoded levels) seq -> all_str fields = true -> NoDup (str_keys fields) -> Forall (fun f => decoded levels (snd f)) fields ->
  dsafe (convert_items conv fuel is_map inner seq fields) (fun r => let '(seq', fields', inner') := r in
    Forall (decoded levels) seq' /\ all_str fields' = true /\ NoDup (str_keys fields') /\ Forall (fun f => decoded levels (snd f)) fields' /\
    (is_map = true -> seq' = seq) /\ (is_map = false -> fields' = fields) /\
    cv_ok inner' /\ cv_remaining inner' = 0%Z /\ length (cv_rest inner') <= length (cv_rest inner)).
Proof.
  intros Hc. revert inner seq fields. induction fuel as [|fuel IH]; intros inner seq fields Hi Hf Hs Ha Hn Hd; cbn [convert_items];
    unfold cbor_value_at_end; destruct (Z.eqb_spec (cv_remaining inner) 0) as [E|E]; try (apply dsafe_ret; by split_and!).
  { destruct Hi as [_ Hi]. rewrite (proj2 (Z.eqb_neq _ _) E) in Hi. destruct Hi as [_ (a & l & Er & _)]. rewrite Er in Hf. cbn in Hf. lia. }
  destruct is_map.
  - destruct (Z.eqb_spec (cv_type inner) CborTextStringType) as [Et|Et]; cbn [negb]; [| apply dsafe_fail].
    eapply dsafe_bind; [by apply convert_string_safe; auto |]. cbn beta. intros [k inner1] [H1 H2]. cbn in H1, H2.
    eapply dsafe_bind; [by apply Hc |]. cbn beta. intros [v inner2] (H3 & H4 & H5). cbn in H3, H4, H5.
    destruct (set_field_keys k v fields Ha Hn) as (K1 & K2 & _).
    eapply dsafe_mono; [apply IH; [done | lia | done | done | done | by apply set_field_forall] |].
    intros [[seq' fields'] inner'] (? & ? & ? & ? & ? & ? & ? & ? & ?). split_and!; try done; lia.
  - eapply dsafe_bind; [by apply Hc |]. cbn beta. intros [v inner2] (H3 & H4 & H5). cbn in H3, H4, H5.
    eapply dsafe_mono; [apply IH; [done | lia | by apply Forall_app_2; [| constructor] | done | done | done] |].
    intros [[seq' fields'] inner'] (? & ? & ? & ? & ? & ? & ? & ? & ?). split_and!; try done; lia.
Qed.

Lemma ready_known v : ready v -> is_fixed_type (cv_type v) = true -> f_unknown (cv_flags v) = false.
Proof. intros [_ (a & l & _ & _ & H)] Hf. destruct (f_unknown (cv_flags v)); [| done]. destruct H as [_ H]. congruence. Qed.

(** A float's type is its first byte, so its bits were read ahead. *)
Lemma ready_float v : ready v -> cv_type v = CborFloatType \/ cv_type v = CborDoubleType -> f_large (cv_flags v) = true.
Proof.
  intros Hr Ht. assert (Hu : f_unknown (cv_flags v) = false) by (apply ready_known; [done |]; by destruct Ht as [->| ->]).
  destruct Hr as [_ (a & l & _ & Ea & H)]. rewrite Hu in H. destruct H as (_ & _ & -> & _). apply Z.leb_le.
  pose proof (Zb_range a). pose proof (Z.div_mod (Zb a) 32 ltac:(lia)). pose proof (Z.mod_pos_bound (Zb a) 32 ltac:(lia)).
  rewrite Ea in Ht. revert Ht. unfold item_type, CborFloatType, CborDoubleType, CborIntegerType, CborBooleanType, CborSimpleType.
  destruct (_ =? NegativeInteger)%Z; [lia |]. destruct (Z.eqb_spec (Zb a / 32 * 32) SimpleTypes) as [Es|]; [| lia]. unfold SimpleTypes in Es.
  destruct (_ =? 20)%Z; [lia |]. destruct (_ && _); lia.
Qed.

(** The bits of a number of [n] bytes. *)
Lemma extract_large v n : ready v -> f_unknown (cv_flags v) = false -> f_large (cv_flags v) = true ->
  extract_int64 v = CRet n -> (0 <= n < if f_64 (cv_flags v) then 2 ^ 64 else 2 ^ 32)%Z.
Proof.
  intros Hr Hu Hl. unfold extract_int64, read_unchecked. rewrite Hl.
  set (k := if f_64 (cv_flags v) then 8 else 4). destruct (_ <=? _); [| done]. intros [= <-].
  pose proof (get_be_range (take k (drop 1 (cv_rest v)))) as H.
  assert (Hle : (256 ^ Z.of_nat (length (take k (drop 1 (cv_rest v)))) <= 256 ^ Z.of_nat k)%Z).
  { apply Z.pow_le_mono_r; [lia |]. rewrite length_take. lia. }
  subst k. destruct (f_64 (cv_flags v)); [change (2 ^ 64)%Z with (256 ^ Z.of_nat 8)%Z | change (2 ^ 32)%Z with (256 ^ Z.of_nat 4)%Z]; lia.
Qed.

Lemma advance_call_safe msg it : cv_ok it -> cv_remaining it <> 0%Z -> is_fixed_type (cv_type it) = true ->
  dsafe (dcall msg (cbor_value_advance_fixed it)) (fun st => cv_ok st /\ length (cv_rest st) < length (cv_rest it)).
Proof. intros. by apply dsafe_call, advance_safe. Qed.

Lemma tagged_safe it : cv_ok it -> cv_remaining it <> 0%Z -> cv_type it = CborTagType ->
  dsafe (convert_tagged it) (fun r => (forall levels, decoded levels (fst r)) /\ cv_ok (snd r) /\ length (cv_rest (snd r)) < length (cv_rest it)).
Proof.
  intros Hi H0 Ht. pose proof Hi as [_ Hr]. rewrite (proj2 (Z.eqb_neq _ _) H0) in Hr.
  assert (Hu : f_unknown (cv_flags it) = false) by (apply ready_known; [done | by rewrite Ht]).
  destruct (ready_number it Hr Hu) as (n & _ & _ & En & _). unfold convert_tagged.
  eapply (dsafe_bind _ _ (fun tag => tag = n)); [by eapply dsafe_lift; [unfold cbor_value_get_tag; rewrite Ht |] |]. intros tag ->.
  destruct (n =? QWE_SECRET_TAG)%Z; cbn [negb]; [| apply dsafe_fail].
  eapply dsafe_bind; [apply dsafe_call, skip_tags_safe; [done | done | lia] |]. cbn beta. intros it1 (H1 & H2 & H3).
  destruct (Z.eqb_spec (cv_type it1) CborTextStringType) as [Et|]; cbn [negb]; [| apply dsafe_fail].
  eapply dsafe_bind; [apply convert_string_safe; auto |]. cbn beta. intros [s it2] [H4 H5]. cbn in H4, H5.
  apply dsafe_ret. cbn [fst snd]. split_and!; [| done | lia]. intros [|levels]; left; eauto.
Qed.

Lemma container_safe levels conv it (is_map : bool) : converts levels conv -> cv_ok it -> cv_remaining it <> 0%Z ->
  cv_type it = (if is_map then CborMapType else CborArrayType) ->
  dsafe (convert_container conv it is_map) (fun r => decoded (S levels) (fst r) /\ cv_ok (snd r) /\ length (cv_rest (snd r)) < length (cv_rest it)).
Proof.
  intros Hc Hi H0 Ht. assert (Hk : is_container (cv_type it) = true) by (rewrite Ht; by destruct is_map). unfold convert_container.
  eapply dsafe_bind; [by apply dsafe_call, enter_safe |]. cbn beta. intros inner [H1 H2].
  eapply dsafe_bind; [apply (items_safe levels conv (length (cv_rest inner)) is_map inner [] []); try done; constructor |].
  intros [[seq fields] inner'] (S1 & S2 & S3 & S4 & S5 & S6 & S7 & S8 & S9).
  eapply dsafe_bind; [by apply dsafe_call, leave_safe |]. cbn beta. intros it' [H3 H4].
  apply dsafe_ret. cbn [fst snd decoded]. split_and!; [| done | lia]. right. destruct is_map.
  - right. split_and!; try done. by apply S5.
  - left. split_and!; try done. by apply S6.
Qed.

Lemma integer_safe it msg : ready it -> cv_type it = CborIntegerType ->
  dsafe (dcall msg (cbor_value_get_int64_checked it)) (fun _ => True).
Proof.
  intros Hr Et. assert (Hu : f_unknown (cv_flags it) = false) by (apply ready_known; [done | by rewrite Et]).
  destruct (ready_number it Hr Hu) as (n & rest & _ & En & _). apply dsafe_call. unfold cbor_value_get_int64_checked.
  rewrite Et, Z.eqb_refl. cbn [passert]. rewrite En. unfold pbind, plift. cstep. by destruct (_ <? n)%Z.
Qed.

Lemma float_safe it (get : CborValue -> cres Z) bound : ready it -> cv_type it = CborFloatType \/ cv_type it = CborDoubleType ->
  (f_large (cv_flags it) = true -> get it = extract_int64 it) -> (if f_64 (cv_flags it) then 2 ^ 64 else 2 ^ 32)%Z = bound ->
  dsafe (dlift (get it)) (fun b => 0 <= b < bound)%Z.
Proof.
  intros Hr Ht Hg <-. assert (Hu : f_unknown (cv_flags it) = false) by (apply ready_known; [done |]; by destruct Ht as [->| ->]).
  pose proof (ready_float it Hr Ht) as Hl. rewrite (Hg Hl). destruct (ready_number it Hr Hu) as (n & rest & _ & En & _).
  eapply dsafe_lift; [done |]. by apply extract_large.
Qed.

(** A float has four bytes of bits and a double eight. *)
Lemma float_width it : ready it ->
  (cv_type it = CborFloatType -> f_64 (cv_flags it) = false) /\ (cv_type it = CborDoubleType -> f_64 (cv_flags it) = true).
Proof.
  intros Hr. assert (H : cv_type it = CborFloatType \/ cv_type it = CborDoubleType ->
    f_64 (cv_flags it) = (cv_type it =? CborDoubleType)%Z).
  { intros Ht. assert (Hu : f_unknown (cv_flags it) = false) by (apply ready_known; [done |]; by destruct Ht as [->| ->]).
    destruct Hr as [_ (a & l & _ & Ea & H)]. rewrite Hu in H. destruct H as (_ & _ & _ & ->).
    pose proof (Zb_range a). pose proof (Z.div_mod (Zb a) 32 ltac:(lia)). pose proof (Z.mod_pos_bound (Zb a) 32 ltac:(lia)).
    rewrite Ea in *. revert Ht. unfold item_type, CborFloatType, CborDoubleType, CborIntegerType, CborBooleanType, CborSimpleType.
    destruct (_ =? NegativeInteger)%Z; [lia |]. destruct (Z.eqb_spec (Zb a / 32 * 32) SimpleTypes) as [Es|]; [| lia]. unfold SimpleTypes in Es.
    destruct (Z.eqb_spec (Zb a mod 32) 20); [lia |]. destruct (_ && _); lia. }
  split; intros Ht; rewrite H by tauto; by rewrite Ht.
Qed.

Lemma convert_item_safe levels container it : cv_ok it ->
  (forall is_map : bool, cv_remaining it <> 0%Z -> cv_type it = (if is_map then CborMapType else CborArrayType) ->
    dsafe (container is_map) (fun r => decoded levels (fst r) /\ cv_ok (snd r) /\ length (cv_rest (snd r)) < length (cv_rest it))) ->
  dsafe (convert_item container it) (fun r => decoded levels (fst r) /\ cv_ok (snd r) /\ length (cv_rest (snd r)) < length (cv_rest it)).
Proof.
  intros Hi Hc. destruct (decide (cv_remaining it = 0%Z)) as [H0|H0].
  { pose proof Hi as [_ Hr]. rewrite H0 in Hr. destruct Hr as [Ht _]. unfold convert_item. rewrite Ht. apply dsafe_fail. }
  pose proof Hi as [_ Hr]. rewrite (proj2 (Z.eqb_neq _ _) H0) in Hr. unfold convert_item.
  assert (Hnum : forall d, (0 <= d < 2 ^ 64)%Z -> forall it', cv_ok it' /\ length (cv_rest it') < length (cv_rest it) ->
    decoded levels (push_number d) /\ cv_ok it' /\ length (cv_rest it') < length (cv_rest it)).
  { intros d Hd it' ?. split; [| done]. destruct (push_number_ok d Hd) as (d' & -> & ?). by destruct levels. }
  assert (Hleaf : forall w it', (forall n, decoded n w) -> cv_ok it' /\ length (cv_rest it') < length (cv_rest it) ->
    decoded levels w /\ cv_ok it' /\ length (cv_rest it') < length (cv_rest it)) by auto.
  destruct (Z.eqb_spec (cv_type it) CborIntegerType) as [Et|_].
  { eapply dsafe_bind; [by apply integer_safe |]. intros v _. destruct (Z.ltb_spec MAX_EXACT v); [apply dsafe_fail |].
    destruct (Z.ltb_spec v (- MAX_EXACT)); [apply dsafe_fail |]. cbn [orb].
    eapply dsafe_bind; [by apply advance_call_safe; [| | rewrite Et] |]. intros it' H'. apply dsafe_ret, Hnum; [| done].
    apply double_of_Z_range. lia. }
  destruct ((cv_type it =? CborTextStringType) || (cv_type it =? CborByteStringType))%Z eqn:Es.
  { apply orb_true_iff in Es. rewrite !Z.eqb_eq in Es. eapply dsafe_bind; [by apply convert_string_safe |]. intros [s it'] H'.
    apply dsafe_ret, Hleaf; [by intros [] | done]. }
  destruct (Z.eqb_spec (cv_type it) CborMapType) as [Et|_]; [by apply Hc |].
  destruct (Z.eqb_spec (cv_type it) CborArrayType) as [Et|_]; [by apply Hc |].
  destruct (Z.eqb_spec (cv_type it) CborTagType) as [Et|_].
  { eapply dsafe_mono; [by apply tagged_safe |]. intros r (H1 & H2). by split. }
  destruct (Z.eqb_spec (cv_type it) CborBooleanType) as [Et|_].
  { eapply dsafe_bind; [eapply (dsafe_lift _ _ (fun _ => True)); [unfold cbor_value_get_boolean; by rewrite Et, Z.eqb_refl | done] |].
    intros b _. eapply dsafe_bind; [by apply advance_call_safe; [| | rewrite Et] |]. intros it' H'. apply dsafe_ret, Hleaf; [by intros [] | done]. }
  destruct ((cv_type it =? CborNullType) || (cv_type it =? CborUndefinedType))%Z eqn:En.
  { apply orb_true_iff in En. rewrite !Z.eqb_eq in En. eapply dsafe_bind; [apply advance_call_safe; [done | done |]; by destruct En as [->| ->] |].
    intros it' H'. apply dsafe_ret, Hleaf; [by intros [] | done]. }
  destruct (float_width it Hr) as [Wf Wd].
  destruct (Z.eqb_spec (cv_type it) CborDoubleType) as [Et|_].
  { eapply dsafe_bind; [apply (float_safe it cbor_value_get_double (2 ^ 64)); [done | auto | | by rewrite Wd] |].
    { intros Hl. unfold cbor_value_get_double. by rewrite Et, Hl. }
    intros d Hd. eapply dsafe_bind; [by apply advance_call_safe; [| | rewrite Et] |]. intros it' H'. by apply dsafe_ret, Hnum. }
  destruct (Z.eqb_spec (cv_type it) CborFloatType) as [Et|_]; [| apply dsafe_fail].
  eapply dsafe_bind; [apply (float_safe it cbor_value_get_float (2 ^ 32)); [done | auto | | by rewrite Wf] |].
  { intros Hl. unfold cbor_value_get_float. by rewrite Et, Hl. }
  intros d Hd. eapply dsafe_bind; [by apply advance_call_safe; [| | rewrite Et] |]. intros it' H'. apply dsafe_ret, Hnum; [| done].
  by apply double_of_float_range.
Qed.

Lemma convert_safe levels : converts levels (convert levels).
Proof.
  induction levels as [|levels IH]; intros it Hi; cbn [convert]; apply convert_item_safe; try done.
  intros is_map H0 Ht. by apply container_safe.
Qed.

(** ** Properties *)

Lemma cbor_decodes mem buf : exists r, qwe_cbor_to_lua mem buf = CRet r /\ forall w, r = inr w -> decoded QWE_LUA_MAX_DEPTH w.
Proof.
  assert (H : dsafe (it ← dcall "invalid CBOR" (cbor_parser_init buf); convert QWE_LUA_MAX_DEPTH it)
    (fun r => decoded QWE_LUA_MAX_DEPTH (fst r))).
  { eapply dsafe_bind; [apply dsafe_call, init_safe |]. intros it [Hi _].
    eapply dsafe_mono; [by apply convert_safe |]. by intros r (? & _). }
  specialize (H mem). unfold qwe_cbor_to_lua. revert H.
  match goal with |- context [cbind ?x _] => destruct x as [[mem' [e|[w it]]]| | |] end; intros H; try done; cbn [cbind].
  - eexists. split; [done |]. discriminate.
  - eexists. split; [done |]. by intros w' [= <-].
Qed.

(** C18. Any bytes can be decoded without harm: for every buffer and whatever its
    allocations answer, the decoder returns without reading outside the buffer or
    failing an assertion of the parser, and a value it gives is well formed: its
    numbers are Lua numbers (with the one NaN of LuaJIT), its tables are arrays,
    maps with string keys of which none is there twice, and secrets, at most 64
    levels deep. *)
Theorem decode_safe mem buf : exists r, qwe_cbor_to_lua mem buf = CRet r /\ forall w, r = inr w -> decoded QWE_LUA_MAX_DEPTH w.
Proof. apply cbor_decodes. Qed.

(** ** Reading an item

    [reads levels data w]: wherever an item of the bytes [data] stands, the
    decoder makes [w] of it and goes on behind it. *)
Definition reads (levels : nat) (data : bytes) (w : lua) : Prop := item data /\
  forall v rest st, preparse_value v = pret st -> cv_rest v = data ++ rest -> cv_remaining v <> 0%Z ->
  exists it, past v it rest /\ forall st', preparse_next_value it = pret st' -> convert levels st [] = CRet ([], inr (w, st')).

Lemma past_rest v st rest : same_place v st -> cv_type st <> CborTagType -> past v (st <| cv_rest := rest |>) rest.
Proof. intros [? ? ?] ?. by constructor. Qed.

Lemma past_same v st it rest : same_place v st -> past st it rest -> past v it rest.
Proof. intros Hp [H1 H2 H3]. constructor; [done | by eapply same_place_trans | done]. Qed.

(** The leaves of [convert_item]. *)
Ltac convert_leaf Et := unfold convert_item; rewrite Et; cbn -[preparse_next_value].

Lemma reads_number levels ui shifted n : shifted = UnsignedInteger \/ shifted = NegativeInteger -> (0 <= ui < 2 ^ 63)%Z ->
  n = (if (shifted =? NegativeInteger)%Z then - ui - 1 else ui)%Z -> (- MAX_EXACT <= n <= MAX_EXACT)%Z ->
  reads levels (head ui shifted) (push_number (double_of_Z n)).
Proof.
  intros Hs Hu Hn Hm. assert (Hnum : numbered shifted) by (unfold numbered; tauto). split.
  { rewrite <- (app_nil_r (head ui shifted)). by apply item_head; [| lia]. }
  intros v rest st E Er H0. destruct (preparse_head v ui shifted rest Hnum ltac:(lia) Er) as (st1 & E1 & Hh & Hp).
  rewrite E in E1. injection E1 as <-. pose proof Hh as [_ Et En _ Eneg _].
  assert (Et' : cv_type st = CborIntegerType) by (rewrite Et; by destruct Hs as [->| ->]).
  exists (st <| cv_rest := rest |>). split; [apply past_rest; [done | by rewrite Et'] |].
  intros st' Hst. destruct levels; cbn [convert]; unfold convert_item; rewrite Et', Z.eqb_refl;
    (assert (E1 : cbor_value_get_int64_checked st = pret n);
     [unfold cbor_value_get_int64_checked; rewrite Et', Z.eqb_refl; cbn [passert]; rewrite En; unfold pbind, plift; cstep;
      destruct (Z.ltb_spec (2 ^ 63 - 1) ui); [lia |]; by rewrite Eneg, Hn |]);
    unfold mbind, D_bind, dcall; rewrite E1; unfold pret at 1; cbn [cbind];
    (destruct (Z.ltb_spec MAX_EXACT n); [lia |]); (destruct (Z.ltb_spec n (- MAX_EXACT)); [lia |]); cbn [orb];
    rewrite (advance_number st ui shifted rest) by (tauto || by rewrite (sp_remaining _ _ Hp));
    rewrite Hst; done.
Qed.

Lemma reads_double levels d : (0 <= d < 2 ^ 64)%Z -> reads levels (byte 251 :: put_be 8 d) (push_number d).
Proof.
  intros Hd. split.
  { rewrite <- (app_nil_r (put_be 8 d)). by apply item_double. }
  intros v rest st E Er H0. destruct (preparse_double v d rest Hd Er) as (st1 & E1 & Hp & Er1 & Et & Hl & En & Ea).
  rewrite E in E1. injection E1 as <-. exists (st <| cv_rest := rest |>). split; [apply past_rest; [done | by rewrite Et] |].
  intros st' Hst. assert (Hadv : cbor_value_advance_fixed st = pret st').
  { rewrite (advance_fixed st d rest) by (by rewrite ?Et || done || by rewrite (sp_remaining _ _ Hp)). done. }
  destruct levels; cbn [convert]; unfold convert_item; rewrite Et; cbn -[cbor_value_advance_fixed cbor_value_get_double push_number];
    unfold mbind, D_bind, dlift, dcall, cbor_value_get_double; rewrite Et, Hl, En; cbn -[cbor_value_advance_fixed push_number]; by rewrite Hadv.
Qed.

Lemma reads_simple levels x w : (20 <= x <= 22)%Z -> w = (if (x =? 22)%Z then LNull else LBool (x =? 21)%Z) ->
  reads levels [byte (224 + x)] w.
Proof.
  intros Hx ->. split; [by apply item_simple |].
  intros v rest st E Er H0. destruct (preparse_simple v x rest Hx Er) as (st1 & E1 & Hp & Er1 & Et & Ex & Ea).
  rewrite E in E1. injection E1 as <-. exists (st <| cv_rest := rest |>).
  assert (Hadv : forall st', preparse_next_value (st <| cv_rest := rest |>) = pret st' -> cbor_value_advance_fixed st = pret st').
  { intros st' Hst. rewrite (advance_fixed st (cv_extra st) rest); try done.
    - rewrite Et. by assert (x = 20 \/ x = 21 \/ x = 22)%Z as [->|[->| ->]] by lia.
    - rewrite Et. by assert (x = 20 \/ x = 21 \/ x = 22)%Z as [->|[->| ->]] by lia.
    - by rewrite (sp_remaining _ _ Hp). }
  split; [apply past_rest; [done |]; rewrite Et; by assert (x = 20 \/ x = 21 \/ x = 22)%Z as [->|[->| ->]] by lia |].
  intros st' Hst. specialize (Hadv st' Hst).
  assert (x = 20 \/ x = 21 \/ x = 22)%Z as [->|[->| ->]] by lia; cbn in Et, Ex;
    destruct levels; cbn [convert]; unfold convert_item; rewrite Et; cbn -[cbor_value_advance_fixed cbor_value_get_boolean];
    unfold mbind, D_bind, dlift, dcall, cbor_value_get_boolean; rewrite ?Et, ?Ex; cbn -[cbor_value_advance_fixed]; by rewrite Hadv.
Qed.

(** A string, as [convert_string] gives it. *)
Lemma string_read st s shifted rest : shifted = TextString \/ shifted = ByteString -> (Z.of_nat (length s) < 2 ^ 64)%Z ->
  at_head st (Z.of_nat (length s)) shifted (s ++ rest) ->
  exists it, past st it rest /\ forall st', preparse_next_value it = pret st' -> convert_string st [] = CRet ([], inr (s, st')).
Proof.
  intros Hs Hl Hh. destruct (string_item st s shifted rest Hs Hl Hh) as (it & Hp & H). exists it. split; [done |].
  intros st' Hst. unfold convert_string. by rewrite (H st' Hst).
Qed.

Lemma item_text s : (Z.of_nat (length s) < 2 ^ 64)%Z -> item (text_item s).
Proof. intros. apply item_head; [unfold numbered; tauto | lia]. Qed.

Lemma reads_text levels s : (Z.of_nat (length s) < 2 ^ 64)%Z -> reads levels (text_item s) (LStr s).
Proof.
  intros Hl. split; [by apply item_text |]. intros v rest st E Er H0. unfold text_item in Er. rewrite <- app_assoc in Er.
  destruct (preparse_head v (Z.of_nat (length s)) TextString (s ++ rest) ltac:(unfold numbered; tauto) ltac:(lia) Er) as (st1 & E1 & Hh & Hp).
  rewrite E in E1. injection E1 as <-. destruct (string_read st s TextString rest) as (it & Hpast & H); [tauto | done | done |].
  exists it. split; [by eapply past_same |]. intros st' Hst. specialize (H st' Hst).
  pose proof (ah_type _ _ _ _ Hh) as Et. cbn in Et.
  destruct levels; cbn [convert]; unfold convert_item; rewrite Et; cbn -[convert_string]; unfold mbind, D_bind; by rewrite H.
Qed.

Lemma skip_tags_none fuel v : cv_type v <> CborTagType -> skip_tags fuel v = pret v.
Proof. intros H. destruct fuel; cbn [skip_tags]; by rewrite (proj2 (Z.eqb_neq _ _) H). Qed.

Lemma reads_secret levels s : (Z.of_nat (length s) < 2 ^ 64)%Z ->
  reads levels (head QWE_SECRET_TAG TagType ++ text_item s) (LTable SecretMeta [] [(KStr (bytes_of "value"), LStr s)]).
Proof.
  intros Hl. split; [apply item_head; [unfold numbered; tauto | done] |].
  intros v rest st E Er H0. rewrite <- app_assoc in Er.
  destruct (preparse_head v QWE_SECRET_TAG TagType _ ltac:(unfold numbered; tauto) ltac:(done) Er) as (st1 & E1 & Hh & Hp).
  rewrite E in E1. injection E1 as <-. pose proof (sp_remaining _ _ Hp) as Hrem.
  destruct (advance_tag st QWE_SECRET_TAG (text_item s) rest Hh ltac:(congruence) (item_text s Hl)) as (st2 & E2 & Hp2 & Hpre).
  assert (Er2 : exists v2, preparse_value v2 = pret st2 /\ same_place st v2 /\ cv_rest v2 = text_item s ++ rest).
  { exists (st <| cv_rest := text_item s ++ rest |>). split; [by apply Hpre | done]. }
  destruct Er2 as (v2 & E3 & _ & Er2). unfold text_item in Er2. rewrite <- app_assoc in Er2.
  destruct (preparse_head v2 (Z.of_nat (length s)) TextString (s ++ rest) ltac:(unfold numbered; tauto) ltac:(lia) Er2) as (st3 & E4 & Hh3 & _).
  rewrite E3 in E4. injection E4 as <-. destruct (string_read st2 s TextString rest) as (it & Hpast & H); [tauto | done | done |].
  exists it. split; [eapply past_same; [by eapply same_place_trans | done] |]. intros st' Hst. specialize (H st' Hst).
  pose proof (ah_type _ _ _ _ Hh) as Et. pose proof (ah_type _ _ _ _ Hh3) as Et2. cbn in Et, Et2.
  assert (Hskip : cbor_value_skip_tag st = pret st2).
  { unfold cbor_value_skip_tag. pose proof (ah_rest _ _ _ _ Hh) as Er1. rewrite head_split in Er1. rewrite Er1. cbn [app length skip_tags].
    rewrite Et. change (CborTagType =? CborTagType)%Z with true. cbv iota. rewrite E2. unfold pbind, pret. cstep.
    apply skip_tags_none. by rewrite Et2. }
  destruct levels; cbn [convert]; unfold convert_item; rewrite Et; cbn -[convert_tagged]; unfold convert_tagged, mbind, D_bind, dlift, dcall, cbor_value_get_tag;
    rewrite Et; cbn -[convert_string extract_int64 cbor_value_skip_tag]; rewrite (ah_number _ _ _ _ Hh), Hskip; cbn -[convert_string]; rewrite Et2; cbn -[convert_string]; by rewrite H.
Qed.

Lemma length_items (ds : list bytes) : Forall item ds -> length ds <= length (mjoin ds).
Proof.
  induction 1 as [|d ds [(a & l & -> & _) _] _ IH]; [done |]. change (mjoin ((a :: l) :: ds)) with ((a :: l) ++ mjoin ds).
  rewrite length_app. cbn [length]. lia.
Qed.

Section elements.
Context (levels : nat) (definite : bool) (rest : bytes).

Lemma inner_step m k cnt data inner : inner_at definite m k (S cnt) data rest inner -> (Z.of_nat (S cnt) < UINT32_MAX)%Z ->
  cbor_value_at_end inner = false /\ exists v, preparse_value v = pret inner /\ same_place v inner /\
    cv_rest v = data ++ tail definite rest /\ cv_remaining v <> 0%Z /\
    forall it data', past v it (data' ++ tail definite rest) -> (if cnt is 0 then data' = [] /\ m && negb k = false else item data') ->
      exists inner', preparse_next_value it = pret inner' /\ inner_at definite m (negb k) cnt data' rest inner'.
Proof.
  intros (v & E & Hp & Er & Erem & Em & Ek) Hmax.
  assert (H0 : cv_remaining v <> 0%Z) by (rewrite Erem; destruct definite; unfold UINT32_MAX; lia). split.
  - unfold cbor_value_at_end. rewrite (sp_remaining _ _ Hp). by apply Z.eqb_neq.
  - exists v. split_and!; try done. intros it data' Hit Hd. by eapply next_inner.
Qed.

Lemma items_body (ds : list bytes) : Forall item ds -> if length ds is 0 then mjoin ds = [] else item (mjoin ds).
Proof. intros [|d ds' Hd _]; [done |]. cbn. by apply item_app. Qed.

Lemma array_items datas ws k inner fuel seq fields : Forall2 (reads levels) datas ws -> (Z.of_nat (length datas) < UINT32_MAX)%Z ->
  inner_at definite false k (length datas) (mjoin datas) rest inner -> length datas <= fuel ->
  exists k' inner', inner_at definite false k' 0 [] rest inner' /\
    convert_items (convert levels) fuel false inner seq fields [] = CRet ([], inr (seq ++ ws, fields, inner')).
Proof.
  intros H. revert k inner fuel seq. induction H as [|d w datas ws [Hd Hr] Hds IH]; intros k inner fuel seq Hmax Hi Hf.
  { exists k, inner. split; [done |]. rewrite app_nil_r. destruct Hi as (_ & E & _). destruct fuel; cbn [convert_items];
      unfold cbor_value_at_end; by rewrite E. }
  cbn [length] in *. destruct fuel as [|fuel]; [lia |].
  destruct (inner_step false k (length datas) (d ++ mjoin datas) inner Hi Hmax) as (He & v & E & Hp & Er & H0 & Hnext).
  rewrite <- app_assoc in Er. destruct (Hr v (mjoin datas ++ tail definite rest) inner E Er H0) as (it & Hit & Hconv).
  destruct (Hnext it (mjoin datas) Hit) as (inner2 & E2 & Hi2).
  { pose proof (items_body datas) as Hb. destruct datas; [done |]. apply Hb. clear -Hds. induction Hds as [|? ? ? ? [? _]]; by constructor. }
  destruct (IH (negb k) inner2 fuel (seq ++ [w]) ltac:(lia) Hi2 ltac:(lia)) as (k' & inner' & Hi' & Ec).
  exists k', inner'. split; [done |]. cbn [convert_items]. rewrite He. unfold mbind, D_bind. rewrite (Hconv inner2 E2). cbn [cbind].
  by rewrite Ec, <- app_assoc.
Qed.

(** The fields of a map: a key, the bytes of its value, and the value. *)
Definition field_bytes (f : bytes * (bytes * lua)) : bytes := text_item (fst f) ++ fst (snd f).
Definition add_field (fields : list (lkey * lua)) (f : bytes * (bytes * lua)) : list (lkey * lua) := set_field (fst f) (snd (snd f)) fields.

Lemma map_items fs inner fuel seq fields :
  Forall (fun f => (Z.of_nat (length (fst f)) < 2 ^ 64)%Z /\ reads levels (fst (snd f)) (snd (snd f))) fs ->
  (Z.of_nat (length fs * 2) < UINT32_MAX)%Z ->
  inner_at definite true false (length fs * 2) (mjoin (field_bytes <$> fs)) rest inner -> length fs <= fuel ->
  exists inner', inner_at definite true false 0 [] rest inner' /\
    convert_items (convert levels) fuel true inner seq fields [] = CRet ([], inr (seq, foldl add_field fields fs, inner')).
Proof.
  intros H. revert inner fuel fields. induction H as [|[k [d w]] fs [Hk [Hd Hr]] Hfs IH]; intros inner fuel fields Hmax Hi Hf.
  { exists inner. split; [done |]. destruct Hi as (_ & E & _). destruct fuel; cbn [convert_items foldl]; unfold cbor_value_at_end; by rewrite E. }
  cbn [length fst snd] in *. destruct fuel as [|fuel]; [lia |]. change (S (length fs) * 2) with (S (S (length fs * 2))) in *.
  destruct (inner_step true false _ _ inner Hi Hmax) as (He & v & E & Hp & Er & H0 & Hnext).
  rewrite fmap_cons in Er. cbn [mjoin list_join] in Er. unfold field_bytes at 1 in Er. cbn [fst snd] in Er. unfold text_item in Er. rewrite <- !app_assoc in Er.
  destruct (preparse_head v (Z.of_nat (length k)) TextString (k ++ d ++ mjoin (field_bytes <$> fs) ++ tail definite rest))
    as (st1 & E1 & Hh & _); [unfold numbered; tauto | lia | done |].
  rewrite E in E1. injection E1 as <-.
  destruct (string_read inner k TextString (d ++ mjoin (field_bytes <$> fs) ++ tail definite rest)) as (it1 & Hit1 & Hstr); [tauto | done | done |].
  destruct (Hnext it1 (d ++ mjoin (field_bytes <$> fs))) as (inner1 & E2 & Hi1).
  { rewrite <- app_assoc. by eapply past_same. }
  { by apply item_app. }
  destruct (inner_step true (negb false) _ _ inner1 Hi1 ltac:(lia)) as (He1 & v1 & E3 & Hp1 & Er1 & H1 & Hnext1).
  rewrite <- app_assoc in Er1. destruct (Hr v1 _ inner1 E3 Er1 H1) as (it2 & Hit2 & Hconv).
  destruct (Hnext1 it2 (mjoin (field_bytes <$> fs)) Hit2) as (inner2 & E4 & Hi2).
  { destruct fs as [|[k2 [d2 w2]] fs]; [done |]. cbn [length]. apply Forall_cons in Hfs as [[Hk2 _] _].
    rewrite fmap_cons. cbn [mjoin list_join]. apply item_app. unfold field_bytes. apply item_app. by apply item_text. }
  destruct (IH inner2 fuel (set_field k w fields) ltac:(lia) Hi2 ltac:(lia)) as (inner' & Hi' & Ec).
  exists inner'. split; [done |]. cbn [convert_items]. rewrite He. pose proof (ah_type _ _ _ _ Hh) as Et. cbn in Et. rewrite Et.
  change (TextString =? CborTextStringType)%Z with true. cbn [negb]. unfold mbind, D_bind. rewrite (Hstr inner1 E2). cbn [cbind].
  rewrite (Hconv inner2 E4). cbn [cbind]. by rewrite Ec.
Qed.
End elements.

Lemma fields_body fs : Forall (fun f : bytes * (bytes * lua) => (Z.of_nat (length (fst f)) < 2 ^ 64)%Z) fs ->
  if (length fs * 2)%nat is 0 then mjoin (field_bytes <$> fs) = [] else item (mjoin (field_bytes <$> fs)).
Proof.
  intros [|f fs' Hf _]; [done |]. cbn [length]. rewrite fmap_cons. cbn [mjoin list_join]. apply item_app. unfold field_bytes.
  by apply item_app, item_text.
Qed.

Lemma reads_array levels definite datas ws : Forall2 (reads levels) datas ws -> (Z.of_nat (length datas) < UINT32_MAX)%Z ->
  reads (S levels) (container definite ArrayType (length datas) (mjoin datas)) (LTable ArrayMeta ws []).
Proof.
  intros H Hmax. assert (Hb : if item_count ArrayType (length datas) is 0 then mjoin datas = [] else item (mjoin datas)).
  { apply items_body. clear -H. induction H as [|? ? ? ? [? _]]; by constructor. }
  split; [apply item_container; [tauto | unfold UINT32_MAX in Hmax; lia] |]. intros v rest st E Er H0.
  destruct (enter_container_ok v definite ArrayType (length datas) (mjoin datas) rest) as (st1 & inner & E1 & Hp & Et & Een & Hi & Hl); [tauto | done | done | done |].
  rewrite E in E1. injection E1 as <-.
  destruct (array_items levels definite rest datas ws false inner (length (cv_rest inner)) [] [] H Hmax Hi) as (k' & inner' & Hi' & Ec).
  { etrans; [| exact Hl]. apply length_items. clear -H. induction H as [|? ? ? ? [? _]]; by constructor. }
  destruct (leave_inner st definite false k' rest inner') as (it & Hit & El); [by rewrite Et | done |].
  exists it. split; [by eapply past_same |]. intros st' Hst. cbn [convert]. unfold convert_item. rewrite Et. cbn -[convert_container].
  unfold convert_container, mbind, D_bind, dcall. rewrite Een. cbn -[convert_items cbor_value_leave_container]. rewrite Ec. cbn -[cbor_value_leave_container].
  by rewrite El, Hst.
Qed.

Lemma reads_map levels definite fs :
  Forall (fun f => (Z.of_nat (length (fst f)) < 2 ^ 64)%Z /\ reads levels (fst (snd f)) (snd (snd f))) fs ->
  (Z.of_nat (length fs * 2) < UINT32_MAX)%Z ->
  reads (S levels) (container definite MapType (length fs) (mjoin (field_bytes <$> fs))) (LTable MapMeta [] (foldl add_field [] fs)).
Proof.
  intros H Hmax. assert (Hb : if item_count MapType (length fs) is 0 then mjoin (field_bytes <$> fs) = [] else item (mjoin (field_bytes <$> fs))).
  { apply fields_body. eapply Forall_impl; [exact H |]. by intros f [? _]. }
  split; [apply item_container; [tauto | unfold UINT32_MAX in Hmax; lia] |]. intros v rest st E Er H0.
  destruct (enter_container_ok v definite MapType (length fs) (mjoin (field_bytes <$> fs)) rest) as (st1 & inner & E1 & Hp & Et & Een & Hi & Hl); [tauto | done | done | done |].
  rewrite E in E1. injection E1 as <-.
  destruct (map_items levels definite rest fs inner (length (cv_rest inner)) [] [] H Hmax Hi) as (inner' & Hi' & Ec).
  { etrans; [| exact Hl]. rewrite <- (length_fmap field_bytes fs). apply length_items, Forall_fmap. eapply Forall_impl; [exact H |].
    intros f [? _]. by apply item_app, item_text. }
  destruct (leave_inner st definite true false rest inner') as (it & Hit & El); [by rewrite Et | done |].
  exists it. split; [by eapply past_same |]. intros st' Hst. cbn [convert]. unfold convert_item. rewrite Et. cbn -[convert_container].
  unfold convert_container, mbind, D_bind, dcall. rewrite Een. cbn -[convert_items cbor_value_leave_container]. rewrite Ec. cbn -[cbor_value_leave_container].
  by rewrite El, Hst.
Qed.

(** A whole buffer; what follows the item is not looked at. *)
Lemma decode_item data rest w : reads QWE_LUA_MAX_DEPTH data w -> qwe_cbor_to_lua [] (data ++ rest) = CRet (inr w).
Proof.
  intros [Hd Hr]. set (v := CV (data ++ rest) 1 0 0 (CFlags false false false false false false false)).
  destruct (proj2 Hd v rest eq_refl) as (st & E & Hp). destruct (Hr v rest st E eq_refl ltac:(done)) as (it & [Hit1 [Hit2 Hit3 Hit4] Hit5] & Hc).
  assert (Hn : exists st', preparse_next_value it = pret st').
  { unfold preparse_next_value. rewrite (proj2 (Z.eqb_neq _ _) Hit5), Hit2. by eexists. }
  destruct Hn as [st' Hn]. unfold qwe_cbor_to_lua, cbor_parser_init, mbind, D_bind, dcall. fold v. rewrite E.
  unfold pret. cbn [cbind]. by rewrite (Hc st' Hn).
Qed.

(** ** Round trip *)

Lemma set_field_new k v fields : k ∉ str_keys fields -> set_field k v fields = fields ++ [(KStr k, v)].
Proof.
  induction fields as [|[[k'|] v'] fields IH]; intros Hk; [done | |].
  - cbn [set_field]. rewrite str_keys_cons in Hk. rewrite decide_False by set_solver. rewrite IH by set_solver. done.
  - cbn [set_field]. by rewrite IH.
Qed.

Lemma str_keys_app f g : str_keys (f ++ g) = str_keys f ++ str_keys g.
Proof. apply omap_app. Qed.

Lemma add_fields_new fs fields : NoDup (str_keys fields ++ (fst <$> fs)) ->
  foldl add_field fields fs = fields ++ ((fun f => (KStr (fst f), snd (snd f))) <$> fs).
Proof.
  revert fields. induction fs as [|[k [d w]] fs IH]; intros fields Hn; [by rewrite app_nil_r |].
  cbn [foldl]. unfold add_field at 2. cbn [fst snd]. cbn [fmap list_fmap fst] in Hn.
  rewrite set_field_new.
  - rewrite IH; [by rewrite <- app_assoc |]. rewrite str_keys_app. cbn [str_keys omap list_omap fst]. by rewrite <- app_assoc.
  - apply NoDup_app in Hn as (_ & Hn & _). intros Hk. apply (Hn k Hk). set_solver.
Qed.

Section round_trip.
Context (number_text : Z -> bytes).

Lemma reads_num levels d : (0 <= d < 2 ^ 64)%Z -> exists w, reads levels (num_item d) w /\ same number_text (LNum d) w.
Proof.
  intros Hd. unfold num_item. destruct (is_exact_integer d) eqn:He.
  - destruct (exact_integer_int d Hd He) as (Hr & Heq & Hnan). exists (push_number (double_of_Z (int_of_double d))). split.
    + unfold MAX_EXACT in Hr. destruct (Z.ltb_spec (int_of_double d) 0).
      * apply reads_number; [tauto | lia | | unfold MAX_EXACT; lia]. rewrite Z.eqb_refl. lia.
      * apply reads_number; [tauto | lia | done | unfold MAX_EXACT; lia].
    + unfold push_number. rewrite Hnan. by constructor.
  - exists (push_number d). split; [by apply reads_double |]. unfold push_number. destruct (is_nan d) eqn:Hn; constructor.
    + right. left. by split.
    + by left.
Qed.

Lemma Forall2_choose {A B} (P : A -> B -> Prop) l : Forall (fun a => exists b, P a b) l -> exists bs, Forall2 P l bs.
Proof. induction 1 as [|a l [b Hb] _ [bs IH]]; [by exists [] | exists (b :: bs); by constructor]. Qed.

Lemma round_trip levels v : plain number_text levels v -> encodable levels v = true -> exists w, reads levels (item_of number_text levels v) w /\ same number_text v w.
Proof.
  revert v. induction levels as [|levels IH]; intros [|b|d|s| | | |mt seq fields] Hp He; try done; cbn [item_of].
  1, 5: exists (LBool b); split; [destruct b; by apply reads_simple | constructor].
  1, 4: by apply reads_num.
  1, 3: exists (LStr s); split; [by apply reads_text | constructor].
  1, 2: exists LNull; split; [by apply (reads_simple _ 22) | constructor].
  cbn in Hp, He. destruct Hp as (Hl1 & Hl2 & Hsec & Hnd & Hkeys & Hseq & Hfld). destruct (classify mt seq) eqn:Hk.
  - assert (H : exists ws, Forall2 (fun v w => reads levels (item_of number_text levels v) w /\ same number_text v w) seq ws).
    { apply Forall2_choose. apply Forall_forall. intros v Hv. rewrite forallb_forall in He. rewrite Forall_forall in Hseq.
      apply IH; [by apply Hseq | by apply He, list_elem_of_In]. }
    destruct H as [ws H]. exists (LTable ArrayMeta ws []). split.
    + rewrite <- (length_fmap (item_of number_text levels) seq). apply (reads_array levels true).
      * apply Forall2_fmap_l. eapply Forall2_impl; [exact H |]. by intros ? ? [? _].
      * rewrite length_fmap. unfold UINT32_MAX. lia.
    + constructor; [done |]. eapply Forall2_impl; [exact H |]. by intros ? ? [_ ?].
  - apply andb_true_iff in He as [[Hnn Ha]%andb_true_iff He].
    assert (Ec : cstr <$> str_keys fields = str_keys fields).
    { rewrite <- (list_fmap_id (str_keys fields)) at 2. apply list_fmap_ext. intros i k Hik.
      rewrite Forall_forall in Hkeys. apply Hkeys. by eapply list_elem_of_lookup_2. }
    rewrite Ec. set (keys := merge_sort key_cmp (str_keys fields)).
    assert (Hperm : keys ≡ₚ str_keys fields) by apply merge_sort_Permutation.
    assert (H : exists ws, Forall2 (fun k w => reads levels (item_of number_text levels (get_field k fields)) w /\ same number_text (get_field k fields) w) keys ws).
    { apply Forall2_choose. apply Forall_forall. intros k Hin. rewrite Hperm in Hin. rewrite forallb_forall in He.
      rewrite Forall_forall in Hkeys. destruct (Hkeys k Hin) as [Ek _]. apply IH; [by apply Hfld |].
      rewrite <- Ek at 1. by apply He, list_elem_of_In. }
    destruct H as [ws H]. pose proof (Forall2_length _ _ _ H) as Hlen.
    set (fs := zip_with (fun k w => (k, (item_of number_text levels (get_field k fields), w))) keys ws).
    assert (Hfs : fst <$> fs = keys).
    { unfold fs. clear -Hlen. revert ws Hlen. induction keys as [|k ks IH]; intros [|w ws] Hlen; try done. cbn. f_equal. apply IH. by injection Hlen. }
    assert (Hfw : (fun f : bytes * (bytes * lua) => (KStr (fst f), snd (snd f))) <$> fs = zip (KStr <$> keys) ws).
    { unfold fs. clear. revert ws. induction keys as [|k ks IH]; intros [|w ws]; try done. cbn. f_equal. apply IH. }
    assert (Hfb : field_bytes <$> fs = (fun k => text_item k ++ item_of number_text levels (get_field k fields)) <$> keys).
    { unfold fs. clear -Hlen. revert ws Hlen. induction keys as [|k ks IH]; intros [|w ws] Hlen; try done. cbn. f_equal. apply IH. by injection Hlen. }
    exists (LTable MapMeta [] (zip (KStr <$> keys) ws)). split.
    + assert (Hfold : foldl add_field [] fs = zip (KStr <$> keys) ws).
      { rewrite add_fields_new; [exact Hfw |]. cbn [str_keys omap list_omap app]. by rewrite Hfs, Hperm. }
      rewrite <- Hfold, <- Hfb.
      assert (Hl : length keys = length fs) by (by rewrite <- Hfs, length_fmap). rewrite Hl. apply (reads_map levels true).
      * assert (Hks : Forall (fun k => (Z.of_nat (length k) < 2 ^ 64)%Z) keys).
        { rewrite Hperm. eapply Forall_impl; [exact Hkeys |]. by intros k [_ ?]. }
        unfold fs. clear -H Hks. induction H as [|k w ks ws [Hr _] _ IH]; [constructor |]. apply Forall_cons in Hks as [Hk Hks].
        constructor; [by split | by apply IH].
      * rewrite <- Hl. rewrite Hperm. pose proof (length_str_keys fields). unfold UINT32_MAX. lia.
    + apply same_map; [done | done | | ].
      * apply StronglySorted_Sorted, StronglySorted_merge_sort; apply _.
      * eapply Forall2_impl; [exact H |]. by intros ? ? [_ ?].
  - eexists. split; [by apply reads_secret |]. by constructor.
Qed.

Lemma enough_tries n : exists k, n <= 256 * 2 ^ k.
Proof. exists n. pose proof (Nat.pow_gt_lin_r 2 n ltac:(lia)). lia. Qed.

(** Encoding always ends, the buffer doubled often enough, and it succeeds
    exactly on the values that have an encoding: booleans, numbers, strings,
    null, and tables of them at most 64 levels deep, maps having string keys
    only (each looked up by its text to the first NUL).  A failed allocation is
    the only other reason to fail. *)
Theorem encode_exact mem v : small QWE_LUA_MAX_DEPTH v ->
  exists n, forall fuel, n <= fuel -> exists r, qwe_lua_to_cbor number_text fuel mem v = CRet r /\
    ((exists b, r = inr b) -> encodable QWE_LUA_MAX_DEPTH v = true) /\
    (mem = [] -> encodable QWE_LUA_MAX_DEPTH v = true -> exists b, r = inr b).
Proof.
  intros Hv. destruct (enough_tries (length (item_of number_text QWE_LUA_MAX_DEPTH v))) as [k Hk]. exists (S k). intros fuel Hf.
  destruct (retry_ok number_text v k 256 mem fuel Hv Hk ltac:(lia)) as (r & E & H1 & H2 & _). exists r. split; [done |]. split.
  - intros [b Hb]. by apply (H1 b).
  - intros Hm He. eexists. by apply H2.
Qed.

(** What is encoded is not empty, and is read back whatever follows it; what has no
    encoding is refused. *)
Lemma encoded_back v : plain number_text QWE_LUA_MAX_DEPTH v -> exists n,
  (encodable QWE_LUA_MAX_DEPTH v = false -> forall fuel, n <= fuel -> exists msg, qwe_lua_to_cbor number_text fuel [] v = CRet (inl msg)) /\
  (encodable QWE_LUA_MAX_DEPTH v = true -> exists b w, (forall fuel, n <= fuel -> qwe_lua_to_cbor number_text fuel [] v = CRet (inr b)) /\
     b <> [] /\ (forall rest, qwe_cbor_to_lua [] (b ++ rest) = CRet (inr w)) /\ same number_text v w).
Proof.
  intros Hp. destruct (enough_tries (length (item_of number_text QWE_LUA_MAX_DEPTH v))) as [k Hk]. exists (S k).
  assert (Hr : forall fuel, S k <= fuel -> _) by (intros fuel Hf; exact (retry_ok number_text v k 256 [] fuel (plain_small _ _ _ Hp) Hk ltac:(lia))).
  split; intros He.
  - intros fuel Hf. destruct (Hr fuel Hf) as (r & E & _ & _ & H3). destruct (H3 He) as [msg ->]. by exists msg.
  - destruct (round_trip QWE_LUA_MAX_DEPTH v Hp He) as (w & Hw & Hs). exists (item_of number_text QWE_LUA_MAX_DEPTH v), w. split_and!; [| | | done].
    + intros fuel Hf. destruct (Hr fuel Hf) as (r & E & _ & H2 & _). by rewrite <- (H2 eq_refl He).
    + destruct Hw as [[(a & l & -> & _) _] _]. done.
    + intros rest. by apply decode_item.
Qed.

End round_trip.

(** A value with everything in it: [{"a": [1, -2.5], "s": secret, "t": {}}]. *)
Definition sample_value : lua :=
  LTable MapMeta [] [(KStr (bytes_of "t"), LTable MapMeta [] []);
    (KStr (bytes_of "a"), LTable NoMeta [LNum 4607182418800017408; LNum 13836184477265682432; LNull] []);
    (KStr (bytes_of "s"), LTable SecretMeta [] [(KStr (bytes_of "value"), LStr (bytes_of "hunter2"))])].

#[local] Transparent QWE_LUA_MAX_DEPTH.

Lemma sample_encodable : encodable QWE_LUA_MAX_DEPTH sample_value = true.
Proof. vm_compute. reflexivity. Qed.

#[local] Opaque QWE_LUA_MAX_DEPTH.

Lemma plain_leaf nt levels v : (match v with LTable _ _ _ => False | LNum d => (0 <= d < 2 ^ 64)%Z | LStr s => (Z.of_nat (length s) < 2 ^ 64)%Z | _ => True end) ->
  plain nt levels v.
Proof. by destruct levels, v. Qed.

Lemma sample_plain nt levels : plain nt levels sample_value.
Proof.
  destruct levels as [|levels]; [done |]. cbn. split_and!; try done.
  - apply NoDup_ListNoDup. repeat constructor; cbn; naive_solver.
  - by repeat constructor.
  - intros k. repeat case_decide; destruct levels; try done; cbn; split_and!; try done; try (intros k'; repeat case_decide; by apply plain_leaf);
      repeat constructor; first [by apply plain_leaf | set_solver].
Qed.

Lemma encode_exact_witness : exists n, forall fuel, n <= fuel ->
  exists r, qwe_lua_to_cbor (fun _ => []) fuel [] sample_value = CRet r /\
    ((exists b, r = inr b) -> encodable QWE_LUA_MAX_DEPTH sample_value = true) /\
    ([] = [] :> list bool -> encodable QWE_LUA_MAX_DEPTH sample_value = true -> exists b, r = inr b).
Proof. exact (encode_exact (fun _ => []) [] sample_value (plain_small (fun _ => []) _ _ (sample_plain _ _))). Defined.


#[local] Transparent QWE_LUA_MAX_DEPTH.

(** A key with a NUL in it is cut short on the way back: the document decodes,
    but it cannot be encoded, or the value behind that key is lost to the key it
    is cut to, which is then written twice. *)
Lemma nul_key_lost :
  let a := bytes_of "a" in let ab := a ++ [zero] ++ bytes_of "b" in
  let b := byte <$> [162; 97; 97; 244; 97; 97; 244]%Z in
  (forall nt, qwe_lua_to_cbor nt 1 [] (LTable MapMeta [] [(KStr ab, LBool true)]) = CRet (inl "cannot encode this Lua type"%string)) /\
  (forall nt, qwe_lua_to_cbor nt 1 [] (LTable MapMeta [] [(KStr a, LBool false); (KStr ab, LBool true)]) = CRet (inr b)) /\
  qwe_cbor_to_lua [] b = CRet (inr (LTable MapMeta [] [(KStr a, LBool false)])).
Proof. split_and!; intros; vm_compute; reflexivity. Qed.
