(* ===== verification/Yaml.v ===== *)
(** * YAML to CBOR

    Models [src/edge/yaml/transcode.c]: the events libyaml makes of a document
    become one CBOR item and a table of positions.  libyaml is a parameter: the
    results of the calls of [yaml_parser_parse], for each pass over the text.
    Allocations answer as in [Redact]; every array of [struct ctx] is read and
    written by its index. *)

From Stdlib Require Import Ascii String NArith ZArith Lia.
From stdpp Require Import base sets list strings numbers.
From S2P Require Import Prelude Cstr Redact Fmt Cbor Positions Strtod LuaCbor.

Definition QWE_YAML_MAX_DEPTH : nat := 64.
Definition QWE_YAML_MAX_SIZE : Z := 1024 * 1024.
Definition CBOR_MAX_SIZE : Z := QWE_YAML_MAX_SIZE * 64.

Definition ENCRYPTED_TAG : bytes := bytes_of "!encrypted".

Inductive rc := OK | ERR | NOMEM.

#[export] Instance rc_eq_dec : EqDecision rc.
Proof. solve_decision. Defined.

(** ** Events *)

(** 0-based, as libyaml counts. *)
Record yaml_mark := Mark { m_line : Z; m_column : Z }.

(** [tag]: [None] for a null pointer; of an anchor it only matters that there
    is one. *)
Inductive event_type :=
| DocumentStart
| AliasEvent
| ScalarEvent (anchor : bool) (tag : option bytes) (value : bytes) (plain : bool)
| MappingStart (anchor : bool) (tag : option bytes)
| SequenceStart (anchor : bool) (tag : option bytes)
| MappingEnd
| SequenceEnd
| StreamEnd
| OtherEvent.

Record yaml_event := Event { ev_mark : yaml_mark; ev_type : event_type }.

(** ** State *)

Record ctx := Ctx {
  c_stack : list CborEncoder;
  c_depth : nat;
  c_is_map : list bool;
  c_expect_key : list bool;
  c_have_root : bool;
  c_err : bytes;
  c_err_size : nat;
  c_pos : qwe_positions;
  (** The first [path_len] bytes of the path. *)
  c_path : bytes;
  c_path_cap : nat;
  c_container_len : list nat;
  c_next_index : list Z;
  c_key_entry : list Z;
  (** The answers of the allocations still to come. *)
  c_mem : list bool;
}.

#[export] Instance ctx_eta : Eta ctx := fun c =>
  Ctx (c_stack c) (c_depth c) (c_is_map c) (c_expect_key c) (c_have_root c) (c_err c) (c_err_size c) (c_pos c)
    (c_path c) (c_path_cap c) (c_container_len c) (c_next_index c) (c_key_entry c) (c_mem c).

(** [calloc]: all zero. *)
Definition ctx0 (err_size : nat) (mem : list bool) : ctx :=
  Ctx (replicate (QWE_YAML_MAX_DEPTH + 1) (Enc 0 [] false 0 false)) 0
    (replicate (QWE_YAML_MAX_DEPTH + 1) false) (replicate (QWE_YAML_MAX_DEPTH + 1) false) false
    [] err_size qwe_positions_new [] 0
    (replicate (QWE_YAML_MAX_DEPTH + 2) 0) (replicate (QWE_YAML_MAX_DEPTH + 2) 0%Z) (replicate (QWE_YAML_MAX_DEPTH + 2) 0%Z) mem.

Definition located (m : yaml_mark) (msg : bytes) : bytes :=
  dec ((m_line m + 1) mod 2 ^ 64) ++ bytes_of ":" ++ dec ((m_column m + 1) mod 2 ^ 64) ++ bytes_of ": " ++ msg.

Definition set_err (c : ctx) (text : bytes) : ctx := c <| c_err := qwe_msg (c_err_size c) text |>.

Definition fail (c : ctx) (m : yaml_mark) (msg : bytes) : ctx := set_err c (located m msg).

Definition cbor_rc (e : CborError) : rc :=
  match e with
  | CborNoError => OK
  | CborErrorOutOfMemory => NOMEM
  | _ => ERR
  end.

(** [unsigned], 32 bits. *)
Definition to_pos (m : yaml_mark) : qwe_pos := Pos ((m_line m + 1) mod 2 ^ 32) ((m_column m + 1) mod 2 ^ 32).

Definition oom (c : ctx) : ctx * rc := (set_err c (bytes_of "out of memory"), ERR).

(** ** JSON Pointer bookkeeping *)

Fixpoint grow_cap (fuel cap need : nat) : nat :=
  match fuel with
  | 0 => cap
  | S fuel => if cap <? need then grow_cap fuel (cap * 2) need else cap
  end.

Definition path_append (c : ctx) (s : bytes) : ctx * rc :=
  let need := length (c_path c) + length s + 1 in
  if c_path_cap c <? need then
    let cap := grow_cap need (if c_path_cap c =? 0 then 128 else c_path_cap c * 2) need in
    let '(ok, mem) := alloc (c_mem c) in
    let c := c <| c_mem := mem |> in
    if (ok : bool) then (c <| c_path_cap := cap |> <| c_path := c_path c ++ s |>, OK) else oom c
  else (c <| c_path := c_path c ++ s |>, OK).

Definition escaped (a : ascii) : bytes :=
  if Ascii.eqb a "~" then bytes_of "~0" else if Ascii.eqb a "/" then bytes_of "~1" else [a].

Fixpoint push_bytes (c : ctx) (key : bytes) : ctx * rc :=
  match key with
  | [] => (c, OK)
  | a :: key =>
      match path_append c (escaped a) with
      | (c, OK) => push_bytes c key
      | r => r
      end
  end.

Definition path_push_key (c : ctx) (key : bytes) : ctx * rc :=
  match path_append c (bytes_of "/") with
  | (c, OK) => push_bytes c key
  | r => r
  end.

(** [buf] has 32 bytes: [snprintf] must not cut the number. *)
Definition path_push_index (c : ctx) (i : Z) : cres (ctx * rc) :=
  let text := bytes_of "/" ++ dec i in
  if 32 <=? length text then CUndef else CRet (path_append c text).

(** The bytes behind [path_len] are stale: it may only shrink. *)
Definition path_reset (c : ctx) : cres ctx :=
  len ← if 0 <? c_depth c then cread (c_container_len c) (c_depth c) else mret 0;
  if len <=? length (c_path c) then mret (c <| c_path := take len (c_path c) |>) else CUndef.

Definition add_entry (c : ctx) (pointer : bytes) (key value : option qwe_pos) : ctx * Z :=
  let '(mem, pos, i) := qwe_positions_add (c_mem c) (c_pos c) pointer key value in
  (c <| c_mem := mem |> <| c_pos := pos |>, i).

(** [if (qwe_positions_add(...) < 0) rc = oom(c)]. *)
Definition added (r : ctx * Z) : ctx * rc := let '(c, i) := r in if (i <? 0)%Z then oom c else (c, OK).

Definition note_value (c : ctx) (m : yaml_mark) : cres (ctx * rc) :=
  let p := to_pos m in
  if c_depth c =? 0 then mret (added (add_entry (c <| c_path := [] |>) [] None (Some p)))
  else
    is_map ← cread (c_is_map c) (c_depth c);
    if (is_map : bool) then
      i ← cread (c_key_entry c) (c_depth c);
      pos ← qwe_positions_set_value (c_pos c) i p;
      mret (c <| c_pos := pos |>, OK)
    else
      c ← path_reset c;
      i ← cread (c_next_index c) (c_depth c);
      next ← cwrite (c_next_index c) (c_depth c) ((i + 1) mod 2 ^ 64)%Z;
      r ← path_push_index (c <| c_next_index := next |>) i;
      match r with
      | (c, OK) => mret (added (add_entry c (c_path c) None (Some p)))
      | r => mret r
      end.

Definition note_key (c : ctx) (m : yaml_mark) (value : bytes) : cres (ctx * rc) :=
  let p := to_pos m in
  c ← path_reset c;
  match path_push_key c value with
  | (c, OK) =>
      let '(c, i) := add_entry c (c_path c) (Some p) None in
      entries ← cwrite (c_key_entry c) (c_depth c) i;
      mret (added (c <| c_key_entry := entries |>, i))
  | r => mret r
  end.

(** ** Scalars *)

Definition is_sign (a : ascii) : bool := Ascii.eqb a "-" || Ascii.eqb a "+".

(** Without a leading sign. *)
Definition unsigned_part (s : bytes) : bytes :=
  match s with
  | a :: s' => if is_sign a then s' else s
  | [] => []
  end.

Definition is_int (s : bytes) : bool :=
  let ds := unsigned_part s in
  if (length ds =? 0) || (18 <? length ds) then false else forallb is_digit ds.

Definition is_float (s : bytes) : bool :=
  let '(whole, s) := span_digits (unsigned_part s) in
  let '(dot, fraction, s) :=
    match s with
    | a :: s' => if Ascii.eqb a "." then let '(ds, s') := span_digits s' in (true, ds, s') else (false, [], s)
    | [] => (false, [], [])
    end in
  if length whole + length fraction =? 0 then false
  else
    match s with
    | a :: s' =>
        if Ascii.eqb a "e" || Ascii.eqb a "E" then
          let '(ds, s') := span_digits (unsigned_part s') in
          negb (length ds =? 0) && (length s' =? 0)
        else false
    | [] => dot
    end.

Definition is_lit (v : bytes) (lit : string) : bool := bool_decide (v = bytes_of lit).

(** Runs an encoder call on the encoder at the top of the stack. *)
Definition on_top (c : ctx) (f : CborEncoder -> CborEncoder * CborError) : cres (ctx * rc) :=
  enc ← cread (c_stack c) (c_depth c);
  let '(enc, e) := f enc in
  stack ← cwrite (c_stack c) (c_depth c) enc;
  mret (c <| c_stack := stack |>, cbor_rc e).

Definition tag_ok (tag : bytes) : bool := bool_decide (cstr tag = ENCRYPTED_TAG).

Definition null_lit (v : bytes) : bool :=
  (length v =? 0) || is_lit v "~" || is_lit v "null" || is_lit v "Null" || is_lit v "NULL".

Definition true_lit (v : bytes) : bool := is_lit v "true" || is_lit v "True" || is_lit v "TRUE".

Definition false_lit (v : bytes) : bool := is_lit v "false" || is_lit v "False" || is_lit v "FALSE".

(** The call that encodes a scalar without a tag. *)
Definition scalar_call (v : bytes) (plain as_key : bool) (enc : CborEncoder) : CborEncoder * CborError :=
  if negb as_key && plain then
    if null_lit v then cbor_encode_null enc
    else if true_lit v then cbor_encode_boolean enc true
    else if false_lit v then cbor_encode_boolean enc false
    else if is_int v then cbor_encode_int enc (strtoll v)
    else if is_float v then cbor_encode_double enc (strtod v)
    else cbor_encode_text_string enc v
  else cbor_encode_text_string enc v.

Definition scalar (c : ctx) (m : yaml_mark) (tag : option bytes) (v : bytes) (plain as_key : bool) : cres (ctx * rc) :=
  match tag with
  | Some t =>
      if as_key || negb (tag_ok t) then mret (fail c m (bytes_of "unknown tag"), ERR)
      else
        r ← on_top c (fun enc => cbor_encode_tag enc QWE_SECRET_TAG);
        match r with
        | (c, OK) => on_top c (fun enc => cbor_encode_text_string enc v)
        | r => mret r
        end
  | None => on_top c (scalar_call v plain as_key)
  end.

(** ** Containers *)

Definition open_container (c : ctx) (m : yaml_mark) (map : bool) : cres (ctx * rc) :=
  if QWE_YAML_MAX_DEPTH <=? c_depth c then mret (fail c m (bytes_of "nesting too deep"), ERR)
  else
    enc ← cread (c_stack c) (c_depth c);
    let '(enc, inner, e) := create_container enc None (if map then MapType else ArrayType) in
    stack ← cwrite (c_stack c) (c_depth c) enc;
    stack ← cwrite stack (c_depth c + 1) inner;
    let d := c_depth c + 1 in
    is_map ← cwrite (c_is_map c) d map;
    expect ← cwrite (c_expect_key c) d true;
    lens ← cwrite (c_container_len c) d (length (c_path c));
    next ← cwrite (c_next_index c) d 0%Z;
    mret (c <| c_stack := stack |> <| c_depth := d |> <| c_is_map := is_map |> <| c_expect_key := expect |>
            <| c_container_len := lens |> <| c_next_index := next |>, cbor_rc e).

Definition value_done (c : ctx) : cres ctx :=
  if 0 <? c_depth c then
    is_map ← cread (c_is_map c) (c_depth c);
    if (is_map : bool) then
      e ← cread (c_expect_key c) (c_depth c);
      expect ← cwrite (c_expect_key c) (c_depth c) (negb e);
      mret (c <| c_expect_key := expect |>)
    else mret c
  else mret c.

(** The text for a tag that is refused: [%.80s] into 128 bytes. *)
Definition unknown_tag (tag : bytes) : bytes := qwe_msg 128 (bytes_of "unknown tag " ++ take 80 (cstr tag)).

Definition check_props (c : ctx) (m : yaml_mark) (anchor : bool) (tag : option bytes) (tag_allowed : bool) : ctx * rc :=
  if anchor then (fail c m (bytes_of "anchors are not supported"), ERR)
  else
    match tag with
    | Some t => if tag_allowed && tag_ok t then (c, OK) else (fail c m (unknown_tag t), ERR)
    | None => (c, OK)
    end.

(** ** Events *)

Definition merge_key (v : bytes) (plain is_key : bool) : bool := is_key && plain && is_lit v "<<".

Definition on_scalar (c : ctx) (m : yaml_mark) (anchor : bool) (tag : option bytes) (v : bytes) (plain is_key : bool) :
    cres (ctx * rc) :=
  match check_props c m anchor tag (negb is_key) with
  | (c, OK) =>
      if merge_key v plain is_key then mret (fail c m (bytes_of "merge keys are not supported"), ERR)
      else
        r ← (if is_key then note_key c m v else note_value c m);
        r ← match r with
            | (c, OK) => scalar c m tag v plain is_key
            | r => mret r
            end;
        let '(c, code) := r in
        c ← value_done (c <| c_have_root := true |>);
        mret (c, code)
  | r => mret r
  end.

Definition on_start (c : ctx) (m : yaml_mark) (anchor : bool) (tag : option bytes) (map is_key : bool) : cres (ctx * rc) :=
  match check_props c m anchor tag false with
  | (c, OK) =>
      if is_key then mret (fail c m (bytes_of "map keys must be scalars"), ERR)
      else if QWE_YAML_MAX_DEPTH <=? c_depth c then mret (fail c m (bytes_of "nesting too deep"), ERR)
      else
        r ← note_value c m;
        r ← match r with
            | (c, OK) => open_container c m map
            | r => mret r
            end;
        let '(c, code) := r in
        mret (c <| c_have_root := true |>, code)
  | r => mret r
  end.

(** With nothing open, or the end of the other kind, there is no encoder to
    close. *)
Definition on_end (c : ctx) (m : yaml_mark) (map_end : bool) : cres (ctx * rc) :=
  let refused := (fail c m (bytes_of "unbalanced end of a map or sequence"), ERR) in
  match c_depth c with
  | 0 => mret refused
  | S d =>
      is_map ← cread (c_is_map c) (S d);
      if negb (eqb map_end is_map) then mret refused
      else
        parent ← cread (c_stack c) d;
        inner ← cread (c_stack c) (d + 1);
        let '(parent, e) := cbor_encoder_close_container parent inner in
        stack ← cwrite (c_stack c) d parent;
        c ← value_done (c <| c_stack := stack |> <| c_depth := d |>);
        mret (c, cbor_rc e)
  end.

(** [docs]: how many documents have started. *)
Definition handle_event (c : ctx) (ev : yaml_event) (docs : nat) : cres (ctx * nat * rc) :=
  in_map ← (if 0 <? c_depth c then cread (c_is_map c) (c_depth c) else mret false);
  is_key ← (if (in_map : bool) then cread (c_expect_key c) (c_depth c) else mret false);
  let m := ev_mark ev in
  let same (r : ctx * rc) := (fst r, docs, snd r) in
  match ev_type ev with
  | DocumentStart =>
      if 1 <? docs + 1 then mret (fail c m (bytes_of "more than one YAML document"), docs + 1, ERR)
      else mret (c, docs + 1, OK)
  | AliasEvent => mret (fail c m (bytes_of "aliases are not supported"), docs, ERR)
  | ScalarEvent anchor tag v plain => r ← on_scalar c m anchor tag v plain is_key; mret (same r)
  | MappingStart anchor tag => r ← on_start c m anchor tag true is_key; mret (same r)
  | SequenceStart anchor tag => r ← on_start c m anchor tag false is_key; mret (same r)
  | MappingEnd => r ← on_end c m true; mret (same r)
  | SequenceEnd => r ← on_end c m false; mret (same r)
  | StreamEnd | OtherEvent => mret (c, docs, OK)
  end.

(** ** Passes over the document *)

(** What a call of [yaml_parser_parse] gives: an event, or a failure, for want
    of memory or with a problem and its place. *)
Inductive yaml_result :=
| Parsed (ev : yaml_event)
| NoMemory
| Problem (m : yaml_mark) (problem : option bytes).

(** The calls of the parser in one pass: whether [yaml_parser_initialize]
    succeeds, then the results in order. *)
Record attempt := Attempt { at_parser : bool; at_results : list yaml_result }.

Fixpoint parse_loop (results : list yaml_result) (c : ctx) (docs : nat) : cres (ctx * rc) :=
  match results with
  | [] => CFuel
  | NoMemory :: _ => mret (oom c)
  | Problem m p :: _ => mret (fail c m (default (bytes_of "invalid YAML") p), ERR)
  | Parsed ev :: results =>
      match ev_type ev with
      | StreamEnd => mret (c, OK)
      | _ =>
          r ← handle_event c ev docs;
          match r with
          | (c, docs, OK) => parse_loop results c docs
          | (c, _, code) => mret (c, code)
          end
      end
  end.

(** The bytes written, when the code is [OK]. *)
Definition encode (at_ : attempt) (cap : nat) (c : ctx) : cres (ctx * rc * bytes) :=
  let c := c <| c_is_map := replicate (QWE_YAML_MAX_DEPTH + 1) false |> <| c_depth := 0 |> <| c_have_root := false |>
             <| c_path := [] |> <| c_pos := qwe_positions_new |> in
  let '(ok, mem) := alloc (c_mem c) in
  let c := c <| c_mem := mem |> in
  if negb ok then mret (oom c, [])
  else
    stack ← cwrite (c_stack c) 0 (cbor_encoder_init cap);
    let c := c <| c_stack := stack |> in
    if negb (at_parser at_) then mret (oom c, [])
    else
      r ← parse_loop (at_results at_) c 0;
      let '(c, code) := r in
      match code with
      | OK =>
          if c_have_root c then
            enc ← cread (c_stack c) 0;
            mret (c, OK, en_out enc)
          else mret (set_err c (bytes_of "1:1: empty document"), ERR, [])
      | _ => mret (c, code, [])
      end.

Section transcode.
(** The calls of libyaml, by pass. *)
Context (parser : nat -> attempt).

(** The buffer doubles until the document fits; [pass] counts. *)
Fixpoint passes (fuel pass cap : nat) (c : ctx) : cres (ctx * rc * bytes) :=
  match fuel with
  | 0 => CFuel
  | S fuel =>
      if (CBOR_MAX_SIZE <? Z.of_nat cap)%Z then
        mret (set_err c (bytes_of "1:1: document is larger than 67108864 bytes once encoded"), ERR, [])
      else
        let '(ok, mem) := alloc (c_mem c) in
        let c := c <| c_mem := mem |> in
        if negb ok then mret (set_err c (bytes_of "out of memory"), ERR, [])
        else
          r ← encode (parser pass) cap c;
          match r with
          | (c, NOMEM, _) => passes fuel (S pass) (cap * 2) c
          | r => mret r
          end
  end.

(** From 64 bytes to 64 MiB in twenty doublings. *)
Definition PASSES : nat := 22.

(** [len]: the length of the text.  An error is its text. *)
Definition qwe_yaml_to_cbor (len err_size : nat) (mem : list bool) : cres (bytes + bytes * qwe_positions) :=
  if (QWE_YAML_MAX_SIZE <? Z.of_nat len)%Z then
    mret (inl (qwe_msg err_size (bytes_of "1:1: document is larger than 1048576 bytes")))
  else
    let '(ok, mem) := alloc mem in
    if negb ok then mret (inl (qwe_msg err_size (bytes_of "out of memory")))
    else
      r ← passes PASSES 0 (len * 2 + 64) (ctx0 err_size mem);
      match r with
      | (c, OK, out) => mret (inr (out, qwe_positions_finish (c_pos c)))
      | (c, _, _) =>
          mret (inl (match c_err c with
                     | [] => qwe_msg err_size (bytes_of "cannot encode document")
                     | e => e
                     end))
      end.
End transcode.

Fixpoint handle_events (c : ctx) (events : list yaml_event) (docs : nat) : cres (ctx * rc) :=
  match events with
  | [] => mret (c, OK)
  | ev :: events =>
      r ← handle_event c ev docs;
      match r with
      | (c, docs, OK) => handle_events c events docs
      | (c, _, code) => mret (c, code)
      end
  end.

(** Events that no parser made, into a buffer of 4096 bytes. *)
Definition qwe_yaml_events_for_test (events : list yaml_event) (err_size : nat) (mem : list bool) : cres (option bytes) :=
  let '(ok, mem) := alloc mem in
  if negb ok then mret None
  else
    let c := ctx0 err_size mem in
    let '(ok, mem) := alloc (c_mem c) in
    let c := c <| c_mem := mem |> in
    if negb ok then mret None
    else
      stack ← cwrite (c_stack c) 0 (cbor_encoder_init 4096);
      r ← handle_events (c <| c_stack := stack |>) events 0;
      match r with
      | (c, OK) => enc ← cread (c_stack c) 0; mret (Some (en_out enc))
      | _ => mret None
      end.
