(* ===== verification/YamlSpec.v ===== *)
(** * A machine with a stack

    What [Yaml] does to an event, without its arrays: the open containers are a
    list of frames, the innermost first, and a frame of a map knows the entry and
    the pointer of the key whose value is due.  [YamlOk] shows that [struct ctx]
    implements this machine; [YamlDoc] runs it on the events of documents. *)

From Stdlib Require Import Ascii String NArith ZArith Lia.
From stdpp Require Import base sets list strings numbers.
From S2P Require Import Prelude Cstr Redact Fmt Cbor Positions Strtod LuaCbor Yaml.

(** [key]: the index of the entry of the key just read, and its pointer; [None]
    where a key is due. *)
Inductive frame :=
| FSeq (enc : CborEncoder) (path : bytes) (next : Z)
| FMap (enc : CborEncoder) (path : bytes) (key : option (nat * bytes)).

Definition f_enc (f : frame) : CborEncoder := match f with FSeq e _ _ | FMap e _ _ => e end.
Definition f_path (f : frame) : bytes := match f with FSeq _ p _ | FMap _ p _ => p end.

Definition f_with (e : CborEncoder) (f : frame) : frame :=
  match f with
  | FSeq _ p n => FSeq e p n
  | FMap _ p k => FMap e p k
  end.

Record machine := Machine {
  a_base : CborEncoder;
  a_frames : list frame;
  a_root : bool;
  a_table : list entry;
}.

#[export] Instance machine_eta : Eta machine := fun a => Machine (a_base a) (a_frames a) (a_root a) (a_table a).

Definition start (cap : nat) : machine := Machine (cbor_encoder_init cap) [] false [].

(** [Stop]: without a message of its own. *)
Inductive outcome :=
| Go (a : machine)
| Refuse (m : yaml_mark) (msg : bytes)
| Stop (code : rc).

Definition and_then (o : outcome) (k : machine -> outcome) : outcome :=
  match o with
  | Go a => k a
  | o => o
  end.

Definition top_enc (a : machine) : CborEncoder := match a_frames a with [] => a_base a | f :: _ => f_enc f end.

Definition set_top (e : CborEncoder) (a : machine) : machine :=
  match a_frames a with
  | [] => a <| a_base := e |>
  | f :: fs => a <| a_frames := f_with e f :: fs |>
  end.

Definition call (f : CborEncoder -> CborEncoder * CborError) (a : machine) : outcome :=
  let '(e, err) := f (top_enc a) in
  match cbor_rc err with
  | OK => Go (set_top e a)
  | code => Stop code
  end.

Definition key_due (a : machine) : bool :=
  match a_frames a with
  | FMap _ _ None :: _ => true
  | _ => false
  end.

Definition escape (key : bytes) : bytes := mjoin (escaped <$> key).

Definition under (path token : bytes) : bytes := path ++ bytes_of "/" ++ token.

(** A value starts at [p]: its pointer, and its entry or its key's. *)
Definition place (p : qwe_pos) (a : machine) : machine * bytes :=
  match a_frames a with
  | [] => (a <| a_table := a_table a ++ [Entry [] None (Some p)] |>, [])
  | FSeq e path n :: fs =>
      let ptr := under path (dec n) in
      (a <| a_frames := FSeq e path ((n + 1) mod 2 ^ 64) :: fs |> <| a_table := a_table a ++ [Entry (cstr ptr) None (Some p)] |>, ptr)
  | FMap _ _ (Some (i, ptr)) :: _ => (a <| a_table := alter (fun en => en <| e_value := Some p |>) i (a_table a) |>, ptr)
  | FMap _ _ None :: _ => (a, [])
  end.

Definition place_key (p : qwe_pos) (v : bytes) (a : machine) : machine :=
  match a_frames a with
  | FMap e path None :: fs =>
      let ptr := under path (escape v) in
      a <| a_frames := FMap e path (Some (length (a_table a), ptr)) :: fs |> <| a_table := a_table a ++ [Entry (cstr ptr) (Some p) None] |>
  | _ => a
  end.

Definition value_ends (a : machine) : machine :=
  match a_frames a with
  | FMap e path _ :: fs => a <| a_frames := FMap e path None :: fs |>
  | _ => a
  end.

(** The first objection to a node's anchor and tag. *)
Definition bad_props (m : yaml_mark) (anchor : bool) (tag : option bytes) (tag_allowed : bool) : option bytes :=
  if anchor then Some (bytes_of "anchors are not supported")
  else
    match tag with
    | Some t => if tag_allowed && tag_ok t then None else Some (unknown_tag t)
    | None => None
    end.

Definition scalar_calls (tag : option bytes) (v : bytes) (plain is_key : bool) (a : machine) : outcome :=
  match tag with
  | Some _ =>
      and_then (call (fun e => cbor_encode_tag e QWE_SECRET_TAG) a) (call (fun e => cbor_encode_text_string e v))
  | None => call (scalar_call v plain is_key) a
  end.

Definition step_scalar (m : yaml_mark) (anchor : bool) (tag : option bytes) (v : bytes) (plain : bool) (a : machine) : outcome :=
  let is_key := key_due a in
  match bad_props m anchor tag (negb is_key) with
  | Some msg => Refuse m msg
  | None =>
      if merge_key v plain is_key then Refuse m (bytes_of "merge keys are not supported")
      else if is_key then
        and_then (scalar_calls tag v plain true (place_key (to_pos m) v a)) (fun a => Go (a <| a_root := true |>))
      else
        and_then (scalar_calls tag v plain false (fst (place (to_pos m) a))) (fun a => Go (value_ends (a <| a_root := true |>)))
  end.

Definition step_start (m : yaml_mark) (anchor : bool) (tag : option bytes) (map : bool) (a : machine) : outcome :=
  match bad_props m anchor tag false with
  | Some msg => Refuse m msg
  | None =>
      if key_due a then Refuse m (bytes_of "map keys must be scalars")
      else if QWE_YAML_MAX_DEPTH <=? length (a_frames a) then Refuse m (bytes_of "nesting too deep")
      else
        let '(a, ptr) := place (to_pos m) a in
        let '(outer, inner, err) := create_container (top_enc a) None (if map then MapType else ArrayType) in
        let a := set_top outer a in
        match cbor_rc err with
        | OK => Go (a <| a_frames := (if map then FMap inner ptr None else FSeq inner ptr 0) :: a_frames a |> <| a_root := true |>)
        | code => Stop code
        end
  end.

Definition is_FMap (f : frame) : bool := match f with FMap _ _ _ => true | FSeq _ _ _ => false end.

Definition step_end (m : yaml_mark) (map_end : bool) (a : machine) : outcome :=
  match a_frames a with
  | f :: fs =>
      if eqb map_end (is_FMap f) then
        let a := a <| a_frames := fs |> in
        and_then (call (fun e => cbor_encoder_close_container e (f_enc f)) a) (fun a => Go (value_ends a))
      else Refuse m (bytes_of "unbalanced end of a map or sequence")
  | [] => Refuse m (bytes_of "unbalanced end of a map or sequence")
  end.

Definition step (docs : nat) (ev : yaml_event) (a : machine) : outcome :=
  let m := ev_mark ev in
  match ev_type ev with
  | DocumentStart => if 1 <? docs + 1 then Refuse m (bytes_of "more than one YAML document") else Go a
  | AliasEvent => Refuse m (bytes_of "aliases are not supported")
  | ScalarEvent anchor tag v plain => step_scalar m anchor tag v plain a
  | MappingStart anchor tag => step_start m anchor tag true a
  | SequenceStart anchor tag => step_start m anchor tag false a
  | MappingEnd => step_end m true a
  | SequenceEnd => step_end m false a
  | StreamEnd | OtherEvent => Go a
  end.

Definition docs_after (docs : nat) (ev : yaml_event) : nat := if ev_type ev is DocumentStart then docs + 1 else docs.

(** One pass over the results of the parser. *)
Fixpoint run (results : list yaml_result) (docs : nat) (a : machine) : option outcome :=
  match results with
  | [] => None
  | NoMemory :: _ => Some (Stop ERR)
  | Problem m p :: _ => Some (Refuse m (default (bytes_of "invalid YAML") p))
  | Parsed ev :: results =>
      match ev_type ev with
      | StreamEnd => Some (Go a)
      | _ =>
          match step docs ev a with
          | Go a => run results (docs_after docs ev) a
          | o => Some o
          end
      end
  end.
