(* ===== verification/YamlOk.v ===== *)
(** * The transcoder keeps within its arrays

    [struct ctx] implements the machine of [YamlSpec]: whatever events come and
    whichever allocations fail, every index is inside its array, every path and
    every entry of the table is the machine's, and an error has its message.
    Hence [qwe_yaml_to_cbor] returns for every parser that ends its passes. *)

From Stdlib Require Import Ascii String NArith ZArith Lia.
From stdpp Require Import base sets list strings numbers.
From S2P Require Import Prelude Cstr Redact Fmt Cbor Positions Strtod LuaCbor Yaml YamlSpec.

#[local] Opaque QWE_YAML_MAX_DEPTH.

(** ** The relation *)

Record shape (c : ctx) : Prop := Shape {
  sh_stack : length (c_stack c) = QWE_YAML_MAX_DEPTH + 1;
  sh_is_map : length (c_is_map c) = QWE_YAML_MAX_DEPTH + 1;
  sh_expect : length (c_expect_key c) = QWE_YAML_MAX_DEPTH + 1;
  sh_lens : length (c_container_len c) = QWE_YAML_MAX_DEPTH + 2;
  sh_next : length (c_next_index c) = QWE_YAML_MAX_DEPTH + 2;
  sh_keys : length (c_key_entry c) = QWE_YAML_MAX_DEPTH + 2;
  sh_depth : c_depth c <= QWE_YAML_MAX_DEPTH;
}.

(** What the arrays hold at [i] of the frame at depth [i]. *)
Definition rep_frame (c : ctx) (i : nat) (f : frame) : Prop :=
  c_stack c !! i = Some (f_enc f) /\ c_is_map c !! i = Some (is_FMap f) /\
  c_container_len c !! i = Some (length (f_path f)) /\
  match f with
  | FSeq _ _ n => c_next_index c !! i = Some n /\ (0 <= n < 2 ^ 64)%Z
  | FMap _ _ None => c_expect_key c !! i = Some true
  | FMap _ _ (Some (j, _)) => c_expect_key c !! i = Some false /\ c_key_entry c !! i = Some (Z.of_nat j)
  end.

(** The paths of the frames are longer and longer parts of the current one. *)
Fixpoint rep_frames (c : ctx) (limit : bytes) (fs : list frame) : Prop :=
  match fs with
  | [] => True
  | f :: fs => f_path f `prefix_of` limit /\ rep_frame c (S (length fs)) f /\ rep_frames c (f_path f) fs
  end.

Definition value_due (c : ctx) (a : machine) : Prop :=
  match a_frames a with
  | FMap _ _ (Some (j, ptr)) :: _ => c_path c = ptr /\ j < length (a_table a)
  | _ => True
  end.

(** A map with something open in it waits for that value. *)
Definition waits (f : frame) : Prop := match f with FMap _ _ None => False | _ => True end.

Record rep (c : ctx) (a : machine) : Prop := Rep {
  rp_shape : shape c;
  rp_depth : c_depth c = length (a_frames a);
  rp_base : c_stack c !! 0 = Some (a_base a);
  rp_frames : rep_frames c (c_path c) (a_frames a);
  rp_root : c_have_root c = a_root a;
  rp_table : ps_e (c_pos c) = a_table a;
  rp_value : value_due c a;
  rp_outer : Forall waits (list.tail (a_frames a));
}.

(** A call that ran out of memory. *)
Definition ran_out (c : ctx) (r : ctx * rc) : Prop :=
  snd r = ERR /\ c_mem c <> [] /\ c_err (fst r) = qwe_msg (c_err_size c) (bytes_of "out of memory").

(** What is true of every call: it keeps the shape, and takes no answers where
    there are none to take. *)
Record calm (c c' : ctx) : Prop := Calm {
  cm_shape : shape c';
  cm_size : c_err_size c' = c_err_size c;
  cm_mem : c_mem c = [] -> c_mem c' = [];
}.

(** The call did as the machine, or ran out of memory. *)
Definition follows (c : ctx) (o : outcome) (r : ctx * rc) : Prop :=
  calm c (fst r) /\
  (ran_out c r \/
   match o with
   | Go a => snd r = OK /\ rep (fst r) a /\ c_err (fst r) = c_err c
   | Refuse m msg => snd r = ERR /\ c_err (fst r) = qwe_msg (c_err_size c) (located m msg)
   | Stop code => snd r = code /\ code <> OK /\ (code = NOMEM -> c_err (fst r) = c_err c)
   end).

Lemma calm_trans c1 c2 c3 : calm c1 c2 -> calm c2 c3 -> calm c1 c3.
Proof. intros [H1 H2 H3] [H4 H5 H6]. constructor; [done | congruence | auto]. Qed.

Lemma ran_out_trans c c' r : calm c c' -> ran_out c' r -> ran_out c r.
Proof. intros [_ Hs Hm] (H1 & H2 & H3). split_and!; [done | auto | congruence]. Qed.

(** ** Frames *)

(** The arrays agree up to depth [n]. *)
Record same_upto (n : nat) (c c' : ctx) : Prop := {
  su_stack : forall i, 1 <= i <= n -> c_stack c' !! i = c_stack c !! i;
  su_is_map : forall i, 1 <= i <= n -> c_is_map c' !! i = c_is_map c !! i;
  su_expect : forall i, 1 <= i <= n -> c_expect_key c' !! i = c_expect_key c !! i;
  su_lens : forall i, 1 <= i <= n -> c_container_len c' !! i = c_container_len c !! i;
  su_next : forall i, 1 <= i <= n -> c_next_index c' !! i = c_next_index c !! i;
  su_keys : forall i, 1 <= i <= n -> c_key_entry c' !! i = c_key_entry c !! i;
}.

Lemma rep_frame_same n c c' i f : same_upto n c c' -> 1 <= i <= n -> rep_frame c i f -> rep_frame c' i f.
Proof.
  intros [H1 H2 H3 H4 H5 H6] Hi (F1 & F2 & F3 & F4). unfold rep_frame. rewrite H1, H2, H4 by done. split_and!; try done.
  destruct f as [e p n'|e p [[j ptr]|]]; rewrite ?H3, ?H5, ?H6 by done; done.
Qed.

Lemma rep_frames_same c c' limit fs : same_upto (length fs) c c' -> rep_frames c limit fs -> rep_frames c' limit fs.
Proof.
  revert limit. induction fs as [|f fs IH]; intros limit Hs; [done |]. cbn. intros (H1 & H2 & H3). split_and!; [done | |].
  - eapply rep_frame_same; [exact Hs | cbn; lia | done].
  - apply IH; [| done]. destruct Hs as [S1 S2 S3 S4 S5 S6]. cbn in *.
    constructor; intros i Hi; [apply S1 | apply S2 | apply S3 | apply S4 | apply S5 | apply S6]; lia.
Qed.

Lemma rep_frames_longer c limit limit' fs : limit `prefix_of` limit' -> rep_frames c limit fs -> rep_frames c limit' fs.
Proof. destruct fs as [|f fs]; [done |]. cbn. intros Hl (H1 & H2 & H3). split_and!; [by etrans | done | done]. Qed.

Lemma same_upto_refl n c c' : c_stack c' = c_stack c -> c_is_map c' = c_is_map c -> c_expect_key c' = c_expect_key c ->
  c_container_len c' = c_container_len c -> c_next_index c' = c_next_index c -> c_key_entry c' = c_key_entry c -> same_upto n c c'.
Proof. intros E1 E2 E3 E4 E5 E6. constructor; intros; congruence. Qed.

Lemma cut_prefix {A} (p l : list A) : p `prefix_of` l -> take (length p) l = p /\ length p <= length l.
Proof. intros [k ->]. rewrite take_app_length, length_app. split; [done | lia]. Qed.

(** ** Paths *)

(** Only the path, its buffer and the message change. *)
Record paths (c c' : ctx) : Prop := Paths {
  pt_stack : c_stack c' = c_stack c;
  pt_depth : c_depth c' = c_depth c;
  pt_is_map : c_is_map c' = c_is_map c;
  pt_expect : c_expect_key c' = c_expect_key c;
  pt_root : c_have_root c' = c_have_root c;
  pt_size : c_err_size c' = c_err_size c;
  pt_pos : c_pos c' = c_pos c;
  pt_lens : c_container_len c' = c_container_len c;
  pt_next : c_next_index c' = c_next_index c;
  pt_keys : c_key_entry c' = c_key_entry c;
  pt_mem : c_mem c = [] -> c_mem c' = [];
}.

Lemma paths_trans c1 c2 c3 : paths c1 c2 -> paths c2 c3 -> paths c1 c3.
Proof. intros [] []. constructor; try congruence; auto. Qed.

Lemma paths_calm c c' : paths c c' -> shape c -> calm c c'.
Proof. intros [] []. constructor; [constructor; congruence || lia | done | done]. Qed.

Lemma alloc_mem mem : let '(ok, mem') := alloc mem in (mem = [] -> mem' = [] /\ ok = true).
Proof. by destruct mem. Qed.

Lemma path_append_ok c s : paths c (fst (path_append c s)) /\
  (ran_out c (path_append c s) \/
   snd (path_append c s) = OK /\ c_path (fst (path_append c s)) = c_path c ++ s /\ c_err (fst (path_append c s)) = c_err c).
Proof.
  unfold path_append. destruct (_ <? _); [| split; [by constructor | by right]].
  pose proof (alloc_mem (c_mem c)) as Ha. destruct (alloc (c_mem c)) as [[] mem]; cbn.
  - split; [constructor; try done; cbn; naive_solver | by right].
  - split; [constructor; try done; cbn; naive_solver | left]. split_and!; [done | naive_solver | done].
Qed.

Lemma ran_out_paths c c' r : paths c c' -> ran_out c' r -> ran_out c r.
Proof. intros [] (H1 & H2 & H3). split_and!; [done | auto | congruence]. Qed.

Lemma push_bytes_ok key c : paths c (fst (push_bytes c key)) /\
  (ran_out c (push_bytes c key) \/
   snd (push_bytes c key) = OK /\ c_path (fst (push_bytes c key)) = c_path c ++ escape key /\ c_err (fst (push_bytes c key)) = c_err c).
Proof.
  revert c. induction key as [|b key IH]; intros c; cbn [push_bytes].
  - split; [by constructor | right]. cbn. by rewrite app_nil_r.
  - destruct (path_append_ok c (escaped b)) as [Hp H]. destruct (path_append c (escaped b)) as [c' code]. cbn [fst snd] in *.
    destruct H as [H|(-> & Hpath & Herr)].
    + destruct H as (H1 & H2 & H3). cbn in H1. subst code. split; [done | left; by split_and!].
    + destruct (IH c') as [Hp' [H|(H1 & H2 & H3)]]; (split; [by eapply paths_trans |]).
      * left. by eapply ran_out_paths.
      * right. split_and!; [done | | congruence]. rewrite H2, Hpath, <- app_assoc. done.
Qed.

Lemma path_push_key_ok key c : paths c (fst (path_push_key c key)) /\
  (ran_out c (path_push_key c key) \/
   snd (path_push_key c key) = OK /\ c_path (fst (path_push_key c key)) = under (c_path c) (escape key) /\
   c_err (fst (path_push_key c key)) = c_err c).
Proof.
  unfold path_push_key. destruct (path_append_ok c (bytes_of "/")) as [Hp H]. destruct (path_append c (bytes_of "/")) as [c' code].
  cbn [fst snd] in *. destruct H as [H|(-> & Hpath & Herr)].
  - destruct H as (H1 & H2 & H3). cbn in H1. subst code. split; [done | left; by split_and!].
  - destruct (push_bytes_ok key c') as [Hp' [H|(H1 & H2 & H3)]]; (split; [by eapply paths_trans |]).
    + left. by eapply ran_out_paths.
    + right. split_and!; [done | | congruence]. unfold under. by rewrite H2, Hpath, <- app_assoc.
Qed.

Lemma dec_length n : (0 <= n < 2 ^ 64)%Z -> length (dec n) <= 20.
Proof. intros Hn. apply (dec_digits 20); lia. Qed.

Lemma path_push_index_ok c i : (0 <= i < 2 ^ 64)%Z -> returns (path_push_index c i) (fun r => paths c (fst r) /\
  (ran_out c r \/ snd r = OK /\ c_path (fst r) = under (c_path c) (dec i) /\ c_err (fst r) = c_err c)).
Proof.
  intros Hi. unfold path_push_index. pose proof (dec_length i Hi). rewrite length_app. change (length (bytes_of "/")) with 1.
  destruct (Nat.leb_spec 32 (1 + length (dec i))); [lia |]. apply returns_ret. apply path_append_ok.
Qed.

Definition container_path (a : machine) : bytes := match a_frames a with [] => [] | f :: _ => f_path f end.

Lemma path_reset_ok c a : rep c a -> path_reset c = CRet (c <| c_path := container_path a |>).
Proof.
  intros H. unfold path_reset, container_path. rewrite (rp_depth _ _ H). pose proof (rp_frames _ _ H) as Hf.
  destruct (a_frames a) as [|f fs]; cbn [length Nat.ltb Nat.leb].
  - cstep. by rewrite take_0.
  - cbn in Hf. destruct Hf as (Hp & (_ & _ & Hl & _) & _). rewrite (cread_Some _ _ _ Hl). cstep.
    destruct (cut_prefix _ _ Hp) as [-> Hle]. destruct (Nat.leb_spec (length (f_path f)) (length (c_path c))); [done | lia].
Qed.

(** ** The position table *)

Lemma positions_add_ok mem p ptr k v : let '(mem', p', i) := qwe_positions_add mem p ptr k v in
  (mem = [] -> mem' = []) /\
  ((i < 0)%Z /\ mem <> [] \/ i = Z.of_nat (length (ps_e p)) /\ ps_e p' = ps_e p ++ [Entry (cstr ptr) k v]).
Proof.
  unfold qwe_positions_add. set (full := length (ps_e p) =? ps_cap p).
  pose proof (alloc_mem mem) as H1. destruct full; [destruct (alloc mem) as [[] mem1] |].
  - cbn [negb]. pose proof (alloc_mem mem1) as H2. destruct (alloc mem1) as [[] mem2]; cbn; split; try (by naive_solver); by right.
  - cbn. split; [naive_solver | left; naive_solver lia].
  - cbn [negb]. clear H1. pose proof (alloc_mem mem) as H2. destruct (alloc mem) as [[] mem2]; cbn; split; try (by naive_solver); by right.
Qed.

Definition tabled (c : ctx) (e : entry) (r : ctx * Z) : Prop :=
  exists mem pos i, r = (c <| c_mem := mem |> <| c_pos := pos |>, i) /\ (c_mem c = [] -> mem = []) /\
    ((i < 0)%Z /\ c_mem c <> [] \/ i = Z.of_nat (length (ps_e (c_pos c))) /\ ps_e pos = ps_e (c_pos c) ++ [e]).

Lemma add_entry_ok c ptr k v : tabled c (Entry (cstr ptr) k v) (add_entry c ptr k v).
Proof.
  unfold add_entry. pose proof (positions_add_ok (c_mem c) (c_pos c) ptr k v) as H.
  destruct (qwe_positions_add _ _ _ _ _) as [[mem p] i]. destruct H as [H1 H2]. by exists mem, p, i.
Qed.

Lemma set_value_ok p j pos : j < length (ps_e p) -> exists p', qwe_positions_set_value p (Z.of_nat j) pos = CRet p' /\
  ps_e p' = alter (fun en => en <| e_value := Some pos |>) j (ps_e p).
Proof.
  intros Hj. unfold qwe_positions_set_value. destruct (Z.ltb_spec (Z.of_nat j) 0); [lia |]. rewrite Nat2Z.id.
  destruct (lookup_lt_is_Some_2 _ _ Hj) as [e He]. rewrite (cread_Some _ _ _ He). cstep. rewrite cwrite_ok by done. cstep.
  eexists. split; [done |]. cbn. apply list_eq. intros i. destruct (decide (i = j)) as [->|Hn].
  - rewrite list_lookup_insert_eq by done. rewrite list_lookup_alter_eq, He. done.
  - by rewrite list_lookup_insert_ne, list_lookup_alter_ne by done.
Qed.

(** ** Where a value starts *)

Lemma shape_eq c c' : length (c_stack c') = length (c_stack c) -> length (c_is_map c') = length (c_is_map c) ->
  length (c_expect_key c') = length (c_expect_key c) -> length (c_container_len c') = length (c_container_len c) ->
  length (c_next_index c') = length (c_next_index c) -> length (c_key_entry c') = length (c_key_entry c) ->
  c_depth c' = c_depth c -> shape c -> shape c'.
Proof. intros E1 E2 E3 E4 E5 E6 E7 []. constructor; congruence || lia. Qed.

Lemma rp_max c a : rep c a -> length (a_frames a) <= QWE_YAML_MAX_DEPTH.
Proof. intros H. rewrite <- (rp_depth _ _ H). apply H. Qed.

Lemma under_prefix path token : path `prefix_of` under path token.
Proof. by exists (bytes_of "/" ++ token). Qed.

(** Writes of the arrays above depth [n] are not seen below. *)
Ltac above := constructor; intros i Hi; cbn; rewrite ?list_lookup_insert_ne by lia; done.

Definition noted (c : ctx) (a' : machine) (ptr : bytes) (r : ctx * rc) : Prop :=
  calm c (fst r) /\
  (ran_out c r \/ snd r = OK /\ rep (fst r) a' /\ c_path (fst r) = ptr /\ c_err (fst r) = c_err c).

Lemma added_ok c e r (Q : ctx * rc -> Prop) : tabled c e r ->
  (forall c' i, r = (c', i) -> (i < 0)%Z -> c_mem c <> [] -> Q (oom c')) ->
  (forall mem pos i, i = Z.of_nat (length (ps_e (c_pos c))) -> ps_e pos = ps_e (c_pos c) ++ [e] -> (c_mem c = [] -> mem = []) ->
    Q (c <| c_mem := mem |> <| c_pos := pos |>, OK)) -> Q (added r).
Proof.
  intros (mem & pos & i & -> & Hm & [[Hi Hn]|[Hi Hp]]) H1 H2; unfold added.
  - destruct (Z.ltb_spec i 0); [| lia]. by eapply H1.
  - destruct (Z.ltb_spec i 0); [lia |]. by eapply H2.
Qed.

Lemma oom_calm c c' : calm c c' -> calm c (fst (oom c')).
Proof. intros [H1 H2 H3]. constructor; [by eapply shape_eq; [..|exact H1] | done | done]. Qed.

Lemma oom_ran_out c c' : calm c c' -> c_mem c <> [] -> ran_out c (oom c').
Proof. intros [_ H2 _] Hn. split_and!; [done | done | cbn; by rewrite H2]. Qed.

Lemma tabled_calm c e c' i : shape c -> tabled c e (c', i) -> calm c c'.
Proof.
  intros Hs (mem & pos & i' & [= -> _] & Hm & _). constructor; [by eapply shape_eq; [..|exact Hs] | done | done].
Qed.

Lemma note_root_ok c a m : rep c a -> a_frames a = [] ->
  returns (note_value c m) (noted c (fst (place (to_pos m) a)) (snd (place (to_pos m) a))).
Proof.
  intros H Hf. unfold note_value. rewrite (rp_depth _ _ H), Hf. cbn [length Nat.eqb]. apply returns_ret.
  set (c1 := c <| c_path := [] |>). pose proof (add_entry_ok c1 [] None (Some (to_pos m))) as Ht.
  assert (Hc1 : calm c c1) by (constructor; [eapply shape_eq; [..|exact (rp_shape _ _ H)]; done | done | done]).
  revert Ht. eapply added_ok; [exact (add_entry_ok _ _ _ _) | |].
  - intros c' i E _ Hm Ht. rewrite E in Ht. pose proof (calm_trans _ _ _ Hc1 (tabled_calm _ _ _ _ (cm_shape _ _ Hc1) Ht)) as Hc.
    split; [by apply oom_calm | left; by apply oom_ran_out].
  - intros mem pos i Hi Hp Hm _. split; [| right].
    + constructor; [eapply shape_eq; [..|exact (rp_shape _ _ H)]; done | done | done].
    + unfold place. rewrite Hf. split_and!; try done. destruct H. constructor; try done; cbn; rewrite ?Hf; try done.
      * eapply shape_eq; [..|exact rp_shape0]; done.
      * by rewrite Hp, <- rp_table0.
      * unfold value_due. cbn. by rewrite Hf.
Qed.

Lemma note_mapped_ok c a m e path j ptr fs : rep c a -> a_frames a = FMap e path (Some (j, ptr)) :: fs ->
  returns (note_value c m) (noted c (fst (place (to_pos m) a)) (snd (place (to_pos m) a))).
Proof.
  intros H Hf. pose proof (rp_frames _ _ H) as Hr. rewrite Hf in Hr. destruct Hr as (Hp & (H1 & H2 & H3 & H4 & H5) & Hr).
  pose proof (rp_value _ _ H) as Hv. unfold value_due in Hv. rewrite Hf in Hv. destruct Hv as [Hpath Hj].
  unfold note_value. rewrite (rp_depth _ _ H), Hf. cbn [length Nat.eqb]. eapply returns_read; [exact H2 |]. cbn [is_FMap].
  eapply returns_read; [exact H5 |]. rewrite <- (rp_table _ _ H) in Hj. destruct (set_value_ok (c_pos c) j (to_pos m) Hj) as (pos & -> & Ep).
  cstep. apply returns_ret. assert (Hs : same_upto (S (length fs)) c (c <| c_pos := pos |>)) by by apply same_upto_refl.
  split; [constructor; [eapply shape_eq; [..|exact (rp_shape _ _ H)]; done | done | done] | right].
  unfold place. rewrite Hf. cbn [fst snd]. split_and!; try done. destruct H. constructor; try done.
  - eapply shape_eq; [..|exact rp_shape0]; done.
  - cbn. rewrite Hf. rewrite Hf in rp_frames0. by eapply (rep_frames_same c).
  - cbn. by rewrite Ep, rp_table0.
  - unfold value_due. cbn. rewrite Hf. rewrite length_alter. by rewrite <- rp_table0.
Qed.

Lemma note_item_ok c a m e path n fs : rep c a -> a_frames a = FSeq e path n :: fs ->
  returns (note_value c m) (noted c (fst (place (to_pos m) a)) (snd (place (to_pos m) a))).
Proof.
  intros H Hf. pose proof (rp_frames _ _ H) as Hr. rewrite Hf in Hr. destruct Hr as (Hp & (H1 & H2 & H3 & H4 & H5) & Hr).
  pose proof (rp_shape _ _ H) as Hs. pose proof (rp_max _ _ H) as Hmax. rewrite Hf in Hmax. cbn [length] in Hmax.
  unfold note_value. rewrite (rp_depth _ _ H), Hf. cbn [length Nat.eqb]. eapply returns_read; [exact H2 |]. cbn [is_FMap].
  rewrite (path_reset_ok _ _ H). unfold container_path. rewrite Hf. cstep. cbn [f_path].
  change (c_depth (c <| c_path := path |>)) with (c_depth c). change (c_next_index (c <| c_path := path |>)) with (c_next_index c).
  rewrite (rp_depth _ _ H), Hf. cbn [length]. eapply returns_read; [exact H4 |].
  apply returns_write; [rewrite (sh_next _ Hs); lia |].
  set (next := <[S (length fs) := _]> _). set (c1 := c <| c_path := path |> <| c_next_index := next |>).
  assert (Hc1 : calm c c1) by (constructor; [eapply shape_eq; [..|exact Hs]; cbn; unfold next; rewrite ?length_insert; done | done | done]).
  eapply returns_bind; [apply (path_push_index_ok c1 n H5) |]. intros [c2 code] [Hp2 H2']. cbn [fst snd] in *.
  pose proof (calm_trans _ _ _ Hc1 (paths_calm _ _ Hp2 (cm_shape _ _ Hc1))) as Hc2.
  destruct H2' as [Hout|(-> & Hpath & Herr)].
  { pose proof (ran_out_trans _ _ _ Hc1 Hout) as Ho. destruct Hout as (E & _). cbn in E. subst code. apply returns_ret. by split; [| left]. }
  apply returns_ret. eapply added_ok; [apply add_entry_ok | |].
  - intros c' i E _ Hm. pose proof (add_entry_ok c2 (c_path c2) None (Some (to_pos m))) as Ht. rewrite E in Ht.
    pose proof (calm_trans _ _ _ Hc2 (tabled_calm _ _ _ _ (cm_shape _ _ Hc2) Ht)) as Hc. split; [by apply oom_calm | left].
    apply oom_ran_out; [done |]. intros Hn. apply Hm. by apply Hc2.
  - intros mem pos i Hi Ep Hm. destruct Hp2 as [P1 P2 P3 P4 P5 P6 P7 P8 P9 P10 P11]. cbn in P1, P2, P3, P4, P5, P6, P7, P8, P9, P10, P11, Hpath.
    assert (Hsh : shape (c2 <| c_mem := mem |> <| c_pos := pos |>)) by (eapply shape_eq; [..|exact (cm_shape _ _ Hc2)]; done).
    split; [| right].
    + constructor; [done | apply Hc2 | intros Hn; apply Hm; by apply Hc2].
    + unfold place. rewrite Hf. cbn [fst snd]. split_and!; [done | | done | done].
      assert (Hsame : same_upto (length fs) c (c2 <| c_mem := mem |> <| c_pos := pos |>)).
      { constructor; intros j Hj; cbn; rewrite ?P1, ?P3, ?P4, ?P8, ?P9, ?P10; try done. unfold next. by rewrite list_lookup_insert_ne by lia. }
      constructor; cbn; try done.
      * rewrite P2, (rp_depth _ _ H), Hf. done.
      * rewrite P1. apply H.
      * split_and!; [rewrite Hpath; apply under_prefix | | by eapply rep_frames_same].
        unfold rep_frame. cbn. rewrite P1, P3, P8, P9. split_and!; try done.
        { unfold next. rewrite list_lookup_insert_eq; [done |]. rewrite (sh_next _ Hs). lia. }
        { apply Z.mod_pos_bound. lia. } { apply Z.mod_pos_bound. lia. }
      * rewrite P5. apply H.
      * rewrite Ep, P7, (rp_table _ _ H), Hpath. done.
      * pose proof (rp_outer _ _ H) as Ho. by rewrite Hf in Ho.
Qed.

Lemma note_value_ok c a m : rep c a -> key_due a = false ->
  returns (note_value c m) (noted c (fst (place (to_pos m) a)) (snd (place (to_pos m) a))).
Proof.
  intros H Hk. unfold key_due in Hk. destruct (a_frames a) as [|[e path n|e path [[j ptr]|]] fs] eqn:Hf.
  - by apply note_root_ok.
  - by eapply note_item_ok.
  - by eapply note_mapped_ok.
  - done.
Qed.

(** With the key's own value still to be noted as read. *)
Definition key_read (c : ctx) : ctx := c <| c_expect_key := <[c_depth c := false]> (c_expect_key c) |>.

Lemma note_key_ok c a m v : rep c a -> key_due a = true ->
  returns (note_key c m v) (fun r => calm c (fst r) /\
    (ran_out c r \/ snd r = OK /\ rep (key_read (fst r)) (place_key (to_pos m) v a) /\ c_err (fst r) = c_err c /\
      c_expect_key (fst r) !! c_depth (fst r) = Some true)).
Proof.
  intros H Hk. unfold key_due in Hk. destruct (a_frames a) as [|[e path n|e path [[j ptr]|]] fs] eqn:Hf; try done.
  pose proof (rp_frames _ _ H) as Hr. rewrite Hf in Hr. destruct Hr as (Hp & (H1 & H2 & H3 & H4) & Hr).
  pose proof (rp_shape _ _ H) as Hs. pose proof (rp_max _ _ H) as Hmax. rewrite Hf in Hmax. cbn [length] in Hmax.
  unfold note_key. rewrite (path_reset_ok _ _ H). unfold container_path. rewrite Hf. cstep. cbn [f_path].
  set (c1 := c <| c_path := path |>).
  assert (Hc1 : calm c c1) by (constructor; [eapply shape_eq; [..|exact Hs]; done | done | done]).
  destruct (path_push_key_ok v c1) as [Hp2 H2']. destruct (path_push_key c1 v) as [c2 code]. cbn [fst snd] in *.
  pose proof (calm_trans _ _ _ Hc1 (paths_calm _ _ Hp2 (cm_shape _ _ Hc1))) as Hc2.
  destruct H2' as [Hout|(-> & Hpath & Herr)].
  { pose proof (ran_out_trans _ _ _ Hc1 Hout) as Ho. destruct Hout as (E & _). cbn in E. subst code. apply returns_ret. by split; [| left]. }
  pose proof (add_entry_ok c2 (c_path c2) (Some (to_pos m)) None) as Ht. destruct (add_entry c2 _ _ _) as [c3 i] eqn:E3.
  pose proof (calm_trans _ _ _ Hc2 (tabled_calm _ _ _ _ (cm_shape _ _ Hc2) Ht)) as Hc3.
  destruct Ht as (mem & pos & i' & [= -> ->] & Hm & Hi).
  destruct Hp2 as [P1 P2 P3 P4 P5 P6 P7 P8 P9 P10 P11]. cbn in P1, P2, P3, P4, P5, P6, P7, P8, P9, P10, P11, Hpath.
  assert (Hd : c_depth c2 = S (length fs)) by (rewrite P2, (rp_depth _ _ H), Hf; done).
  change (c_depth (c2 <| c_mem := mem |> <| c_pos := pos |>)) with (c_depth c2).
  change (c_key_entry (c2 <| c_mem := mem |> <| c_pos := pos |>)) with (c_key_entry c2). rewrite Hd.
  apply returns_write; [rewrite P10, (sh_keys _ Hs); lia |]. apply returns_ret.
  set (c4 := setf c_key_entry _ _).
  assert (Hc4 : calm c c4) by (constructor; [eapply shape_eq; [..|exact (cm_shape _ _ Hc3)]; cbn; rewrite ?length_insert; done | apply Hc3 | apply Hc3]).
  unfold added. destruct Hi as [[Hi Hn]|[Hi Ep]].
  - destruct (Z.ltb_spec i' 0); [| lia]. split; [by apply oom_calm | left]. apply oom_ran_out; [done |]. intros Hn'. apply Hn. by apply Hc2.
  - destruct (Z.ltb_spec i' 0); [lia |]. split; [done | right]. split_and!; [done | | done | cbn; by rewrite Hd, P4].
    unfold place_key. rewrite Hf.
    assert (Hex : length (c_expect_key c2) = QWE_YAML_MAX_DEPTH + 1) by apply Hc2.
    assert (Hke : length (c_key_entry c2) = QWE_YAML_MAX_DEPTH + 2) by apply Hc2.
    constructor; cbn; try done.
    + eapply shape_eq; [..|exact (cm_shape _ _ Hc4)]; cbn; rewrite ?length_insert; done.
    + rewrite P1. apply H.
    + split_and!; [rewrite Hpath; apply under_prefix | |].
      * unfold rep_frame. cbn. rewrite P1, P3, P8. split_and!; try done.
        { rewrite Hd. apply list_lookup_insert_eq. lia. }
        { rewrite list_lookup_insert_eq by lia. rewrite Hi, P7, (rp_table _ _ H). done. }
      * eapply rep_frames_same; [| exact Hr]. constructor; intros k Hk'; cbn; rewrite ?Hd, ?list_lookup_insert_ne by lia; congruence.
    + rewrite P5. apply H.
    + rewrite Ep, P7, (rp_table _ _ H), Hpath. done.
    + unfold value_due. cbn. split; [done |]. rewrite length_app. cbn. lia.
    + pose proof (rp_outer _ _ H) as Ho. by rewrite Hf in Ho.
Qed.

(** ** Encoder calls *)

Lemma rep_top c a : rep c a -> c_stack c !! c_depth c = Some (top_enc a).
Proof.
  intros H. rewrite (rp_depth _ _ H). unfold top_enc. pose proof (rp_frames _ _ H) as Hf. pose proof (rp_base _ _ H).
  destruct (a_frames a) as [|f fs]; [done | by destruct Hf as (_ & (? & _) & _)].
Qed.

Lemma rep_frame_enc c c' i f e : c_stack c' !! i = Some e -> c_is_map c' = c_is_map c -> c_expect_key c' = c_expect_key c ->
  c_container_len c' = c_container_len c -> c_next_index c' = c_next_index c -> c_key_entry c' = c_key_entry c ->
  rep_frame c i f -> rep_frame c' i (f_with e f).
Proof.
  unfold rep_frame. intros E1 E2 E3 E4 E5 E6 (F1 & F2 & F3 & F4). rewrite E1, E2, E3, E4, E5, E6.
  destruct f as [? ? ?|? ? [[? ?]|]]; by split_and!.
Qed.

Lemma set_top_rep c a e : rep c a -> rep (c <| c_stack := <[c_depth c := e]> (c_stack c) |>) (set_top e a).
Proof.
  intros H. pose proof (sh_stack _ (rp_shape _ _ H)) as Hl. pose proof (sh_depth _ (rp_shape _ _ H)) as Hdm.
  assert (Hs : shape (c <| c_stack := <[c_depth c := e]> (c_stack c) |>)).
  { eapply shape_eq; [..|exact (rp_shape _ _ H)]; cbn; by rewrite ?length_insert. }
  pose proof (rp_depth _ _ H) as Hd. pose proof (rp_frames _ _ H) as Hr. pose proof (rp_value _ _ H) as Hv.
  unfold set_top. destruct (a_frames a) as [|f fs] eqn:Hf.
  - constructor; try done; cbn; rewrite ?Hf; try done; try apply H.
    rewrite Hd. apply list_lookup_insert_eq. lia.
  - cbn in Hd, Hr. destruct Hr as (Hp & Hr1 & Hr2). constructor; try done; cbn; try apply H; rewrite ?Hd.
    + rewrite list_lookup_insert_ne by lia. apply H.
    + split_and!; [by destruct f | |].
      * eapply rep_frame_enc; [..| exact Hr1]; try done. cbn. apply list_lookup_insert_eq. lia.
      * replace (f_path (f_with e f)) with (f_path f) by by destruct f. eapply rep_frames_same; [| exact Hr2]. above.
    + unfold value_due in Hv. rewrite Hf in Hv. by destruct f as [? ? ?|? ? [[? ?]|]].
    + pose proof (rp_outer _ _ H) as Ho. by rewrite Hf in Ho.
Qed.

(** Only the message and the flag of the root may change. *)
Lemma rep_root c a err : rep c a -> rep (c <| c_have_root := true |> <| c_err := err |>) (a <| a_root := true |>).
Proof.
  intros H. destruct H. constructor; try done.
  - eapply shape_eq; [..|exact rp_shape0]; done.
  - cbn. eapply (rep_frames_same c); [by apply same_upto_refl | done].
Qed.

Lemma set_top_twice e e' a : set_top e' (set_top e a) = set_top e' a.
Proof. unfold set_top. destruct (a_frames a) as [|f fs] eqn:Hf; cbn; rewrite ?Hf; [done |]. destruct a. by destruct f. Qed.

Lemma top_set_top e a : top_enc (set_top e a) = e.
Proof. unfold top_enc, set_top. destruct (a_frames a) as [|f fs] eqn:Hf; cbn; rewrite ?Hf; [done |]. by destruct f. Qed.

Lemma call_top f a e err : f (top_enc a) = (e, err) -> call f a = match cbor_rc err with OK => Go (set_top e a) | code => Stop code end.
Proof. unfold call. by intros ->. Qed.

Lemma on_top_exact c f e : c_stack c !! c_depth c = Some e ->
  on_top c f = CRet (c <| c_stack := <[c_depth c := fst (f e)]> (c_stack c) |>, cbor_rc (snd (f e))).
Proof.
  intros He. unfold on_top. rewrite (cread_Some _ _ _ He). cstep. destruct (f e) as [e' err].
  rewrite cwrite_ok by by eapply lookup_lt_Some. done.
Qed.

Lemma scalar_exact c m tag v plain (is_key : bool) e : c_stack c !! c_depth c = Some e ->
  (if tag is Some t then is_key = false /\ tag_ok t = true else True) ->
  exists e' code, scalar c m tag v plain is_key = CRet (c <| c_stack := <[c_depth c := e']> (c_stack c) |>, code) /\
    forall a, top_enc a = e -> scalar_calls tag v plain is_key a = match code with OK => Go (set_top e' a) | _ => Stop code end.
Proof.
  intros He Ht. unfold scalar, scalar_calls. destruct tag as [t|].
  - destruct Ht as [-> ->]. cbn [orb negb]. rewrite (on_top_exact _ _ _ He). cstep.
    destruct (cbor_encode_tag e QWE_SECRET_TAG) as [e1 err1] eqn:E1. cbn [fst snd]. pose proof (lookup_lt_Some _ _ _ He) as Hlt.
    destruct (cbor_rc err1) eqn:Hc1.
    2, 3: exists e1; eexists; split; [done |]; intros a <-; by rewrite (call_top _ _ _ _ E1), Hc1.
    rewrite (on_top_exact _ _ e1) by by apply list_lookup_insert_eq.
    destruct (cbor_encode_text_string e1 v) as [e2 err2] eqn:E2. cbn [fst snd]. exists e2, (cbor_rc err2). split.
    + cbn. f_equal. f_equal. by rewrite list_insert_insert_eq.
    + intros a <-. rewrite (call_top _ _ _ _ E1), Hc1. cbn [and_then]. unfold call. rewrite top_set_top, E2, set_top_twice. by destruct (cbor_rc err2).
  - rewrite (on_top_exact _ _ _ He). destruct (scalar_call v plain is_key e) as [e1 err1] eqn:E1. cbn [fst snd].
    exists e1, (cbor_rc err1). split; [done |]. intros a <-. rewrite (call_top _ _ _ _ E1). by destruct (cbor_rc err1).
Qed.

(** ** Where a value ends *)

Lemma value_done_calm c : shape c -> returns (value_done c) (fun c' => calm c c' /\ c_err c' = c_err c).
Proof.
  intros Hs. pose proof (sh_depth _ Hs). pose proof (sh_is_map _ Hs). pose proof (sh_expect _ Hs). unfold value_done.
  destruct (0 <? c_depth c); [| by apply returns_ret].
  destruct (lookup_lt_is_Some_2 (c_is_map c) (c_depth c) ltac:(lia)) as [b Hb]. eapply returns_read; [done |].
  destruct b; [| by apply returns_ret].
  destruct (lookup_lt_is_Some_2 (c_expect_key c) (c_depth c) ltac:(lia)) as [b Hb']. eapply returns_read; [done |].
  apply returns_write; [lia |]. apply returns_ret. split; [| done].
  constructor; [eapply shape_eq; [..|exact Hs]; cbn; by rewrite ?length_insert | done | done].
Qed.

Lemma value_done_key c : shape c -> 0 < c_depth c -> c_is_map c !! c_depth c = Some true -> c_expect_key c !! c_depth c = Some true ->
  value_done c = CRet (key_read c).
Proof.
  intros Hs Hd Hm He. pose proof (sh_depth _ Hs). pose proof (sh_expect _ Hs). unfold value_done.
  destruct (Nat.ltb_spec 0 (c_depth c)); [| lia]. rewrite (cread_Some _ _ _ Hm). cstep. rewrite (cread_Some _ _ _ He). cstep.
  rewrite cwrite_ok by lia. done.
Qed.

Lemma value_done_ok c a : rep c a -> key_due a = false ->
  returns (value_done c) (fun c' => calm c c' /\ c_err c' = c_err c /\ rep c' (value_ends a)).
Proof.
  intros H Hk. pose proof (rp_shape _ _ H) as Hs. pose proof (sh_depth _ Hs). pose proof (sh_expect _ Hs) as Hle.
  pose proof (rp_frames _ _ H) as Hr. pose proof (rp_depth _ _ H) as Hd. unfold value_done, value_ends, key_due in *.
  destruct (a_frames a) as [|[e path n|e path [[j ptr]|]] fs] eqn:Hf; cbn in Hd; rewrite Hd; cbn [Nat.ltb Nat.leb]; try done.
  - by apply returns_ret.
  - destruct Hr as (Hp & (_ & H2 & _) & _). eapply returns_read; [exact H2 |]. by apply returns_ret.
  - destruct Hr as (Hp & (H1 & H2 & H3 & H4 & H5) & Hr). eapply returns_read; [exact H2 |]. cbn [is_FMap].
    eapply returns_read; [exact H4 |]. apply returns_write; [lia |]. apply returns_ret.
    assert (Hs' : shape (c <| c_expect_key := <[S (length fs) := negb false]> (c_expect_key c) |>)).
    { eapply shape_eq; [..|exact Hs]; cbn; by rewrite ?length_insert. }
    split_and!; [by constructor | done |]. constructor; try done; try apply H. cbn. split_and!; [done | |].
    + unfold rep_frame. cbn. split_and!; try done. apply list_lookup_insert_eq. lia.
    + eapply rep_frames_same; [| exact Hr]. above.
    + pose proof (rp_outer _ _ H) as Ho. by rewrite Hf in Ho.
Qed.

(** ** Events *)

Lemma calm_refl c : shape c -> calm c c.
Proof. by constructor. Qed.

Lemma fail_follows c m msg : shape c -> follows c (Refuse m msg) (fail c m msg, ERR).
Proof.
  intros Hs. split; [| by right]. constructor; [eapply shape_eq; [..|exact Hs]; done | done | done].
Qed.

Lemma check_props_ok c m anchor tag ok : check_props c m anchor tag ok =
  match bad_props m anchor tag ok with
  | Some msg => (fail c m msg, ERR)
  | None => (c, OK)
  end.
Proof. unfold check_props, bad_props. destruct anchor; [done |]. destruct tag as [t|]; [| done]. by destruct (ok && tag_ok t). Qed.

Lemma good_tag m anchor tag ok : bad_props m anchor tag ok = None -> if tag is Some t then ok = true /\ tag_ok t = true else True.
Proof. unfold bad_props. destruct anchor; [done |]. destruct tag as [t|]; [| done]. by destruct ok, (tag_ok t). Qed.

(** The end of a scalar, after whatever has failed. *)
Lemma scalar_end_failed c c' code o : shape c -> calm c c' -> code <> OK ->
  (ran_out c (c', code) \/ o = Stop code /\ c_err c' = c_err c) ->
  returns (c ← value_done (c' <| c_have_root := true |>); mret (c, code)) (follows c o).
Proof.
  intros Hs Hc Hcode Ho. assert (Hs' : shape (c' <| c_have_root := true |>)) by (eapply shape_eq; [..|exact (cm_shape _ _ Hc)]; done).
  assert (Hc1 : calm c (c' <| c_have_root := true |>)) by (constructor; [done | apply Hc | apply Hc]).
  eapply returns_bind; [apply (value_done_calm _ Hs') |]. intros c2 [Hc2 He]. apply returns_ret.
  pose proof (calm_trans _ _ _ Hc1 Hc2) as Hc3. split; [done |]. cbn [fst snd]. cbn in He.
  destruct Ho as [(H1 & H2 & H3)|[-> H]]; [left; split_and!; [done | done | cbn; by rewrite He] | right].
  split_and!; [done | done | intros _; congruence].
Qed.

Lemma stack_calm c c' e : calm c c' -> calm c (c' <| c_stack := <[c_depth c' := e]> (c_stack c') |>).
Proof.
  intros Hc. constructor; [eapply shape_eq; [..|exact (cm_shape _ _ Hc)]; cbn; by rewrite ?length_insert | apply Hc | apply Hc].
Qed.

Lemma on_key_ok c a m tag v plain : rep c a -> key_due a = true ->
  (if tag is Some t then false = true /\ tag_ok t = true else True) ->
  returns (r ← note_key c m v;
           r ← match r with (c, OK) => scalar c m tag v plain true | r => mret r end;
           let '(c, code) := r in c ← value_done (c <| c_have_root := true |>); mret (c, code))
    (follows c (and_then (scalar_calls tag v plain true (place_key (to_pos m) v a)) (fun a => Go (a <| a_root := true |>)))).
Proof.
  intros H Hk Ht. destruct tag as [t|]; [by destruct Ht |]. pose proof (rp_shape _ _ H) as Hs.
  eapply returns_bind; [by apply note_key_ok |]. intros [c1 code] [Hc1 H1]. cbn [fst snd] in *.
  destruct H1 as [Hout|(-> & Hr & He & Hx)].
  { pose proof Hout as (E & _). cbn in E. subst code. cstep. apply scalar_end_failed; auto. }
  destruct (scalar_exact c1 m None v plain true (top_enc (place_key (to_pos m) v a))) as (e' & code & -> & Hcall); [exact (rep_top _ _ Hr) | done |].
  cstep. rewrite (Hcall _ eq_refl). pose proof (stack_calm _ _ e' Hc1) as Hc2.
  destruct code; cbn [and_then]; [| apply scalar_end_failed; auto; right; done..].
  pose proof (rep_root _ _ (c_err c1) (set_top_rep _ _ e' Hr)) as Hr'.
  assert (Ek : value_done (c1 <| c_stack := <[c_depth c1 := e']> (c_stack c1) |> <| c_have_root := true |>) =
    CRet (key_read c1 <| c_stack := <[c_depth (key_read c1) := e']> (c_stack (key_read c1)) |> <| c_have_root := true |> <| c_err := c_err c1 |>)).
  { unfold key_due in Hk. destruct (a_frames a) as [|[?|? ? [?|]] fs] eqn:Hf; try done.
    pose proof (rp_depth _ _ Hr) as Hd. pose proof (rp_frames _ _ Hr) as Hfs. unfold place_key in Hd, Hfs. rewrite Hf in Hd, Hfs. cbn in Hd.
    destruct Hfs as (_ & (_ & Hm & _) & _). cbn in Hm. rewrite <- Hd in Hm.
    rewrite value_done_key; [done | | cbn; lia | done | done]. eapply shape_eq; [..|exact (cm_shape _ _ Hc2)]; done. }
  rewrite Ek. cstep. apply returns_ret. split; [| right; split_and!; [done | exact Hr' | done]].
  constructor; [apply Hr' | apply Hc1 | apply Hc1].
Qed.

Lemma key_due_set_top e a : key_due (set_top e a) = key_due a.
Proof. unfold key_due, set_top. destruct (a_frames a) as [|f fs] eqn:Hf; cbn; rewrite ?Hf; [done |]. by destruct f. Qed.

Lemma key_due_place p a : key_due (fst (place p a)) = key_due a.
Proof. unfold key_due, place. by destruct (a_frames a) as [|[?|? ? [[? ?]|]] ?] eqn:Hf; cbn; rewrite ?Hf. Qed.

Lemma on_value_ok c a m tag v plain : rep c a -> key_due a = false ->
  (if tag is Some t then true = true /\ tag_ok t = true else True) ->
  returns (r ← note_value c m;
           r ← match r with (c, OK) => scalar c m tag v plain false | r => mret r end;
           let '(c, code) := r in c ← value_done (c <| c_have_root := true |>); mret (c, code))
    (follows c (and_then (scalar_calls tag v plain false (fst (place (to_pos m) a))) (fun a => Go (value_ends (a <| a_root := true |>))))).
Proof.
  intros H Hk Ht. pose proof (rp_shape _ _ H) as Hs.
  eapply returns_bind; [by apply note_value_ok |]. intros [c1 code] [Hc1 H1]. cbn [fst snd] in *.
  destruct H1 as [Hout|(-> & Hr & _ & He)].
  { pose proof Hout as (E & _). cbn in E. subst code. cstep. apply scalar_end_failed; auto. }
  destruct (scalar_exact c1 m tag v plain false (top_enc (fst (place (to_pos m) a)))) as (e' & code & -> & Hcall);
    [exact (rep_top _ _ Hr) | by destruct tag; [destruct Ht|] |].
  cstep. rewrite (Hcall _ eq_refl). pose proof (stack_calm _ _ e' Hc1) as Hc2.
  destruct code; cbn [and_then]; [| apply scalar_end_failed; auto; right; done..].
  pose proof (rep_root _ _ (c_err c1) (set_top_rep _ _ e' Hr)) as Hr'.
  assert (Hr2 : rep (c1 <| c_stack := <[c_depth c1 := e']> (c_stack c1) |> <| c_have_root := true |>) ((set_top e' (fst (place (to_pos m) a))) <| a_root := true |>)) by exact Hr'.
  assert (Hk' : key_due ((set_top e' (fst (place (to_pos m) a))) <| a_root := true |>) = false).
  { change (key_due (set_top e' (fst (place (to_pos m) a))) = false). by rewrite key_due_set_top, key_due_place. }
  eapply returns_bind; [exact (value_done_ok _ _ Hr2 Hk') |].
  intros c3 (Hc3 & He3 & Hr3). apply returns_ret.
  assert (Hc : calm c (c1 <| c_stack := <[c_depth c1 := e']> (c_stack c1) |> <| c_have_root := true |>)).
  { constructor; [apply Hr2 | apply Hc1 | apply Hc1]. }
  split; [by eapply calm_trans | right]. split_and!; [done | done | cbn in *; congruence].
Qed.

Lemma on_scalar_ok c a m anchor tag v plain : rep c a ->
  returns (on_scalar c m anchor tag v plain (key_due a)) (follows c (step_scalar m anchor tag v plain a)).
Proof.
  intros H. unfold on_scalar, step_scalar. rewrite check_props_ok.
  destruct (bad_props _ _ _ _) eqn:Hb; [apply returns_ret, fail_follows, H |]. apply good_tag in Hb.
  destruct (merge_key _ _ _); [apply returns_ret, fail_follows, H |].
  destruct (key_due a) eqn:Hk; [by apply on_key_ok | by apply on_value_ok].
Qed.

Lemma open_container_ok c a m (map : bool) ptr : rep c a -> key_due a = false -> length (a_frames a) < QWE_YAML_MAX_DEPTH ->
  c_path c = ptr -> container_path a `prefix_of` ptr ->
  returns (open_container c m map) (fun r => calm c (fst r) /\ c_err (fst r) = c_err c /\
    let '(outer, inner, err) := create_container (top_enc a) None (if map then MapType else ArrayType) in
    snd r = cbor_rc err /\
    rep (fst r) ((set_top outer a) <| a_frames := (if map then FMap inner ptr None else FSeq inner ptr 0) :: a_frames (set_top outer a) |>)).
Proof.
  intros H Hk Hlt Hp Hpre. pose proof (rp_depth _ _ H) as Hd. pose proof (rp_shape _ _ H) as Hs. unfold open_container.
  destruct (Nat.leb_spec QWE_YAML_MAX_DEPTH (c_depth c)); [lia |]. pose proof (rep_top _ _ H) as Ht.
  eapply returns_read; [exact Ht |]. destruct (create_container _ _ _) as [[outer inner] err].
  pose proof (set_top_rep _ _ outer H) as Hr. set (c1 := c <| c_stack := <[c_depth c := outer]> (c_stack c) |>) in *.
  pose proof (sh_stack _ Hs). pose proof (sh_is_map _ Hs). pose proof (sh_expect _ Hs). pose proof (sh_lens _ Hs). pose proof (sh_next _ Hs).
  apply returns_write; [lia |]. apply returns_write; [rewrite length_insert; lia |]. do 4 (apply returns_write; [lia |]). apply returns_ret.
  cbn [fst snd]. match goal with |- calm _ ?x /\ _ => set (c2 := x) end.
  assert (Hsh : shape c2) by (unfold c2; constructor; cbn; rewrite ?length_insert; try done; try lia; apply Hs).
  split_and!; [by constructor | done | done |].
  assert (Hl : length (a_frames (set_top outer a)) = c_depth c) by (symmetry; apply (rp_depth _ _ Hr)).
  assert (Hsame : same_upto (c_depth c) c1 c2) by (unfold c2; above).
  constructor; try done.
  - cbn. lia.
  - cbn. rewrite list_lookup_insert_ne by lia. apply (rp_base _ _ Hr).
  - cbn [a_frames setf rep_frames]. split_and!.
    + cbn. rewrite Hp. by destruct map.
    + cbn. rewrite Hl. replace (S (c_depth c)) with (c_depth c + 1) by lia. unfold c2, rep_frame.
      destruct map; cbn; rewrite !list_lookup_insert_eq by (rewrite ?length_insert; lia); rewrite ?Hp; split_and!; done.
    + replace (f_path (if map then FMap inner ptr None else FSeq inner ptr 0)) with ptr by by destruct map.
      eapply rep_frames_same; [cbn in Hl |- *; rewrite Hl; exact Hsame |]. rewrite <- Hp. exact (rp_frames _ _ Hr).
  - apply (rp_root _ _ Hr).
  - apply (rp_table _ _ Hr).
  - unfold value_due. cbn. by destruct map.
  - pose proof (rp_outer _ _ Hr) as Ho. rewrite <- (key_due_set_top outer) in Hk. unfold key_due in Hk. cbn.
    destruct (a_frames (set_top outer a)) as [|[?|? ? [?|]] ?]; [constructor | by constructor..| done].
Qed.

Lemma length_place p a : length (a_frames (fst (place p a))) = length (a_frames a).
Proof. unfold place. by destruct (a_frames a) as [|[?|? ? [[? ?]|]] ?] eqn:Hf; cbn; rewrite ?Hf. Qed.

Lemma on_start_ok c a m anchor tag map : rep c a ->
  returns (on_start c m anchor tag map (key_due a)) (follows c (step_start m anchor tag map a)).
Proof.
  intros H. unfold on_start, step_start. rewrite check_props_ok.
  destruct (bad_props _ _ _ _) eqn:Hb; [apply returns_ret, fail_follows, H |].
  destruct (key_due a) eqn:Hk; [apply returns_ret, fail_follows, H |]. rewrite (rp_depth _ _ H).
  destruct (Nat.leb_spec QWE_YAML_MAX_DEPTH (length (a_frames a))) as [|Hlt]; [apply returns_ret, fail_follows, H |].
  pose proof (note_value_ok c a m H Hk) as Hn. pose proof (key_due_place (to_pos m) a) as Hk1. pose proof (length_place (to_pos m) a) as Hl1.
  destruct (place (to_pos m) a) as [a1 ptr]. cbn [fst snd] in *.
  eapply returns_bind; [exact Hn |]. intros [c1 code] [Hc1 H1]. cbn [fst snd] in *.
  destruct H1 as [Hout|(-> & Hr & Hp & He)].
  { pose proof Hout as (E & Hm & Hx). cbn in E. subst code. cstep. apply returns_ret.
    split; [constructor; [eapply shape_eq; [..|exact (cm_shape _ _ Hc1)]; done | apply Hc1 | apply Hc1] | left; by split_and!]. }
  eapply returns_bind; [apply (open_container_ok c1 a1 m map ptr Hr); [congruence | lia | done |] |].
  { rewrite <- Hp. pose proof (rp_frames _ _ Hr) as Hf. unfold container_path. destruct (a_frames a1) as [|f fs]; [apply prefix_nil | by destruct Hf]. }
  intros [c2 code] (Hc2 & He2 & Hx). apply returns_ret. cbn [fst snd] in *.
  destruct (create_container _ _ _) as [[outer inner] err]. destruct Hx as [-> Hr2].
  assert (Hc : calm c (c2 <| c_have_root := true |>)).
  { pose proof (calm_trans _ _ _ Hc1 Hc2) as Hc. constructor; [eapply shape_eq; [..|exact (cm_shape _ _ Hc)]; done | apply Hc | apply Hc]. }
  split; [done | right]. destruct (cbor_rc err); cbn [fst snd].
  - split_and!; [done | exact (rep_root _ _ (c_err c2) Hr2) | cbn; congruence].
  - done.
  - split_and!; [done | done | cbn; congruence].
Qed.

(** A frame is left: with the value of the map behind it read, the arrays and
    the machine agree again. *)
Definition popped (c : ctx) (fs : list frame) : ctx :=
  let c := c <| c_depth := length fs |> in
  if fs is FMap _ _ _ :: _ then c <| c_expect_key := <[length fs := true]> (c_expect_key c) |> else c.

Lemma pop_rep c a f fs : rep c a -> a_frames a = f :: fs -> rep (popped c fs) (value_ends (a <| a_frames := fs |>)).
Proof.
  intros H Hf. pose proof (rp_frames _ _ H) as Hr. rewrite Hf in Hr. destruct Hr as (Hp & _ & Hr).
  pose proof (rp_depth _ _ H) as Hd. rewrite Hf in Hd. cbn in Hd. pose proof (rp_shape _ _ H) as Hs. pose proof (rp_outer _ _ H) as Ho. rewrite Hf in Ho.
  pose proof (sh_depth _ Hs) as Hdm. pose proof (sh_expect _ Hs).
  assert (Hsh : shape (popped c fs)).
  { unfold popped. destruct Hs. destruct fs as [|[] fs]; constructor; cbn in *; rewrite ?length_insert; try done; lia. }
  eapply rep_frames_longer in Hr; [| exact Hp]. cbn in Ho.
  unfold value_ends, popped in *. destruct fs as [|[e path n|e path k] fs]; cbn.
  - constructor; cbn; try done; apply H.
  - constructor; cbn; try done; try apply H; [| by apply Forall_inv_tail in Ho].
    apply (rep_frames_same c _ _ (FSeq e path n :: fs)); [by apply same_upto_refl | done].
  - cbn in Hr. destruct Hr as (H1 & (R1 & R2 & R3 & R4) & H3). constructor; cbn; try done; try apply H; [| by apply Forall_inv_tail in Ho].
    split_and!; [done | | eapply (rep_frames_same c); [above | done]].
    unfold rep_frame. cbn. split_and!; try done. apply list_lookup_insert_eq. cbn in Hd. lia.
Qed.

Lemma value_done_popped c a f fs e : rep c a -> a_frames a = f :: fs ->
  value_done (c <| c_stack := <[length fs := e]> (c_stack c) |> <| c_depth := length fs |>) =
  CRet ((popped c fs) <| c_stack := <[length fs := e]> (c_stack c) |>).
Proof.
  intros H Hf. pose proof (rp_frames _ _ H) as Hr. rewrite Hf in Hr. destruct Hr as (_ & _ & Hr).
  pose proof (rp_shape _ _ H) as Hs. pose proof (rp_outer _ _ H) as Ho. rewrite Hf in Ho. cbn in Ho.
  pose proof (rp_depth _ _ H) as Hd. rewrite Hf in Hd. cbn in Hd. pose proof (sh_depth _ Hs). pose proof (sh_expect _ Hs).
  unfold value_done, popped. destruct fs as [|[e' path n|e' path k] fs]; cbn [c_depth setf length Nat.ltb Nat.leb]; [done | |];
    cbn in Hr; destruct Hr as (_ & (_ & Hm & _ & Hx) & _).
  - cbn. rewrite (cread_Some _ _ _ Hm). done.
  - destruct k as [[j ptr]|]; [| by apply Forall_inv in Ho]. destruct Hx as [Hx _]. cbn. rewrite (cread_Some _ _ _ Hm). cbn.
    rewrite (cread_Some _ _ _ Hx). cbn. rewrite cwrite_ok by (cbn in *; lia). done.
Qed.

Lemma top_value_ends a : top_enc (value_ends a) = top_enc a.
Proof. unfold top_enc, value_ends. destruct (a_frames a) as [|[] ?] eqn:Hf; cbn; by rewrite ?Hf. Qed.

Lemma set_top_value_ends e a : set_top e (value_ends a) = value_ends (set_top e a).
Proof. unfold set_top, value_ends. destruct (a_frames a) as [|[] ?] eqn:Hf; cbn; by rewrite ?Hf. Qed.

Lemma on_end_ok c a m map_end : rep c a -> returns (on_end c m map_end) (follows c (step_end m map_end a)).
Proof.
  intros H. pose proof (rp_depth _ _ H) as Hd. pose proof (rp_shape _ _ H) as Hs. pose proof (rp_frames _ _ H) as Hf.
  unfold on_end, step_end. destruct (a_frames a) as [|f fs] eqn:Ef; rewrite Hd; cbn [length].
  { apply returns_ret, fail_follows, Hs. }
  destruct Hf as (Hp & (H1 & H2 & _) & Hf). eapply returns_read; [exact H2 |].
  destruct (eqb map_end (is_FMap f)); cbn [negb]; [| apply returns_ret, fail_follows, Hs].
  pose proof (pop_rep c a f fs H Ef) as Hr. pose proof (rep_top _ _ Hr) as Ht. rewrite top_value_ends in Ht.
  assert (Hc : c_depth (popped c fs) = length fs /\ c_stack (popped c fs) = c_stack c /\ c_err (popped c fs) = c_err c).
  { unfold popped. by destruct fs as [|[] ?]. }
  destruct Hc as (Hc1 & Hc2 & Hc3). rewrite Hc1, Hc2 in Ht. eapply returns_read; [exact Ht |].
  replace (length fs + 1) with (S (length fs)) by lia. eapply returns_read; [exact H1 |].
  unfold call. destruct (cbor_encoder_close_container _ _) as [e err].
  pose proof (sh_stack _ Hs). pose proof (sh_depth _ Hs). rewrite Hd in *. cbn in *. apply returns_write; [lia |].
  rewrite (value_done_popped c a f fs e H Ef). cstep. apply returns_ret.
  pose proof (set_top_rep _ _ e Hr) as Hr2. rewrite Hc1, Hc2, set_top_value_ends in Hr2.
  split; [constructor; [apply Hr2 | unfold popped; by destruct fs as [|[] ?] | unfold popped; by destruct fs as [|[] ?]] | right].
  destruct (cbor_rc err); cbn [and_then fst snd]; split_and!; done.
Qed.

Lemma read_key_due {B} c a (k : bool -> cres B) (Q : B -> Prop) : rep c a -> returns (k (key_due a)) Q ->
  returns (in_map ← (if 0 <? c_depth c then cread (c_is_map c) (c_depth c) else mret false);
           is_key ← (if (in_map : bool) then cread (c_expect_key c) (c_depth c) else mret false); k is_key) Q.
Proof.
  intros H Hk. pose proof (rp_frames _ _ H) as Hf. unfold key_due in Hk. rewrite (rp_depth _ _ H).
  destruct (a_frames a) as [|[e p n|e p [[j ptr]|]] fs]; [done | destruct Hf as (_ & (_ & Hm & _ & Hx) & _)..]; cbn [length Nat.ltb Nat.leb] in *.
  - by eapply returns_read; [exact Hm |].
  - eapply returns_read; [exact Hm |]. eapply returns_read; [exact (proj1 Hx) | done].
  - eapply returns_read; [exact Hm |]. by eapply returns_read; [exact Hx |].
Qed.

(** One event: the arrays do as the machine. *)
Lemma handle_event_ok c a ev docs : rep c a ->
  returns (handle_event c ev docs) (fun r => let '(c', docs', code) := r in
    follows c (step docs ev a) (c', code) /\ (code = OK -> docs' = docs_after docs ev)).
Proof.
  intros H. unfold handle_event. apply (read_key_due _ _ _ _ H). unfold step, docs_after.
  assert (Hgo : follows c (Go a) (c, OK)) by (split; [apply calm_refl, H | by right]).
  destruct (ev_type ev); try (apply returns_ret; by split).
  - destruct (1 <? docs + 1); apply returns_ret; [split; [apply fail_follows, H | done] | by split].
  - apply returns_ret. split; [apply fail_follows, H | done].
  - eapply returns_bind; [by apply on_scalar_ok |]. intros [c' code] Hr. apply returns_ret. by split.
  - eapply returns_bind; [by apply on_start_ok |]. intros [c' code] Hr. apply returns_ret. by split.
  - eapply returns_bind; [by apply on_start_ok |]. intros [c' code] Hr. apply returns_ret. by split.
  - eapply returns_bind; [by apply on_end_ok |]. intros [c' code] Hr. apply returns_ret. by split.
  - eapply returns_bind; [by apply on_end_ok |]. intros [c' code] Hr. apply returns_ret. by split.
Qed.

Lemma follows_trans c c' o r : calm c c' -> c_err c' = c_err c -> follows c' o r -> follows c o r.
Proof.
  intros Hc He [Hc' H]. split; [by eapply calm_trans |]. destruct H as [H|H]; [left; by eapply ran_out_trans | right].
  destruct o; rewrite <- ?He; rewrite <- ?(cm_size _ _ Hc); done.
Qed.

(** One pass. *)
Lemma parse_loop_ok results c a docs o : rep c a -> run results docs a = Some o ->
  returns (parse_loop results c docs) (follows c o).
Proof.
  revert c a docs. induction results as [|res results IH]; intros c a docs H; [done |]. destruct res as [ev| |m p]; cbn [run parse_loop].
  - assert (Hstep : match step docs ev a with Go a => run results (docs_after docs ev) a | o => Some o end = Some o ->
      returns (r ← handle_event c ev docs; match r with (c, docs, OK) => parse_loop results c docs | (c, _, code) => mret (c, code) end) (follows c o)).
    { intros E. eapply returns_bind; [by apply handle_event_ok |]. intros [[c' docs'] code] [Hf Hd].
      pose proof Hf as [Hc Hf']. cbn [fst snd] in *.
      destruct Hf' as [Ho|Hf'].
      { pose proof Ho as (Ec & _). cbn in Ec. subst code. apply returns_ret. split; [done | by left]. }
      destruct (step docs ev a) as [a'|m msg|code'].
      - destruct Hf' as (-> & Hr & He). rewrite Hd by done. eapply returns_mono; [by eapply IH |].
        intros r Hr'. by eapply follows_trans.
      - destruct Hf' as (-> & He). injection E as <-. by apply returns_ret.
      - destruct Hf' as (-> & Hn & He). injection E as <-. destruct code'; [done | by apply returns_ret..]. }
    destruct (ev_type ev) eqn:Et; try exact Hstep. intros [= <-]. apply returns_ret. split; [apply calm_refl, H | by right].
  - intros [= <-]. apply returns_ret. split; [apply oom_calm, calm_refl, H | right]. by split_and!.
  - intros [= <-]. apply returns_ret. apply fail_follows, H.
Qed.

(** ** Passes *)

(** A parser that ends every pass: the stream ends, or it reports a failure. *)
Definition final (r : yaml_result) : bool :=
  match r with
  | Parsed ev => if ev_type ev is StreamEnd then true else false
  | NoMemory | Problem _ _ => true
  end.

Lemma machine_ends results docs a : existsb final results = true -> exists o, run results docs a = Some o.
Proof.
  revert docs a. induction results as [|[ev| |m p] results IH]; intros docs a; [done | | by eexists..].
  cbn [existsb final run]. destruct (ev_type ev); cbn [orb]; intros He; try (destruct (step docs ev a); [by apply IH | by eexists..]). by eexists.
Qed.

Definition pass (at_ : attempt) (cap : nat) : option outcome :=
  if at_parser at_ then run (at_results at_) 0 (start cap) else Some (Stop ERR).

(** What a pass leaves, in terms of the machine's outcome. *)
Definition pass_ends (c : ctx) (o : outcome) (r : ctx * rc * bytes) : Prop :=
  let '(c', code, out) := r in
  calm c c' /\
  (ran_out c (c', code) \/
   match o with
   | Go a =>
       if a_root a then code = OK /\ out = en_out (a_base a) /\ ps_e (c_pos c') = a_table a
       else code = ERR /\ c_err c' = qwe_msg (c_err_size c) (bytes_of "1:1: empty document")
   | Refuse m msg => code = ERR /\ c_err c' = qwe_msg (c_err_size c) (located m msg)
   | Stop code' => code = code' /\ code <> OK /\ (code = NOMEM -> c_err c' = c_err c)
   end).

Lemma encode_ok at_ cap c o : shape c -> pass at_ cap = Some o -> returns (encode at_ cap c) (pass_ends c o).
Proof.
  intros Hs Ho. unfold encode.
  set (c1 := c <| c_is_map := _ |> <| c_depth := _ |> <| c_have_root := _ |> <| c_path := _ |> <| c_pos := _ |>).
  assert (Hs1 : shape c1) by (destruct Hs; constructor; cbn; rewrite ?length_replicate; try done; lia).
  pose proof (alloc_mem (c_mem c1)) as Ha. destruct (alloc (c_mem c1)) as [ok mem].
  set (c2 := c1 <| c_mem := mem |>).
  assert (Hc2 : calm c c2) by (constructor; [by eapply shape_eq; [..|exact Hs1] | done | cbn in *; naive_solver]).
  destruct ok; cbn [negb].
  2: { apply returns_ret. split; [by apply oom_calm | left]. apply oom_ran_out; [done |]. cbn in Ha. naive_solver. }
  apply returns_write; [rewrite (sh_stack _ (cm_shape _ _ Hc2)); lia |].
  set (c3 := c2 <| c_stack := _ |>).
  assert (Hs3 : shape c3) by (eapply shape_eq; [..|exact (cm_shape _ _ Hc2)]; cbn; by rewrite ?length_insert).
  assert (Hc3 : calm c c3) by (constructor; [done | apply Hc2 | apply Hc2]).
  unfold pass in Ho. destruct (at_parser at_); cbn [negb].
  2: { injection Ho as <-. apply returns_ret. split; [by apply oom_calm | right]. by split_and!. }
  assert (Hr : rep c3 (start cap)).
  { constructor; try done. cbn. apply list_lookup_insert_eq. rewrite (sh_stack _ Hs). lia. }
  eapply returns_bind; [by eapply parse_loop_ok |]. intros [c4 code] Hf. apply (follows_trans c) in Hf; [| done..].
  destruct Hf as [Hc4 Hf]. cbn [fst snd] in *.
  destruct Hf as [Hout|Hf]. { pose proof Hout as (E & _). cbn in E. subst code. apply returns_ret. split; [done | by left]. }
  destruct o as [a|m msg|code'].
  - destruct Hf as (-> & Hr4 & He). rewrite (rp_root _ _ Hr4). destruct (a_root a) eqn:Ea.
    + eapply returns_read; [exact (rp_base _ _ Hr4) |]. apply returns_ret. split; [done | right]. rewrite Ea. split_and!; [done | done | apply Hr4].
    + apply returns_ret. split; [| right; rewrite Ea; split; [done | cbn; by rewrite (cm_size _ _ Hc4)]].
      constructor; [eapply shape_eq; [..|exact (cm_shape _ _ Hc4)]; done | apply Hc4 | apply Hc4].
  - destruct Hf as (-> & He). apply returns_ret. split; [done | by right].
  - destruct Hf as (-> & Hn & He). destruct code'; [done | apply returns_ret; split; [done | by right]..].
Qed.

Section passes.
Context (parser : nat -> attempt).
Hypothesis parser_ends : forall k, existsb final (at_results (parser k)) = true.

(** [Failed None]: no text of its own. *)
Inductive verdict := Done (a : machine) | Failed (text : option bytes).

Definition too_large : bytes := bytes_of "1:1: document is larger than 67108864 bytes once encoded".

(** The passes, with the machine. *)
Fixpoint tries (fuel k cap : nat) : verdict :=
  match fuel with
  | 0 => Failed None
  | S fuel =>
      if (CBOR_MAX_SIZE <? Z.of_nat cap)%Z then Failed (Some too_large)
      else
        match pass (parser k) cap with
        | Some (Go a) => if a_root a then Done a else Failed (Some (bytes_of "1:1: empty document"))
        | Some (Refuse m msg) => Failed (Some (located m msg))
        | Some (Stop NOMEM) => tries fuel (S k) (cap * 2)
        | _ => Failed None
        end
  end.

Definition passed (c : ctx) (v : verdict) (r : ctx * rc * bytes) : Prop :=
  let '(c', code, out) := r in
  ran_out c (c', code) \/
  match v with
  | Done a => code = OK /\ out = en_out (a_base a) /\ ps_e (c_pos c') = a_table a
  | Failed text => code = ERR /\ (forall t, text = Some t -> c_err c' = qwe_msg (c_err_size c) t)
  end.

Lemma pass_total k cap : exists o, pass (parser k) cap = Some o.
Proof. unfold pass. destruct (at_parser _); [by apply machine_ends | by eexists]. Qed.

Lemma passes_ok fuel k cap c : shape c -> 0 < fuel ->
  (CBOR_MAX_SIZE < Z.of_nat cap * 2 ^ (Z.of_nat fuel - 1))%Z ->
  returns (passes parser fuel k cap c) (passed c (tries fuel k cap)).
Proof.
  revert k cap c. induction fuel as [|fuel IH]; intros k cap c Hs Hpos Hf; [lia |]. cbn [passes tries].
  destruct (Z.ltb_spec CBOR_MAX_SIZE (Z.of_nat cap)) as [|Hcap].
  { apply returns_ret. right. split; [done |]. by intros t [= <-]. }
  assert (Hfuel : 0 < fuel). { destruct fuel; [cbn in Hf |]; lia. }
  pose proof (alloc_mem (c_mem c)) as Ha. destruct (alloc (c_mem c)) as [ok mem]. destruct ok; cbn [negb].
  2: { apply returns_ret. left. split_and!; [done | naive_solver | done]. }
  set (c1 := c <| c_mem := mem |>).
  assert (Hc1 : calm c c1) by (constructor; [by eapply shape_eq; [..|exact Hs] | done | cbn; naive_solver]).
  destruct (pass_total k cap) as [o Ho]. rewrite Ho.
  eapply returns_bind; [by eapply encode_ok; [apply Hc1 | exact Ho] |]. intros [[c2 code] out] [Hc2 H]. cbn [fst snd] in *.
  destruct H as [Hout|H].
  { pose proof Hout as (E & _). cbn in E. subst code. apply returns_ret. left. by eapply ran_out_trans. }
  assert (Hd : forall v, passed c1 v (c2, code, out) -> passed c v (c2, code, out)) by (intros v [Hv|Hv]; [by left; eapply ran_out_trans | by right]).
  destruct o as [a|m msg|code'].
  - destruct (a_root a); destruct H as (-> & H); apply returns_ret; apply Hd; right; [done |]. split; [done |]. by intros t [= <-].
  - destruct H as (-> & H). apply returns_ret. apply Hd. right. split; [done |]. by intros t [= <-].
  - destruct H as (-> & Hn & He). destruct code'; [done | by apply returns_ret, Hd; right |].
    assert (Hp : (2 ^ (Z.of_nat (S fuel) - 1) = 2 * 2 ^ (Z.of_nat fuel - 1))%Z).
    { rewrite <- Z.pow_succ_r by lia. f_equal. lia. }
    eapply returns_mono; [apply IH; [apply Hc2 | done | lia] |]. intros [[c3 code] out'] Hv.
    pose proof (calm_trans _ _ _ Hc1 Hc2) as Hc. destruct Hv as [Hv|Hv]; [left; by eapply ran_out_trans | right].
    destruct (tries _ _ _); [done |]. by rewrite <- (cm_size _ _ Hc).
Qed.
End passes.

Arguments tries parser fuel k cap : simpl never.

(** The return value of [qwe_yaml_to_cbor], by the machine's verdict. *)
Definition implements (err_size : nat) (v : verdict) (r : bytes + bytes * qwe_positions) : Prop :=
  match v with
  | Done a => exists p, r = inr (en_out (a_base a), p) /\ ps_e p = qsort cmp_le (a_table a)
  | Failed text => exists e, r = inl e /\ forall t, text = Some t -> t <> [] -> e = qwe_msg err_size t
  end.

Lemma shape_ctx0 err_size mem : shape (ctx0 err_size mem).
Proof. constructor; cbn; rewrite ?length_replicate; lia. Qed.

Lemma err_text size text : text <> [] -> match qwe_msg size text with [] => qwe_msg size (bytes_of "cannot encode document") | e => e end = qwe_msg size text.
Proof. unfold qwe_msg. destruct text as [|b text]; [done |]. by destruct (size - 1). Qed.

Lemma transcoder_ok parser len err_size mem :
  (forall k, existsb final (at_results (parser k)) = true) -> (Z.of_nat len <= QWE_YAML_MAX_SIZE)%Z ->
  exists r, qwe_yaml_to_cbor parser len err_size mem = CRet r /\
    (r = inl (qwe_msg err_size (bytes_of "out of memory")) /\ mem <> [] \/
     implements err_size (tries parser PASSES 0 (len * 2 + 64)) r).
Proof.
  intros Hp Hlen. unfold qwe_yaml_to_cbor. destruct (Z.ltb_spec QWE_YAML_MAX_SIZE (Z.of_nat len)) as [|_]; [lia |].
  pose proof (alloc_mem mem) as Ha. destruct (alloc mem) as [ok mem']. destruct ok; cbn [negb].
  2: { eexists. split; [done |]. left. split; [done | naive_solver]. }
  set (c := ctx0 err_size mem').
  assert (H : returns (passes parser PASSES 0 (len * 2 + 64) c) (passed c (tries parser PASSES 0 (len * 2 + 64)))).
  { apply passes_ok; [done | apply shape_ctx0 | unfold PASSES; lia |]; unfold CBOR_MAX_SIZE, QWE_YAML_MAX_SIZE, PASSES; lia. }
  destruct H as ([[c' code] out] & -> & H). cstep.
  assert (Hout : forall text, text <> [] -> c_err c' = qwe_msg err_size text ->
    match c_err c' with [] => qwe_msg err_size (bytes_of "cannot encode document") | e => e end = qwe_msg err_size text).
  { intros text Ht ->. by apply err_text. }
  destruct H as [(E & Hm & He)|H].
  - cbn in E. subst code. eexists. split; [done |]. left. split; [f_equal; by apply Hout | naive_solver].
  - destruct (tries _ _ _ _) as [a|text].
    + destruct H as (-> & -> & Ht). eexists. split; [done |]. right. eexists. split; [done |]. cbn. by rewrite Ht.
    + destruct H as (-> & Ht). eexists. split; [done |]. right. eexists. split; [done |].
      intros t E Hn. apply Hout; [done |]. by apply Ht.
Qed.

(** C10. The transcoder is the machine of [YamlSpec], for every text: whatever
    events the parser makes (balanced or not) and whichever allocations fail, it
    returns, no index leaves its array and no stale byte of the path is read; the
    bytes, the position table and the error texts are those of the machine, or
    the text says that memory ran out. *)
Theorem transcoder_refines parser len err_size mem :
  (forall k, existsb final (at_results (parser k)) = true) -> (Z.of_nat len <= QWE_YAML_MAX_SIZE)%Z ->
  exists r, qwe_yaml_to_cbor parser len err_size mem = CRet r /\
    (r = inl (qwe_msg err_size (bytes_of "out of memory")) /\ mem <> [] \/
     implements err_size (tries parser PASSES 0 (len * 2 + 64)) r).
Proof. apply transcoder_ok. Qed.

(** A key without a value, then a problem, and an allocation that fails. *)
Lemma transcoder_refines_witness :
  let at_ := Attempt true [Parsed (Event (Mark 0 0) DocumentStart); Parsed (Event (Mark 0 0) (MappingStart false None));
    Parsed (Event (Mark 0 0) (ScalarEvent false None (bytes_of "a") true)); Parsed (Event (Mark 0 2) MappingEnd);
    Problem (Mark 3 0) None] in
  exists r, qwe_yaml_to_cbor (fun _ => at_) 4 256 [true; false] = CRet r /\
    (r = inl (qwe_msg 256 (bytes_of "out of memory")) /\ [true; false] <> [] \/ implements 256 (tries (fun _ => at_) PASSES 0 (4 * 2 + 64)) r).
Proof. intros at_. apply (transcoder_refines (fun _ => at_) 4 256 [true; false]); [intros k; reflexivity | unfold QWE_YAML_MAX_SIZE; lia]. Defined.
