(* ===== verification/YamlDoc.v ===== *)
(** * Documents

    What the transcoder does to a document, node by node: which documents it
    refuses, and with which message; the CBOR item and the position table of the
    others; and the Lua value that [qwe_cbor_to_lua] reads back from that item. *)

From Stdlib Require Import Ascii String NArith ZArith Lia.
From stdpp Require Import base sets list strings numbers.
From S2P Require Import Prelude Cstr Redact Fmt Cbor Positions Strtod LuaCbor CborOk LuaCborOk Yaml YamlSpec YamlOk.

#[local] Opaque QWE_YAML_MAX_DEPTH.

(** ** Nodes and their events *)

#[warnings="-register-all"] Inductive node :=
| Alias (m : yaml_mark)
| Scalar (m : yaml_mark) (anchor : bool) (tag : option bytes) (v : bytes) (plain : bool)
| Mapping (m : yaml_mark) (anchor : bool) (tag : option bytes) (items : list (node * node)) (mend : yaml_mark)
| Sequence (m : yaml_mark) (anchor : bool) (tag : option bytes) (items : list node) (mend : yaml_mark).

Definition n_mark (n : node) : yaml_mark :=
  match n with Alias m | Scalar m _ _ _ _ | Mapping m _ _ _ _ | Sequence m _ _ _ _ => m end.

(** The text of a key. *)
Definition n_text (n : node) : bytes := if n is Scalar _ _ _ v _ then v else [].

Fixpoint events (n : node) : list yaml_event :=
  match n with
  | Alias m => [Event m AliasEvent]
  | Scalar m anchor tag v plain => [Event m (ScalarEvent anchor tag v plain)]
  | Mapping m anchor tag items mend =>
      Event m (MappingStart anchor tag) :: mjoin ((fun kv => events (fst kv) ++ events (snd kv)) <$> items) ++ [Event mend MappingEnd]
  | Sequence m anchor tag items mend =>
      Event m (SequenceStart anchor tag) :: mjoin (events <$> items) ++ [Event mend SequenceEnd]
  end.

(** A stream of one document. *)
Definition document (m : yaml_mark) (n : node) : list yaml_result :=
  Parsed <$> Event m OtherEvent :: Event m DocumentStart :: events n ++ [Event m OtherEvent; Event m StreamEnd].

Section node_ind.
Context (P : node -> Prop).
Hypothesis Halias : forall m, P (Alias m).
Hypothesis Hscalar : forall m anchor tag v plain, P (Scalar m anchor tag v plain).
Hypothesis Hmapping : forall m anchor tag items mend,
  Forall (fun kv => P (fst kv) /\ P (snd kv)) items -> P (Mapping m anchor tag items mend).
Hypothesis Hsequence : forall m anchor tag items mend, Forall P items -> P (Sequence m anchor tag items mend).

Fixpoint node_nested_ind (n : node) : P n :=
  match n with
  | Alias m => Halias m
  | Scalar m anchor tag v plain => Hscalar m anchor tag v plain
  | Mapping m anchor tag items mend =>
      Hmapping m anchor tag items mend ((fix go l : Forall (fun kv => P (fst kv) /\ P (snd kv)) l := match l with
        | [] => Forall_nil_2 _
        | kv :: l => Forall_cons_2 _ _ _ (conj (node_nested_ind (fst kv)) (node_nested_ind (snd kv))) (go l)
        end) items)
  | Sequence m anchor tag items mend =>
      Hsequence m anchor tag items mend ((fix go l : Forall P l := match l with
        | [] => Forall_nil_2 _
        | x :: l => Forall_cons_2 _ _ _ (node_nested_ind x) (go l)
        end) items)
  end.
End node_ind.

(** ** What is asked of a document *)

Fixpoint first_some {A} (l : list (option A)) : option A :=
  match l with
  | [] => None
  | Some a :: _ => Some a
  | None :: l => first_some l
  end.

(** The first node that is refused, and why; [level] containers are open. *)
Fixpoint objection (level : nat) (is_key : bool) (n : node) : option (yaml_mark * bytes) :=
  match n with
  | Alias m => Some (m, bytes_of "aliases are not supported")
  | Scalar m anchor tag v plain =>
      match bad_props m anchor tag (negb is_key) with
      | Some msg => Some (m, msg)
      | None => if merge_key v plain is_key then Some (m, bytes_of "merge keys are not supported") else None
      end
  | Mapping m anchor tag items _ =>
      match bad_props m anchor tag false with
      | Some msg => Some (m, msg)
      | None =>
          if is_key then Some (m, bytes_of "map keys must be scalars")
          else if QWE_YAML_MAX_DEPTH <=? level then Some (m, bytes_of "nesting too deep")
          else first_some ((fun kv => first_some [objection (S level) true (fst kv); objection (S level) false (snd kv)]) <$> items)
      end
  | Sequence m anchor tag items _ =>
      match bad_props m anchor tag false with
      | Some msg => Some (m, msg)
      | None =>
          if is_key then Some (m, bytes_of "map keys must be scalars")
          else if QWE_YAML_MAX_DEPTH <=? level then Some (m, bytes_of "nesting too deep")
          else first_some (objection (S level) false <$> items)
      end
  end.

(** The CBOR item of a scalar that is not a key, by the YAML core rules. *)
Definition scalar_item (tag : option bytes) (v : bytes) (plain : bool) : bytes :=
  if tag is Some _ then head QWE_SECRET_TAG TagType ++ text_item v
  else if plain then
    if null_lit v then head 22 SimpleTypes
    else if true_lit v then head 21 SimpleTypes
    else if false_lit v then head 20 SimpleTypes
    else if is_int v then
      if (strtoll v <? 0)%Z then head (- strtoll v - 1) NegativeInteger else head (strtoll v) UnsignedInteger
    else if is_float v then byte 251 :: put_be 8 (strtod v)
    else text_item v
  else text_item v.

Fixpoint n_item (n : node) : bytes :=
  match n with
  | Alias _ => []
  | Scalar _ _ tag v plain => scalar_item tag v plain
  | Mapping _ _ _ items _ =>
      container false MapType (length items) (mjoin ((fun kv => text_item (n_text (fst kv)) ++ n_item (snd kv)) <$> items))
  | Sequence _ _ _ items _ => container false ArrayType (length items) (mjoin (n_item <$> items))
  end.

(** The entries of a node at [ptr], in document order. *)
Fixpoint entries (ptr : bytes) (key : option qwe_pos) (n : node) : list entry :=
  Entry (cstr ptr) key (Some (to_pos (n_mark n))) ::
  match n with
  | Mapping _ _ _ items _ =>
      mjoin ((fun kv => entries (under ptr (escape (n_text (fst kv)))) (Some (to_pos (n_mark (fst kv)))) (snd kv)) <$> items)
  | Sequence _ _ _ items _ =>
      (fix go (i : Z) (l : list node) :=
         match l with
         | [] => []
         | x :: l => entries (under ptr (dec i)) None x ++ go (i + 1)%Z l
         end) 0%Z items
  | _ => []
  end.

(** The entries below a node's own. *)
Definition children (ptr : bytes) (n : node) : list entry := list.tail (entries ptr None n).

(** ** Runs of the machine *)

(** [ran e data obj res go]: from encoder [e], a run that writes [data] ends as
    [go] says of the encoder it leaves; or there is no room for [data]; or it is
    refused as [obj] says. *)
Definition ran (e : CborEncoder) (data : bytes) (obj : option (yaml_mark * bytes)) (res : option outcome)
    (go : CborEncoder -> option outcome) : Prop :=
  (en_cap e < length (en_out e) + length data /\ res = Some (Stop NOMEM)) \/
  match obj with
  | None => exists n e', writes e data n e' /\ en_full e' = false /\ en_unknown e' = en_unknown e /\ res = go e'
  | Some (m, msg) => res = Some (Refuse m msg)
  end.

Lemma writes_fits e data n e' : writes e data n e' -> en_full e' = false ->
  en_full e = false /\ length (en_out e) + length data <= en_cap e /\ en_out e' = en_out e ++ data /\ en_cap e' = en_cap e.
Proof.
  intros [H1 _ H3 H4] Hf. destruct (en_full e) eqn:Ef; [by rewrite H4 in Hf by by left |].
  destruct (decide (length (en_out e) + length data <= en_cap e)) as [Hl|Hl].
  - destruct (H3 eq_refl Hl) as [_ ?]. done.
  - by rewrite H4 in Hf by (right; lia).
Qed.

Definition room (e : CborEncoder) : Prop := en_full e = false /\ length (en_out e) <= en_cap e.

Lemma writes_room e data n e' : writes e data n e' -> en_full e' = false -> room e'.
Proof. intros Hw Hf. destruct (writes_fits _ _ _ _ Hw Hf) as (_ & ? & Ho & Hc). split; [done |]. rewrite Ho, Hc, length_app. lia. Qed.

Lemma ran_app e d1 o1 d2 o2 res go1 go2 : ran e d1 o1 res go1 ->
  (forall e1, room e1 -> en_unknown e1 = en_unknown e -> ran e1 d2 o2 (go1 e1) go2) ->
  ran e (d1 ++ d2) (first_some [o1; o2]) res go2.
Proof.
  intros H1 H2. unfold ran in H1 |- *. rewrite length_app. destruct H1 as [[Hl ->]|H1]; [left; split; [lia | done] |].
  destruct o1 as [[m msg]|]; [by right |]. destruct H1 as (n1 & e1 & Hw & Hf & Hu & ->).
  destruct (writes_fits _ _ _ _ Hw Hf) as (_ & Hl & Ho & Hc).
  destruct (H2 e1 (writes_room _ _ _ _ Hw Hf) Hu) as [[Hl2 E]|H2'].
  - left. rewrite Ho, length_app, Hc in Hl2. split; [lia | done].
  - right. destruct o2 as [[m msg]|]; cbn [first_some]; [done |]. destruct H2' as (n2 & e2 & Hw2 & Hf2 & Hu2 & E).
    exists n2, e2. split_and!; [by eapply writes_app | done | congruence | done].
Qed.

Lemma ran_nil e res go : room e -> res = go e -> ran e [] None res go.
Proof.
  intros [Hf Hl] ->. right. exists (en_remaining e), e. split_and!; [| done | done | done].
  constructor; try done; cbn; rewrite ?app_nil_r; [done |]. intros [?|?]; [done | lia].
Qed.

Lemma ran_weaken e data obj res go go' : ran e data obj res go -> (forall e', go e' = go' e') -> ran e data obj res go'.
Proof.
  intros [H|H] Hg; [by left | right]. destruct obj as [[m msg]|]; [done |]. destruct H as (n & e' & ? & ? & ? & ->). exists n, e'. by rewrite Hg.
Qed.

(** A call of the encoder that appends [data]. *)
Definition puts (f : CborEncoder -> CborEncoder * CborError) (data : bytes) : Prop :=
  forall e, exists n, writes e data n (fst (f e)) /\ snd (f e) = enc_err (fst (f e)) /\ en_unknown (fst (f e)) = en_unknown e.

Lemma appends_puts f data : appends f data -> puts f data.
Proof. intros H e. destruct (H e) as (? & ? & ?). by eexists. Qed.

Lemma ran_call f data a (K : machine -> option outcome) : puts f data -> room (top_enc a) ->
  ran (top_enc a) data None (match call f a with Go a => K a | o => Some o end) (fun e' => K (set_top e' a)).
Proof.
  intros H [Hf0 _]. destruct (H (top_enc a)) as (n & Hw & He & Hu). unfold call. destruct (f (top_enc a)) as [e' err]. cbn [fst snd] in *.
  subst err. unfold enc_err. destruct (en_full e') eqn:Hf; cbn [cbor_rc].
  - left. split; [| done]. destruct (decide (length (en_out (top_enc a)) + length data <= en_cap (top_enc a))) as [Hl|Hn]; [| lia].
    destruct (wr_fits _ _ _ _ Hw Hf0 Hl) as [? _]. congruence.
  - right. by exists n, e'.
Qed.

Lemma plain_puts v plain (as_key : bool) : puts (scalar_call v plain as_key) (if as_key then text_item v else scalar_item None v plain).
Proof.
  assert (Htext : puts (fun e => cbor_encode_text_string e v) (text_item v)) by apply appends_puts, string_appends.
  unfold puts, scalar_call, scalar_item. destruct as_key; [exact Htext |]. destruct plain; [| exact Htext]. cbn [negb andb].
  destruct (null_lit v); [apply appends_puts, number_appends |].
  destruct (true_lit v); [apply (appends_puts _ _ (number_appends 21 SimpleTypes)) |].
  destruct (false_lit v); [apply (appends_puts _ _ (number_appends 20 SimpleTypes)) |].
  destruct (is_int v).
  { unfold cbor_encode_int. destruct (strtoll v <? 0)%Z; apply appends_puts, number_appends. }
  destruct (is_float v); [apply appends_puts, double_appends | exact Htext].
Qed.

Lemma ran_calls tag v plain (is_key : bool) a (K : machine -> option outcome) : (is_key = true -> tag = None) -> room (top_enc a) ->
  ran (top_enc a) (if is_key then text_item v else scalar_item tag v plain) None
    (match scalar_calls tag v plain is_key a with Go a => K a | o => Some o end) (fun e' => K (set_top e' a)).
Proof.
  intros Ht Hr. unfold scalar_calls. destruct tag as [t|].
  - destruct is_key; [by specialize (Ht eq_refl) |]. cbn [scalar_item].
    assert (Htag : puts (fun e => cbor_encode_tag e QWE_SECRET_TAG) (head QWE_SECRET_TAG TagType)).
    { intros e. destruct (append_writes e (head QWE_SECRET_TAG TagType)) as (? & ? & ?). by eexists. }
    set (text := fun e => cbor_encode_text_string e v).
    pose proof (ran_call _ _ a (fun a => match call text a with Go a => K a | o => Some o end) Htag Hr) as H1.
    replace (match and_then _ _ with Go a => K a | o => Some o end) with
      (match call (fun e => cbor_encode_tag e QWE_SECRET_TAG) a with Go a => match call text a with Go a => K a | o => Some o end | o => Some o end)
      by by destruct (call _ a).
    apply (ran_app _ _ None _ None _ _ _ H1). intros e1 He1 _. pose proof (top_set_top e1 a) as Et.
    rewrite <- Et at 1. eapply ran_weaken; [apply ran_call; [apply appends_puts, string_appends | by rewrite Et] |].
    intros e'. cbn beta. by rewrite set_top_twice.
  - apply ran_call; [apply plain_puts | done].
Qed.

(** ** Nodes *)

(** Where a node has left the machine: the value it is has ended. *)
Definition ended (e : CborEncoder) (es : list entry) (a : machine) : machine :=
  value_ends ((set_top e a) <| a_root := true |> <| a_table := a_table a ++ es |>).

Lemma top_place p a : top_enc (fst (place p a)) = top_enc a.
Proof. unfold top_enc, place. by destruct (a_frames a) as [|[?|? ? [[? ?]|]] ?] eqn:Hf; cbn; rewrite ?Hf. Qed.

Lemma top_place_key p v a : top_enc (place_key p v a) = top_enc a.
Proof. unfold top_enc, place_key. by destruct (a_frames a) as [|[?|? ? [[? ?]|]] ?] eqn:Hf; cbn; rewrite ?Hf. Qed.

Definition runs_as_value (n : node) : Prop := forall docs a rest, key_due a = false -> room (top_enc a) ->
  let placed := place (to_pos (n_mark n)) a in
  ran (top_enc a) (n_item n) (objection (length (a_frames a)) false n) (run ((Parsed <$> events n) ++ rest) docs a)
    (fun e' => run rest docs (ended e' (children (snd placed) n) (fst placed))).

Definition key_over (e : CborEncoder) (a : machine) : machine := (set_top e a) <| a_root := true |>.

Lemma ended_nil e a : ended e [] a = value_ends ((set_top e a) <| a_root := true |>).
Proof. unfold ended, set_top. rewrite app_nil_r. by destruct (a_frames a) as [|f ?] eqn:Hf, a. Qed.

Lemma alias_value m : runs_as_value (Alias m).
Proof. intros docs a rest Hk Hr. by right. Qed.

Lemma scalar_value m anchor tag v plain : runs_as_value (Scalar m anchor tag v plain).
Proof.
  intros docs a rest Hk Hr. cbn [events fmap list_fmap app run ev_type step ev_mark objection n_mark n_item]. unfold step_scalar. rewrite Hk. cbn [negb].
  destruct (bad_props m anchor tag true) as [msg|] eqn:Hb; [by right |].
  destruct (merge_key v plain false) eqn:Hm; [by right |].
  set (a1 := fst (place (to_pos m) a)).
  assert (Et : top_enc a = top_enc a1) by (symmetry; apply top_place). rewrite Et in *.
  pose proof (ran_calls tag v plain false a1 (fun a => run rest docs (value_ends (a <| a_root := true |>))) ltac:(done) Hr) as H.
  eapply ran_weaken; [| intros e'; unfold children; cbn [entries list.tail]; rewrite ended_nil; reflexivity].
  destruct (scalar_calls tag v plain false a1) as [a2|? ?|?]; exact H.
Qed.

(** A key of a map. *)
Lemma key_runs k docs base e path fs root table rest : room e ->
  let a := Machine base (FMap e path None :: fs) root table in
  let ptr := under path (escape (n_text k)) in
  ran e (text_item (n_text k)) (objection (length (a_frames a)) true k) (run ((Parsed <$> events k) ++ rest) docs a)
    (fun e' => run rest docs (Machine base (FMap e' path (Some (length table, ptr)) :: fs) true
      (table ++ [Entry (cstr ptr) (Some (to_pos (n_mark k))) None]))).
Proof.
  intros Hr a ptr. destruct k as [m|m anchor tag v plain|m anchor tag items mend|m anchor tag items mend].
  - by right.
  - cbn [events fmap list_fmap app run ev_type step ev_mark objection n_mark n_text]. unfold step_scalar. change (key_due a) with true. cbn [negb].
    destruct (bad_props m anchor tag false) as [msg|] eqn:Hb; [by right |].
    destruct (merge_key v plain true) eqn:Hm; [by right |]. apply good_tag in Hb.
    assert (tag = None) as -> by (destruct tag; [by destruct Hb | done]).
    pose proof (ran_calls None v plain true (place_key (to_pos m) v a) (fun a => run rest docs (a <| a_root := true |>)) ltac:(done) Hr) as H.
    eapply ran_weaken; [| intros e'; reflexivity].
    destruct (scalar_calls None v plain true (place_key (to_pos m) v a)) as [a2|? ?|?]; exact H.
  - right. cbn [events fmap list_fmap app run ev_type step ev_mark objection]. unfold step_start. change (key_due a) with true.
    by destruct (bad_props m anchor tag false).
  - right. cbn [events fmap list_fmap app run ev_type step ev_mark objection]. unfold step_start. change (key_due a) with true.
    by destruct (bad_props m anchor tag false).
Qed.

(** ** Containers *)

Lemma entries_children ptr key n : entries ptr key n = Entry (cstr ptr) key (Some (to_pos (n_mark n))) :: children ptr n.
Proof. by destruct n. Qed.

Fixpoint item_entries (path : bytes) (i : Z) (items : list node) : list entry :=
  match items with
  | [] => []
  | x :: items => entries (under path (dec i)) None x ++ item_entries path (i + 1) items
  end.

Definition field_entries (path : bytes) (kv : node * node) : list entry :=
  entries (under path (escape (n_text (fst kv)))) (Some (to_pos (n_mark (fst kv)))) (snd kv).

Lemma children_sequence ptr m anchor tag items mend : children ptr (Sequence m anchor tag items mend) = item_entries ptr 0 items.
Proof. unfold children. cbn. generalize 0%Z. induction items as [|x items IH]; intros i; cbn; [done |]. by rewrite IH. Qed.

Lemma children_mapping ptr m anchor tag items mend : children ptr (Mapping m anchor tag items mend) = mjoin (field_entries ptr <$> items).
Proof. done. Qed.

Lemma first_some_cons {A} (o : option A) l : first_some (o :: l) = first_some [o; first_some l].
Proof. destruct o; [done |]. cbn. by destruct (first_some l). Qed.

Lemma sequence_items items : Forall runs_as_value items -> forall docs base e path i fs table rest,
  room e -> (0 <= i)%Z -> (i + Z.of_nat (length items) < 2 ^ 64)%Z ->
  ran e (mjoin (n_item <$> items)) (first_some (objection (S (length fs)) false <$> items))
    (run ((Parsed <$> mjoin (events <$> items)) ++ rest) docs (Machine base (FSeq e path i :: fs) true table))
    (fun e' => run rest docs (Machine base (FSeq e' path (i + Z.of_nat (length items)) :: fs) true (table ++ item_entries path i items))).
Proof.
  induction 1 as [|x items Hx _ IH]; intros docs base e path i fs table rest Hr Hi Hlen.
  - cbn. apply ran_nil; [done |]. by rewrite Z.add_0_r, app_nil_r.
  - cbn [fmap list_fmap mjoin list_join length item_entries] in *. rewrite first_some_cons.
    change (list_join (events <$> items)) with (mjoin (events <$> items)). rewrite fmap_app, <- app_assoc.
    pose proof (Hx docs (Machine base (FSeq e path i :: fs) true table) ((Parsed <$> mjoin (events <$> items)) ++ rest) eq_refl Hr) as H.
    eapply ran_app; [exact H |]. intros e1 Hr1 _. cbn -[Z.of_nat Z.pow Z.modulo under].
    rewrite Z.mod_small by lia.
    eapply ran_weaken; [apply IH; [done | lia | lia] |]. intros e2. cbn beta. f_equal. f_equal.
    + do 2 f_equal. lia.
    + rewrite (entries_children _ _ x). cbn. by rewrite <- !app_assoc.
Qed.

Lemma mapping_items items : Forall (fun kv => runs_as_value (fst kv) /\ runs_as_value (snd kv)) items -> forall docs base e path fs table rest,
  room e ->
  ran e (mjoin ((fun kv => text_item (n_text (fst kv)) ++ n_item (snd kv)) <$> items))
    (first_some ((fun kv => first_some [objection (S (length fs)) true (fst kv); objection (S (length fs)) false (snd kv)]) <$> items))
    (run ((Parsed <$> mjoin ((fun kv => events (fst kv) ++ events (snd kv)) <$> items)) ++ rest) docs (Machine base (FMap e path None :: fs) true table))
    (fun e' => run rest docs (Machine base (FMap e' path None :: fs) true (table ++ mjoin (field_entries path <$> items)))).
Proof.
  induction 1 as [|[k v] items [_ Hv] _ IH]; intros docs base e path fs table rest Hr.
  - cbn. apply ran_nil; [done |]. by rewrite app_nil_r.
  - cbn [fmap list_fmap mjoin list_join fst snd] in *. rewrite first_some_cons.
    change (list_join ((fun kv : node * node => events kv.1 ++ events kv.2) <$> items)) with (mjoin ((fun kv : node * node => events kv.1 ++ events kv.2) <$> items)).
    rewrite !fmap_app, <- !app_assoc. rewrite (app_assoc (text_item _)).
    set (after := (Parsed <$> mjoin ((fun kv : node * node => events kv.1 ++ events kv.2) <$> items)) ++ rest).
    apply (ran_app _ (text_item (n_text k) ++ n_item v) _ _ _ _
      (fun e' => run after docs (Machine base (FMap e' path None :: fs) true (table ++ field_entries path (k, v))))).
    + eapply ran_app; [by apply key_runs |]. intros e1 Hr1 _. cbn beta.
      eapply ran_weaken; [match goal with |- ran _ _ _ (run _ _ ?a) _ => apply (Hv docs a); [done | exact Hr1] end |].
      intros e2. cbn -[under]. rewrite alter_app_r_alt by lia. rewrite Nat.sub_diag. cbn -[under].
      unfold field_entries. cbn [fst snd]. rewrite (entries_children _ _ v). by rewrite <- app_assoc.
    + intros e1 Hr1 _. cbn beta. eapply ran_weaken; [by apply IH |]. intros e2. cbn beta. do 2 f_equal. by rewrite <- app_assoc.
Qed.

Lemma full_no_room e data n e' : room e -> writes e data n e' -> en_full e' = true -> en_cap e < length (en_out e) + length data.
Proof.
  intros [Hf _] Hw Hfull. destruct (decide (length (en_out e) + length data <= en_cap e)) as [Hl|]; [| lia].
  destruct (wr_fits _ _ _ _ Hw Hf Hl). congruence.
Qed.

Lemma set_top_parts e e' es a : value_ends (set_top e' (Machine (a_base (set_top e a)) (a_frames (set_top e a)) true (a_table a ++ es))) = ended e' es a.
Proof. unfold ended, set_top. destruct a as [b [|f fs] r t]; [done |]. by destruct f. Qed.

Section container_run.
Context (map : bool) (m mend : yaml_mark) (anchor : bool) (tag : option bytes) (evs : list yaml_event) (data : bytes)
  (obj : option (yaml_mark * bytes)) (es : list entry) (n docs : nat) (a : machine).
Let a1 := fst (place (to_pos m) a).
Let ptr := snd (place (to_pos m) a).
Let opened (e : CborEncoder) : frame := if map then FMap e ptr None else FSeq e ptr 0.
Context (closed : CborEncoder -> frame).
Hypothesis closed_enc : forall e, f_enc (closed e) = e.
Hypothesis closed_map : forall e, is_FMap (closed e) = map.
Hypothesis body : forall base e fs table rest, room e -> length fs = length (a_frames a) ->
  ran e data obj (run ((Parsed <$> evs) ++ rest) docs (Machine base (opened e :: fs) true table))
    (fun e' => run rest docs (Machine base (closed e' :: fs) true (table ++ es))).

Definition start_event : yaml_event := Event m (if map then MappingStart anchor tag else SequenceStart anchor tag).
Definition end_event : yaml_event := Event mend (if map then MappingEnd else SequenceEnd).

Lemma run_start rest b : run (Parsed start_event :: rest) docs b =
  match step_start m anchor tag map b with Go b => run rest docs b | o => Some o end.
Proof using Type. unfold start_event. by case map. Qed.

Lemma run_end rest b : run (Parsed end_event :: rest) docs b =
  match step_end mend map b with Go b => run rest docs b | o => Some o end.
Proof using Type. unfold end_event. by case map. Qed.

Lemma container_run rest : key_due a = false -> room (top_enc a) ->
  ran (top_enc a) (container false (if map then MapType else ArrayType) n data)
    (match bad_props m anchor tag false with
     | Some msg => Some (m, msg)
     | None => if QWE_YAML_MAX_DEPTH <=? length (a_frames a) then Some (m, bytes_of "nesting too deep") else obj
     end)
    (run ((Parsed <$> start_event :: evs ++ [end_event]) ++ rest) docs a)
    (fun e' => run rest docs (ended e' es a1)).
Proof.
  intros Hk Hr. change (Parsed <$> start_event :: evs ++ [end_event]) with (Parsed start_event :: (Parsed <$> evs ++ [end_event])).
  rewrite <- app_comm_cons, run_start. unfold step_start. rewrite Hk.
  destruct (bad_props m anchor tag false) as [msg|]; [by right |]. destruct (_ <=? _); [by right |].
  pose proof (top_place (to_pos m) a) as Et. pose proof (length_place (to_pos m) a) as El. subst a1 ptr opened. destruct (place (to_pos m) a) as [a1 ptr].
  cbn [fst snd] in *. rewrite <- Et in Hr |- *. set (e := top_enc a1) in *. set (sh := (if map then MapType else ArrayType)%Z).
  pose proof (create_indefinite e sh) as Hc. destruct (create_container e None sh) as [[outer inner] err]. destruct Hc as (-> & -> & Hu & Hw).
  unfold container. change (byte (sh + 31) :: data ++ [byte BreakByte]) with ([byte (sh + 31)] ++ data ++ [byte BreakByte]).
  unfold enc_err. destruct (en_full inner) eqn:Hf; cbn [cbor_rc].
  { left. split; [| done]. pose proof (full_no_room _ _ _ _ Hr Hw Hf). rewrite !length_app in *. lia. }
  destruct (writes_fits _ _ _ _ Hw Hf) as (_ & Hl & Ho & Hcap). pose proof (writes_room _ _ _ _ Hw Hf) as Hri.
  rewrite fmap_app, <- app_assoc. pose proof (top_set_top (saturated_decrement e) a1) as Ets.
  destruct (set_top (saturated_decrement e) a1) as [b fs r t] eqn:Ea.
  assert (Hfs : fs = a_frames (set_top (saturated_decrement e) a1)) by (by rewrite Ea).
  assert (Hb : b = a_base (set_top (saturated_decrement e) a1)) by (by rewrite Ea).
  assert (Ht : t = a_table a1). { replace t with (a_table (set_top (saturated_decrement e) a1)) by (by rewrite Ea). unfold set_top. by destruct (a_frames a1). }
  assert (Hlen : length fs = length (a_frames a)).
  { rewrite Hfs. rewrite <- El. unfold set_top. by destruct (a_frames a1) eqn:Ef; cbn; rewrite ?Ef. }
  match goal with |- ran _ _ _ ?res _ => change res with (run ((Parsed <$> evs) ++ (Parsed <$> [end_event]) ++ rest) docs
    (Machine b ((if map then FMap inner ptr None else FSeq inner ptr 0) :: fs) true t)) end.
  destruct (body b inner fs t ((Parsed <$> [end_event]) ++ rest) Hri Hlen) as [[Hl2 E]|H].
  { left. rewrite E. split; [| done]. rewrite Ho, Hcap in Hl2. rewrite !length_app in *. lia. }
  destruct obj as [[m' msg]|]; [by right |]. destruct H as (n2 & e2 & Hw2 & Hf2 & Hu2 & E).
  pose proof (close_indefinite e _ _ e2 (writes_app _ _ _ _ _ _ _ Hw Hw2)) as Hclose. rewrite Hu2 in Hclose. specialize (Hclose Hu).
  assert (Er : run ((Parsed <$> [end_event]) ++ rest) docs (Machine b (closed e2 :: fs) true (t ++ es)) =
    match call (fun p => cbor_encoder_close_container p e2) (Machine b fs true (t ++ es)) with
    | Go b => run rest docs (value_ends b) | o => Some o end).
  { cbn [fmap list_fmap app]. rewrite run_end. unfold step_end. cbn [a_frames]. rewrite closed_map, eqb_reflx, closed_enc.
    change ((Machine b (closed e2 :: fs) true (t ++ es)) <| a_frames := fs |>) with (Machine b fs true (t ++ es)). by destruct (call _ _). }
  rewrite Er in E. unfold call in E. change (top_enc (Machine b fs true (t ++ es))) with (top_enc (Machine b fs r t)) in E. rewrite Ets in E.
  destruct (cbor_encoder_close_container (saturated_decrement e) e2) as [e' err]. destruct Hclose as (Hw' & -> & Hu').
  rewrite <- app_assoc in Hw'. unfold enc_err in E. destruct (en_full e') eqn:Hf'; cbn [cbor_rc] in E.
  - left. rewrite E. split; [by eapply full_no_room | done].
  - right. exists (one_less e), e'. split_and!; [done | done | done |]. rewrite E, Hb, Hfs, Ht. by rewrite set_top_parts.
Qed.
End container_run.

(** Lengths that fit their counters: always so for a text of at most a mebibyte. *)
Fixpoint sized (n : node) : bool :=
  match n with
  | Alias _ => true
  | Scalar _ _ _ v _ => (Z.of_nat (length v) <? 2 ^ 64)%Z
  | Mapping _ _ _ items _ =>
      (Z.of_nat (length items * 2) <? UINT32_MAX)%Z && forallb (fun kv => sized (fst kv) && sized (snd kv)) items
  | Sequence _ _ _ items _ => (Z.of_nat (length items) <? UINT32_MAX)%Z && forallb sized items
  end.

Lemma node_runs n : sized n = true -> runs_as_value n.
Proof.
  induction n as [m|m anchor tag v plain|m anchor tag items mend IH|m anchor tag items mend IH] using node_nested_ind;
    intros Hs; [apply alias_value | apply scalar_value | |];
    cbn [sized] in Hs; apply andb_true_iff in Hs as [Hlen Hs]; rewrite forallb_forall in Hs;
    intros docs a rest Hk Hr placed; cbn [n_item n_mark objection events];
    [ rewrite (children_mapping _ m anchor tag items mend) | rewrite (children_sequence _ m anchor tag items mend) ].
  - apply (container_run true m mend anchor tag _ _ _ _ _ _ _ (fun e => FMap e (snd placed) None)); try done.
    intros base e fs table rest' He Hl. rewrite <- Hl. apply mapping_items; [| done].
    rewrite Forall_forall in IH |- *. intros kv Hin. specialize (IH kv Hin).
    specialize (Hs kv Hin). apply andb_true_iff in Hs as [? ?]. naive_solver.
  - apply (container_run false m mend anchor tag _ _ _ _ _ _ _ (fun e => FSeq e (snd placed) (0 + Z.of_nat (length items)))); try done.
    intros base e fs table rest' He Hl. rewrite <- Hl. unfold UINT32_MAX in Hlen. apply sequence_items; [| done | done | lia].
    rewrite Forall_forall in IH |- *. intros x Hin. apply IH; [done |]. by apply Hs.
Qed.

(** ** Whole documents *)

Lemma pass_document m n cap : sized n = true ->
  ran (cbor_encoder_init cap) (n_item n) (objection 0 false n) (pass (Attempt true (document m n)) cap)
    (fun e' => Some (Go (Machine e' [] true (entries [] None n)))).
Proof.
  intros Hs. unfold pass, document. cbn [at_parser at_results fmap list_fmap run ev_type].
  change (step 0 _ (start cap)) with (Go (start cap)). cbn [docs_after].
  change (run (Parsed (Event m DocumentStart) :: ?r) 0 (start cap)) with (run r 1 (start cap)).
  rewrite fmap_app. eapply ran_weaken; [apply (node_runs n Hs 1 (start cap)); [done | split; [done | cbn; lia]] |].
  intros e'. cbn -[entries children]. by rewrite (entries_children [] None n).
Qed.

Section documents.
Context (parser : nat -> attempt) (m : yaml_mark) (n : node).
Hypothesis parses : forall k, parser k = Attempt true (document m n).
Hypothesis small_lengths : sized n = true.

Lemma tries_document fuel k cap : 0 < fuel -> 0 < cap -> (Z.of_nat cap <= CBOR_MAX_SIZE)%Z ->
  (CBOR_MAX_SIZE < Z.of_nat cap * 2 ^ (Z.of_nat fuel - 1))%Z -> (Z.of_nat (length (n_item n)) <= CBOR_MAX_SIZE / 2)%Z ->
  match objection 0 false n with
  | None => exists a, tries parser fuel k cap = Done a /\ en_out (a_base a) = n_item n /\ a_table a = entries [] None n
  | Some (m, msg) => tries parser fuel k cap = Failed (Some (located m msg))
  end.
Proof.
  revert k cap. induction fuel as [|fuel IH]; intros k cap Hf0 Hc Hcap Hf Hn; [lia |]. unfold tries; fold (tries parser).
  destruct (Z.ltb_spec CBOR_MAX_SIZE (Z.of_nat cap)) as [|_]; [lia |]. rewrite parses.
  destruct (pass_document m n cap small_lengths) as [[Hroom ->]|H].
  - cbn in Hroom. assert (Hfuel : 0 < fuel) by (destruct fuel; [change (2 ^ (Z.of_nat 1 - 1))%Z with 1%Z in Hf |]; lia).
    assert (Hp : (2 ^ (Z.of_nat (S fuel) - 1) = 2 * 2 ^ (Z.of_nat fuel - 1))%Z).
    { rewrite <- Z.pow_succ_r by lia. f_equal. lia. }
    apply IH; [done | lia | | lia | done]. clear -Hroom Hn. change (CBOR_MAX_SIZE / 2)%Z with 33554432%Z in Hn. change CBOR_MAX_SIZE with 67108864%Z. lia.
  - destruct (objection 0 false n) as [[m' msg]|]; [by rewrite H |]. destruct H as (x & e' & Hw & Hfull & _ & ->). cbn [a_root].
    eexists. split; [done |]. split; [| done]. cbn. by destruct (writes_fits _ _ _ _ Hw Hfull) as (_ & _ & -> & _).
Qed.

Lemma document_reads len err_size : (Z.of_nat len <= QWE_YAML_MAX_SIZE)%Z ->
  (Z.of_nat (length (n_item n)) <= CBOR_MAX_SIZE / 2)%Z ->
  match objection 0 false n with
  | None => exists p, qwe_yaml_to_cbor parser len err_size [] = CRet (inr (n_item n, p)) /\
      ps_e p = qsort cmp_le (entries [] None n)
  | Some (m, msg) => qwe_yaml_to_cbor parser len err_size [] = CRet (inl (qwe_msg err_size (located m msg)))
  end.
Proof.
  intros Hlen Hn.
  destruct (transcoder_refines parser len err_size []) as (r & -> & [[_ H]|H]); [| done | done |].
  { intros k. rewrite parses. unfold document. cbn. apply existsb_exists. exists (Parsed (Event m StreamEnd)). split; [| done].
    apply list_elem_of_In. rewrite fmap_app. set_solver. }
  assert (Ht := tries_document PASSES 0 (len * 2 + 64)). unfold PASSES, CBOR_MAX_SIZE, QWE_YAML_MAX_SIZE in *.
  specialize (Ht ltac:(lia) ltac:(lia) ltac:(lia) ltac:(lia) Hn). destruct (objection 0 false n) as [[m' msg]|].
  - rewrite Ht in H. destruct H as (e & -> & He). rewrite (He _ eq_refl); [done |]. unfold located. by destruct (dec _).
  - destruct Ht as (a & Ht & <- & <-). rewrite Ht in H. destruct H as (p & -> & Hp). by exists p.
Qed.

(** C17. A document is refused exactly when a node of it is not supported (an
    alias, an anchor, a tag other than [!encrypted] on a value, a merge key, a
    key that is not a scalar, a 65th level), with the position and the reason of
    the first such node; any other one becomes the CBOR item of its value and the
    table of the positions of its keys and values. *)
Theorem document_exact len err_size : (Z.of_nat len <= QWE_YAML_MAX_SIZE)%Z ->
  (Z.of_nat (length (n_item n)) <= CBOR_MAX_SIZE / 2)%Z ->
  match objection 0 false n with
  | None => exists p, qwe_yaml_to_cbor parser len err_size [] = CRet (inr (n_item n, p)) /\
      ps_e p = qsort cmp_le (entries [] None n)
  | Some (m, msg) => qwe_yaml_to_cbor parser len err_size [] = CRet (inl (qwe_msg err_size (located m msg)))
  end.
Proof. apply document_reads. Qed.
End documents.

(** ** And back to Lua *)

Definition scalar_lua (tag : option bytes) (v : bytes) (plain : bool) : lua :=
  if tag is Some _ then LTable SecretMeta [] [(KStr (bytes_of "value"), LStr v)]
  else if plain then
    if null_lit v then LNull
    else if true_lit v then LBool true
    else if false_lit v then LBool false
    else if is_int v then push_number (double_of_Z (strtoll v))
    else if is_float v then push_number (strtod v)
    else LStr v
  else LStr v.

(** The value of a node; of a repeated key the last value counts. *)
Fixpoint n_lua (n : node) : lua :=
  match n with
  | Alias _ => LNil
  | Scalar _ _ tag v plain => scalar_lua tag v plain
  | Mapping _ _ _ items _ =>
      LTable MapMeta [] (foldl (fun fields f => set_field (fst f) (snd f) fields) [] ((fun kv => (n_text (fst kv), n_lua (snd kv))) <$> items))
  | Sequence _ _ _ items _ => LTable ArrayMeta (n_lua <$> items) []
  end.

(** Every integer is one a double holds. *)
Fixpoint exact_ints (n : node) : bool :=
  match n with
  | Scalar _ _ None v true =>
      null_lit v || true_lit v || false_lit v || negb (is_int v) || (Z.abs (strtoll v) <=? MAX_EXACT)%Z
  | Mapping _ _ _ items _ => forallb (fun kv => exact_ints (snd kv)) items
  | Sequence _ _ _ items _ => forallb exact_ints items
  | _ => true
  end.

Lemma scalar_reads levels tag v plain : (Z.of_nat (length v) < 2 ^ 64)%Z ->
  exact_ints (Scalar (Mark 0 0) false tag v plain) = true -> reads levels (scalar_item tag v plain) (scalar_lua tag v plain).
Proof.
  intros Hl He. unfold scalar_item, scalar_lua. destruct tag as [t|]; [by apply reads_secret |].
  destruct plain; [| by apply reads_text]. cbn [exact_ints] in He.
  destruct (null_lit v); [by apply (reads_simple levels 22) |]. destruct (true_lit v); [by apply (reads_simple levels 21) |].
  destruct (false_lit v); [by apply (reads_simple levels 20) |]. cbn [orb] in He. destruct (is_int v); cbn [orb negb] in He.
  - apply Z.leb_le in He. unfold MAX_EXACT in He. destruct (Z.ltb_spec (strtoll v) 0).
    + apply reads_number; [tauto | lia | | unfold MAX_EXACT; lia]. rewrite Z.eqb_refl. lia.
    + apply reads_number; [tauto | lia | done | unfold MAX_EXACT; lia].
  - destruct (is_float v); [apply reads_double, strtod_range | by apply reads_text].
Qed.

Lemma first_some_none {A} (l : list (option A)) : first_some l = None -> Forall (fun o => o = None) l.
Proof. induction l as [|[a|] l IH]; [constructor | done |]. intros H. constructor; [done | by apply IH]. Qed.

Lemma node_reads n level levels : sized n = true -> objection level false n = None -> exact_ints n = true ->
  level + levels = QWE_YAML_MAX_DEPTH -> reads levels (n_item n) (n_lua n).
Proof.
  revert level levels. induction n as [m|m anchor tag v plain|m anchor tag items mend IH|m anchor tag items mend IH] using node_nested_ind;
    intros level levels Hs Ho He Hl; [done | | |].
  - apply scalar_reads; [by apply Z.ltb_lt in Hs | by destruct tag, plain].
  - cbn [sized objection exact_ints n_item n_lua] in *. apply andb_true_iff in Hs as [Hlen%Z.ltb_lt Hs]. destruct (bad_props _ _ _ _); [done |].
    destruct (Nat.leb_spec QWE_YAML_MAX_DEPTH level) as [|Hlt]; [done |]. destruct levels as [|levels]; [lia |].
    apply first_some_none in Ho. rewrite Forall_fmap in Ho. rewrite forallb_forall in Hs, He.
    set (fs := (fun kv => (n_text (fst kv), (n_item (snd kv), n_lua (snd kv)))) <$> items).
    replace (mjoin _) with (mjoin (field_bytes <$> fs)) by (unfold fs; by rewrite <- list_fmap_compose).
    replace (foldl _ _ _) with (foldl add_field [] fs) by (unfold fs; by rewrite !foldl_fmap).
    replace (length items) with (length fs) by apply length_fmap. apply (reads_map levels false); [| unfold fs; by rewrite length_fmap].
    unfold fs. rewrite Forall_fmap. rewrite Forall_forall in IH, Ho |- *. intros [k v] Hin. specialize (IH _ Hin). specialize (Ho _ Hin).
    specialize (Hs _ Hin). specialize (He _ Hin). cbn [fst snd] in *. apply andb_true_iff in Hs as [Hk Hv]. cbn in Ho.
    destruct (objection (S level) true k) as [|] eqn:Hko; [done |]. destruct (objection (S level) false v) eqn:Hvo; [done |]. split.
    + destruct k; [done | by apply Z.ltb_lt in Hk | done..].
    + destruct IH as [_ IH]. apply (IH (S level)); [done | done | done | lia].
  - cbn [sized objection exact_ints n_item n_lua] in *. apply andb_true_iff in Hs as [Hlen%Z.ltb_lt Hs]. destruct (bad_props _ _ _ _); [done |].
    destruct (Nat.leb_spec QWE_YAML_MAX_DEPTH level) as [|Hlt]; [done |]. destruct levels as [|levels]; [lia |].
    apply first_some_none in Ho. rewrite Forall_fmap in Ho. rewrite forallb_forall in Hs, He.
    replace (length items) with (length (n_item <$> items)) by apply length_fmap.
    apply (reads_array levels false); [| by rewrite length_fmap]. apply Forall2_fmap, Forall_Forall2_diag.
    rewrite Forall_forall in IH, Ho |- *. intros x Hin. apply (IH x Hin (S level)); [by apply Hs | by apply Ho | by apply He | lia].
Qed.

#[local] Transparent QWE_YAML_MAX_DEPTH.

Lemma same_depth : QWE_YAML_MAX_DEPTH = QWE_LUA_MAX_DEPTH.
Proof. reflexivity. Qed.

#[local] Opaque QWE_YAML_MAX_DEPTH.

(** C31. Text to Lua: the document that the transcoder has no objection to, whose parts
    fit the counters and the limits, is transcoded and decodes, as the Lua value of
    its tree: scalars by the YAML core rules, texts byte for byte, sequences in
    order, mappings by key (the last of a repeated key), [!encrypted] as a secret;
    if its integers are ones a double holds exactly. *)
Theorem yaml_to_lua parser m n len err_size : (forall k, parser k = Attempt true (document m n)) ->
  sized n = true -> objection 0 false n = None -> exact_ints n = true ->
  (Z.of_nat len <= QWE_YAML_MAX_SIZE)%Z -> (Z.of_nat (length (n_item n)) <= CBOR_MAX_SIZE / 2)%Z ->
  exists out p, qwe_yaml_to_cbor parser len err_size [] = CRet (inr (out, p)) /\ qwe_cbor_to_lua [] out = CRet (inr (n_lua n)).
Proof.
  intros Hp Hs Ho He Hlen Hn. pose proof (document_reads parser m n Hp Hs len err_size Hlen Hn) as H. rewrite Ho in H.
  destruct H as (p & E & _). exists (n_item n), p. split; [done |]. rewrite <- (app_nil_r (n_item n)). apply decode_item.
  rewrite <- same_depth. by apply (node_reads n 0).
Qed.

Definition col (c : Z) : yaml_mark := Mark 0 c.

(** [jobs: {a/b: [true, 0x1f, -12, .5, !encrypted "s"], n: ~}] *)
Definition sample_doc : node :=
  Mapping (col 0) false None
    [(Scalar (col 0) false None (bytes_of "jobs") true,
      Mapping (col 6) false None
        [(Scalar (col 7) false None (bytes_of "a/b") true,
          Sequence (col 12) false None
            [Scalar (col 13) false None (bytes_of "true") true; Scalar (col 19) false None (bytes_of "0x1f") true;
             Scalar (col 25) false None (bytes_of "-12") true; Scalar (col 30) false None (bytes_of ".5") true;
             Scalar (col 34) false (Some ENCRYPTED_TAG) (bytes_of "s") false] (col 48));
         (Scalar (col 51) false None (bytes_of "n") true, Scalar (col 54) false None (bytes_of "~") true)] (col 55))] (Mark 1 0).

(** The same with an alias in it. *)
Definition aliased_doc : node := Sequence (Mark 0 0) false None [sample_doc; Alias (Mark 2 2)] (Mark 3 0).

Definition parses_as (n : node) : nat -> attempt := fun _ => Attempt true (document (Mark 0 0) n).

#[local] Transparent QWE_YAML_MAX_DEPTH.

Lemma sample_ok : sized sample_doc = true /\ objection 0 false sample_doc = None /\ exact_ints sample_doc = true /\
  (Z.of_nat (length (n_item sample_doc)) <= CBOR_MAX_SIZE / 2)%Z.
Proof. vm_compute. by split_and!. Qed.

Lemma aliased_ok : sized aliased_doc = true /\ objection 0 false aliased_doc = Some (Mark 2 2, bytes_of "aliases are not supported") /\
  (Z.of_nat (length (n_item aliased_doc)) <= CBOR_MAX_SIZE / 2)%Z.
Proof. vm_compute. by split_and!. Qed.

#[local] Opaque QWE_YAML_MAX_DEPTH.

Lemma document_exact_witness :
  (exists p, qwe_yaml_to_cbor (parses_as sample_doc) 57 256 [] = CRet (inr (n_item sample_doc, p)) /\
    ps_e p = qsort cmp_le (entries [] None sample_doc)) /\
  qwe_yaml_to_cbor (parses_as aliased_doc) 80 256 [] = CRet (inl (bytes_of "3:3: aliases are not supported")).
Proof.
  destruct sample_ok as (S1 & S2 & _ & S3), aliased_ok as (A1 & A2 & A3). split.
  - pose proof (document_exact (parses_as sample_doc) (Mark 0 0) sample_doc (fun _ => eq_refl) S1 57 256 ltac:(done) S3) as H.
    rewrite S2 in H. exact H.
  - pose proof (document_exact (parses_as aliased_doc) (Mark 0 0) aliased_doc (fun _ => eq_refl) A1 80 256 ltac:(done) A3) as H.
    rewrite A2 in H. exact H.
Defined.

Lemma yaml_to_lua_witness : exists out p, qwe_yaml_to_cbor (parses_as sample_doc) 57 256 [] = CRet (inr (out, p)) /\
  qwe_cbor_to_lua [] out = CRet (inr (n_lua sample_doc)).
Proof.
  destruct sample_ok as (S1 & S2 & S4 & S3).
  exact (yaml_to_lua (parses_as sample_doc) (Mark 0 0) sample_doc 57 256 (fun _ => eq_refl) S1 S2 S4 ltac:(done) S3).
Defined.
