(* ===== verification/Job.v ===== *)
(** * Jobs as the engine runs them

    Models the data of [src/kernel/jobs.h] and [src/kernel/workflow.c] ([struct
    job], [struct job_run], [struct run_ctx], the event tags), and the setting
    the engine's functions run in.

    What the engine gets from outside (the kernel, the Lua runtime and the
    scripts it loads, ssh) comes from an environment: a function that answers
    typed questions and carries its own state.  Every theorem holds for every
    environment.  An engine function that works on one job is a computation over
    that job and the shared context; it can end in undefined behaviour or an
    abort like any C code. *)

From S2P Require Import Prelude Fmt Lifecycle Ring Redact Sink Trace Result.
From Stdlib Require Import Ascii NArith ZArith Lia SpecFloat.
From stdpp Require Import base sets list strings numbers.

(** ** Event tags *)

Inductive evkind := EV_OUT | EV_RESULT | EV_STEP_TIMER | EV_JOB_TIMER | EV_GRACE_TIMER | EV_CHILD | EV_CANCEL.

#[export] Instance evkind_eq_dec : EqDecision evkind.
Proof. solve_decision. Defined.

Definition kind_num (k : evkind) : Z :=
  match k with
  | EV_OUT => 0 | EV_RESULT => 1 | EV_STEP_TIMER => 2 | EV_JOB_TIMER => 3 | EV_GRACE_TIMER => 4
  | EV_CHILD => 5 | EV_CANCEL => 6
  end.

(** The cast to [enum evkind]; another number is no kind the code knows. *)
Definition kind_of_num (n : Z) : option evkind :=
  find (fun k => (kind_num k =? n)%Z)
    [EV_OUT; EV_RESULT; EV_STEP_TIMER; EV_JOB_TIMER; EV_GRACE_TIMER; EV_CHILD; EV_CANCEL].

Definition TAG_NO_JOB : Z := 0xFFFFFFFF.

Definition tag_make (job : Z) (kind : evkind) (step : Z) : Z :=
  Z.lor (Z.lor (Z.shiftl job 32 mod 2 ^ 64) (Z.shiftl (kind_num kind) 24))
    (Z.land (step + 1) 0xFFFFFF).

(** What the loop takes apart again. *)
Definition tag_job (tag : Z) : Z := Z.shiftr tag 32.
Definition tag_kind (tag : Z) : option evkind := kind_of_num (Z.land (Z.shiftr tag 24) 0xFF).
Definition tag_step (tag : Z) : Z := (Z.land tag 0xFFFFFF - 1)%Z.

(** ** Data *)

(** A step as the workflow declares it. *)
Record step_decl := StepDecl {
  sd_id : option string;
  sd_name : option string;
  sd_uses : option string;
  sd_coe : bool; (* continue-on-error *)
  sd_on : option string;
}.

(** What one running job holds.  A buffer and its length are one list; a
    registry reference is not kept (the table it names is the environment's). *)
Record job_run := JobRun {
  rn_ring : qwe_ring;
  rn_sink : qwe_sink;
  rn_log : bytes; (* the log file behind the sink *)
  rn_red : qwe_redactor;
  rn_timer : qwe_timer;
  rn_step_timer : qwe_timer;
  rn_grace_timer : qwe_timer;
  rn_step_mono_start : Z;
  rn_pid : Z;
  rn_ring_ok : bool;
  rn_sink_ok : bool;
  rn_timer_ok : bool;
  rn_proc_ok : bool;
  rn_leader_reaped : bool;
  rn_res_buf : bytes;
  rn_res_cap : nat;
  rn_res_overflow : bool;
  rn_step_changed : bool;
  rn_out_path : option string;
  rn_step_target : option string;
  rn_step_unreachable : bool;
  rn_step_token : option string;
  rn_step_json : option bytes;
  rn_timeout_told : bool;
  rn_cancel_told : bool;
  rn_cur : nat;
  rn_live_step : Z;
  rn_step_uses : bool; (* the live step's table has uses: *)
  rn_last_reason : option string;
  rn_followup : option qwe_lc_event; (* have_followup and followup *)
  rn_fail_op : option string;
  rn_fail_errno : Z;
}.

#[export] Instance eta_job_run : Eta job_run := fun r =>
  JobRun (rn_ring r) (rn_sink r) (rn_log r) (rn_red r) (rn_timer r) (rn_step_timer r) (rn_grace_timer r)
    (rn_step_mono_start r) (rn_pid r) (rn_ring_ok r) (rn_sink_ok r) (rn_timer_ok r) (rn_proc_ok r)
    (rn_leader_reaped r) (rn_res_buf r) (rn_res_cap r) (rn_res_overflow r) (rn_step_changed r)
    (rn_out_path r) (rn_step_target r) (rn_step_unreachable r) (rn_step_token r) (rn_step_json r)
    (rn_timeout_told r) (rn_cancel_told r) (rn_cur r) (rn_live_step r) (rn_step_uses r)
    (rn_last_reason r) (rn_followup r) (rn_fail_op r) (rn_fail_errno r).

Record job := Job {
  jb_index : nat; (* its place in the list *)
  jb_id : string;
  jb_target : string;
  jb_decl : list step_decl;
  jb_state : qwe_lc_state;
  jb_reason : option string;
  jb_needs : list string;
  jb_steps : option (list qwe_step_result); (* None until the job has started *)
  jb_started : Z;
  jb_ended : Z;
  jb_duration_ms : Z;
  jb_mono_start : Z;
  jb_dropped : N;
  jb_timeout_ms : Z;
  jb_detail : option string;
  jb_run : job_run;
}.

#[export] Instance eta_job : Eta job := fun j =>
  Job (jb_index j) (jb_id j) (jb_target j) (jb_decl j) (jb_state j) (jb_reason j) (jb_needs j) (jb_steps j)
    (jb_started j) (jb_ended j) (jb_duration_ms j) (jb_mono_start j) (jb_dropped j) (jb_timeout_ms j)
    (jb_detail j) (jb_run j).

#[export] Instance eta_step_result : Eta qwe_step_result := fun s =>
  StepResult (sr_id s) (sr_outcome s) (sr_reason s) (sr_changed s) (sr_outputs_json s) (sr_started s)
    (sr_ended s) (sr_duration_ms s) (sr_name s) (sr_plugin s).

Definition jb_nsteps (j : job) : nat := length (jb_decl j).

(** A step result as [qwe_xcalloc] and [job_start] leave it. *)
Definition step_result0 : qwe_step_result := StepResult None None None false None 0 0 (-1) None None.

Definition no_timer : qwe_timer := Timer None false.

(** [job_run] as [qwe_jobs_load] leaves it. *)
Definition job_run0 : job_run :=
  JobRun ring0 (Sink "" [] 0) [] redactor0 no_timer no_timer no_timer 0 0 false false false false false
    [] 0 false false None None false None None false false 0 (-1) false None None None 0.

(** A job as [qwe_jobs_load] makes it. *)
Definition job0 (index : nat) (id target : string) (needs : list string) (decl : list step_decl) (timeout_ms : Z) : job :=
  Job index id target decl QWE_LC_PENDING None needs None 0 0 (-1) 0 0 timeout_ms None job_run0.

(** ** The environment *)

Inductive read_result := RData (data : bytes) (* empty: end of file *) | RIntr (* EINTR *).

(** What [qwe.template.resolve] made of a step: its timeout, the remote target it
    runs on, whether it has uses:, and the secrets it brought in. *)
Record resolved_step := Resolved {
  rs_timeout_ms : N;
  rs_target : option string;
  rs_uses : bool;
  rs_secrets : list bytes;
}.

(** A step's result message: its status, reason and changed fields, and the JSON
    of its outputs if it has any and they could be stored. *)
Record decoded_msg := DecodedMsg {
  dm_status : option string;
  dm_reason : option string;
  dm_changed : option bool;
  dm_outputs : option (option bytes);
}.

(** How [backend.ssh.ensure] went. *)
Inductive ensure_result := EnsureOk | EnsureRefused | EnsureUnreachable.

Inductive query : Type -> Type :=
| QTick : query N (* nanoseconds that pass *)
| QTime : query Z (* time(NULL) *)
| QErrno : query N
| QMemory : query bool (* whether an allocation or asprintf succeeds *)
| QRingMem : query (option bytes)
| QLogOpen : query bool
| QTimerCreate : query bool
| QWrites : query (list write_result)
| QTraceWrite : query write_result
| QReadOutput (pid : Z) : query (list read_result) (* until it would block *)
| QReadResult (pid : Z) : query (list read_result)
| QAllocations : query (list bool)
| QResolve (job : string) (step : nat) (out_path token : option string) : query (option resolved_step)
| QTakeOutput (path : string) : query (option (option bytes)) (* a table; its stored JSON *)
| QDecode (msg : bytes) : query (option decoded_msg)
| QSsh (fn target : string) (args : list string) : query bool
| QEnsure (target : string) : query ensure_result
| QOutputFile (path : string) : query bool
| QSpawn (job : string) (step : nat) : query (Z + string) (* a pid, or what failed *)
| QKill (pid : Z) (signal : Z) : query unit
| QGroupEmpty (pid : Z) : query bool
| QArgumentOrder : query bool (* which of two call arguments is evaluated first *)
| QCancelSignal : query bool
| QWait : query (list (Z * Z)) (* pids and statuses *)
| QEpoll : query (option (list Z)) (* tags; None: nothing ever happens again *)
| QMaxSessions (target : string) : query (option spec_float) (* a Lua number *)
| QDisabled (target : string) : query (option string)
| QPreconnect (target : string) : query unit.

Definition environment (W : Type) : Type := forall A, query A -> W -> A * W.

(** ** The context every job shares *)

Record ctx (W : Type) := Ctx {
  x_env : W;
  x_clock : Z; (* CLOCK_MONOTONIC, in ns *)
  x_trace : qwe_trace;
  x_interest : list Z; (* the tags epoll watches *)
  x_cancel : bool; (* cancel_requested *)
  x_set : secret_set;
  x_term : bytes; (* the terminal *)
  x_grace_ms : Z;
  x_run_id : string;
  x_run_dir : string;
  x_run_dir_abs : string;
}.
Arguments Ctx {W}.
Arguments x_env {W}.
Arguments x_clock {W}.
Arguments x_trace {W}.
Arguments x_interest {W}.
Arguments x_cancel {W}.
Arguments x_set {W}.
Arguments x_term {W}.
Arguments x_grace_ms {W}.
Arguments x_run_id {W}.
Arguments x_run_dir {W}.
Arguments x_run_dir_abs {W}.

#[export] Instance eta_ctx W : Eta (ctx W) := fun x =>
  Ctx (x_env x) (x_clock x) (x_trace x) (x_interest x) (x_cancel x) (x_set x) (x_term x) (x_grace_ms x)
    (x_run_id x) (x_run_dir x) (x_run_dir_abs x).

(** ** Computations on one job *)

Record st (W : Type) := St { s_job : job; s_ctx : ctx W }.
Arguments St {W}.
Arguments s_job {W}.
Arguments s_ctx {W}.

#[export] Instance eta_st W : Eta (st W) := fun s => St (s_job s) (s_ctx s).

Definition M (W A : Type) : Type := st W -> cres (A * st W).

#[export] Instance M_ret W : MRet (M W) := fun A a s => CRet (a, s).
#[export] Instance M_bind W : MBind (M W) := fun A B k m s =>
  match m s with
  | CRet (a, s') => k a s'
  | CUndef => CUndef
  | CAbort => CAbort
  | CFuel => CFuel
  end.

Section operations.
Context {W : Type} (env : environment W).

Definition ask {A} (q : query A) : M W A := fun s =>
  let '(a, w) := env A q (x_env (s_ctx s)) in CRet (a, s <| s_ctx := (s_ctx s) <| x_env := w |> |>).

Definition lift {A} (c : cres A) : M W A := fun s =>
  match c with
  | CRet a => CRet (a, s)
  | CUndef => CUndef
  | CAbort => CAbort
  | CFuel => CFuel
  end.

Definition get_job : M W job := fun s => CRet (s_job s, s).
Definition get_run : M W job_run := fun s => CRet (jb_run (s_job s), s).
Definition get_ctx : M W (ctx W) := fun s => CRet (s_ctx s, s).
Definition mod_job (f : job -> job) : M W unit := fun s => CRet (tt, s <| s_job := f (s_job s) |>).
Definition mod_run (f : job_run -> job_run) : M W unit :=
  mod_job (fun j => j <| jb_run := f (jb_run j) |>).
Definition mod_ctx (f : ctx W -> ctx W) : M W unit := fun s => CRet (tt, s <| s_ctx := f (s_ctx s) |>).
Definition abort {A} : M W A := fun _ => CAbort.
Definition undefined {A} : M W A := fun _ => CUndef.

(** [if (b) m] *)
Definition when (b : bool) (m : M W unit) : M W unit := if b then m else mret tt.

End operations.

(** The monotonic clock now: time has passed since it was last read. *)
Definition mono_now_ns {W} (env : environment W) : M W Z :=
  d ← ask env QTick;
  mod_ctx (fun x => x <| x_clock := (x_clock x + Z.of_N d)%Z |>);;
  x ← get_ctx;
  mret (x_clock x).

Definition ts_of (ns : Z) : timespec := Timespec (ns / 1000000000) (ns mod 1000000000).

(** The moment a timer will fire, if it is armed. *)
Definition deadline_of (t : qwe_timer) : option Z :=
  match t_fd t with Some f => tf_deadline f | None => None end.

(** [errno] after a failed call (Linux's are below 4096). *)
Definition get_errno {W} (env : environment W) : M W Z :=
  e ← ask env QErrno;
  mret (Z.of_N (e mod 4096)).

Definition string_of (b : bytes) : string := String.string_of_list_ascii b.

(** ** Tags come back *)

Lemma kind_of_num_spec n k : kind_of_num n = Some k <-> kind_num k = n.
Proof.
  split.
  - unfold kind_of_num. intros H. apply find_some in H as [_ H]. by apply Z.eqb_eq.
  - intros <-. by destruct k.
Qed.

Lemma tag_fields tag : tag_job tag = (tag / 2 ^ 32)%Z /\ tag_step tag = (tag mod 2 ^ 24 - 1)%Z /\
  tag_kind tag = kind_of_num ((tag / 2 ^ 24) mod 2 ^ 8).
Proof.
  unfold tag_job, tag_step, tag_kind. change 0xFFFFFF%Z with (Z.ones 24). change 0xFF%Z with (Z.ones 8).
  by rewrite !Z.land_ones, !Z.shiftr_div_pow2 by lia.
Qed.

(** A tag is what it is taken apart into. *)
Lemma tag_inj a b : tag_job a = tag_job b -> tag_kind a = tag_kind b -> is_Some (tag_kind a) ->
  tag_step a = tag_step b -> a = b.
Proof.
  destruct (tag_fields a) as (-> & -> & ->), (tag_fields b) as (-> & -> & ->). intros H1 H2 [k Hk] H3.
  assert (Hb : ((a / 2 ^ 24) mod 2 ^ 8 = (b / 2 ^ 24) mod 2 ^ 8)%Z).
  { rewrite Hk in H2. symmetry in H2. apply kind_of_num_spec in Hk, H2. congruence. }
  pose proof (Z.div_mod a (2 ^ 24) ltac:(lia)). pose proof (Z.div_mod b (2 ^ 24) ltac:(lia)).
  pose proof (Z.div_mod (a / 2 ^ 24) (2 ^ 8) ltac:(lia)). pose proof (Z.div_mod (b / 2 ^ 24) (2 ^ 8) ltac:(lia)).
  rewrite Z.div_div in * by lia. change (2 ^ 24 * 2 ^ 8)%Z with (2 ^ 32)%Z in *. lia.
Qed.

(** The three parts do not overlap. *)
Lemma tag_make_sum job kind step : (0 <= job < 2 ^ 32)%Z -> (-1 <= step <= 2 ^ 24 - 2)%Z ->
  tag_make job kind step = (job * 2 ^ 32 + kind_num kind * 2 ^ 24 + (step + 1))%Z.
Proof.
  intros Hj Hs. unfold tag_make. change 0xFFFFFF%Z with (Z.ones 24).
  rewrite !Z.shiftl_mul_pow2, Z.land_ones, (Z.mod_small (step + 1)), (Z.mod_small (job * 2 ^ 32)) by lia.
  assert (Hk : (0 <= kind_num kind < 8)%Z) by (by destruct kind).
  assert (Hd : forall x y n, (0 <= n)%Z -> (0 <= y < 2 ^ n)%Z -> Z.lor (x * 2 ^ n) y = (x * 2 ^ n + y)%Z).
  { intros x y n Hn Hy. symmetry. rewrite <- Z.shiftl_mul_pow2 by done. apply Z.add_nocarry_lor.
    apply Z.bits_inj'. intros i Hi. rewrite Z.bits_0, Z.land_spec. destruct (Z.lt_ge_cases i n).
    - by rewrite Z.shiftl_spec_low.
    - replace (Z.testbit y i) with false; [apply andb_false_r |]. symmetry.
      destruct (Z.eq_dec y 0%Z) as [->|]; [apply Z.bits_0 |]. apply Z.bits_above_log2; [lia |].
      apply Z.log2_lt_pow2; [lia |]. eapply Z.lt_le_trans; [apply Hy |]. apply Z.pow_le_mono_r; lia. }
  rewrite (Hd job (kind_num kind * 2 ^ 24) 32)%Z by lia.
  replace (job * 2 ^ 32 + kind_num kind * 2 ^ 24)%Z with ((job * 2 ^ 8 + kind_num kind) * 2 ^ 24)%Z by lia.
  by rewrite Hd by lia.
Qed.

(** An event tag gives back the job, the kind and the step it was made
    from, for every job index and step that fit; no two descriptors of a run can
    be taken for one another. *)
Theorem tag_round_trip job kind step : (0 <= job < 2 ^ 32)%Z -> (-1 <= step <= 2 ^ 24 - 2)%Z ->
  tag_job (tag_make job kind step) = job /\ tag_kind (tag_make job kind step) = Some kind /\
  tag_step (tag_make job kind step) = step /\ (0 <= tag_make job kind step < 2 ^ 64)%Z.
Proof.
  intros Hj Hs. assert (Hk : (0 <= kind_num kind < 8)%Z) by (by destruct kind).
  destruct (tag_fields (tag_make job kind step)) as (-> & -> & ->). rewrite tag_make_sum by done.
  set (low := (kind_num kind * 2 ^ 24 + (step + 1))%Z).
  assert (H24 : ((job * 2 ^ 32 + kind_num kind * 2 ^ 24 + (step + 1)) / 2 ^ 24 = job * 2 ^ 8 + kind_num kind)%Z).
  { symmetry. apply (Z.div_unique_pos _ _ _ (step + 1)); lia. }
  split_and!.
  - symmetry. apply (Z.div_unique_pos _ _ _ low); lia.
  - rewrite H24. apply kind_of_num_spec. apply (Z.mod_unique_pos _ _ job); lia.
  - rewrite <- (Z.mod_unique_pos _ (2 ^ 24) (job * 2 ^ 8 + kind_num kind) (step + 1)); lia.
  - lia.
  - lia.
Qed.

Lemma tag_round_trip_witness :
  tag_make 3 EV_GRACE_TIMER 7 = 0x304000008%Z /\
  tag_job (tag_make 3 EV_GRACE_TIMER 7) = 3%Z /\ tag_kind (tag_make 3 EV_GRACE_TIMER 7) = Some EV_GRACE_TIMER /\
  tag_step (tag_make 3 EV_GRACE_TIMER 7) = 7%Z /\ (0 <= tag_make 3 EV_GRACE_TIMER 7 < 2 ^ 64)%Z.
Proof. split; [reflexivity |]. apply tag_round_trip; lia. Defined.
