(* ===== verification/Jobs.v ===== *)
(** * Reading the jobs of a workflow

    Models [src/kernel/jobs.c]: the numbers a workflow gives (a Lua number is an
    IEEE double, [spec_float]; the cast [(long)v] outside the range of a long is
    [CUndef]) and [qwe_jobs_load], which turns the decoded [jobs:] table into the
    list the engine runs.  The table is given as the pairs [lua_next] yields, in
    whatever order; a field that [lua_tostring] makes nothing of is [None]. *)

From Stdlib Require Import Ascii String NArith ZArith Lia SpecFloat.
From stdpp Require Import base sets list strings numbers sorting.
From S2P Require Import Prelude Lifecycle Redact Result Job.

Open Scope nat_scope.
Open Scope list_scope.

(** ** Numbers *)

Definition prec : Z := 53.
Definition emax : Z := 1024.

(** A double: a mantissa of 53 bits (fewer only for the smallest numbers). *)
Definition is_double (v : spec_float) : Prop := valid_binary prec emax v = true.

Definition LONG_MAX : Z := 2 ^ 63 - 1.

Definition double_one : spec_float := S754_finite false 4503599627370496 (-52).
(** [(lua_Number)LONG_MAX] rounds to 2^63. *)
Definition double_long_max : spec_float := S754_finite false 4503599627370496 11.

(** [(long)v]: towards zero; undefined if the value does not fit. *)
Definition long_of_double (v : spec_float) : cres Z :=
  match v with
  | S754_zero _ => CRet 0%Z
  | S754_finite s m e =>
      let q := if (0 <=? e)%Z then (Zpos m * 2 ^ e)%Z else (Zpos m / 2 ^ (- e))%Z in
      let z := if s then (- q)%Z else q in
      if ((- 2 ^ 63 <=? z) && (z <=? LONG_MAX))%Z then CRet z else CUndef
  | _ => CUndef
  end.

Definition qwe_count_from_number (v : spec_float) : cres Z :=
  if negb (SFleb double_one v) then CRet 0%Z
  else if SFleb double_long_max v then CRet LONG_MAX
  else long_of_double v.

(** [QWE_TIMEOUT_MAX_SECONDS] and 1000.0. *)
Definition double_max_seconds : spec_float := S754_finite false 5195192441241600 (-33).
Definition double_1000 : spec_float := S754_finite false 8796093022208000 (-43).

(** [field]: the table's timeout-seconds, if it is a number. *)
Definition qwe_timeout_ms_at (field : option spec_float) : cres Z :=
  match field with
  | None => CRet 0%Z
  | Some s =>
      let s := if SFltb double_max_seconds s then double_max_seconds else s in
      if SFltb (S754_zero false) s
      then
        ms ← long_of_double (SFmul prec emax s double_1000);
        mret (if (ms <? 1)%Z then 1%Z else ms)
      else CRet 0%Z
  end.

(** ** The table *)

Record step_table := StepTable { tb_run : option string; tb_step : step_decl }.

Record job_table := JobTable {
  tb_target : option string;
  tb_timeout : option spec_float;
  tb_needs : option (list (option string));
  tb_steps : list step_table;
}.

(** [cmp_job]: the ids as [strcmp] orders them. *)
Definition cmp_job (a b : string * job_table) : Prop := String.leb (fst a) (fst b) = true.

#[export] Instance cmp_job_dec : RelDecision cmp_job.
Proof. intros a b. unfold cmp_job. apply _. Defined.

(** The first loop: one slot per job, grown by doubling, and its id copied. *)
Fixpoint load_ids (mem : list bool) (n cap : nat) (entries : list (string * job_table)) : list bool * bool :=
  match entries with
  | [] => (mem, true)
  | _ :: entries =>
      let '(grown, mem) := if n =? cap then alloc mem else (true, mem) in
      if negb grown then (mem, false)
      else
        let cap := if n =? cap then (if cap =? 0 then 8 else cap * 2) else cap in
        let '(ok, mem) := alloc mem in
        if negb ok then (mem, false) else load_ids mem (S n) cap entries
  end.

(** The needs, copied up to the first that is no string.  [None]: no memory. *)
Fixpoint load_needs (mem : list bool) (l : list (option string)) : list bool * option (list string * bool) :=
  match l with
  | [] => (mem, Some ([], false))
  | None :: _ => (mem, Some ([], true))
  | Some s :: l =>
      let '(ok, mem) := alloc mem in
      if negb ok then (mem, None)
      else
        match load_needs mem l with
        | (mem, Some (needs, bad)) => (mem, Some (s :: needs, bad))
        | (mem, None) => (mem, None)
        end
  end.

(** "a step needs run: or uses:" *)
Definition step_bad (t : step_table) : bool :=
  match tb_run t, sd_uses (tb_step t) with
  | None, None => true
  | _, _ => false
  end.

(** One job of the sorted list.  [None]: no memory. *)
Definition load_job (mem : list bool) (i : nat) (id : string) (t : job_table) :
    cres (list bool * option (job * bool)) :=
  let '(ok, mem) := alloc mem in
  if negb ok then mret (mem, None)
  else
    ms ← qwe_timeout_ms_at (tb_timeout t);
    let '(mem, needs) :=
      match tb_needs t with
      | None => (mem, Some ([], false))
      | Some l => let '(ok, mem) := alloc mem in if ok then load_needs mem l else (mem, None)
      end in
    mret
      match needs with
      | None => (mem, None)
      | Some (needs, bad) =>
          (mem, Some (job0 i id (default "local"%string (tb_target t)) needs (map tb_step (tb_steps t)) ms,
                      bad || existsb step_bad (tb_steps t)))
      end.

Fixpoint load_jobs (mem : list bool) (i : nat) (l : list (string * job_table)) : cres (option (list job * bool)) :=
  match l with
  | [] => mret (Some ([], false))
  | (id, t) :: l =>
      '(mem, r) ← load_job mem i id t;
      match r with
      | None => mret None
      | Some (j, bad) =>
          rest ← load_jobs mem (S i) l;
          mret match rest with
               | None => None
               | Some (jobs, bad') => Some (j :: jobs, bad || bad')
               end
      end
  end.

(** The jobs, or [None] after printing why not (-1). *)
Definition qwe_jobs_load (mem : list bool) (entries : list (string * job_table)) : cres (option (list job)) :=
  let '(mem, ok) := load_ids mem 0 0 entries in
  if negb ok then mret None
  else
    r ← load_jobs mem 0 (merge_sort cmp_job entries);
    mret match r with
         | Some (jobs, false) => Some jobs
         | _ => None
         end.

(** ** What the numbers mean *)

(** The value of [m * 2^e] is at least [k]. *)
Definition ge_scaled (m : Z) (e k : Z) : Prop :=
  if (0 <=? e)%Z then (k <= m * 2 ^ e)%Z else (k * 2 ^ (- e) <= m)%Z.

(** [v >= k], for [k] at least 1. *)
Definition at_least (v : spec_float) (k : Z) : Prop :=
  match v with
  | S754_infinity false => True
  | S754_finite false m e => ge_scaled (Zpos m) e k
  | _ => False
  end.

Definition positive_double (v : spec_float) : Prop :=
  match v with
  | S754_infinity false | S754_finite false _ _ => True
  | _ => False
  end.

Lemma digits2_bounds p : (2 ^ (Zpos (digits2_pos p) - 1) <= Zpos p < 2 ^ Zpos (digits2_pos p))%Z.
Proof.
  induction p as [p IH|p IH|]; cbn [digits2_pos]; [| | by split].
  all: rewrite Pos2Z.inj_succ; replace (Z.succ (Zpos (digits2_pos p)) - 1)%Z with (Zpos (digits2_pos p) - 1 + 1)%Z by lia;
    rewrite Z.pow_succ_r by lia; rewrite Z.pow_add_r by lia; lia.
Qed.

(** A double has 53 bits, unless it is among the smallest. *)
Lemma double_mantissa s m e : is_double (S754_finite s m e) ->
  (Zpos m < 2 ^ 53)%Z /\ (-1074 <= e)%Z /\ ((-1074 < e)%Z -> (2 ^ 52 <= Zpos m)%Z).
Proof.
  unfold is_double. cbn [valid_binary]. unfold bounded, canonical_mantissa, fexp, SpecFloat.emin, prec, emax.
  intros [H _]%andb_true_iff. apply Z.eqb_eq in H. pose proof (digits2_bounds m) as [H1 H2].
  set (d := Zpos (digits2_pos m)) in *. split_and!; [| lia |].
  - eapply Z.lt_le_trans; [exact H2 |]. apply Z.pow_le_mono_r; lia.
  - intros He. etrans; [| exact H1]. apply Z.pow_le_mono_r; lia.
Qed.

Lemma compare_cont_pos m n : Pos.compare_cont Eq m n = (Zpos m ?= Zpos n)%Z.
Proof. done. Qed.

(** The comparisons with the two constants. *)
Lemma one_le_double m e : is_double (S754_finite false m e) ->
  SFleb double_one (S754_finite false m e) = true <-> ge_scaled (Zpos m) e 1.
Proof.
  intros Hd. destruct (double_mantissa _ _ _ Hd) as (H1 & H2 & H3). unfold SFleb, double_one, SFcompare, ge_scaled.
  destruct (Z.compare_spec (-52) e) as [<-|Hlt|Hgt].
  - rewrite compare_cont_pos. destruct (Z.compare_spec 4503599627370496 (Zpos m)); cbn; split; done || lia.
  - split; [intros _ | done]. specialize (H3 ltac:(lia)). destruct (Z.leb_spec 0 e).
    + pose proof (Z.pow_pos_nonneg 2 e). lia.
    + rewrite Z.mul_1_l. etrans; [| exact H3]. apply Z.pow_le_mono_r; lia.
  - split; [done |]. intros Hg. exfalso. destruct (Z.leb_spec 0 e); [lia |].
    assert (2 ^ 53 <= 2 ^ (- e))%Z by (apply Z.pow_le_mono_r; lia). lia.
Qed.

Lemma long_max_le_double m e : is_double (S754_finite false m e) ->
  SFleb double_long_max (S754_finite false m e) = true <-> ge_scaled (Zpos m) e (2 ^ 63).
Proof.
  intros Hd. destruct (double_mantissa _ _ _ Hd) as (H1 & H2 & H3). unfold SFleb, double_long_max, SFcompare, ge_scaled.
  destruct (Z.compare_spec 11 e) as [<-|Hlt|Hgt].
  - rewrite compare_cont_pos. destruct (Z.compare_spec 4503599627370496 (Zpos m)); cbn; split; done || lia.
  - split; [intros _ | done]. specialize (H3 ltac:(lia)). destruct (Z.leb_spec 0 e); [| lia].
    assert (2 ^ 12 <= 2 ^ e)%Z by (apply Z.pow_le_mono_r; lia). nia.
  - split; [done |]. intros H; exfalso; destruct (Z.leb_spec 0 e).
    + assert (2 ^ e <= 2 ^ 10)%Z by (apply Z.pow_le_mono_r; lia). nia.
    + pose proof (Z.pow_pos_nonneg 2 (- e)). nia.
Qed.

Lemma ge_scaled_mono m e k k' : (k <= k')%Z -> ge_scaled m e k' -> ge_scaled m e k.
Proof.
  unfold ge_scaled. intros Hk. destruct (0 <=? e)%Z eqn:E; [lia |]. apply Z.leb_gt in E.
  pose proof (Z.pow_pos_nonneg 2 (- e)). nia.
Qed.

(** The cast of a double below 2^63. *)
Lemma long_of_double_floor m e : ~ ge_scaled (Zpos m) e (2 ^ 63) ->
  exists n, long_of_double (S754_finite false m e) = CRet n /\ (0 <= n <= LONG_MAX)%Z /\
    forall k, (k <= n)%Z <-> ge_scaled (Zpos m) e k.
Proof.
  unfold ge_scaled, long_of_double, LONG_MAX. intros H. destruct (Z.leb_spec 0 e).
  - pose proof (Z.pow_pos_nonneg 2 e). exists (Zpos m * 2 ^ e)%Z.
    destruct (Z.leb_spec (- 2 ^ 63) (Zpos m * 2 ^ e)); [| nia].
    destruct (Z.leb_spec (Zpos m * 2 ^ e) (2 ^ 63 - 1)); [| lia]. split; [done |]. split; [nia | done].
  - pose proof (Z.pow_pos_nonneg 2 (- e)) as Hp. exists (Zpos m / 2 ^ (- e))%Z.
    pose proof (Z.div_mod (Zpos m) (2 ^ (- e)) ltac:(lia)). pose proof (Z.mod_pos_bound (Zpos m) (2 ^ (- e)) ltac:(lia)).
    set (q := (Zpos m / 2 ^ (- e))%Z) in *. assert (0 <= q)%Z by (apply Z.div_pos; lia).
    destruct (Z.leb_spec (- 2 ^ 63) q); [| lia].
    destruct (Z.leb_spec q (2 ^ 63 - 1)); [| nia]. split; [done |]. split; [lia |]. intros k. split; nia.
Qed.

(** The count is the number's floor, kept inside a long. *)
Lemma count_exact v : is_double v ->
  exists n, qwe_count_from_number v = CRet n /\ (0 <= n <= LONG_MAX)%Z /\
    forall k, (1 <= k <= LONG_MAX)%Z -> (k <= n)%Z <-> at_least v k.
Proof.
  intros Hd. unfold qwe_count_from_number.
  destruct v as [s|s| |s m e].
  - exists 0%Z. split; [by destruct s |]. split; [by split |]. intros k Hk. cbn. split; [lia | done].
  - destruct s; [exists 0%Z | exists LONG_MAX]; (split; [done |]); (split; [by split |]); intros k Hk; cbn; split; lia || done.
  - exists 0%Z. split; [done |]. split; [by split |]. intros k Hk. cbn. split; [lia | done].
  - destruct s.
    { exists 0%Z. split; [done |]. split; [by split |]. intros k Hk. cbn. split; [lia | done]. }
    pose proof (one_le_double m e Hd) as H1. pose proof (long_max_le_double m e Hd) as H2. cbn [at_least].
    destruct (SFleb double_one _); cbn [negb].
    2:{ exists 0%Z. split; [done |]. split; [by split |]. intros k Hk. split; [lia |].
        intros H%(ge_scaled_mono _ _ 1); [by apply H1 in H | lia]. }
    destruct (SFleb double_long_max _).
    + exists LONG_MAX. split; [done |]. split; [by split |]. intros k Hk. split; [intros _ | lia].
      eapply ge_scaled_mono; [| by apply H2]. unfold LONG_MAX in Hk. lia.
    + destruct (long_of_double_floor m e) as (n & -> & Hn & Hk); [by intros H%H2 |].
      exists n. split; [done |]. split; [done |]. intros k _. apply Hk.
Qed.

(** A count the workflow gives as a number becomes the largest long that
    is not above it: at least [k] exactly when the number is, for every [k] from
    1 to LONG_MAX; 0 below 1 and for NaN; the cast is never out of range. *)
Theorem count_from_number_exact v : is_double v ->
  exists n, qwe_count_from_number v = CRet n /\ (0 <= n <= LONG_MAX)%Z /\
    forall k, (1 <= k <= LONG_MAX)%Z -> (k <= n)%Z <-> at_least v k.
Proof. apply count_exact. Qed.

(** 3.7, which is 0x1.d99999999999ap+1. *)
Lemma count_from_number_exact_witness :
  exists n, qwe_count_from_number (S754_finite false 8331659310635418 (-51)) = CRet n /\ (0 <= n <= LONG_MAX)%Z /\
    forall k, (1 <= k <= LONG_MAX)%Z -> (k <= n)%Z <-> at_least (S754_finite false 8331659310635418 (-51)) k.
Proof. apply count_from_number_exact. vm_compute. reflexivity. Defined.

(** ** The rounded product *)

Lemma shr_1_div r : (0 <= shr_m r)%Z -> shr_m (shr_1 r) = (shr_m r / 2)%Z.
Proof.
  destruct r as [[|p|p] r s]; cbn; [done | | lia]. intros _.
  destruct p as [p|p|]; cbn [shr_1 shr_m]; [| | done].
  - apply (Z.div_unique_pos _ _ _ 1%Z); lia.
  - apply (Z.div_unique_pos _ _ _ 0%Z); lia.
Qed.

Lemma iter_shr_div p r : (0 <= shr_m r)%Z -> shr_m (SpecFloat.iter_pos shr_1 p r) = (shr_m r / 2 ^ Zpos p)%Z.
Proof.
  revert r. induction p as [p IH|p IH|]; intros r Hr; cbn [SpecFloat.iter_pos].
  - assert (H1 : (0 <= shr_m (shr_1 r))%Z) by (rewrite shr_1_div by done; apply Z.div_pos; lia).
    assert (H2 : (0 <= shr_m (SpecFloat.iter_pos shr_1 p (shr_1 r)))%Z).
    { rewrite IH by done. apply Z.div_pos; [done |]. by apply Z.pow_pos_nonneg. }
    rewrite IH, IH, shr_1_div by done. rewrite !Z.div_div; [| lia ..].
    f_equal. replace (Zpos p~1) with (1 + (Zpos p + Zpos p))%Z by lia. rewrite !Z.pow_add_r by lia. lia.
  - assert (H2 : (0 <= shr_m (SpecFloat.iter_pos shr_1 p r))%Z).
    { rewrite IH by done. apply Z.div_pos; [done |]. by apply Z.pow_pos_nonneg. }
    rewrite IH, IH by done. rewrite Z.div_div by lia.
    f_equal. replace (Zpos p~0) with (Zpos p + Zpos p)%Z by lia. by rewrite Z.pow_add_r by lia.
  - by rewrite shr_1_div.
Qed.

(** Dropping bits: the mantissa is divided, the exponent goes up. *)
Lemma shr_fexp_spec m e : (0 <= m)%Z ->
  exists n, (0 <= n)%Z /\ snd (shr_fexp prec emax m e loc_Exact) = (e + n)%Z /\
    shr_m (fst (shr_fexp prec emax m e loc_Exact)) = (m / 2 ^ n)%Z /\
    (n = 0 \/ n = fexp prec emax (Zdigits2 m + e) - e)%Z /\ (fexp prec emax (Zdigits2 m + e) <= e + n)%Z.
Proof.
  intros Hm. unfold shr_fexp, shr. cbn [shr_record_of_loc]. set (n := (fexp _ _ _ - e)%Z).
  destruct n as [|p|p] eqn:E.
  - exists 0%Z. cbn. rewrite Z.div_1_r, Z.add_0_r. subst n. split_and!; auto; lia.
  - exists (Zpos p). cbn [fst snd]. rewrite iter_shr_div by done. cbn [shr_m]. subst n. split_and!; auto; lia.
  - exists 0%Z. cbn. rewrite Z.div_1_r, Z.add_0_r. subst n. split_and!; auto; lia.
Qed.

Lemma round_up_le m l : (0 <= m)%Z -> (m <= round_nearest_even m l <= m + 1)%Z.
Proof. intros H. unfold round_nearest_even. repeat case_match; lia. Qed.

Lemma Zdigits2_le m b : (0 <= m)%Z -> (0 <= b)%Z -> (m < 2 ^ b)%Z -> (Zdigits2 m <= b)%Z.
Proof.
  intros Hm Hb H. destruct m as [|p|p]; cbn; [lia | | lia]. pose proof (digits2_bounds p) as [H1 _].
  destruct (Z.le_gt_cases (Zpos (digits2_pos p)) b); [done |].
  assert (2 ^ b <= 2 ^ (Zpos (digits2_pos p) - 1))%Z by (apply Z.pow_le_mono_r; lia). lia.
Qed.

(** One shift of a value of at most [b], below 2^30, leaves a negative exponent. *)
Lemma shr_fexp_low m e b : (0 <= m)%Z -> (e <= -23)%Z -> (0 <= b < 2 ^ 30)%Z -> (m < (b + 1) * 2 ^ (- e))%Z ->
  exists n, (0 <= n)%Z /\ snd (shr_fexp prec emax m e loc_Exact) = (e + n)%Z /\
    shr_m (fst (shr_fexp prec emax m e loc_Exact)) = (m / 2 ^ n)%Z /\ (e + n <= -23)%Z.
Proof.
  intros Hm He Hb H. destruct (shr_fexp_spec m e Hm) as (n & H0 & H1 & H2 & H3 & _).
  exists n. split_and!; [done | done | done |]. destruct H3 as [->| ->]; [lia |].
  assert (Hp : (0 < 2 ^ (- e))%Z) by (apply Z.pow_pos_nonneg; lia).
  assert (Hd : (Zdigits2 m <= 30 - e)%Z).
  { apply Zdigits2_le; [done | lia |]. replace (30 - e)%Z with (30 + - e)%Z by lia. rewrite Z.pow_add_r by lia. nia. }
  unfold fexp, SpecFloat.emin, prec, emax. lia.
Qed.

(** Rounding a value of at most [b] gives one below [b + 1]. *)
Lemma round_low m e b : (0 <= m)%Z -> (e <= -23)%Z -> (0 <= b < 2 ^ 30)%Z -> (m <= b * 2 ^ (- e))%Z ->
  exists q, long_of_double (binary_round_aux prec emax false m e loc_Exact) = CRet q /\ (0 <= q <= b)%Z.
Proof.
  intros Hm He Hb H. assert (Hp : (0 < 2 ^ (- e))%Z) by (apply Z.pow_pos_nonneg; lia).
  destruct (shr_fexp_low m e b) as (n & N0 & N1 & N2 & N3); [done | done | done | nia |].
  unfold binary_round_aux. destruct (shr_fexp prec emax m e loc_Exact) as [r1 e1]. cbn [fst snd] in N1, N2. subst e1.
  assert (Hpn : (0 < 2 ^ n)%Z) by (apply Z.pow_pos_nonneg; lia).
  assert (Hq0 : (0 <= m / 2 ^ n)%Z) by (apply Z.div_pos; lia).
  pose proof (round_up_le (shr_m r1) (loc_of_shr_record r1) ltac:(lia)) as Hr.
  set (r := round_nearest_even _ _) in *. rewrite N2 in Hr.
  assert (Hq : (m / 2 ^ n <= b * 2 ^ (- (e + n)))%Z).
  { apply Z.div_le_upper_bound; [done |]. etrans; [exact H |].
    replace (- e)%Z with (- (e + n) + n)%Z by lia. rewrite Z.pow_add_r by lia. nia. }
  assert (Hp1 : (2 ^ 23 <= 2 ^ (- (e + n)))%Z) by (apply Z.pow_le_mono_r; lia).
  destruct (shr_fexp_low r (e + n) b) as (k & K0 & K1 & K2 & K3); [lia | done | done | nia |].
  destruct (shr_fexp prec emax r (e + n) loc_Exact) as [r2 e2]. cbn [fst snd] in K1, K2. subst e2. rewrite K2.
  assert (Hpk : (0 < 2 ^ k)%Z) by (apply Z.pow_pos_nonneg; lia).
  assert (Hm2 : (0 <= r / 2 ^ k < (b + 1) * 2 ^ (- (e + n + k)))%Z).
  { split; [apply Z.div_pos; lia |]. apply Z.div_lt_upper_bound; [done |].
    replace (- (e + n))%Z with (- (e + n + k) + k)%Z in Hq, Hp1 by lia. rewrite Z.pow_add_r in Hq, Hp1 by lia. nia. }
  destruct (r / 2 ^ k)%Z as [|p|p]; [exists 0%Z; by split; [| lia] | | lia].
  unfold emax, prec. destruct (Z.leb_spec (e + n + k) (1024 - 53)); [| lia].
  set (E := (e + n + k)%Z) in *. assert (HpE : (0 < 2 ^ (- E))%Z) by (apply Z.pow_pos_nonneg; lia).
  assert (Hqq : (0 <= Zpos p / 2 ^ (- E) <= b)%Z).
  { split; [apply Z.div_pos; lia |]. apply Z.lt_succ_r. apply Z.div_lt_upper_bound; [done |]. lia. }
  unfold long_of_double, LONG_MAX. destruct (Z.leb_spec 0 E); [lia |].
  exists (Zpos p / 2 ^ (- E))%Z. split; [| done].
  destruct (Z.leb_spec (- 2 ^ 63) (Zpos p / 2 ^ (- E))); [| lia].
  destruct (Z.leb_spec (Zpos p / 2 ^ (- E)) (2 ^ 63 - 1)); [done | lia].
Qed.

(** A timeout is 0 exactly when the workflow gives none (or nothing above
    zero, or NaN); any other is from one millisecond to the seven days the schema
    allows.  The product and its cast to a long are never out of range. *)
Theorem timeout_ms_bounds s : is_double s ->
  exists ms, qwe_timeout_ms_at (Some s) = CRet ms /\
    (positive_double s -> (1 <= ms <= 604800000)%Z) /\ (~ positive_double s -> ms = 0%Z).
Proof.
  intros Hd. unfold qwe_timeout_ms_at. set (c := if SFltb _ s then _ else s).
  assert (Hc : (exists m e, c = S754_finite false m e /\ positive_double s /\ (e <= -33)%Z /\ (Zpos m <= 604800 * 2 ^ (- e))%Z) \/
    (SFltb (S754_zero false) c = false /\ ~ positive_double s)).
  { subst c. destruct s as [[]|[]| |[] m e]; try (by right; split; [| intros []]).
    - left. exists 5195192441241600%positive, (-33)%Z. by split_and!.
    - destruct (double_mantissa _ _ _ Hd) as (H1 & H2 & _). left.
      unfold SFltb at 1, double_max_seconds at 1, SFcompare.
      destruct (Z.compare_spec (-33) e) as [<-|Hlt|Hgt].
      + rewrite compare_cont_pos. destruct (Z.compare_spec 5195192441241600 (Zpos m)) as [E|E|E].
        * exists m, (-33)%Z. split_and!; [done | done | lia | lia].
        * exists 5195192441241600%positive, (-33)%Z. by split_and!.
        * exists m, (-33)%Z. split_and!; [done | done | lia | lia].
      + exists 5195192441241600%positive, (-33)%Z. by split_and!.
      + exists m, e. split_and!; [done | done | lia |].
        assert (2 ^ 34 <= 2 ^ (- e))%Z by (apply Z.pow_le_mono_r; lia). lia. }
  destruct Hc as [(m & e & -> & Hpos & He & Hm)|[-> Hn]]; [| by exists 0%Z].
  change (SFltb (S754_zero false) (S754_finite false m e)) with true. cbv iota.
  change (SFmul prec emax (S754_finite false m e) double_1000)
    with (binary_round_aux prec emax false (Zpos (m * 8796093022208000)) (e + -43) loc_Exact).
  destruct (round_low (Zpos (m * 8796093022208000)) (e + -43) 604800000) as (q & -> & Hq); [lia | lia | lia | |].
  { replace (- (e + -43))%Z with (- e + 43)%Z by lia. rewrite Z.pow_add_r by lia. rewrite Pos2Z.inj_mul. lia. }
  cstep. eexists. split; [reflexivity |]. split; [intros _ | done]. destruct (Z.ltb_spec q 1); lia.
Qed.

(** A quarter of a second. *)
Lemma timeout_ms_bounds_witness :
  exists ms, qwe_timeout_ms_at (Some (S754_finite false 4503599627370496 (-54))) = CRet ms /\
    (positive_double (S754_finite false 4503599627370496 (-54)) -> (1 <= ms <= 604800000)%Z) /\
    (~ positive_double (S754_finite false 4503599627370496 (-54)) -> ms = 0%Z).
Proof. apply timeout_ms_bounds. vm_compute. reflexivity. Defined.

(** ** What loading promises *)

(** A table the engine can run: its needs are strings and every step has run:
    or uses:. *)
Definition table_runs (t : job_table) : Prop :=
  Forall is_Some (default [] (tb_needs t)) /\ Forall (fun s => step_bad s = false) (tb_steps t).

Definition timeout_double (t : job_table) : Prop :=
  match tb_timeout t with Some s => is_double s | None => True end.

(** The job made of a table: pending, with nothing started. *)
Definition job_of (i : nat) (id : string) (t : job_table) (j : job) : Prop :=
  exists ms, qwe_timeout_ms_at (tb_timeout t) = CRet ms /\
  j = job0 i id (default "local"%string (tb_target t)) (omap (fun x => x) (default [] (tb_needs t))) (map tb_step (tb_steps t)) ms.

Lemma timeout_total t : timeout_double t -> exists ms, qwe_timeout_ms_at (tb_timeout t) = CRet ms.
Proof.
  unfold timeout_double. destruct (tb_timeout t) as [s|]; [| by eexists].
  intros (ms & -> & _)%timeout_ms_bounds. by eexists.
Qed.

Lemma load_needs_ok mem l : exists mem' r, load_needs mem l = (mem', r) /\
  match r with
  | Some (needs, bad) => if bad then ~ Forall is_Some l else Forall is_Some l /\ needs = omap (fun x => x) l
  | None => mem <> []
  end /\ (mem = [] -> mem' = []).
Proof.
  revert mem. induction l as [|[s|] l IH]; intros mem; cbn [load_needs].
  - do 2 eexists. split; [reflexivity |]. split; [split; [constructor | done] | done].
  - destruct mem as [|b mem]; cbn [alloc]; [| destruct b; cbn [negb]].
    + destruct (IH []) as (mem' & r & -> & H1 & H2). destruct r as [[needs bad]|]; [| done].
      do 2 eexists. split; [reflexivity |]. split; [| done].
      destruct bad; [intros [_ H]%Forall_cons; done |]. destruct H1 as [H1 ->]. split; [by constructor | done].
    + destruct (IH mem) as (mem' & r & -> & H1 & H2). destruct r as [[needs bad]|].
      * do 2 eexists. split; [reflexivity |]. split; [| done].
        destruct bad; [intros [_ H]%Forall_cons; done |]. destruct H1 as [H1 ->]. split; [by constructor | done].
      * by do 2 eexists.
    + by do 2 eexists.
  - do 2 eexists. split; [reflexivity |]. split; [| done]. intros [[? [=]] _]%Forall_cons.
Qed.

Lemma existsb_steps l : existsb step_bad l = false <-> Forall (fun s => step_bad s = false) l.
Proof.
  induction l as [|s l IH]; cbn; [done |]. rewrite Forall_cons, orb_false_iff. by rewrite IH.
Qed.

Lemma load_job_ok mem i id t : timeout_double t ->
  exists mem' r, load_job mem i id t = CRet (mem', r) /\ (mem = [] -> mem' = []) /\
  match r with
  | Some (j, bad) => if bad then ~ table_runs t else table_runs t /\ job_of i id t j
  | None => mem <> []
  end.
Proof.
  intros (ms & Hms)%timeout_total. unfold load_job.
  assert (Hgo : forall mem0, (mem = [] -> mem0 = []) -> exists (mem' : list bool) (r : option (job * bool)),
    (ms ← qwe_timeout_ms_at (tb_timeout t);
     let '(mem, needs) :=
       match tb_needs t with
       | None => (mem0, Some ([] : list string, false))
       | Some l => let '(ok, mem) := alloc mem0 in if ok then load_needs mem l else (mem, None)
       end in
     mret
       match needs with
       | None => (mem, None)
       | Some (needs, bad) =>
           (mem, Some (job0 i id (default "local"%string (tb_target t)) needs (map tb_step (tb_steps t)) ms,
                       bad || existsb step_bad (tb_steps t)))
       end) = CRet (mem', r) /\ (mem = [] -> mem' = []) /\
    match r with
    | Some (j, bad) => if bad then ~ table_runs t else table_runs t /\ job_of i id t j
    | None => mem <> []
    end).
  { intros mem0 H0. rewrite Hms. cstep. unfold table_runs, job_of. rewrite Hms.
    assert (Hn : exists (mem' : list bool) (r : option (list string * bool)), match tb_needs t with
       | None => (mem0, Some ([] : list string, false))
       | Some l => let '(ok, mem) := alloc mem0 in if ok then load_needs mem l else (mem, None)
       end = (mem', r) /\ (mem = [] -> mem' = []) /\
       match r with
       | Some (needs, bad) => if bad : bool then ~ Forall is_Some (default [] (tb_needs t))
           else Forall is_Some (default [] (tb_needs t)) /\ needs = omap (fun x => x) (default [] (tb_needs t))
       | None => mem <> []
       end).
    { destruct (tb_needs t) as [l|]; cbn [default]; [| do 2 eexists; split; [reflexivity |]; split; [done | by split; [constructor |]]].
      destruct (alloc mem0) as [ok mem1] eqn:Ea.
      assert (H1 : mem = [] -> ok = true /\ mem1 = []) by (intros H%H0; subst mem0; by injection Ea).
      destruct ok; [| by do 2 eexists; split; [reflexivity |]; split; [intros; by apply H1 | intros H; by destruct (H1 H)]].
      destruct (load_needs_ok mem1 l) as (mem2 & r & -> & H2 & H3). do 2 eexists. split; [reflexivity |].
      split; [intros H; by apply H3, H1 |]. destruct r as [[needs bad]|]; [done |]. intros H. by destruct (H1 H). }
    destruct Hn as (mem' & r & -> & H1 & H2). destruct r as [[needs bad]|]; [| by do 2 eexists].
    do 2 eexists. split; [reflexivity |]. split; [done |].
    destruct bad; cbn [orb]; [by intros [] |]. destruct H2 as [H2 ->].
    destruct (existsb step_bad (tb_steps t)) eqn:E; [intros [_ H]; apply existsb_steps in H; congruence |].
    split; [split; [done | by apply existsb_steps] |]. by exists ms. }
  destruct (alloc mem) as [ok mem0] eqn:Ea. destruct ok; cbn [negb].
  - apply Hgo. intros ->. by injection Ea.
  - do 2 eexists. split; [reflexivity |]. split; [intros ->; by injection Ea | by intros ->].
Qed.

Lemma load_jobs_ok mem i l : Forall (fun p => timeout_double (snd p)) l ->
  exists r, load_jobs mem i l = CRet r /\
  match r with
  | Some (jobs, bad) =>
      if bad then ~ Forall (fun p => table_runs (snd p)) l
      else Forall (fun p => table_runs (snd p)) l /\
           length jobs = length l /\ forall k j p, jobs !! k = Some j -> l !! k = Some p -> job_of (i + k) (fst p) (snd p) j
  | None => mem <> []
  end.
Proof.
  revert mem i. induction l as [|[id t] l IH]; intros mem i Hl; cbn [load_jobs].
  { eexists. split; [reflexivity |]. split; [constructor |]. by split. }
  apply Forall_cons in Hl as [Ht Hl].
  destruct (load_job_ok mem i id t Ht) as (mem1 & r & -> & H1 & H2). cstep.
  destruct r as [[j bad]|]; [| by eexists].
  destruct (IH mem1 (S i) Hl) as (r & -> & H3). cstep. eexists. split; [reflexivity |].
  destruct r as [[jobs bad']|]; [| intros H; by apply H3, H1].
  destruct bad; cbn [orb]; [intros [? _]%Forall_cons; done |].
  destruct bad'; [intros [_ ?]%Forall_cons; done |].
  destruct H2 as [H4 H5], H3 as (H6 & H7 & H8). split; [by constructor |]. split; [cbn; lia |].
  intros [|k] j' p Hj Hp; cbn in Hj, Hp; simplify_eq; [by rewrite Nat.add_0_r |].
  rewrite <- Nat.add_succ_comm. by apply H8.
Qed.

Lemma load_ids_ok n cap entries : load_ids [] n cap entries = ([], true).
Proof.
  revert n cap. induction entries as [|e l IH]; intros n cap; cbn [load_ids]; [done |].
  destruct (n =? cap); cbn; apply IH.
Qed.

#[export] Instance cmp_job_total : Total cmp_job.
Proof. intros a b. unfold cmp_job. destruct (String.leb_total (fst a) (fst b)); auto. Qed.

(** [strcmp] orders strings. *)
Lemma ascii_compare_trans a b c x : Ascii.compare a b = x -> Ascii.compare b c = x -> Ascii.compare a c = x.
Proof.
  unfold Ascii.compare. destruct x; rewrite ?N.compare_eq_iff, ?N.compare_lt_iff, ?N.compare_gt_iff; lia.
Qed.

Lemma ascii_compare_refl a : Ascii.compare a a = Eq.
Proof. apply N.compare_refl. Qed.

Lemma string_leb_trans a b c : String.leb a b = true -> String.leb b c = true -> String.leb a c = true.
Proof.
  unfold String.leb. revert b c. induction a as [|x a IH]; intros [|y b] [|z c]; cbn; try done.
  assert (Heq : forall u v : ascii, Ascii.compare u v = Eq -> u = v) by (by intros u v ?%Ascii.compare_eq_iff).
  destruct (Ascii.compare x y) eqn:E1, (Ascii.compare y z) eqn:E2; try done.
  - apply Heq in E1, E2. subst. rewrite ascii_compare_refl. apply IH.
  - apply Heq in E1. subst. by rewrite E2.
  - apply Heq in E2. subst. by rewrite E1.
  - by rewrite (ascii_compare_trans _ _ _ _ E1 E2).
Qed.

#[export] Instance cmp_job_trans : Transitive cmp_job.
Proof. intros a b c. apply string_leb_trans. Qed.

Lemma jobs_load_ok mem entries :
  Forall (fun p => timeout_double (snd p)) entries ->
  exists r, qwe_jobs_load mem entries = CRet r /\
  (mem = [] -> is_Some r <-> Forall (fun p => table_runs (snd p)) entries) /\
  forall jobs, r = Some jobs -> Forall (fun p => table_runs (snd p)) entries /\
    exists sorted, sorted ≡ₚ entries /\ StronglySorted cmp_job sorted /\ length jobs = length sorted /\
      forall i j p, jobs !! i = Some j -> sorted !! i = Some p -> job_of i (fst p) (snd p) j.
Proof.
  intros Ht. unfold qwe_jobs_load. set (sorted := merge_sort cmp_job entries).
  assert (Hp : sorted ≡ₚ entries) by apply merge_sort_Permutation.
  destruct (load_ids mem 0 0 entries) as [mem1 ok] eqn:E.
  destruct ok; cbn [negb].
  2:{ eexists. split; [reflexivity |]. split; [| done]. intros ->. rewrite load_ids_ok in E. by injection E. }
  destruct (load_jobs_ok mem1 0 sorted) as (r & -> & Hr); [by rewrite Hp |]. cstep.
  eexists. split; [reflexivity |].
  destruct r as [[jobs [|]]|].
  - rewrite Hp in Hr. split; [| done]. intros _. split; [by intros [? [=]] | done].
  - destruct Hr as (H1 & H2 & H3). rewrite Hp in H1. split; [intros _; split; [done | by eexists] |]. intros jobs' [= <-].
    split; [done |]. exists sorted. split_and!; [done | by apply (StronglySorted_merge_sort cmp_job) | done | done].
  - split; [| done]. intros ->. rewrite load_ids_ok in E. by injection E as <-.
Qed.

(** Loading the jobs of a workflow returns for every table.  With memory it
    gives a list exactly when every job can be run (its needs are strings, every
    step has run: or uses:); a list it gives has every job of the table once, in
    the order of the ids, each as its table says, pending and at its index. *)
Theorem jobs_load_exact mem entries :
  Forall (fun p => timeout_double (snd p)) entries ->
  exists r, qwe_jobs_load mem entries = CRet r /\
  (mem = [] -> is_Some r <-> Forall (fun p => table_runs (snd p)) entries) /\
  forall jobs, r = Some jobs -> Forall (fun p => table_runs (snd p)) entries /\
    exists sorted, sorted ≡ₚ entries /\ StronglySorted cmp_job sorted /\ length jobs = length sorted /\
      forall i j p, jobs !! i = Some j -> sorted !! i = Some p -> job_of i (fst p) (snd p) j.
Proof. apply jobs_load_ok. Qed.

Definition sample_tables : list (string * job_table) :=
  [("test"%string, JobTable None None (Some [Some "build"%string]) [StepTable (Some "make test"%string) (StepDecl None None None false None)]);
   ("build"%string, JobTable (Some "pi"%string) (Some double_one) None [StepTable (Some "make"%string) (StepDecl None None None false None)])].

Lemma jobs_load_exact_witness :
  qwe_jobs_load [] sample_tables =
    CRet (Some [job0 0 "build" "pi" [] [StepDecl None None None false None] 1000;
                job0 1 "test" "local" ["build"%string] [StepDecl None None None false None] 0]) /\
  exists r, qwe_jobs_load [] sample_tables = CRet r /\
  ([] = ([] : list bool) -> is_Some r <-> Forall (fun p => table_runs (snd p)) sample_tables) /\
  forall jobs, r = Some jobs -> Forall (fun p => table_runs (snd p)) sample_tables /\
    exists sorted, sorted ≡ₚ sample_tables /\ StronglySorted cmp_job sorted /\ length jobs = length sorted /\
      forall i j p, jobs !! i = Some j -> sorted !! i = Some p -> job_of i (fst p) (snd p) j.
Proof.
  split; [vm_compute; reflexivity |]. apply jobs_load_exact.
  repeat apply Forall_cons_2; [exact I | vm_compute; reflexivity | apply Forall_nil_2].
Defined.
