(* ===== verification/Engine.v ===== *)
(** * The engine's work on one job

    Models the part of [src/kernel/workflow.c] that acts on a single job: its
    output pipe, its resources, its steps, and how an event goes through the
    stale filter and the lifecycle table.  Each function of the source is a
    definition of the same name, in the setting of [Job]. *)

From S2P Require Import Prelude Fmt Lifecycle Ring Redact Sink Trace Result Job.
From Stdlib Require Import Ascii NArith ZArith Lia.
From stdpp Require Import base sets list strings numbers pretty.

Definition CHUNK : nat := Z.to_nat 65536.
#[global] Arguments CHUNK : simpl never.

Definition RESULT_MAX : nat := 1024 * 1024.
#[global] Arguments RESULT_MAX : simpl never.

Definition SIGKILL : Z := 9.
Definition SIGTERM : Z := 15.

Section engine.
Context {W : Type} (env : environment W).

Abbreviation M := (M W).
Abbreviation ask := (ask env).

(** ** Output *)

Definition sink_write (data : bytes) : M unit :=
  ans ← ask QWrites;
  r ← get_run;
  x ← get_ctx;
  '(s, w) ← lift (qwe_sink_write (rn_sink r) (Files (rn_log r) (x_term x) ans) data);
  mod_run (fun r => r <| rn_sink := s |> <| rn_log := f_log w |>);;
  mod_ctx (fun x => x <| x_term := f_term w |>).

(** The loop that empties the ring into the sink. *)
Fixpoint emit_loop (fuel : nat) : M unit :=
  match fuel with
  | 0 => lift CFuel
  | S fuel =>
      r ← get_run;
      '(ring, out) ← lift (qwe_ring_read (rn_ring r) CHUNK);
      mod_run (fun r => r <| rn_ring := ring |>);;
      if length out =? 0 then mret tt
      else sink_write out;; emit_loop fuel
  end.

Definition alarm_text (dropped : N) : bytes :=
  bytes_of "qwe: ALARM: ring overflow, " ++ dec (Z.of_N dropped) ++ bytes_of " bytes dropped" ++ [NL].

Definition emit (data : bytes) : M unit :=
  r ← get_run;
  let before := r_dropped (rn_ring r) in
  ring ← lift (qwe_ring_write (rn_ring r) data);
  mod_run (fun r => r <| rn_ring := ring |>);;
  emit_loop (S (r_len ring));;
  r ← get_run;
  if (r_dropped (rn_ring r) =? before)%N then mret tt
  else
    alarm ← lift (qwe_xfmt 96 (alarm_text (r_dropped (rn_ring r))));
    sink_write alarm.

(** The reads of one [drain], in order; it stops when one would block. *)
Fixpoint drain_reads (reads : list read_result) : M bool :=
  match reads with
  | [] => mret false
  | RIntr :: reads => drain_reads reads
  | RData [] :: _ => mret true
  | RData data :: reads =>
      mem ← ask QAllocations;
      r ← get_run;
      x ← get_ctx;
      '(_, red, safe, ok) ← lift (qwe_redact_feed (ss_set (x_set x)) mem (rn_red r) (take CHUNK data) (Buf [] 0));
      mod_run (fun r => r <| rn_red := red |>);;
      when (ok && (0 <? length (b_data safe))) (emit (b_data safe));;
      drain_reads reads
  end.

(** Returns whether the pipe's end was reached. *)
Definition drain : M bool :=
  r ← get_run;
  reads ← ask (QReadOutput (rn_pid r));
  drain_reads reads.

Definition drain_flush : M unit :=
  mem ← ask QAllocations;
  r ← get_run;
  '(_, red, safe, ok) ← lift (qwe_redact_flush mem (rn_red r) (Buf [] 0));
  mod_run (fun r => r <| rn_red := red |>);;
  when (ok && (0 <? length (b_data safe))) (emit (b_data safe)).

(** One block of the result pipe. *)
Definition take_result (data : bytes) : M unit :=
  r ← get_run;
  let want := length (rn_res_buf r) + length data in
  if RESULT_MAX <? want then mod_run (fun r => r <| rn_res_overflow := true |>)
  else if rn_res_cap r <? want
  then
    cap ← lift (grow want (if rn_res_cap r =? 0 then 1024 else rn_res_cap r * 2) want);
    ok ← ask QMemory;
    if (ok : bool)
    then mod_run (fun r => r <| rn_res_buf := rn_res_buf r ++ data |> <| rn_res_cap := cap |>)
    else mod_run (fun r => r <| rn_res_overflow := true |>)
  else mod_run (fun r => r <| rn_res_buf := rn_res_buf r ++ data |>).

Fixpoint drain_result_reads (reads : list read_result) : M bool :=
  match reads with
  | [] => mret false
  | RIntr :: reads => drain_result_reads reads
  | RData [] :: _ => mret true
  | RData data :: reads =>
      take_result (take 4096 data);;
      drain_result_reads reads
  end.

Definition drain_result : M bool :=
  r ← get_run;
  reads ← ask (QReadResult (rn_pid r));
  drain_result_reads reads.

(** ** Watching descriptors *)

Definition ev_add (kind : evkind) (step : Z) : M unit :=
  j ← get_job;
  mod_ctx (fun x => x <| x_interest := tag_make (Z.of_nat (jb_index j)) kind step :: x_interest x |>).

Definition ev_del (kind : evkind) (step : Z) : M unit :=
  j ← get_job;
  mod_ctx (fun x => x <| x_interest :=
    filter (fun t => t <> tag_make (Z.of_nat (jb_index j)) kind step) (x_interest x) |>).

(** ** Small helpers *)

Definition poll_cancel : M bool :=
  got ← ask QCancelSignal;
  mod_ctx (fun x => x <| x_cancel := x_cancel x || got |>);;
  x ← get_ctx;
  mret (x_cancel x).

(** Writes one trace record. *)
Definition trace_record (step : Z) (state : qwe_lc_state) (event : string) (next : option string)
    (kind : string) (reason detail : option string) : M unit :=
  now ← mono_now_ns env;
  ans ← ask QTraceWrite;
  j ← get_job;
  x ← get_ctx;
  t ← lift (qwe_trace_record (Some (ts_of now)) ans (x_trace x) (Some (jb_id j)) step state event next kind
              reason detail);
  mod_ctx (fun x => x <| x_trace := t |>).

(** The step's declaration, read from the job's table. *)
Definition step_at (i : nat) : M step_decl :=
  j ← get_job;
  lift (cread (jb_decl j) i).

Definition step_coe (i : nat) : M bool :=
  d ← step_at i;
  mret (sd_coe d).

Definition step_id (i : nat) : M (option string) :=
  d ← step_at i;
  mret (sd_id d).

Definition step_name (i : nat) : M (option string) :=
  d ← step_at i;
  mret (sd_name d).

Definition step_plugin (i : nat) : M string :=
  d ← step_at i;
  mret (default "run"%string (sd_uses d)).

Definition owe_start_failed (op : string) (err : Z) : M unit :=
  mod_run (fun r => r <| rn_fail_op := Some op |> <| rn_fail_errno := err |>
                      <| rn_followup := Some QWE_LC_EV_START_FAILED |>).

(** Milliseconds, never negative; the division truncates towards zero. *)
Definition mono_diff_ms (start_ns end_ns : Z) : Z :=
  let ms := Z.quot (end_ns - start_ns) 1000000 in
  if (ms <? 0)%Z then 0%Z else ms.

(** [job->steps[i]]: undefined without the array or outside it. *)
Definition get_step (i : nat) : M qwe_step_result :=
  j ← get_job;
  match jb_steps j with
  | Some l => lift (cread l i)
  | None => undefined
  end.

Definition set_step (i : nat) (s : qwe_step_result) : M unit :=
  j ← get_job;
  match jb_steps j with
  | Some l => l ← lift (cwrite l i s); mod_job (fun j => j <| jb_steps := Some l |>)
  | None => undefined
  end.

(** ** A job's resources *)

Definition job_release : M unit :=
  r ← get_run;
  when (rn_timer_ok r)
    (ev_del EV_JOB_TIMER (-1);;
     mod_run (fun r => r <| rn_timer := qwe_timer_close (rn_timer r) |> <| rn_timer_ok := false |>));;
  r ← get_run;
  when (rn_sink_ok r)
    (ans ← ask QWrites;
     x ← get_ctx;
     w ← lift (qwe_sink_close (rn_sink r) (Files (rn_log r) (x_term x) ans));
     mod_ctx (fun x => x <| x_term := f_term w |>);;
     mod_run (fun r => r <| rn_log := f_log w |> <| rn_sink := Sink "" [] 0 |> <| rn_sink_ok := false |>));;
  r ← get_run;
  when (rn_ring_ok r)
    (mod_job (fun j => j <| jb_dropped := r_dropped (rn_ring r) |>);;
     mod_run (fun r => r <| rn_ring := qwe_ring_free (rn_ring r) |> <| rn_red := qwe_redactor_free (rn_red r) |>
                         <| rn_ring_ok := false |>));;
  mod_run (fun r => r <| rn_step_target := None |> <| rn_step_token := None |> <| rn_out_path := None |>
                      <| rn_step_json := None |> <| rn_res_buf := [] |> <| rn_res_cap := 0 |>).

(** A block of [cap] bytes, whatever was in it. *)
Definition block (cap : nat) (mem : bytes) : bytes := take cap (mem ++ replicate cap "000"%char).

Definition open_ring : M (option string) :=
  mem ← ask QRingMem;
  let '(ring, rc) := qwe_ring_init (block QWE_RING_CAPACITY <$> mem) QWE_RING_CAPACITY in
  mod_run (fun r => r <| rn_ring := ring |>);;
  if (rc <? 0)%Z then mret (Some "ring"%string)
  else mod_run (fun r => r <| rn_ring_ok := true |>);; mret None.

Definition open_sink : M (option string) :=
  mem ← ask QMemory;
  opened ← ask QLogOpen;
  j ← get_job;
  x ← get_ctx;
  s ← lift (qwe_sink_open mem opened (jb_id j) (x_run_dir x));
  match s with
  | None => mret (Some "log"%string)
  | Some (sink, log) =>
      mod_run (fun r => r <| rn_sink := sink |> <| rn_log := log |> <| rn_sink_ok := true |>);; mret None
  end.

Definition open_timer : M (option string) :=
  ok ← ask QTimerCreate;
  let '(t, rc) := qwe_timer_open ok in
  mod_run (fun r => r <| rn_timer := t |>);;
  if (rc <? 0)%Z then mret (Some "timer"%string)
  else mod_run (fun r => r <| rn_timer_ok := true |>);; mret None.

(** [if (!op) ...] *)
Definition or_else (op : option string) (m : M (option string)) : M (option string) :=
  match op with
  | Some op => mret (Some op)
  | None => m
  end.

Definition job_start : M unit :=
  op ← open_ring;
  op ← or_else op open_sink;
  op ← or_else op open_timer;
  match op with
  | Some op =>
      err ← get_errno env;
      job_release;;
      owe_start_failed op err
  | None =>
      t ← ask QTime;
      now ← mono_now_ns env;
      mod_job (fun j => j <| jb_started := t |> <| jb_mono_start := now |>
                          <| jb_steps := Some (replicate (jb_nsteps j) step_result0) |>);;
      j ← get_job;
      when (0 <? jb_timeout_ms j)%Z
        (now ← mono_now_ns env;
         mod_run (fun r => r <| rn_timer := fst (qwe_timer_arm now (rn_timer r) (jb_timeout_ms j)) |>));;
      ev_add EV_JOB_TIMER (-1)
  end.

(** ** Steps *)

Definition step_token_text (run_id job : string) (cur : nat) : string :=
  (run_id ++ "." ++ job ++ "." ++ pretty (Z.of_nat cur))%string.

Definition out_path_text (dir job : string) (cur : nat) : string :=
  (dir ++ "/" ++ job ++ "." ++ pretty (Z.of_nat cur) ++ ".output")%string.

(** The step's timeout in milliseconds, or -1. *)
Definition resolve_step : M Z :=
  j ← get_job;
  x ← get_ctx;
  ok ← ask QMemory;
  mod_run (fun r => r <| rn_step_target := None |>
    <| rn_step_token := if (ok : bool) then Some (step_token_text (x_run_id x) (jb_id j) (rn_cur r)) else None |>);;
  r ← get_run;
  res ← ask (QResolve (jb_id j) (rn_cur r) (rn_out_path r) (rn_step_token r));
  match res with
  | None => mret (-1)%Z
  | Some rs =>
      mod_ctx (fun x => x <| x_set := foldl qwe_redact_add (x_set x) (rs_secrets rs) |>);;
      mod_run (fun r => r <| rn_step_target := rs_target rs |> <| rn_step_uses := rs_uses rs |>);;
      mret (Z.of_N (rs_timeout_ms rs))
  end.

(** The step's stored outputs ([json]: what [qwe.template.store] gave back). *)
Definition store_outputs (json : option bytes) : M unit :=
  match json with
  | Some b => mod_run (fun r => r <| rn_step_json := Some b |>)
  | None => mret tt
  end.

Definition collect_file_outputs : M unit :=
  r ← get_run;
  match rn_out_path r with
  | None => mret tt
  | Some path =>
      got ← ask (QTakeOutput path);
      match got with
      | Some json => store_outputs json
      | None => mret tt
      end
  end.

(** Whether [backend.ssh.<fn>] on the live step's target said yes (result 0). *)
Definition ssh_call (fn : string) (args : list string) : M bool :=
  r ← get_run;
  match rn_step_target r with
  | Some t => ask (QSsh fn t args)
  | None => undefined (* lua_pushstring(L, NULL) pushes nil; never called so *)
  end.

Definition remote_unreachable : M bool :=
  r ← get_run;
  match rn_step_target r with
  | Some _ => ssh_call "unreachable" []
  | None => mret false
  end.

Definition remote_kill (signal : string) : M unit :=
  r ← get_run;
  match rn_step_target r, rn_step_token r, rn_leader_reaped r with
  | Some _, Some token, false => ssh_call "kill" [token; signal];; mret tt
  | _, _, _ => mret tt
  end.

(** [waitpid]'s status: exited (with its code) or killed. *)
Definition wifexited (status : Z) : bool := (Z.land status 0x7F =? 0)%Z.
Definition wexitstatus (status : Z) : Z := Z.shiftr (Z.land status 0xFF00) 8.

Definition remote_lost (status : Z) : M bool :=
  r ← get_run;
  match rn_step_target r with
  | Some _ =>
      if negb (wifexited status) || negb (wexitstatus status =? 255)%Z then mret false
      else alive ← ssh_call "alive" []; mret (negb alive)
  | None => mret false
  end.

(** [remote_ensure] at a spawn: the operation that failed, if it was refused. *)
Definition ensure_target (target : string) : M (option (string * Z)) :=
  gone ← remote_unreachable;
  if (gone : bool) then mret None
  else
    res ← ask (QEnsure target);
    match res with
    | EnsureRefused => mret (Some ("ssh-master"%string, 111%Z)) (* ECONNREFUSED *)
    | EnsureOk | EnsureUnreachable => mret None
    end.

(** The chain that makes the output file, the two timers and the process. *)
Definition spawn_chain : M (option (string * Z)) :=
  r ← get_run;
  made ← match rn_out_path r with Some p => ask (QOutputFile p) | None => mret true end;
  if negb made then err ← get_errno env; mret (Some ("output-file"%string, err))
  else
    ok1 ← ask QTimerCreate;
    let '(t1, rc1) := qwe_timer_open ok1 in
    mod_run (fun r => r <| rn_step_timer := t1 |>);;
    if (rc1 <? 0)%Z then err ← get_errno env; mret (Some ("timer"%string, err))
    else
      ok2 ← ask QTimerCreate;
      let '(t2, rc2) := qwe_timer_open ok2 in
      mod_run (fun r => r <| rn_grace_timer := t2 |>);;
      if (rc2 <? 0)%Z
      then
        err ← get_errno env;
        mod_run (fun r => r <| rn_step_timer := qwe_timer_close (rn_step_timer r) |>);;
        mret (Some ("timer"%string, err))
      else
        j ← get_job;
        res ← ask (QSpawn (jb_id j) (rn_cur r));
        match res with
        | inl pid => mod_run (fun r => r <| rn_pid := pid |>);; mret None
        | inr op =>
            err ← get_errno env;
            mod_run (fun r => r <| rn_step_timer := qwe_timer_close (rn_step_timer r) |>
                                <| rn_grace_timer := qwe_timer_close (rn_grace_timer r) |>);;
            mret (Some (op, err))
        end.

Definition step_spawn : M unit :=
  r ← get_run;
  s ← get_step (rn_cur r);
  id ← step_id (rn_cur r);
  name ← step_name (rn_cur r);
  plugin ← step_plugin (rn_cur r);
  set_step (rn_cur r) (s <| sr_id := id |> <| sr_name := name |> <| sr_plugin := Some plugin |>);;
  ok ← ask QMemory;
  j ← get_job;
  x ← get_ctx;
  mod_run (fun r => r <| rn_step_json := None |>
    <| rn_out_path := if (ok : bool) then Some (out_path_text (x_run_dir_abs x) (jb_id j) (rn_cur r)) else None |>);;
  ms ← resolve_step;
  let op := if (ms <? 0)%Z then Some ("template"%string, 22%Z) else None in (* EINVAL *)
  let step_ms := if (ms <? 0)%Z then 0%Z else ms in
  t ← ask QTime;
  now ← mono_now_ns env;
  s ← get_step (rn_cur r);
  set_step (rn_cur r) (s <| sr_started := t |>);;
  mod_run (fun r => r <| rn_step_mono_start := now |> <| rn_live_step := Z.of_nat (rn_cur r) |>
    <| rn_leader_reaped := false |> <| rn_res_buf := [] |> <| rn_res_overflow := false |>
    <| rn_step_changed := true |> <| rn_step_unreachable := false |>);;
  r ← get_run;
  op ← match op, rn_step_target r with
       | None, Some target => ensure_target target
       | _, _ => mret op
       end;
  match op, rn_step_target r with
  | None, Some _ =>
      gone ← remote_unreachable;
      mod_run (fun r => r <| rn_step_unreachable := gone |>)
  | _, _ => mret tt
  end;;
  op ← match op with Some op => mret (Some op) | None => spawn_chain end;
  match op with
  | Some (op, err) => owe_start_failed op err
  | None =>
      when (0 <? step_ms)%Z
        (now ← mono_now_ns env;
         mod_run (fun r => r <| rn_step_timer := fst (qwe_timer_arm now (rn_step_timer r) step_ms) |>));;
      r ← get_run;
      ev_add EV_OUT (rn_live_step r);;
      ev_add EV_RESULT (rn_live_step r);;
      ev_add EV_STEP_TIMER (rn_live_step r);;
      ev_add EV_GRACE_TIMER (rn_live_step r);;
      mod_run (fun r => r <| rn_proc_ok := true |>)
  end.

(** The live step's slot, [steps[live_step]]. *)
Definition step_finish : M unit :=
  r ← get_run;
  if (rn_live_step r <? 0)%Z then mret tt
  else
    let i := Z.to_nat (rn_live_step r) in
    s ← get_step i;
    when (sr_duration_ms s <? 0)%Z
      (now ← mono_now_ns env;
       set_step i (s <| sr_duration_ms := mono_diff_ms (rn_step_mono_start r) now |>));;
    when (rn_proc_ok r)
      (drain;;
       drain_flush;;
       ev_del EV_OUT (rn_live_step r);;
       ev_del EV_RESULT (rn_live_step r);;
       ev_del EV_STEP_TIMER (rn_live_step r);;
       ev_del EV_GRACE_TIMER (rn_live_step r);;
       mod_run (fun r => r <| rn_step_timer := qwe_timer_close (rn_step_timer r) |>
                           <| rn_grace_timer := qwe_timer_close (rn_grace_timer r) |>
                           <| rn_proc_ok := false |>));;
    mod_run (fun r => r <| rn_step_target := None |> <| rn_step_token := None |>
                        <| rn_cur := S (rn_cur r) |> <| rn_live_step := (-1)%Z |>).

Definition record_step (res : qwe_lc_result) : M unit :=
  r ← get_run;
  s ← get_step (rn_cur r);
  t ← ask QTime;
  set_step (rn_cur r) (s <| sr_ended := t |> <| sr_changed := rn_step_changed r |>
    <| sr_outputs_json := rn_step_json r |> <| sr_outcome := Some (qwe_lc_step_outcome res) |>
    <| sr_reason := r_reason res |>);;
  mod_run (fun r => r <| rn_step_json := None |>).

(** [for (i = r->cur; i < job->nsteps; i++)], [n] turns from [i] on. *)
Fixpoint skip_steps (i n : nat) : M unit :=
  match n with
  | 0 => mret tt
  | S n =>
      s ← get_step i;
      id ← step_id i;
      name ← step_name i;
      plugin ← step_plugin i;
      set_step i (s <| sr_id := id |> <| sr_name := name |> <| sr_plugin := Some plugin |>
                    <| sr_outcome := Some "skipped"%string |>);;
      skip_steps (S i) n
  end.

Definition job_end : M unit :=
  step_finish;;
  j ← get_job;
  match jb_steps j with
  | None => mret tt
  | Some _ =>
      t ← ask QTime;
      now ← mono_now_ns env;
      mod_job (fun j => j <| jb_ended := t |> <| jb_duration_ms := mono_diff_ms (jb_mono_start j) now |>);;
      skip_steps (rn_cur (jb_run j)) (jb_nsteps j - rn_cur (jb_run j))
  end;;
  job_release.

Definition kill_group (signal : Z) : M unit :=
  r ← get_run;
  ask (QKill (rn_pid r) signal).

Definition apply_action (a : qwe_lc_action) (res : qwe_lc_result) : M unit :=
  match a with
  | QWE_LC_ACT_NONE => mret tt
  | QWE_LC_ACT_START_JOB => job_start
  | QWE_LC_ACT_SPAWN_STEP => step_spawn
  | QWE_LC_ACT_SIGTERM_GROUP => remote_kill "TERM";; kill_group SIGTERM
  | QWE_LC_ACT_ARM_GRACE =>
      now ← mono_now_ns env;
      x ← get_ctx;
      mod_run (fun r => r <| rn_grace_timer := fst (qwe_timer_arm now (rn_grace_timer r) (x_grace_ms x)) |>)
  | QWE_LC_ACT_SIGKILL_GROUP => remote_kill "KILL";; kill_group SIGKILL
  | QWE_LC_ACT_RECORD_STEP => record_step res
  | QWE_LC_ACT_RECORD_JOB => mod_job (fun j => j <| jb_reason := r_reason res |>)
  | QWE_LC_ACT_END_JOB => job_end
  end.

Fixpoint apply_actions (l : list qwe_lc_action) (res : qwe_lc_result) : M unit :=
  match l with
  | [] => mret tt
  | a :: l => apply_action a res;; apply_actions l res
  end.

(** ** Events *)

(** The step a trace record shows. *)
Definition shown_step (j : job) : Z :=
  let r := jb_run j in
  if (0 <=? rn_live_step r)%Z then rn_live_step r
  else match jb_steps j with
       | Some _ => if rn_cur r <? jb_nsteps j then Z.of_nat (rn_cur r) else (-1)%Z
       | None => (-1)%Z
       end.

(** The record's detail, in 96 bytes. *)
Definition start_failed_detail (r : job_run) : cres string :=
  name ← qwe_errno_name (rn_fail_errno r);
  mret (string_of (qwe_msg 96 (bytes_of "op=" ++ bytes_of (default "?"%string (rn_fail_op r)) ++
                               bytes_of " errno=" ++ name))).

Definition dispatch_one (ev : qwe_lc_event) (pl : qwe_lc_payload) (ev_step : Z) : M unit :=
  j ← get_job;
  let from := jb_state j in
  let shown := shown_step j in
  let evname := qwe_lc_event_name ev in
  x ← get_ctx;
  when (tr_debug (x_trace x)) (trace_record shown from evname None "event" None None);;
  if qwe_lc_event_is_stale from ev ev_step (rn_live_step (jb_run j))
  then trace_record shown from evname (Some (qwe_lc_state_name from)) "stale" None None
  else
    when (bool_decide (ev = QWE_LC_EV_CANCEL)) (mod_run (fun r => r <| rn_cancel_told := true |>));;
    when (bool_decide (ev = QWE_LC_EV_JOB_TIMEOUT)) (mod_run (fun r => r <| rn_timeout_told := true |>));;
    r ← get_run;
    let pl := Payload (p_coe pl) (p_reason pl) (rn_last_reason r) in
    match qwe_lc_lookup from ev (Some pl) with
    | inr _ => abort
    | inl res =>
        detail ← (if bool_decide (ev = QWE_LC_EV_START_FAILED)
                  then d ← lift (start_failed_detail r); mret (Some d) else mret None);
        trace_record shown from evname (Some (qwe_lc_state_name (r_next res)))
          (if bool_decide (r_kind res = QWE_LC_IGNORE) then "ignore" else "transition") (r_reason res) detail;;
        mod_job (fun j => j <| jb_state := r_next res |>);;
        when (bool_decide (is_Some (r_reason res))) (mod_run (fun r => r <| rn_last_reason := r_reason res |>));;
        when (bool_decide (ev = QWE_LC_EV_GROUP_EMPTY)) step_finish;;
        apply_actions (r_actions res) res
    end.

(** What the job is owed while no step is live, and the payload's flag. *)
Definition between_steps_event : M (qwe_lc_event * bool) :=
  r ← get_run;
  cancelled ← (if rn_cancel_told r then mret false else poll_cancel);
  if (cancelled : bool) then mret (QWE_LC_EV_CANCEL, false)
  else
    expired ← (if rn_timer_ok r && negb (rn_timeout_told r)
               then
                 now ← mono_now_ns env;
                 let '(t, b) := qwe_timer_expired now (rn_timer r) in
                 mod_run (fun r => r <| rn_timer := t |>);; mret b
               else mret false);
    if (expired : bool) then mret (QWE_LC_EV_JOB_TIMEOUT, false)
    else
      j ← get_job;
      if rn_cur r <? jb_nsteps j
      then coe ← step_coe (rn_cur r); mret (QWE_LC_EV_NEXT_STEP, coe)
      else mret (QWE_LC_EV_NO_MORE_STEPS, false).

Definition plain_payload : qwe_lc_payload := Payload false None None.

(** The loop of [job_send]. *)
Fixpoint send_owed (fuel : nat) : M unit :=
  match fuel with
  | 0 => lift CFuel
  | S fuel =>
      j ← get_job;
      match rn_followup (jb_run j) with
      | Some ev =>
          mod_run (fun r => r <| rn_followup := None |>);;
          dispatch_one ev plain_payload (-1);;
          send_owed fuel
      | None =>
          if bool_decide (jb_state j = QWE_LC_BETWEEN_STEPS)
          then
            '(ev, coe) ← between_steps_event;
            dispatch_one ev (Payload coe None None) (-1);;
            send_owed fuel
          else mret tt
      end
  end.

(** Two events at most are owed after one (see [job_send_ok]). *)
Definition job_send (ev : qwe_lc_event) (pl : qwe_lc_payload) (ev_step : Z) : M unit :=
  dispatch_one ev pl ev_step;;
  send_owed 3.

Definition job_send_plain (ev : qwe_lc_event) (ev_step : Z) : M unit :=
  job_send ev plain_payload ev_step.

(** ** A step's leader ends *)

Inductive msg_status := MSG_NONE | MSG_EXEC | MSG_OK | MSG_FAILED.

Record step_msg := StepMsg { sm_status : msg_status; sm_reason : option string; sm_changed : bool }.

(** What a plugin may give as its reason. *)
Definition known_reason (s : string) : string :=
  if decide (s = "not-converged"%string) then "not-converged"
  else if decide (s = "become-denied"%string) then "become-denied"
  else if decide (s = "engine-error"%string) then "engine-error"
  else "plugin-error".

Definition status_of (s : string) : msg_status :=
  if decide (s = "exec"%string) then MSG_EXEC
  else if decide (s = "ok"%string) then MSG_OK
  else if decide (s = "failed"%string) then MSG_FAILED
  else MSG_NONE.

Definition read_step_msg : M step_msg :=
  r ← get_run;
  if (length (rn_res_buf r) =? 0) || rn_res_overflow r then mret (StepMsg MSG_NONE None true)
  else
    d ← ask (QDecode (rn_res_buf r));
    match d with
    | None => mret (StepMsg MSG_NONE None true)
    | Some d =>
        let status := status_of (default ""%string (dm_status d)) in
        match status, dm_outputs d with
        | MSG_OK, Some json => store_outputs json
        | _, _ => mret tt
        end;;
        mret (StepMsg status (Some (known_reason (default ""%string (dm_reason d))))
                (default true (dm_changed d)))
    end.

(** The event and the payload's reason. *)
Definition leader_exit_event (status : Z) : M (qwe_lc_event * option string) :=
  let exited_ok := wifexited status && (wexitstatus status =? 0)%Z in
  let by_exit := if exited_ok then QWE_LC_EV_LEADER_EXIT_OK else QWE_LC_EV_LEADER_EXIT_FAIL in
  mod_run (fun r => r <| rn_step_changed := true |>);;
  r ← get_run;
  if negb (rn_step_uses r)
  then
    drain_result;;
    m ← read_step_msg;
    collect_file_outputs;;
    match sm_status m with
    | MSG_FAILED =>
        mod_run (fun r => r <| rn_step_changed := sm_changed m |>);;
        mret (QWE_LC_EV_LEADER_EXIT_FAIL, sm_reason m)
    | _ =>
        if rn_step_unreachable r && wifexited status && (wexitstatus status =? 255)%Z
        then mret (by_exit, Some "unreachable"%string)
        else
          lost ← remote_lost status;
          mret (by_exit, Some (if (lost : bool) then "connection-lost"%string else "exit-code"%string))
    end
  else
    drain_result;;
    m ← read_step_msg;
    match sm_status m with
    | MSG_EXEC => mret (by_exit, Some "exit-code"%string)
    | MSG_NONE => mret (QWE_LC_EV_LEADER_EXIT_FAIL, Some "plugin-error"%string)
    | MSG_OK =>
        mod_run (fun r => r <| rn_step_changed := sm_changed m |>);;
        mret (if exited_ok then (QWE_LC_EV_LEADER_EXIT_OK, Some "exit-code"%string)
              else (QWE_LC_EV_LEADER_EXIT_FAIL, Some "plugin-error"%string))
    | MSG_FAILED =>
        mod_run (fun r => r <| rn_step_changed := sm_changed m |>);;
        mret (QWE_LC_EV_LEADER_EXIT_FAIL, sm_reason m)
    end.

(** The part of [reap_children] for the job whose leader this is.  The payload
    is an argument of the same call that fills it in, so whether the call sees
    its reason or the initial one depends on the order of evaluation. *)
Definition leader_exited (status : Z) : M unit :=
  mod_run (fun r => r <| rn_leader_reaped := true |>);;
  '(ev, reason) ← leader_exit_event status;
  filled ← ask QArgumentOrder;
  r ← get_run;
  job_send ev (Payload false (if (filled : bool) then reason else Some "exit-code"%string) None) (rn_live_step r).

(** ** One epoll event *)

Definition job_event (kind : evkind) (step : Z) : M unit :=
  r ← get_run;
  let live := (step =? rn_live_step r)%Z && rn_proc_ok r in
  match kind with
  | EV_OUT =>
      when live (eof ← drain; when eof (ev_del EV_OUT step))
  | EV_RESULT =>
      when live (eof ← drain_result; when eof (ev_del EV_RESULT step))
  | EV_STEP_TIMER =>
      fire ← (if live
              then
                now ← mono_now_ns env;
                let '(t, b) := qwe_timer_expired now (rn_step_timer r) in
                mod_run (fun r => r <| rn_step_timer := t |>);; mret b
              else mret true);
      when fire (job_send_plain QWE_LC_EV_STEP_TIMEOUT step)
  | EV_GRACE_TIMER =>
      fire ← (if live
              then
                now ← mono_now_ns env;
                let '(t, b) := qwe_timer_expired now (rn_grace_timer r) in
                mod_run (fun r => r <| rn_grace_timer := t |>);; mret b
              else mret true);
      when fire (job_send_plain QWE_LC_EV_GRACE_EXPIRED step)
  | EV_JOB_TIMER =>
      fire ← (if rn_timer_ok r
              then if rn_timeout_told r then mret false
                   else
                     now ← mono_now_ns env;
                     let '(t, b) := qwe_timer_expired now (rn_timer r) in
                     mod_run (fun r => r <| rn_timer := t |>);; mret b
              else mret true);
      when fire (job_send_plain QWE_LC_EV_JOB_TIMEOUT (-1))
  | EV_CHILD | EV_CANCEL => mret tt
  end.

End engine.
