(* ===== verification/EngineOk.v ===== *)
(** * The engine keeps its promises on one job

    A weakest-precondition calculus for the computations of [Job], the invariant
    of a job between two events, and the proof that every event the engine can
    deliver is one the lifecycle table accepts, stays inside every array and
    keeps the invariant. *)

From S2P Require Import Prelude Fmt Lifecycle Ring Redact Sink Trace Result Job Engine.
From Stdlib Require Import Ascii NArith ZArith Lia.
From stdpp Require Import base sets list strings numbers pretty.

(** ** Weakest preconditions *)

(** The computation returns, and what it returns satisfies [Q]. *)
Definition wp {W A} (m : M W A) (Q : A -> st W -> Prop) (s : st W) : Prop :=
  match m s with
  | CRet (a, s') => Q a s'
  | _ => False
  end.

Section wp.
Context {W : Type}.
Implicit Types s : st W.

Lemma wp_mono {A} (m : M W A) (Q Q' : A -> st W -> Prop) s :
  wp m Q s -> (forall a s', Q a s' -> Q' a s') -> wp m Q' s.
Proof. unfold wp. destruct (m s) as [[a s']| | |]; eauto. Qed.

Lemma wp_ret {A} (a : A) (Q : A -> st W -> Prop) s : Q a s -> wp (mret a) Q s.
Proof. done. Qed.

Lemma wp_bind {A B} (m : M W A) (k : A -> M W B) Q s :
  wp m (fun a s' => wp (k a) Q s') s -> wp (m ≫= k) Q s.
Proof. unfold wp, mbind, M_bind. destruct (m s) as [[a s']| | |]; eauto. Qed.

Lemma wp_ask {A} (env : environment W) (q : query A) Q s :
  (forall a w, Q a (St (s_job s) ((s_ctx s) <| x_env := w |>))) -> wp (ask env q) Q s.
Proof. unfold wp, ask. intros H. destruct (env A q _) as [a w]. apply H. Qed.

Lemma wp_lift {A} (c : cres A) a (Q : A -> st W -> Prop) s : c = CRet a -> Q a s -> wp (lift c) Q s.
Proof. by intros ->. Qed.

Lemma wp_get_job (Q : job -> st W -> Prop) s : Q (s_job s) s -> wp get_job Q s.
Proof. done. Qed.
Lemma wp_get_run (Q : job_run -> st W -> Prop) s : Q (jb_run (s_job s)) s -> wp get_run Q s.
Proof. done. Qed.
Lemma wp_get_ctx (Q : ctx W -> st W -> Prop) s : Q (s_ctx s) s -> wp get_ctx Q s.
Proof. done. Qed.
Lemma wp_mod_job f (Q : unit -> st W -> Prop) s : Q tt (St (f (s_job s)) (s_ctx s)) -> wp (mod_job f) Q s.
Proof. done. Qed.
Lemma wp_mod_run f (Q : unit -> st W -> Prop) s :
  Q tt (St ((s_job s) <| jb_run := f (jb_run (s_job s)) |>) (s_ctx s)) -> wp (mod_run f) Q s.
Proof. done. Qed.
Lemma wp_mod_ctx f (Q : unit -> st W -> Prop) s : Q tt (St (s_job s) (f (s_ctx s))) -> wp (mod_ctx f) Q s.
Proof. done. Qed.

Lemma wp_when b (m : M W unit) Q s :
  (b = true -> wp m Q s) -> (b = false -> Q tt s) -> wp (when b m) Q s.
Proof. intros H1 H2. destruct b; [by apply H1 | by apply H2]. Qed.

Lemma wp_if {A} (b : bool) (m n : M W A) Q s :
  (b = true -> wp m Q s) -> (b = false -> wp n Q s) -> wp (if b then m else n) Q s.
Proof. destruct b; auto. Qed.
End wp.

(** One step of a computation that needs no decision. *)
Ltac wp1 :=
  lazymatch goal with
  | |- wp (_ ≫= _) _ _ => apply wp_bind
  | |- wp (mret _) _ _ => apply wp_ret
  | |- wp (ask _ _) _ _ => apply wp_ask; intros ? ?
  | |- wp get_job _ _ => apply wp_get_job
  | |- wp get_run _ _ => apply wp_get_run
  | |- wp get_ctx _ _ => apply wp_get_ctx
  | |- wp (mod_job _) _ _ => apply wp_mod_job
  | |- wp (mod_run _) _ _ => apply wp_mod_run
  | |- wp (mod_ctx _) _ _ => apply wp_mod_ctx
  end; cbn [s_job s_ctx setf].

Ltac wps := repeat wp1.

(** A pure result that is known. *)
Ltac wplift E := eapply wp_lift; [exact E |]; cbv beta iota.

(** ** What an operation leaves alone *)

(** The fields that decide how a job goes on. *)
Record same_job (j j' : job) : Prop := {
  sm_index : jb_index j' = jb_index j;
  sm_id : jb_id j' = jb_id j;
  sm_target : jb_target j' = jb_target j;
  sm_decl : jb_decl j' = jb_decl j;
  sm_needs : jb_needs j' = jb_needs j;
  sm_timeout : jb_timeout_ms j' = jb_timeout_ms j;
  sm_detail : jb_detail j' = jb_detail j;
}.

Record same_control (j j' : job) : Prop := {
  sc_job : same_job j j';
  sc_state : jb_state j' = jb_state j;
  sc_steps : jb_steps j' = jb_steps j;
  sc_timer : rn_timer (jb_run j') = rn_timer (jb_run j);
  sc_step_timer : rn_step_timer (jb_run j') = rn_step_timer (jb_run j);
  sc_grace_timer : rn_grace_timer (jb_run j') = rn_grace_timer (jb_run j);
  sc_ring_ok : rn_ring_ok (jb_run j') = rn_ring_ok (jb_run j);
  sc_sink_ok : rn_sink_ok (jb_run j') = rn_sink_ok (jb_run j);
  sc_timer_ok : rn_timer_ok (jb_run j') = rn_timer_ok (jb_run j);
  sc_proc_ok : rn_proc_ok (jb_run j') = rn_proc_ok (jb_run j);
  sc_leader_reaped : rn_leader_reaped (jb_run j') = rn_leader_reaped (jb_run j);
  sc_timeout_told : rn_timeout_told (jb_run j') = rn_timeout_told (jb_run j);
  sc_cancel_told : rn_cancel_told (jb_run j') = rn_cancel_told (jb_run j);
  sc_cur : rn_cur (jb_run j') = rn_cur (jb_run j);
  sc_live_step : rn_live_step (jb_run j') = rn_live_step (jb_run j);
  sc_followup : rn_followup (jb_run j') = rn_followup (jb_run j);
  sc_errno : rn_fail_errno (jb_run j') = rn_fail_errno (jb_run j);
}.

(** The context moves on: time does not run backwards, a cancel stays
    requested, and what is configured stays. *)
Record ctx_on {W} (x x' : ctx W) : Prop := {
  co_clock : (x_clock x <= x_clock x')%Z;
  co_cancel : x_cancel x = true -> x_cancel x' = true;
}.

(** Follows from what is known of the contexts on the way. *)
Ltac ctx_solve :=
  repeat match goal with
  | H : ctx_on _ _ |- _ => destruct H as [? ?]
  end;
  constructor; cbn [x_clock x_cancel setf s_ctx] in *; [lia | auto].

#[export] Instance same_job_po : PreOrder same_job.
Proof. split; [by constructor |]. intros a b c [] []. constructor; congruence. Qed.

#[export] Instance same_control_po : PreOrder same_control.
Proof.
  split; [by constructor |]. intros a b c [] []. constructor; try congruence. by etrans.
Qed.

#[export] Instance ctx_on_po W : PreOrder (@ctx_on W).
Proof. split; [by constructor |]. intros a b c [] []. constructor; [lia | auto]. Qed.

(** ** The job's buffers *)

Record data_ok (r : job_run) : Prop := {
  do_ring : ring_wf (rn_ring r);
  do_sink : sink_wf (rn_sink r);
}.

Section data.
Context {W : Type} (env : environment W).

(** A sink writes within its line buffer whatever [write] answers. *)
Lemma emit_line_total s w : exists s' w', emit_line s w = CRet (s', w') /\ sk_line_cap s' = sk_line_cap s /\ sk_line s' = [].
Proof.
  unfold emit_line. rewrite qwe_xfmt_fits by apply prefix_fits. cstep.
  destruct (write_all _ _ _) as [ans term]. by do 2 eexists.
Qed.

Lemma sink_bytes_total p s w : sink_wf s -> exists s' w', sink_bytes s w p = CRet (s', w') /\ sink_wf s'.
Proof.
  revert s w. induction p as [|c p IH]; intros s w Hwf; cbn [sink_bytes]; [by do 2 eexists |].
  destruct (decide (c = NL)).
  - destruct (emit_line_total s w) as (s1 & w1 & -> & Hc & Hl). cstep. apply IH.
    unfold sink_wf. rewrite Hl. simpl. lia.
  - set (cap := if length (sk_line s) =? sk_line_cap s then _ else _).
    assert (Hlt : length (sk_line s) < cap).
    { subst cap. unfold sink_wf in Hwf. destruct (Nat.eqb_spec (length (sk_line s)) (sk_line_cap s)); [| lia].
      destruct (Nat.eqb_spec (sk_line_cap s) 0) as [E|]; [rewrite E in *; lia | lia]. }
    destruct (Nat.ltb_spec (length (sk_line s)) cap); [| lia].
    apply IH. unfold sink_wf. cbn [sk_line sk_line_cap]. rewrite length_app. simpl. lia.
Qed.

Lemma sink_write_total s w data : sink_wf s -> exists s' w', qwe_sink_write s w data = CRet (s', w') /\ sink_wf s'.
Proof. intros. unfold qwe_sink_write. destruct (write_all _ _ _). by apply sink_bytes_total. Qed.

Lemma sink_close_total s w : exists w', qwe_sink_close s w = CRet w'.
Proof.
  unfold qwe_sink_close. destruct (_ <? _); [| by eexists].
  destruct (emit_line_total s w) as (s1 & w1 & -> & _). by eexists.
Qed.

(** A redactor always returns. *)
Lemma buf_add_total mem b src : exists mem' b' ok, buf_add mem b src = CRet (mem', b', ok).
Proof.
  unfold buf_add. destruct (_ <? _); [| by do 3 eexists].
  destruct (grow_enough (b_cap b) (length (b_data b) + length src)) as (cap & -> & _). cstep.
  destruct (alloc mem) as [[] mem']; by do 3 eexists.
Qed.

Lemma scan_total set fuel mem r p out : length p <= fuel ->
  exists mem' r' out' ok, scan set fuel mem r p out = CRet (mem', r', out', ok).
Proof.
  revert mem p out. induction fuel as [|fuel IH]; intros mem p out Hf.
  { destruct p; [by do 4 eexists | simpl in Hf; lia]. }
  destruct p as [|c p]; [by do 4 eexists |]. cbn [scan].
  destruct (Nat.eqb_spec (match_at set (c :: p)) 0) as [Hm|Hm]; cbn [negb].
  - destruct (could_start set (c :: p)).
    + destruct (_ <? _); [| by do 4 eexists]. destruct (alloc mem) as [[] mem']; by do 4 eexists.
    + destruct (buf_add_total mem out [c]) as (mem' & out' & [] & ->); cstep; [| by do 4 eexists].
      apply IH. simpl in Hf. lia.
  - destruct (buf_add_total mem out MASK) as (mem' & out' & [] & ->); cstep; [| by do 4 eexists].
    apply IH. rewrite length_drop. lia.
Qed.

Lemma feed_total set mem r data out :
  exists mem' r' out' ok, qwe_redact_feed set mem r data out = CRet (mem', r', out', ok).
Proof.
  unfold qwe_redact_feed. destruct (_ && _).
  - destruct (buf_add_total mem out data) as (mem' & out' & ok & ->). by do 4 eexists.
  - destruct (alloc mem) as [[] mem']; cbn [negb]; [| by do 4 eexists]. by apply scan_total.
Qed.

Lemma flush_total mem r out :
  exists mem' r' out' ok, qwe_redact_flush mem r out = CRet (mem', r', out', ok).
Proof.
  unfold qwe_redact_flush. destruct (_ =? _); [by do 4 eexists |].
  destruct (buf_add_total mem out (rd_held r)) as (mem' & out' & ok & ->). by do 4 eexists.
Qed.

(** What the output operations promise: they return, touch only the job's
    buffers, and keep them in order. *)
Definition output_ok {A} (m : M W A) : Prop :=
  forall s : st W, data_ok (jb_run (s_job s)) ->
  wp m (fun _ s' => same_control (s_job s) (s_job s') /\ ctx_on (s_ctx s) (s_ctx s') /\
    data_ok (jb_run (s_job s'))) s.

Lemma output_bind {A B} (m : M W A) (k : A -> M W B) :
  output_ok m -> (forall a, output_ok (k a)) -> output_ok (m ≫= k).
Proof.
  intros Hm Hk s Hd. apply wp_bind. eapply wp_mono; [by apply Hm |]. intros a s1 (H1 & H2 & H3).
  eapply wp_mono; [by apply Hk |]. intros b s2 (H4 & H5 & H6). split_and!; [by etrans | by etrans | done].
Qed.

Lemma output_ret {A} (a : A) : output_ok (mret a).
Proof. intros s Hd. by apply wp_ret. Qed.

Lemma output_ask {A} (q : query A) : output_ok (ask env q).
Proof. intros s Hd. apply wp_ask. intros a w. split; [done |]. split; [by constructor | done]. Qed.

Lemma output_when b (m : M W unit) : output_ok m -> output_ok (when b m).
Proof. intros Hm. destruct b; [done | apply output_ret]. Qed.

Lemma sink_write_ring data s : data_ok (jb_run (s_job s)) ->
  wp (Engine.sink_write env data) (fun _ s' => same_control (s_job s) (s_job s') /\ ctx_on (s_ctx s) (s_ctx s') /\
    data_ok (jb_run (s_job s')) /\ rn_ring (jb_run (s_job s')) = rn_ring (jb_run (s_job s))) s.
Proof.
  intros [Hr Hs]. unfold Engine.sink_write. wps.
  destruct (sink_write_total (rn_sink (jb_run (s_job s)))
    (Files (rn_log (jb_run (s_job s))) (x_term (s_ctx s)) a) data Hs) as (s' & w' & E & Hwf).
  wplift E. wps. split; [by constructor |]. split; [by constructor |]. split; [by constructor | done].
Qed.

Lemma job_sink_write_ok data : output_ok (Engine.sink_write env data).
Proof. intros s Hd. eapply wp_mono; [by apply sink_write_ring |]. by intros _ s' (? & ? & ? & _). Qed.
Lemma CHUNK_pos : 0 < CHUNK.
Proof. unfold CHUNK. lia. Qed.
#[global] Opaque CHUNK.

Lemma emit_loop_ok fuel s : data_ok (jb_run (s_job s)) -> r_len (rn_ring (jb_run (s_job s))) < fuel ->
  wp (emit_loop env fuel) (fun _ s' => same_control (s_job s) (s_job s') /\ ctx_on (s_ctx s) (s_ctx s') /\
    data_ok (jb_run (s_job s'))) s.
Proof.
  revert s. induction fuel as [|fuel IH]; intros s Hd Hl; [lia |]. cbn [emit_loop]. wps.
  pose proof Hd as [Hr Hs].
  destruct (ring_read_ok (rn_ring (jb_run (s_job s))) CHUNK Hr) as (ring & E & Hwf & Hcap & Hc & Hdr).
  wplift E. wps.
  pose proof (content_length _ Hr) as Hcl. pose proof (content_length _ Hwf) as Hcl'.
  rewrite Hc, length_drop in Hcl'. pose proof CHUNK_pos.
  apply wp_if; intros Hz.
  - wps. split; [by constructor |]. split; [by constructor |]. by constructor.
  - apply Nat.eqb_neq in Hz. rewrite length_take in Hz.
    wps. eapply wp_mono; [apply sink_write_ring; by constructor |]. intros _ s1 (H1 & H2 & H3 & H4).
    eapply wp_mono; [apply IH; [done |]|].
    + rewrite H4. cbn [rn_ring jb_run s_job setf]. lia.
    + intros _ s2 (H5 & H6 & H7). split_and!; [| by etrans | done]. etrans; [| exact H5].
      etrans; [| exact H1]. by constructor.
Qed.

Lemma alarm_fits ring : ring_wf ring -> length (alarm_text (r_dropped ring)) < 96.
Proof.
  intros [_ _ _ _ Hd]. unfold alarm_text. rewrite !length_app, !length_bytes_of.
  destruct (dec_digits 20 (Z.of_N (r_dropped ring))) as [_ Hl]; [lia | unfold w64 in Hd; simpl; lia |]. simpl. lia.
Qed.

Lemma emit_ok data : output_ok (emit env data).
Proof.
  intros s Hd. unfold emit. wps. pose proof Hd as [Hr Hs].
  destruct (ring_write_ok (rn_ring (jb_run (s_job s))) data Hr) as (ring & E & Hwf & _).
  wplift E. wps. eapply wp_mono; [apply emit_loop_ok; [by constructor | cbn [rn_ring jb_run s_job setf]; lia] |].
  intros _ s1 (H1 & H2 & H3). wps.
  assert (H0 : same_control (s_job s) (s_job s1)) by (etrans; [| exact H1]; by constructor).
  apply wp_if; intros _; [by wps |]. wps.
  eapply wp_lift; [apply qwe_xfmt_fits, alarm_fits, H3 |].
  eapply wp_mono; [by apply job_sink_write_ok |]. intros _ s2 (H4 & H5 & H6).
  split_and!; [by etrans | by etrans | done].
Qed.

Lemma drain_reads_ok reads : output_ok (drain_reads env reads).
Proof.
  induction reads as [|[[|c data]|] reads IH]; cbn [drain_reads]; [apply output_ret | apply output_ret | | done].
  intros s Hd. wps.
  destruct (feed_total (ss_set (x_set (s_ctx s))) a (rn_red (jb_run (s_job s))) (take CHUNK (c :: data)) (Buf [] 0))
    as (mem & red & safe & ok & E).
  wplift E. wps. pose proof Hd as [Hr Hs].
  eapply wp_mono; [apply output_when; [apply emit_ok | by constructor] |]. intros _ s1 (H1 & H2 & H3).
  eapply wp_mono; [by apply IH |]. intros b s2 (H4 & H5 & H6).
  split_and!; [| | done].
  - etrans; [| exact H4]. etrans; [| exact H1]. by constructor.
  - etrans; [| exact H5]. etrans; [| exact H2]. by constructor.
Qed.

Lemma drain_ok : output_ok (drain env).
Proof.
  intros s Hd. unfold drain. wps. eapply wp_mono; [by apply drain_reads_ok |].
  intros b s1 (H1 & H2 & H3). split_and!; [done | | done]. etrans; [| exact H2]. by constructor.
Qed.

Lemma drain_flush_ok : output_ok (drain_flush env).
Proof.
  intros s Hd. unfold drain_flush. wps.
  destruct (flush_total a (rn_red (jb_run (s_job s))) (Buf [] 0)) as (mem & red & safe & ok & E).
  wplift E. wps. pose proof Hd as [Hr Hs].
  eapply wp_mono; [apply output_when; [apply emit_ok | by constructor] |]. intros _ s1 (H1 & H2 & H3).
  split_and!; [| | done]; (etrans; [| done]); by constructor.
Qed.

Lemma take_result_ok data : output_ok (take_result env data).
Proof.
  intros s Hd. unfold take_result. wps. pose proof Hd as [Hr Hs].
  apply wp_if; intros H1; [wps; split; [by constructor |]; split; by constructor |].
  apply wp_if; intros H2; [| wps; split; [by constructor |]; split; by constructor]. wps.
  set (want := _ + _). set (c0 := if _ =? 0 then _ else _).
  destruct (grow_ok want c0 want) as (cap & E & _).
  { subst c0. destruct (Nat.eqb_spec (rn_res_cap (jb_run (s_job s))) 0); lia. }
  { subst c0. pose proof (Nat.pow_gt_lin_r 2 want). destruct (Nat.eqb_spec (rn_res_cap (jb_run (s_job s))) 0); nia. }
  wplift E. wps.
  apply wp_if; intros _; wps; (split; [by constructor |]); split; by constructor.
Qed.

Lemma drain_result_ok : output_ok (drain_result env).
Proof.
  assert (H : forall reads, output_ok (drain_result_reads env reads)).
  { induction reads as [|[[|c data]|] reads IH]; cbn [drain_result_reads]; [apply output_ret | apply output_ret | | done].
    apply output_bind; [apply take_result_ok | done]. }
  intros s Hd. unfold drain_result. wps. eapply wp_mono; [by apply H |].
  intros b s1 (H1 & H2 & H3). split_and!; [done | | done]. etrans; [| exact H2]. by constructor.
Qed.

End data.

(** ** The invariant of a job *)

(** A timer that has been read and has fired is not pending. *)
Definition timer_sane (t : qwe_timer) : Prop := t_fired t = true -> deadline_of t = None.

(** Steps can be told apart in an event tag. *)
Definition small (j : job) : Prop := (Z.of_nat (jb_nsteps j) < 2 ^ 24 - 1)%Z.

Definition idle (j : job) : Prop := rn_live_step (jb_run j) = (-1)%Z /\ rn_proc_ok (jb_run j) = false.

(** No resource of its own is held. *)
Record released (j : job) : Prop := {
  re_timer_ok : rn_timer_ok (jb_run j) = false;
  re_sink_ok : rn_sink_ok (jb_run j) = false;
  re_ring_ok : rn_ring_ok (jb_run j) = false;
  re_timer : t_fd (rn_timer (jb_run j)) = None;
}.

Record unstarted (j : job) : Prop := {
  un_steps : jb_steps j = None;
  un_idle : idle j;
  un_released : released j;
  un_cur : rn_cur (jb_run j) = 0;
}.

(** The first [n] steps have their outcome. *)
Definition outcomes (j : job) (n : nat) : Prop :=
  forall l i s, jb_steps j = Some l -> l !! i = Some s -> i < n -> is_Some (sr_outcome s).

Record started (j : job) : Prop := {
  sa_steps : exists l, jb_steps j = Some l /\ length l = jb_nsteps j;
  sa_timer_ok : rn_timer_ok (jb_run j) = true;
  sa_sink_ok : rn_sink_ok (jb_run j) = true;
  sa_ring_ok : rn_ring_ok (jb_run j) = true;
  sa_data : data_ok (jb_run j);
  sa_outcomes : outcomes j (rn_cur (jb_run j));
}.

(** Between two steps. *)
Record between (j : job) : Prop := {
  be_started : started j;
  be_idle : idle j;
  be_cur : rn_cur (jb_run j) <= jb_nsteps j;
}.

(** A step is in flight, its process perhaps not started. *)
Record in_flight (j : job) : Prop := {
  fl_started : started j;
  fl_live : rn_live_step (jb_run j) = Z.of_nat (rn_cur (jb_run j));
  fl_cur : rn_cur (jb_run j) < jb_nsteps j;
}.

Definition stopping (s : qwe_lc_state) : bool :=
  match s with
  | QWE_LC_STEP_STOPPING | QWE_LC_STEP_STOPPING_COE | QWE_LC_STEP_KILLING | QWE_LC_STEP_KILLING_COE => true
  | _ => false
  end.

(** The step runs and nothing has been done to stop it. *)
Definition undisturbed (s : qwe_lc_state) : bool :=
  match s with QWE_LC_STEP_RUNNING | QWE_LC_STEP_RUNNING_COE => true | _ => false end.

Definition cancel_timeout (s : qwe_lc_state) : bool :=
  match s with
  | QWE_LC_SETTLING_CANCEL_TIMEOUT_TERM | QWE_LC_SETTLING_CANCEL_TIMEOUT_KILL => true
  | _ => false
  end.

(** A step's process group is in flight, and the timers agree with the state. *)
Record flying (j : job) : Prop := {
  fy_flight : in_flight j;
  fy_proc : rn_proc_ok (jb_run j) = true;
  fy_reaped : rn_leader_reaped (jb_run j) = true -> Model.waiting_for_empty_group (jb_state j) = true;
  fy_step_timer : stopping (jb_state j) = true -> deadline_of (rn_step_timer (jb_run j)) = None;
  fy_grace_timer : Model.grace_timer_running (jb_state j) = false -> deadline_of (rn_grace_timer (jb_run j)) = None;
  fy_step_sane : timer_sane (rn_step_timer (jb_run j));
  fy_grace_sane : timer_sane (rn_grace_timer (jb_run j));
  fy_grace_new : undisturbed (jb_state j) = true -> t_fired (rn_grace_timer (jb_run j)) = false;
  fy_told : cancel_timeout (jb_state j) = true -> rn_timeout_told (jb_run j) = true;
  fy_outcome : Model.waiting_for_empty_group (jb_state j) = true -> outcomes j (S (rn_cur (jb_run j)));
}.

Record finished (j : job) : Prop := {
  fi_idle : idle j;
  fi_released : released j;
  fi_steps : forall l, jb_steps j = Some l -> length l = jb_nsteps j /\ outcomes j (jb_nsteps j);
}.

Definition phase_ok (j : job) : Prop :=
  match jb_state j with
  | QWE_LC_PENDING | QWE_LC_READY => unstarted j
  | QWE_LC_BETWEEN_STEPS => between j
  | QWE_LC_SUCCESS | QWE_LC_FAILED | QWE_LC_SKIPPED | QWE_LC_CANCELLED => finished j
  | _ => flying j
  end.

(** A job with nothing owed to it. *)
Record calm (j : job) : Prop := {
  ca_small : small j;
  ca_followup : rn_followup (jb_run j) = None;
  ca_phase : phase_ok j;
}.

(** A job that is owed a start-failed. *)
Record owed (j : job) : Prop := {
  ow_small : small j;
  ow_followup : rn_followup (jb_run j) = Some QWE_LC_EV_START_FAILED;
  ow_errno : (0 <= rn_fail_errno (jb_run j) < 4096)%Z;
  ow_phase : (jb_state j = QWE_LC_BETWEEN_STEPS /\ unstarted j) \/
    ((jb_state j = QWE_LC_STEP_RUNNING \/ jb_state j = QWE_LC_STEP_RUNNING_COE) /\ in_flight j /\
     rn_proc_ok (jb_run j) = false);
}.

(** The invariant while the job waits for the outside world. *)
Definition inv (j : job) : Prop := calm j /\ jb_state j <> QWE_LC_BETWEEN_STEPS.

(** ** How a job moves on *)

Definition not_started (s : qwe_lc_state) : bool :=
  match s with QWE_LC_PENDING | QWE_LC_READY => true | _ => false end.

(** [ks] and [kg] say that the step and grace timers, if pending and still those
    of the same step, stay so. *)
Record adv (ks kg : bool) (j j' : job) : Prop := {
  ad_same : same_job j j';
  ad_started : not_started (jb_state j) = false -> not_started (jb_state j') = false;
  ad_final : qwe_lc_state_is_final (jb_state j) = true -> jb_state j' = jb_state j;
  ad_cur : rn_cur (jb_run j) <= rn_cur (jb_run j');
  ad_live : (0 <= rn_live_step (jb_run j))%Z ->
    rn_live_step (jb_run j') = rn_live_step (jb_run j) \/ (rn_live_step (jb_run j) < Z.of_nat (rn_cur (jb_run j')))%Z;
  ad_fresh : (0 <= rn_live_step (jb_run j'))%Z ->
    rn_live_step (jb_run j') = rn_live_step (jb_run j) \/ (Z.of_nat (rn_cur (jb_run j)) <= rn_live_step (jb_run j'))%Z;
  ad_step_timer : ks = true -> rn_live_step (jb_run j') = rn_live_step (jb_run j) ->
    (0 <= rn_live_step (jb_run j))%Z ->
    deadline_of (rn_step_timer (jb_run j)) <> None -> deadline_of (rn_step_timer (jb_run j')) <> None;
  ad_grace_timer : kg = true -> rn_live_step (jb_run j') = rn_live_step (jb_run j) ->
    (0 <= rn_live_step (jb_run j))%Z ->
    deadline_of (rn_grace_timer (jb_run j)) <> None -> deadline_of (rn_grace_timer (jb_run j')) <> None;
  ad_cancel : rn_cancel_told (jb_run j) = true -> rn_cancel_told (jb_run j') = true;
}.

#[export] Instance adv_po ks kg : PreOrder (adv ks kg).
Proof.
  split; [constructor; (reflexivity || auto) |].
  intros a b c [A1 A2 A3 A4 A5 A6 A7 A8 A9] [B1 B2 B3 B4 B5 B6 B7 B8 B9].
  assert (Hb : rn_live_step (jb_run c) = rn_live_step (jb_run a) -> (0 <= rn_live_step (jb_run a))%Z ->
    rn_live_step (jb_run b) = rn_live_step (jb_run a)).
  { intros E H. destruct (A5 H) as [|H1]; [done |]. destruct B6 as [H2|H2]; [lia | congruence | lia]. }
  constructor.
  - by etrans.
  - auto.
  - intros H. rewrite B3; [by apply A3 |]. by rewrite A3.
  - lia.
  - intros H. destruct (A5 H) as [H1|H1]; [| lia]. destruct (B5 ltac:(lia)) as [H2|H2]; [left; congruence | lia].
  - intros H. destruct (B6 H) as [H1|H1]; [| lia]. destruct (A6 ltac:(lia)) as [H2|H2]; [left; congruence | lia].
  - intros Hk E H Hd. specialize (Hb E H). apply B7; [done | congruence | lia |]. by apply A7.
  - intros Hk E H Hd. specialize (Hb E H). apply B8; [done | congruence | lia |]. by apply A8.
  - auto.
Qed.

Lemma adv_weaken ks kg j j' : adv true true j j' -> adv ks kg j j'.
Proof. intros []. by constructor; auto. Qed.

Lemma control_adv ks kg j j' : same_control j j' -> adv ks kg j j'.
Proof.
  intros []. constructor; try done; rewrite ?sc_state0, ?sc_cur0, ?sc_live_step0, ?sc_step_timer0, ?sc_grace_timer0, ?sc_cancel_told0; auto.
Qed.

(** Everything but the job's own timer, log and ring. *)
Record same_core (j j' : job) : Prop := {
  cr_job : same_job j j';
  cr_state : jb_state j' = jb_state j;
  cr_steps : jb_steps j' = jb_steps j;
  cr_step_timer : rn_step_timer (jb_run j') = rn_step_timer (jb_run j);
  cr_grace_timer : rn_grace_timer (jb_run j') = rn_grace_timer (jb_run j);
  cr_proc_ok : rn_proc_ok (jb_run j') = rn_proc_ok (jb_run j);
  cr_leader_reaped : rn_leader_reaped (jb_run j') = rn_leader_reaped (jb_run j);
  cr_timeout_told : rn_timeout_told (jb_run j') = rn_timeout_told (jb_run j);
  cr_cancel_told : rn_cancel_told (jb_run j') = rn_cancel_told (jb_run j);
  cr_cur : rn_cur (jb_run j') = rn_cur (jb_run j);
  cr_live_step : rn_live_step (jb_run j') = rn_live_step (jb_run j);
  cr_followup : rn_followup (jb_run j') = rn_followup (jb_run j);
  cr_errno : rn_fail_errno (jb_run j') = rn_fail_errno (jb_run j);
}.

#[export] Instance same_core_po : PreOrder same_core.
Proof. split; [by constructor |]. intros a b c [] []. constructor; try congruence. by etrans. Qed.

Lemma control_core j j' : same_control j j' -> same_core j j'.
Proof. by intros []; constructor. Qed.

Section steps.
Context {W : Type} (env : environment W).

(** Time passes. *)
Lemma mono_now_ok (Q : Z -> st W -> Prop) s :
  (forall now x, ctx_on (s_ctx s) x -> x_trace x = x_trace (s_ctx s) -> now = x_clock x -> Q now (St (s_job s) x)) ->
  wp (mono_now_ns env) Q s.
Proof.
  intros H. unfold mono_now_ns. wps. apply H; [| done | done]. constructor; [cbn; lia | done].
Qed.

Lemma shown_bound j : small j -> (rn_live_step (jb_run j) < 2 ^ 63)%Z -> (shown_step j < 2 ^ 63)%Z.
Proof.
  unfold small, shown_step. intros Hs Hl. destruct (0 <=? _)%Z; [done |].
  destruct (jb_steps j); [| lia]. destruct (Nat.ltb_spec (rn_cur (jb_run j)) (jb_nsteps j)); lia.
Qed.

Lemma trace_record_ok step state event next kind reason detail s : (step < 2 ^ 63)%Z ->
  wp (Engine.trace_record env step state event next kind reason detail)
    (fun _ s' => s_job s' = s_job s /\ ctx_on (s_ctx s) (s_ctx s')) s.
Proof.
  intros Hs. unfold Engine.trace_record. wps. apply mono_now_ok. intros now x Hx Ht ->. wps.
  destruct (step_text_ok step Hs) as (t & E & _).
  assert (Hr : exists t', qwe_trace_record (Some (ts_of (x_clock x))) a (x_trace (x <| x_env := w |>))
    (Some (jb_id (s_job s))) step state event next kind reason detail = CRet t').
  { unfold qwe_trace_record. destruct (tr_fd _); [| by eexists]. cbn [qwe_mono_now]. cstep.
    destruct (since _ _). rewrite E. by eexists. }
  destruct Hr as [t' Hr]. wplift Hr. wps. split; [done |]. etrans; [exact Hx |]. by constructor.
Qed.

Lemma job_release_ok s :
  (rn_timer_ok (jb_run (s_job s)) = false -> t_fd (rn_timer (jb_run (s_job s))) = None) ->
  wp (job_release env) (fun _ s' => same_core (s_job s) (s_job s') /\ released (s_job s') /\
    ctx_on (s_ctx s) (s_ctx s')) s.
Proof.
  intros Ht. unfold job_release. wps. 
  eapply (wp_mono _ (fun _ s' => same_core (s_job s) (s_job s') /\ ctx_on (s_ctx s) (s_ctx s') /\
    rn_timer_ok (jb_run (s_job s')) = false /\ t_fd (rn_timer (jb_run (s_job s'))) = None)).
  { apply wp_when; intros H.
    - unfold ev_del. wps. split; [by constructor |]. split; [by constructor | done].
    - split; [done |]. split; [done |]. auto. }
  intros _ s1 (A1 & A2 & A3 & A4). wps.
  eapply (wp_mono _ (fun _ s' => same_core (s_job s) (s_job s') /\ ctx_on (s_ctx s) (s_ctx s') /\
    rn_timer_ok (jb_run (s_job s')) = false /\ t_fd (rn_timer (jb_run (s_job s'))) = None /\
    rn_sink_ok (jb_run (s_job s')) = false)).
  { apply wp_when; intros H; [| done]. wps.
    destruct (sink_close_total (rn_sink (jb_run (s_job s1)))
      (Files (rn_log (jb_run (s_job s1))) (x_term (s_ctx s1)) a)) as (w' & E).
    wplift E. wps. split; [etrans; [exact A1 |]; by constructor |]. split; [etrans; [exact A2 |]; by constructor | done]. }
  intros _ s2 (B1 & B2 & B3 & B4 & B5). wps.
  eapply (wp_mono _ (fun _ s' => same_core (s_job s) (s_job s') /\ ctx_on (s_ctx s) (s_ctx s') /\ released (s_job s'))).
  { apply wp_when; intros H; [| split; [done |]; split; [done | by constructor]]. wps.
    split; [etrans; [exact B1 |]; by constructor |]. split; [done | by constructor]. }
  intros _ s3 (C1 & C2 & [C3 C4 C5 C6]). wps.
  split; [etrans; [exact C1 |]; by constructor |]. split; [by constructor | done].
Qed.
End steps.

Section step_ops.
Context {W : Type} (env : environment W).

Lemma wp_get_step i l x (Q : qwe_step_result -> st W -> Prop) s :
  jb_steps (s_job s) = Some l -> l !! i = Some x -> Q x s -> wp (get_step i) Q s.
Proof.
  intros Hl Hx HQ. unfold get_step. wps. rewrite Hl. eapply wp_lift; [by apply cread_Some | done].
Qed.

Lemma wp_set_step i l x (Q : unit -> st W -> Prop) s :
  jb_steps (s_job s) = Some l -> i < length l ->
  Q tt (St ((s_job s) <| jb_steps := Some (<[i := x]> l) |>) (s_ctx s)) -> wp (set_step i x) Q s.
Proof.
  intros Hl Hx HQ. unfold set_step. wps. rewrite Hl. apply wp_bind.
  eapply wp_lift; [by apply cwrite_ok |]. by wps.
Qed.

Lemma wp_step_at i (Q : step_decl -> st W -> Prop) s :
  i < jb_nsteps (s_job s) -> (forall d, Q d s) -> wp (step_at i) Q s.
Proof.
  intros Hi HQ. unfold step_at. wps.
  destruct (lookup_lt_is_Some_2 (jb_decl (s_job s)) i Hi) as [d Hd].
  eapply wp_lift; [by apply cread_Some | done].
Qed.

(** What is left of the steps is skipped. *)
Lemma skip_steps_ok n i l (s : st W) :
  jb_steps (s_job s) = Some l -> length l = jb_nsteps (s_job s) -> i + n <= length l ->
  wp (skip_steps i n) (fun _ s' => exists l', s_job s' = (s_job s) <| jb_steps := Some l' |> /\
    length l' = length l /\ s_ctx s' = s_ctx s /\
    forall k x, l' !! k = Some x -> is_Some (sr_outcome x) \/ (l !! k = Some x /\ ~ i <= k < i + n)) s.
Proof.
  revert i l s. induction n as [|n IH]; intros i l s Hl Hlen Hi; cbn [skip_steps].
  { wps. exists l. destruct s as [j x]. cbn in *. split; [by destruct j; cbn in *; subst |].
    split; [done |]. split; [done |]. intros k y Hy. right. split; [done | lia]. }
  destruct (lookup_lt_is_Some_2 l i ltac:(lia)) as [x Hx].
  wps. eapply wp_get_step; [done | done |]. unfold step_id, step_name, step_plugin.
  do 3 (wps; apply wp_step_at; [lia |]; intros ?). wps.
  eapply wp_set_step; [done | lia |].
  eapply wp_mono; [eapply (IH (S i)) |].
  - reflexivity.
  - cbn [s_job jb_nsteps jb_decl setf]. by rewrite length_insert.
  - rewrite length_insert. lia.
  - intros _ s' (l' & E & Hlen' & Hctx & Hk). exists l'. rewrite length_insert in Hlen'.
    split; [by rewrite E |]. split; [done |]. split; [done |]. intros k y Hy.
    destruct (Hk k y Hy) as [|[Hy' Hn]]; [by left |].
    destruct (decide (k = i)) as [->|Hne].
    + left. rewrite list_lookup_insert_eq in Hy' by lia. injection Hy' as <-. by eexists.
    + right. rewrite list_lookup_insert_ne in Hy' by done. split; [done | lia].
Qed.

(** The step's slot is given up and the cursor moves on; outcomes stay. *)
Record step_over (j j' : job) : Prop := {
  so_same : same_job j j';
  so_state : jb_state j' = jb_state j;
  so_steps : exists l l', jb_steps j = Some l /\ jb_steps j' = Some l' /\ length l' = length l /\
    forall k x, l' !! k = Some x -> exists y, l !! k = Some y /\ sr_outcome x = sr_outcome y;
  so_idle : idle j';
  so_cur : rn_cur (jb_run j') = S (rn_cur (jb_run j));
  so_timer : rn_timer (jb_run j') = rn_timer (jb_run j);
  so_ring_ok : rn_ring_ok (jb_run j') = rn_ring_ok (jb_run j);
  so_sink_ok : rn_sink_ok (jb_run j') = rn_sink_ok (jb_run j);
  so_timer_ok : rn_timer_ok (jb_run j') = rn_timer_ok (jb_run j);
  so_timeout_told : rn_timeout_told (jb_run j') = rn_timeout_told (jb_run j);
  so_cancel_told : rn_cancel_told (jb_run j') = rn_cancel_told (jb_run j);
  so_followup : rn_followup (jb_run j') = rn_followup (jb_run j);
  so_data : data_ok (jb_run j');
}.

Lemma step_finish_ok (s : st W) : in_flight (s_job s) ->
  wp (step_finish env) (fun _ s' => step_over (s_job s) (s_job s') /\ ctx_on (s_ctx s) (s_ctx s')) s.
Proof.
  intros [[(l & Hl & Hlen) _ _ _ Hd _] Hlive Hcur]. unfold step_finish. wps.
  apply wp_if; intros H0; [apply Z.ltb_lt in H0; lia |]. wps.
  rewrite Hlive, Nat2Z.id. set (cur := rn_cur (jb_run (s_job s))) in *.
  destruct (lookup_lt_is_Some_2 l cur ltac:(lia)) as [x Hx].
  eapply wp_get_step; [done | done |]. wps.
  (* the duration *)
  eapply (wp_mono _ (fun _ s' => exists l', jb_steps (s_job s') = Some l' /\ length l' = length l /\
    (forall k x, l' !! k = Some x -> exists y, l !! k = Some y /\ sr_outcome x = sr_outcome y) /\
    same_control ((s_job s) <| jb_steps := Some l' |>) (s_job s') /\ data_ok (jb_run (s_job s')) /\
    ctx_on (s_ctx s) (s_ctx s'))).
  { apply wp_when; intros _.
    - wps. apply mono_now_ok. intros now x' Hx' _ _. eapply wp_set_step; [done | lia |].
      eexists. split; [done |]. split; [apply length_insert |]. split; [| split; [by constructor | done]].
      intros k y Hy. destruct (decide (k = cur)) as [->|Hne].
      + rewrite list_lookup_insert_eq in Hy by lia. injection Hy as <-. by exists x.
      + rewrite list_lookup_insert_ne in Hy by done. by exists y.
    - exists l. split; [done |]. split; [done |]. split; [by intros k y Hy; exists y |]. split; [by constructor | done]. }
  intros _ s1 (l1 & Hl1 & Hlen1 & Ho1 & Hc1 & Hd1 & Hx1). wps.
  (* the pipe and the timers *)
  eapply (wp_mono _ (fun _ s' => exists p, same_control ((s_job s1) <| jb_run := p |>) (s_job s') /\
    rn_proc_ok p = false /\ rn_timer p = rn_timer (jb_run (s_job s1)) /\ rn_ring_ok p = rn_ring_ok (jb_run (s_job s1)) /\
    rn_sink_ok p = rn_sink_ok (jb_run (s_job s1)) /\ rn_timer_ok p = rn_timer_ok (jb_run (s_job s1)) /\
    rn_timeout_told p = rn_timeout_told (jb_run (s_job s1)) /\ rn_cancel_told p = rn_cancel_told (jb_run (s_job s1)) /\
    rn_cur p = rn_cur (jb_run (s_job s1)) /\ rn_followup p = rn_followup (jb_run (s_job s1)) /\
    data_ok (jb_run (s_job s')) /\ ctx_on (s_ctx s1) (s_ctx s'))).
  { apply wp_when; intros Hp.
    - apply wp_bind. eapply wp_mono; [by apply drain_ok |]. intros _ s2 (A1 & A2 & A3).
      apply wp_bind. eapply wp_mono; [by apply drain_flush_ok |]. intros _ s3 (B1 & B2 & B3).
      unfold ev_del. wps. pose proof (transitivity A1 B1) as C. 
      exists ((jb_run (s_job s3)) <| rn_step_timer := qwe_timer_close (rn_step_timer (jb_run (s_job s3))) |>
        <| rn_grace_timer := qwe_timer_close (rn_grace_timer (jb_run (s_job s3))) |> <| rn_proc_ok := false |>).
      destruct C. cbn [rn_proc_ok rn_timer rn_ring_ok rn_sink_ok rn_timer_ok rn_timeout_told rn_cancel_told rn_cur rn_followup setf].
      split_and!; try done.
      + destruct sc_job0. by constructor.
      + destruct B3. by constructor.
      + etrans; [exact A2 |]. etrans; [exact B2 |]. by constructor.
    - exists (jb_run (s_job s1)). rewrite (sc_proc_ok _ _ Hc1). by split_and!. }
  intros _ s2 (p & Hc2 & P1 & P2 & P3 & P4 & P5 & P6 & P7 & P8 & P9 & Hd2 & Hx2). wps.
  destruct Hc1, Hc2. cbn in *. split; [| by etrans]. constructor; cbn; try congruence.
  - destruct sc_job0, sc_job1. cbn in *. constructor; cbn; congruence.
  - exists l, l1. split_and!; [done | congruence | done | done].
  - split; cbn; congruence.
  - destruct Hd2. by constructor.
Qed.
End step_ops.

Section ending.
Context {W : Type} (env : environment W).

Definition timer_closed (j : job) : Prop :=
  rn_timer_ok (jb_run j) = false -> t_fd (rn_timer (jb_run j)) = None.

(** A job that can be ended: it never started, it is between two steps, or its
    step is in flight and recorded. *)
Definition endable (j : job) : Prop :=
  (jb_steps j = None /\ idle j /\ timer_closed j) \/ between j \/
  (in_flight j /\ outcomes j (S (rn_cur (jb_run j)))).

Record ended (j j' : job) : Prop := {
  en_same : same_job j j';
  en_state : jb_state j' = jb_state j;
  en_finished : finished j';
  en_followup : rn_followup (jb_run j') = rn_followup (jb_run j);
  en_cancel_told : rn_cancel_told (jb_run j') = rn_cancel_told (jb_run j);
  en_cur : rn_cur (jb_run j) <= rn_cur (jb_run j');
  en_live : (0 <= rn_live_step (jb_run j) -> rn_live_step (jb_run j) < Z.of_nat (rn_cur (jb_run j')))%Z;
}.

Lemma nsteps_same j j' : same_job j j' -> jb_nsteps j' = jb_nsteps j.
Proof. intros []. unfold jb_nsteps. by rewrite sm_decl0. Qed.

Lemma step_over_between j j' : step_over j j' -> in_flight j -> outcomes j (S (rn_cur (jb_run j))) -> between j'.
Proof.
  intros [Hs _ (l & l' & Hl & Hl' & Hlen & Ho) Hi Hc _ H1 H2 H3 _ _ _ Hd] [[(l0 & Hl0 & Hlen0) ? ? ? _ _] Hlive Hcur] Hout.
  assert (l0 = l) as -> by congruence. pose proof (nsteps_same _ _ Hs) as Hn. constructor; [| done | lia].
  constructor; [exists l'; split; [done | lia] | congruence | congruence | congruence | done |].
  intros l1 i x E Hx Hlt. assert (l1 = l') as -> by congruence. destruct (Ho i x Hx) as (y & Hy & ->).
  apply (Hout l i y); [done | done | lia].
Qed.

(** The end of a job that has no step in flight. *)
Lemma job_end_idle s : (jb_steps (s_job s) = None /\ idle (s_job s) /\ timer_closed (s_job s)) \/ between (s_job s) ->
  wp (j ← get_job;
      match jb_steps j with
      | None => mret tt
      | Some _ =>
          t ← ask env QTime;
          now ← mono_now_ns env;
          mod_job (fun j => j <| jb_ended := t |> <| jb_duration_ms := mono_diff_ms (jb_mono_start j) now |>);;
          skip_steps (rn_cur (jb_run j)) (jb_nsteps j - rn_cur (jb_run j))
      end;;
      job_release env)
    (fun _ s' => ended (s_job s) (s_job s') /\ ctx_on (s_ctx s) (s_ctx s')) s.
Proof.
  intros [(Hn & Hi & Ht)|[[(l & Hl & Hlen) Htok _ _ _ Ho] Hi Hc]]; wps.
  - rewrite Hn. wps. eapply wp_mono; [by apply job_release_ok |]. intros _ s' ([] & Hr & Hx). split; [| done].
    destruct Hi as [Hi1 Hi2]. constructor; try done; try lia; try congruence.
    constructor; [split; congruence | done |]. intros l. congruence.
  - rewrite Hl. wps. apply mono_now_ok. intros now x Hx _ _. wps.
    eapply wp_mono; [eapply (skip_steps_ok _ _ l); [done | done | cbn; lia] |].
    intros _ s1 (l1 & E1 & Hlen1 & Hx1 & Hk).
    eapply wp_mono; [apply job_release_ok; rewrite E1; cbn; congruence |]. intros _ s2 (Hc2 & Hr & Hx2).
    rewrite E1 in Hc2. destruct Hc2 as [Hsj]. cbn in *. destruct Hi as [Hi1 Hi2].
    split; [| rewrite Hx1 in Hx2; ctx_solve].
    assert (Hsj' : same_job (s_job s) (s_job s2)) by (destruct Hsj; cbn in *; by constructor).
    constructor; try done; try lia; try congruence.
    constructor; [split; congruence | done |]. intros l2 E2. assert (l2 = l1) as -> by congruence.
    rewrite (nsteps_same _ _ Hsj'). split; [congruence |]. intros l3 i y E3 Hy Hlt. assert (l3 = l1) as -> by congruence.
    destruct (Hk i y Hy) as [|[Hy' Hni]]; [done |]. apply (Ho l i y); [done | done |].
    assert (i < length l) by (by eapply lookup_lt_Some). lia.
Qed.

Lemma job_end_ok s : endable (s_job s) ->
  wp (job_end env) (fun _ s' => ended (s_job s) (s_job s') /\ ctx_on (s_ctx s) (s_ctx s')) s.
Proof.
  intros H. unfold job_end. apply wp_bind.
  destruct H as [H|[H|[Hf Ho]]].
  - unfold step_finish. apply wp_bind, wp_get_run. pose proof H as (_ & [Hi1 _] & _). rewrite Hi1.
    apply wp_ret, job_end_idle. by left.
  - unfold step_finish. apply wp_bind, wp_get_run. pose proof (be_idle _ H) as [Hi1 _]. rewrite Hi1.
    apply wp_ret, job_end_idle. by right.
  - eapply wp_mono; [by apply step_finish_ok |]. intros _ s1 (Hs & Hx).
    eapply wp_mono; [apply (job_end_idle s1); right; by eapply step_over_between |].
    intros _ s2 ([] & Hx2). destruct Hs. destruct Hf. split; [| by etrans].
    constructor; try done; try congruence; try lia. by etrans.
Qed.

(** What recording a step's outcome changes. *)
Record recorded (j j' : job) : Prop := {
  rc_control : exists l', same_control (j <| jb_steps := Some l' |>) j' /\ length l' = jb_nsteps j;
  rc_data : data_ok (jb_run j) -> data_ok (jb_run j');
  rc_outcomes : outcomes j (rn_cur (jb_run j)) -> outcomes j' (S (rn_cur (jb_run j)));
  rc_more : forall n, outcomes j n -> outcomes j' n;
}.

Lemma record_step_ok res s l : jb_steps (s_job s) = Some l -> length l = jb_nsteps (s_job s) ->
  rn_cur (jb_run (s_job s)) < jb_nsteps (s_job s) ->
  wp (record_step env res) (fun _ s' => recorded (s_job s) (s_job s') /\ ctx_on (s_ctx s) (s_ctx s')) s.
Proof.
  intros Hl Hlen Hc. unfold record_step. wps.
  destruct (lookup_lt_is_Some_2 l (rn_cur (jb_run (s_job s))) ltac:(lia)) as [x Hx].
  eapply wp_get_step; [done | done |]. wps. eapply wp_set_step; [done | lia |]. wps.
  split; [| by constructor]. constructor.
  - eexists. split; [| by rewrite length_insert]. by constructor.
  - intros []. by constructor.
  - intros Ho l1 i y E Hy Hlt. cbn in E. injection E as <-.
    destruct (decide (i = rn_cur (jb_run (s_job s)))) as [->|Hne].
    + rewrite list_lookup_insert_eq in Hy by lia. injection Hy as <-. by eexists.
    + rewrite list_lookup_insert_ne in Hy by done. apply (Ho l i y); [done | done | lia].
  - intros n Ho l1 i y E Hy Hlt. cbn in E. injection E as <-.
    destruct (decide (i = rn_cur (jb_run (s_job s)))) as [->|Hne].
    + rewrite list_lookup_insert_eq in Hy by lia. injection Hy as <-. by eexists.
    + rewrite list_lookup_insert_ne in Hy by done. by apply (Ho l i y).
Qed.
End ending.

(** ** Operations that only talk to the outside *)

Section outside.
Context {W : Type} (env : environment W).

(** Closes an [output_ok] goal whose state is a known update of [s]. *)
Ltac out_done Hd :=
  split; [by constructor |]; split; [ctx_solve |]; destruct Hd; by constructor.

Lemma remote_unreachable_ok : output_ok (remote_unreachable env).
Proof.
  intros s Hd. unfold remote_unreachable. wps. destruct (rn_step_target (jb_run (s_job s))) as [t|] eqn:E.
  - unfold ssh_call. wps. rewrite E. wps. out_done Hd.
  - wps. out_done Hd.
Qed.

Lemma remote_kill_ok signal : output_ok (remote_kill env signal).
Proof.
  intros s Hd. unfold remote_kill. wps. destruct (rn_step_target (jb_run (s_job s))) as [t|] eqn:E; [| wps; out_done Hd].
  destruct (rn_step_token (jb_run (s_job s))); [| wps; out_done Hd].
  destruct (rn_leader_reaped (jb_run (s_job s))); [wps; out_done Hd |].
  unfold ssh_call. wps. rewrite E. wps. out_done Hd.
Qed.

Lemma remote_lost_ok status : output_ok (remote_lost env status).
Proof.
  intros s Hd. unfold remote_lost. wps. destruct (rn_step_target (jb_run (s_job s))) as [t|] eqn:E; [| wps; out_done Hd].
  apply wp_if; intros _; [wps; out_done Hd |]. unfold ssh_call. wps. rewrite E. wps. out_done Hd.
Qed.

Lemma kill_group_ok signal : output_ok (kill_group env signal).
Proof. intros s Hd. unfold kill_group. wps. out_done Hd. Qed.

Lemma ensure_target_ok target s : data_ok (jb_run (s_job s)) ->
  wp (ensure_target env target) (fun op s' => same_control (s_job s) (s_job s') /\ ctx_on (s_ctx s) (s_ctx s') /\
    data_ok (jb_run (s_job s')) /\ forall o e, op = Some (o, e) -> (0 <= e < 4096)%Z) s.
Proof.
  intros Hd. unfold ensure_target. apply wp_bind. eapply wp_mono; [by apply remote_unreachable_ok |].
  intros b s1 (H1 & H2 & H3). apply wp_if; intros _; [by wps |]. wps.
  destruct a; wps; (split; [etrans; [exact H1 |]; by constructor |]); (split; [ctx_solve |]);
    (split; [destruct H3; by constructor |]); intros o e [= <- <-]; lia.
Qed.

Lemma resolve_step_ok : output_ok (resolve_step env).
Proof.
  intros s Hd. unfold resolve_step. wps. destruct a0 as [rs|]; wps; out_done Hd.
Qed.

Lemma store_outputs_ok json : output_ok (@store_outputs W json).
Proof. intros s Hd. unfold store_outputs. destruct json; wps; out_done Hd. Qed.

Lemma collect_file_outputs_ok : output_ok (collect_file_outputs env).
Proof.
  intros s Hd. unfold collect_file_outputs. wps. destruct (rn_out_path _); [| wps; out_done Hd]. wps.
  destruct a as [json|]; [| wps; out_done Hd].
  eapply wp_mono; [apply store_outputs_ok; destruct Hd; by constructor |]. intros _ s1 (H1 & H2 & H3).
  split; [etrans; [| exact H1]; by constructor |]. split; [ctx_solve | done].
Qed.

Lemma read_step_msg_ok : output_ok (read_step_msg env).
Proof.
  intros s Hd. unfold read_step_msg. wps. apply wp_if; intros _; [wps; out_done Hd |]. wps.
  destruct a as [d|]; [| wps; out_done Hd]. wps.
  eapply (wp_mono _ (fun _ s' => same_control (s_job s) (s_job s') /\ ctx_on (s_ctx s) (s_ctx s') /\ data_ok (jb_run (s_job s')))).
  { assert (Hd' : data_ok (jb_run (s_job s))) by done.
    destruct (status_of _), (dm_outputs d); try (wps; out_done Hd).
    eapply wp_mono; [apply store_outputs_ok; destruct Hd; by constructor |]. intros _ s1 (H1 & H2 & H3).
    split; [etrans; [| exact H1]; by constructor |]. split; [ctx_solve | done]. }
  intros _ s1 H. by wps.
Qed.

Lemma poll_cancel_ok : output_ok (poll_cancel env).
Proof.
  intros s Hd. unfold poll_cancel. wps. split; [by constructor |]. split; [| by destruct Hd].
  constructor; cbn; [lia | by intros ->].
Qed.

Lemma output_mod_run (f : job_run -> job_run) :
  (forall j, data_ok (jb_run j) -> same_control j (j <| jb_run := f (jb_run j) |>) /\ data_ok (f (jb_run j))) ->
  output_ok (@mod_run W f).
Proof. intros H s Hd. wps. destruct (H (s_job s) Hd) as [H1 H2]. split; [done |]. split; [by constructor | done]. Qed.

Lemma output_get_run : output_ok (@get_run W).
Proof. intros s Hd. by wps. Qed.

End outside.

(** ** Starting a job *)

Section starting.
Context {W : Type} (env : environment W).

Lemma ring_capacity_pos : 0 < QWE_RING_CAPACITY.
Proof. unfold QWE_RING_CAPACITY. lia. Qed.
#[local] Opaque QWE_RING_CAPACITY.

Lemma length_block cap mem : length (Engine.block cap mem) = cap.
Proof. unfold Engine.block. rewrite length_take, length_app, length_replicate. lia. Qed.

Lemma fresh_ring_wf mem : ring_wf (Ring (Engine.block QWE_RING_CAPACITY mem) QWE_RING_CAPACITY 0 0 0).
Proof.
  pose proof ring_capacity_pos. constructor; cbn; try lia; [apply length_block | unfold w64; lia].
Qed.

(** What the three resources have in common while they are opened. *)
Definition opening (s s' : st W) : Prop :=
  same_core (s_job s) (s_job s') /\ ctx_on (s_ctx s) (s_ctx s').

Lemma open_ring_ok s :
  wp (open_ring env) (fun op s' => opening s s' /\
    rn_timer (jb_run (s_job s')) = rn_timer (jb_run (s_job s)) /\
    rn_timer_ok (jb_run (s_job s')) = rn_timer_ok (jb_run (s_job s)) /\
    (op = None -> rn_ring_ok (jb_run (s_job s')) = true /\ ring_wf (rn_ring (jb_run (s_job s'))))) s.
Proof.
  unfold open_ring. wps. destruct a as [mem|]; cbn [qwe_ring_init fmap option_fmap option_map]; cbv zeta beta iota.
  - change (0 <? 0)%Z with false. wps. split; [split; [by constructor | by constructor] |].
    split; [done |]. split; [done |]. intros _. split; [done |]. apply fresh_ring_wf.
  - change (-1 <? 0)%Z with true. wps. split; [split; [by constructor | by constructor] |]. done.
Qed.

Lemma open_sink_ok s :
  wp (open_sink env) (fun op s' => opening s s' /\
    rn_timer (jb_run (s_job s')) = rn_timer (jb_run (s_job s)) /\
    rn_timer_ok (jb_run (s_job s')) = rn_timer_ok (jb_run (s_job s)) /\
    rn_ring_ok (jb_run (s_job s')) = rn_ring_ok (jb_run (s_job s)) /\
    rn_ring (jb_run (s_job s')) = rn_ring (jb_run (s_job s)) /\
    (op = None -> rn_sink_ok (jb_run (s_job s')) = true /\ sink_wf (rn_sink (jb_run (s_job s'))))) s.
Proof.
  unfold open_sink. wps.
  assert (H : exists r, qwe_sink_open a a0 (jb_id (s_job s)) (x_run_dir (s_ctx s)) = CRet r /\
    forall k l, r = Some (k, l) -> sink_wf k).
  { unfold qwe_sink_open, log_path. destruct a; cbn [negb]; cstep.
    - rewrite qwe_xfmt_fits; cstep.
      + destruct a0; eexists; (split; [reflexivity |]); intros k l; [intros [= <- <-]; unfold sink_wf; simpl; lia | done].
      + rewrite !length_app, !length_bytes_of. simpl. lia.
    - by eexists. }
  destruct H as (r & E & Hr). wplift E. destruct r as [[k l]|]; wps.
  - split; [split; by constructor |]. split_and!; try done. intros _. split; [done |]. by eapply Hr.
  - split; [split; by constructor |]. by split_and!.
Qed.

Lemma open_timer_ok s :
  wp (open_timer env) (fun op s' => opening s s' /\
    rn_ring_ok (jb_run (s_job s')) = rn_ring_ok (jb_run (s_job s)) /\
    rn_ring (jb_run (s_job s')) = rn_ring (jb_run (s_job s)) /\
    rn_sink_ok (jb_run (s_job s')) = rn_sink_ok (jb_run (s_job s)) /\
    rn_sink (jb_run (s_job s')) = rn_sink (jb_run (s_job s)) /\
    (op = None -> rn_timer_ok (jb_run (s_job s')) = true) /\
    (op <> None -> t_fd (rn_timer (jb_run (s_job s'))) = None)) s.
Proof.
  unfold open_timer. wps. destruct a; cbn [qwe_timer_open]; cbv zeta beta iota.
  - change (0 <? 0)%Z with false. wps. split; [split; by constructor |]. by split_and!.
  - change (-1 <? 0)%Z with true. wps. split; [split; by constructor |]. by split_and!.
Qed.

(** The three in order, up to the first that fails. *)
Lemma open_all_ok s : released (s_job s) ->
  wp (op ← open_ring env; op ← or_else op (open_sink env); or_else op (open_timer env))
    (fun op s' => opening s s' /\ timer_closed (s_job s') /\
      (op = None -> rn_timer_ok (jb_run (s_job s')) = true /\ rn_sink_ok (jb_run (s_job s')) = true /\
         rn_ring_ok (jb_run (s_job s')) = true /\ data_ok (jb_run (s_job s')))) s.
Proof.
  intros [R1 R2 R3 R4]. apply wp_bind. eapply wp_mono; [apply open_ring_ok |].
  intros op1 s1 ([A1 A2] & A3 & A4 & A5). apply wp_bind.
  destruct op1 as [o|]; cbn [or_else]; [apply wp_ret; cbn [or_else]; apply wp_ret |].
  { split; [done |]. split; [intros _; congruence | done]. }
  eapply wp_mono; [apply open_sink_ok |]. intros op2 s2 ([B1 B2] & B3 & B4 & B5 & B6 & B7).
  destruct op2 as [o|]; cbn [or_else]; [apply wp_ret |].
  { split; [split; by etrans |]. split; [intros _; congruence | done]. }
  eapply wp_mono; [apply open_timer_ok |]. intros op3 s3 ([C1 C2] & C3 & C4 & C5 & C6 & C7 & C8).
  split; [split; [by do 2 (etrans; [done |]) | by do 2 (etrans; [done |])] |].
  destruct (A5 eq_refl) as [A6 A7], (B7 eq_refl) as [B8 B9].
  split.
  - intros Hf. apply C8. intros ->. specialize (C7 eq_refl). congruence.
  - intros ->. split_and!; [auto | congruence | congruence |]. constructor; [rewrite C4, B6 | rewrite C6]; done.
Qed.

(** A job that has just left ready: started, or owed a start-failed. *)
Record begun (j j' : job) : Prop := {
  bg_same : same_job j j';
  bg_state : jb_state j' = jb_state j;
  bg_cancel : rn_cancel_told (jb_run j') = rn_cancel_told (jb_run j);
  bg_phase : (between j' /\ rn_followup (jb_run j') = None) \/ owed j';
  bg_cur : rn_cur (jb_run j') = rn_cur (jb_run j);
  bg_live : rn_live_step (jb_run j') = rn_live_step (jb_run j);
}.

Lemma get_errno_ok (Q : Z -> st W -> Prop) s :
  (forall e x, (0 <= e < 4096)%Z -> ctx_on (s_ctx s) x -> Q e (St (s_job s) x)) -> wp (get_errno env) Q s.
Proof.
  intros H. unfold get_errno. wps. apply H; [| by constructor].
  rewrite N2Z.inj_mod. by apply Z.mod_pos_bound.
Qed.

Lemma job_start_ok s : jb_state (s_job s) = QWE_LC_BETWEEN_STEPS -> unstarted (s_job s) ->
  rn_followup (jb_run (s_job s)) = None -> small (s_job s) ->
  wp (job_start env) (fun _ s' => begun (s_job s) (s_job s') /\ ctx_on (s_ctx s) (s_ctx s')) s.
Proof.
  intros Hst [U1 [U2 U2'] U3 U4] Hf Hsm.
  assert (Hopen := open_all_ok s U3). unfold job_start.
  apply wp_bind. unfold wp at 1. unfold wp at 1 in Hopen. unfold mbind at 1, M_bind in Hopen.
  destruct (open_ring env s) as [[op1 s1]| | |]; try done. apply wp_bind.
  unfold mbind at 1, M_bind in Hopen. unfold wp at 1.
  destruct (or_else op1 (open_sink env) s1) as [[op2 s2]| | |]; try done. apply wp_bind. unfold wp at 1.
  destruct (or_else op2 (open_timer env) s2) as [[op3 s3]| | |]; try done.
  destruct Hopen as ([O1 O2] & O3 & O4). destruct op3 as [op|].
  - wps. apply get_errno_ok. intros e x He Hx. apply wp_bind.
    eapply wp_mono; [by apply job_release_ok |]. intros _ s4 (R1 & R2 & R3). unfold owe_start_failed. wps.
    pose proof (transitivity O1 R1) as [C1 C2 C3 C4 C5 C6 C7 C8 C9 C10 C11 C12 C13]. cbn in R3.
    split; [| etrans; [exact O2 |]; etrans; done].
    constructor; cbn; try congruence.
    + destruct C1. by constructor.
    + right. constructor; cbn; try done; [unfold small, jb_nsteps in *; cbn; destruct C1; by rewrite sm_decl0 |].
      left. split; [congruence |]. destruct R2. constructor; cbn; try congruence; [split; cbn; congruence | by constructor].
  - destruct (O4 eq_refl) as (T1 & T2 & T3 & T4). destruct O1 as [C1 C2 C3 C4 C5 C6 C7 C8 C9 C10 C11 C12 C13].
    wps. apply mono_now_ok. intros now x Hx _ _. wps.
    eapply (wp_mono _ (fun _ s' => exists t, s_job s' = (s_job s3) <| jb_started := a |> <| jb_mono_start := now |>
      <| jb_steps := Some (replicate (jb_nsteps (s_job s3)) step_result0) |> <| jb_run := (jb_run (s_job s3)) <| rn_timer := t |> |>
      /\ ctx_on (s_ctx s) (s_ctx s'))).
    { apply wp_when; intros _.
      - wps. apply mono_now_ok. intros now2 x2 Hx2 _ _. wps. eexists. split; [reflexivity |]. ctx_solve.
      - exists (rn_timer (jb_run (s_job s3))). cbn. split; [by destruct (s_job s3) as [???????????????[]] | ctx_solve]. }
    intros _ s4 (t & E & Hx4). unfold ev_add. wps. rewrite E. split; [| etrans; [exact Hx4 |]; by constructor].
    assert (Hd : same_job (s_job s) ((s_job s3) <| jb_started := a |> <| jb_mono_start := now |>
      <| jb_steps := Some (replicate (jb_nsteps (s_job s3)) step_result0) |> <| jb_run := (jb_run (s_job s3)) <| rn_timer := t |> |>))
      by (destruct C1; by constructor).
    constructor; cbn; try congruence; try done. left. split; [| congruence]. constructor; cbn.
    + constructor; cbn; try congruence.
      * eexists. split; [reflexivity |]. rewrite length_replicate. done.
      * destruct T4. by constructor.
      * intros l i y [= <-] Hy Hlt. cbn in Hlt. rewrite C10, U4 in Hlt. lia.
    + split; cbn; congruence.
    + rewrite C10, U4. lia.
Qed.
End starting.

(** ** Starting a step *)

Section spawning.
Context {W : Type} (env : environment W).

(** What getting a step ready leaves as it is. *)
Record prep (j j' : job) : Prop := {
  pr_same : same_job j j';
  pr_state : jb_state j' = jb_state j;
  pr_steps : (exists l, jb_steps j = Some l /\ length l = jb_nsteps j) ->
    exists l, jb_steps j' = Some l /\ length l = jb_nsteps j';
  pr_outcomes : forall n, outcomes j n -> outcomes j' n;
  pr_ring_ok : rn_ring_ok (jb_run j') = rn_ring_ok (jb_run j);
  pr_sink_ok : rn_sink_ok (jb_run j') = rn_sink_ok (jb_run j);
  pr_timer_ok : rn_timer_ok (jb_run j') = rn_timer_ok (jb_run j);
  pr_proc_ok : rn_proc_ok (jb_run j') = rn_proc_ok (jb_run j);
  pr_timeout_told : rn_timeout_told (jb_run j') = rn_timeout_told (jb_run j);
  pr_cancel_told : rn_cancel_told (jb_run j') = rn_cancel_told (jb_run j);
  pr_cur : rn_cur (jb_run j') = rn_cur (jb_run j);
  pr_followup : rn_followup (jb_run j') = rn_followup (jb_run j);
  pr_data : data_ok (jb_run j) -> data_ok (jb_run j');
}.

#[export] Instance prep_po : PreOrder prep.
Proof.
  split; [by constructor |]. intros a b c [] []. constructor; try congruence; auto. by etrans.
Qed.

Lemma outcomes_same j j' n : jb_steps j' = jb_steps j -> outcomes j n -> outcomes j' n.
Proof. unfold outcomes. by intros ->. Qed.

Lemma control_prep j j' : same_control j j' -> (data_ok (jb_run j) -> data_ok (jb_run j')) -> prep j j'.
Proof.
  intros [] Hd. constructor; try done.
  - rewrite sc_steps0. unfold jb_nsteps. destruct sc_job0. by rewrite sm_decl0.
  - intros n. by apply outcomes_same.
Qed.

(** An update of fields nobody decides on. *)
Lemma prep_run j f : same_control j (j <| jb_run := f |>) -> (data_ok (jb_run j) -> data_ok f) -> prep j (j <| jb_run := f |>).
Proof. intros. by apply control_prep. Qed.

Lemma prep_step j l i x y : jb_steps j = Some l -> l !! i = Some x -> sr_outcome y = sr_outcome x ->
  prep j (j <| jb_steps := Some (<[i := y]> l) |>).
Proof.
  intros Hl Hx Hy. constructor; try done.
  - intros (l0 & E & Hlen). eexists. split; [reflexivity |]. rewrite length_insert. by replace l with l0 by congruence.
  - intros n Ho l1 k z [= <-] Hz Hlt. destruct (decide (k = i)) as [->|Hne].
    + rewrite list_lookup_insert_eq in Hz by (by eapply lookup_lt_Some). injection Hz as <-. rewrite Hy. by eapply Ho.
    + rewrite list_lookup_insert_ne in Hz by done. by eapply Ho.
Qed.

Definition prep_ok {A} (m : M W A) (s : st W) (Q : A -> job -> Prop) : Prop :=
  wp m (fun a s' => prep (s_job s) (s_job s') /\ ctx_on (s_ctx s) (s_ctx s') /\ Q a (s_job s')) s.

(** The slot's names are filled in, the step is resolved and its start noted. *)
Lemma spawn_head_ok {A} (k : Z -> Z -> M W A) Q s :
  started (s_job s) -> rn_cur (jb_run (s_job s)) < jb_nsteps (s_job s) ->
  (forall ms now s1, prep (s_job s) (s_job s1) -> ctx_on (s_ctx s) (s_ctx s1) -> wp (k ms now) Q s1) ->
  wp (r ← get_run;
      x ← get_step (rn_cur r);
      id ← step_id (rn_cur r);
      name ← step_name (rn_cur r);
      plugin ← step_plugin (rn_cur r);
      set_step (rn_cur r) (x <| sr_id := id |> <| sr_name := name |> <| sr_plugin := Some plugin |>);;
      ok ← ask env QMemory;
      j ← get_job;
      x ← get_ctx;
      mod_run (fun r => r <| rn_step_json := None |>
        <| rn_out_path := if (ok : bool) then Some (out_path_text (x_run_dir_abs x) (jb_id j) (rn_cur r)) else None |>);;
      ms ← resolve_step env;
      t ← ask env QTime;
      now ← mono_now_ns env;
      x ← get_step (rn_cur r);
      set_step (rn_cur r) (x <| sr_started := t |>);;
      k ms now) Q s.
Proof.
  intros [Hl _ _ _ Hd _] Hc Hk. destruct Hl as (l & Hl & Hlen).
  destruct (lookup_lt_is_Some_2 l (rn_cur (jb_run (s_job s))) ltac:(lia)) as [y Hy].
  wps. eapply wp_get_step; [done | done |]. unfold step_id, step_name, step_plugin.
  do 3 (wps; apply wp_step_at; [lia |]; intros ?). wps. eapply wp_set_step; [done | lia |]. wps.
  eapply wp_mono; [apply resolve_step_ok; destruct Hd; by constructor |].
  intros ms s1 (A1 & A2 & A3). wps. apply mono_now_ok. intros now x Hx _ _. wps.
  pose proof (sc_steps _ _ A1) as A5. cbn in A2, A3, A5, Hx.
  destruct (lookup_lt_is_Some_2 (<[rn_cur (jb_run (s_job s)) := y <| sr_id := sd_id d |> <| sr_name := sd_name d0 |>
    <| sr_plugin := Some (default "run"%string (sd_uses d1)) |>]> l) (rn_cur (jb_run (s_job s)))) as [z Hz].
  { rewrite length_insert. lia. }
  eapply wp_get_step; [done | done |]. wps. eapply wp_set_step; [done | rewrite length_insert; lia |].
  apply Hk.
  - etrans; [| eapply (prep_step (s_job s1)); [exact A5 | exact Hz | reflexivity]].
    etrans; [| by apply (control_prep _ _ A1)].
    etrans; [| apply prep_run; [by constructor | intros []; by constructor]].
    by eapply prep_step.
  - cbn. ctx_solve.
Qed.

(** An update of fields that getting ready may change. *)
Ltac prep_upd := constructor; try done; intros []; by constructor.

(** A new step's timers: neither has fired, and no grace is running. *)
Record fresh_timers (r : job_run) : Prop := {
  fr_step : t_fired (rn_step_timer r) = false;
  fr_grace : t_fired (rn_grace_timer r) = false;
  fr_grace_idle : deadline_of (rn_grace_timer r) = None;
}.

(** Which process comes out of the chain that makes one. *)
Lemma spawn_chain_ok s : data_ok (jb_run (s_job s)) ->
  wp (spawn_chain env) (fun op s' => prep (s_job s) (s_job s') /\ ctx_on (s_ctx s) (s_ctx s') /\
    rn_live_step (jb_run (s_job s')) = rn_live_step (jb_run (s_job s)) /\
    rn_leader_reaped (jb_run (s_job s')) = rn_leader_reaped (jb_run (s_job s)) /\
    match op with
    | Some (_, e) => (0 <= e < 4096)%Z
    | None => fresh_timers (jb_run (s_job s'))
    end) s.
Proof.
  intros Hd. unfold spawn_chain. wps.
  assert (Hmade : forall (m : M W bool) Q s, (m = mret true \/ exists p, m = ask env (QOutputFile p)) ->
    (forall b w, Q b (St (s_job s) ((s_ctx s) <| x_env := w |>))) -> wp m Q s).
  { intros m Q [j x] [->|[p ->]] HQ; [wps; specialize (HQ true (x_env x)); by destruct x | wps; apply HQ]. }
  apply Hmade; [destruct (rn_out_path _); eauto |]. intros made w.
  destruct made; cbn [negb]; [| wps; apply get_errno_ok; intros e x He Hx; wps].
  2:{ split; [done |]. split; [ctx_solve | done]. }
  wps. destruct a; cbn [qwe_timer_open]; cbv zeta beta iota.
  2:{ change (-1 <? 0)%Z with true. wps. apply get_errno_ok. intros e x He Hx. wps.
      split; [prep_upd |]. split; [ctx_solve | done]. }
  change (0 <? 0)%Z with false. wps. destruct a; cbn [qwe_timer_open]; cbv zeta beta iota.
  2:{ change (-1 <? 0)%Z with true. wps. apply get_errno_ok. intros e x He Hx. wps.
      split; [prep_upd |]. split; [ctx_solve | done]. }
  change (0 <? 0)%Z with false. wps. destruct a as [pid|op].
  - wps. split; [prep_upd |]. split; [ctx_solve | done].
  - wps. apply get_errno_ok. intros e x He Hx. wps.
    split; [prep_upd |]. split; [ctx_solve | done].
Qed.

(** A step's start: its process is running, or a start-failed is owed. *)
Record spawned (j j' : job) : Prop := {
  sp_same : same_job j j';
  sp_state : jb_state j' = jb_state j;
  sp_cancel : rn_cancel_told (jb_run j') = rn_cancel_told (jb_run j);
  sp_told : rn_timeout_told (jb_run j') = rn_timeout_told (jb_run j);
  sp_cur : rn_cur (jb_run j') = rn_cur (jb_run j);
  sp_flight : in_flight j';
  sp_phase : (rn_proc_ok (jb_run j') = true /\
    rn_leader_reaped (jb_run j') = false /\
     fresh_timers (jb_run j') /\ rn_followup (jb_run j') = rn_followup (jb_run j)) \/
    (rn_proc_ok (jb_run j') = false /\ rn_followup (jb_run j') = Some QWE_LC_EV_START_FAILED /\
     (0 <= rn_fail_errno (jb_run j') < 4096)%Z);
}.

Lemma prep_flight j j' : started j -> rn_cur (jb_run j) < jb_nsteps j -> prep j j' ->
  rn_live_step (jb_run j') = Z.of_nat (rn_cur (jb_run j)) -> in_flight j'.
Proof.
  intros [S1 S2 S3 S4 S5 S6] Hc [] Hl. constructor; [| congruence |].
  - constructor; try congruence; auto. rewrite pr_cur0. auto.
  - rewrite pr_cur0, (nsteps_same j j') by done. done.
Qed.

(** What happens once the step is resolved. *)
Definition spawn_tail (ms now : Z) : M W unit :=
  let op := if (ms <? 0)%Z then Some ("template"%string, 22%Z) else None in
  let step_ms := if (ms <? 0)%Z then 0%Z else ms in
  mod_run (fun r => r <| rn_step_mono_start := now |> <| rn_live_step := Z.of_nat (rn_cur r) |>
    <| rn_leader_reaped := false |> <| rn_res_buf := [] |> <| rn_res_overflow := false |>
    <| rn_step_changed := true |> <| rn_step_unreachable := false |>);;
  r ← get_run;
  op ← match op, rn_step_target r with
       | None, Some target => ensure_target env target
       | _, _ => mret op
       end;
  match op, rn_step_target r with
  | None, Some _ =>
      gone ← remote_unreachable env;
      mod_run (fun r => r <| rn_step_unreachable := gone |>)
  | _, _ => mret tt
  end;;
  op ← match op with Some op => mret (Some op) | None => spawn_chain env end;
  match op with
  | Some (op, err) => owe_start_failed op err
  | None =>
      when (0 <? step_ms)%Z
        (now ← mono_now_ns env;
         mod_run (fun r => r <| rn_step_timer := fst (qwe_timer_arm now (rn_step_timer r) step_ms) |>));;
      r ← get_run;
      ev_add EV_OUT (rn_live_step r);;
      ev_add EV_RESULT (rn_live_step r);;
      ev_add EV_STEP_TIMER (rn_live_step r);;
      ev_add EV_GRACE_TIMER (rn_live_step r);;
      mod_run (fun r => r <| rn_proc_ok := true |>)
  end.

Definition errno_ok (op : option (string * Z)) : Prop := forall o e, op = Some (o, e) -> (0 <= e < 4096)%Z.

(** The part that asks for the target and makes the process. *)
Lemma spawn_target_ok {A} (op : option (string * Z)) (k : option (string * Z) -> M W A) Q s :
  data_ok (jb_run (s_job s)) -> errno_ok op ->
  (forall op s', prep (s_job s) (s_job s') -> ctx_on (s_ctx s) (s_ctx s') -> errno_ok op ->
    rn_live_step (jb_run (s_job s')) = rn_live_step (jb_run (s_job s)) ->
    rn_leader_reaped (jb_run (s_job s')) = rn_leader_reaped (jb_run (s_job s)) ->
    (op = None -> fresh_timers (jb_run (s_job s'))) -> wp (k op) Q s') ->
  wp (r ← get_run;
      op ← match op, rn_step_target r with
           | None, Some target => ensure_target env target
           | _, _ => mret op
           end;
      match op, rn_step_target r with
      | None, Some _ =>
          gone ← remote_unreachable env;
          mod_run (fun r => r <| rn_step_unreachable := gone |>)
      | _, _ => mret tt
      end;;
      op ← match op with Some op => mret (Some op) | None => spawn_chain env end;
      k op) Q s.
Proof.
  intros Hd He Hk. apply wp_bind, wp_get_run, wp_bind. set (t := rn_step_target _).
  eapply (wp_mono _ (fun op s' => same_control (s_job s) (s_job s') /\ ctx_on (s_ctx s) (s_ctx s') /\
    data_ok (jb_run (s_job s')) /\ errno_ok op)).
  { destruct op; [by wps |]. destruct t; [by apply ensure_target_ok | by wps]. }
  clear op He. intros op s1 (A1 & A2 & A3 & A4). apply wp_bind.
  eapply (wp_mono _ (fun _ s' => same_control (s_job s) (s_job s') /\ ctx_on (s_ctx s) (s_ctx s') /\
    data_ok (jb_run (s_job s')))).
  { destruct op, t; try by wps. apply wp_bind.
    eapply wp_mono; [by apply remote_unreachable_ok |]. intros gone s2 (B1 & B2 & B3). wps.
    split; [etrans; [exact A1 |]; etrans; [exact B1 |]; by constructor |].
    split; [by etrans |]. destruct B3. by constructor. }
  intros _ s2 (B1 & B2 & B3). apply wp_bind.
  destruct op as [[o e]|].
  - wps. destruct B1. apply Hk; try done. by apply control_prep.
  - eapply wp_mono; [by apply spawn_chain_ok |]. intros op s3 (C1 & C2 & C3 & C4 & C5). pose proof B1 as [].
    apply Hk; [etrans; [by apply control_prep | done] | by etrans | | congruence | congruence | by intros ->].
    by intros o e ->.
Qed.

Lemma arm_fired now t ms : t_fired (fst (qwe_timer_arm now t ms)) = t_fired t.
Proof. unfold qwe_timer_arm. destruct (t_fd t); [by destruct (timerfd_settime _ _ _) | done]. Qed.

(** The timer is armed, the descriptors are watched and the process counts. *)
Lemma spawn_watch_ok step_ms s :
  wp (when (0 <? step_ms)%Z
        (now ← mono_now_ns env;
         mod_run (fun r => r <| rn_step_timer := fst (qwe_timer_arm now (rn_step_timer r) step_ms) |>));;
      r ← get_run;
      ev_add EV_OUT (rn_live_step r);;
      ev_add EV_RESULT (rn_live_step r);;
      ev_add EV_STEP_TIMER (rn_live_step r);;
      ev_add EV_GRACE_TIMER (rn_live_step r);;
      mod_run (fun r => r <| rn_proc_ok := true |>))
    (fun _ s' => ctx_on (s_ctx s) (s_ctx s') /\
      exists t, t_fired t = t_fired (rn_step_timer (jb_run (s_job s))) /\
        s_job s' = (s_job s) <| jb_run := (jb_run (s_job s)) <| rn_step_timer := t |> <| rn_proc_ok := true |> |>) s.
Proof.
  apply wp_bind. eapply (wp_mono _ (fun _ s' => ctx_on (s_ctx s) (s_ctx s') /\
    exists t, t_fired t = t_fired (rn_step_timer (jb_run (s_job s))) /\
      s_job s' = (s_job s) <| jb_run := (jb_run (s_job s)) <| rn_step_timer := t |> |>)).
  { apply wp_when; intros _.
    - wps. apply mono_now_ok. intros now x Hx _ _. wps. split; [done |]. eexists. split; [| done]. apply arm_fired.
    - split; [done |]. exists (rn_step_timer (jb_run (s_job s))). by destruct (s_job s) as [???????????????[]]. }
  intros _ s1 (Hx & t & Ht & E). unfold ev_add. wps. rewrite E. split; [etrans; [exact Hx |]; by constructor | by exists t].
Qed.

Lemma spawn_tail_ok ms now s0 s : started (s_job s0) -> rn_cur (jb_run (s_job s0)) < jb_nsteps (s_job s0) ->
  rn_proc_ok (jb_run (s_job s0)) = false -> prep (s_job s0) (s_job s) -> ctx_on (s_ctx s0) (s_ctx s) ->
  wp (spawn_tail ms now) (fun _ s' => spawned (s_job s0) (s_job s') /\ ctx_on (s_ctx s0) (s_ctx s')) s.
Proof.
  intros Hst Hc Hpr Hp Hx. unfold spawn_tail. cbv zeta. apply wp_bind, wp_mod_run.
  apply spawn_target_ok.
  { destruct (pr_data _ _ Hp (sa_data _ Hst)). by constructor. }
  { intros o e. destruct (ms <? 0)%Z; [intros [= <- <-]; lia | done]. }
  cbn [s_job s_ctx]. intros op s1 P1 P2 P3 P4 P5 P6. cbn [rn_live_step rn_leader_reaped jb_run setf] in P4, P5.
  assert (Hp1 : prep (s_job s0) (s_job s1)) by (etrans; [exact Hp |]; etrans; [| exact P1]; prep_upd).
  rewrite (pr_cur _ _ Hp) in P4. assert (Hx1 : ctx_on (s_ctx s0) (s_ctx s1)) by by etrans.
  pose proof (prep_flight _ _ Hst Hc Hp1 P4) as [[[l []] ? ? ? []] ? ?].
  destruct op as [[o e]|].
  - unfold owe_start_failed. wps. split; [| done]. destruct Hp1. constructor; cbn; try done.
    + destruct pr_same0. by constructor.
    + constructor; cbn; try done. constructor; cbn; try done; first [by exists l | by constructor].
    + right. split_and!; [congruence | done | by eapply P3 | by eapply P3].
  - eapply wp_mono; [apply spawn_watch_ok |]. intros _ s2 (Hx2 & t & Ht & ->). split; [| by etrans].
    destruct (P6 eq_refl).
    destruct Hp1. constructor; cbn; try done.
    + destruct pr_same0. by constructor.
    + constructor; cbn; try done. constructor; cbn; try done; first [by exists l | by constructor].
    + left. split_and!; auto. constructor; cbn; congruence.
Qed.

Lemma step_spawn_ok s : started (s_job s) -> rn_cur (jb_run (s_job s)) < jb_nsteps (s_job s) ->
  rn_proc_ok (jb_run (s_job s)) = false ->
  wp (step_spawn env) (fun _ s' => spawned (s_job s) (s_job s') /\ ctx_on (s_ctx s) (s_ctx s')) s.
Proof.
  intros Hst Hc Hp. apply (spawn_head_ok spawn_tail); [done | done |].
  intros ms now s1 Hp1 Hx1. by apply spawn_tail_ok.
Qed.
End spawning.
