(* ===== verification/Send.v ===== *)
(** * Events keep a job's invariant

    The second half of the argument about one job: [dispatch_one], [job_send]
    and [job_event] of [src/kernel/workflow.c], for every event the engine can
    deliver in every state.  No event reaches an impossible cell of the table,
    every loop of [job_send] ends, and the job is left waiting for the outside
    world in a state its resources, timers and recorded outcomes agree with. *)

From Stdlib Require Import Ascii NArith ZArith Lia.
From stdpp Require Import base sets list strings numbers pretty.
From S2P Require Import Prelude Fmt Lifecycle Ring Redact Sink Trace Result Job Engine EngineOk.

(** ** One dispatch *)

(** The job once the table has answered and before any action runs. *)
Definition dispatched (ev : qwe_lc_event) (res : qwe_lc_result) (j : job) : job :=
  j <| jb_state := r_next res |>
    <| jb_run := (jb_run j)
         <| rn_cancel_told := bool_decide (ev = QWE_LC_EV_CANCEL) || rn_cancel_told (jb_run j) |>
         <| rn_timeout_told := bool_decide (ev = QWE_LC_EV_JOB_TIMEOUT) || rn_timeout_told (jb_run j) |>
         <| rn_last_reason := match r_reason res with Some r => Some r | None => rn_last_reason (jb_run j) end |> |>.

Section dispatch.
Context {W : Type} (env : environment W).

Lemma errno_detail_ok r : (0 <= rn_fail_errno r < 4096)%Z -> exists d, start_failed_detail r = CRet d.
Proof.
  intros He. unfold start_failed_detail, qwe_errno_name.
  destruct (errno_name_np (rn_fail_errno r)); cstep; [by eexists |].
  rewrite qwe_xfmt_fits; cstep; [by eexists |].
  rewrite length_app, length_bytes_of. destruct (dec_digits 4 (rn_fail_errno r)) as [_ Hl]; [lia | lia |]. simpl. lia.
Qed.

Lemma debug_trace_ok ev s : small (s_job s) -> (rn_live_step (jb_run (s_job s)) < 2 ^ 63)%Z ->
  wp (when (tr_debug (x_trace (s_ctx s)))
       (trace_record env (shown_step (s_job s)) (jb_state (s_job s)) (qwe_lc_event_name ev) None "event" None None))
    (fun _ s' => s_job s' = s_job s /\ ctx_on (s_ctx s) (s_ctx s')) s.
Proof.
  intros Hs Hl. apply wp_when; intros _; [| done]. by apply trace_record_ok, shown_bound.
Qed.

(** A stale event changes nothing but the trace. *)
Lemma dispatch_stale ev pl ev_step s : small (s_job s) -> (rn_live_step (jb_run (s_job s)) < 2 ^ 63)%Z ->
  qwe_lc_event_is_stale (jb_state (s_job s)) ev ev_step (rn_live_step (jb_run (s_job s))) = true ->
  wp (dispatch_one env ev pl ev_step) (fun _ s' => s_job s' = s_job s /\ ctx_on (s_ctx s) (s_ctx s')) s.
Proof.
  intros Hs Hl Hstale. unfold dispatch_one. wps.
  eapply wp_mono; [by apply debug_trace_ok |]. intros _ s1 [E Hx]. rewrite Hstale.
  eapply wp_mono; [by apply trace_record_ok, shown_bound |]. intros _ s2 [E2 Hx2]. split; [congruence | by etrans].
Qed.

(** An event that is not stale and that the table accepts. *)
Lemma dispatch_fresh ev pl ev_step res Q s : small (s_job s) -> (rn_live_step (jb_run (s_job s)) < 2 ^ 63)%Z ->
  (ev = QWE_LC_EV_START_FAILED -> (0 <= rn_fail_errno (jb_run (s_job s)) < 4096)%Z) ->
  qwe_lc_event_is_stale (jb_state (s_job s)) ev ev_step (rn_live_step (jb_run (s_job s))) = false ->
  qwe_lc_lookup (jb_state (s_job s)) ev
    (Some (Payload (p_coe pl) (p_reason pl) (rn_last_reason (jb_run (s_job s))))) = inl res ->
  (forall x, ctx_on (s_ctx s) x ->
    wp (when (bool_decide (ev = QWE_LC_EV_GROUP_EMPTY)) (step_finish env);; apply_actions env (r_actions res) res) Q
      (St (dispatched ev res (s_job s)) x)) ->
  wp (dispatch_one env ev pl ev_step) Q s.
Proof.
  intros Hs Hl He Hstale Hres HQ. unfold dispatch_one. wps.
  eapply wp_mono; [by apply debug_trace_ok |]. intros _ s1 [E Hx]. rewrite Hstale.
  apply wp_bind. apply (wp_mono _ (fun _ s' => s_job s' = (s_job s) <| jb_run := (jb_run (s_job s))
    <| rn_cancel_told := bool_decide (ev = QWE_LC_EV_CANCEL) || rn_cancel_told (jb_run (s_job s)) |> |> /\
    ctx_on (s_ctx s) (s_ctx s'))).
  { apply wp_when; intros ->; wps; (split; [| done]); rewrite E; [done |]. by destruct (s_job s) as [???????????????[]]. }
  clear s1 E Hx. intros _ s1 [E Hx]. apply wp_bind.
  apply (wp_mono _ (fun _ s' => s_job s' = (s_job s1) <| jb_run := (jb_run (s_job s1))
    <| rn_timeout_told := bool_decide (ev = QWE_LC_EV_JOB_TIMEOUT) || rn_timeout_told (jb_run (s_job s1)) |> |> /\
    ctx_on (s_ctx s) (s_ctx s'))).
  { apply wp_when; intros ->; wps; (split; [| done]); [done |]. by destruct (s_job s1) as [???????????????[]]. }
  intros _ s2 [E2 Hx2]. wps. assert (Hlr : rn_last_reason (jb_run (s_job s2)) = rn_last_reason (jb_run (s_job s)))
    by (rewrite E2, E; done).
  rewrite Hlr, Hres. apply wp_bind.
  apply (wp_mono _ (fun _ s' => s' = s2)).
  { apply wp_if; [|by wps]. intros Hev%bool_decide_eq_true. apply wp_bind.
    destruct (errno_detail_ok (jb_run (s_job s2))) as [d Hd]; [rewrite E2, E; by apply He |].
    wplift Hd. by wps. }
  intros detail ? ->. apply wp_bind. eapply wp_mono; [by apply trace_record_ok, shown_bound |].
  intros _ s3 [E3 Hx3]. wps.
  apply (wp_mono _ (fun _ s' => s_job s' = dispatched ev res (s_job s) /\ ctx_on (s_ctx s) (s_ctx s'))).
  { rewrite E3, E2, E. unfold dispatched.
    destruct (r_reason res) as [r|]; cbn [is_Some]; apply wp_when.
    - intros _. wps. split; [done | by etrans].
    - intros []%bool_decide_eq_false. by eexists.
    - intros [? [=]]%bool_decide_eq_true.
    - intros _. cbn. split; [| by etrans]. by destruct (s_job s) as [???????????????[]]. }
  intros _ [j x] [Ej Hxx]. cbn in Ej, Hxx. subst j. by apply HQ.
Qed.
End dispatch.

(** ** A step in flight *)

(** The actions that act on a step in flight and keep it so. *)
Definition in_flight_action (a : qwe_lc_action) : bool :=
  match a with
  | QWE_LC_ACT_NONE | QWE_LC_ACT_SIGTERM_GROUP | QWE_LC_ACT_ARM_GRACE | QWE_LC_ACT_SIGKILL_GROUP
  | QWE_LC_ACT_RECORD_STEP => true
  | _ => false
  end.

Definition has_action (a : qwe_lc_action) (l : list qwe_lc_action) : bool := bool_decide (a ∈ l).

(** What such actions leave. *)
Record flew (l : list qwe_lc_action) (j j' : job) : Prop := {
  fw_same : same_job j j';
  fw_state : jb_state j' = jb_state j;
  fw_flight : in_flight j -> in_flight j';
  fw_proc : rn_proc_ok (jb_run j') = rn_proc_ok (jb_run j);
  fw_reaped : rn_leader_reaped (jb_run j') = rn_leader_reaped (jb_run j);
  fw_step_timer : rn_step_timer (jb_run j') = rn_step_timer (jb_run j);
  fw_grace_timer : has_action QWE_LC_ACT_ARM_GRACE l = false -> rn_grace_timer (jb_run j') = rn_grace_timer (jb_run j);
  fw_grace_fired : t_fired (rn_grace_timer (jb_run j')) = t_fired (rn_grace_timer (jb_run j));
  fw_grace_kept : deadline_of (rn_grace_timer (jb_run j)) <> None -> deadline_of (rn_grace_timer (jb_run j')) <> None;
  fw_told : rn_timeout_told (jb_run j') = rn_timeout_told (jb_run j);
  fw_cancel : rn_cancel_told (jb_run j') = rn_cancel_told (jb_run j);
  fw_cur : rn_cur (jb_run j') = rn_cur (jb_run j);
  fw_live : rn_live_step (jb_run j') = rn_live_step (jb_run j);
  fw_followup : rn_followup (jb_run j') = rn_followup (jb_run j);
  fw_outcomes : forall n, outcomes j n -> outcomes j' n;
  fw_recorded : has_action QWE_LC_ACT_RECORD_STEP l = true -> outcomes j (rn_cur (jb_run j)) ->
    outcomes j' (S (rn_cur (jb_run j)));
}.

Lemma control_flight j j' : same_control j j' -> data_ok (jb_run j') -> in_flight j -> in_flight j'.
Proof.
  intros Hc Hd [[S1 S2 S3 S4 S5 S6] F2 F3]. pose proof (nsteps_same _ _ (sc_job _ _ Hc)) as Hn.
  destruct Hc. constructor; [constructor | |]; try congruence.
  - by rewrite sc_steps, Hn.
  - rewrite sc_cur. by apply (outcomes_same j).
Qed.

Lemma flew_control a j j' : a <> QWE_LC_ACT_RECORD_STEP ->
  same_control j j' -> (in_flight j -> in_flight j') -> flew [a] j j'.
Proof.
  intros Ha Hc Hf. destruct Hc. constructor; try done; try congruence.
  - intros n. by apply outcomes_same.
  - intros H%bool_decide_eq_true. set_solver.
Qed.

Lemma flew_trans a l j j1 j2 : flew [a] j j1 -> flew l j1 j2 -> flew (a :: l) j j2.
Proof.
  intros [] []. constructor; try congruence; auto.
  - by etrans.
  - unfold has_action. intros H%bool_decide_eq_false. rewrite not_elem_of_cons in H. destruct H.
    rewrite fw_grace_timer1, fw_grace_timer0; [done | |]; apply bool_decide_eq_false; [set_solver | done].
  - intros H Ho. apply bool_decide_eq_true in H. apply elem_of_cons in H as [<-|H].
    + apply fw_outcomes1, fw_recorded0; [| done]. apply bool_decide_eq_true. set_solver.
    + rewrite <- fw_cur0. apply fw_recorded1; [by apply bool_decide_eq_true |]. rewrite fw_cur0. auto.
Qed.

Lemma flew_nil j : flew [] j j.
Proof. by constructor. Qed.

(** A timer that is armed stays pending. *)
Lemma arm_pending now t ms : deadline_of t <> None -> deadline_of (fst (qwe_timer_arm now t ms)) <> None.
Proof.
  unfold deadline_of, qwe_timer_arm. destruct t as [[f|] fired]; cbn; [| done]. intros H.
  unfold timerfd_settime. destruct (_ || _ || _)%Z; [done |].
  destruct (Z.eqb_spec (ns_of (arm_value ms)) 0) as [E|]; cbn; [| done].
  unfold arm_value, ns_of in E. destruct (Z.leb_spec ms 0); cbn in E; [lia |].
  pose proof (Z.quot_rem' ms 1000). pose proof (Z.rem_bound_pos ms 1000 ltac:(lia) ltac:(lia)). lia.
Qed.

Section flight.
Context {W : Type} (env : environment W).

Lemma record_flight j j' : recorded j j' -> in_flight j -> in_flight j'.
Proof.
  intros [(l & Hc & Hlen) Hd _ Hm] [[S1 S2 S3 S4 S5 S6] F2 F3].
  pose proof (nsteps_same _ _ (sc_job _ _ Hc)) as Hn. change (jb_nsteps (j <| jb_steps := Some l |>)) with (jb_nsteps j) in Hn.
  destruct Hc. cbn in *. constructor; [constructor | |]; try congruence; auto.
  - exists l. split; [done | congruence].
  - rewrite sc_cur. auto.
Qed.

Lemma record_flew res s : in_flight (s_job s) ->
  wp (record_step env res) (fun _ s' => flew [QWE_LC_ACT_RECORD_STEP] (s_job s) (s_job s') /\ ctx_on (s_ctx s) (s_ctx s')) s.
Proof.
  intros Hf. pose proof Hf as [[(l & Hl & Hlen) _ _ _ _ _] _ Hc].
  eapply wp_mono; [by eapply record_step_ok |]. intros _ s1 (Hr & Hx). split; [| done].
  pose proof (record_flight _ _ Hr) as Hfl. destruct Hr as [(l' & [] & _) _ Ho Hm]. cbn in *.
  constructor; try done; try congruence.
  - destruct sc_job. by constructor.
Qed.

Lemma kill_flew a name signal s : a <> QWE_LC_ACT_RECORD_STEP -> in_flight (s_job s) ->
  wp (remote_kill env name;; kill_group env signal)
    (fun _ s' => flew [a] (s_job s) (s_job s') /\ ctx_on (s_ctx s) (s_ctx s')) s.
Proof.
  intros Ha Hf. eapply wp_mono.
  - apply output_bind; [apply remote_kill_ok | intros _; apply kill_group_ok | apply Hf].
  - intros _ s' (H1 & H2 & H3). split; [| done]. apply flew_control; [done | done |]. by apply control_flight.
Qed.

Lemma grace_flew s : in_flight (s_job s) ->
  wp (now ← mono_now_ns env;
      x ← get_ctx;
      mod_run (fun r => r <| rn_grace_timer := fst (qwe_timer_arm now (rn_grace_timer r) (x_grace_ms x)) |>))
    (fun _ s' => flew [QWE_LC_ACT_ARM_GRACE] (s_job s) (s_job s') /\ ctx_on (s_ctx s) (s_ctx s')) s.
Proof.
  intros Hf. wps. apply mono_now_ok. intros now x Hx _ _. wps. split; [| done].
  constructor; try done; cbn.
  - intros [[S1 S2 S3 S4 [] S6] F2 F3]. constructor; [constructor | |]; by cbn.
  - apply arm_fired.
  - apply arm_pending.
Qed.

Lemma actions_fly l res s : in_flight (s_job s) -> forallb in_flight_action l = true ->
  wp (apply_actions env l res) (fun _ s' => flew l (s_job s) (s_job s') /\ ctx_on (s_ctx s) (s_ctx s')) s.
Proof.
  revert s. induction l as [|a l IH]; intros s Hf Ha; cbn [apply_actions].
  { wps. split; [apply flew_nil | done]. }
  apply andb_true_iff in Ha as [Ha Hl]. apply wp_bind.
  eapply (wp_mono _ (fun _ s' => flew [a] (s_job s) (s_job s') /\ ctx_on (s_ctx s) (s_ctx s'))).
  { destruct a; try done; cbn [apply_action].
    - by apply kill_flew.
    - by apply grace_flew.
    - by apply kill_flew.
    - by apply record_flew. }
  intros _ s1 (H1 & H2). eapply wp_mono; [apply IH; [by eapply fw_flight | done] |].
  intros _ s2 (H3 & H4). split; [by eapply flew_trans | by etrans].
Qed.
End flight.

(** The events the outside world sends to a step in flight, its group's end
    apart. *)
Definition flight_event (ev : qwe_lc_event) : bool :=
  match ev with
  | QWE_LC_EV_LEADER_EXIT_OK | QWE_LC_EV_LEADER_EXIT_FAIL | QWE_LC_EV_STEP_TIMEOUT | QWE_LC_EV_JOB_TIMEOUT
  | QWE_LC_EV_CANCEL | QWE_LC_EV_GRACE_EXPIRED => true
  | _ => false
  end.

Definition leader_event (ev : qwe_lc_event) : bool :=
  match ev with QWE_LC_EV_LEADER_EXIT_OK | QWE_LC_EV_LEADER_EXIT_FAIL => true | _ => false end.

(** What the table's answer to such an event has to be for the job's timers,
    outcomes and flags to agree with the state again. *)
Record flight_cell (s : qwe_lc_state) (ev : qwe_lc_event) (res : qwe_lc_result) : Prop := {
  fc_actions : forallb in_flight_action (r_actions res) = true;
  fc_next : Model.step_in_flight (r_next res) = true;
  fc_waiting : Model.waiting_for_empty_group (r_next res) = true ->
    has_action QWE_LC_ACT_RECORD_STEP (r_actions res) = true \/ Model.waiting_for_empty_group s = true;
  fc_leader : leader_event ev = true \/ Model.waiting_for_empty_group s = true ->
    Model.waiting_for_empty_group (r_next res) = true;
  fc_stopping : stopping (r_next res) = true -> stopping s = true \/ ev = QWE_LC_EV_STEP_TIMEOUT;
  fc_grace : Model.grace_timer_running (r_next res) = false ->
    has_action QWE_LC_ACT_ARM_GRACE (r_actions res) = false /\
    (Model.grace_timer_running s = false \/ ev = QWE_LC_EV_GRACE_EXPIRED);
  fc_arm : has_action QWE_LC_ACT_ARM_GRACE (r_actions res) = true -> undisturbed s = true;
  fc_disturbed : undisturbed (r_next res) = false;
  fc_timeout : cancel_timeout (r_next res) = true -> cancel_timeout s = true \/ ev = QWE_LC_EV_JOB_TIMEOUT;
}.

(** The table does answer so, in every cell the event model allows. *)
Lemma flight_cell_ok s ev pl : Model.step_in_flight s = true -> flight_event ev = true -> Model.can_occur s ev = true ->
  exists res, qwe_lc_lookup s ev (Some pl) = inl res /\ flight_cell s ev res.
Proof.
  intros Hs He Hc. destruct s; try discriminate Hs; destruct ev; try discriminate He; try discriminate Hc;
    (eexists; split; [reflexivity |]);
    (constructor; cbn; try done; first [by left | by right | by intros [] | by split; [| left] | by split; [| right]]).
Qed.

Lemma phase_flying j : Model.step_in_flight (jb_state j) = true -> phase_ok j <-> flying j.
Proof. unfold phase_ok. by destruct (jb_state j). Qed.

(** A step in flight that the event [ev] reaches: a leader already reaped, a
    timer already read. *)
Record flying_for (ev : qwe_lc_event) (j : job) : Prop := {
  ff_flight : in_flight j;
  ff_proc : rn_proc_ok (jb_run j) = true;
  ff_reaped : rn_leader_reaped (jb_run j) = true ->
    leader_event ev = true \/ Model.waiting_for_empty_group (jb_state j) = true;
  ff_step_timer : stopping (jb_state j) = true \/ ev = QWE_LC_EV_STEP_TIMEOUT ->
    deadline_of (rn_step_timer (jb_run j)) = None;
  ff_grace_timer : Model.grace_timer_running (jb_state j) = false \/ ev = QWE_LC_EV_GRACE_EXPIRED ->
    deadline_of (rn_grace_timer (jb_run j)) = None;
  ff_step_sane : timer_sane (rn_step_timer (jb_run j));
  ff_grace_sane : timer_sane (rn_grace_timer (jb_run j));
  ff_grace_new : undisturbed (jb_state j) = true -> t_fired (rn_grace_timer (jb_run j)) = false;
  ff_told : cancel_timeout (jb_state j) = true -> rn_timeout_told (jb_run j) = true;
  ff_outcome : Model.waiting_for_empty_group (jb_state j) = true -> outcomes j (S (rn_cur (jb_run j)));
  ff_state : Model.step_in_flight (jb_state j) = true;
  ff_event : flight_event ev = true;
  ff_occurs : Model.can_occur (jb_state j) ev = true;
  ff_followup : rn_followup (jb_run j) = None;
  ff_small : small j;
}.

Lemma flight_small j : in_flight j -> small j -> (rn_live_step (jb_run j) < 2 ^ 63)%Z.
Proof. intros [_ H1 H2] Hs. unfold small in Hs. lia. Qed.

Lemma dispatched_flight ev res j : in_flight j -> in_flight (dispatched ev res j).
Proof. intros [[S1 S2 S3 S4 [] S6] F2 F3]. constructor; [constructor | |]; by cbn. Qed.

(** What the actions leave after an event that a step in flight got. *)
Lemma flew_flying ev res j j' : flying_for ev j -> flight_cell (jb_state j) ev res ->
  flew (r_actions res) (dispatched ev res j) j' -> flying j' /\ adv true true j j'.
Proof.
  intros [F1 F2 F3 F4 F5 Fa Fb Fc F6 F7 F8 F9 F10 F11 F12] [C1 C2 C3 C4 C5 C6 Ca Cb C7] [].
  assert (Hst : jb_state j' = r_next res) by done.
  assert (Hcur : rn_cur (jb_run j') = rn_cur (jb_run j)) by done. split.
  - constructor.
    + by apply fw_flight0, dispatched_flight.
    + by rewrite fw_proc0.
    + rewrite fw_reaped0, Hst. intros H. by apply C4, F3.
    + rewrite fw_step_timer0, Hst. intros H. by apply F4, C5.
    + rewrite Hst. intros H. destruct (C6 H) as [H1 H2]. rewrite fw_grace_timer0 by done. by apply F5.
    + by rewrite fw_step_timer0.
    + unfold timer_sane. rewrite fw_grace_fired0. intros H.
      destruct (has_action QWE_LC_ACT_ARM_GRACE (r_actions res)); [| rewrite fw_grace_timer0 by done; by apply Fb].
      specialize (Fc (Ca eq_refl)). cbn in H. congruence.
    + by rewrite Hst, Cb.
    + rewrite fw_told0, Hst. intros [H|H]%C7; cbn; [rewrite F6 by done; by destruct (bool_decide _) |].
      by rewrite bool_decide_eq_true_2.
    + rewrite Hst, Hcur. intros [H|H]%C3.
      * apply (fw_recorded0 H). change (outcomes j (rn_cur (jb_run j))). apply F1.
      * apply fw_outcomes0. change (outcomes j (S (rn_cur (jb_run j)))). by apply F7.
  - assert (Hns : not_started (jb_state j') = false) by (rewrite Hst; by destruct (r_next res)).
    constructor.
    + destruct fw_same0. by constructor.
    + done.
    + intros H. by destruct (jb_state j).
    + lia.
    + intros _. by left.
    + intros _. by left.
    + intros _ _ _. by rewrite fw_step_timer0.
    + intros _ _ _. apply fw_grace_kept0.
    + rewrite fw_cancel0. cbn. intros ->. by destruct (bool_decide _).
Qed.

Section send.
Context {W : Type} (env : environment W).

(** The loop of [job_send] stops at a job that waits for the outside world. *)
Lemma send_owed_calm n (s : st W) : inv (s_job s) -> wp (send_owed env (S n)) (fun _ s' => s' = s) s.
Proof.
  intros [[_ Hf _] Hst]. cbn [send_owed]. wps. rewrite Hf, bool_decide_eq_false_2 by done. by wps.
Qed.

Lemma flight_dispatch ev pl ev_step s : flying_for ev (s_job s) ->
  qwe_lc_event_is_stale (jb_state (s_job s)) ev ev_step (rn_live_step (jb_run (s_job s))) = false ->
  wp (dispatch_one env ev pl ev_step) (fun _ s' => inv (s_job s') /\ adv true true (s_job s) (s_job s') /\
    ctx_on (s_ctx s) (s_ctx s') /\ (ev = QWE_LC_EV_CANCEL -> rn_cancel_told (jb_run (s_job s')) = true)) s.
Proof.
  intros Hf Hstale. pose proof Hf as [F1 F2 F3 F4 F5 _ _ _ F6 F7 F8 F9 F10 F11 F12].
  destruct (flight_cell_ok (jb_state (s_job s)) ev (Payload (p_coe pl) (p_reason pl) (rn_last_reason (jb_run (s_job s)))))
    as (res & Hres & Hcell); [done | done | done |].
  eapply dispatch_fresh; [done | by apply flight_small | by intros -> | done | exact Hres |].
  intros x Hx. rewrite bool_decide_eq_false_2 by (by intros ->). apply wp_bind, wp_ret.
  eapply wp_mono; [apply actions_fly; [by apply dispatched_flight | apply Hcell] |].
  intros _ s' (Hw & Hx'). destruct (flew_flying _ _ _ _ Hf Hcell Hw) as [H1 H2]. pose proof Hw as [].
  assert (Hst : jb_state (s_job s') = r_next res) by done.
  pose proof (fc_next _ _ _ Hcell) as Hn.
  split_and!; [| done | by etrans |].
  - split; [constructor |].
    + unfold small. rewrite (nsteps_same _ _ (ad_same _ _ _ _ H2)). done.
    + by rewrite fw_followup0.
    + apply phase_flying; [by rewrite Hst | done].
    + rewrite Hst. by intros E; rewrite E in Hn.
  - intros ->. by rewrite fw_cancel0.
Qed.

(** ** The end of a job *)

(** The job waits for the outside world again, and has moved on. *)
Definition settles (s s' : st W) : Prop :=
  inv (s_job s') /\ adv true true (s_job s) (s_job s') /\ ctx_on (s_ctx s) (s_ctx s').

Definition end_actions : list qwe_lc_action :=
  [QWE_LC_ACT_RECORD_JOB; QWE_LC_ACT_END_JOB; QWE_LC_ACT_NONE; QWE_LC_ACT_NONE].

Definition fail_actions : list qwe_lc_action :=
  [QWE_LC_ACT_RECORD_STEP; QWE_LC_ACT_RECORD_JOB; QWE_LC_ACT_END_JOB; QWE_LC_ACT_NONE].

(** The reason is no part of what the invariant speaks of. *)
Lemma endable_reason j r : endable j -> endable (j <| jb_reason := r |>).
Proof.
  intros [(H1 & H2 & H3)|[[[H1 H2 H3 H4 H5 H6] H7 H8]|[[[H1 H2 H3 H4 H5 H6] H7 H8] H9]]].
  - by left.
  - right. left. constructor; [by constructor | done | done].
  - right. right. split; [constructor; [by constructor | done | done] | done].
Qed.

Lemma ended_reason j j' r : ended (j <| jb_reason := r |>) j' -> ended j j'.
Proof. intros [[] ? ? ? ? ?]. by constructor. Qed.

Lemma end_actions_ok res (s : st W) : endable (s_job s) ->
  wp (apply_actions env end_actions res) (fun _ s' => ended (s_job s) (s_job s') /\ ctx_on (s_ctx s) (s_ctx s')) s.
Proof.
  intros H. cbn [apply_actions apply_action end_actions]. wps.
  eapply wp_mono; [apply job_end_ok; cbn [s_job]; by apply endable_reason |].
  intros _ s1 (H1 & H2). wps. split; [by eapply ended_reason | done].
Qed.

Lemma fail_actions_ok res (s : st W) : in_flight (s_job s) -> 
  wp (apply_actions env fail_actions res) (fun _ s' => ended (s_job s) (s_job s') /\ ctx_on (s_ctx s) (s_ctx s')) s.
Proof.
  intros H. cbn [apply_actions apply_action fail_actions]. apply wp_bind.
  eapply wp_mono; [by apply record_flew |]. intros _ s1 (H1 & H2).
  eapply (wp_mono (apply_actions env end_actions res)).
  - apply end_actions_ok. right. right. split; [by eapply fw_flight |]. rewrite (fw_cur _ _ _ H1).
    apply (fw_recorded _ _ _ H1); [done |]. apply H.
  - intros _ s2 ([] & H4). destruct H1. split; [| by etrans]. constructor; try done; try congruence.
    + by etrans.
    + lia.
Qed.

(** A job that the table has sent to a final state and that has ended there. *)
Lemma ended_settles ev res (s s' : st W) : small (s_job s) -> rn_followup (jb_run (s_job s)) = None ->
  qwe_lc_state_is_final (jb_state (s_job s)) = false -> qwe_lc_state_is_final (r_next res) = true ->
  ended (dispatched ev res (s_job s)) (s_job s') -> ctx_on (s_ctx s) (s_ctx s') -> settles s s'.
Proof.
  intros Hs Hf Hn Hfin [E1 E2 E3 E4 E5 E6 E7] Hx. cbn in E2, E4, E5, E6, E7.
  assert (Hsj : same_job (s_job s) (s_job s')) by (destruct E1; by constructor).
  pose proof (fi_idle _ E3) as [Hi1 Hi2]. split_and!; [| | done].
  - split; [constructor |].
    + unfold small. by rewrite (nsteps_same _ _ Hsj).
    + by rewrite E4.
    + unfold phase_ok. rewrite E2. by destruct (r_next res).
    + rewrite E2. by destruct (r_next res).
  - constructor.
    + done.
    + intros _. rewrite E2. by destruct (r_next res).
    + by rewrite Hn.
    + done.
    + intros H. right. by apply E7.
    + lia.
    + intros _ ? ?. lia.
    + intros _ ? ?. lia.
    + rewrite E5. intros ->. by destruct (bool_decide _).
Qed.

(** ** Between two steps *)

(** Reading the job's timer. *)
Definition with_timer (t : qwe_timer) (j : job) : job := j <| jb_run := (jb_run j) <| rn_timer := t |> |>.

Lemma with_timer_id j : with_timer (rn_timer (jb_run j)) j = j.
Proof. by destruct j as [???????????????[]]. Qed.

Lemma between_timer t j : between j -> between (with_timer t j).
Proof. intros [[H1 H2 H3 H4 [] H6] H7 H8]. by constructor; [constructor | |]. Qed.

Lemma between_steps_event_ok (s : st W) : between (s_job s) ->
  wp (between_steps_event env) (fun p s' => (exists t, s_job s' = with_timer t (s_job s)) /\ ctx_on (s_ctx s) (s_ctx s') /\
    (fst p = QWE_LC_EV_CANCEL \/ fst p = QWE_LC_EV_JOB_TIMEOUT \/ fst p = QWE_LC_EV_NO_MORE_STEPS \/
     (fst p = QWE_LC_EV_NEXT_STEP /\ rn_cur (jb_run (s_job s)) < jb_nsteps (s_job s)))) s.
Proof.
  intros Hb. unfold between_steps_event. apply wp_bind, wp_get_run, wp_bind.
  eapply (wp_mono _ (fun _ s' => s_job s' = s_job s /\ ctx_on (s_ctx s) (s_ctx s'))).
  { apply wp_if; intros _; [by wps |]. unfold poll_cancel. wps. split; [done |].
    constructor; cbn; [lia | by intros ->]. }
  intros cancelled s1 [E1 Hx1]. apply wp_if; intros _.
  { wps. split; [exists (rn_timer (jb_run (s_job s))); by rewrite with_timer_id |]. split; [done | by left]. }
  apply wp_bind.
  eapply (wp_mono _ (fun _ s' => (exists t, s_job s' = with_timer t (s_job s)) /\ ctx_on (s_ctx s) (s_ctx s'))).
  { apply wp_if; intros _.
    - apply wp_bind. apply mono_now_ok. intros now x Hx _ _. destruct (qwe_timer_expired _ _) as [t b]. wps.
      rewrite E1. split; [by exists t | by etrans].
    - wps. rewrite E1. split; [| done]. exists (rn_timer (jb_run (s_job s))). by rewrite with_timer_id. }
  intros expired s2 [[t E2] Hx2]. apply wp_if; intros _.
  { wps. split; [by exists t |]. split; [done |]. right. by left. }
  wps. rewrite E2. change (jb_nsteps (with_timer t (s_job s))) with (jb_nsteps (s_job s)). apply wp_if; intros Hc.
  - apply Nat.ltb_lt in Hc. wps. unfold step_coe. wps. apply wp_step_at; [by rewrite E2 |]. intros d. wps.
    split; [by exists t |]. split; [done |]. right. right. by right.
  - wps. split; [by exists t |]. split; [done |]. right. right. by left.
Qed.

Lemma idle_small j : idle j -> (rn_live_step (jb_run j) < 2 ^ 63)%Z.
Proof. intros [-> _]. lia. Qed.

Lemma between_dispatched ev res j : between j -> between (dispatched ev res j).
Proof. intros [[H1 H2 H3 H4 [] H6] H7 H8]. by constructor; [constructor | |]. Qed.

(** A job between steps that ends there. *)
Lemma between_ends ev coe (s : st W) : jb_state (s_job s) = QWE_LC_BETWEEN_STEPS -> between (s_job s) ->
  rn_followup (jb_run (s_job s)) = None -> small (s_job s) ->
  ev = QWE_LC_EV_CANCEL \/ ev = QWE_LC_EV_JOB_TIMEOUT \/ ev = QWE_LC_EV_NO_MORE_STEPS ->
  wp (dispatch_one env ev (Payload coe None None) (-1)) (fun _ s' => settles s s') s.
Proof.
  intros Hst Hb Hf Hs Hev.
  assert (Hres : exists res, qwe_lc_lookup (jb_state (s_job s)) ev (Some (Payload coe None (rn_last_reason (jb_run (s_job s))))) = inl res /\
    r_actions res = end_actions /\ qwe_lc_state_is_final (r_next res) = true).
  { rewrite Hst. destruct Hev as [->|[->| ->]]; eexists; (split; [reflexivity | done]). }
  destruct Hres as (res & Hres & Ha & Hfin).
  eapply dispatch_fresh; [done | apply idle_small, Hb | by destruct Hev as [->|[->| ->]] | | exact Hres |].
  { rewrite Hst. by destruct Hev as [->|[->| ->]]. }
  intros x Hx. rewrite bool_decide_eq_false_2 by (by destruct Hev as [->|[->| ->]]). apply wp_bind, wp_ret. rewrite Ha.
  eapply wp_mono; [apply end_actions_ok; right; left; by apply between_dispatched |].
  intros _ s' (He & Hx'). eapply ended_settles; [done | done | by rewrite Hst | done | exact He | by etrans].
Qed.

(** A job between steps that starts its next one. *)
Lemma between_spawns coe (s : st W) : jb_state (s_job s) = QWE_LC_BETWEEN_STEPS -> between (s_job s) ->
  rn_followup (jb_run (s_job s)) = None -> small (s_job s) -> rn_cur (jb_run (s_job s)) < jb_nsteps (s_job s) ->
  wp (dispatch_one env QWE_LC_EV_NEXT_STEP (Payload coe None None) (-1))
    (fun _ s' => (inv (s_job s') \/ owed (s_job s')) /\ adv true true (s_job s) (s_job s') /\ ctx_on (s_ctx s) (s_ctx s')) s.
Proof.
  intros Hst Hb Hf Hs Hc.
  assert (Hres : exists res, qwe_lc_lookup (jb_state (s_job s)) QWE_LC_EV_NEXT_STEP
      (Some (Payload coe None (rn_last_reason (jb_run (s_job s))))) = inl res /\
    r_actions res = [QWE_LC_ACT_SPAWN_STEP; QWE_LC_ACT_NONE; QWE_LC_ACT_NONE; QWE_LC_ACT_NONE] /\
    (r_next res = QWE_LC_STEP_RUNNING \/ r_next res = QWE_LC_STEP_RUNNING_COE)).
  { rewrite Hst. destruct coe; eexists; (split; [reflexivity |]); (split; [done |]); [by right | by left]. }
  destruct Hres as (res & Hres & Ha & Hn).
  eapply dispatch_fresh; [done | apply idle_small, Hb | done | done | exact Hres |].
  intros x Hx. rewrite bool_decide_eq_false_2 by done. apply wp_bind, wp_ret. rewrite Ha.
  cbn [apply_actions apply_action]. apply wp_bind.
  eapply wp_mono; [apply step_spawn_ok; [apply (between_dispatched _ res _ Hb) | exact Hc | apply Hb] |].
  intros _ s' ([S1 S2 S3 S4 S5 S6 S7] & Hx'). wps. cbn in S2, S3, S4, S5, S7.
  assert (Hsj : same_job (s_job s) (s_job s')) by (destruct S1; by constructor).
  assert (Hs' : small (s_job s')) by (unfold small; by rewrite (nsteps_same _ _ Hsj)).
  split_and!; [| | by etrans].
  - destruct S7 as [(P1 & P2 & P3 & P4)|(P1 & P2 & P3)]; [left | right].
    + split; [| rewrite S2; by destruct Hn as [-> | ->]]. constructor; [done | congruence |].
      apply phase_flying; [rewrite S2; by destruct Hn as [-> | ->] |].
      destruct P3. constructor; try done; unfold timer_sane; rewrite ?S2; (congruence || by destruct Hn as [-> | ->]).
    + constructor; try done. right. split; [| done]. rewrite S2. done.
  - pose proof (be_idle _ Hb) as [Hi _]. pose proof (fl_live _ S6) as Hl. rewrite S5 in Hl. constructor.
    + done.
    + intros _. rewrite S2. by destruct Hn as [-> | ->].
    + by rewrite Hst.
    + lia.
    + lia.
    + intros _. right. lia.
    + lia.
    + lia.
    + rewrite S3. done.
Qed.

(** A start that failed: the job fails. *)
Lemma owed_fails (s : st W) : owed (s_job s) ->
  wp (dispatch_one env QWE_LC_EV_START_FAILED plain_payload (-1)) (fun _ s' => settles s s')
    (St ((s_job s) <| jb_run := (jb_run (s_job s)) <| rn_followup := None |> |>) (s_ctx s)).
Proof.
  intros [Hs Hf He Hp]. set (s1 := St _ _).
  assert (Hres : exists res, qwe_lc_lookup (jb_state (s_job s1)) QWE_LC_EV_START_FAILED
      (Some (Payload false None (rn_last_reason (jb_run (s_job s1))))) = inl res /\
    qwe_lc_state_is_final (r_next res) = true /\ qwe_lc_state_is_final (jb_state (s_job s)) = false /\
    ((r_actions res = end_actions /\ unstarted (s_job s)) \/ (r_actions res = fail_actions /\ in_flight (s_job s)))).
  { change (jb_state (s_job s1)) with (jb_state (s_job s)).
    destruct Hp as [[-> Hu]|([->| ->] & Hfl & _)]; eexists; (split; [reflexivity |]); (split; [done |]); (split; [done |]); auto. }
  destruct Hres as (res & Hres & Hfin & Hnf & Ha).
  eapply dispatch_fresh; [done | | done | by destruct Ha | exact Hres |].
  { destruct Hp as [[_ Hu]|(_ & Hfl & _)]; [apply (idle_small (s_job s)), Hu | by apply (flight_small (s_job s))]. }
  intros x Hx. rewrite bool_decide_eq_false_2 by done. apply wp_bind, wp_ret.
  eapply (wp_mono _ (fun _ s' => ended (dispatched QWE_LC_EV_START_FAILED res (s_job s1)) (s_job s') /\ ctx_on x (s_ctx s'))).
  { destruct Ha as [[-> [U1 U2 [] _]]|[-> Hfl]].
    - apply end_actions_ok. left. split; [done |]. split; [done |]. by intros _.
    - apply fail_actions_ok. destruct Hfl as [[H1 H2 H3 H4 [] H6] H7 H8]. by constructor; [constructor | |]. }
  intros _ s' (Hend & Hx').
  assert (H : settles s1 s') by (eapply ended_settles; [done | done | done | done | exact Hend | by etrans]).
  destruct H as (H1 & [] & H3). split; [done |]. split; [| done]. destruct ad_same. by constructor.
Qed.

(** ** The whole of [job_send] *)

Lemma settles_mid (s s1 s' : st W) : adv true true (s_job s) (s_job s1) -> ctx_on (s_ctx s) (s_ctx s1) ->
  settles s1 s' -> settles s s'.
Proof. intros Ha Hx (H1 & H2 & H3). split; [done |]. split; by etrans. Qed.

Lemma settles_stop n (s s1 : st W) : settles s s1 -> wp (send_owed env (S n)) (fun _ s' => settles s s') s1.
Proof. intros H. eapply wp_mono; [apply send_owed_calm, H |]. by intros [] ? ->. Qed.

Lemma owed_send n (s : st W) : owed (s_job s) -> wp (send_owed env (S (S n))) (fun _ s' => settles s s') s.
Proof.
  intros Ho. cbn [send_owed]. wps. rewrite (ow_followup _ Ho). wps.
  eapply wp_mono; [by apply owed_fails |]. intros [] s1 H. by apply settles_stop.
Qed.

Lemma adv_with_timer t (j : job) : adv true true j (with_timer t j).
Proof. constructor; try done; intros; by left. Qed.

Lemma between_send n (s : st W) : jb_state (s_job s) = QWE_LC_BETWEEN_STEPS -> between (s_job s) ->
  rn_followup (jb_run (s_job s)) = None -> small (s_job s) ->
  wp (send_owed env (S (S (S n)))) (fun _ s' => settles s s') s.
Proof.
  intros Hst Hb Hf Hs. remember (S (S n)) as m eqn:Em. cbn [send_owed]. wps.
  rewrite Hf, bool_decide_eq_true_2 by done. apply wp_bind.
  eapply wp_mono; [by apply between_steps_event_ok |]. intros [ev coe] s1 ([t E] & Hx & Hev). cbn [fst] in Hev.
  assert (Hb1 : between (s_job s1)) by (rewrite E; by apply between_timer). apply wp_bind.
  assert (Ha1 : adv true true (s_job s) (s_job s1)) by (rewrite E; apply adv_with_timer).
  destruct (decide (ev = QWE_LC_EV_NEXT_STEP)) as [->|Hne].
  - eapply wp_mono; [apply between_spawns; [by rewrite E | done | by rewrite E | by rewrite E |] |].
    { destruct Hev as [|[|[|[]]]]; [done | done | done |]. by rewrite E. }
    intros _ s2 ([Hi|Ho] & Ha & Hx2); subst m.
    + apply settles_stop. split; [done |]. split; by etrans.
    + eapply wp_mono; [by apply owed_send |]. intros [] s3 H. eapply (settles_mid _ s2); [by etrans | by etrans | done].
  - eapply wp_mono; [apply between_ends; [by rewrite E | done | by rewrite E | by rewrite E |] |].
    { destruct Hev as [|[|[|[]]]]; [auto | auto | auto | done]. }
    intros [] s2 H. subst m. apply settles_stop. by eapply settles_mid.
Qed.

(** What an event makes of a job's state, for a job that had not started. *)
Definition sent (ev : qwe_lc_event) (a b : qwe_lc_state) : Prop :=
  match ev with
  | QWE_LC_EV_NEEDS_MET => b = QWE_LC_READY
  | QWE_LC_EV_SLOT_GRANTED => not_started b = false
  | _ => not_started a = true -> b = QWE_LC_SKIPPED
  end.

(** The event leaves the job waiting for the outside world. *)
Definition delivered (ev : qwe_lc_event) (s s' : st W) : Prop :=
  settles s s' /\ sent ev (jb_state (s_job s)) (jb_state (s_job s')) /\
  (ev = QWE_LC_EV_CANCEL -> rn_cancel_told (jb_run (s_job s')) = true).

Lemma unstarted_inv j : inv j -> not_started (jb_state j) = true -> unstarted j.
Proof. intros [[_ _ Hp] _] H. unfold phase_ok in Hp. by destruct (jb_state j). Qed.

(** A job that never starts. *)
Lemma skip_send ev pl (s : st W) : inv (s_job s) ->
  (jb_state (s_job s) = QWE_LC_PENDING /\ ev = QWE_LC_EV_NEEDS_FAILED) \/
  (not_started (jb_state (s_job s)) = true /\ (ev = QWE_LC_EV_CANCEL \/ ev = QWE_LC_EV_SKIP)) ->
  wp (job_send env ev pl (-1)) (fun _ s' => delivered ev s s') s.
Proof.
  intros Hi Hev. set (lookup := qwe_lc_lookup (jb_state (s_job s)) ev
    (Some (Payload (p_coe pl) (p_reason pl) (rn_last_reason (jb_run (s_job s)))))).
  assert (Hns : not_started (jb_state (s_job s)) = true) by (by destruct Hev as [[-> _]|[]]).
  assert (Hres : exists res, lookup = inl res /\ r_actions res = end_actions /\ r_next res = QWE_LC_SKIPPED).
  { subst lookup. destruct Hev as [[-> ->]|[_ [->| ->]]]; [by eexists | |]; destruct (jb_state (s_job s)); try done; by eexists. }
  destruct Hres as (res & Hres & Ha & Hn). pose proof (unstarted_inv _ Hi Hns) as [U1 U2 [] _].
  destruct Hi as [[Hs Hf _] _]. unfold job_send. apply wp_bind.
  eapply dispatch_fresh; [done | by apply idle_small | by destruct Hev as [[_ ->]|[_ [->| ->]]] | | exact Hres |].
  { by destruct Hev as [[_ ->]|[_ [->| ->]]]. }
  intros x Hx. rewrite bool_decide_eq_false_2 by (by destruct Hev as [[_ ->]|[_ [->| ->]]]). apply wp_bind, wp_ret. rewrite Ha.
  eapply wp_mono; [apply end_actions_ok; left; split; [done |]; split; [done |]; by intros _ |].
  intros _ s1 (He & Hx1).
  assert (H : settles s s1).
  { eapply ended_settles; [done | done | by destruct (jb_state (s_job s)) | by rewrite Hn | exact He | by etrans]. }
  eapply wp_mono; [apply send_owed_calm, H |]. intros [] ? ->. split; [done |]. split.
  - rewrite (en_state _ _ He). cbn. rewrite Hn. by destruct Hev as [[_ ->]|[_ [->| ->]]].
  - intros ->. by rewrite (en_cancel_told _ _ He).
Qed.

Lemma needs_met_send pl (s : st W) : inv (s_job s) -> jb_state (s_job s) = QWE_LC_PENDING ->
  wp (job_send env QWE_LC_EV_NEEDS_MET pl (-1)) (fun _ s' => delivered QWE_LC_EV_NEEDS_MET s s') s.
Proof.
  intros Hi Hst. pose proof (unstarted_inv _ Hi) as Hu. rewrite Hst in Hu. destruct (Hu eq_refl) as [U1 U2 [] U4].
  destruct Hi as [[Hs Hf _] _].
  assert (Hres : exists res, qwe_lc_lookup (jb_state (s_job s)) QWE_LC_EV_NEEDS_MET
      (Some (Payload (p_coe pl) (p_reason pl) (rn_last_reason (jb_run (s_job s))))) = inl res /\
    r_actions res = [QWE_LC_ACT_NONE; QWE_LC_ACT_NONE; QWE_LC_ACT_NONE; QWE_LC_ACT_NONE] /\ r_next res = QWE_LC_READY)
    by (rewrite Hst; by eexists).
  destruct Hres as (res & Hres & Ha & Hn). unfold job_send. apply wp_bind.
  eapply dispatch_fresh; [done | by apply idle_small | done | by rewrite Hst | exact Hres |].
  intros x Hx. rewrite bool_decide_eq_false_2 by done. apply wp_bind, wp_ret. rewrite Ha. cbn [apply_actions apply_action]. wps.
  assert (H : settles s (St (dispatched QWE_LC_EV_NEEDS_MET res (s_job s)) x)).
  { split_and!; [| | done].
    - split; [constructor; [done | done |]; unfold phase_ok |]; cbn; rewrite Hn; [by constructor | done].
    - destruct U2 as [Hlv _]. constructor; cbn; rewrite ?Hn, ?Hst; done || lia. }
  eapply wp_mono; [apply send_owed_calm, H |]. by intros [] ? ->.
Qed.

Lemma slot_send pl (s : st W) : inv (s_job s) -> jb_state (s_job s) = QWE_LC_READY ->
  wp (job_send env QWE_LC_EV_SLOT_GRANTED pl (-1)) (fun _ s' => delivered QWE_LC_EV_SLOT_GRANTED s s') s.
Proof.
  intros Hi Hst. pose proof (unstarted_inv _ Hi) as Hu. rewrite Hst in Hu. pose proof (Hu eq_refl) as [U1 U2 [] U4].
  destruct Hi as [[Hs Hf _] _].
  assert (Hres : exists res, qwe_lc_lookup (jb_state (s_job s)) QWE_LC_EV_SLOT_GRANTED
      (Some (Payload (p_coe pl) (p_reason pl) (rn_last_reason (jb_run (s_job s))))) = inl res /\
    r_actions res = [QWE_LC_ACT_START_JOB; QWE_LC_ACT_NONE; QWE_LC_ACT_NONE; QWE_LC_ACT_NONE] /\
    r_next res = QWE_LC_BETWEEN_STEPS) by (rewrite Hst; by eexists).
  destruct Hres as (res & Hres & Hac & Hn). unfold job_send. apply wp_bind.
  eapply dispatch_fresh; [done | by apply idle_small | done | by rewrite Hst | exact Hres |].
  intros x Hx. rewrite bool_decide_eq_false_2 by done. apply wp_bind, wp_ret. rewrite Hac. cbn [apply_actions apply_action].
  apply wp_bind. eapply wp_mono; [apply job_start_ok; [exact Hn | by constructor | done | done] |].
  intros _ s1 ([B1 B2 B3 B4 B5 B6] & Hx1). cbn in B2. rewrite Hn in B2. wps.
  assert (Hsj : same_job (s_job s) (s_job s1)) by (destruct B1; by constructor).
  assert (Ha : adv true true (s_job s) (s_job s1)).
  { cbn in B3, B5, B6. destruct U2 as [Hlv _]. constructor; try done; rewrite ?B2, ?B3, ?B5, ?B6, ?Hst; done || lia. }
  assert (Hx2 : ctx_on (s_ctx s) (s_ctx s1)) by by etrans.
  assert (Hd : forall s', settles s1 s' -> delivered QWE_LC_EV_SLOT_GRANTED s s').
  { intros s' H. split; [by eapply settles_mid |]. split; [| done]. destruct H as (_ & [] & _). apply ad_started.
    by rewrite B2. }
  destruct B4 as [[Hb Hf1]|Ho].
  - eapply wp_mono; [apply (between_send 0); [by rewrite B2 | done | done |] |]; [| by auto].
    unfold small. by rewrite (nsteps_same _ _ Hsj).
  - eapply wp_mono; [by apply (owed_send 1) |]. auto.
Qed.

(** ** Events for a step in flight *)

Lemma flight_send ev pl ev_step (s : st W) : flying_for ev (s_job s) ->
  qwe_lc_event_is_stale (jb_state (s_job s)) ev ev_step (rn_live_step (jb_run (s_job s))) = false ->
  wp (job_send env ev pl ev_step) (fun _ s' => delivered ev s s') s.
Proof.
  intros Hf Hstale. unfold job_send. apply wp_bind. eapply wp_mono; [by apply flight_dispatch |].
  intros _ s1 (H1 & H2 & H3 & H4). eapply wp_mono; [by apply send_owed_calm |]. intros [] ? ->.
  split; [done |]. split; [| done]. pose proof (ff_state _ _ Hf). pose proof (ff_event _ _ Hf).
  by destruct ev; try done; destruct (jb_state (s_job s)).
Qed.

Lemma ended_inv j j' : small j -> rn_followup (jb_run j) = None -> qwe_lc_state_is_final (jb_state j) = true ->
  ended j j' -> inv j'.
Proof.
  intros Hs Hf Hfin [E1 E2 E3 E4 E5 E6 E7]. split; [constructor |].
  - unfold small. by rewrite (nsteps_same _ _ E1).
  - by rewrite E4.
  - unfold phase_ok. rewrite E2. by destruct (jb_state j).
  - rewrite E2. by destruct (jb_state j).
Qed.

Lemma ended_adv j j' : ended j j' -> adv true true j j'.
Proof.
  intros [E1 E2 E3 E4 E5 E6 E7]. pose proof (fi_idle _ E3) as [Hi _].
  constructor; rewrite ?E2, ?E5; try done; [intros H; right; auto | lia | lia | lia].
Qed.

(** The group is empty: the step is over, and the job goes on or ends. *)
Lemma group_empty_send pl (s : st W) : inv (s_job s) -> flying (s_job s) ->
  Model.waiting_for_empty_group (jb_state (s_job s)) = true ->
  wp (job_send env QWE_LC_EV_GROUP_EMPTY pl (rn_live_step (jb_run (s_job s))))
    (fun _ s' => delivered QWE_LC_EV_GROUP_EMPTY s s') s.
Proof.
  intros [[Hs Hf _] _] Hfl Hw. pose proof (fy_flight _ Hfl) as Hin.
  assert (Hres : exists res, qwe_lc_lookup (jb_state (s_job s)) QWE_LC_EV_GROUP_EMPTY
      (Some (Payload (p_coe pl) (p_reason pl) (rn_last_reason (jb_run (s_job s))))) = inl res /\
    ((r_actions res = [QWE_LC_ACT_NONE; QWE_LC_ACT_NONE; QWE_LC_ACT_NONE; QWE_LC_ACT_NONE] /\
      r_next res = QWE_LC_BETWEEN_STEPS) \/
     (r_actions res = end_actions /\ qwe_lc_state_is_final (r_next res) = true))).
  { destruct (jb_state (s_job s)); try discriminate Hw; eexists; (split; [reflexivity |]); first [by left | by right]. }
  destruct Hres as (res & Hres & Ha). unfold job_send. apply wp_bind.
  eapply dispatch_fresh; [done | by apply flight_small | done | cbn; by rewrite Z.eqb_refl | exact Hres |].
  intros x Hx. rewrite bool_decide_eq_true_2 by done. apply wp_bind. cbn [when].
  eapply wp_mono; [apply step_finish_ok; by apply dispatched_flight |]. intros _ s1 (Hov & Hx1).
  assert (Hb : between (s_job s1)).
  { eapply step_over_between; [exact Hov | by apply dispatched_flight |].
    change (outcomes (s_job s) (S (rn_cur (jb_run (s_job s))))). by apply Hfl. }
  destruct Hov as [V1 V2 _ V4 V5 _ _ _ _ _ V11 V12 _]. cbn in V2, V5, V11, V12.
  assert (Hsj : same_job (s_job s) (s_job s1)) by (destruct V1; by constructor).
  assert (Hs1 : small (s_job s1)) by (unfold small; by rewrite (nsteps_same _ _ Hsj)).
  assert (Hadv : adv true true (s_job s) (s_job s1)).
  { destruct V4 as [V4 _]. pose proof (fl_live _ Hin).
    assert (Hr : not_started (r_next res) = false) by (destruct Ha as [[_ ->]|[_ Hfin]]; [done | by destruct (r_next res)]).
    assert (Hnf : qwe_lc_state_is_final (jb_state (s_job s)) = false) by (by destruct (jb_state (s_job s))).
    constructor; rewrite ?V2, ?V11, ?Hnf; done || lia. }
  assert (Hx2 : ctx_on (s_ctx s) (s_ctx s1)) by by etrans.
  assert (Hd : forall s', settles s1 s' -> delivered QWE_LC_EV_GROUP_EMPTY s s').
  { intros s' H. split; [by eapply settles_mid |]. split; [| done]. cbn. by destruct (jb_state (s_job s)). }
  destruct Ha as [[-> Hn]|[-> Hn]].
  - cbn [apply_actions apply_action]. wps. eapply wp_mono; [apply (between_send 0); [by rewrite V2 | done | by rewrite V12 | done] |].
    auto.
  - eapply wp_mono; [apply end_actions_ok; by right; left |]. intros _ s2 (He & Hx3).
    assert (Hi : inv (s_job s2)).
    { eapply ended_inv; [exact Hs1 | by rewrite V12 | by rewrite V2 | done]. }
    eapply wp_mono; [by apply send_owed_calm |]. intros [] ? ->. apply Hd. split; [done |]. split; [by apply ended_adv | done].
Qed.

(** A cancel finds every job ready for it. *)
Lemma final_cancel pl (s : st W) : inv (s_job s) -> qwe_lc_state_is_final (jb_state (s_job s)) = true ->
  wp (job_send env QWE_LC_EV_CANCEL pl (-1)) (fun _ s' => delivered QWE_LC_EV_CANCEL s s') s.
Proof.
  intros Hi Hfin. pose proof Hi as [[Hs Hf Hp] Hnb].
  assert (Hfi : finished (s_job s)) by (unfold phase_ok in Hp; by destruct (jb_state (s_job s))).
  assert (Hres : exists res, qwe_lc_lookup (jb_state (s_job s)) QWE_LC_EV_CANCEL
      (Some (Payload (p_coe pl) (p_reason pl) (rn_last_reason (jb_run (s_job s))))) = inl res /\
    r_actions res = [QWE_LC_ACT_NONE; QWE_LC_ACT_NONE; QWE_LC_ACT_NONE; QWE_LC_ACT_NONE] /\
    r_next res = jb_state (s_job s)).
  { destruct (jb_state (s_job s)); try discriminate Hfin; by eexists. }
  destruct Hres as (res & Hres & Ha & Hn). unfold job_send. apply wp_bind.
  eapply dispatch_fresh; [done | apply idle_small, Hfi | done | done | exact Hres |].
  intros x Hx. rewrite bool_decide_eq_false_2 by done. apply wp_bind, wp_ret. rewrite Ha. cbn [apply_actions apply_action]. wps.
  assert (H : settles s (St (dispatched QWE_LC_EV_CANCEL res (s_job s)) x)).
  { split_and!; [| | done].
    - split; [constructor; [done | done |]; unfold phase_ok |]; cbn; rewrite Hn; [| done].
      destruct Hfi as [H1 [] H3]. assert (Hd : finished (dispatched QWE_LC_EV_CANCEL res (s_job s))) by by constructor.
      by destruct (jb_state (s_job s)).
    - pose proof (fi_idle _ Hfi) as [Hlv _]. constructor; cbn; rewrite ?Hn; done || lia. }
  eapply wp_mono; [apply send_owed_calm, H |]. intros [] ? ->. split; [done |]. split; [| done].
  cbn. by destruct (jb_state (s_job s)).
Qed.

Lemma inv_cases j : inv j -> not_started (jb_state j) = true \/ qwe_lc_state_is_final (jb_state j) = true \/
  (Model.step_in_flight (jb_state j) = true /\ flying j).
Proof.
  intros [[_ _ Hp] Hnb]. unfold phase_ok in Hp. destruct (jb_state j); auto; done.
Qed.

Lemma flying_for_of ev j : inv j -> flying j -> Model.step_in_flight (jb_state j) = true -> flight_event ev = true ->
  Model.can_occur (jb_state j) ev = true -> ev <> QWE_LC_EV_STEP_TIMEOUT -> ev <> QWE_LC_EV_GRACE_EXPIRED -> flying_for ev j.
Proof.
  intros [[Hs Hf _] _] [] Hst Hev Hc H1 H2. constructor; try done; auto; intros [|]; auto; done.
Qed.

Lemma cancel_send pl (s : st W) : inv (s_job s) ->
  wp (job_send env QWE_LC_EV_CANCEL pl (-1)) (fun _ s' => delivered QWE_LC_EV_CANCEL s s') s.
Proof.
  intros Hi. destruct (inv_cases _ Hi) as [H|[H|[H Hfl]]].
  - apply skip_send; [done |]. right. auto.
  - by apply final_cancel.
  - apply flight_send; [| done]. apply flying_for_of; try done. by destruct (jb_state (s_job s)).
Qed.

(** ** Reaping a step's leader *)

(** [output_ok], with something said of the value returned. *)
Definition output_val {A} (m : M W A) (P : A -> Prop) : Prop :=
  forall s : st W, data_ok (jb_run (s_job s)) ->
  wp m (fun a s' => same_control (s_job s) (s_job s') /\ ctx_on (s_ctx s) (s_ctx s') /\
    data_ok (jb_run (s_job s')) /\ P a) s.

Lemma output_val_bind {A B} (m : M W A) (k : A -> M W B) P :
  output_ok m -> (forall a, output_val (k a) P) -> output_val (m ≫= k) P.
Proof.
  intros Hm Hk s Hd. apply wp_bind. eapply wp_mono; [by apply Hm |]. intros a s1 (H1 & H2 & H3).
  eapply wp_mono; [by apply Hk |]. intros b s2 (H4 & H5 & H6 & H7). split_and!; [by etrans | by etrans | done | done].
Qed.

Lemma output_val_ret {A} (a : A) (P : A -> Prop) : P a -> output_val (mret a) P.
Proof. intros H s Hd. by apply wp_ret. Qed.

(** A leader's end is told as one of the two leader events. *)
Lemma leader_exit_event_ok status :
  output_val (leader_exit_event env status) (fun p => leader_event (fst p) = true).
Proof.
  assert (Hch : forall b, output_ok (@mod_run W (fun r => r <| rn_step_changed := b |>))).
  { intros b. apply output_mod_run. intros j []. by split; constructor. }
  assert (Hby : forall b : bool, leader_event (if b then QWE_LC_EV_LEADER_EXIT_OK else QWE_LC_EV_LEADER_EXIT_FAIL) = true)
    by (by intros []).
  unfold leader_exit_event. apply output_val_bind; [apply Hch | intros _].
  apply output_val_bind; [apply output_get_run | intros r]. destruct (negb (rn_step_uses r)).
  - apply output_val_bind; [apply drain_result_ok | intros _]. apply output_val_bind; [apply read_step_msg_ok | intros m].
    apply output_val_bind; [apply collect_file_outputs_ok | intros _].
    destruct (sm_status m);
      try (apply output_val_bind; [apply Hch | intros _; by apply output_val_ret]);
      (destruct (_ && _ && _); [apply output_val_ret, Hby |]; apply output_val_bind;
        [apply remote_lost_ok | intros b; apply output_val_ret, Hby]).
  - apply output_val_bind; [apply drain_result_ok | intros _]. apply output_val_bind; [apply read_step_msg_ok | intros m].
    destruct (sm_status m); try (by apply output_val_ret); try (apply output_val_ret, Hby);
      (apply output_val_bind; [apply Hch | intros _; apply output_val_ret; by repeat case_match]).
Qed.

(** What a job event leaves: the invariant, and a job that has moved on.  [ks]
    and [kg] as in [adv]. *)
Definition heard (ks kg : bool) (s s' : st W) : Prop :=
  inv (s_job s') /\ adv ks kg (s_job s) (s_job s') /\ ctx_on (s_ctx s) (s_ctx s') /\
  (not_started (jb_state (s_job s)) = true -> jb_state (s_job s') = jb_state (s_job s)).

Lemma delivered_heard ks kg ev (s s' : st W) : delivered ev s s' -> not_started (jb_state (s_job s)) = false -> heard ks kg s s'.
Proof. intros ((H1 & H2 & H3) & _) Hn. split; [done |]. split; [by apply adv_weaken |]. split; [done |]. by rewrite Hn. Qed.

Lemma flying_started j : Model.step_in_flight (jb_state j) = true -> not_started (jb_state j) = false.
Proof. by destruct (jb_state j). Qed.

(** A live process is a step in flight. *)
Lemma live_flying j : inv j -> rn_proc_ok (jb_run j) = true ->
  Model.step_in_flight (jb_state j) = true /\ flying j.
Proof.
  intros Hi Hp. destruct (inv_cases _ Hi) as [H|[H|H]]; [| | done].
  - destruct (un_idle _ (unstarted_inv _ Hi H)). congruence.
  - destruct Hi as [[_ _ Hph] _]. unfold phase_ok in Hph. destruct (jb_state j); try discriminate H;
      destruct (fi_idle _ Hph); congruence.
Qed.

Lemma control_flying_for ev j j' : same_control j j' -> data_ok (jb_run j') -> flying_for ev j -> flying_for ev j'.
Proof.
  intros Hc Hd [F1 F2 F3 F4 F5 Fa Fb Fc F6 F7 F8 F9 F10 F11 F12].
  pose proof (control_flight _ _ Hc Hd F1). pose proof (nsteps_same _ _ (sc_job _ _ Hc)) as Hn. destruct Hc.
  constructor; rewrite ?sc_state, ?sc_proc_ok, ?sc_leader_reaped, ?sc_step_timer, ?sc_grace_timer, ?sc_timeout_told, ?sc_cur,
    ?sc_followup; try done; [| unfold small; by rewrite Hn].
  intros Hw. apply (outcomes_same j); auto.
Qed.

Lemma leader_exited_ok status (s : st W) : inv (s_job s) -> rn_proc_ok (jb_run (s_job s)) = true ->
  wp (leader_exited env status) (fun _ s' => heard true true s s') s.
Proof.
  intros Hi Hp. destruct (live_flying _ Hi Hp) as [Hst Hfl]. unfold leader_exited. apply wp_bind, wp_mod_run. set (s0 := St _ _).
  assert (Hf0 : forall ev, leader_event ev = true -> flying_for ev (s_job s0)).
  { intros ev Hev. destruct Hi as [[Hs Hf _] _], Hfl as [[[G1 G2 G3 G4 [] G6] G7 G8] ?].
    assert (in_flight (s_job s0)) by (constructor; [constructor | |]; by cbn).
    constructor; cbn; try done; [by left | | | |].
    - intros [|]; [auto | by destruct ev].
    - intros [|]; [auto | by destruct ev].
    - by destruct ev.
    - destruct (jb_state (s_job s)); try discriminate Hst; by destruct ev. }
  apply wp_bind. eapply wp_mono.
  { apply leader_exit_event_ok. apply (Hf0 QWE_LC_EV_LEADER_EXIT_OK eq_refl). }
  intros [ev reason] s1 (H1 & H2 & H3 & H4). cbn [fst] in H4. wps.
  assert (Hf1 : flying_for ev (s_job s1)) by (eapply control_flying_for; [done | done | by apply Hf0]).
  eapply wp_mono; [apply flight_send; [by apply Hf1 |] |].
  { cbn [s_job]. by destruct ev; try done; cbn; rewrite Z.eqb_refl. }
  intros [] s2 (D1 & D2 & D3). cbn [s_job s_ctx] in *.
  destruct D1 as (D4 & D5 & D6). split; [done |]. split; [| split; [| rewrite flying_started; done]].
  - etrans; [| exact D5]. etrans; [| by apply control_adv, H1]. constructor; try done; by left.
  - etrans; [| exact D6]. etrans; [exact H2 |]. by constructor.
Qed.

(** ** Epoll events *)

(** A timer's tag, for a step of a started job: the step is over, or its timer
    is still pending. *)
Definition step_tag (step : Z) (t : qwe_timer) (j : job) : Prop :=
  not_started (jb_state j) = false /\ (0 <= step)%Z /\
  ((step < Z.of_nat (rn_cur (jb_run j)))%Z \/ (step = rn_live_step (jb_run j) /\ deadline_of t <> None)).

Definition tag_ok (kind : evkind) (step : Z) (j : job) : Prop :=
  match kind with
  | EV_STEP_TIMER => step_tag step (rn_step_timer (jb_run j)) j
  | EV_GRACE_TIMER => step_tag step (rn_grace_timer (jb_run j)) j
  | EV_JOB_TIMER => not_started (jb_state j) = false
  | _ => True
  end.

Definition is_step_timer (k : evkind) : bool := bool_decide (k = EV_STEP_TIMER).
Definition is_grace_timer (k : evkind) : bool := bool_decide (k = EV_GRACE_TIMER).

(** A tag stays good while the job moves on, unless its timer is consumed. *)
Lemma tag_ok_adv kind step ks kg j j' : adv ks kg j j' -> (kind = EV_STEP_TIMER -> ks = true) ->
  (kind = EV_GRACE_TIMER -> kg = true) -> tag_ok kind step j -> tag_ok kind step j'.
Proof.
  intros [A1 A2 A3 A4 A5 A6 A7 A8 A9] Hs Hg Ht. destruct kind; cbn in *; try done.
  - destruct Ht as (H1 & H2 & H3). split; [auto |]. split; [done |]. destruct H3 as [|[-> H4]]; [left; lia |].
    destruct (A5 H2) as [E|]; [| by left]. right. split; [done |]. by apply A7; [apply Hs | | |].
  - by apply A2.
  - destruct Ht as (H1 & H2 & H3). split; [auto |]. split; [done |]. destruct H3 as [|[-> H4]]; [left; lia |].
    destruct (A5 H2) as [E|]; [| by left]. right. split; [done |]. by apply A8; [apply Hg | | |].
Qed.

(** Reading a pending timer: it has fired and is no longer pending, or nothing
    has changed. *)
Lemma expired_read now t t' b : timer_sane t -> deadline_of t <> None -> qwe_timer_expired now t = (t', b) ->
  (b = true /\ deadline_of t' = None /\ timer_sane t') \/ (b = false /\ t' = t).
Proof.
  unfold timer_sane, deadline_of, qwe_timer_expired. destruct t as [[[d]|] fired]; cbn; [| done].
  intros Hs Hd. destruct fired; [by specialize (Hs eq_refl) |].
  unfold timerfd_read. destruct d as [d|]; [| done]. cbn. destruct (d <=? now)%Z; intros [= <- <-]; auto.
Qed.

Lemma control_inv j j' : same_control j j' -> data_ok (jb_run j') -> flying j -> inv j -> inv j'.
Proof.
  intros Hc Hd [] Hi. destruct (live_flying _ Hi fy_proc) as [Hst _]. pose proof Hi as [[Hs Hf _] Hb].
  pose proof (control_flight _ _ Hc Hd fy_flight).
  pose proof (nsteps_same _ _ (sc_job _ _ Hc)) as Hn. destruct Hc. split; [constructor | by rewrite sc_state].
  - unfold small. by rewrite Hn.
  - by rewrite sc_followup.
  - apply phase_flying; [by rewrite sc_state |].
    constructor; rewrite ?sc_state, ?sc_proc_ok, ?sc_leader_reaped, ?sc_step_timer, ?sc_grace_timer, ?sc_timeout_told, ?sc_cur;
      try done. intros Hw. apply (outcomes_same j); auto.
Qed.

(** The pipes of a live process. *)
Lemma live_output {A} (m : M W A) (k : A -> M W unit) (s : st W) : inv (s_job s) -> rn_proc_ok (jb_run (s_job s)) = true ->
  output_ok m -> (forall a, output_ok (k a)) -> wp (m ≫= k) (fun _ s' => heard true true s s') s.
Proof.
  intros Hi Hp Hm Hk. destruct (live_flying _ Hi Hp) as [Hst Hfl].
  eapply wp_mono; [apply output_bind; [exact Hm | exact Hk | apply Hfl] |].
  intros _ s' (H1 & H2 & H3). split; [by eapply control_inv |]. split; [by apply control_adv |]. split; [done |].
  by rewrite flying_started.
Qed.

Lemma ev_del_ok kind step : output_ok (@ev_del W kind step).
Proof. intros s Hd. unfold ev_del. wps. split; [done |]. by split; [constructor |]. Qed.

Lemma heard_refl ks kg (s : st W) : inv (s_job s) -> heard ks kg s s.
Proof. intros H. by split. Qed.

(** A stale event: only the trace hears it. *)
Lemma stale_send ks kg ev pl ev_step (s : st W) : inv (s_job s) ->
  qwe_lc_event_is_stale (jb_state (s_job s)) ev ev_step (rn_live_step (jb_run (s_job s))) = true ->
  wp (job_send env ev pl ev_step) (fun _ s' => heard ks kg s s') s.
Proof.
  intros Hi Hst. unfold job_send. apply wp_bind. eapply wp_mono; [apply dispatch_stale; [apply Hi | | done] |].
  { destruct (inv_cases _ Hi) as [H|[H|[_ H]]].
    - apply idle_small, un_idle. by apply unstarted_inv.
    - apply idle_small. destruct Hi as [[_ _ Hp] _]. unfold phase_ok in Hp. by destruct (jb_state (s_job s)); try discriminate H; apply Hp.
    - apply flight_small; [apply H | apply Hi]. }
  intros _ s1 [E Hx]. eapply wp_mono; [apply send_owed_calm; by rewrite E |]. intros [] ? ->.
  split; [by rewrite E |]. rewrite E. split; [done |]. by split.
Qed.

Lemma past_step_stale step j : inv j -> (0 <= step)%Z -> (step < Z.of_nat (rn_cur (jb_run j)))%Z ->
  step <> rn_live_step (jb_run j).
Proof.
  intros Hi H1 H2 ->. destruct (inv_cases _ Hi) as [H|[H|[_ H]]].
  - destruct (un_idle _ (unstarted_inv _ Hi H)). lia.
  - destruct Hi as [[_ _ Hp] _]. unfold phase_ok in Hp. destruct (jb_state j); try discriminate H; destruct (fi_idle _ Hp); lia.
  - rewrite (fl_live _ (fy_flight _ H)) in H2. lia.
Qed.

(** A step that is live has its process. *)
Lemma live_proc j : inv j -> (0 <= rn_live_step (jb_run j))%Z -> rn_proc_ok (jb_run j) = true.
Proof.
  intros Hi H1. destruct (inv_cases _ Hi) as [H|[H|[_ H]]]; [| | apply H].
  - destruct (un_idle _ (unstarted_inv _ Hi H)). lia.
  - destruct Hi as [[_ _ Hp] _]. unfold phase_ok in Hp. destruct (jb_state j); try discriminate H; destruct (fi_idle _ Hp); lia.
Qed.

(** A timer's event is delivered from the state its read left. *)
Lemma heard_from ks kg ev (s s1 s' : st W) : adv ks kg (s_job s) (s_job s1) -> ctx_on (s_ctx s) (s_ctx s1) ->
  not_started (jb_state (s_job s)) = false -> delivered ev s1 s' -> heard ks kg s s'.
Proof.
  intros Ha Hx Hn ((H1 & H2 & H3) & _). split; [done |]. split; [etrans; [exact Ha | by apply adv_weaken] |].
  split; [by etrans |]. by rewrite Hn.
Qed.

Lemma past_timer kg ks kind ev step (s : st W) : inv (s_job s) -> (0 <= step)%Z ->
  (step < Z.of_nat (rn_cur (jb_run (s_job s))))%Z ->
  (kind = EV_STEP_TIMER /\ ev = QWE_LC_EV_STEP_TIMEOUT) \/ (kind = EV_GRACE_TIMER /\ ev = QWE_LC_EV_GRACE_EXPIRED) ->
  wp (job_event env kind step) (fun _ s' => heard ks kg s s') s.
Proof.
  intros Hi H0 H1 Hk. pose proof (past_step_stale _ _ Hi H0 H1) as Hne. apply Z.eqb_neq in Hne.
  unfold job_event. apply wp_bind, wp_get_run. rewrite Hne. cbn [andb].
  destruct Hk as [[-> ->]|[-> ->]]; apply wp_bind, wp_ret; cbn [when]; apply stale_send; try done; cbn; by rewrite Hne.
Qed.

Lemma step_timer_event (s : st W) : inv (s_job s) -> (0 <= rn_live_step (jb_run (s_job s)))%Z ->
  deadline_of (rn_step_timer (jb_run (s_job s))) <> None ->
  wp (job_event env EV_STEP_TIMER (rn_live_step (jb_run (s_job s)))) (fun _ s' => heard false true s s') s.
Proof.
  intros Hi H0 Hd. pose proof (live_proc _ Hi H0) as Hp. destruct (live_flying _ Hi Hp) as [Hst Hfl].
  unfold job_event. apply wp_bind, wp_get_run. rewrite Hp, Z.eqb_refl. cbn [andb].
  apply wp_bind, wp_bind, mono_now_ok. intros now x Hx _ _.
  destruct (qwe_timer_expired now _) as [t b] eqn:E.
  destruct (expired_read _ _ _ _ (fy_step_sane _ Hfl) Hd E) as [(-> & Hd' & Hs')|[-> ->]]; wps; cbn [when].
  - set (s1 := St _ x). assert (Ha : adv false true (s_job s) (s_job s1)) by (constructor; try done; by left).
    eapply wp_mono; [apply (flight_send _ _ _ s1) |].
    + destruct Hi as [[Hs Hf _] _], Hfl as [[[G1 G2 G3 G4 [] G6] G7 G8] ?].
      assert (in_flight (s_job s1)) by (constructor; [constructor | |]; by cbn).
      constructor; cbn; try done; auto; [intros [|]; auto; done |].
      destruct (jb_state (s_job s)); try discriminate Hst; try done; by destruct (Hd (fy_step_timer eq_refl)).
    + cbn. by rewrite Z.eqb_refl.
    + intros [] s2 Hdl. by eapply (heard_from _ _ _ _ s1); [| | by apply flying_started |].
  - assert (Eq : (s_job s) <| jb_run := (jb_run (s_job s)) <| rn_step_timer := rn_step_timer (jb_run (s_job s)) |> |> = s_job s)
      by (by destruct (s_job s) as [???????????????[]]).
    rewrite Eq. split; [done |]. split; [done |]. by split.
Qed.

Lemma grace_timer_event (s : st W) : inv (s_job s) -> (0 <= rn_live_step (jb_run (s_job s)))%Z ->
  deadline_of (rn_grace_timer (jb_run (s_job s))) <> None ->
  wp (job_event env EV_GRACE_TIMER (rn_live_step (jb_run (s_job s)))) (fun _ s' => heard true false s s') s.
Proof.
  intros Hi H0 Hd. pose proof (live_proc _ Hi H0) as Hp. destruct (live_flying _ Hi Hp) as [Hst Hfl].
  unfold job_event. apply wp_bind, wp_get_run. rewrite Hp, Z.eqb_refl. cbn [andb].
  apply wp_bind, wp_bind, mono_now_ok. intros now x Hx _ _.
  destruct (qwe_timer_expired now _) as [t b] eqn:E.
  destruct (expired_read _ _ _ _ (fy_grace_sane _ Hfl) Hd E) as [(-> & Hd' & Hs')|[-> ->]]; wps; cbn [when].
  - set (s1 := St _ x). assert (Ha : adv true false (s_job s) (s_job s1)) by (constructor; try done; by left).
    assert (Hgr : Model.grace_timer_running (jb_state (s_job s)) = true).
    { destruct (Model.grace_timer_running _) eqn:Eg; [done |]. by destruct (Hd (fy_grace_timer _ Hfl Eg)). }
    eapply wp_mono; [apply (flight_send _ _ _ s1) |].
    + destruct Hi as [[Hs Hf _] _], Hfl as [[[G1 G2 G3 G4 [] G6] G7 G8] ?].
      assert (in_flight (s_job s1)) by (constructor; [constructor | |]; by cbn).
      constructor; cbn; try done; auto; [intros [|]; auto; done | |];
        by destruct (jb_state (s_job s)).
    + cbn. by rewrite Z.eqb_refl.
    + intros [] s2 Hdl. by eapply (heard_from _ _ _ _ s1); [| | by apply flying_started |].
  - assert (Eq : (s_job s) <| jb_run := (jb_run (s_job s)) <| rn_grace_timer := rn_grace_timer (jb_run (s_job s)) |> |> = s_job s)
      by (by destruct (s_job s) as [???????????????[]]).
    rewrite Eq. split; [done |]. split; [done |]. by split.
Qed.

(** The job's own timer fires at most once, and not for a job it already ended. *)
Lemma job_timer_event step (s : st W) : inv (s_job s) -> not_started (jb_state (s_job s)) = false ->
  wp (job_event env EV_JOB_TIMER step) (fun _ s' => heard true true s s') s.
Proof.
  intros Hi Hns. unfold job_event. apply wp_bind, wp_get_run.
  destruct (inv_cases _ Hi) as [H|[Hfin|[Hst Hfl]]]; [congruence | |].
  - assert (Hr : rn_timer_ok (jb_run (s_job s)) = false).
    { destruct Hi as [[_ _ Hp] _]. unfold phase_ok in Hp. destruct (jb_state (s_job s)); try discriminate Hfin; apply Hp. }
    rewrite Hr. apply wp_bind, wp_ret. cbn [when]. by apply stale_send.
  - rewrite (sa_timer_ok _ (fl_started _ (fy_flight _ Hfl))).
    destruct (rn_timeout_told (jb_run (s_job s))) eqn:Et.
    { apply wp_bind, wp_ret. cbn [when]. apply wp_ret. by apply heard_refl. }
    apply wp_bind, wp_bind, mono_now_ok. intros now x Hx _ _. destruct (qwe_timer_expired now _) as [t b]. wps.
    set (s1 := St _ x). assert (Ha : adv true true (s_job s) (s_job s1)) by (constructor; try done; by left).
    assert (Hfl1 : flying_for QWE_LC_EV_JOB_TIMEOUT (s_job s1)).
    { destruct Hi as [[Hs Hf _] _], Hfl as [[[G1 G2 G3 G4 [] G6] G7 G8] ?].
      assert (in_flight (s_job s1)) by (constructor; [constructor | |]; by cbn).
      constructor; cbn; try done; auto; [intros [|]; auto; done | intros [|]; auto; done |].
      destruct (jb_state (s_job s)); try discriminate Hst; try done; by rewrite fy_told in Et. }
    apply wp_when; intros _.
    + eapply wp_mono; [apply (flight_send _ _ _ s1); [done | cbn; by destruct (jb_state (s_job s))] |].
      intros [] s2 Hdl. by eapply (heard_from _ _ _ _ s1).
    + split; [| split; [done | by split]]. destruct Hi as [[Hs Hf _] Hb]. split; [constructor; try done | done].
      apply phase_flying; [done |]. destruct Hfl as [_ ? ? ? ? ? ? ?]. by constructor; try done; apply Hfl1.
Qed.

(** Every epoll event with a good tag keeps the invariant. *)
Lemma job_event_ok kind step (s : st W) : inv (s_job s) -> tag_ok kind step (s_job s) ->
  wp (job_event env kind step)
    (fun _ s' => heard (negb (is_step_timer kind)) (negb (is_grace_timer kind)) s s') s.
Proof.
  intros Hi Ht. destruct kind; cbn in Ht.
  - unfold job_event. apply wp_bind, wp_get_run. apply wp_when; [intros [_ Hp]%andb_true_iff | by intros _; apply heard_refl].
    apply live_output; [done | done | apply drain_ok | intros eof; apply output_when, ev_del_ok].
  - unfold job_event. apply wp_bind, wp_get_run. apply wp_when; [intros [_ Hp]%andb_true_iff | by intros _; apply heard_refl].
    apply live_output; [done | done | apply drain_result_ok | intros eof; apply output_when, ev_del_ok].
  - destruct Ht as (H1 & H2 & [H3|[-> H3]]); [by apply (past_timer _ _ _ QWE_LC_EV_STEP_TIMEOUT); auto | by apply step_timer_event].
  - by apply job_timer_event.
  - destruct Ht as (H1 & H2 & [H3|[-> H3]]); [by apply (past_timer _ _ _ QWE_LC_EV_GRACE_EXPIRED); auto | by apply grace_timer_event].
  - unfold job_event. apply wp_bind, wp_get_run, wp_ret. by apply heard_refl.
  - unfold job_event. apply wp_bind, wp_get_run, wp_ret. by apply heard_refl.
Qed.
End send.
