(* ===== verification/Qwe.v ===== *)
(** * The kernel's header

    The constants of [src/kernel/qwe.h], which the command line and
    the kernel share. *)

From Stdlib Require Import String ZArith.
From stdpp Require Import base.
From S2P Require Import Prelude.

Definition QWE_VERSION : bytes := bytes_of "0.3.1".

Definition QWE_EXIT_OK : Z := 0.
Definition QWE_EXIT_FAILED : Z := 1.
Definition QWE_EXIT_USAGE : Z := 2.
Definition QWE_EXIT_CANCELLED : Z := 130.
