(* ===== verification/Run.v ===== *)
(** * The event loop

    Models the part of [src/kernel/workflow.c] that works on all the jobs:
    reaping children, the operator's cancel, disabled targets, pre-connecting,
    [run_all] with its scheduling passes and its epoll loop, and
    how a run's exit code is made.  The list of jobs is an array: an index outside
    it is [CUndef].

    [epoll_wait] answers with tags; the model keeps those a kernel can give:
    watched, at most once each, 32 at most, and, for a descriptor of a job, open
    and (a timer) past its time. *)

From Stdlib Require Import Ascii NArith ZArith Lia SpecFloat.
From stdpp Require Import base sets list strings numbers pretty.
From S2P Require Import Prelude Qwe Fmt Lifecycle Sched Ring Redact Sink Trace Result Job Jobs Engine.

Record sys (W : Type) := Sys { y_jobs : list job; y_ctx : ctx W }.
Arguments Sys {W}.
Arguments y_jobs {W}.
Arguments y_ctx {W}.

(** ** Computations on all the jobs *)

Definition R (W A : Type) : Type := sys W -> cres (A * sys W).

#[export] Instance R_ret W : MRet (R W) := fun A a y => CRet (a, y).
#[export] Instance R_bind W : MBind (R W) := fun A B k m y =>
  match m y with
  | CRet (a, y') => k a y'
  | CUndef => CUndef
  | CAbort => CAbort
  | CFuel => CFuel
  end.

(** The tags [run_all] watches from the start. *)
Definition child_tag : Z := tag_make TAG_NO_JOB EV_CHILD (-1).
Definition cancel_tag : Z := tag_make TAG_NO_JOB EV_CANCEL (-1).


(** ** Jobs by name *)

Fixpoint find_from (jobs : list job) (i : nat) (id : string) : option nat :=
  match jobs with
  | [] => None
  | j :: jobs => if decide (jb_id j = id) then Some i else find_from jobs (S i) id
  end.

Definition find_job (jobs : list job) (id : string) : option nat := find_from jobs 0 id.

Section run.
Context {W : Type} (env : environment W).

Abbreviation R := (R W).

Definition rlift {A} (c : cres A) : R A := fun y =>
  match c with
  | CRet a => CRet (a, y)
  | CUndef => CUndef
  | CAbort => CAbort
  | CFuel => CFuel
  end.

Definition get_sys : R (sys W) := fun y => CRet (y, y).
Definition get_jobs : R (list job) := fun y => CRet (y_jobs y, y).
Definition get_sctx : R (ctx W) := fun y => CRet (y_ctx y, y).
Definition mod_sctx (f : ctx W -> ctx W) : R unit := fun y => CRet (tt, Sys (y_jobs y) (f (y_ctx y))).

Definition rask {A} (q : query A) : R A := fun y =>
  let '(a, w) := env A q (x_env (y_ctx y)) in CRet (a, Sys (y_jobs y) ((y_ctx y) <| x_env := w |>)).

(** Work on [jobs[i]]. *)
Definition on_job {A} (i : nat) (m : M W A) : R A := fun y =>
  match y_jobs y !! i with
  | None => CUndef
  | Some j =>
      match m (St j (y_ctx y)) with
      | CRet (a, s) => CRet (a, Sys (<[i := s_job s]> (y_jobs y)) (s_ctx s))
      | CUndef => CUndef
      | CAbort => CAbort
      | CFuel => CFuel
      end
  end.

(** [for (i = from; i < from + n; i++) f(i)] *)
Fixpoint for_jobs (f : nat -> R unit) (from n : nat) : R unit :=
  match n with
  | 0 => mret tt
  | S n => f from;; for_jobs f (S from) n
  end.

Definition rpoll_cancel : R bool :=
  got ← rask QCancelSignal;
  mod_sctx (fun x => x <| x_cancel := x_cancel x || got |>);;
  x ← get_sctx;
  mret (x_cancel x).

(** ** Children *)

Definition is_leader (pid : Z) (j : job) : bool :=
  let r := jb_run j in
  negb ((rn_live_step r <? 0)%Z || negb (rn_proc_ok r) || rn_leader_reaped r || negb (rn_pid r =? pid)%Z).

(** The loop over the jobs for one child: the first whose leader it is. *)
Fixpoint reap_one (pid status : Z) (i n : nat) : R unit :=
  match n with
  | 0 => mret tt
  | S n =>
      jobs ← get_jobs;
      j ← rlift (cread jobs i);
      if is_leader pid j then on_job i (leader_exited env status)
      else reap_one pid status (S i) n
  end.

Fixpoint reap_all (children : list (Z * Z)) (n : nat) : R unit :=
  match children with
  | [] => mret tt
  | (pid, status) :: children => reap_one pid status 0 n;; reap_all children n
  end.

(** The check that a step's whole group is gone. *)
Definition check_group (i : nat) : R unit :=
  jobs ← get_jobs;
  j ← rlift (cread jobs i);
  let r := jb_run j in
  if (0 <=? rn_live_step r)%Z && rn_proc_ok r && rn_leader_reaped r
  then
    empty ← rask (QGroupEmpty (rn_pid r));
    if (empty : bool) then on_job i (job_send_plain env QWE_LC_EV_GROUP_EMPTY (rn_live_step r)) else mret tt
  else mret tt.

Definition reap_children : R unit :=
  children ← rask QWait;
  jobs ← get_jobs;
  reap_all children (length jobs);;
  for_jobs check_group 0 (length jobs).

(** ** The operator's cancel *)

(** The loop; [sent] so far. *)
Fixpoint tell_cancel (i n : nat) (sent : bool) : R bool :=
  match n with
  | 0 => mret sent
  | S n =>
      jobs ← get_jobs;
      j ← rlift (cread jobs i);
      if rn_cancel_told (jb_run j) then tell_cancel (S i) n sent
      else on_job i (job_send_plain env QWE_LC_EV_CANCEL (-1));; tell_cancel (S i) n true
  end.

Definition broadcast_cancel : R bool :=
  x ← get_sctx;
  if x_cancel x then jobs ← get_jobs; tell_cancel 0 (length jobs) false
  else mret false.

(** ** Targets *)

Definition target_max_sessions (target : string) : R Z :=
  v ← rask (QMaxSessions target);
  match v with
  | Some v => rlift (qwe_count_from_number v)
  | None => mret 8%Z
  end.

Definition target_disabled_note (target : string) : R (option string) :=
  if decide (target = "local"%string) then mret None else rask (QDisabled target).

Definition note_one (i : nat) : R unit :=
  jobs ← get_jobs;
  j ← rlift (cread jobs i);
  note ← target_disabled_note (jb_target j);
  on_job i (mod_job (fun j => j <| jb_detail := note |>)).

Definition note_disabled : R unit :=
  jobs ← get_jobs;
  for_jobs note_one 0 (length jobs).

Definition skip_one (i : nat) : R unit :=
  jobs ← get_jobs;
  j ← rlift (cread jobs i);
  match jb_detail j with
  | Some _ => on_job i (job_send env QWE_LC_EV_SKIP (Payload false (Some "target-disabled"%string) None) (-1))
  | None => mret tt
  end.

Definition skip_disabled : R unit :=
  jobs ← get_jobs;
  for_jobs skip_one 0 (length jobs).

(** Whether any step runs on the job's target. *)
Definition job_uses_target (j : job) : bool :=
  existsb (fun d => negb (bool_decide (sd_on d = Some "local"%string))) (jb_decl j).

(** Whether an earlier job already had this target connected. *)
Definition connected_before (jobs : list job) (i : nat) (target : string) : bool :=
  existsb (fun j => bool_decide (jb_target j = target) && job_uses_target j) (take i jobs).

Definition preconnect_one (i : nat) : R unit :=
  jobs ← get_jobs;
  j ← rlift (cread jobs i);
  if bool_decide (jb_target j = "local"%string) || bool_decide (is_Some (jb_detail j)) || negb (job_uses_target j)
  then mret tt
  else if connected_before jobs i (jb_target j) then mret tt
  else rask (QPreconnect (jb_target j)).

Definition preconnect : R unit :=
  jobs ← get_jobs;
  for_jobs preconnect_one 0 (length jobs).

(** ** What the scheduler sees *)

(** The part of [struct qwe_sched_job] that does not change: the indices of the
    needs, and the group. *)
Record sched_info := Info { in_needs : list nat; in_group : nat }.

(** [find_job(...) - jobs]: undefined if there is no such job. *)
Fixpoint need_indices (jobs : list job) (needs : list string) : cres (list nat) :=
  match needs with
  | [] => CRet []
  | id :: needs =>
      match find_job jobs id with
      | None => CUndef
      | Some d => ds ← need_indices jobs needs; mret (d :: ds)
      end
  end.

(** The groups so far: their names and caps. *)
Fixpoint sched_infos (jobs rest : list job) (names : list string) (caps : list Z) :
    R (list sched_info * list Z) :=
  match rest with
  | [] => mret ([], caps)
  | j :: rest =>
      needs ← rlift (need_indices jobs (jb_needs j));
      if decide (jb_target j = "local"%string)
      then
        '(infos, caps) ← sched_infos jobs rest names caps;
        mret (Info needs 0 :: infos, caps)
      else
        match list_find (fun n => n = jb_target j) names with
        | Some (g, _) =>
            '(infos, caps) ← sched_infos jobs rest names caps;
            mret (Info needs (g + 1) :: infos, caps)
        | None =>
            cap ← target_max_sessions (jb_target j);
            '(infos, caps) ← sched_infos jobs rest (names ++ [jb_target j]) (caps ++ [cap]);
            mret (Info needs (length names + 1) :: infos, caps)
        end
  end.

(** [sj]: the states are read through pointers into the jobs. *)
Definition sched_view (jobs : list job) (infos : list sched_info) : list qwe_sched_job :=
  zip_with (fun j i => SchedJob (jb_state j) (in_needs i) (in_group i)) jobs infos.

(** ** The loop *)

Fixpoint send_events (evs : list qwe_sched_event) : R unit :=
  match evs with
  | [] => mret tt
  | ev :: evs => on_job (se_job ev) (job_send_plain env (se_event ev) (-1));; send_events evs
  end.

Section loop.
Variables (infos : list sched_info) (max_parallel : Z) (caps : list Z).

(** [while ((got_n = qwe_sched_pass(...)) > 0)] *)
Fixpoint sched_passes (fuel : nat) : R unit :=
  match fuel with
  | 0 => rlift CFuel
  | S fuel =>
      jobs ← get_jobs;
      evs ← rlift (qwe_sched_pass (sched_view jobs infos) max_parallel caps);
      if 0 <? length evs then send_events evs;; sched_passes fuel
      else mret tt
  end.

(** [do { ... } while (broadcast_cancel(ctx))] *)
Fixpoint settle (fuel : nat) : R unit :=
  match fuel with
  | 0 => rlift CFuel
  | S fuel =>
      jobs ← get_jobs;
      sched_passes (S (2 * length jobs));;
      again ← broadcast_cancel;
      if (again : bool) then settle fuel else mret tt
  end.

(** Whether the descriptor behind a tag can be reported at this moment. *)
Definition tag_ready (y : sys W) (tag : Z) : bool :=
  (0 <=? tag)%Z && bool_decide (tag ∈ x_interest (y_ctx y)) &&
  match tag_kind tag with
  | None => false
  | Some EV_CHILD | Some EV_CANCEL => true
  | Some kind =>
      match y_jobs y !! Z.to_nat (tag_job tag) with
      | None => false
      | Some j =>
          let r := jb_run j in
          let due t := match deadline_of t with
                       | Some d => (d <=? x_clock (y_ctx y))%Z
                       | None => false
                       end in
          let live := (tag_step tag =? rn_live_step r)%Z && rn_proc_ok r in
          match kind with
          | EV_OUT | EV_RESULT => live
          | EV_STEP_TIMER => live && due (rn_step_timer r)
          | EV_GRACE_TIMER => live && due (rn_grace_timer r)
          | _ => rn_timer_ok r && due (rn_timer r)
          end
      end
  end.

(** [epoll_wait(ctx->ep, got, 32, -1)]: no tags when it is interrupted; [None]
    when it never returns. *)
Definition epoll_wait : R (option (list Z)) :=
  d ← rask QTick;
  mod_sctx (fun x => x <| x_clock := (x_clock x + Z.of_N d)%Z |>);;
  got ← rask QEpoll;
  y ← get_sys;
  mret match got with
       | Some tags => Some (take 32 (filter (fun t => tag_ready y t = true) (remove_dups tags)))
       | None => None
       end.

Definition handle_tag (tag : Z) : R unit :=
  match tag_kind tag with
  | Some EV_CHILD => reap_children
  | Some EV_CANCEL => rpoll_cancel;; mret tt
  | Some kind => on_job (Z.to_nat (tag_job tag)) (job_event env kind (tag_step tag))
  | None => on_job (Z.to_nat (tag_job tag)) (mret tt) (* [default:] of [job_event] *)
  end.

Fixpoint handle_tags (tags : list Z) : R unit :=
  match tags with
  | [] => mret tt
  | t :: tags => handle_tag t;; handle_tags tags
  end.

Definition count (p : qwe_lc_state -> bool) (jobs : list job) : nat :=
  length (filter (fun j => p (jb_state j) = true) jobs).

Inductive turn_result := Ended (rc : Z) | Hangs | Again.

(** One turn of [for (;;)]. *)
Definition turn : R turn_result :=
  broadcast_cancel;;
  settle 2;;
  jobs ← get_jobs;
  if count qwe_lc_state_is_final jobs =? length jobs then mret (Ended 0)
  else if count qwe_lc_state_is_running jobs =? 0 then mret (Ended (-1))
  else
    got ← epoll_wait;
    match got with
    | None => mret Hangs
    | Some tags => handle_tags tags;; mret Again
    end.

(** The loop, for at most [fuel] turns; [None]: it has not ended by then. *)
Fixpoint turns (fuel : nat) : R (option Z) :=
  match fuel with
  | 0 => mret None
  | S fuel =>
      r ← turn;
      match r with
      | Ended rc => mret (Some rc)
      | Hangs => mret None
      | Again => turns fuel
      end
  end.
End loop.

Definition run_all (fuel : nat) (max_parallel : Z) : R (option Z) :=
  mod_sctx (fun x => x <| x_interest := [cancel_tag; child_tag] |>);;
  jobs ← get_jobs;
  '(infos, caps) ← sched_infos jobs jobs [] [];
  skip_disabled;;
  turns infos max_parallel caps fuel.

(** ** A whole run *)

(** [max-parallel:], as the workflow has it. *)
Definition max_parallel_of (v : option spec_float) : cres Z :=
  match v with
  | Some v => qwe_count_from_number v
  | None => CRet 0%Z
  end.

Definition job_result (j : job) : qwe_job_result :=
  JobResult (jb_id j) (Some (qwe_lc_state_name (jb_state j))) (jb_reason j) (jb_detail j) (jb_started j) (jb_ended j)
    (jb_duration_ms j) (jb_dropped j) (default [] (jb_steps j)).

Definition job_ok (j : job) : bool :=
  bool_decide (jb_state j = QWE_LC_SUCCESS) || bool_decide (jb_state j = QWE_LC_SKIPPED).

(** The exit code of a run whose loop gave [rc], before and after result.json is
    written ([wrote]). *)
Definition exit_code (rc : Z) (jobs : list job) (cancelled : bool) : Z :=
  let code := if (rc <? 0)%Z then QWE_EXIT_FAILED else QWE_EXIT_OK in
  let code := if forallb job_ok jobs then code else QWE_EXIT_FAILED in
  if cancelled then QWE_EXIT_CANCELLED else code.

Definition final_code (code : Z) (wrote : bool) : Z := if wrote then code else QWE_EXIT_FAILED.

(** [qwe_run_workflow] from the loaded jobs to the results; [None] while the
    loop has not ended. *)
Definition run_jobs (fuel : nat) (max_parallel : option spec_float) : R (option (Z * list qwe_job_result)) :=
  mp ← rlift (max_parallel_of max_parallel);
  note_disabled;;
  preconnect;;
  rc ← run_all fuel mp;
  match rc with
  | None => mret None
  | Some rc =>
      jobs ← get_jobs;
      x ← get_sctx;
      mret (Some (exit_code rc jobs (x_cancel x), map job_result jobs))
  end.
End run.
