(* ===== verification/RunOk.v ===== *)
(** * The run keeps its promises

    Proofs about [run_all] and [run_jobs] of [Run]: for every environment and any
    number of turns of the loop, no table cell that is impossible is reached, no
    array is left, no loop runs out of its bound; a job starts only when its needs
    succeeded, the limits on running jobs hold, and when the loop ends every job is
    in a final state with every step's outcome recorded and nothing held. *)

From Stdlib Require Import Ascii NArith ZArith Lia SpecFloat Sorted.
From stdpp Require Import base sets list strings numbers pretty relations.
From S2P Require Import Prelude Qwe Fmt Lifecycle Dag Sched Ring Redact Sink Trace Result Job Jobs Engine EngineOk Send Run.

(** ** Weakest preconditions *)

Definition rwp {W A} (m : R W A) (Q : A -> sys W -> Prop) (y : sys W) : Prop :=
  match m y with
  | CRet (a, y') => Q a y'
  | _ => False
  end.

Section rwp.
Context {W : Type}.
Implicit Types y : sys W.

Lemma rwp_mono {A} (m : R W A) (Q Q' : A -> sys W -> Prop) y :
  rwp m Q y -> (forall a y', Q a y' -> Q' a y') -> rwp m Q' y.
Proof. unfold rwp. destruct (m y) as [[a y']| | |]; eauto. Qed.

Lemma rwp_ret {A} (a : A) (Q : A -> sys W -> Prop) y : Q a y -> rwp (mret a) Q y.
Proof. done. Qed.

Lemma rwp_bind {A B} (m : R W A) (k : A -> R W B) Q y :
  rwp m (fun a y' => rwp (k a) Q y') y -> rwp (m ≫= k) Q y.
Proof. unfold rwp, mbind, R_bind. destruct (m y) as [[a y']| | |]; eauto. Qed.

Lemma rwp_ask {A} (env : environment W) (q : query A) Q y :
  (forall a w, Q a (Sys (y_jobs y) ((y_ctx y) <| x_env := w |>))) -> rwp (rask env q) Q y.
Proof. unfold rwp, rask. intros H. destruct (env A q _) as [a w]. apply H. Qed.

Lemma rwp_lift {A} (c : cres A) a (Q : A -> sys W -> Prop) y : c = CRet a -> Q a y -> rwp (rlift c) Q y.
Proof. by intros ->. Qed.

Lemma rwp_get_jobs (Q : list job -> sys W -> Prop) y : Q (y_jobs y) y -> rwp get_jobs Q y.
Proof. done. Qed.
Lemma rwp_get_sctx (Q : ctx W -> sys W -> Prop) y : Q (y_ctx y) y -> rwp get_sctx Q y.
Proof. done. Qed.
Lemma rwp_get_sys (Q : sys W -> sys W -> Prop) y : Q y y -> rwp get_sys Q y.
Proof. done. Qed.
Lemma rwp_mod_sctx f (Q : unit -> sys W -> Prop) y : Q tt (Sys (y_jobs y) (f (y_ctx y))) -> rwp (mod_sctx f) Q y.
Proof. done. Qed.

(** [jobs[i]] of the state. *)
Lemma rwp_read_job i j (Q : job -> sys W -> Prop) y : y_jobs y !! i = Some j -> Q j y ->
  rwp (rlift (cread (y_jobs y) i)) Q y.
Proof. intros Hj HQ. eapply rwp_lift; [by apply cread_Some | done]. Qed.

Lemma rwp_on_job {A} i j (m : M W A) Q y : y_jobs y !! i = Some j ->
  wp m (fun a s => Q a (Sys (<[i := s_job s]> (y_jobs y)) (s_ctx s))) (St j (y_ctx y)) -> rwp (on_job i m) Q y.
Proof.
  unfold wp, rwp, on_job. intros ->. destruct (m _) as [[a s]| | |]; done.
Qed.
End rwp.

Ltac rwp1 :=
  lazymatch goal with
  | |- rwp (_ ≫= _) _ _ => apply rwp_bind
  | |- rwp (mret _) _ _ => apply rwp_ret
  | |- rwp (rask _ _) _ _ => apply rwp_ask; intros ? ?
  | |- rwp get_jobs _ _ => apply rwp_get_jobs
  | |- rwp get_sctx _ _ => apply rwp_get_sctx
  | |- rwp get_sys _ _ => apply rwp_get_sys
  | |- rwp (mod_sctx _) _ _ => apply rwp_mod_sctx
  end; cbn [y_jobs y_ctx].

Ltac rwps := repeat rwp1.

(** ** How the jobs move *)

(** A job moves on, and one that had not started does not start. *)
Record steady (ks kg : bool) (j j' : job) : Prop := {
  sy_adv : adv ks kg j j';
  sy_move : not_started (jb_state j) = true -> jb_state j' = jb_state j \/ jb_state j' = QWE_LC_SKIPPED;
}.

#[export] Instance steady_po ks kg : PreOrder (steady ks kg).
Proof.
  split; [intros j; split; [done | by left] |]. intros a b c [A1 A2] [B1 B2]. split; [by etrans |].
  intros H. destruct (A2 H) as [E|E].
  - rewrite E in B2. destruct (B2 H) as [F|F]; [left; congruence | by right].
  - right. rewrite (ad_final _ _ _ _ B1); [done | by rewrite E].
Qed.

Lemma steady_weaken ks kg j j' : steady true true j j' -> steady ks kg j j'.
Proof. intros [H1 H2]. split; [by apply adv_weaken | done]. Qed.

(** All of them do. *)
Definition sys_steady {W} (y y' : sys W) : Prop :=
  Forall2 (steady true true) (y_jobs y) (y_jobs y') /\ ctx_on (y_ctx y) (y_ctx y').

#[export] Instance sys_steady_po W : PreOrder (@sys_steady W).
Proof. split; [done |]. intros a b c [A1 A2] [B1 B2]. split; by etrans. Qed.

Definition all_inv {W} (y : sys W) : Prop := Forall inv (y_jobs y).

Lemma Forall2_insert_self {A} (P : A -> A -> Prop) `{!Reflexive P} l i x x' :
  l !! i = Some x -> P x x' -> Forall2 P l (<[i := x']> l).
Proof.
  intros Hx HP. rewrite <- (list_insert_id l i x) at 1 by done. apply Forall2_insert; [done | done].
Qed.

Section calm.
Context {W : Type} (env : environment W).

(** An operation that keeps every job's invariant and starts no job. *)
Definition calm_op {A} (m : R W A) : Prop :=
  forall y, all_inv y -> rwp m (fun _ y' => all_inv y' /\ sys_steady y y') y.

Lemma calm_bind {A B} (m : R W A) (k : A -> R W B) : calm_op m -> (forall a, calm_op (k a)) -> calm_op (m ≫= k).
Proof.
  intros Hm Hk y Hy. apply rwp_bind. eapply rwp_mono; [by apply Hm |]. intros a y1 (H1 & H2).
  eapply rwp_mono; [by apply Hk |]. intros b y2 (H3 & H4). split; [done | by etrans].
Qed.

Lemma calm_ret {A} (a : A) : calm_op (mret a).
Proof. intros y Hy. by apply rwp_ret. Qed.

Lemma calm_ask {A} (q : query A) : calm_op (rask env q).
Proof. intros y Hy. apply rwp_ask. intros a w. split; [done |]. split; [done | by constructor]. Qed.

(** One job is worked on. *)
Lemma calm_on_job {A} i j (m : M W A) y : all_inv y -> y_jobs y !! i = Some j ->
  wp m (fun _ s => inv (s_job s) /\ steady true true j (s_job s) /\ ctx_on (y_ctx y) (s_ctx s)) (St j (y_ctx y)) ->
  rwp (on_job i m) (fun _ y' => all_inv y' /\ sys_steady y y') y.
Proof.
  intros Hy Hj Hm. eapply rwp_on_job; [done |]. eapply wp_mono; [exact Hm |]. intros a s (H1 & H2 & H3).
  split; [by apply Forall_insert |]. split; [| done]. by apply (Forall2_insert_self _ _ _ j).
Qed.

Lemma heard_steady ks kg (s s' : st W) : heard ks kg s s' -> steady ks kg (s_job s) (s_job s').
Proof. intros (H1 & H2 & H3 & H4). split; [done |]. intros H. left. by apply H4. Qed.

Lemma delivered_steady ev (s s' : st W) : ev <> QWE_LC_EV_NEEDS_MET -> ev <> QWE_LC_EV_SLOT_GRANTED ->
  delivered ev s s' -> steady true true (s_job s) (s_job s').
Proof. intros N1 N2 ((H1 & H2 & H3) & H4 & _). split; [done |]. intros H. right. destruct ev; try done; by apply H4. Qed.

Lemma all_inv_lookup (y : sys W) i : all_inv y -> i < length (y_jobs y) ->
  exists j, y_jobs y !! i = Some j /\ inv j.
Proof.
  intros Hy Hi. destruct (lookup_lt_is_Some_2 _ _ Hi) as [j Hj]. exists j. split; [done |].
  by eapply Forall_lookup_1.
Qed.

Lemma steady_length (y y' : sys W) : sys_steady y y' -> length (y_jobs y') = length (y_jobs y).
Proof. intros [H _]. symmetry. by eapply Forall2_length. Qed.

(** A loop over the jobs whose body is calm on each. *)
Lemma calm_for (f : nat -> R W unit) from n (y : sys W) : (forall i y, i < length (y_jobs y) -> all_inv y ->
    rwp (f i) (fun _ y' => all_inv y' /\ sys_steady y y') y) ->
  from + n <= length (y_jobs y) -> all_inv y ->
  rwp (for_jobs f from n) (fun _ y' => all_inv y' /\ sys_steady y y') y.
Proof.
  intros Hf. revert from y. induction n as [|n IH]; intros from y Hn Hy; cbn [for_jobs]; [by apply rwp_ret |].
  apply rwp_bind. eapply rwp_mono; [apply Hf; [lia | done] |]. intros _ y1 (H1 & H2).
  eapply rwp_mono; [apply IH; [rewrite (steady_length _ _ H2); lia | done] |].
  intros _ y2 (H3 & H4). split; [done | by etrans].
Qed.

(** ** Children *)

Lemma reap_one_ok pid status i n y : all_inv y -> i + n <= length (y_jobs y) ->
  rwp (reap_one env pid status i n) (fun _ y' => all_inv y' /\ sys_steady y y') y.
Proof.
  revert i. induction n as [|n IH]; intros i Hy Hn; cbn [reap_one]; [by apply rwp_ret |].
  destruct (all_inv_lookup y i Hy) as (j & Hj & Hi); [lia |].
  apply rwp_bind, rwp_get_jobs, rwp_bind. eapply rwp_read_job; [done |].
  destruct (is_leader pid j) eqn:El; [| by apply IH; [done | lia]].
  eapply calm_on_job; [done | done |]. unfold is_leader in El. apply negb_true_iff in El.
  apply orb_false_iff in El as [El _]. apply orb_false_iff in El as [El _]. apply orb_false_iff in El as [_ El].
  apply negb_false_iff in El.
  eapply wp_mono; [by apply leader_exited_ok |]. intros [] s Hs. pose proof Hs as (H1 & _ & H3 & _).
  split; [done |]. split; [apply (heard_steady _ _ _ _ Hs) | done].
Qed.

Lemma reap_all_ok children n y : all_inv y -> n <= length (y_jobs y) ->
  rwp (reap_all env children n) (fun _ y' => all_inv y' /\ sys_steady y y') y.
Proof.
  revert y. induction children as [|[pid status] l IH]; intros y Hy Hn; cbn [reap_all]; [by apply rwp_ret |].
  apply rwp_bind. eapply rwp_mono; [by apply reap_one_ok |]. intros _ y1 (H1 & H2).
  eapply rwp_mono; [apply IH; [done | by rewrite (steady_length _ _ H2)] |].
  intros _ y2 (H3 & H4). split; [done | by etrans].
Qed.

Lemma check_group_ok i y : i < length (y_jobs y) -> all_inv y ->
  rwp (check_group env i) (fun _ y' => all_inv y' /\ sys_steady y y') y.
Proof.
  intros Hi Hy. destruct (all_inv_lookup y i Hy Hi) as (j & Hj & Hinv). unfold check_group.
  apply rwp_bind, rwp_get_jobs, rwp_bind. eapply rwp_read_job; [done |].
  destruct (_ && _ && _) eqn:E; [| by apply rwp_ret].
  apply andb_true_iff in E as [[E1 E2]%andb_true_iff E3]. rwps.
  assert (Hs0 : forall v, sys_steady y (Sys (y_jobs y) ((y_ctx y) <| x_env := v |>))) by (intros v; split; [done | by constructor]).
  destruct a; [| apply rwp_ret; split; [done | apply Hs0]].
  destruct (live_flying _ Hinv E2) as [Hst Hfl].
  eapply rwp_mono; [eapply (calm_on_job _ j _ (Sys (y_jobs y) _)); [exact Hy | exact Hj |] |].
  - eapply wp_mono; [apply (group_empty_send env plain_payload (St j _)); [done | done |] |].
    + by apply (fy_reaped _ Hfl).
    + intros [] s Hd. pose proof Hd as ((H1 & _ & H3) & _). split; [done |].
      split; [exact (delivered_steady QWE_LC_EV_GROUP_EMPTY _ _ ltac:(done) ltac:(done) Hd) | done].
  - intros _ y' (H1 & H2). split; [done |]. etrans; [apply Hs0 | done].
Qed.

Lemma reap_children_ok : calm_op (reap_children env).
Proof.
  intros y Hy. unfold reap_children. rwps.
  assert (Hs0 : sys_steady y (Sys (y_jobs y) ((y_ctx y) <| x_env := w |>))) by (split; [done | by constructor]).
  eapply rwp_mono; [by apply reap_all_ok |]. intros _ y1 (H1 & H2).
  eapply rwp_mono; [apply calm_for; [apply check_group_ok | | done] |].
  - rewrite (steady_length _ _ H2). done.
  - intros _ y2 (H3 & H4). split; [done |]. etrans; [apply Hs0 |]. by etrans.
Qed.
End calm.

(** ** The operator's cancel *)

Definition all_told {W} (y : sys W) : Prop := Forall (fun j => rn_cancel_told (jb_run j) = true) (y_jobs y).

Section cancel.
Context {W : Type} (env : environment W).

Lemma tell_cancel_ok i n sent (y : sys W) : all_inv y -> i + n <= length (y_jobs y) ->
  rwp (tell_cancel env i n sent) (fun b y' => all_inv y' /\ sys_steady y y' /\
    (forall k j, i <= k < i + n -> y_jobs y' !! k = Some j -> rn_cancel_told (jb_run j) = true) /\
    ((forall k j, i <= k < i + n -> y_jobs y !! k = Some j -> rn_cancel_told (jb_run j) = true) -> b = sent) /\
    (sent = true -> b = true) /\ (b = false -> y' = y)) y.
Proof.
  revert i sent y. induction n as [|n IH]; intros i sent y Hy Hn; cbn [tell_cancel].
  { apply rwp_ret. split_and!; [done | done | lia | done | done | done]. }
  destruct (all_inv_lookup y i Hy) as (j & Hj & Hi); [lia |].
  apply rwp_bind, rwp_get_jobs, rwp_bind. eapply rwp_read_job; [done |].
  (* the rest of the loop, from a state where job [i] has been told *)
  assert (Hrest : forall sent (y1 : sys W), all_inv y1 -> sys_steady y y1 ->
    (exists j1, y_jobs y1 !! i = Some j1 /\ rn_cancel_told (jb_run j1) = true) ->
    rwp (tell_cancel env (S i) n sent) (fun b y' => all_inv y' /\ sys_steady y y' /\
      (forall k j, i <= k < i + S n -> y_jobs y' !! k = Some j -> rn_cancel_told (jb_run j) = true) /\
      ((forall k j, S i <= k < S i + n -> y_jobs y1 !! k = Some j -> rn_cancel_told (jb_run j) = true) -> b = sent) /\
      (sent = true -> b = true) /\ (b = false -> y' = y1)) y1).
  { intros sent1 y1 Hy1 Hs1 (j1 & Hj1 & Ht1).
    eapply rwp_mono; [apply IH; [done | rewrite (steady_length _ _ Hs1); lia] |].
    intros b y2 (H1 & H2 & H3 & H4 & H5 & H6). split_and!; [done | by etrans | | done | done | done].
    intros k j' Hk Hj'. destruct (decide (k = i)) as [->|]; [| apply (H3 k); [lia | done]].
    destruct H2 as [H2 _]. destruct (Forall2_lookup_l _ _ _ _ _ H2 Hj1) as (j2 & Hj2 & [[_ _ _ _ _ _ _ _ Hc] _]).
    simplify_eq. auto. }
  destruct (rn_cancel_told (jb_run j)) eqn:Et.
  - eapply rwp_mono; [apply Hrest; [done | done | by exists j] |]. intros b y' (H1 & H2 & H3 & H4 & H5 & H6).
    split_and!; [done | done | done | | done | done]. intros H. apply H4. intros k j' Hk. apply H. lia.
  - apply rwp_bind. eapply rwp_on_job; [done |].
    eapply wp_mono; [by apply (cancel_send env plain_payload (St j (y_ctx y))) |].
    intros [] s Hd. pose proof (delivered_steady QWE_LC_EV_CANCEL _ _ ltac:(done) ltac:(done) Hd) as Hst.
    destruct Hd as ((H1 & _ & H3) & _ & Ht).
    eapply rwp_mono; [apply Hrest |].
    + by apply Forall_insert.
    + split; [by apply (Forall2_insert_self _ _ _ j) | done].
    + exists (s_job s). split; [| by apply Ht]. cbn. apply list_lookup_insert_eq. lia.
    + intros b y' (H5 & H6 & H7 & _ & H8 & _). rewrite (H8 eq_refl). split_and!; [done | done | done | | done | done]. intros H.
      specialize (H i j ltac:(lia) Hj). congruence.
Qed.

Lemma broadcast_cancel_ok (y : sys W) : all_inv y ->
  rwp (broadcast_cancel env) (fun b y' => all_inv y' /\ sys_steady y y' /\
    (b = true -> all_told y') /\ (all_told y -> b = false) /\ (b = false -> y' = y)) y.
Proof.
  intros Hy. unfold broadcast_cancel. rwps. destruct (x_cancel (y_ctx y)); rwps; [| by split_and!].
  eapply rwp_mono; [by apply tell_cancel_ok |]. intros b y' (H1 & H2 & H3 & H4 & _ & H6). split_and!; [done | done | | | done].
  - intros _. apply Forall_lookup. intros k j Hj. apply (H3 k); [| done].
    rewrite <- (steady_length _ _ H2). apply lookup_lt_Some in Hj. lia.
  - intros Ht. apply H4. intros k j _ Hj. by eapply Forall_lookup_1 in Ht.
Qed.

(** ** Disabled targets *)

Lemma note_one_ok i (y : sys W) : i < length (y_jobs y) ->
  rwp (note_one env i) (fun _ y' => exists note w j, y_jobs y !! i = Some j /\
    y' = Sys (<[i := j <| jb_detail := note |>]> (y_jobs y)) ((y_ctx y) <| x_env := w |>)) y.
Proof.
  intros Hi. destruct (lookup_lt_is_Some_2 _ _ Hi) as [j Hj]. unfold note_one.
  apply rwp_bind, rwp_get_jobs, rwp_bind. eapply rwp_read_job; [done |]. apply rwp_bind.
  unfold target_disabled_note. destruct (decide _).
  - apply rwp_ret. eapply rwp_on_job; [done |]. wps. exists None, (x_env (y_ctx y)), j. split; [done |].
    f_equal. by destruct (y_ctx y).
  - rwps. eapply rwp_on_job; [done |]. wps. by exists a, w, j.
Qed.

Lemma skip_one_ok i (y : sys W) : i < length (y_jobs y) -> all_inv y ->
  (forall j, y_jobs y !! i = Some j -> not_started (jb_state j) = true) ->
  rwp (skip_one env i) (fun _ y' => all_inv y' /\ sys_steady y y' /\ (forall k, k <> i -> y_jobs y' !! k = y_jobs y !! k)) y.
Proof.
  intros Hi Hy Hp. destruct (all_inv_lookup y i Hy Hi) as (j & Hj & Hinv). unfold skip_one.
  apply rwp_bind, rwp_get_jobs, rwp_bind. eapply rwp_read_job; [done |].
  destruct (jb_detail j) as [note|]; [| by apply rwp_ret].
  eapply rwp_on_job; [done |].
  eapply wp_mono; [apply (skip_send env QWE_LC_EV_SKIP _ (St j (y_ctx y))); [done |] |].
  { right. split; [by apply Hp | by right]. }
  intros [] s Hd. pose proof (delivered_steady QWE_LC_EV_SKIP _ _ ltac:(done) ltac:(done) Hd) as Hst.
  destruct Hd as ((H1 & _ & H3) & _). split; [by apply Forall_insert |].
  split; [split; [by apply (Forall2_insert_self _ _ _ j) | done] |].
  intros k Hk. cbn. by apply list_lookup_insert_ne.
Qed.

Lemma skip_disabled_ok (y : sys W) : all_inv y -> Forall (fun j => not_started (jb_state j) = true) (y_jobs y) ->
  rwp (skip_disabled env) (fun _ y' => all_inv y' /\ sys_steady y y') y.
Proof.
  intros Hy Hp. unfold skip_disabled. apply rwp_bind, rwp_get_jobs.
  assert (H : forall n from (y1 : sys W), all_inv y1 -> sys_steady y y1 -> from + n <= length (y_jobs y) ->
    (forall k j, from <= k -> y_jobs y1 !! k = Some j -> not_started (jb_state j) = true) ->
    rwp (for_jobs (skip_one env) from n) (fun _ y' => all_inv y' /\ sys_steady y y') y1).
  { induction n as [|n IH]; intros from y1 H1 H2 H3 H4; cbn [for_jobs]; [by apply rwp_ret |].
    apply rwp_bind. pose proof (steady_length _ _ H2). eapply rwp_mono; [apply skip_one_ok; [lia | done |] |].
    { intros j. by apply H4. }
    intros _ y2 (H5 & H6 & H7). apply IH; [done | by etrans | lia |]. intros k j Hk. rewrite H7 by lia. apply H4. lia. }
  apply H; [done | done | lia |]. intros k j _ Hj. by eapply Forall_lookup_1 in Hp.
Qed.
End cancel.

(** ** Counting *)

Fixpoint total {A} (f : A -> nat) (l : list A) : nat :=
  match l with
  | [] => 0
  | x :: l => f x + total f l
  end.

Lemma total_insert {A} (f : A -> nat) l i x x' : l !! i = Some x ->
  total f (<[i := x']> l) + f x = total f l + f x'.
Proof.
  revert i. induction l as [|y l IH]; intros [|i] H; simplify_eq/=; [lia |]. specialize (IH i H). lia.
Qed.

Lemma total_le {A} (f : A -> nat) l l' : Forall2 (fun x x' => f x' <= f x) l l' -> total f l' <= total f l.
Proof. induction 1; simpl; lia. Qed.

Lemma total_bound {A} (f : A -> nat) b l : (forall x, f x <= b) -> total f l <= b * length l.
Proof. intros H. induction l as [|x l IH]; simpl; [lia |]. specialize (H x). lia. Qed.

Definition running_weight (j : qwe_sched_job) : nat := if qwe_lc_state_is_running (sj_state j) then 1 else 0.
Definition group_weight (g : nat) (j : qwe_sched_job) : nat :=
  if (sj_group j =? g) && qwe_lc_state_is_running (sj_state j) then 1 else 0.

Lemma count_running_total l : count_running l = total running_weight l.
Proof. induction l as [|j l IH]; simpl; [done |]. by rewrite IH. Qed.

Lemma group_running_total g l : group_running l g = total (group_weight g) l.
Proof. induction l as [|j l IH]; simpl; [done |]. by rewrite IH. Qed.

(** How far a job is from starting. *)
Definition start_weight (j : job) : nat :=
  match jb_state j with
  | QWE_LC_PENDING => 2
  | QWE_LC_READY => 1
  | _ => 0
  end.

(** ** What the scheduler sees of the jobs *)

Section sched.
Context {W : Type} (env : environment W).
Context (infos : list sched_info) (max_parallel : Z) (caps : list Z).

(** The scheduler's constants fit the jobs. *)
Record infos_ok (n : nat) : Prop := {
  io_length : length infos = n;
  io_needs : forall i info d, infos !! i = Some info -> d ∈ in_needs info -> d < n;
  io_groups : forall i info, infos !! i = Some info -> in_group info <= length caps;
  io_caps : forall c, c ∈ caps -> (0 <= c < 2 ^ 63)%Z;
  io_max : (0 <= max_parallel < 2 ^ 63)%Z;
}.

Lemma view_lookup jobs i v : sched_view jobs infos !! i = Some v <->
  exists j info, jobs !! i = Some j /\ infos !! i = Some info /\ v = SchedJob (jb_state j) (in_needs info) (in_group info).
Proof. unfold sched_view. rewrite lookup_zip_with_Some. naive_solver. Qed.

Lemma view_length jobs : infos_ok (length jobs) -> length (sched_view jobs infos) = length jobs.
Proof. intros []. unfold sched_view. rewrite length_zip_with. lia. Qed.

Lemma view_wf jobs : infos_ok (length jobs) -> sched_wf (sched_view jobs infos) max_parallel caps.
Proof.
  intros Ho. pose proof (view_length _ Ho) as Hl. destruct Ho. constructor; [| | done | done].
  - intros i v d (j & info & Hj & Hi & ->)%view_lookup Hd. rewrite Hl. by eapply io_needs0.
  - intros i v (j & info & Hj & Hi & ->)%view_lookup. by eapply io_groups0.
Qed.

Lemma view_insert jobs i j j' info : jobs !! i = Some j -> infos !! i = Some info ->
  sched_view (<[i := j']> jobs) infos =
  <[i := SchedJob (jb_state j') (in_needs info) (in_group info)]> (sched_view jobs infos).
Proof.
  intros Hj Hi. unfold sched_view. rewrite <- (list_insert_id infos i info) at 1 by done.
  by rewrite <- insert_zip_with.
Qed.

Definition running (jobs : list job) : nat := count_running (sched_view jobs infos).
Definition group_sessions (jobs : list job) (g : nat) : nat := group_running (sched_view jobs infos) g.

(** ** What holds between two operations *)

(** A job has got past its needs. *)
Definition passed (s : qwe_lc_state) : bool :=
  match s with QWE_LC_PENDING | QWE_LC_SKIPPED => false | _ => true end.

(** Whoever got past its needs has needs that all succeeded. *)
Definition needs_met (jobs : list job) : Prop :=
  forall i j info, jobs !! i = Some j -> infos !! i = Some info -> passed (jb_state j) = true ->
  forall d, d ∈ in_needs info -> exists j', jobs !! d = Some j' /\ jb_state j' = QWE_LC_SUCCESS.

Definition within_limits (jobs : list job) : Prop :=
  ((0 < max_parallel)%Z -> (Z.of_nat (running jobs) <= max_parallel)%Z) /\
  (forall g cap, caps !! g = Some cap -> (Z.of_nat (group_sessions jobs (S g)) <= cap)%Z).

Record good (y : sys W) : Prop := {
  gd_inv : all_inv y;
  gd_infos : infos_ok (length (y_jobs y));
  gd_needs : needs_met (y_jobs y);
  gd_limits : within_limits (y_jobs y);
}.

(** A move that starts nothing keeps the needs and the limits. *)
Lemma steady_passed ks kg j j' : steady ks kg j j' -> passed (jb_state j') = true -> passed (jb_state j) = true.
Proof.
  intros [[_ _ Hf _ _ _ _ _ _] Hm] H. destruct (jb_state j); try done; cbn in *.
  - destruct (Hm eq_refl) as [E|E]; by rewrite E in H.
  - specialize (Hf eq_refl). by rewrite Hf in H.
Qed.

Lemma steady_running ks kg j j' : steady ks kg j j' -> qwe_lc_state_is_running (jb_state j') = true ->
  qwe_lc_state_is_running (jb_state j) = true.
Proof.
  intros [[_ _ Hf _ _ _ _ _ _] Hm] H. destruct (jb_state j); try done; cbn in *;
    try (specialize (Hf eq_refl); by rewrite Hf in H); destruct (Hm eq_refl) as [E|E]; by rewrite E in H.
Qed.

Lemma adv_success ks kg j j' : adv ks kg j j' -> jb_state j = QWE_LC_SUCCESS -> jb_state j' = QWE_LC_SUCCESS.
Proof. intros [_ _ Hf _ _ _ _ _ _] E. rewrite Hf; by rewrite E. Qed.

Lemma view_weights (f : qwe_sched_job -> nat) jobs jobs' :
  Forall2 (fun j j' => forall n g, f (SchedJob (jb_state j') n g) <= f (SchedJob (jb_state j) n g)) jobs jobs' ->
  total f (sched_view jobs' infos) <= total f (sched_view jobs infos).
Proof.
  unfold sched_view. intros H. revert infos. induction H as [|j j' l l' Hj H IH]; intros [|i il]; simpl; try lia.
  specialize (Hj (in_needs i) (in_group i)). specialize (IH il). lia.
Qed.

Lemma steady_good ks kg (y y' : sys W) : good y -> all_inv y' -> Forall2 (steady ks kg) (y_jobs y) (y_jobs y') -> good y'.
Proof.
  intros [H1 H2 H3 [H4 H5]] Hi Hs. pose proof (Forall2_length _ _ _ Hs) as Hl.
  assert (Hw : forall f : qwe_sched_job -> nat,
    (forall s s' n g, (qwe_lc_state_is_running s' = true -> qwe_lc_state_is_running s = true) ->
      f (SchedJob s' n g) <= f (SchedJob s n g)) ->
    total f (sched_view (y_jobs y') infos) <= total f (sched_view (y_jobs y) infos)).
  { intros f Hf. apply view_weights. eapply Forall2_impl; [exact Hs |]. intros j j' Hj n g. apply Hf.
    by apply (steady_running _ _ _ _ Hj). }
  constructor; [done | by rewrite <- Hl | |].
  - intros i j' info Hj' Hi' Hp d Hd. destruct (Forall2_lookup_r _ _ _ _ _ Hs Hj') as (j & Hj & Hst).
    destruct (H3 i j info Hj Hi' (steady_passed _ _ _ _ Hst Hp) d Hd) as (k & Hk & Hsu).
    destruct (Forall2_lookup_l _ _ _ _ _ Hs Hk) as (k' & Hk' & [Ha _]). exists k'. split; [done |]. by eapply adv_success.
  - split.
    + intros Hm. specialize (H4 Hm). unfold running in *. rewrite count_running_total in *.
      specialize (Hw running_weight). etrans; [| exact H4]. apply Nat2Z.inj_le, Hw.
      intros s s' n g H. unfold running_weight. cbn. destruct (qwe_lc_state_is_running s'); [by rewrite H | lia].
    + intros g cap Hc. specialize (H5 g cap Hc). unfold group_sessions in *. rewrite group_running_total in *.
      specialize (Hw (group_weight (S g))). etrans; [| exact H5]. apply Nat2Z.inj_le, Hw.
      intros s s' n g' H. unfold group_weight. cbn. destruct (_ =? _); [| done]. cbn.
      destruct (qwe_lc_state_is_running s'); [by rewrite H | lia].
Qed.

(** ** Sending what a pass decided *)

(** The states the scheduler sends an event to. *)
Definition event_fits (ev : qwe_lc_event) (s : qwe_lc_state) : Prop :=
  match ev with
  | QWE_LC_EV_NEEDS_MET | QWE_LC_EV_NEEDS_FAILED => s = QWE_LC_PENDING
  | QWE_LC_EV_SLOT_GRANTED => s = QWE_LC_READY
  | _ => False
  end.

Lemma send_fits ev (s : st W) : inv (s_job s) -> event_fits ev (jb_state (s_job s)) ->
  wp (job_send_plain env ev (-1)) (fun _ s' => delivered ev s s') s.
Proof.
  intros Hi Hf. unfold job_send_plain. destruct ev; try done; cbn in Hf.
  - by apply needs_met_send.
  - apply skip_send; [done |]. by left.
  - by apply slot_send.
Qed.

Lemma granted_in_ext l l' g evs : (forall k : nat, sj_group <$> l !! k = sj_group <$> l' !! k) ->
  granted_in l g evs = granted_in l' g evs.
Proof. intros H. induction evs as [|ev evs IH]; simpl; [done |]. by rewrite IH, H. Qed.

(** What has happened after some events were sent. *)
Record sent_events (evs : list qwe_sched_event) (jobs jobs' : list job) : Prop := {
  ss_adv : Forall2 (adv true true) jobs jobs';
  ss_other : forall i, i ∉ (se_job <$> evs) -> jobs' !! i = jobs !! i;
  ss_sent : forall ev j', ev ∈ evs -> jobs' !! se_job ev = Some j' ->
    exists j, jobs !! se_job ev = Some j /\ sent (se_event ev) (jb_state j) (jb_state j');
  ss_running : running jobs' <= running jobs + length (grants evs);
  ss_groups : forall g, group_sessions jobs' g <=
    group_sessions jobs g + granted_in (sched_view jobs infos) g (grants evs);
  ss_progress : total start_weight jobs' + length evs <= total start_weight jobs;
}.

Lemma sent_weights ev s s' : event_fits ev s -> sent ev s s' ->
  (forall n g, running_weight (SchedJob s' n g) <=
     running_weight (SchedJob s n g) + (if decide (ev = QWE_LC_EV_SLOT_GRANTED) then 1 else 0)) /\
  (forall n h g, group_weight g (SchedJob s' n h) <= group_weight g (SchedJob s n h) +
     (if decide (ev = QWE_LC_EV_SLOT_GRANTED) then (if decide (Some h = Some g) then 1 else 0) else 0)).
Proof.
  intros Hf Hs. unfold running_weight, group_weight. cbn [sj_state sj_group].
  assert (Hns : qwe_lc_state_is_running s = false) by (by destruct ev; try done; cbn in Hf; subst).
  rewrite Hns. destruct ev; try done; cbn in Hf, Hs.
  - subst s'. cbn. split; [lia |]. intros n h g. rewrite andb_false_r. cbn. lia.
  - subst s. rewrite (Hs eq_refl). cbn. split; [lia |]. intros n h g. rewrite andb_false_r. cbn. lia.
  - rewrite decide_True by done. split; [intros; destruct (qwe_lc_state_is_running s'); lia |].
    intros n h g. destruct (Nat.eqb_spec h g) as [->|]; cbn; [| lia].
    rewrite !decide_True by done. destruct (qwe_lc_state_is_running s'); lia.
Qed.

(** The first of the events. *)
Lemma sent_first ev (j j' : job) jobs : infos_ok (length jobs) -> jobs !! se_job ev = Some j -> adv true true j j' ->
  event_fits (se_event ev) (jb_state j) -> sent (se_event ev) (jb_state j) (jb_state j') ->
  sent_events [ev] jobs (<[se_job ev := j']> jobs).
Proof.
  intros Ho Hj Ha Hf Hs. set (i := se_job ev) in *.
  assert (Hlt : i < length jobs) by (by eapply lookup_lt_Some).
  destruct (lookup_lt_is_Some_2 infos i) as [info Hi]; [by rewrite (io_length _ Ho) |].
  destruct (sent_weights _ _ _ Hf Hs) as [Hw1 Hw2].
  assert (Hv : sched_view jobs infos !! i = Some (SchedJob (jb_state j) (in_needs info) (in_group info))).
  { apply view_lookup. by exists j, info. }
  constructor.
  - by apply (Forall2_insert_self _ _ _ j).
  - intros k Hk. cbn in Hk. apply list_lookup_insert_ne. set_solver.
  - intros ev' k' ->%list_elem_of_singleton Hk'. exists j. split; [done |].
    rewrite list_lookup_insert_eq in Hk' by done. by injection Hk' as <-.
  - unfold running. rewrite (view_insert _ _ j _ info) by done. rewrite !count_running_total.
    pose proof (total_insert running_weight _ _ _ (SchedJob (jb_state j') (in_needs info) (in_group info)) Hv) as Ht.
    specialize (Hw1 (in_needs info) (in_group info)). unfold grants.
    destruct (decide (se_event ev = QWE_LC_EV_SLOT_GRANTED)) as [E|E];
      [rewrite filter_cons_True by done | rewrite filter_cons_False by done]; simpl; lia.
  - intros g. unfold group_sessions. rewrite (view_insert _ _ j _ info) by done. rewrite !group_running_total.
    pose proof (total_insert (group_weight g) _ _ _ (SchedJob (jb_state j') (in_needs info) (in_group info)) Hv) as Ht.
    specialize (Hw2 (in_needs info) (in_group info) g). unfold grants.
    destruct (decide (se_event ev = QWE_LC_EV_SLOT_GRANTED)) as [E|E];
      [rewrite filter_cons_True by done | rewrite filter_cons_False by done]; simpl; [| lia].
    fold i. rewrite Hv. cbn [fmap option_fmap option_map sj_group]. lia.
  - pose proof (total_insert start_weight _ _ _ j' Hj) as Ht.
    assert (start_weight j' + 1 <= start_weight j); [| simpl; lia].
    unfold start_weight. destruct (se_event ev); try done; cbn in Hf, Hs; rewrite Hf in *; cbn in *;
      [rewrite Hs; lia | rewrite (Hs eq_refl); lia | by destruct (jb_state j'); try done; lia].
Qed.

Lemma sent_cons ev evs jobs jobs1 jobs2 : se_job ev ∉ (se_job <$> evs) ->
  sent_events [ev] jobs jobs1 -> sent_events evs jobs1 jobs2 -> sent_events (ev :: evs) jobs jobs2.
Proof.
  intros Hn [A1 A2 A3 A4 A5 A6] [B1 B2 B3 B4 B5 B6].
  assert (Hg : grants (ev :: evs) = grants [ev] ++ grants evs) by apply (filter_app _ [ev] evs).
  constructor.
  - by etrans.
  - intros i Hi. cbn in Hi. apply not_elem_of_cons in Hi as [H1 H2]. rewrite B2 by done. apply A2. cbn. set_solver.
  - intros ev' j' [->|Hin]%elem_of_cons Hj'.
    + apply A3; [set_solver |]. by rewrite <- B2.
    + destruct (B3 ev' j' Hin Hj') as (j & Hj & Hs). exists j. split; [| done]. rewrite <- A2; [done |].
      cbn. rewrite list_elem_of_singleton. intros E. apply Hn. rewrite <- E. by apply list_elem_of_fmap_2.
  - rewrite Hg, length_app. lia.
  - intros g. specialize (A5 g). specialize (B5 g). rewrite Hg, granted_in_app.
    rewrite (granted_in_ext (sched_view jobs1 infos) (sched_view jobs infos)) in B5; [lia |].
    intros k. unfold sched_view. rewrite !lookup_zip_with. pose proof (proj1 (Forall2_lookup _ _ _) A1 k) as Hk.
    destruct Hk as [j j1 _|]; [| done]. cbn. by destruct (infos !! k).
  - cbn [length] in *. lia.
Qed.

Lemma sent_nil jobs : sent_events [] jobs jobs.
Proof. constructor; [done | done | set_solver | cbn; lia | cbn; lia | cbn; lia]. Qed.

Lemma send_events_ok evs (y : sys W) : all_inv y -> infos_ok (length (y_jobs y)) -> NoDup (se_job <$> evs) ->
  (forall ev, ev ∈ evs -> exists j, y_jobs y !! se_job ev = Some j /\ event_fits (se_event ev) (jb_state j)) ->
  rwp (send_events env evs) (fun _ y' => all_inv y' /\ sent_events evs (y_jobs y) (y_jobs y') /\
    ctx_on (y_ctx y) (y_ctx y')) y.
Proof.
  revert y. induction evs as [|ev evs IH]; intros y Hy Ho Hnd Hf; cbn [send_events].
  { apply rwp_ret. split; [done |]. split; [apply sent_nil | done]. }
  cbn in Hnd. apply NoDup_cons in Hnd as [Hn Hnd].
  destruct (Hf ev) as (j & Hj & Hfit); [set_solver |].
  apply rwp_bind. eapply rwp_on_job; [done |].
  eapply wp_mono; [apply (send_fits _ (St j (y_ctx y))); [by eapply Forall_lookup_1 in Hy | done] |].
  intros [] s ((H1 & H2 & H3) & H4 & _). cbn [s_job s_ctx] in *.
  pose proof (sent_first ev j (s_job s) (y_jobs y) Ho Hj H2 Hfit H4) as Hfirst.
  eapply rwp_mono; [apply IH |].
  - by apply Forall_insert.
  - cbn. by rewrite length_insert.
  - done.
  - intros ev' Hev'. destruct (Hf ev') as (j' & Hj' & Hfit'); [set_solver |]. exists j'. split; [| done].
    cbn. rewrite list_lookup_insert_ne; [done |]. intros E. apply Hn. rewrite E. by apply list_elem_of_fmap_2.
  - intros _ y' (H5 & H6 & H7). cbn in H6, H7. split; [done |]. split; [by eapply sent_cons | by etrans].
Qed.

(** A pass and the sending of its events. *)
Lemma pass_send_ok (y : sys W) : good y -> exists evs,
  qwe_sched_pass (sched_view (y_jobs y) infos) max_parallel caps = CRet evs /\
  rwp (send_events env evs) (fun _ y' => good y' /\ Forall2 (adv true true) (y_jobs y) (y_jobs y') /\
    ctx_on (y_ctx y) (y_ctx y') /\ total start_weight (y_jobs y') + length evs <= total start_weight (y_jobs y)) y.
Proof.
  intros [G1 G2 G3 [G4 G5]]. pose proof (view_wf _ G2) as Hwf.
  destruct (sched_pass_cases _ _ _ Hwf) as (evs & Hp & Hc). exists evs. split; [done |].
  pose proof (limits_kept _ _ _ _ Hwf Hp) as [L1 L2].
  (* what the pass says of each event *)
  assert (Hev : forall ev, ev ∈ evs -> exists j info, y_jobs y !! se_job ev = Some j /\ infos !! se_job ev = Some info /\
    event_fits (se_event ev) (jb_state j) /\ (se_event ev = QWE_LC_EV_NEEDS_MET ->
      Forall (need_is (sched_view (y_jobs y) infos) (eq QWE_LC_SUCCESS)) (in_needs info))).
  { intros ev Hev. destruct Hc as [(_ & _ & Hin)|(_ & Hok)].
    - apply Hin in Hev as (k & v & Hv & -> & [Hpend _] & Hkind). apply view_lookup in Hv as (j & info & Hj & Hi & ->).
      exists j, info. split; [done |]. split; [done |]. cbn in *.
      destruct Hkind as [[-> Hall]|[-> _]]; cbn; by split.
    - destruct (so_grant _ _ _ _ _ Hok ev Hev) as (E & _ & v & Hv & Hr).
      apply view_lookup in Hv as (j & info & Hj & Hi & ->). exists j, info. rewrite E. by cbn in *. }
  assert (Hnd : NoDup (se_job <$> evs)).
  { assert (Hs : StronglySorted lt (se_job <$> evs)) by (destruct Hc as [(_ & Hs & _)|(_ & Hok)]; [done | by eapply so_sorted]).
    clear -Hs. induction Hs as [|x l Hs IH Hx]; constructor; [| done]. intros Hin.
    eapply (Forall_forall (lt x)) in Hx; [| exact Hin]. lia. }
  eapply rwp_mono; [apply send_events_ok; [done | done | done |] |].
  { intros ev Hin. destruct (Hev ev Hin) as (j & info & Hj & _ & Hf & _). by exists j. }
  intros _ y' (H1 & [S1 S2 S3 S4 S5 S6] & H3). pose proof (Forall2_length _ _ _ S1) as Hl.
  split; [| by split_and!]. constructor; [done | by rewrite <- Hl | |].
  - intros i j' info Hj' Hi Hpass d Hd.
    assert (Hsucc : forall k v, y_jobs y !! k = Some v -> jb_state v = QWE_LC_SUCCESS ->
      exists v', y_jobs y' !! k = Some v' /\ jb_state v' = QWE_LC_SUCCESS).
    { intros k v Hv Hsv. destruct (Forall2_lookup_l _ _ _ _ _ S1 Hv) as (v' & Hv' & Ha). exists v'.
      split; [done |]. by eapply adv_success. }
    destruct (decide (i ∈ (se_job <$> evs))) as [(ev & -> & Hin)%list_elem_of_fmap|Hni].
    + destruct (S3 ev j' Hin Hj') as (j & Hj & Hsent). destruct (Hev ev Hin) as (j0 & info0 & Hj0 & Hi0 & Hfit & Hmet).
      simplify_eq. destruct (se_event ev) eqn:Ee; try done; cbn in Hfit, Hsent.
      * specialize (Hmet eq_refl). eapply Forall_forall in Hmet; [| exact Hd]. destruct Hmet as (v & Hv & Es).
        apply view_lookup in Hv as (jd & infod & Hjd & _ & ->). by eapply Hsucc.
      * rewrite Hfit in Hsent. specialize (Hsent eq_refl). by rewrite Hsent in Hpass.
      * destruct (G3 _ j info Hj Hi) with (d := d) as (jd & Hjd & Es); [by rewrite Hfit | done |]. by eapply Hsucc.
    + rewrite S2 in Hj' by done. destruct (G3 i j' info Hj' Hi Hpass d Hd) as (jd & Hjd & Es). by eapply Hsucc.
  - split.
    + intros Hm. specialize (L1 Hm (G4 Hm)). unfold running in *. lia.
    + intros g cap Hcap. specialize (L2 g cap Hcap (G5 g cap Hcap)). specialize (S5 (S g)).
      unfold sessions in L2. unfold group_sessions in *. lia.
Qed.

Lemma sched_passes_ok fuel (y : sys W) : good y -> total start_weight (y_jobs y) < fuel ->
  rwp (sched_passes env infos max_parallel caps fuel) (fun _ y' => good y' /\
    Forall2 (adv true true) (y_jobs y) (y_jobs y') /\ ctx_on (y_ctx y) (y_ctx y') /\
    qwe_sched_pass (sched_view (y_jobs y') infos) max_parallel caps = CRet []) y.
Proof.
  revert y. induction fuel as [|fuel IH]; intros y Hg Hf; [lia |]. cbn [sched_passes].
  destruct (pass_send_ok y Hg) as (evs & Hp & Hs). apply rwp_bind, rwp_get_jobs, rwp_bind.
  eapply rwp_lift; [exact Hp |]. destruct evs as [|ev evs]; cbn [length Nat.ltb Nat.leb].
  - apply rwp_ret. by split_and!.
  - apply rwp_bind. eapply rwp_mono; [exact Hs |]. intros _ y1 (H1 & H2 & H3 & H4). cbn [length] in H4.
    eapply rwp_mono; [apply IH; [done | lia] |]. intros _ y2 (H5 & H6 & H7 & H8).
    split_and!; [done | by etrans | by etrans | done].
Qed.
End sched.

(** ** Turns of the loop *)

Section turn.
Context {W : Type} (env : environment W).
Context (infos : list sched_info) (max_parallel : Z) (caps : list Z).

Abbreviation good := (good infos max_parallel caps).

Lemma steady_adv ks kg (l l' : list job) : Forall2 (steady ks kg) l l' -> Forall2 (adv ks kg) l l'.
Proof. intros H. eapply Forall2_impl; [exact H |]. by intros j j' []. Qed.

Lemma adv_told (y y' : sys W) : Forall2 (adv true true) (y_jobs y) (y_jobs y') -> all_told y -> all_told y'.
Proof.
  intros H Ht. unfold all_told in *. induction H as [|j j' l l' Hj H IH]; [done |].
  apply Forall_cons in Ht as [Ht1 Ht2]. constructor; [| by apply IH]. by apply (ad_cancel _ _ _ _ Hj).
Qed.

Lemma start_weight_bound jobs : total start_weight jobs <= 2 * length jobs.
Proof. apply total_bound. intros j. unfold start_weight. destruct (jb_state j); lia. Qed.

(** One round of passes and a broadcast. *)
Lemma settle_round (y : sys W) (k : bool -> R W unit) Q : good y ->
  (forall b y', good y' -> Forall2 (adv true true) (y_jobs y) (y_jobs y') -> ctx_on (y_ctx y) (y_ctx y') ->
     (b = true -> all_told y') -> (all_told y -> b = false) ->
     (b = false -> qwe_sched_pass (sched_view (y_jobs y') infos) max_parallel caps = CRet []) -> rwp (k b) Q y') ->
  rwp (jobs ← get_jobs; sched_passes env infos max_parallel caps (S (2 * length jobs));; again ← broadcast_cancel env; k again) Q y.
Proof.
  intros Hg Hk. apply rwp_bind, rwp_get_jobs, rwp_bind.
  eapply rwp_mono; [apply sched_passes_ok; [done |] |].
  { pose proof (start_weight_bound (y_jobs y)). lia. }
  intros _ y1 (H1 & H2 & H3 & H4). apply rwp_bind.
  eapply rwp_mono; [apply broadcast_cancel_ok, H1 |]. intros b y2 (H5 & H6 & H7 & H8 & H9).
  apply Hk.
  - eapply steady_good; [exact H1 | done | apply H6].
  - etrans; [exact H2 |]. eapply steady_adv, H6.
  - etrans; [exact H3 | apply H6].
  - done.
  - intros Ht. apply H8. by eapply adv_told.
  - intros Hb. by rewrite (H9 Hb).
Qed.

Lemma settle_ok (y : sys W) : good y ->
  rwp (settle env infos max_parallel caps 2) (fun _ y' => good y' /\ Forall2 (adv true true) (y_jobs y) (y_jobs y') /\
    ctx_on (y_ctx y) (y_ctx y') /\ qwe_sched_pass (sched_view (y_jobs y') infos) max_parallel caps = CRet []) y.
Proof.
  intros Hg. cbn [settle]. apply settle_round; [done |]. intros b y1 H1 H2 H3 H4 H5 H6.
  destruct b; [| apply rwp_ret; split_and!; auto].
  apply settle_round; [done |]. intros b y2 G1 G2 G3 G4 G5 G6. specialize (G5 (H4 eq_refl)). subst b.
  apply rwp_ret. split_and!; [done | by etrans | by etrans | auto].
Qed.

(** ** A batch of epoll events *)

(** What [epoll_wait] gives, job by job. *)
Definition tag_good (jobs : list job) (tag : Z) : Prop :=
  match tag_kind tag with
  | Some EV_CHILD | Some EV_CANCEL => True
  | Some kind => exists j, jobs !! Z.to_nat (tag_job tag) = Some j /\ tag_ok kind (tag_step tag) j
  | None => False
  end.

Definition is_timer_tag (tag : Z) : bool :=
  match tag_kind tag with Some EV_STEP_TIMER | Some EV_GRACE_TIMER => true | _ => false end.

(** The tags of a batch whose timers are read at most once. *)
Definition batch (tags : list Z) : Prop :=
  NoDup ((fun t => (Z.to_nat (tag_job t), tag_kind t)) <$> filter (fun t => is_timer_tag t = true) tags).

Lemma tag_good_adv (jobs jobs' : list job) tag : Forall2 (adv true true) jobs jobs' -> tag_good jobs tag -> tag_good jobs' tag.
Proof.
  unfold tag_good. intros H Ht. destruct (tag_kind tag) as [kind|]; [| done].
  destruct kind; try done; destruct Ht as (j & Hj & Hok); destruct (Forall2_lookup_l _ _ _ _ _ H Hj) as (j' & Hj' & Ha);
    exists j'; (split; [done |]); (eapply tag_ok_adv; [exact Ha | done | done | done]).
Qed.

Lemma handle_job_tag kind tag j (y : sys W) : all_inv y -> tag_kind tag = Some kind ->
  y_jobs y !! Z.to_nat (tag_job tag) = Some j -> tag_ok kind (tag_step tag) j ->
  rwp (on_job (Z.to_nat (tag_job tag)) (job_event env kind (tag_step tag))) (fun _ y' => all_inv y' /\
    ctx_on (y_ctx y) (y_ctx y') /\
    exists j', y_jobs y' = <[Z.to_nat (tag_job tag) := j']> (y_jobs y) /\
      steady (negb (is_step_timer kind)) (negb (is_grace_timer kind)) j j') y.
Proof.
  intros Hy Hk Hj Ht. eapply rwp_on_job; [done |].
  eapply wp_mono; [apply (job_event_ok env kind (tag_step tag) (St j (y_ctx y))); [by eapply Forall_lookup_1 in Hy | done] |].
  intros [] s Hh. pose proof (heard_steady _ _ _ _ Hh) as Hs. destruct Hh as (H1 & _ & H3 & _).
  split; [by apply Forall_insert |]. split; [done |]. by exists (s_job s).
Qed.

Lemma steady_any ks kg j j' : steady ks kg j j' -> steady false false j j'.
Proof. intros [[] H]. by split; [constructor |]. Qed.

(** The tags that are left stay good. *)
Lemma tags_left kind tag tags j j' jobs : tag_kind tag = Some kind -> batch (tag :: tags) ->
  jobs !! Z.to_nat (tag_job tag) = Some j -> steady (negb (is_step_timer kind)) (negb (is_grace_timer kind)) j j' ->
  Forall (tag_good jobs) tags -> Forall (tag_good (<[Z.to_nat (tag_job tag) := j']> jobs)) tags.
Proof.
  intros Hk Hb Hj [Ha _] Hts. apply Forall_forall. intros t Ht. eapply Forall_forall in Hts; [| exact Ht].
  assert (Huniq : Z.to_nat (tag_job t) = Z.to_nat (tag_job tag) -> is_timer_tag tag = true -> tag_kind t <> tag_kind tag).
  { intros E Htm Ek. unfold batch in Hb. rewrite filter_cons_True in Hb by done. rewrite fmap_cons in Hb. apply NoDup_cons in Hb as [Hn _].
    apply Hn. rewrite <- E, <- Ek. apply (list_elem_of_fmap_2 (fun t => (Z.to_nat (tag_job t), tag_kind t))).
    apply list_elem_of_filter. split; [| done]. unfold is_timer_tag in *. by rewrite Ek. }
  unfold tag_good in *. destruct (tag_kind t) as [k'|] eqn:Ek'; [| done].
  assert (Hjob : (exists v, jobs !! Z.to_nat (tag_job t) = Some v /\ tag_ok k' (tag_step t) v) ->
    exists v, <[Z.to_nat (tag_job tag) := j']> jobs !! Z.to_nat (tag_job t) = Some v /\ tag_ok k' (tag_step t) v).
  { intros (v & Hv & Hok). destruct (decide (Z.to_nat (tag_job t) = Z.to_nat (tag_job tag))) as [E|E].
    - rewrite E in Hv. assert (v = j) as -> by congruence. exists j'. split.
      + rewrite E. apply list_lookup_insert_eq. by eapply lookup_lt_Some.
      + eapply tag_ok_adv; [exact Ha | | | done].
        * intros ->. unfold is_step_timer. rewrite bool_decide_eq_false_2; [done |]. intros ->.
          apply (Huniq E); [unfold is_timer_tag; by rewrite Hk | by rewrite Hk].
        * intros ->. unfold is_grace_timer. rewrite bool_decide_eq_false_2; [done |]. intros ->.
          apply (Huniq E); [unfold is_timer_tag; by rewrite Hk | by rewrite Hk].
    - exists v. split; [| done]. by rewrite list_lookup_insert_ne. }
  destruct k'; auto.
Qed.

Lemma handle_tag_ok tag tags (y : sys W) : all_inv y -> tag_good (y_jobs y) tag -> Forall (tag_good (y_jobs y)) tags ->
  batch (tag :: tags) ->
  rwp (handle_tag env tag) (fun _ y' => all_inv y' /\ ctx_on (y_ctx y) (y_ctx y') /\
    Forall2 (steady false false) (y_jobs y) (y_jobs y') /\ Forall (tag_good (y_jobs y')) tags) y.
Proof.
  intros Hy Ht Hts Hb. unfold handle_tag.
  assert (Hjob : forall kind, tag_kind tag = Some kind ->
    (exists j, y_jobs y !! Z.to_nat (tag_job tag) = Some j /\ tag_ok kind (tag_step tag) j) ->
    rwp (on_job (Z.to_nat (tag_job tag)) (job_event env kind (tag_step tag))) (fun _ y' => all_inv y' /\ ctx_on (y_ctx y) (y_ctx y') /\
      Forall2 (steady false false) (y_jobs y) (y_jobs y') /\ Forall (tag_good (y_jobs y')) tags) y).
  { intros kind Hk (j & Hj & Hok). eapply rwp_mono; [by eapply handle_job_tag |].
    intros _ y' (H1 & H2 & j' & E & Hs). split; [done |]. split; [done |]. rewrite E. split.
    - apply (Forall2_insert_self _ _ _ j); [done | by eapply steady_any].
    - by eapply tags_left. }
  unfold tag_good in Ht. destruct (tag_kind tag) as [kind|] eqn:Ek; [| done].
  destruct kind; try (by apply Hjob).
  - eapply rwp_mono; [by apply reap_children_ok |]. intros _ y' (H1 & H2 & H3). split; [done |]. split; [done |]. split.
    + eapply Forall2_impl; [exact H2 |]. intros j j'. apply steady_any.
    + eapply Forall_impl; [exact Hts |]. intros t. apply tag_good_adv. by eapply steady_adv.
  - unfold rpoll_cancel. rwps. split; [done |]. split; [| by split].
    constructor; cbn; [lia | by intros ->].
Qed.

Lemma handle_tags_ok tags (y : sys W) : all_inv y -> Forall (tag_good (y_jobs y)) tags -> batch tags ->
  rwp (handle_tags env tags) (fun _ y' => all_inv y' /\ ctx_on (y_ctx y) (y_ctx y') /\
    Forall2 (steady false false) (y_jobs y) (y_jobs y')) y.
Proof.
  revert y. induction tags as [|t tags IH]; intros y Hy Hts Hb; cbn [handle_tags]; [by apply rwp_ret |].
  apply Forall_cons in Hts as [Ht Hts]. apply rwp_bind. eapply rwp_mono; [by apply (handle_tag_ok t tags) |].
  intros _ y1 (H1 & H2 & H3 & H4). eapply rwp_mono; [apply IH; [done | done |] |].
  - unfold batch in *. rewrite filter_cons in Hb. destruct (decide _); [by apply NoDup_cons in Hb as [_ Hb] | done].
  - intros _ y2 (H5 & H6 & H7). split_and!; [done | by etrans | by etrans].
Qed.

(** The tags [epoll_wait] gives are good, and no timer is given twice. *)
Lemma tag_ready_good (y : sys W) tag : all_inv y -> tag_ready y tag = true -> tag_good (y_jobs y) tag.
Proof.
  intros Hy H. unfold tag_ready in H. apply andb_true_iff in H as [_ H]. unfold tag_good.
  destruct (tag_kind tag) as [kind|]; [| done].
  destruct kind; try done; destruct (y_jobs y !! Z.to_nat (tag_job tag)) as [j|] eqn:Hj; try done; exists j; (split; [done |]); cbn; try done;
    assert (Hi : inv j) by (by eapply Forall_lookup_1 in Hy).
  - apply andb_true_iff in H as [[H1 H2]%andb_true_iff H3]. apply Z.eqb_eq in H1.
    destruct (live_flying _ Hi H2) as [Hst Hfl]. split; [by apply flying_started |].
    rewrite H1. pose proof (fl_live _ (fy_flight _ Hfl)). split; [lia |]. right. split; [done |]. by intros E; rewrite E in H3.
  - apply andb_true_iff in H as [H _]. destruct (not_started (jb_state j)) eqn:E; [| done].
    pose proof (un_released _ (unstarted_inv _ Hi E)) as []. congruence.
  - apply andb_true_iff in H as [[H1 H2]%andb_true_iff H3]. apply Z.eqb_eq in H1.
    destruct (live_flying _ Hi H2) as [Hst Hfl]. split; [by apply flying_started |].
    rewrite H1. pose proof (fl_live _ (fy_flight _ Hfl)). split; [lia |]. right. split; [done |]. by intros E; rewrite E in H3.
Qed.

(** A timer's tag names the live step. *)
Lemma timer_tag_live (y : sys W) tag : tag_ready y tag = true -> is_timer_tag tag = true ->
  exists j, y_jobs y !! Z.to_nat (tag_job tag) = Some j /\ tag_step tag = rn_live_step (jb_run j).
Proof.
  unfold tag_ready, is_timer_tag. intros [_ H]%andb_true_iff Ht. destruct (tag_kind tag) as [kind|]; [| done].
  destruct kind; try done; destruct (y_jobs y !! Z.to_nat (tag_job tag)) as [j|]; try done; exists j; (split; [done |]);
    apply andb_true_iff in H as [[H1 H2]%andb_true_iff H3]; by apply Z.eqb_eq.
Qed.

Lemma ready_batch (y : sys W) tags : NoDup tags -> Forall (fun t => tag_ready y t = true) tags -> batch tags.
Proof.
  intros Hnd Hr. unfold batch. apply NoDup_fmap_2_strong; [| by apply NoDup_filter].
  intros a b [Ha1 Ha2]%list_elem_of_filter [Hb1 Hb2]%list_elem_of_filter [= E1 E2].
  eapply Forall_forall in Ha2 as Ra; [| exact Hr]. eapply Forall_forall in Hb2 as Rb; [| exact Hr].
  cbn in Ra, Rb. destruct (timer_tag_live _ _ Ra Ha1) as (ja & Hja & Sa), (timer_tag_live _ _ Rb Hb1) as (jb & Hjb & Sb).
  assert (Hpos : forall t, tag_ready y t = true -> (0 <= tag_job t)%Z).
  { intros t Ht. unfold tag_ready in Ht. apply andb_true_iff in Ht as [[Ht _]%andb_true_iff _]. apply Z.leb_le in Ht.
    destruct (tag_fields t) as (-> & _). by apply Z.div_pos. }
  apply tag_inj; [| done | |].
  - pose proof (Hpos a Ra). pose proof (Hpos b Rb). lia.
  - unfold is_timer_tag in Ha1. destruct (tag_kind a); [by eexists | done].
  - rewrite E1 in Hja. assert (ja = jb) as -> by congruence. congruence.
Qed.

Lemma epoll_wait_ok (y : sys W) : all_inv y ->
  rwp (epoll_wait env) (fun got y' => y_jobs y' = y_jobs y /\ ctx_on (y_ctx y) (y_ctx y') /\
    forall tags, got = Some tags -> Forall (tag_good (y_jobs y')) tags /\ batch tags /\ length tags <= 32) y.
Proof.
  intros Hy. unfold epoll_wait. rwps. set (y' := Sys (y_jobs y) _).
  split; [done |]. split; [constructor; cbn; [lia | done] |].
  intros tags Ht. destruct a0 as [l|]; [| done]. injection Ht as <-.
  assert (Hr : Forall (fun t => tag_ready y' t = true) (take 32 (filter (fun t => tag_ready y' t = true) (remove_dups l)))).
  { apply Forall_take, Forall_forall. by intros t [Ht _]%list_elem_of_filter. }
  split_and!.
  - eapply Forall_impl; [exact Hr |]. intros t. by apply (tag_ready_good y').
  - apply (ready_batch y'); [| done]. eapply sublist_NoDup; [| apply sublist_take]. apply NoDup_filter, NoDup_remove_dups.
  - rewrite length_take. lia.
Qed.

(** ** A turn, and any number of them *)

Definition all_final (jobs : list job) : Prop := Forall (fun j => qwe_lc_state_is_final (jb_state j) = true) jobs.

Lemma count_all (p : qwe_lc_state -> bool) jobs : count p jobs = length jobs -> Forall (fun j => p (jb_state j) = true) jobs.
Proof.
  unfold count. induction jobs as [|j jobs IH]; [done |]. rewrite filter_cons. destruct (decide _) as [H|H]; simpl; intros E.
  - constructor; [done |]. apply IH. lia.
  - pose proof (length_filter (fun j => p (jb_state j) = true) jobs). lia.
Qed.

Lemma count_full (p : qwe_lc_state -> bool) jobs : Forall (fun j => p (jb_state j) = true) jobs -> count p jobs = length jobs.
Proof.
  unfold count. induction 1 as [|j jobs Hj H IH]; [done |]. rewrite filter_cons_True by done. simpl. by rewrite IH.
Qed.

Lemma count_running_zero jobs : infos_ok infos max_parallel caps (length jobs) -> count qwe_lc_state_is_running jobs = 0 ->
  count_running (sched_view jobs infos) = 0.
Proof.
  intros Ho. pose proof (io_length _ _ _ _ Ho) as Hl. clear Ho. unfold sched_view, count. revert infos Hl.
  induction jobs as [|j jobs IH]; intros [|i il] Hl; simplify_eq/=; [done |].
  rewrite filter_cons. destruct (decide _) as [H|H]; simpl; [done |]. intros E.
  destruct (qwe_lc_state_is_running (jb_state j)); [done |]. by apply IH.
Qed.

(** The needs have no cycle, and every target takes a session. *)
Definition can_finish (jobs : list job) : Prop :=
  needs_acyclic (sched_view jobs infos) /\ forall c, c ∈ caps -> (1 <= c)%Z.

Lemma view_edges jobs jobs' i d : length jobs = length jobs' -> need_edge (sched_view jobs infos) i d -> need_edge (sched_view jobs' infos) i d.
Proof.
  intros Hl (v & (j & info & Hj & Hi & ->)%view_lookup & Hd). apply lookup_lt_Some in Hj. rewrite Hl in Hj.
  destruct (lookup_lt_is_Some_2 _ _ Hj) as [j' Hj']. eexists. split; [apply view_lookup; by exists j', info | done].
Qed.

Lemma can_finish_adv ks kg jobs jobs' : Forall2 (adv ks kg) jobs jobs' -> can_finish jobs -> can_finish jobs'.
Proof.
  intros H%Forall2_length [H1 H2]. split; [| done].
  assert (Htc : forall a b, tc (need_edge (sched_view jobs' infos)) a b -> tc (need_edge (sched_view jobs infos)) a b).
  { induction 1 as [a b Hab|a b c Hab Hbc IH]; [apply tc_once | eapply tc_l; [| exact IH]];
      (apply (view_edges jobs'); [by symmetry | done]). }
  intros i Hi. by apply (H1 i), Htc.
Qed.

Definition turn_post (y : sys W) (r : turn_result) (y' : sys W) : Prop :=
  good y' /\ Forall2 (adv false false) (y_jobs y) (y_jobs y') /\ ctx_on (y_ctx y) (y_ctx y') /\
  (forall rc, r = Ended rc -> (rc = 0%Z /\ all_final (y_jobs y')) \/ (rc = (-1)%Z /\ ~ can_finish (y_jobs y'))).

Lemma adv_any (l l' : list job) : Forall2 (adv true true) l l' -> Forall2 (adv false false) l l'.
Proof. intros H. eapply Forall2_impl; [exact H |]. intros j j'. apply adv_weaken. Qed.

Lemma turn_ok (y : sys W) : good y -> rwp (turn env infos max_parallel caps) (turn_post y) y.
Proof.
  intros Hg. unfold turn. apply rwp_bind. eapply rwp_mono; [apply broadcast_cancel_ok, Hg |].
  intros b y1 (B1 & B2 & _). assert (G1 : good y1) by (eapply steady_good; [exact Hg | done | apply B2]).
  apply rwp_bind. eapply rwp_mono; [by apply settle_ok |]. intros _ y2 (G2 & A2 & X2 & P2).
  assert (A : Forall2 (adv true true) (y_jobs y) (y_jobs y2)) by (etrans; [eapply steady_adv, B2 | done]).
  assert (X : ctx_on (y_ctx y) (y_ctx y2)) by (etrans; [apply B2 | done]).
  apply rwp_bind, rwp_get_jobs.
  destruct (Nat.eqb_spec (count qwe_lc_state_is_final (y_jobs y2)) (length (y_jobs y2))) as [E|E].
  { apply rwp_ret. split; [done |]. split; [by apply adv_any |]. split; [done |]. intros rc [= <-]. left.
    split; [done |]. by apply count_all. }
  destruct (Nat.eqb_spec (count qwe_lc_state_is_running (y_jobs y2)) 0) as [E0|E0].
  { apply rwp_ret. split; [done |]. split; [by apply adv_any |]. split; [done |]. intros rc [= <-]. right.
    split; [done |]. intros [Hac Hc]. apply E. pose proof (gd_infos _ _ _ _ G2) as Ho.
    apply count_full, Forall_lookup. intros i j Hj.
    destruct (lookup_lt_is_Some_2 infos i) as [info Hi]; [rewrite (io_length _ _ _ _ Ho); by eapply lookup_lt_Some |].
    pose proof (nothing_left _ _ _ (view_wf _ _ _ _ Ho) Hc Hac P2 (count_running_zero _ Ho E0) i
      (SchedJob (jb_state j) (in_needs info) (in_group info))) as Hfin. apply Hfin. apply view_lookup. by exists j, info. }
  apply rwp_bind. eapply rwp_mono; [apply epoll_wait_ok, G2 |]. intros got y3 (J3 & X3 & T3).
  assert (Hi3 : all_inv y3) by (unfold all_inv; rewrite J3; apply G2).
  assert (G3 : good y3) by (eapply (steady_good _ _ _ true true y2); [done | done | by rewrite J3]).
  assert (A3 : Forall2 (adv false false) (y_jobs y) (y_jobs y3)) by (rewrite J3; by apply adv_any).
  destruct got as [tags|].
  - destruct (T3 tags eq_refl) as (T4 & T5 & _). apply rwp_bind.
    eapply rwp_mono; [by apply handle_tags_ok |]. intros _ y4 (H4 & X4 & S4). apply rwp_ret.
    split; [by eapply steady_good |]. split; [etrans; [exact A3 | by eapply steady_adv] |].
    split; [| done]. etrans; [exact X |]. by etrans.
  - apply rwp_ret. split; [done |]. split; [done |]. split; [| done]. by etrans.
Qed.

(** The loop: it never goes wrong, and where it ends every job is final. *)
Definition turns_post (y : sys W) (r : option Z) (y' : sys W) : Prop :=
  good y' /\ Forall2 (adv false false) (y_jobs y) (y_jobs y') /\ ctx_on (y_ctx y) (y_ctx y') /\
  (forall rc, r = Some rc -> (rc = 0%Z /\ all_final (y_jobs y')) \/ (rc = (-1)%Z /\ ~ can_finish (y_jobs y'))).

Lemma turns_ok fuel (y : sys W) : good y -> rwp (turns env infos max_parallel caps fuel) (turns_post y) y.
Proof.
  revert y. induction fuel as [|fuel IH]; intros y Hg; cbn [turns].
  { apply rwp_ret. by split_and!. }
  apply rwp_bind. eapply rwp_mono; [by apply turn_ok |]. intros r y1 (H1 & H2 & H3 & H4).
  destruct r as [rc| |].
  - apply rwp_ret. split_and!; [done | done | done |]. intros rc' [= <-]. by apply H4.
  - apply rwp_ret. by split_and!.
  - eapply rwp_mono; [by apply IH |]. intros r y2 (H5 & H6 & H7 & H8). split_and!; [done | by etrans | by etrans | done].
Qed.
End turn.

(** ** The groups and needs [run_all] sets up *)

Lemma find_from_found l i id d : find_from l i id = Some d -> exists k, l !! (d - i) = Some k /\ jb_id k = id /\ i <= d.
Proof.
  revert i. induction l as [|j l IH]; intros i; cbn; [done |]. destruct (decide (jb_id j = id)).
  - intros [= <-]. exists j. rewrite Nat.sub_diag. done.
  - intros (k & Hk & Hid & Hle)%IH. exists k. split; [| split; [done | lia]].
    replace (d - i) with (S (d - S i)) by lia. done.
Qed.

Lemma find_from_total l i id : (exists k, k ∈ l /\ jb_id k = id) -> is_Some (find_from l i id).
Proof.
  revert i. induction l as [|j l IH]; intros i (k & Hk & Hid); cbn; [set_solver |].
  destruct (decide (jb_id j = id)) as [|Hne]; [by eexists |]. apply IH. exists k. split; [| done]. set_solver.
Qed.

(** The index of a need is that of the job it names. *)
Lemma need_indices_ok jobs needs : (forall id, id ∈ needs -> exists k, k ∈ jobs /\ jb_id k = id) ->
  exists ds, need_indices jobs needs = CRet ds /\ (forall d, d ∈ ds -> d < length jobs) /\
    Forall2 (fun id d => exists k, jobs !! d = Some k /\ jb_id k = id) needs ds.
Proof.
  induction needs as [|id needs IH]; intros Hn; cbn [need_indices].
  { exists []. split; [done |]. split; [set_solver | constructor]. }
  destruct (find_from_total jobs 0 id) as [d Hd]; [apply Hn; set_solver |]. unfold find_job. rewrite Hd.
  destruct IH as (ds & -> & H1 & H2); [intros id' ?; apply Hn; set_solver |]. cstep.
  destruct (find_from_found _ _ _ _ Hd) as (k & Hk & Hid & _). rewrite Nat.sub_0_r in Hk.
  exists (d :: ds). split; [done |]. split.
  - intros d' [->|Hd']%elem_of_cons; [by eapply lookup_lt_Some | by apply H1].
  - constructor; [by exists k | done].
Qed.

Section setup.
Context {W : Type} (env : environment W).

(** The inventory's max-sessions: is what its schema admits, a number of at
    least 1. *)
Definition sessions_ok : Prop := forall t w v w', env _ (QMaxSessions t) w = (Some v, w') -> is_double v /\ at_least v 1.

(** A cap the target's max-sessions: stands for. *)
Definition cap_of (target : string) (cap : Z) : Prop :=
  exists w v w', env _ (QMaxSessions target) w = (v, w') /\
    match v with Some v => qwe_count_from_number v = CRet cap | None => cap = 8%Z end.

Lemma rwp_ask_eq {A} (q : query A) Q (y : sys W) :
  (forall a w, env A q (x_env (y_ctx y)) = (a, w) -> Q a (Sys (y_jobs y) ((y_ctx y) <| x_env := w |>))) ->
  rwp (rask env q) Q y.
Proof. unfold rwp, rask. intros H. destruct (env A q _) as [a w] eqn:E. by apply H. Qed.

Hypothesis Hsessions : sessions_ok.

Lemma target_max_sessions_ok t (y : sys W) :
  rwp (target_max_sessions env t) (fun cap y' => y_jobs y' = y_jobs y /\ ctx_on (y_ctx y) (y_ctx y') /\
    cap_of t cap /\ (1 <= cap < 2 ^ 63)%Z) y.
Proof.
  unfold target_max_sessions. apply rwp_bind, rwp_ask_eq. intros v w E. destruct v as [v|].
  - destruct (Hsessions _ _ _ _ E) as [Hd Hv].
    destruct (count_exact v Hd) as (n & En & Hn & Hk). eapply rwp_lift; [exact En |].
    split; [done |]. split; [by constructor |]. split; [by exists (x_env (y_ctx y)), (Some v), w |].
    unfold LONG_MAX in *. apply (Hk 1%Z) in Hv; lia.
  - apply rwp_ret. split; [done |]. split; [by constructor |]. split; [by exists (x_env (y_ctx y)), None, w | lia].
Qed.

Record infos_for (jobs rest : list job) (names : list string) (caps : list Z) (infos : list sched_info)
    (names' : list string) (caps' : list Z) : Prop := {
  if_length : length infos = length rest;
  if_needs : forall i j info, rest !! i = Some j -> infos !! i = Some info ->
    need_indices jobs (jb_needs j) = CRet (in_needs info);
  if_names : length names' = length caps' /\ NoDup names' /\ names `prefix_of` names' /\ caps `prefix_of` caps';
  if_groups : forall i j info, rest !! i = Some j -> infos !! i = Some info ->
    if decide (jb_target j = "local"%string) then in_group info = 0
    else exists g, in_group info = S g /\ names' !! g = Some (jb_target j);
  if_caps : (forall g t c, names !! g = Some t -> caps !! g = Some c -> cap_of t c /\ (1 <= c < 2 ^ 63)%Z) ->
    forall g t c, names' !! g = Some t -> caps' !! g = Some c -> cap_of t c /\ (1 <= c < 2 ^ 63)%Z;
}.

Lemma infos_cons jobs j rest names caps infos names' caps' info :
  need_indices jobs (jb_needs j) = CRet (in_needs info) ->
  (if decide (jb_target j = "local"%string) then in_group info = 0
   else exists g, in_group info = S g /\ names !! g = Some (jb_target j)) ->
  infos_for jobs rest names caps infos names' caps' ->
  infos_for jobs (j :: rest) names caps (info :: infos) names' caps'.
Proof.
  intros Hn Hg [I1 I2 I3 I4 I5]. constructor; [cbn; lia | | done | | done].
  - intros [|i] j' info' Hj Hi; simplify_eq/=; [done | by eapply I2].
  - intros [|i] j' info' Hj Hi; simplify_eq/=; [| by eapply I4]. destruct (decide _); [done |].
    destruct Hg as (g & H1 & H2). exists g. split; [done |]. destruct I3 as (_ & _ & Hp & _). by eapply prefix_lookup_Some.
Qed.

Lemma sched_infos_ok jobs rest names caps (y : sys W) :
  (forall j id, j ∈ rest -> id ∈ jb_needs j -> exists k, k ∈ jobs /\ jb_id k = id) ->
  length names = length caps -> NoDup names ->
  rwp (sched_infos env jobs rest names caps) (fun r y' => y_jobs y' = y_jobs y /\ ctx_on (y_ctx y) (y_ctx y') /\
    exists names', infos_for jobs rest names caps (fst r) names' (snd r)) y.
Proof.
  revert names caps y. induction rest as [|j rest IH]; intros names caps y Hn Hl Hnd; cbn [sched_infos].
  { apply rwp_ret. split; [done |]. split; [done |]. exists names. by constructor. }
  destruct (need_indices_ok jobs (jb_needs j)) as (ds & Hds & _); [intros id ?; apply (Hn j); set_solver |].
  assert (Hn' : forall j id, j ∈ rest -> id ∈ jb_needs j -> exists k, k ∈ jobs /\ jb_id k = id) by (intros; apply (Hn j0); set_solver).
  apply rwp_bind. eapply rwp_lift; [exact Hds |].
  destruct (decide (jb_target j = "local"%string)) as [Ht|Ht].
  - apply rwp_bind. eapply rwp_mono; [by apply IH |]. intros [infos caps'] y1 (H1 & H2 & names' & H3).
    apply rwp_ret. split; [done |]. split; [done |]. exists names'. apply infos_cons; [done | by rewrite decide_True | done].
  - destruct (list_find (fun n => n = jb_target j) names) as [[g n]|] eqn:Ef.
    + apply list_find_Some in Ef as (Hg & -> & _). apply rwp_bind. eapply rwp_mono; [by apply IH |].
      intros [infos caps'] y1 (H1 & H2 & names' & H3).
      apply rwp_ret. split; [done |]. split; [done |]. exists names'. apply infos_cons; [done | | done].
      rewrite decide_False by done. exists g. split; [cbn; lia | done].
    + apply list_find_None in Ef. apply rwp_bind. eapply rwp_mono; [apply target_max_sessions_ok |].
      intros cap y1 (T1 & T2 & T3 & T4). apply rwp_bind.
      eapply rwp_mono; [apply IH; [done | rewrite !length_app; cbn; lia |] |].
      { apply list.NoDup_app. split; [done |]. split; [| apply NoDup_singleton].
        intros x Hx ->%list_elem_of_singleton. eapply Forall_forall in Ef; [| exact Hx]. done. }
      intros [infos caps'] y2 (H1 & H2 & names' & H3). apply rwp_ret. split; [congruence |]. split; [by etrans |].
      exists names'.
      assert (H4 : infos_for jobs (j :: rest) (names ++ [jb_target j]) (caps ++ [cap]) (Info ds (length names + 1) :: infos) names' caps').
      { apply infos_cons; [done | | done]. rewrite decide_False by done. exists (length names). split; [cbn; lia |].
        by apply list_lookup_middle. }
      destruct H4 as [I1 I2 (I3 & I4 & I5 & I6) I7 I8]. constructor; [done | done | | done |].
      * split_and!; [done | done | by eapply prefix_app_l | by eapply prefix_app_l].
      * intros Hold. apply I8. intros g t c Hg Hc.
        destruct (lt_eq_lt_dec g (length names)) as [[Hlt| ->]|Hgt].
        -- rewrite lookup_app_l in Hg by done. rewrite lookup_app_l in Hc by lia. by eapply Hold.
        -- rewrite list_lookup_middle in Hg by done. rewrite list_lookup_middle in Hc by lia. by simplify_eq.
        -- apply lookup_lt_Some in Hg. rewrite length_app in Hg. cbn in Hg. lia.
Qed.
End setup.

(** ** A whole run *)

(** A job as loading leaves it, with as many steps as an event tag can tell
    apart. *)
Record fresh (j : job) : Prop := {
  fs_state : jb_state j = QWE_LC_PENDING;
  fs_unstarted : unstarted j;
  fs_followup : rn_followup (jb_run j) = None;
  fs_small : small j;
}.

Lemma job0_fresh i id target needs decl ms : (Z.of_nat (length decl) < 2 ^ 24 - 1)%Z -> fresh (job0 i id target needs decl ms).
Proof. intros H. by repeat constructor. Qed.

(** What validation checked of the jobs. *)
Definition dag_job (j : job) : qwe_dag_job := DagJob (jb_id j) (jb_needs j).
Definition validated (jobs : list job) : Prop := exists err, qwe_dag_check true (dag_job <$> jobs) = CRet (QWE_DAG_OK, err).

Lemma find_dag jobs i id : Dag.find_from i (dag_job <$> jobs) id = find_from jobs i id.
Proof. revert i. induction jobs as [|j jobs IH]; intros i; cbn; [done |]. by rewrite IH. Qed.

Lemma validated_graph jobs : validated jobs -> known (dag_job <$> jobs) /\ acyclic (dag_job <$> jobs).
Proof.
  intros [err H]. destruct (check_exact (dag_job <$> jobs)) as [(st & e & E & Hok) _]. rewrite H in E. injection E as <- <-.
  by apply Hok.
Qed.

Lemma validated_known jobs j id : validated jobs -> j ∈ jobs -> id ∈ jb_needs j -> exists k, k ∈ jobs /\ jb_id k = id.
Proof.
  intros [Hk _]%validated_graph [i Hi]%list_elem_of_lookup Hid.
  destruct (Hk i (dag_job j) id) as [d Hd]; [by rewrite list_lookup_fmap, Hi | done |].
  unfold Dag.find in Hd. rewrite find_dag in Hd. apply find_from_found in Hd as (k & Hk' & Hid' & _).
  exists k. split; [| done]. by eapply list_elem_of_lookup_2.
Qed.

(** Jobs that differ only in the notes of their targets and in how far they are. *)
Definition same_work (j j' : job) : Prop :=
  jb_id j' = jb_id j /\ jb_target j' = jb_target j /\ jb_decl j' = jb_decl j /\ jb_needs j' = jb_needs j.

#[export] Instance same_work_po : PreOrder same_work.
Proof.
  split; [intros j; by repeat split |]. intros a b c (A1 & A2 & A3 & A4) (B1 & B2 & B3 & B4). split_and!; congruence.
Qed.

Lemma validated_same jobs jobs' : Forall2 same_work jobs jobs' -> validated jobs -> validated jobs'.
Proof.
  intros H. unfold validated. replace (dag_job <$> jobs') with (dag_job <$> jobs); [done |].
  induction H as [|j j' l l' (H1 & _ & _ & H2) H IH]; cbn; [done |]. unfold dag_job at 1 3. by rewrite IH, H1, H2.
Qed.

(** The scheduler's graph is the one that was checked. *)
Lemma view_acyclic (W : Type) env jobs names caps infos names' caps' : validated jobs ->
  infos_for (W:=W) env jobs jobs names caps infos names' caps' -> needs_acyclic (sched_view jobs infos).
Proof.
  intros Hv [_ Hn _ _ _]. destruct (validated_graph _ Hv) as [_ Ha].
  assert (Hstep : forall ids ds d, need_indices jobs ids = CRet ds -> d ∈ ds -> exists id, id ∈ ids /\ find_job jobs id = Some d).
  { induction ids as [|id ids IH]; intros ds d; cbn; [intros [= <-]; set_solver |].
    destruct (find_job jobs id) as [d0|] eqn:Ed; [| done]. destruct (need_indices jobs ids) as [ds'| | |] eqn:E; try done.
    cstep. intros [= <-] [->|Hd]%elem_of_cons; [exists id; set_solver |].
    destruct (IH ds' d eq_refl Hd) as (id' & ? & ?). exists id'. set_solver. }
  assert (Hedge : forall i d, need_edge (sched_view jobs infos) i d -> edge (dag_job <$> jobs) i d).
  { intros i d (v & (j & info & Hj & Hi & ->)%view_lookup & Hd). cbn in Hd.
    destruct (Hstep _ _ d (Hn i j info Hj Hi) Hd) as (id & Hid & Hf).
    exists (dag_job j), id. split; [by rewrite list_lookup_fmap, Hj |]. split; [done |].
    unfold Dag.find. by rewrite find_dag. }
  assert (Htc : forall a b, tc (need_edge (sched_view jobs infos)) a b -> tc (edge (dag_job <$> jobs)) a b).
  { induction 1 as [a b Hab|a b c Hab Hbc IH]; [apply tc_once | eapply tc_l; [| exact IH]]; by apply Hedge. }
  intros i Hi. by apply (Ha i), Htc.
Qed.

Section run.
Context {W : Type} (env : environment W) (Hsessions : sessions_ok env).

Lemma fresh_inv j : fresh j -> inv j.
Proof.
  intros [H1 H2 H3 H4]. split; [constructor; [done | done |] | by rewrite H1]. unfold phase_ok. by rewrite H1.
Qed.

Lemma fresh_detail j note : fresh j -> fresh (j <| jb_detail := note |>).
Proof. intros [H1 [U1 U2 [] U4] H3 H4]. constructor; [done | by repeat constructor; try apply U2 | done | done]. Qed.

Lemma note_disabled_ok (y : sys W) : Forall fresh (y_jobs y) ->
  rwp (note_disabled env) (fun _ y' => Forall fresh (y_jobs y') /\ Forall2 same_work (y_jobs y) (y_jobs y') /\
    ctx_on (y_ctx y) (y_ctx y')) y.
Proof.
  intros Hf. unfold note_disabled. apply rwp_bind, rwp_get_jobs.
  assert (H : forall n from (y1 : sys W), Forall fresh (y_jobs y1) -> Forall2 same_work (y_jobs y) (y_jobs y1) ->
    ctx_on (y_ctx y) (y_ctx y1) -> from + n <= length (y_jobs y) ->
    rwp (for_jobs (note_one env) from n) (fun _ y' => Forall fresh (y_jobs y') /\ Forall2 same_work (y_jobs y) (y_jobs y') /\
      ctx_on (y_ctx y) (y_ctx y')) y1).
  { induction n as [|n IH]; intros from y1 H1 H2 H3 H4; cbn [for_jobs]; [by apply rwp_ret |].
    apply rwp_bind. pose proof (Forall2_length _ _ _ H2). eapply rwp_mono; [apply note_one_ok; lia |].
    intros _ y2 (note & w & j & Hj & ->). apply IH; cbn; [| | etrans; [exact H3 | by constructor] | lia].
    - apply Forall_insert; [done |]. apply fresh_detail. by eapply Forall_lookup_1 in H1.
    - etrans; [exact H2 |]. by apply (Forall2_insert_self _ _ _ j). }
  apply H; [done | done | done | lia].
Qed.

Lemma preconnect_ok (y : sys W) :
  rwp (preconnect env) (fun _ y' => y_jobs y' = y_jobs y /\ ctx_on (y_ctx y) (y_ctx y')) y.
Proof.
  unfold preconnect. apply rwp_bind, rwp_get_jobs.
  assert (H : forall n from (y1 : sys W), y_jobs y1 = y_jobs y -> ctx_on (y_ctx y) (y_ctx y1) -> from + n <= length (y_jobs y) ->
    rwp (for_jobs (preconnect_one env) from n) (fun _ y' => y_jobs y' = y_jobs y /\ ctx_on (y_ctx y) (y_ctx y')) y1).
  { induction n as [|n IH]; intros from y1 H1 H2 H3; cbn [for_jobs]; [by apply rwp_ret |].
    destruct (lookup_lt_is_Some_2 (y_jobs y1) from) as [j Hj]; [rewrite H1; lia |].
    apply rwp_bind. unfold preconnect_one at 1. apply rwp_bind, rwp_get_jobs, rwp_bind. eapply rwp_read_job; [done |].
    destruct (_ || _ || _); [apply rwp_ret, IH; [done | done | lia] |].
    destruct (connected_before _ _ _); [apply rwp_ret, IH; [done | done | lia] |].
    apply rwp_ask. intros _ w. apply IH; [done | etrans; [exact H2 | by constructor] | lia]. }
  apply H; [done | done | lia].
Qed.

(** What is known of the jobs at any moment between two turns of the loop. *)
Record run_post (jobs : list job) (mp : Z) (r : option (Z * list qwe_job_result)) (y : sys W) : Prop := {
  rp_work : Forall2 same_work jobs (y_jobs y);
  rp_inv : all_inv y;
  rp_info : exists infos names caps, infos_for env jobs jobs [] [] infos names caps /\
    needs_met infos (y_jobs y) /\ within_limits infos mp caps (y_jobs y);
  rp_end : forall code results, r = Some (code, results) ->
    all_final (y_jobs y) /\ results = map job_result (y_jobs y) /\ code = exit_code 0 (y_jobs y) (x_cancel (y_ctx y));
}.

Lemma infos_same jobs jobs' infos names caps : Forall2 same_work jobs jobs' ->
  infos_for env jobs' jobs' [] [] infos names caps -> infos_for env jobs jobs [] [] infos names caps.
Proof.
  intros Hs [I1 I2 I3 I4 I5].
  assert (Hf : forall id i, find_from jobs i id = find_from jobs' i id).
  { intros id. clear -Hs. induction Hs as [|j j' l l' (H1 & _) Hs IH]; intros i; cbn; [done |]. by rewrite H1, IH. }
  assert (Hn : forall needs, need_indices jobs needs = need_indices jobs' needs).
  { induction needs as [|id needs IH]; cbn; [done |]. unfold find_job. by rewrite Hf, IH. }
  constructor; [| | done | | done].
  - rewrite I1. symmetry. by eapply Forall2_length.
  - intros i j info Hj Hi. destruct (Forall2_lookup_l _ _ _ _ _ Hs Hj) as (j' & Hj' & (_ & _ & _ & E)).
    rewrite Hn, <- E. by eapply I2.
  - intros i j info Hj Hi. destruct (Forall2_lookup_l _ _ _ _ _ Hs Hj) as (j' & Hj' & (_ & E & _)).
    rewrite <- E. by eapply I4.
Qed.

Lemma adv_same_work ks kg (l l' : list job) : Forall2 (adv ks kg) l l' -> Forall2 same_work l l'.
Proof. intros H. eapply Forall2_impl; [exact H |]. by intros j j' [[] ? ? ? ? ? ? ? ?]. Qed.

Lemma fresh_good (y : sys W) infos names caps mp : Forall fresh (y_jobs y) -> validated (y_jobs y) -> (0 <= mp < 2 ^ 63)%Z ->
  infos_for env (y_jobs y) (y_jobs y) [] [] infos names caps -> good infos mp caps y.
Proof.
  intros Hf Hv Hm [I1 I2 (I3 & _ & _ & _) I4 I5]. assert (Hnone : forall n, total running_weight (sched_view (y_jobs y) infos) = 0 /\
    total (group_weight n) (sched_view (y_jobs y) infos) = 0).
  { intros n. unfold sched_view. clear -Hf. revert infos. induction Hf as [|j l [Hj _ _ _] Hf IH]; intros [|i il]; cbn; try done.
    destruct (IH il) as [E1 E2]. rewrite E1, E2. unfold running_weight, group_weight. cbn. rewrite Hj, andb_false_r. done. }
  constructor.
  - eapply Forall_impl; [exact Hf |]. apply fresh_inv.
  - constructor; [done | | | | done].
    + intros i info d Hi Hd. destruct (lookup_lt_is_Some_2 (y_jobs y) i) as [j Hj]; [rewrite <- I1; by eapply lookup_lt_Some |].
      destruct (need_indices_ok (y_jobs y) (jb_needs j)) as (ds & E & Hlt & _).
      { intros id Hid. eapply validated_known; [done | by eapply list_elem_of_lookup_2 | done]. }
      rewrite (I2 i j info Hj Hi) in E. injection E as <-. by apply Hlt.
    + intros i info Hi. destruct (lookup_lt_is_Some_2 (y_jobs y) i) as [j Hj]; [rewrite <- I1; by eapply lookup_lt_Some |].
      specialize (I4 i j info Hj Hi). destruct (decide _); [lia |]. destruct I4 as (g & -> & Hg%lookup_lt_Some). lia.
    + intros c [g Hg]%list_elem_of_lookup. destruct (lookup_lt_is_Some_2 names g) as [t Ht]; [rewrite I3; by eapply lookup_lt_Some |].
      destruct (I5 ltac:(by intros ? ? ? [=]) g t c Ht Hg). lia.
  - intros i j info Hj Hi Hp. eapply Forall_lookup_1 in Hf; [| exact Hj]. destruct Hf as [E _ _ _]. by rewrite E in Hp.
  - split; [intros _ | intros g cap Hc].
    + unfold running. rewrite count_running_total. rewrite (proj1 (Hnone 0)). lia.
    + unfold group_sessions. rewrite group_running_total. rewrite (proj2 (Hnone (S g))).
      destruct (lookup_lt_is_Some_2 names g) as [t Ht]; [rewrite I3; by eapply lookup_lt_Some |].
      destruct (I5 ltac:(by intros ? ? ? [=]) g t cap Ht Hc). lia.
Qed.

Lemma run_jobs_ok fuel v mp (y : sys W) : Forall fresh (y_jobs y) -> validated (y_jobs y) ->
  max_parallel_of v = CRet mp -> (0 <= mp < 2 ^ 63)%Z ->
  rwp (run_jobs env fuel v) (run_post (y_jobs y) mp) y.
Proof.
  intros Hf Hv Emp Hm. unfold run_jobs. apply rwp_bind. eapply rwp_lift; [exact Emp |]. apply rwp_bind.
  eapply rwp_mono; [by apply note_disabled_ok |]. intros _ y1 (F1 & S1 & X1). apply rwp_bind.
  eapply rwp_mono; [apply preconnect_ok |]. intros _ y2 (E2 & X2). apply rwp_bind. unfold run_all. rwps. rewrite E2.
  set (y3 := Sys _ _). assert (Hv1 : validated (y_jobs y1)) by by eapply validated_same.
  assert (J3 : y_jobs y3 = y_jobs y1) by done.
  eapply rwp_mono; [apply sched_infos_ok; [done | | done | constructor] |].
  { intros j id Hj Hid. by eapply validated_known. }
  intros [infos caps] y4 (E4 & X4 & names & I4). cbn [fst snd] in I4. rewrite J3 in E4. apply rwp_bind.
  assert (G4 : good infos mp caps y4) by (eapply fresh_good; rewrite ?E4; done).
  eapply rwp_mono; [apply skip_disabled_ok; [apply G4 |] |].
  { rewrite E4. eapply Forall_impl; [exact F1 |]. intros j [E _ _ _]. by rewrite E. }
  intros _ y5 (H5 & H6). assert (G5 : good infos mp caps y5) by (eapply steady_good; [exact G4 | done | apply H6]).
  eapply rwp_mono; [by apply turns_ok |]. intros r y6 (G6 & A6 & X6 & R6).
  assert (A : Forall2 (adv false false) (y_jobs y1) (y_jobs y6)).
  { rewrite <- E4. etrans; [| exact A6]. apply adv_any. eapply steady_adv, H6. }
  assert (Hpost : forall r', (forall code results, r' = Some (code, results) ->
      all_final (y_jobs y6) /\ results = map job_result (y_jobs y6) /\ code = exit_code 0 (y_jobs y6) (x_cancel (y_ctx y6))) ->
    run_post (y_jobs y) mp r' y6).
  { intros r' Hr'. constructor; [| apply G6 | | done].
    - etrans; [exact S1 | by eapply adv_same_work].
    - exists infos, names, caps. split; [by eapply infos_same |]. split; apply G6. }
  destruct r as [rc|]; rwps; apply Hpost; [| done].
  intros code results [= <- <-].
  destruct (R6 rc eq_refl) as [[-> Hfin]|[_ Hno]]; [done |]. destruct Hno.
  eapply can_finish_adv; [exact A |]. split; [by eapply view_acyclic |].
  intros c Hc. destruct G4 as [_ Go _ _]. destruct I4 as [_ _ (I5 & _) _ I6].
  apply list_elem_of_lookup in Hc as [g Hg]. destruct (lookup_lt_is_Some_2 names g) as [t Ht]; [rewrite I5; by eapply lookup_lt_Some |].
  by destruct (I6 ltac:(by intros ? ? ? [=]) g t c Ht Hg) as [_ [? _]].
Qed.
End run.

(** ** Properties of a run *)

(** [max-parallel:] is a double, as every Lua number. *)
Definition limit_ok (v : option spec_float) : Prop := match v with Some d => is_double d | None => True end.

Lemma limit_count v : limit_ok v -> exists mp, max_parallel_of v = CRet mp /\ (0 <= mp < 2 ^ 63)%Z.
Proof.
  destruct v as [d|]; cbn; [| by exists 0%Z].
  intros (n & E & Hn & _)%count_exact. exists n. split; [done |]. unfold LONG_MAX in Hn. lia.
Qed.

(** What a run is started with. *)
Record startable {W} (env : environment W) (jobs : list job) (v : option spec_float) : Prop := {
  sb_sessions : sessions_ok env;
  sb_fresh : Forall fresh jobs;
  sb_validated : validated jobs;
  sb_limit : limit_ok v;
}.

Lemma run_total {W} (env : environment W) fuel jobs v x : startable env jobs v ->
  exists mp r y, max_parallel_of v = CRet mp /\ run_jobs env fuel v (Sys jobs x) = CRet (r, y) /\ run_post env jobs mp r y.
Proof.
  intros [H1 H2 H3 H4]. destruct (limit_count v H4) as (mp & Emp & Hmp).
  pose proof (run_jobs_ok env H1 fuel v mp (Sys jobs x) H2 H3 Emp Hmp) as H. unfold rwp in H.
  destruct (run_jobs env fuel v (Sys jobs x)) as [[r y]| | |]; try done. by exists mp, r, y.
Qed.

(** C1. A run never goes wrong.  For every environment (whatever the kernel, the
    scripts, ssh and the clock answer, in whatever order events come) and any
    number of turns of the loop: no event reaches a cell of the lifecycle table
    that is impossible, no array is left, no loop exceeds its bound, and between
    turns every job's resources, timers, live step and recorded outcomes agree
    with its state. *)
Theorem run_never_aborts {W} (env : environment W) fuel jobs v x : startable env jobs v ->
  exists r y, run_jobs env fuel v (Sys jobs x) = CRet (r, y) /\ Forall inv (y_jobs y) /\
    Forall2 same_work jobs (y_jobs y).
Proof.
  intros H. destruct (run_total env fuel jobs v x H) as (mp & r & y & _ & E & []). exists r, y. by split_and!.
Qed.

(** C3. A job runs only behind needs that succeeded: between any two turns of
    the loop, a job that is neither pending nor skipped has every need in the
    state success. *)
Theorem run_respects_needs {W} (env : environment W) fuel jobs v x : startable env jobs v ->
  exists r y, run_jobs env fuel v (Sys jobs x) = CRet (r, y) /\
  forall j id, j ∈ y_jobs y -> passed (jb_state j) = true -> id ∈ jb_needs j ->
  exists d k, find_job (y_jobs y) id = Some d /\ y_jobs y !! d = Some k /\ jb_state k = QWE_LC_SUCCESS.
Proof.
  intros H. destruct (run_total env fuel jobs v x H) as (mp & r & y & _ & E & [P1 P2 (infos & names & caps & I & Hn & _) _]).
  exists r, y. split; [done |]. intros j id [i Hj]%list_elem_of_lookup Hp Hid.
  destruct (Forall2_lookup_r _ _ _ _ _ P1 Hj) as (j0 & Hj0 & (_ & _ & _ & En)). rewrite En in Hid.
  destruct (lookup_lt_is_Some_2 infos i) as [info Hi]; [rewrite (if_length _ _ _ _ _ _ _ _ I); by eapply lookup_lt_Some |].
  pose proof (if_needs _ _ _ _ _ _ _ _ I i j0 info Hj0 Hi) as Hd.
  assert (Hf : forall l k, find_from jobs k l = find_from (y_jobs y) k l).
  { intros l. clear -P1. induction P1 as [|a b la lb (H1 & _) H IH]; intros k; cbn; [done |]. by rewrite H1, IH. }
  assert (Hin : exists d, find_job jobs id = Some d /\ d ∈ in_needs info).
  { clear -Hd Hid. revert Hd Hid. generalize (in_needs info). induction (jb_needs j0) as [|n needs IH]; intros ds Hd Hid; [set_solver |].
    cbn in Hd. destruct (find_job jobs n) as [d|] eqn:Ed; [| done].
    destruct (need_indices jobs needs) as [ds'| | |] eqn:Es; try done. cbn in Hd. injection Hd as <-.
    apply elem_of_cons in Hid as [->|Hid]; [exists d; set_solver |].
    destruct (IH ds' eq_refl Hid) as (d' & ? & ?). exists d'. set_solver. }
  destruct Hin as (d & Hd' & Hin). destruct (Hn i j info Hj Hi Hp d Hin) as (k & Hk & Hs). exists d, k.
  split; [| done]. unfold find_job in *. by rewrite <- Hf.
Qed.

Definition running_on (t : string) (jobs : list job) : nat :=
  length (filter (fun j => jb_target j = t /\ qwe_lc_state_is_running (jb_state j) = true) jobs).

Lemma count_running_view infos jobs : length infos = length jobs ->
  count_running (sched_view jobs infos) = count qwe_lc_state_is_running jobs.
Proof.
  unfold sched_view, count. revert infos. induction jobs as [|j jobs IH]; intros [|i il] Hl; try done.
  injection Hl as Hl. cbn [zip_with count_running sj_state].
  rewrite filter_cons, (IH il Hl). destruct (decide _) as [H|H]; [by rewrite H |].
  by destruct (qwe_lc_state_is_running (jb_state j)).
Qed.

Lemma group_running_view (infos : list sched_info) (names : list string) t g jobs : NoDup names -> names !! g = Some t -> t <> "local"%string ->
  length infos = length jobs ->
  (forall i j info, jobs !! i = Some j -> infos !! i = Some info ->
    if decide (jb_target j = "local"%string) then in_group info = 0
    else exists g, in_group info = S g /\ names !! g = Some (jb_target j)) ->
  group_running (sched_view jobs infos) (S g) = running_on t jobs.
Proof.
  intros Hnd Hg Ht. unfold sched_view, running_on. revert infos.
  induction jobs as [|j jobs IH]; intros [|i il] Hl Hi; try done. injection Hl as Hl.
  cbn [zip_with group_running sj_state sj_group]. rewrite (IH il); [| done | intros k j' info' Hj' Hi'; by apply (Hi (S k))].
  assert (Hgr : in_group i = S g <-> jb_target j = t).
  { specialize (Hi 0 j i eq_refl eq_refl). destruct (decide (jb_target j = "local"%string)) as [E|E].
    - rewrite Hi, E. split; [done | congruence].
    - destruct Hi as (g' & -> & Hg'). split; [intros [= ->]; congruence |].
      intros <-. f_equal. by eapply (NoDup_lookup names). }
  rewrite filter_cons. destruct (Nat.eqb_spec (in_group i) (S g)) as [E|E].
  - apply Hgr in E. destruct (qwe_lc_state_is_running (jb_state j)) eqn:Er; cbn.
    + by rewrite decide_True by done.
    + by rewrite decide_False by naive_solver.
  - cbn. rewrite decide_False; [done |]. intros [E' _]. by apply E, Hgr.
Qed.

(** C4. The limits hold: between any two turns of the loop at most max-parallel:
    jobs run (when it is given), and on every remote target at most as many as the
    cap its max-sessions: stands for. *)
Theorem run_within_limits {W} (env : environment W) fuel jobs v x : startable env jobs v ->
  exists mp r y, max_parallel_of v = CRet mp /\ run_jobs env fuel v (Sys jobs x) = CRet (r, y) /\
  ((0 < mp)%Z -> (Z.of_nat (count qwe_lc_state_is_running (y_jobs y)) <= mp)%Z) /\
  forall j, j ∈ jobs -> jb_target j <> "local"%string ->
    exists cap, cap_of env (jb_target j) cap /\ (Z.of_nat (running_on (jb_target j) (y_jobs y)) <= cap)%Z.
Proof.
  intros H. destruct (run_total env fuel jobs v x H) as (mp & r & y & Em & E & [P1 P2 (infos & names & caps & I & _ & [L1 L2]) _]).
  exists mp, r, y. split; [done |]. split; [done |]. destruct I as [I1 I2 (I3 & I4 & _ & _) I5 I6].
  pose proof (Forall2_length _ _ _ P1) as Hl. split.
  - intros Hm. specialize (L1 Hm). unfold running in L1. by rewrite count_running_view in L1 by lia.
  - intros j [i Hj]%list_elem_of_lookup Ht.
    destruct (lookup_lt_is_Some_2 infos i) as [info Hi]; [rewrite I1; by eapply lookup_lt_Some |].
    pose proof (I5 i j info Hj Hi) as Hgr. rewrite decide_False in Hgr by done. destruct Hgr as (g & _ & Hg).
    destruct (lookup_lt_is_Some_2 caps g) as [cap Hcap]; [rewrite <- I3; by eapply lookup_lt_Some |].
    exists cap. split; [by apply (I6 ltac:(by intros ? ? ? [=]) g) |].
    specialize (L2 g cap Hcap). unfold group_sessions in L2.
    rewrite (group_running_view _ names (jb_target j)) in L2; [done | done | done | done | lia |].
    intros k j' info' Hj' Hi'. destruct (Forall2_lookup_r _ _ _ _ _ P1 Hj') as (j0 & Hj0 & (_ & Et & _)).
    rewrite Et. by apply (I5 k).
Qed.

(** ** The end of a run *)

Lemma write_steps_total first steps : Forall (fun s => is_Some (sr_outcome s)) steps -> exists text, write_steps first steps = CRet text.
Proof.
  intros H. revert first. induction H as [|s steps [oc E] _ IH]; intros first; cbn [write_steps]; [by eexists |].
  unfold write_step. rewrite E. cstep. destruct (IH false) as [text ->]. by eexists.
Qed.

Lemma write_jobs_total first jobs :
  Forall (fun j => is_Some (jr_outcome j) /\ Forall (fun s => is_Some (sr_outcome s)) (jr_steps j)) jobs ->
  exists text, write_jobs first jobs = CRet text.
Proof.
  intros H. revert first. induction H as [|j jobs [[oc E] Hs] _ IH]; intros first; cbn [write_jobs]; [by eexists |].
  unfold write_job. rewrite E. cstep. destruct (write_steps_total true _ Hs) as [text ->]. cstep.
  destruct (IH false) as [text' ->]. by eexists.
Qed.

Lemma result_write_total failed run_id jobs :
  Forall (fun j => is_Some (jr_outcome j) /\ Forall (fun s => is_Some (sr_outcome s)) (jr_steps j)) jobs ->
  exists text, qwe_result_write failed run_id jobs = CRet (text, if failed then (-1)%Z else 0%Z).
Proof. intros H. unfold qwe_result_write. destruct (write_jobs_total true _ H) as [text ->]. by eexists. Qed.

Lemma final_finished j : inv j -> qwe_lc_state_is_final (jb_state j) = true -> finished j.
Proof. intros [[_ _ Hp] _] Hf. unfold phase_ok in Hp. by destruct (jb_state j). Qed.

Lemma finished_result j : finished j ->
  is_Some (jr_outcome (job_result j)) /\ Forall (fun s => is_Some (sr_outcome s)) (jr_steps (job_result j)).
Proof.
  intros [_ _ Hs]. split; [by eexists |]. cbn. destruct (jb_steps j) as [l|] eqn:E; [| constructor].
  destruct (Hs l eq_refl) as [Hl Ho]. apply Forall_lookup_2. intros i s Hi. eapply Ho; [exact E | exact Hi |].
  rewrite <- Hl. by eapply lookup_lt_Some.
Qed.

Lemma exit_code_zero jobs c : exit_code 0 jobs c =
  if c then QWE_EXIT_CANCELLED
  else if forallb job_ok jobs then QWE_EXIT_OK else QWE_EXIT_FAILED.
Proof. unfold exit_code. by destruct c, (forallb job_ok jobs). Qed.

(** What a run comes to. *)
Lemma run_outcome {W} (env : environment W) fuel jobs v x : startable env jobs v ->
  exists r y, run_jobs env fuel v (Sys jobs x) = CRet (r, y) /\
  forall code results, r = Some (code, results) ->
    Forall (fun j => qwe_lc_state_is_final (jb_state j) = true /\ finished j) (y_jobs y) /\
    results = map job_result (y_jobs y) /\ jr_id <$> results = jb_id <$> jobs /\
    (forall failed run_id, exists text, qwe_result_write failed run_id results = CRet (text, if failed then (-1)%Z else 0%Z)) /\
    code = (if x_cancel (y_ctx y) then 130 else if decide (Forall (fun j => jb_state j = QWE_LC_SUCCESS \/ jb_state j = QWE_LC_SKIPPED) (y_jobs y))
            then 0 else 1)%Z.
Proof.
  intros H. destruct (run_total env fuel jobs v x H) as (mp & r & y & _ & E & [P1 P2 _ P4]).
  exists r, y. split; [done |]. intros code results Hr. destruct (P4 code results Hr) as (Hf & -> & ->).
  assert (Hfin : Forall (fun j => qwe_lc_state_is_final (jb_state j) = true /\ finished j) (y_jobs y)).
  { apply Forall_forall. intros j Hj. unfold all_inv, all_final in P2, Hf. rewrite Forall_forall in P2, Hf.
    split; [by apply Hf | apply final_finished; auto]. }
  split; [done |]. split; [done |]. split; [| split].
  - clear -P1. induction P1 as [|j j' l l' (E & _) _ IH]; [done |]. cbn [map fmap list_fmap]. f_equal; [exact E | exact IH].
  - intros failed run_id. apply result_write_total. apply Forall_fmap. eapply Forall_impl; [exact Hfin |].
    intros j [_ Hj]. by apply finished_result.
  - rewrite exit_code_zero. destruct (x_cancel (y_ctx y)); [done |].
    assert (Hok : forallb job_ok (y_jobs y) = true <-> Forall (fun j => jb_state j = QWE_LC_SUCCESS \/ jb_state j = QWE_LC_SKIPPED) (y_jobs y)).
    { rewrite forallb_forall, Forall_forall. setoid_rewrite list_elem_of_In. unfold job_ok.
      setoid_rewrite orb_true_iff. by setoid_rewrite bool_decide_eq_true. }
    destruct (decide _) as [Hd|Hd]; [by rewrite (proj2 Hok Hd) |]. destruct (forallb _ _); [| done]. by destruct Hd; apply Hok.
Qed.

(** C2. What a run that has ended leaves behind, in every environment: each job
    is in a final state with nothing of it in flight (no live process group, no
    open descriptor, no armed timer) and, if it was started, an outcome for each
    of its steps; the results are those of the jobs, in their order, and
    result.json can always be written; the exit code is 130 after a cancel, else
    0 exactly when every job succeeded or was skipped, else 1 (so the loop never
    stops because nothing can run). *)
Theorem run_ends {W} (env : environment W) fuel jobs v x : startable env jobs v ->
  exists r y, run_jobs env fuel v (Sys jobs x) = CRet (r, y) /\
  forall code results, r = Some (code, results) ->
    Forall (fun j => qwe_lc_state_is_final (jb_state j) = true /\ finished j) (y_jobs y) /\
    results = map job_result (y_jobs y) /\ jr_id <$> results = jb_id <$> jobs /\
    (forall failed run_id, exists text, qwe_result_write failed run_id results = CRet (text, if failed then (-1)%Z else 0%Z)) /\
    code = (if x_cancel (y_ctx y) then 130 else if decide (Forall (fun j => jb_state j = QWE_LC_SUCCESS \/ jb_state j = QWE_LC_SKIPPED) (y_jobs y))
            then 0 else 1)%Z.
Proof. apply run_outcome. Qed.

(** ** A run, played out

    Two jobs, the second behind the first on a remote target that allows two
    sessions; every step succeeds. *)
Module Sample.
Definition two : spec_float := S754_finite false 4503599627370496 (-51).

Definition env : environment nat := fun A q w =>
  match q in query A return A * nat with
  | QTick => (1000%N, w) | QTime => (0%Z, w) | QErrno => (12%N, w) | QMemory => (true, w)
  | QRingMem => (Some [], w) | QLogOpen => (true, w) | QTimerCreate => (true, w) | QWrites => ([], w)
  | QTraceWrite => (Wrote 0, w) | QReadOutput _ => ([], w) | QReadResult _ => ([], w) | QAllocations => ([], w)
  | QResolve _ _ _ _ => (Some (Resolved 0 None false []), w) | QTakeOutput _ => (None, w)
  | QDecode _ => (None, w) | QSsh _ _ _ => (false, w) | QEnsure _ => (EnsureOk, w)
  | QOutputFile _ => (true, w) | QSpawn _ _ => (inl 100%Z, w) | QKill _ _ => (tt, w)
  | QGroupEmpty _ => (true, w) | QArgumentOrder => (true, w) | QCancelSignal => (false, w)
  | QWait => ([(100%Z, 0%Z)], w) | QEpoll => (Some [child_tag], w) | QMaxSessions _ => (Some two, w)
  | QDisabled _ => (None, w) | QPreconnect _ => (tt, w)
  end.

Definition start : ctx nat :=
  Ctx 0 0 (Trace None false (Timespec 0 0) None (-1)) [] false (SecretSet [] 0) [] 10000 "r" "d" "/d".

Definition step : step_decl := StepDecl None None None false None.

Definition jobs : list job :=
  [job0 0 "a" "local" [] [step; step] 0; job0 1 "b" "pi" ["a"%string] [step] 0].

Lemma sample_startable : startable env jobs (Some two).
Proof.
  constructor.
  - intros t w v w' [= <- <-]. split; vm_compute; [done | discriminate].
  - by repeat constructor.
  - eexists. vm_compute. reflexivity.
  - vm_compute. reflexivity.
Qed.

(** The exit code and the outcomes of a run. *)
Definition outcome (r : cres (option (Z * list qwe_job_result) * sys nat)) : option (Z * list (option string)) :=
  match r with
  | CRet (Some (code, results), _) => Some (code, map jr_outcome results)
  | _ => None
  end.

(** It ends within ten turns, with success. *)
Lemma sample_outcome : outcome (run_jobs env 10 (Some two) (Sys jobs start)) =
  Some (0%Z, [Some "success"%string; Some "success"%string]).
Proof. vm_compute. reflexivity. Qed.
End Sample.

Lemma run_never_aborts_witness : exists r y,
  run_jobs Sample.env 10 (Some Sample.two) (Sys Sample.jobs Sample.start) = CRet (r, y) /\ Forall inv (y_jobs y) /\
  Forall2 same_work Sample.jobs (y_jobs y).
Proof. apply (run_never_aborts Sample.env 10 Sample.jobs (Some Sample.two) Sample.start), Sample.sample_startable. Defined.

Lemma run_respects_needs_witness : exists r y,
  run_jobs Sample.env 2 (Some Sample.two) (Sys Sample.jobs Sample.start) = CRet (r, y) /\
  forall j id, j ∈ y_jobs y -> passed (jb_state j) = true -> id ∈ jb_needs j ->
  exists d k, find_job (y_jobs y) id = Some d /\ y_jobs y !! d = Some k /\ jb_state k = QWE_LC_SUCCESS.
Proof. apply (run_respects_needs Sample.env 2 Sample.jobs (Some Sample.two) Sample.start), Sample.sample_startable. Defined.

Lemma run_within_limits_witness : exists mp r y, max_parallel_of (Some Sample.two) = CRet mp /\
  run_jobs Sample.env 3 (Some Sample.two) (Sys Sample.jobs Sample.start) = CRet (r, y) /\
  ((0 < mp)%Z -> (Z.of_nat (count qwe_lc_state_is_running (y_jobs y)) <= mp)%Z) /\
  forall j, j ∈ Sample.jobs -> jb_target j <> "local"%string ->
    exists cap, cap_of Sample.env (jb_target j) cap /\ (Z.of_nat (running_on (jb_target j) (y_jobs y)) <= cap)%Z.
Proof. apply (run_within_limits Sample.env 3 Sample.jobs (Some Sample.two) Sample.start), Sample.sample_startable. Defined.

Lemma run_ends_witness : exists results y,
  run_jobs Sample.env 10 (Some Sample.two) (Sys Sample.jobs Sample.start) = CRet (Some (0%Z, results), y) /\
  Forall (fun j => qwe_lc_state_is_final (jb_state j) = true /\ finished j) (y_jobs y).
Proof.
  destruct (run_ends Sample.env 10 Sample.jobs (Some Sample.two) Sample.start Sample.sample_startable) as (r & y & E & H).
  pose proof Sample.sample_outcome as Ho. rewrite E in Ho.
  destruct r as [[code results]|]; [| done]. injection Ho as -> _. exists results, y. split; [done |].
  by destruct (H 0%Z results eq_refl).
Defined.
