(* ===== verification/Output.v ===== *)
(** * A step's output, from its pipe to the log

    [drain], [emit] and [drain_flush] of [src/kernel/workflow.c] (in [Engine]) put the
    redactor, the ring and the sink in a row.  Here is what the row does for one
    step, whatever else happens between two of its drains: the log gets the redacted
    text of what was read, all of it, and nothing else. *)

From Stdlib Require Import Ascii NArith ZArith Lia.
From stdpp Require Import base sets list strings numbers.
From S2P Require Import Prelude Fmt Ring Redact Sink Trace Result Job Engine EngineOk RunOk.

Open Scope nat_scope.
Open Scope list_scope.

(** ** What a stream is decided to be *)

(** The tokens of a stream, read by read, from what was held before it to what is
    held after it. *)
Inductive streamed : list (secrets * bytes) -> bytes -> list token -> bytes -> Prop :=
| St_nil held : streamed [] held [] held
| St_read set data chunks held toks held1 toks' held' :
    held ++ data = source toks ++ held1 -> decided set toks held1 -> streamed chunks held1 toks' held' ->
    streamed ((set, data) :: chunks) held (toks ++ toks') held'.

Lemma streamed_app cs held toks held1 : streamed cs held toks held1 -> forall cs' toks' held',
  streamed cs' held1 toks' held' -> streamed (cs ++ cs') held (toks ++ toks') held'.
Proof.
  induction 1 as [|set data cs held toks held1 toks1 held2 E Hd _ IH]; intros cs' toks' held' H; [done |].
  cbn [app]. rewrite <- app_assoc. econstructor; [done | done | by apply IH].
Qed.

Lemma streamed_one set data held toks held' : held ++ data = source toks ++ held' -> decided set toks held' -> streamed [(set, data)] held toks held'.
Proof. intros E Hd. rewrite <- (app_nil_r toks). econstructor; [done | done | constructor]. Qed.

(** How the first token depends on the text. *)
Definition first_token (set : secrets) (p : bytes) (toks : list token) : Prop :=
  match toks with
  | [] => p = [] \/ match_at set p = 0 /\ could_start set p = true
  | Lit c :: _ => match_at set p = 0 /\ could_start set p = false /\ exists p', p = c :: p'
  | Masked v :: _ => v <> [] /\ match_at set p = length v /\ exists p', p = v ++ p'
  end.

Lemma decided_first set toks h : decided set toks h -> first_token set (source toks ++ h) toks.
Proof.
  destruct toks as [|[c|v] toks]; cbn [decided source app first_token]; [done | intros (? & ? & _); by eauto |].
  rewrite <- app_assoc. intros (? & ? & _). eauto.
Qed.

(** The decisions of a read are the only ones. *)
Lemma decided_det set A : forall h B h', source A ++ h = source B ++ h' -> decided set A h -> decided set B h' -> A = B /\ h = h'.
Proof.
  induction A as [|x A IH]; intros h B h' E HA HB; pose proof (decided_first _ _ _ HA) as FA; pose proof (decided_first _ _ _ HB) as FB; rewrite <- E in FB.
  - destruct B as [|[c|v] B]; cbn [first_token source app] in *; [done | |].
    + destruct FB as (_ & Hc & p' & Ep). destruct FA as [Eh | [_ Hc'] ]; [by rewrite Eh in Ep | by rewrite Hc in Hc'].
    + destruct FB as (Hv & Hm & p' & Ep). destruct FA as [Eh | [Hm' _] ]; [rewrite Eh in Ep; symmetry in Ep; by apply app_eq_nil in Ep as [-> _] |].
      rewrite Hm' in Hm. symmetry in Hm. by apply nil_length_inv in Hm.
  - destruct x as [c|v], B as [|[c'|v'] B]; cbn [first_token] in *.
    + destruct FA as (_ & Hc & p' & Ep). destruct FB as [Eh | [_ Hc'] ]; [by rewrite Eh in Ep | by rewrite Hc in Hc'].
    + cbn [source app decided] in *. injection E as <- E. destruct (IH h B h' E) as [-> ->]; [apply HA | apply HB | done].
    + destruct FA as (Hm & _), FB as (Hv & Hm' & _). rewrite Hm in Hm'. symmetry in Hm'. by apply nil_length_inv in Hm'.
    + destruct FA as (Hv & Hm & p' & Ep), FB as [Eh | [Hm' _] ]; [rewrite Eh in Ep; symmetry in Ep; by apply app_eq_nil in Ep as [-> _] |].
      rewrite Hm' in Hm. symmetry in Hm. by apply nil_length_inv in Hm.
    + destruct FB as (Hm & _), FA as (Hv & Hm' & _). rewrite Hm in Hm'. symmetry in Hm'. by apply nil_length_inv in Hm'.
    + destruct FA as (_ & Hm & _), FB as (_ & Hm' & _). cbn [source decided] in *. rewrite Hm' in Hm. rewrite <- !app_assoc in E.
      apply app_inj_1 in E as [-> E]; [| done]. destruct (IH h B h' E) as [-> ->]; [apply HA | apply HB | done].
Qed.

Lemma streamed_det cs held A h : streamed cs held A h -> forall B h', streamed cs held B h' -> A = B /\ h = h'.
Proof.
  induction 1 as [held|set data cs held A1 h1 A2 h2 E Hd _ IH]; intros B h' H; inversion H; subst; [done |].
  match goal with E' : held ++ data = source ?B1 ++ ?h1', Hd' : decided set ?B1 ?h1' |- _ =>
    destruct (decided_det set A1 h1 B1 h1') as [-> ->]; [by rewrite <- E, <- E' | done | done |] end.
  match goal with H' : streamed cs _ _ _ |- _ => apply IH in H' as [-> ->] end. done.
Qed.

(** The redactor takes them. *)
Lemma feed_all_streamed cs : forall r out, exists toks held rcap cap,
  feed_all cs [] r out = CRet ([], Redactor held rcap, Buf (b_data out ++ render toks) cap, true) /\ streamed cs (rd_held r) toks held.
Proof.
  induction cs as [|[set data] cs IH]; intros r out.
  - destruct r as [held rcap], out as [d cap]. exists [], held, rcap, cap. cbn. rewrite app_nil_r. split; [done | constructor].
  - cbn [feed_all]. destruct (feed_fed set r data out) as (A & h & rcap & cap & -> & E & Hd). cstep.
    destruct (IH (Redactor h rcap) (Buf (b_data out ++ render A) cap)) as (B & held & rcap' & cap' & -> & Hs).
    exists (A ++ B), held, rcap', cap'. cbn [b_data rd_held] in *. split; [by rewrite render_app, app_assoc | by econstructor].
Qed.

Lemma redact_stream_streamed cs toks held : streamed cs [] toks held -> redact_stream cs [] = CRet (render toks ++ held, true).
Proof.
  intros H. unfold redact_stream. destruct (feed_all_streamed cs redactor0 (Buf [] 0)) as (toks' & held' & rcap & cap & -> & H'). cstep.
  destruct (streamed_det _ _ _ _ H _ _ H') as [<- <-]. match goal with |- context [qwe_redact_flush [] ?r ?o] => destruct (flush_ok r o) as (cap' & ->) end. by cstep.
Qed.

(** ** How long it can get *)

Definition SECRET_MAX : nat := Z.to_nat 65536.

Definition short_secrets (set : secrets) : Prop := Forall (fun v => length v <= SECRET_MAX) set.

Lemma render_length set toks held : decided set toks held -> length (render toks) <= 3 * length (source toks).
Proof.
  induction toks as [|[c|v] toks IH]; cbn [decided render source]; [simpl; lia | |].
  - intros (_ & _ & H). specialize (IH H). cbn [length]. lia.
  - intros (Hv & _ & H). specialize (IH H). rewrite !length_app. destruct v as [|c v]; [done |]. change (length MASK) with 3. cbn [length]. lia.
Qed.

Lemma held_short set toks held : short_secrets set -> decided set toks held -> length held <= SECRET_MAX.
Proof.
  intros Hs [->|[_ (v & x & k & Hv & ->)%could_start_true]]%decided_tail; [simpl; lia |].
  eapply Forall_forall in Hs; [| by apply list_elem_of_In in Hv]. rewrite length_app in Hs. lia.
Qed.

(** ** One drain *)

Section output.
Context {W : Type} (env : environment W).
(** The log can be written, and the redactor has memory. *)
Context (writes_go : forall w, no_error (fst (env _ QWrites w))) (memory : forall w, fst (env _ QAllocations w) = []).

(** A ring that is empty and a sink in order. *)
Record ready (r : job_run) : Prop := Ready {
  rd_ring : ring_wf (rn_ring r);
  rd_room : r_cap (rn_ring r) = QWE_RING_CAPACITY;
  rd_empty : content (rn_ring r) = [];
  rd_sink : sink_wf (rn_sink r);
  rd_line : NL ∉ sk_line (rn_sink r);
}.

Lemma wp_ask_answer {A} (q : query A) (Q : A -> st W -> Prop) s :
  (forall a w, (a, w) = env A q (x_env (s_ctx s)) -> Q a (St (s_job s) ((s_ctx s) <| x_env := w |>))) -> wp (ask env q) Q s.
Proof. unfold wp, ask. intros H. destruct (env A q _) as [a w]. by apply H. Qed.

(** The text goes into the log; the rest of what the row keeps is in order, the set of
    secrets the same. *)
Definition logged (text : bytes) (red : qwe_redactor) (dropped : N) (s s' : st W) : Prop :=
  rn_log (jb_run (s_job s')) = rn_log (jb_run (s_job s)) ++ text /\ rn_red (jb_run (s_job s')) = red /\
  r_dropped (rn_ring (jb_run (s_job s'))) = dropped /\ x_set (s_ctx s') = x_set (s_ctx s).

Lemma sink_write_logged data s : sink_wf (rn_sink (jb_run (s_job s))) -> NL ∉ sk_line (rn_sink (jb_run (s_job s))) ->
  wp (Engine.sink_write env data) (fun _ s' => logged data (rn_red (jb_run (s_job s))) (r_dropped (rn_ring (jb_run (s_job s)))) s s' /\
    sink_wf (rn_sink (jb_run (s_job s'))) /\ (NL ∉ sk_line (rn_sink (jb_run (s_job s')))) /\ rn_ring (jb_run (s_job s')) = rn_ring (jb_run (s_job s))) s.
Proof.
  intros Hs Hl. unfold Engine.sink_write. apply wp_bind, wp_ask_answer. intros ans w Ea. wps.
  assert (Hn : no_error ans) by (change ans with (fst (ans, w)); rewrite Ea; apply writes_go).
  unfold qwe_sink_write. cbn [f_ans f_log f_term]. destruct (write_all_ok ans (rn_log (jb_run (s_job s))) data Hn) as (ans' & -> & Hn').
  match goal with |- context [sink_bytes ?sk ?fl data] => destruct (sink_bytes_ok sk fl data Hs Hl Hn') as (cap & ans'' & E & Hcap & Hnl & _) end.
  wplift E. wps. split; [by split_and! |]. split; [exact Hcap |]. split; [exact Hnl | done].
Qed.

Lemma emit_loop_logged fuel : forall s, ring_wf (rn_ring (jb_run (s_job s))) -> r_cap (rn_ring (jb_run (s_job s))) = QWE_RING_CAPACITY ->
  sink_wf (rn_sink (jb_run (s_job s))) -> NL ∉ sk_line (rn_sink (jb_run (s_job s))) -> r_len (rn_ring (jb_run (s_job s))) < fuel ->
  wp (emit_loop env fuel) (fun _ s' => ready (jb_run (s_job s')) /\
    logged (content (rn_ring (jb_run (s_job s)))) (rn_red (jb_run (s_job s))) (r_dropped (rn_ring (jb_run (s_job s)))) s s') s.
Proof.
  induction fuel as [|fuel IH]; intros s Hr Hroom Hs Hl Hf; [lia |]. cbn [emit_loop]. wps.
  destruct (ring_read_ok (rn_ring (jb_run (s_job s))) CHUNK Hr) as (ring & E & Hwf & Hcap & Hc & Hdr). wplift E. wps.
  pose proof (content_length _ Hr) as Hcl. pose proof (content_length _ Hwf) as Hcl'. rewrite Hc, length_drop in Hcl'. pose proof CHUNK_pos.
  apply wp_if; intros Hz; [apply Nat.eqb_eq in Hz | apply Nat.eqb_neq in Hz]; rewrite length_take in Hz.
  - assert (E0 : content (rn_ring (jb_run (s_job s))) = []) by (apply nil_length_inv; lia). wps. split.
    + constructor; cbn [rn_ring rn_sink jb_run s_job setf]; [done | by rewrite Hcap | by rewrite Hc, E0, drop_nil | done | done].
    + rewrite E0. split_and!; [by rewrite app_nil_r | done | done | done].
  - wps. eapply wp_mono; [by apply sink_write_logged |]. intros _ s1 ((L1 & R1 & D1 & X1) & Hs1 & Hl1 & Er).
    cbn [rn_log rn_red rn_ring jb_run s_job s_ctx setf] in *.
    eapply wp_mono; [apply IH; rewrite ?Er; [done | by rewrite Hcap | done | done | lia] |]. intros _ s2 (H2 & L2 & R2 & D2 & X2).
    split; [done |]. rewrite Er, Hc in L2. rewrite Er in D2. split_and!; [| congruence | congruence | congruence].
    rewrite L2, L1, <- app_assoc. by rewrite take_drop.
Qed.

(** What fits the ring is passed on whole, and no alarm is raised. *)
Lemma emit_logged data s : ready (jb_run (s_job s)) -> length data <= QWE_RING_CAPACITY ->
  wp (emit env data) (fun _ s' => ready (jb_run (s_job s')) /\ logged data (rn_red (jb_run (s_job s))) (r_dropped (rn_ring (jb_run (s_job s)))) s s') s.
Proof.
  intros [Hr Hroom He Hs Hl] Hd. unfold emit. wps. destruct (ring_write_ok (rn_ring (jb_run (s_job s))) data Hr) as (ring & E & Hwf & Hcap & Hc & Hdr).
  wplift E. wps. rewrite He in Hc, Hdr. cbn [app] in *. rewrite Hroom in *. replace (length data - QWE_RING_CAPACITY) with 0 in * by lia.
  rewrite drop_0 in Hc. rewrite N.add_0_r, (wrap64_small _ (wf_dropped _ Hr)) in Hdr.
  eapply wp_mono; [apply emit_loop_logged; cbn [rn_ring rn_sink jb_run s_job setf]; [done | by rewrite Hcap | done | done | lia] |].
  intros _ s1 (H1 & L1 & R1 & D1 & X1). cbn [rn_log rn_red rn_ring jb_run s_job s_ctx setf] in *. wps.
  rewrite D1, Hdr, N.eqb_refl. wps. split; [done |]. rewrite Hc in L1. split_and!; congruence.
Qed.

(** The reads a drain takes, each with the set. *)
Fixpoint chunks_of (set : secrets) (reads : list read_result) : list (secrets * bytes) :=
  match reads with
  | [] => []
  | RIntr :: reads => chunks_of set reads
  | RData [] :: _ => []
  | RData data :: reads => (set, take CHUNK data) :: chunks_of set reads
  end.

Lemma SECRETS_FIT : 3 * (SECRET_MAX + CHUNK) <= QWE_RING_CAPACITY.
Proof. with_strategy transparent [CHUNK] unfold SECRET_MAX, CHUNK, QWE_RING_CAPACITY. lia. Qed.

Definition all_short (cs : list (secrets * bytes)) : Prop := Forall (fun c => short_secrets (fst c)) cs.

Lemma drain_reads_logged reads : forall s, ready (jb_run (s_job s)) -> all_short (chunks_of (ss_set (x_set (s_ctx s))) reads) -> length (rd_held (rn_red (jb_run (s_job s)))) <= SECRET_MAX ->
  wp (drain_reads env reads) (fun _ s' => ready (jb_run (s_job s')) /\ length (rd_held (rn_red (jb_run (s_job s')))) <= SECRET_MAX /\
    exists toks, streamed (chunks_of (ss_set (x_set (s_ctx s))) reads) (rd_held (rn_red (jb_run (s_job s)))) toks (rd_held (rn_red (jb_run (s_job s')))) /\
      logged (render toks) (rn_red (jb_run (s_job s'))) (r_dropped (rn_ring (jb_run (s_job s)))) s s') s.
Proof.
  assert (Hend : forall b s, ready (jb_run (s_job s)) -> length (rd_held (rn_red (jb_run (s_job s)))) <= SECRET_MAX ->
    wp (mret b : M W bool) (fun _ s' => ready (jb_run (s_job s')) /\ length (rd_held (rn_red (jb_run (s_job s')))) <= SECRET_MAX /\
      exists toks, streamed [] (rd_held (rn_red (jb_run (s_job s)))) toks (rd_held (rn_red (jb_run (s_job s')))) /\
        logged (render toks) (rn_red (jb_run (s_job s'))) (r_dropped (rn_ring (jb_run (s_job s)))) s s') s).
  { intros b s H Hh. apply wp_ret. split; [done |]. split; [done |]. exists []. split; [constructor |]. split_and!; [by rewrite app_nil_r | done..]. }
  induction reads as [|[[|c data]|] reads IH]; intros s H Hset Hh; cbn [drain_reads chunks_of]; [by apply Hend | by apply Hend | | by apply IH].
  inversion Hset as [| ? ? Hshort Hset']; subst. cbn [fst] in Hshort.
  apply wp_bind, wp_ask_answer. intros mem w Ea. assert (mem = []) as -> by (change mem with (fst (mem, w)); rewrite Ea; apply memory). wps.
  set (set0 := ss_set (x_set (s_ctx s))) in *. set (d := take CHUNK (c :: data)).
  destruct (feed_fed set0 (rn_red (jb_run (s_job s))) d (Buf [] 0)) as (toks & held & rcap & cap & E & Es & Hd). cbn [b_data app] in E.
  wplift E. wps. cbn [b_data].
  assert (Hlen : length (render toks) <= QWE_RING_CAPACITY).
  { pose proof (render_length _ _ _ Hd). apply (f_equal length) in Es. rewrite !length_app in Es. pose proof SECRETS_FIT.
    assert (length d <= CHUNK) by (unfold d; rewrite length_take; lia). lia. }
  match goal with |- wp (when ?b ?m) _ ?s0 => assert (He : wp (when b m) (fun _ s' => ready (jb_run (s_job s')) /\
    logged (render toks) (Redactor held rcap) (r_dropped (rn_ring (jb_run (s_job s)))) s s') s0) end.
  { apply wp_when; intros Hb.
    - eapply wp_mono; [apply emit_logged; [by destruct H | done] |]. intros _ s1 (H1 & L1 & R1 & D1 & X1). cbn [rn_log rn_red rn_ring jb_run s_job s_ctx setf] in *. by split_and!.
    - assert (render toks = []) as -> by (apply nil_length_inv; cbn [andb] in Hb; apply Nat.ltb_ge in Hb; lia).
      split; [by destruct H |]. split_and!; [cbn [rn_log jb_run s_job setf]; by rewrite app_nil_r | done..]. }
  eapply wp_mono; [exact He |]. intros _ s1 (H1 & L1 & R1 & D1 & X1).
  eapply wp_mono; [apply IH; [done | by rewrite X1 | rewrite R1; by eapply held_short] |]. intros b s2 (H2 & Hh2 & toks' & Hs' & L2 & R2 & D2 & X2).
  split; [done |]. split; [done |]. rewrite X1, R1 in Hs'. exists (toks ++ toks'). split; [by econstructor |].
  split_and!; [by rewrite L2, L1, <- app_assoc, render_app | done | congruence | congruence].
Qed.

(** ** A step's output *)

(** What a drain will read in this state. *)
Definition seen (s : st W) : list (secrets * bytes) :=
  chunks_of (ss_set (x_set (s_ctx s))) (fst (env _ (QReadOutput (rn_pid (jb_run (s_job s)))) (x_env (s_ctx s)))).

Lemma drain_logged s : ready (jb_run (s_job s)) -> all_short (seen s) -> length (rd_held (rn_red (jb_run (s_job s)))) <= SECRET_MAX ->
  wp (drain env) (fun _ s' => ready (jb_run (s_job s')) /\ length (rd_held (rn_red (jb_run (s_job s')))) <= SECRET_MAX /\
    exists toks, streamed (seen s) (rd_held (rn_red (jb_run (s_job s)))) toks (rd_held (rn_red (jb_run (s_job s')))) /\
      logged (render toks) (rn_red (jb_run (s_job s'))) (r_dropped (rn_ring (jb_run (s_job s)))) s s') s.
Proof.
  intros H Hs Hh. unfold drain. apply wp_bind, wp_get_run, wp_bind, wp_ask_answer. intros reads w Er. unfold seen in *. rewrite <- Er in *. cbn [fst] in *.
  eapply wp_mono; [by apply drain_reads_logged |]. intros b s' (H1 & H2 & toks & H3 & L & R & D & X). split; [done |]. split; [done |]. exists toks. by split.
Qed.

Lemma drain_flush_logged s : ready (jb_run (s_job s)) -> length (rd_held (rn_red (jb_run (s_job s)))) <= SECRET_MAX ->
  wp (drain_flush env) (fun _ s' => ready (jb_run (s_job s')) /\ rd_held (rn_red (jb_run (s_job s'))) = [] /\
    logged (rd_held (rn_red (jb_run (s_job s)))) (rn_red (jb_run (s_job s'))) (r_dropped (rn_ring (jb_run (s_job s)))) s s') s.
Proof.
  intros H Hh. unfold drain_flush. apply wp_bind, wp_ask_answer. intros mem w Ea. assert (mem = []) as -> by (change mem with (fst (mem, w)); rewrite Ea; apply memory). wps.
  destruct (flush_ok (rn_red (jb_run (s_job s))) (Buf [] 0)) as (cap & E). cbn [b_data app] in E. wplift E. wps. cbn [b_data].
  set (held := rd_held (rn_red (jb_run (s_job s)))) in *. pose proof SECRETS_FIT. apply wp_when; intros Hb.
  - eapply wp_mono; [apply emit_logged; [by destruct H | lia] |]. intros _ s1 (H1 & L1 & R1 & D1 & X1). cbn [rn_log rn_red rn_ring jb_run s_job s_ctx setf] in *.
    split; [done |]. split; [by rewrite R1 |]. by split_and!.
  - assert (Eh : held = []) by (apply nil_length_inv; cbn [andb] in Hb; apply Nat.ltb_ge in Hb; lia). rewrite Eh.
    split; [by destruct H |]. split; [done |]. split_and!; [cbn [rn_log jb_run s_job setf]; by rewrite app_nil_r | done..].
Qed.

(** What else happens leaves the row of the job alone. *)
Definition elsewhere (s s' : st W) : Prop :=
  rn_ring (jb_run (s_job s')) = rn_ring (jb_run (s_job s)) /\ rn_sink (jb_run (s_job s')) = rn_sink (jb_run (s_job s)) /\
  rn_log (jb_run (s_job s')) = rn_log (jb_run (s_job s)) /\ rn_red (jb_run (s_job s')) = rn_red (jb_run (s_job s)).

(** The life of a step's output: drains, with anything between them (the turns of the
    loop, other jobs, secrets that become known). *)
Inductive drained : st W -> list (secrets * bytes) -> st W -> Prop :=
| Dr_end s : drained s [] s
| Dr_drain s b s1 cs s' : drain env s = CRet (b, s1) -> drained s1 cs s' -> drained s (seen s ++ cs) s'
| Dr_elsewhere s s1 cs s' : elsewhere s s1 -> drained s1 cs s' -> drained s cs s'.

Lemma drained_logged s cs s' : drained s cs s' -> ready (jb_run (s_job s)) -> all_short cs -> length (rd_held (rn_red (jb_run (s_job s)))) <= SECRET_MAX ->
  ready (jb_run (s_job s')) /\ length (rd_held (rn_red (jb_run (s_job s')))) <= SECRET_MAX /\
  r_dropped (rn_ring (jb_run (s_job s'))) = r_dropped (rn_ring (jb_run (s_job s))) /\
  exists toks, streamed cs (rd_held (rn_red (jb_run (s_job s)))) toks (rd_held (rn_red (jb_run (s_job s')))) /\
    rn_log (jb_run (s_job s')) = rn_log (jb_run (s_job s)) ++ render toks.
Proof.
  induction 1 as [s|s b s1 cs s' E _ IH|s s1 cs s' (E1 & E2 & E3 & E4) _ IH]; intros Hr Hs Hh.
  - split_and!; [done | done | done |]. exists []. split; [constructor | by rewrite app_nil_r].
  - apply Forall_app in Hs as [Hs1 Hs2]. pose proof (drain_logged s Hr Hs1 Hh) as H. unfold wp in H. rewrite E in H.
    destruct H as (Hr1 & Hh1 & toks & Ht & L & R & D & X). destruct (IH Hr1 Hs2 Hh1) as (Hr2 & Hh2 & D2 & toks2 & Ht2 & L2).
    split_and!; [done | done | congruence |]. exists (toks ++ toks2). split; [by eapply streamed_app |]. by rewrite L2, L, <- app_assoc, render_app.
  - rewrite <- E4 in Hh |- *. destruct IH as (Hr2 & Hh2 & D2 & toks & Ht & L); [destruct Hr as [A B C D F]; constructor; by rewrite ?E1, ?E2 | done | done |].
    split_and!; [done | done | by rewrite D2, E1 |]. exists toks. split; [done |]. by rewrite L, E3.
Qed.

(** C9. What a step prints is in its job's log redacted and whole.  However its output
    comes in drains and reads, whatever happens between them and however the set of
    secrets grows: with memory, with a log that can be written and with secrets of at
    most 65536 bytes, the ring never drops a byte and the log grows by exactly the
    redaction of the stream; so a secret that was known all along, has no byte of the
    mask and is not part of another, is not in it. *)
Theorem step_output s cs s1 : ready (jb_run (s_job s)) -> rd_held (rn_red (jb_run (s_job s))) = [] -> all_short cs -> drained s cs s1 ->
  exists s2 out, drain_flush env s1 = CRet (tt, s2) /\ redact_stream cs [] = CRet (out, true) /\
    rn_log (jb_run (s_job s2)) = rn_log (jb_run (s_job s)) ++ out /\
    r_dropped (rn_ring (jb_run (s_job s2))) = r_dropped (rn_ring (jb_run (s_job s))) /\
    ready (jb_run (s_job s2)) /\ rd_held (rn_red (jb_run (s_job s2))) = [] /\
    forall t, t <> [] -> STAR ∉ t -> Forall (fun c => t ∈ fst c) cs -> (forall c v, c ∈ cs -> v ∈ fst c -> occurs t v -> v = t) -> ~ occurs t out.
Proof.
  intros Hr H0 Hs Hd. destruct (drained_logged s cs s1 Hd Hr Hs) as (Hr1 & Hh1 & D1 & toks & Ht & L1); [rewrite H0; simpl; lia |].
  pose proof (drain_flush_logged s1 Hr1 Hh1) as H. unfold wp in H. destruct (drain_flush env s1) as [[[] s2]| | |]; [| done..].
  destruct H as (Hr2 & Hh2 & L2 & _ & D2 & _). rewrite H0 in Ht. pose proof (redact_stream_streamed _ _ _ Ht) as E.
  exists s2, (render toks ++ rd_held (rn_red (jb_run (s_job s1)))). split_and!; [done | done | by rewrite L2, L1, <- app_assoc | congruence | done | done |].
  intros t Hne Hst Hin Hfree. destruct (stream_safe t cs Hne Hst Hin Hfree) as (out & E' & Ho). rewrite E in E'. by injection E' as <-.
Qed.
End output.

(** The row as [job_start] leaves it, if it could open all of it. *)
Lemma opened_ready {W} (env : environment W) s :
  wp (op ← open_ring env; or_else op (open_sink env)) (fun op s' => op = None ->
    ready (jb_run (s_job s')) /\ rn_log (jb_run (s_job s')) = [] /\ rn_red (jb_run (s_job s')) = rn_red (jb_run (s_job s))) s.
Proof.
  unfold open_ring. wps. destruct a as [mem|]; cbn [qwe_ring_init fmap option_fmap option_map]; [| by wps].
  assert (Hring : ring_wf (Ring (block QWE_RING_CAPACITY mem) QWE_RING_CAPACITY 0 0 0)).
  { assert (0 < QWE_RING_CAPACITY) by (unfold QWE_RING_CAPACITY; lia).
    constructor; cbn [r_cap r_buf r_head r_len r_dropped]; [done | | done | lia | done]. unfold block. rewrite length_take, length_app, length_replicate. lia. }
  cbn -[block QWE_RING_CAPACITY]. wps. unfold open_sink. cbn [or_else]. wps.
  unfold qwe_sink_open, log_path. destruct a.
  - rewrite qwe_xfmt_fits by (rewrite !length_app, !length_bytes_of; simpl; lia). eapply wp_lift; [reflexivity |].
    destruct a0; [| by wps]. wps. intros _. split_and!; [| done | done]. constructor; cbn -[block QWE_RING_CAPACITY]; [done | done | done | unfold sink_wf; simpl; lia | set_solver].
  - eapply wp_lift; [reflexivity |]. by wps.
Qed.

(** ** A step that prints a secret in two reads *)

Module Sample.
Definition secret : bytes := bytes_of "hunter2".

Definition env : environment nat := fun A q w =>
  match q in query A return A * nat with
  | QReadOutput _ => ([RData (bytes_of "pass hun"); RIntr; RData (bytes_of "ter2 ok")], w)
  | q => RunOk.Sample.env _ q w
  end.

Definition ring : qwe_ring := Ring (block QWE_RING_CAPACITY []) QWE_RING_CAPACITY 0 0 0.

Definition start : st nat :=
  St ((job0 0 "a" "local" [] [] 0) <| jb_run := (job_run0 <| rn_ring := ring |> <| rn_sink := Sink "a" [] 0 |>) |>)
     (Ctx 0 0 (Trace None false (Timespec 0 0) None (-1)) [] false (SecretSet [secret] 8) [] 10000 "r" "d" "/d").

(** The state after a drain. *)
Definition after (s : st nat) : st nat := match drain env s with CRet (_, s') => s' | _ => s end.

Definition chunks : list (secrets * bytes) := [([secret], bytes_of "pass hun"); ([secret], bytes_of "ter2 ok")].

Lemma writes_go w : no_error (fst (env _ QWrites w)).
Proof. constructor. Qed.

Lemma memory w : fst (env _ QAllocations w) = [].
Proof. done. Qed.

Lemma start_ready : ready (jb_run (s_job start)).
Proof.
  assert (Hring : ring_wf ring).
  { assert (0 < QWE_RING_CAPACITY) by (unfold QWE_RING_CAPACITY; lia).
    constructor; cbn [ring r_cap r_buf r_head r_len r_dropped]; [done | | done | lia | done]. unfold block. rewrite length_take, length_app, length_replicate. lia. }
  constructor; [exact Hring | done | done | unfold sink_wf; simpl; lia | set_solver].
Qed.

(** A drain returns. *)
Lemma after_ok s : ready (jb_run (s_job s)) -> all_short (seen env s) -> length (rd_held (rn_red (jb_run (s_job s)))) <= SECRET_MAX ->
  (exists b, drain env s = CRet (b, after s)) /\ ready (jb_run (s_job (after s))) /\ length (rd_held (rn_red (jb_run (s_job (after s))))) <= SECRET_MAX.
Proof.
  intros Hr Hs Hh. pose proof (drain_logged env writes_go memory s Hr Hs Hh) as H. unfold wp in H. unfold after.
  destruct (drain env s) as [[b s']| | |]; [| done..]. destruct H as (? & ? & _). split_and!; [by eexists | done | done].
Qed.

Lemma short_chunks : all_short chunks.
Proof.
  assert (H : short_secrets [secret]) by (constructor; [apply Nat.leb_le; vm_compute; reflexivity | constructor]).
  constructor; [exact H | constructor; [exact H | constructor] ].
Qed.

Lemma start_seen : seen env start = chunks.
Proof.
  change (seen env start) with (chunks_of [secret] [RData (bytes_of "pass hun"); RIntr; RData (bytes_of "ter2 ok")]).
  vm_compute. reflexivity.
Qed.

Lemma drains : drained env start chunks (after start).
Proof.
  destruct (after_ok start start_ready) as ([b E] & _); [rewrite start_seen; apply short_chunks | simpl; lia |].
  rewrite <- (app_nil_r chunks), <- start_seen. eapply Dr_drain; [exact E | constructor].
Qed.
End Sample.

Lemma step_output_witness : drained Sample.env Sample.start Sample.chunks (Sample.after Sample.start) /\
  exists s2, drain_flush Sample.env (Sample.after Sample.start) = CRet (tt, s2) /\ rn_log (jb_run (s_job s2)) = bytes_of "pass *** ok".
Proof.
  split; [apply Sample.drains |].
  destruct (step_output Sample.env Sample.writes_go Sample.memory Sample.start Sample.chunks _ Sample.start_ready eq_refl Sample.short_chunks Sample.drains)
    as (s2 & out & E & Eo & L & _).
  exists s2. split; [exact E |]. rewrite L. assert (E2 : redact_stream Sample.chunks [] = CRet (bytes_of "pass *** ok", true)) by (vm_compute; reflexivity).
  rewrite E2 in Eo. injection Eo as <-. reflexivity.
Defined.
