(* ===== verification/Select.v ===== *)
(** * Choosing jobs, and the note on skipped ones

    Models [select_jobs] ([--job]) and [report_disabled] of
    [src/kernel/workflow.c], and shows that what [--job] keeps is again a list of
    jobs that a run can start with. *)

From Stdlib Require Import Ascii String NArith ZArith Lia.
From stdpp Require Import base sets list strings relations.
From S2P Require Import Prelude Lifecycle Dag Redact Fmt Job Jobs Run RunOk.

(** ** The code *)

Inductive selection := Selected (jobs : list job) | NoSuchJob (id : string) | SelectNoMemory.

(** The needs of one kept job; an id that names no job would be a null pointer
    less the array. *)
Fixpoint mark_needs (jobs : list job) (needs : list string) (keep : list bool) (changed : bool) : cres (list bool * bool) :=
  match needs with
  | [] => mret (keep, changed)
  | id :: needs =>
      match find_job jobs id with
      | None => CUndef
      | Some need =>
          k ← cread keep need;
          if (k : bool) then mark_needs jobs needs keep changed
          else keep ← cwrite keep need true; mark_needs jobs needs keep true
      end
  end.

(** One pass over the jobs from index [i] on. *)
Fixpoint mark_pass (jobs : list job) (i : nat) (rest : list job) (keep : list bool) (changed : bool) : cres (list bool * bool) :=
  match rest with
  | [] => mret (keep, changed)
  | j :: rest =>
      k ← cread keep i;
      '(keep, changed) ← (if (k : bool) then mark_needs jobs (jb_needs j) keep changed else mret (keep, changed));
      mark_pass jobs (S i) rest keep changed
  end.

(** [do ... while (changed)]. *)
Fixpoint mark_all (fuel : nat) (jobs : list job) (keep : list bool) : cres (list bool) :=
  match fuel with
  | 0 => CFuel
  | S fuel =>
      '(keep, changed) ← mark_pass jobs 0 jobs keep false;
      if (changed : bool) then mark_all fuel jobs keep else mret keep
  end.

Fixpoint choose (jobs : list job) (ids : list string) (keep : list bool) : cres (list bool + string) :=
  match ids with
  | [] => mret (inl keep)
  | id :: ids =>
      match find_job jobs id with
      | None => mret (inr id)
      | Some i => keep ← cwrite keep i true; choose jobs ids keep
      end
  end.

(** [jobs[kept++] = jobs[i]]: a job's place in the list is its index. *)
Fixpoint compact (keep : list bool) (jobs : list job) (kept : nat) : list job :=
  match keep, jobs with
  | k :: keep, j :: jobs => if (k : bool) then (j <| jb_index := kept |>) :: compact keep jobs (S kept) else compact keep jobs kept
  | _, _ => []
  end.

Definition select_jobs (mem : list bool) (jobs : list job) (ids : list string) : cres selection :=
  let total := length jobs in
  let '(ok, _) := alloc mem in
  if negb ok then mret SelectNoMemory
  else
    r ← choose jobs ids (replicate (if total =? 0 then 1 else total) false);
    match r with
    | inr id => mret (NoSuchJob id)
    | inl keep => keep ← mark_all (S (length keep)) jobs keep; mret (Selected (compact keep jobs 0))
    end.

(** The targets of the jobs skipped for a disabled target, each with the note of
    the first such job, and how many such jobs there are. *)
Fixpoint disabled_targets (jobs : list job) (skipped : nat) (seen : list (string * string)) : nat * list (string * string) :=
  match jobs with
  | [] => (skipped, seen)
  | j :: jobs =>
      match jb_detail j, jb_reason j with
      | Some detail, Some reason =>
          if String.eqb reason "target-disabled" then
            disabled_targets jobs (S skipped)
              (if existsb (fun s => String.eqb (fst s) (jb_target j)) seen then seen else seen ++ [(jb_target j, detail)])
          else disabled_targets jobs skipped seen
      | _, _ => disabled_targets jobs skipped seen
      end
  end.

Fixpoint disabled_list (first : bool) (seen : list (string * string)) : bytes :=
  match seen with
  | [] => []
  | (target, detail) :: seen =>
      bytes_of (if first then "" else ",") ++ bytes_of " " ++ bytes_of target ++ bytes_of " (" ++ bytes_of detail ++ bytes_of ")" ++
      disabled_list false seen
  end.

(** The line; [None]: nothing was skipped, or the line could not be made. *)
Definition report_disabled (mem : list bool) (jobs : list job) : option bytes :=
  let '(skipped, seen) := disabled_targets jobs 0 [] in
  if skipped =? 0 then None
  else
    let '(ok, _) := alloc mem in
    if negb ok then None
    else
      Some (bytes_of "qwe run: " ++ dec (Z.of_nat skipped) ++ bytes_of (if skipped =? 1 then " job" else " jobs") ++
            bytes_of " skipped, target" ++ bytes_of (if length seen =? 1 then "" else "s") ++ bytes_of " disabled:" ++
            disabled_list true seen ++ [NL]).

(** ** What is kept *)

(** A chosen job, or one that a chosen job needs, directly or through others. *)
Definition wanted (jobs : list job) (ids : list string) (i : nat) : Prop :=
  exists id c, id ∈ ids /\ find_job jobs id = Some c /\ rtc (edge (dag_job <$> jobs)) c i.

Lemma find_job_dag jobs id : Dag.find (dag_job <$> jobs) id = find_job jobs id.
Proof. apply find_dag. Qed.

Lemma job_edge jobs i d : edge (dag_job <$> jobs) i d <->
  exists j id, jobs !! i = Some j /\ id ∈ jb_needs j /\ find_job jobs id = Some d.
Proof.
  unfold edge. split.
  - intros (j' & id & Hj & Hid & Hf). rewrite list_lookup_fmap in Hj. destruct (jobs !! i) as [j|]; [| done]. injection Hj as <-.
    rewrite find_job_dag in Hf. eauto.
  - intros (j & id & Hj & Hid & Hf). exists (dag_job j), id. rewrite find_job_dag, list_lookup_fmap, Hj. done.
Qed.

Lemma find_job_found jobs id i : find_job jobs id = Some i -> exists j, jobs !! i = Some j /\ jb_id j = id.
Proof. intros H. destruct (find_from_found jobs 0 id i H) as (j & Hj & Hid & _). rewrite Nat.sub_0_r in Hj. eauto. Qed.

Definition trues (keep : list bool) : nat := length (filter (fun b => b = true) keep).

Lemma trues_le keep : trues keep <= length keep.
Proof. apply length_filter. Qed.

Lemma trues_insert keep i : keep !! i = Some false -> trues (<[i := true]> keep) = S (trues keep).
Proof.
  unfold trues. revert i. induction keep as [|b keep IH]; intros [|i] Hi; [done | done | |].
  - injection Hi as ->. cbn. done.
  - change (<[S i := true]> (b :: keep)) with (b :: <[i := true]> keep). rewrite !filter_cons.
    destruct (decide (b = true)); cbn [length]; by rewrite IH.
Qed.

Section marking.
Context (jobs : list job) (ids : list string) (size : nat).
Hypothesis known_jobs : known (dag_job <$> jobs).
Hypothesis size_ok : length jobs <= size.

(** Marks are only added, each for a reason, and [changed] says whether any was. *)
Record marks (keep keep' : list bool) (changed changed' : bool) : Prop := Marks {
  mk_length : length keep' = size;
  mk_kept : forall i, keep !! i = Some true -> keep' !! i = Some true;
  mk_wanted : (forall i, keep !! i = Some true -> wanted jobs ids i) -> forall i, keep' !! i = Some true -> wanted jobs ids i;
  mk_same : changed' = false -> keep' = keep /\ changed = false;
  mk_more : changed' = true -> changed = true \/ trues keep < trues keep';
  mk_count : trues keep <= trues keep';
}.

Lemma marks_refl keep changed : length keep = size -> marks keep keep changed changed.
Proof. intros Hl. constructor; auto. Qed.

Lemma marks_trans k1 k2 k3 c1 c2 c3 : marks k1 k2 c1 c2 -> marks k2 k3 c2 c3 -> marks k1 k3 c1 c3.
Proof.
  intros [A1 A2 A3 A4 A5 A6] [B1 B2 B3 B4 B5 B6]. constructor; auto; try lia.
  - intros Hc. destruct (B4 Hc) as [-> Hc2]. by apply A4.
  - intros Hc. destruct (B5 Hc) as [Hc2|]; [| right; lia]. destruct (A5 Hc2); [by left | right; lia].
Qed.

Lemma found_lt id i : find_job jobs id = Some i -> i < length jobs.
Proof. intros H. destruct (find_job_found _ _ _ H) as (j & Hj & _). by eapply lookup_lt_Some. Qed.

(** All needs of [j] are marked behind it. *)
Definition needs_marked (keep : list bool) (needs : list string) : Prop :=
  forall id d, id ∈ needs -> find_job jobs id = Some d -> keep !! d = Some true.

Lemma mark_needs_ok i j needs keep changed : jobs !! i = Some j -> (forall id, id ∈ needs -> id ∈ jb_needs j) ->
  length keep = size -> keep !! i = Some true ->
  returns (mark_needs jobs needs keep changed) (fun r => marks keep (fst r) changed (snd r) /\ needs_marked (fst r) needs).
Proof.
  intros Hj. revert keep changed. induction needs as [|id needs IH]; intros keep changed Hin Hl Hi; cbn [mark_needs].
  - apply returns_ret. split; [by apply marks_refl | by intros ? ? ?%not_elem_of_nil].
  - destruct (known_jobs i (dag_job j) id) as [d Hd]; [by rewrite list_lookup_fmap, Hj | apply Hin; by left |].
    rewrite find_job_dag in Hd. rewrite Hd. pose proof (found_lt _ _ Hd) as Hlt.
    destruct (lookup_lt_is_Some_2 keep d ltac:(lia)) as [k Hk]. eapply returns_read; [exact Hk |]. destruct k.
    + eapply returns_mono; [apply IH; [set_solver | done | done] |]. intros [keep' c'] [Hm Hn]. split; [done |].
      intros id' d' [->|Hid']%elem_of_cons Hd'; [| by eapply Hn]. rewrite Hd in Hd'. injection Hd' as <-. by apply (mk_kept _ _ _ _ Hm).
    + apply returns_write; [lia |].
      assert (Hm1 : marks keep (<[d := true]> keep) changed true).
      { constructor.
        - by rewrite length_insert.
        - intros i' Hi'. destruct (decide (i' = d)) as [->|]; [by rewrite list_lookup_insert_eq by lia | by rewrite list_lookup_insert_ne].
        - intros Hw i' Hi'. destruct (decide (i' = d)) as [->|]; [| rewrite list_lookup_insert_ne in Hi' by done; auto].
          destruct (Hw i Hi) as (c0 & c & Hc & Hf & Hr). exists c0, c. split_and!; [done | done |].
          eapply rtc_r; [exact Hr |]. apply job_edge. exists j, id. split_and!; [done | apply Hin; by left | done].
        - done.
        - intros _. right. rewrite trues_insert by done. lia.
        - rewrite trues_insert by done. lia. }
      eapply returns_mono; [apply IH; [set_solver | by rewrite length_insert | by apply (mk_kept _ _ _ _ Hm1)] |].
      intros [keep' c'] [Hm Hn]. cbn [fst snd] in *. split; [by eapply marks_trans |].
      intros id' d' [->|Hid']%elem_of_cons Hd'; [| by eapply Hn]. rewrite Hd in Hd'. injection Hd' as <-.
      apply (mk_kept _ _ _ _ Hm). apply list_lookup_insert_eq. lia.
Qed.

Lemma mark_pass_ok i rest keep changed : drop i jobs = rest -> length keep = size ->
  returns (mark_pass jobs i rest keep changed) (fun r => marks keep (fst r) changed (snd r) /\
    (snd r = false -> forall k j, i <= k -> jobs !! k = Some j -> keep !! k = Some true -> needs_marked keep (jb_needs j))).
Proof.
  revert i keep changed. induction rest as [|j rest IH]; intros i keep changed Hr Hl; cbn [mark_pass].
  - apply returns_ret. split; [by apply marks_refl |]. intros _ k j Hk Hj. apply lookup_lt_Some in Hj.
    apply (f_equal length) in Hr. rewrite length_drop in Hr. cbn in Hr. lia.
  - assert (Hj : jobs !! i = Some j). { rewrite <- (Nat.add_0_r i), <- lookup_drop, Hr. done. }
    assert (Hrest : drop (S i) jobs = rest). { rewrite <- Nat.add_1_r, <- drop_drop, Hr. done. }
    pose proof (lookup_lt_Some _ _ _ Hj). destruct (lookup_lt_is_Some_2 keep i ltac:(lia)) as [b Hb]. eapply returns_read; [exact Hb |].
    assert (H1 : returns (if b then mark_needs jobs (jb_needs j) keep changed else mret (keep, changed))
      (fun r => marks keep (fst r) changed (snd r) /\ (b = true -> needs_marked (fst r) (jb_needs j)))).
    { destruct b; [| apply returns_ret; split; [by apply marks_refl | done]].
      eapply returns_mono; [by eapply mark_needs_ok; [exact Hj | auto | done | done] |]. intros r [? ?]. by split. }
    eapply returns_bind; [exact H1 |]. intros [keep1 c1] [Hm1 Hn1]. cbn [fst snd] in *.
    eapply returns_mono; [apply IH; [done | apply Hm1] |]. intros [keep2 c2] [Hm2 Hn2]. cbn [fst snd] in *.
    split; [by eapply marks_trans |]. intros -> k j' Hk Hj' Hkeep.
    destruct (mk_same _ _ _ _ Hm2 eq_refl) as [-> ->]. destruct (mk_same _ _ _ _ Hm1 eq_refl) as [-> ->].
    destruct (decide (k = i)) as [->|]; [| apply (Hn2 eq_refl k j'); [lia | done | done]].
    rewrite Hj in Hj'. injection Hj' as <-. apply Hn1. congruence.
Qed.

(** Closed under needs. *)
Definition closed (keep : list bool) : Prop := forall i d, edge (dag_job <$> jobs) i d -> keep !! i = Some true -> keep !! d = Some true.

Lemma mark_all_ok fuel keep : length keep = size -> size - trues keep < fuel -> (forall i, keep !! i = Some true -> wanted jobs ids i) ->
  returns (mark_all fuel jobs keep) (fun keep' => length keep' = size /\ (forall i, keep !! i = Some true -> keep' !! i = Some true) /\
    (forall i, keep' !! i = Some true -> wanted jobs ids i) /\ closed keep').
Proof.
  revert keep. induction fuel as [|fuel IH]; intros keep Hl Hf Hw; [lia |]. cbn [mark_all].
  eapply returns_bind; [apply (mark_pass_ok 0 jobs keep false eq_refl Hl) |]. intros [keep1 c1] [[M1 M2 M3 M4 M5 M6] Hc]. cbn [fst snd] in *.
  destruct c1.
  - destruct (M5 eq_refl) as [|Hlt]; [done |]. pose proof (trues_le keep1).
    eapply returns_mono; [apply IH; [done | lia | auto] |]. intros keep' (H1 & H2 & H3 & H4). split_and!; auto.
  - destruct (M4 eq_refl) as [-> _]. apply returns_ret. split_and!; [done | done | done |].
    intros i d (j & id & Hj & Hid & Hd)%job_edge Hi. by apply (Hc eq_refl i j ltac:(lia) Hj Hi id d).
Qed.

Lemma choose_ok todo keep : (forall id, id ∈ todo -> id ∈ ids) -> length keep = size ->
  (forall i, keep !! i = Some true -> wanted jobs ids i) ->
  returns (choose jobs todo keep) (fun r => match r with
    | inl keep' => length keep' = size /\ (forall i, keep !! i = Some true -> keep' !! i = Some true) /\
        (forall i, keep' !! i = Some true -> wanted jobs ids i) /\
        (forall id, id ∈ todo -> exists i, find_job jobs id = Some i /\ keep' !! i = Some true)
    | inr id => id ∈ todo /\ find_job jobs id = None
    end).
Proof.
  revert keep. induction todo as [|id todo IH]; intros keep Hin Hl Hw; cbn [choose].
  - apply returns_ret. split_and!; [done | done | done | set_solver].
  - destruct (find_job jobs id) as [i|] eqn:Hi; [| apply returns_ret; split; [set_solver | done]].
    pose proof (found_lt _ _ Hi). apply returns_write; [lia |].
    assert (Hone : <[i := true]> keep !! i = Some true) by (apply list_lookup_insert_eq; lia).
    eapply returns_mono; [apply IH; [set_solver | by rewrite length_insert |] |].
    + intros i' Hi'. destruct (decide (i' = i)) as [->|]; [| rewrite list_lookup_insert_ne in Hi' by done; auto].
      exists id, i. split_and!; [apply Hin; by left | done | apply rtc_refl].
    + intros [keep'|id'].
      * intros (H1 & H2 & H3 & H4). split_and!; [done | | done |].
        -- intros i' Hi'. apply H2. destruct (decide (i' = i)) as [->|]; [done | by rewrite list_lookup_insert_ne].
        -- intros id' [->|Hid']%elem_of_cons; [| auto]. exists i. auto.
      * intros [? ?]. split; [set_solver | done].
Qed.
End marking.

(** ** The list that is left *)

(** The old places of what is kept, from place [i] on. *)
Fixpoint places (i : nat) (keep : list bool) : list nat :=
  match keep with
  | [] => []
  | k :: keep => if (k : bool) then i :: places (S i) keep else places (S i) keep
  end.

Lemma compact_lookup keep jobs i k a j' : compact keep jobs k !! a = Some j' ->
  exists d j, places i keep !! a = Some (i + d) /\ jobs !! d = Some j /\ keep !! d = Some true /\ j' = j <| jb_index := k + a |>.
Proof.
  revert jobs i k a. induction keep as [|b keep IH]; intros [|j jobs] i k a Ha; try done. cbn [compact places] in *. destruct b.
  - destruct a as [|a].
    + injection Ha as <-. exists 0, j. cbn. rewrite !Nat.add_0_r. done.
    + destruct (IH jobs (S i) (S k) a Ha) as (d & j0 & H1 & H2 & H3 & ->). exists (S d), j0. cbn.
      split_and!; [change (places (S i) keep !! a = Some (i + S d)); rewrite H1; f_equal; lia | done | done | by rewrite Nat.add_succ_r].
  - destruct (IH jobs (S i) k a Ha) as (d & j0 & H1 & H2 & H3 & ->). exists (S d), j0. cbn.
    split_and!; [rewrite H1; f_equal; lia | done | done | done].
Qed.

Lemma find_compact keep jobs id i k n d : find_from jobs i id = Some d -> keep !! (d - i) = Some true ->
  exists b, find_from (compact keep jobs k) n id = Some (n + b) /\ places i keep !! b = Some d.
Proof.
  revert keep i k n. induction jobs as [|j jobs IH]; intros [|x keep] i k n Hf Hk; try done. cbn [find_from compact places] in *.
  destruct (decide (jb_id j = id)) as [Hid|Hid].
  - injection Hf as <-. rewrite Nat.sub_diag in Hk. injection Hk as ->. cbn [find_from]. rewrite decide_True by done.
    exists 0. by rewrite Nat.add_0_r.
  - destruct (find_from_found _ _ _ _ Hf) as (_ & _ & _ & Hle). replace (d - i) with (S (d - S i)) in Hk by lia. cbn in Hk. destruct x.
    + cbn [find_from]. rewrite decide_False by done. destruct (IH keep (S i) (S k) (S n) Hf Hk) as (b & -> & Hb). exists (S b).
      split; [f_equal; lia | done].
    + apply (IH keep (S i) k n Hf Hk).
Qed.

Section kept.
Context (jobs : list job) (keep : list bool).
Hypothesis known_jobs : known (dag_job <$> jobs).
Hypothesis acyclic_jobs : acyclic (dag_job <$> jobs).
Hypothesis closed_keep : closed jobs keep.

Lemma kept_need a j id : compact keep jobs 0 !! a = Some j -> id ∈ jb_needs j ->
  exists i b d, places 0 keep !! a = Some i /\ find_job (compact keep jobs 0) id = Some b /\ places 0 keep !! b = Some d /\
    edge (dag_job <$> jobs) i d.
Proof.
  intros Ha Hid. destruct (compact_lookup _ _ 0 _ _ _ Ha) as (i & j0 & Hi & Hj & Hk & ->). cbn in Hid.
  destruct (known_jobs i (dag_job j0) id) as [d Hd]; [by rewrite list_lookup_fmap, Hj | done |]. rewrite find_job_dag in Hd.
  assert (He : edge (dag_job <$> jobs) i d) by (apply job_edge; eauto).
  destruct (find_compact keep jobs id 0 0 0 d Hd) as (b & Hb & Hp); [rewrite Nat.sub_0_r; by eapply closed_keep |].
  exists i, b, d. done.
Qed.

Lemma kept_known : known (dag_job <$> compact keep jobs 0).
Proof.
  intros a jd id Ha Hid. rewrite list_lookup_fmap in Ha. destruct (compact keep jobs 0 !! a) as [j|] eqn:Ej; [| done]. injection Ha as <-.
  destruct (kept_need a j id Ej Hid) as (i & b & d & _ & Hb & _). rewrite find_job_dag, Hb. by eexists.
Qed.

Lemma kept_edge a b : edge (dag_job <$> compact keep jobs 0) a b ->
  edge (dag_job <$> jobs) (places 0 keep !!! a) (places 0 keep !!! b).
Proof.
  intros (j & id & Hj & Hid & Hb)%job_edge. destruct (kept_need a j id Hj Hid) as (i & b' & d & Hi & Hb' & Hd & He).
  rewrite Hb in Hb'. injection Hb' as <-. by rewrite (list_lookup_total_correct _ _ _ Hi), (list_lookup_total_correct _ _ _ Hd).
Qed.

Lemma kept_acyclic : acyclic (dag_job <$> compact keep jobs 0).
Proof.
  intros a Ha. apply (acyclic_jobs (places 0 keep !!! a)).
  assert (H : forall x y, tc (edge (dag_job <$> compact keep jobs 0)) x y -> tc (edge (dag_job <$> jobs)) (places 0 keep !!! x) (places 0 keep !!! y)).
  { intros x y. induction 1 as [x y He|x y z He _ IH]; [by apply tc_once, kept_edge | eapply tc_l; [by apply kept_edge | done]]. }
  by apply H.
Qed.
End kept.

Lemma compact_fresh keep jobs k : Forall fresh jobs -> Forall fresh (compact keep jobs k).
Proof.
  intros H. revert keep k. induction H as [|j jobs Hj _ IH]; intros [|[] keep] k; cbn; try constructor; auto.
  destruct Hj as [F1 [U1 U2 [] U4] F3 F4]. constructor; [done | | done | done]. constructor; [done | done | by constructor | done].
Qed.

(** What [select_jobs] comes to. *)
Lemma select_ok {W} (env : environment W) v mem jobs ids : startable env jobs v ->
  exists r, select_jobs mem jobs ids = CRet r /\
  match r with
  | Selected kept => startable env kept v /\ (forall id, id ∈ ids -> is_Some (find_job jobs id)) /\
      exists keep, kept = compact keep jobs 0 /\ forall i, keep !! i = Some true <-> wanted jobs ids i
  | NoSuchJob id => id ∈ ids /\ find_job jobs id = None
  | SelectNoMemory => mem <> []
  end.
Proof.
  intros [H1 H2 H3 H4]. destruct (validated_graph _ H3) as [Hk Ha]. unfold select_jobs.
  destruct (alloc mem) as [ok mem'] eqn:Em. destruct ok; cbn [negb].
  2: { eexists. split; [done |]. by destruct mem. }
  set (size := if length jobs =? 0 then 1 else length jobs).
  assert (Hsize : length jobs <= size) by (unfold size; destruct (Nat.eqb_spec (length jobs) 0); lia).
  destruct (choose_ok jobs ids size Hk Hsize ids (replicate size false)) as (r & -> & Hr); [done | apply length_replicate | |].
  { intros i Hi. apply lookup_replicate in Hi as [? _]. done. }
  cstep. destruct r as [keep|id]; [| by exists (NoSuchJob id)]. destruct Hr as (Hl & _ & Hw & Hc).
  destruct (mark_all_ok jobs ids size Hk Hsize (S (length keep)) keep Hl) as (keep' & -> & Hl' & Hk' & Hw' & Hcl); [| done |].
  { lia. }
  eexists. split; [done |]. split_and!.
  - constructor; [done | by apply compact_fresh | | done].
    destruct (check_exact (dag_job <$> compact keep' jobs 0)) as [(st & e & E & Hok) _]. exists e. rewrite E.
    f_equal. f_equal. apply Hok. split; [by apply kept_known | by apply kept_acyclic].
  - intros id Hid. destruct (Hc id Hid) as (i & -> & _). by eexists.
  - exists keep'. split; [done |]. intros i. split; [apply Hw' |]. intros (id & c & Hid & Hf & Hrtc).
    destruct (Hc id Hid) as (c' & Hf' & Hkc). rewrite Hf in Hf'. injection Hf' as <-. apply Hk' in Hkc.
    clear -Hrtc Hkc Hcl. induction Hrtc as [|x y z He _ IH]; [done |]. apply IH. by eapply Hcl.
Qed.

(** C33. [--job] keeps the chosen jobs and everything they need, directly or
    through others, and nothing else, in their order; the marking loop ends within
    as many passes as there are jobs and one; a name that is no job's is reported.
    What is left can be run as the whole workflow could: every need names a job
    that was kept, and no job needs itself. *)
Theorem select_exact {W} (env : environment W) v mem jobs ids : startable env jobs v ->
  exists r, select_jobs mem jobs ids = CRet r /\
  match r with
  | Selected kept => startable env kept v /\ (forall id, id ∈ ids -> is_Some (find_job jobs id)) /\
      exists keep, kept = compact keep jobs 0 /\ forall i, keep !! i = Some true <-> wanted jobs ids i
  | NoSuchJob id => id ∈ ids /\ find_job jobs id = None
  | SelectNoMemory => mem <> []
  end.
Proof. apply select_ok. Qed.

(** [a] needs [b], [b] needs [c]; [d] is alone.  [--job b] keeps [b] and [c]. *)
Definition four_jobs : list job :=
  [job0 0 "a" "local" ["b"%string] [Sample.step] 0; job0 1 "b" "local" ["c"%string] [Sample.step] 0;
   job0 2 "c" "local" [] [Sample.step] 0; job0 3 "d" "local" [] [Sample.step] 0].

Lemma four_startable : startable Sample.env four_jobs (Some Sample.two).
Proof.
  destruct Sample.sample_startable as [S1 _ _ S4]. constructor; [done | by repeat constructor | | done].
  eexists. vm_compute. reflexivity.
Qed.

Lemma select_exact_witness :
  (exists kept, select_jobs [] four_jobs ["b"%string] = CRet (Selected kept) /\ jb_id <$> kept = ["b"; "c"]%string) /\
  exists r, select_jobs [] four_jobs ["b"%string] = CRet r /\
  match r with
  | Selected kept => startable Sample.env kept (Some Sample.two) /\ (forall id, id ∈ ["b"%string] -> is_Some (find_job four_jobs id)) /\
      exists keep, kept = compact keep four_jobs 0 /\ forall i, keep !! i = Some true <-> wanted four_jobs ["b"%string] i
  | NoSuchJob id => id ∈ ["b"%string] /\ find_job four_jobs id = None
  | SelectNoMemory => ([] : list bool) <> []
  end.
Proof.
  split; [eexists; split; vm_compute; reflexivity |].
  apply (select_exact Sample.env (Some Sample.two) [] four_jobs ["b"%string]), four_startable.
Defined.

(** ** The note on skipped jobs *)

Definition is_disabled (j : job) : bool :=
  match jb_detail j, jb_reason j with
  | Some _, Some reason => String.eqb reason "target-disabled"
  | _, _ => false
  end.

Lemma in_jobs_cons j jobs t : (exists j', j' ∈ j :: jobs /\ is_disabled j' = true /\ jb_target j' = t) <->
  (is_disabled j = true /\ jb_target j = t) \/ exists j', j' ∈ jobs /\ is_disabled j' = true /\ jb_target j' = t.
Proof.
  split.
  - intros (j' & [->|Hj]%elem_of_cons & Hd & Ht); [by left | right; by exists j'].
  - intros [[Hd Ht]|(j' & Hj & Hd & Ht)]; [exists j | exists j']; (split; [| done]); [by left | by right].
Qed.

Definition add_target (seen : list (string * string)) (target detail : string) : list (string * string) :=
  if existsb (fun s => String.eqb (fst s) target) seen then seen else seen ++ [(target, detail)].

Lemma add_target_ok seen target detail : NoDup (fst <$> seen) ->
  NoDup (fst <$> add_target seen target detail) /\
  forall t, t ∈ (fst <$> add_target seen target detail) <-> t ∈ (fst <$> seen) \/ target = t.
Proof.
  intros Hn. unfold add_target. destruct (existsb _ seen) eqn:He.
  - split; [done |]. intros t. split; [by left | intros [?|<-]; [done |]].
    apply existsb_exists in He as (s & Hs%list_elem_of_In & Es%String.eqb_eq). rewrite <- Es. by apply list_elem_of_fmap_2.
  - assert (Hnot : target ∉ (fst <$> seen)).
    { intros (s & -> & Hs)%list_elem_of_fmap. apply not_true_iff_false in He. apply He, existsb_exists. exists s.
      split; [by apply list_elem_of_In | apply String.eqb_refl]. }
    rewrite fmap_app. split.
    + apply NoDup_app. split_and!; [done | | apply NoDup_singleton]. intros t Ht Ht'. apply list_elem_of_singleton in Ht'. by subst.
    + intros t. rewrite elem_of_app. cbn. rewrite list_elem_of_singleton. naive_solver.
Qed.

(** The note counts every job skipped for its target, and names each such target
    once. *)
Lemma disabled_targets_exact jobs n seen : NoDup (fst <$> seen) ->
  let '(skipped, seen') := disabled_targets jobs n seen in
  skipped = n + length (filter (fun j => is_disabled j = true) jobs) /\ NoDup (fst <$> seen') /\
  forall t, t ∈ (fst <$> seen') <-> t ∈ (fst <$> seen) \/ exists j, j ∈ jobs /\ is_disabled j = true /\ jb_target j = t.
Proof.
  revert n seen. induction jobs as [|j jobs IH]; intros n seen Hn.
  - cbn. split_and!; [lia | done |]. intros t. split; [by left | intros [?|(? & ?%not_elem_of_nil & _)]; done].
  - assert (E : disabled_targets (j :: jobs) n seen =
      if is_disabled j then disabled_targets jobs (S n) (add_target seen (jb_target j) (default ""%string (jb_detail j))) else disabled_targets jobs n seen).
    { unfold is_disabled. cbn [disabled_targets]. by destruct (jb_detail j), (jb_reason j). }
    rewrite E. destruct (is_disabled j) eqn:Hd.
    + destruct (add_target_ok seen (jb_target j) (default ""%string (jb_detail j)) Hn) as [Hn' Ht].
      specialize (IH (S n) _ Hn'). destruct (disabled_targets jobs _ _) as [skipped seen']. destruct IH as (-> & H2 & H3).
      rewrite filter_cons_True by done. split_and!; [cbn; lia | done |]. intros t. rewrite H3, Ht, in_jobs_cons, Hd. naive_solver.
    + specialize (IH n _ Hn). destruct (disabled_targets jobs _ _) as [skipped seen']. destruct IH as (-> & H2 & H3).
      rewrite filter_cons_False by (by rewrite Hd). split_and!; [done | done |]. intros t. rewrite H3, in_jobs_cons, Hd. naive_solver.
Qed.
