(* ===== verification/Validate.v ===== *)
(** * Validation

    Models [src/kernel/validate.c].  The schema checks are Lua
    ([qwe.validate], [qwe.inventory]): what their calls give is an argument.  The
    C code puts a position to each error, adds the repeated keys and the check of
    the [needs:] graph, and prints everything in source order.  Allocations answer
    as in [Redact]; the jobs of the document are the entries of [Jobs]. *)

From Stdlib Require Import Ascii String NArith ZArith Lia.
From stdpp Require Import base sets list strings sorting.
From S2P Require Import Prelude Cstr Redact Fmt Dag Jobs Positions.

(** ** Problems *)

Record problem := Problem { pr_pos : qwe_pos; pr_message : bytes }.

Record problems := Problems { ps_v : list problem; ps_vcap : nat; ps_oom : bool }.

#[export] Instance problems_eta : Eta problems := fun ps => Problems (ps_v ps) (ps_vcap ps) (ps_oom ps).

Definition no_problems : problems := Problems [] 0 false.

(** Everything below takes the answers of the allocations and the problems so
    far, and gives what is left of both. *)
Definition vstate : Type := list bool * problems.

Definition no_memory (s : vstate) : vstate := (fst s, (snd s) <| ps_oom := true |>).

Definition add (s : vstate) (pos : qwe_pos) (message : bytes) : vstate :=
  let '(mem, ps) := s in
  let full := length (ps_v ps) =? ps_vcap ps in
  let '(ok, mem) := if full then alloc mem else (true, mem) in
  if negb ok then no_memory (mem, ps)
  else
    let ps := if full then ps <| ps_vcap := if ps_vcap ps =? 0 then 16 else ps_vcap ps * 2 |> else ps in
    let '(ok, mem) := alloc mem in
    if negb ok then no_memory (mem, ps)
    else (mem, ps <| ps_v := ps_v ps ++ [Problem pos message] |>).

(** ** Positions *)

(** The loop of [locate]: the pointer is cut at its last slash until something is
    found. *)
Fixpoint locate_loop (fuel : nat) (table : qwe_positions) (p : bytes) (first want_key : bool) : cres qwe_pos :=
  match fuel with
  | 0 => CFuel
  | S fuel =>
      found ← (if first && want_key then qwe_positions_key table p else qwe_positions_value table p);
      match found with
      | Some pos => mret pos
      | None =>
          match strrchr "/" p with
          | None => mret (Pos 1 1)
          | Some (p, _) => locate_loop fuel table p false want_key
          end
      end
  end.

Definition locate (s : vstate) (table : qwe_positions) (pointer : bytes) (want_key : bool) : cres (vstate * qwe_pos) :=
  let '(mem, ps) := s in
  let '(ok, mem) := alloc mem in
  if negb ok then mret (no_memory (mem, ps), Pos 1 1)
  else pos ← locate_loop (S (length pointer)) table pointer true want_key; mret ((mem, ps), pos).

(** ** Tokens of a pointer *)

Fixpoint escape_token (s : bytes) : bytes :=
  match s with
  | [] => []
  | c :: s =>
      if Ascii.eqb c "~" then "~"%char :: "0"%char :: escape_token s
      else if Ascii.eqb c "/" then "~"%char :: "1"%char :: escape_token s
      else c :: escape_token s
  end.

Fixpoint unescape (tok : bytes) : bytes :=
  match tok with
  | [] => []
  | c :: tok' =>
      match tok' with
      | d :: rest =>
          if Ascii.eqb c "~" && Ascii.eqb d "1" then "/"%char :: unescape rest
          else if Ascii.eqb c "~" && Ascii.eqb d "0" then "~"%char :: unescape rest
          else c :: unescape tok'
      | [] => [c]
      end
  end.

Definition last_token (pointer : bytes) : bytes :=
  unescape (match strrchr "/" pointer with Some (_, tok) => tok | None => pointer end).

(** ** The needs graph *)

(** The copies of the needs; one that is no string would be [strdup(NULL)]. *)
Fixpoint copy_needs (mem : list bool) (l : list (option string)) : cres (list bool * option (list string)) :=
  match l with
  | [] => mret (mem, Some [])
  | None :: _ => CUndef
  | Some need :: l =>
      let '(ok, mem) := alloc mem in
      if negb ok then mret (mem, None)
      else
        '(mem, r) ← copy_needs mem l;
        mret (mem, option_map (cons need) r)
  end.

Fixpoint dag_jobs (mem : list bool) (entries : list (string * job_table)) : cres (list bool * option (list qwe_dag_job)) :=
  match entries with
  | [] => mret (mem, Some [])
  | (id, t) :: entries =>
      '(mem, needs) ← match tb_needs t with
                      | None => mret (mem, Some [])
                      | Some l => let '(ok, mem) := alloc mem in if ok then copy_needs mem l else mret (mem, None)
                      end;
      match needs with
      | None => mret (mem, None)
      | Some needs =>
          '(mem, r) ← dag_jobs mem entries;
          mret (mem, option_map (cons (DagJob id needs)) r)
      end
  end.

(** The pointer of what the graph check objects to: [ptr] has room for it. *)
Definition dag_pointer (st : qwe_dag_status) (tok : bytes) (need : nat) : cres bytes :=
  let size := length tok + 64 in
  match st with
  | QWE_DAG_NO_MEMORY => qwe_xfmt size (bytes_of "/jobs")
  | QWE_DAG_UNKNOWN_NEED => qwe_xfmt size (bytes_of "/jobs/" ++ tok ++ bytes_of "/needs/" ++ dec (Z.of_nat need))
  | _ => qwe_xfmt size (bytes_of "/jobs/" ++ tok)
  end.

Definition report_dag (s : vstate) (table : qwe_positions) (jobs : list qwe_dag_job) (st : qwe_dag_status) (err : qwe_dag_error) :
    cres vstate :=
  let '(mem, ps) := s in
  id ← (if st is QWE_DAG_NO_MEMORY then mret [] else j ← cread jobs (de_job err); mret (bytes_of (dj_id j)));
  let '(ok, mem) := alloc mem in
  if negb ok then mret (no_memory (mem, ps))
  else
    let '(ok, mem) := alloc mem in
    if negb ok then mret (no_memory (mem, ps))
    else
      ptr ← dag_pointer st (escape_token id) (de_need err);
      '(s, pos) ← locate (mem, ps) table ptr (if st is QWE_DAG_CYCLE then true else false);
      mret (add s pos (de_message err)).

Definition check_dag (s : vstate) (entries : list (string * job_table)) (table : qwe_positions) : cres vstate :=
  let '(mem, ps) := s in
  let '(mem, ok) := load_ids mem 0 0 entries in
  if negb ok then mret (no_memory (mem, ps))
  else
    let '(ok, mem) := alloc mem in
    if negb ok then mret (no_memory (mem, ps))
    else
      let '(ok, mem) := alloc mem in
      if negb ok then mret (no_memory (mem, ps))
      else
        '(mem, jobs) ← dag_jobs mem (merge_sort cmp_job entries);
        match jobs with
        | None => mret (no_memory (mem, ps))
        | Some jobs =>
            (* the two arrays of the check; they are not tried if a need is unknown *)
            let '(ok1, mem1) := alloc mem in
            let '(ok2, mem2) := alloc mem1 in
            '(st, err) ← qwe_dag_check (ok1 && ok2) jobs;
            let mem := if st is QWE_DAG_UNKNOWN_NEED then mem else mem2 in
            if decide (st = QWE_DAG_OK) then mret (mem, ps) else report_dag (mem, ps) table jobs st err
        end.

(** ** What Lua found *)

(** The fields of an error; [None]: not a string. *)
Record lua_error := LuaError { le_pointer : option bytes; le_kind : option bytes; le_message : option bytes }.

Fixpoint collect_errors (s : vstate) (errors : list lua_error) (table : qwe_positions) : cres vstate :=
  match errors with
  | [] => mret s
  | e :: errors =>
      '(s, pos) ← locate s table (default [] (le_pointer e)) (bool_decide (le_kind e = Some (bytes_of "key")));
      collect_errors (add s pos (default (bytes_of "invalid") (le_message e))) errors table
  end.

Definition duplicate_message (key : bytes) (first : qwe_pos) : bytes :=
  qwe_msg 512 (bytes_of "duplicate key " ++ DQ :: key ++ DQ :: bytes_of " (first at line " ++ dec (p_line first) ++ bytes_of ")").

Definition add_duplicate (s : vstate) (d : bytes * qwe_pos * qwe_pos) : vstate :=
  let '(pointer, first, second) := d in
  let '(mem, ps) := s in
  let '(ok, mem) := alloc mem in
  if negb ok then no_memory (mem, ps)
  else add (mem, ps) second (duplicate_message (last_token pointer) first).

Definition collect_duplicates (s : vstate) (table : qwe_positions) : vstate :=
  foldl add_duplicate s (qwe_positions_duplicates table).

(** ** The report *)

Definition cmp_problem (x y : problem) : comparison :=
  match cmp_pos (pr_pos x) (pr_pos y) with
  | Eq => strcmp (pr_message x) (pr_message y)
  | c => c
  end.

Definition problem_le (x y : problem) : Prop := cmp_problem x y <> Gt.

#[export] Instance problem_le_dec : RelDecision problem_le.
Proof. intros x y. unfold problem_le. destruct (cmp_problem x y); [left | left | right]; congruence. Defined.

Definition problem_line (cmd path : bytes) (p : problem) : bytes :=
  cmd ++ bytes_of ": " ++ path ++ bytes_of ":" ++ dec (p_line (pr_pos p)) ++ bytes_of ":" ++ dec (p_col (pr_pos p)) ++
  bytes_of ": " ++ pr_message p ++ [NL].

Definition oom_line (cmd path : bytes) : bytes :=
  cmd ++ bytes_of ": " ++ path ++ bytes_of ": out of memory while checking the workflow" ++ [NL].

Definition print_problems (ps : problems) (cmd path : bytes) : list bytes :=
  (problem_line cmd path <$> qsort problem_le (ps_v ps)) ++ (if ps_oom ps then [oom_line cmd path] else []).

Definition plugin_line (cmd : bytes) (p : bytes * bytes) : bytes :=
  cmd ++ bytes_of ": " ++ fst p ++ bytes_of ": " ++ snd p ++ [NL].

Fixpoint is_prefix (p s : bytes) : bool :=
  match p, s with
  | [], _ => true
  | x :: p, y :: s => Ascii.eqb x y && is_prefix p s
  | _ :: _, [] => false
  end.

(** Whether [strstr(s, needle)] finds it. *)
Fixpoint strstr (s needle : bytes) : bool :=
  is_prefix needle s || match s with [] => false | _ :: s => strstr s needle end.

Definition report_internal_error (msg : option bytes) (cmd label path : bytes) : list bytes :=
  match msg with
  | Some m =>
      if strstr m (bytes_of "malloc failed") || strstr m (bytes_of "memory") then [oom_line cmd path]
      else [cmd ++ bytes_of ": " ++ path ++ bytes_of ": internal error in the " ++ label ++ bytes_of ": " ++ m ++ [NL]]
  | None => [cmd ++ bytes_of ": " ++ path ++ bytes_of ": internal error in the " ++ label ++ bytes_of ": unknown error" ++ [NL]]
  end.

(** The directory the workflow is in. *)
Definition workflow_dir (path : bytes) : bytes := match strrchr "/" path with Some (dir, _) => dir | None => [] end.

(** A protected call of Lua: the error it raised, if any, or what it gave. *)
Definition pcall (A : Type) : Type := option bytes + A.

(** The count, and the lines printed, in order.  [validator]: loading the module
    and what [validate_project] gives for a directory: the errors of the
    workflow, and those of the project's plugins.  [tables]: what reading the jobs
    gives, where it comes to that. *)
Definition qwe_validate_doc (mem : list bool) (require : pcall unit) (validate_project : bytes -> pcall (list lua_error * list (bytes * bytes)))
    (tables : cres (list (string * job_table))) (table : qwe_positions) (cmd path : bytes) : cres (nat * list bytes) :=
  match require with
  | inl msg => mret (1, report_internal_error msg cmd (bytes_of "validator") path)
  | inr _ =>
      let '(ok, mem) := alloc mem in
      if negb ok then mret (1, [cmd ++ bytes_of ": " ++ path ++ bytes_of ": out of memory" ++ [NL]])
      else
        match validate_project (workflow_dir path) with
        | inl msg => mret (1, report_internal_error msg cmd (bytes_of "validator") path)
        | inr (errors, plugins) =>
            s ← collect_errors (mem, no_problems) errors table;
            let s := collect_duplicates s table in
            s ← (if (length (ps_v (snd s)) =? 0) && negb (ps_oom (snd s)) then entries ← tables; check_dag s entries table else mret s);
            let ps := snd s in
            let n := length (ps_v ps) + (if ps_oom ps then 1 else 0) in
            mret (n + length plugins, (plugin_line cmd <$> plugins) ++ print_problems ps cmd path)
        end
  end.

Definition qwe_validate_inventory (mem : list bool) (require : pcall unit) (validate : pcall (list lua_error))
    (table : qwe_positions) (cmd path : bytes) : cres (nat * list bytes) :=
  match require, validate with
  | inl msg, _ | _, inl msg => mret (1, report_internal_error msg cmd (bytes_of "inventory reader") path)
  | inr _, inr errors =>
      s ← collect_errors (mem, no_problems) errors table;
      let ps := snd (collect_duplicates s table) in
      mret (length (ps_v ps) + (if ps_oom ps then 1 else 0), print_problems ps cmd path)
  end.
