(* ===== verification/ValidateOk.v ===== *)
(** * Validation reports what there is

    Theorems about [Validate]: tokens of pointers, where an error is placed, what
    the count and the printed lines are, and that a workflow which passes can be
    loaded and run. *)

From Stdlib Require Import Ascii String NArith ZArith Lia SpecFloat.
From stdpp Require Import base sets list strings sorting.
From S2P Require Import Prelude Cstr Redact Fmt Dag Job Jobs Positions YamlSpec Yaml Run RunOk Validate.

(** ** Tokens *)

Lemma escape_token_mapped s : escape_token s = escape s.
Proof.
  induction s as [|c s IH]; [done |]. cbn [escape_token]. rewrite IH. unfold escape. cbn [fmap list_fmap mjoin list_join].
  unfold escaped. by destruct (Ascii.eqb c "~"), (Ascii.eqb c "/").
Qed.

Lemma escape_no_slash s : "/"%char ∉ escape_token s.
Proof.
  induction s as [|c s IH]; cbn; [set_solver |]. destruct (Ascii.eqb_spec c "~"); [set_solver |].
  destruct (Ascii.eqb_spec c "/"); set_solver.
Qed.

Lemma unescape_escape s : unescape (escape_token s) = s.
Proof.
  induction s as [|c s IH]; [done |]. cbn [escape_token]. destruct (Ascii.eqb_spec c "~") as [->|Hn]; [cbn; by rewrite IH |].
  destruct (Ascii.eqb_spec c "/") as [->|Hs]; [cbn; by rewrite IH |].
  cbn [unescape]. destruct (escape_token s) as [|d rest] eqn:E; [by rewrite <- IH |].
  rewrite (proj2 (Ascii.eqb_neq c "~")) by done. cbn [andb]. by rewrite IH.
Qed.

(** A key's token is read back as the key: the last token of the pointer that
    the transcoder gives a map entry, unescaped, is the key's text, whatever
    slashes and tildes it has; and the validator escapes as the transcoder does. *)
Theorem token_roundtrip path key : last_token (under path (escape key)) = key /\ escape_token key = escape key.
Proof.
  split; [| apply escape_token_mapped]. unfold last_token, under. change (bytes_of "/") with ["/"%char]. rewrite <- escape_token_mapped.
  cbn [app]. rewrite strrchr_app by apply escape_no_slash. apply unescape_escape.
Qed.

(** ** Where an error is placed *)

(** What a lookup of a pointer may give: an entry it has (the only one, where no key
    is repeated), or nothing if it has none. *)
Definition entry_at (p : qwe_positions) (ptr : bytes) (r : option entry) : Prop :=
  match r with
  | Some e => e ∈ ps_e p /\ e_pointer e = ptr
  | None => forall e, e ∈ ps_e p -> e_pointer e <> ptr
  end.

Definition value_at (p : qwe_positions) (ptr : bytes) (pos : option qwe_pos) : Prop := exists r, entry_at p ptr r /\ pos = r ≫= e_value.
Definition key_at (p : qwe_positions) (ptr : bytes) (pos : option qwe_pos) : Prop := exists r, entry_at p ptr r /\ pos = r ≫= e_key.

(** Without repeated keys there is one answer. *)
Lemma entry_at_unique p ptr r r' : NoDup (e_pointer <$> ps_e p) -> entry_at p ptr r -> entry_at p ptr r' -> r = r'.
Proof.
  intros Hu. destruct r as [e|], r' as [e'|]; cbn; try done.
  - intros [[i Hi]%list_elem_of_lookup He] [[j Hj]%list_elem_of_lookup He']. assert (i = j) as ->; [| congruence].
    apply (NoDup_lookup _ i j ptr Hu); rewrite list_lookup_fmap; [rewrite Hi | rewrite Hj]; cbn; congruence.
  - intros [Hin He] H. by destruct (H e Hin).
  - intros H [Hin He]. by destruct (H e' Hin).
Qed.

(** The position of the nearest node at or above a pointer. *)
Inductive nearest (p : qwe_positions) : bytes -> qwe_pos -> Prop :=
| near_here ptr pos : value_at p ptr (Some pos) -> nearest p ptr pos
| near_up before after pos : value_at p (before ++ "/"%char :: after) None -> "/"%char ∉ after ->
    nearest p before pos -> nearest p (before ++ "/"%char :: after) pos
| near_none ptr : value_at p ptr None -> "/"%char ∉ ptr -> nearest p ptr (Pos 1 1).

Inductive placed (p : qwe_positions) (want_key : bool) (ptr : bytes) : qwe_pos -> Prop :=
| placed_key pos : want_key = true -> key_at p ptr (Some pos) -> placed p want_key ptr pos
| placed_value pos : want_key = false -> nearest p ptr pos -> placed p want_key ptr pos
| placed_above before after pos : want_key = true -> key_at p ptr None -> ptr = before ++ "/"%char :: after -> "/"%char ∉ after ->
    nearest p before pos -> placed p want_key ptr pos
| placed_root : want_key = true -> key_at p ptr None -> "/"%char ∉ ptr -> placed p want_key ptr (Pos 1 1).

Lemma strrchr_no c s : strrchr c s = None -> c ∉ s.
Proof.
  induction s as [|x s IH]; cbn; [set_solver |]. destruct (strrchr c s) as [[? ?]|]; [done |].
  destruct (Ascii.eqb_spec x c); [done |]. set_solver.
Qed.

Lemma value_ok p ptr : exists v, qwe_positions_value (qwe_positions_finish p) ptr = CRet v /\ value_at p ptr v.
Proof. destruct (find_ok p ptr) as (r & E & Hr). exists (r ≫= e_value). unfold qwe_positions_value. rewrite E. split; [done | by exists r]. Qed.

Lemma key_ok p ptr : exists v, qwe_positions_key (qwe_positions_finish p) ptr = CRet v /\ key_at p ptr v.
Proof. destruct (find_ok p ptr) as (r & E & Hr). exists (r ≫= e_key). unfold qwe_positions_key. rewrite E. split; [done | by exists r]. Qed.

Lemma locate_value p fuel ptr wk : length ptr < fuel ->
  exists pos, locate_loop fuel (qwe_positions_finish p) ptr false wk = CRet pos /\ nearest p ptr pos.
Proof.
  revert ptr. induction fuel as [|fuel IH]; intros ptr Hf; [lia |]. cbn [locate_loop andb].
  destruct (value_ok p ptr) as (v & -> & Hv). cstep. destruct v as [pos|]; [exists pos; split; [done | by apply near_here] |].
  destruct (strrchr "/" ptr) as [[before after]|] eqn:Es.
  - apply strrchr_Some in Es as [-> Hs]. rewrite length_app in Hf. cbn in Hf. destruct (IH before ltac:(lia)) as (pos & -> & Hn).
    exists pos. split; [done | by apply near_up].
  - exists (Pos 1 1). split; [done | apply near_none; [done | by apply strrchr_no]].
Qed.

Lemma locate_placed p ptr wk : exists pos, locate_loop (S (length ptr)) (qwe_positions_finish p) ptr true wk = CRet pos /\ placed p wk ptr pos.
Proof.
  destruct wk.
  - cbn [locate_loop andb]. destruct (key_ok p ptr) as (v & -> & Hk). cstep. destruct v as [pos|]; [exists pos; split; [done | by apply placed_key] |].
    destruct (strrchr "/" ptr) as [[before after]|] eqn:Es.
    + apply strrchr_Some in Es as [-> Hs]. rewrite length_app. cbn [length].
      destruct (locate_value p (length before + S (length after)) before true ltac:(lia)) as (pos & -> & Hn).
      exists pos. split; [done | by eapply placed_above].
    + exists (Pos 1 1). split; [done | apply placed_root; [done | done | by apply strrchr_no]].
  - destruct (locate_value p (S (length ptr)) ptr false ltac:(lia)) as (pos & E & Hn). exists pos.
    split; [exact E | by apply placed_value].
Qed.

(** C37. An error is reported where it belongs, for every table of positions: at the
    key it blames, if that has a position; else at the value the pointer names, or
    the nearest one above it that the document has; and at 1:1 where there is none.
    A pointer that several entries have, since a key is repeated, is looked up in
    one of them (where none is, there is but one answer: [entry_at_unique]).  Without
    memory for a copy of the pointer that is recorded, in place of a position. *)
Theorem locate_exact mem ps p ptr wk :
  exists s pos, locate (mem, ps) (qwe_positions_finish p) ptr wk = CRet (s, pos) /\
    (ps_oom (snd s) = false -> placed p wk ptr pos) /\ (mem = [] -> s = ([], ps)).
Proof.
  unfold locate. destruct (alloc mem) as [ok mem'] eqn:Em. destruct ok; cbn [negb].
  - destruct (locate_placed p ptr wk) as (pos & -> & Hp). cstep. eexists _, pos. split_and!; [done | done |].
    intros ->. by injection Em as <-.
  - eexists _, _. split_and!; [done | done | by intros ->].
Qed.

(** [a: {b: 1}], and an error at the missing [/a/c]. *)
Definition small_table : qwe_positions :=
  Positions [Entry [] None (Some (Pos 1 1)); Entry (bytes_of "/a") (Some (Pos 1 1)) (Some (Pos 1 4));
    Entry (bytes_of "/a/b") (Some (Pos 1 5)) (Some (Pos 1 8))] 64.

(** A document in which a key is repeated: the error is at one of the two. *)
Lemma repeated_located : locate ([], no_problems) (qwe_positions_finish sample_table) (bytes_of "/b/x") false = CRet ([], no_problems, Pos 1 4).
Proof. by vm_compute. Qed.

(** ** What is recorded *)

(** From [s] to [s'] the problems [new] are recorded, or memory ran out. *)
Record adds (new : list problem) (s s' : vstate) : Prop := Adds {
  ad_or : ps_oom (snd s') = true \/ ps_v (snd s') = ps_v (snd s) ++ new /\ ps_oom (snd s') = ps_oom (snd s);
  ad_oom : ps_oom (snd s) = true -> ps_oom (snd s') = true;
  ad_mem : fst s = [] -> fst s' = [] /\ ps_v (snd s') = ps_v (snd s) ++ new /\ ps_oom (snd s') = ps_oom (snd s);
}.

Lemma adds_nil s mem : (fst s = [] -> mem = []) -> adds [] s (mem, snd s).
Proof. intros Hm. constructor; rewrite ?app_nil_r; cbn; auto. Qed.

Lemma adds_refl s : adds [] s s.
Proof. constructor; rewrite ?app_nil_r; auto. Qed.

Lemma adds_trans n1 n2 s1 s2 s3 : adds n1 s1 s2 -> adds n2 s2 s3 -> adds (n1 ++ n2) s1 s3.
Proof.
  intros [A1 A2 A3] [B1 B2 B3]. constructor.
  - destruct B1 as [B1|[B1 B4]]; [by left |]. destruct A1 as [A1|[A1 A4]]; [left; auto | right].
    rewrite B1, A1, app_assoc. split; [done | congruence].
  - auto.
  - intros Hm. destruct (A3 Hm) as (Hm2 & E1 & E2). destruct (B3 Hm2) as (Hm3 & E3 & E4).
    split_and!; [done | by rewrite E3, E1, app_assoc | congruence].
Qed.

Lemma adds_no_memory new s mem ps : fst s <> [] -> adds new s (no_memory (mem, ps)).
Proof. intros Hn. constructor; [by left | done | done]. Qed.

Lemma alloc_left mem ok mem' : alloc mem = (ok, mem') -> (mem = [] -> mem' = [] /\ ok = true).
Proof. intros H ->. by injection H as <- <-. Qed.

(** [if (!p) ps->oom = 1] *)
Ltac out_of_memory Hm := apply adds_no_memory; intros Hn; naive_solver.

Lemma add_ok s pos message : adds [Problem pos message] s (add s pos message).
Proof.
  destruct s as [mem ps]. unfold add.
  destruct (if length (ps_v ps) =? ps_vcap ps then alloc mem else (true, mem)) as [ok mem1] eqn:E1.
  assert (H1 : mem = [] -> mem1 = [] /\ ok = true).
  { intros ->. destruct (_ =? _); by injection E1 as <- <-. }
  destruct ok; cbn [negb]; [| apply adds_no_memory; cbn; naive_solver].
  destruct (alloc mem1) as [ok mem2] eqn:E2. pose proof (alloc_left _ _ _ E2) as H2.
  destruct ok; cbn [negb]; [| apply adds_no_memory; cbn; naive_solver].
  destruct (_ =? _); constructor; cbn; try (by right); try done; intros ->; by destruct (H2 (proj1 (H1 eq_refl))) as [-> _].
Qed.

Lemma locate_ok p ptr wk : exists pos, placed p wk ptr pos /\ forall s,
  returns (locate s (qwe_positions_finish p) ptr wk) (fun r => adds [] s (fst r) /\ (ps_oom (snd (fst r)) = true /\ fst s <> [] \/ snd r = pos)).
Proof.
  destruct (locate_placed p ptr wk) as (pos & E & Hp). exists pos. split; [done |]. intros [mem ps]. unfold locate.
  destruct (alloc mem) as [ok mem'] eqn:Em. pose proof (alloc_left _ _ _ Em) as H. destruct ok; cbn [negb].
  - rewrite E. cstep. apply returns_ret. split; [| by right]. apply (adds_nil (mem, ps)). naive_solver.
  - apply returns_ret. assert (Hn : mem <> []) by naive_solver. split; [by apply adds_no_memory | by left].
Qed.

(** An error, where it is placed. *)
Definition error_is (p : qwe_positions) (e : lua_error) (pr : problem) : Prop :=
  pr_message pr = default (bytes_of "invalid") (le_message e) /\
  placed p (bool_decide (le_kind e = Some (bytes_of "key"))) (default [] (le_pointer e)) (pr_pos pr).

(** [locate], then [add] at what it found. *)
Lemma locate_add p ptr wk message : exists pos, placed p wk ptr pos /\ forall s (B : Type) (k : vstate -> cres B) (Q : B -> Prop),
  (forall s', adds [Problem pos message] s s' -> returns (k s') Q) ->
  returns ('(s, pos) ← locate s (qwe_positions_finish p) ptr wk; k (add s pos message)) Q.
Proof.
  destruct (locate_ok p ptr wk) as (pos & Hp & Hl). exists pos. split; [done |]. intros s B k Q Hk.
  eapply returns_bind; [exact (Hl s) |]. intros [s' pos'] [Ha Ho]. cbn [fst snd] in *. apply Hk.
  pose proof (adds_trans [] _ _ _ _ Ha (add_ok s' pos' message)) as Hadd. cbn [app] in Hadd. destruct Ho as [[Ho Hn]| ->]; [| done].
  destruct Hadd as [_ B2 _]. constructor; [left; by apply (ad_oom _ _ _ (add_ok s' pos' message)) | done | done].
Qed.

Lemma collect_errors_ok p errors : exists new, Forall2 (error_is p) errors new /\
  forall s, returns (collect_errors s errors (qwe_positions_finish p)) (adds new s).
Proof.
  induction errors as [|e errors (new & Hn & IH)].
  - exists []. split; [constructor |]. intros s. apply returns_ret, adds_refl.
  - destruct (locate_add p (default [] (le_pointer e)) (bool_decide (le_kind e = Some (bytes_of "key")))
      (default (bytes_of "invalid") (le_message e))) as (pos & Hp & Hl).
    exists (Problem pos (default (bytes_of "invalid") (le_message e)) :: new). split; [constructor; [by split | done] |].
    intros s. cbn [collect_errors]. apply (Hl s _ (fun s => collect_errors s errors (qwe_positions_finish p))). intros s' Hs.
    eapply returns_mono; [apply IH |]. intros s2 Hs2. exact (adds_trans [_] _ _ _ _ Hs Hs2).
Qed.

Definition duplicate_problem (d : bytes * qwe_pos * qwe_pos) : problem :=
  Problem (snd d) (duplicate_message (last_token (fst (fst d))) (snd (fst d))).

Lemma collect_duplicates_ok table s : adds (duplicate_problem <$> qwe_positions_duplicates table) s (collect_duplicates s table).
Proof.
  unfold collect_duplicates. generalize (qwe_positions_duplicates table). intros ds. revert s. induction ds as [|[[ptr first] second] ds IH]; intros s.
  - apply adds_refl.
  - cbn [foldl fmap list_fmap]. eapply (adds_trans [_]); [| apply IH]. unfold add_duplicate, duplicate_problem. cbn [fst snd].
    destruct s as [mem ps]. destruct (alloc mem) as [ok mem'] eqn:Em. pose proof (alloc_left _ _ _ Em) as H.
    destruct ok; cbn [negb]; [| apply adds_no_memory; cbn; naive_solver].
    eapply (adds_trans []); [| apply add_ok]. apply (adds_nil (mem, ps)). naive_solver.
Qed.

(** The keys that are repeated, told without the table's order: a report is of two
    entries with a pointer and a key each; and for a pointer whose entries all have
    keys there is one report for each entry but the first, in the order of the
    source.  (An entry without a key is a sequence's item: one with the pointer of
    a key means that a key above is repeated.) *)
Record repeated_keys (p : qwe_positions) (ds : list (bytes * qwe_pos * qwe_pos)) : Prop := RepeatedKeys {
  rk_two : forall d, d ∈ ds -> exists e1 e2, [e1; e2] ⊆+ ps_e p /\ e_pointer e1 = fst (fst d) /\ e_pointer e2 = fst (fst d) /\
    e_key e1 = Some (snd (fst d)) /\ e_key e2 = Some (snd d);
  rk_all : forall q, keyed q (ps_e p) -> exists ks, ks ≡ₚ keys_at q (ps_e p) /\ Sorted pos_le ks /\
    filter (fun d => fst (fst d) = q) ds = match ks with [] => [] | k :: ks => (fun k' => (q, k, k')) <$> ks end;
}.

Lemma duplicates_two f l d : d ∈ duplicates_from f l ->
  exists e1 e2, [e1; e2] `sublist_of` (f :: l) /\ e_pointer e1 = fst (fst d) /\ e_pointer e2 = fst (fst d) /\
    e_key e1 = Some (snd (fst d)) /\ e_key e2 = Some (snd d).
Proof.
  revert f. induction l as [|e l IH]; intros f; cbn [duplicates_from]; [by intros ?%not_elem_of_nil |].
  assert (Hrest : d ∈ duplicates_from f l -> exists e1 e2, [e1; e2] `sublist_of` (f :: e :: l) /\ e_pointer e1 = fst (fst d) /\
    e_pointer e2 = fst (fst d) /\ e_key e1 = Some (snd (fst d)) /\ e_key e2 = Some (snd d)).
  { intros (e1 & e2 & Hs & H)%IH. exists e1, e2. split; [| done]. etrans; [exact Hs |]. apply sublist_skip, sublist_cons. done. }
  destruct (strcmp (e_pointer e) (e_pointer f)) eqn:Hc.
  - apply strcmp_eq in Hc. destruct (e_key f) eqn:Ef, (e_key e) eqn:Ee; try exact Hrest. intros [->|Hd]%elem_of_cons; [| auto].
    exists f, e. split_and!; try done. apply sublist_skip, sublist_skip, sublist_nil_l.
  - intros (e1 & e2 & Hs & H)%IH. exists e1, e2. split; [by apply sublist_cons | done].
  - intros (e1 & e2 & Hs & H)%IH. exists e1, e2. split; [by apply sublist_cons | done].
Qed.

Lemma duplicates_repeated p : repeated_keys p (qwe_positions_duplicates (qwe_positions_finish p)).
Proof.
  constructor.
  - intros d. unfold qwe_positions_duplicates. destruct (ps_e (qwe_positions_finish p)) as [|f l] eqn:El; [by intros ?%not_elem_of_nil |].
    intros (e1 & e2 & Hs & H)%duplicates_two. exists e1, e2. split; [| done]. rewrite <- (finish_perm p), El. by apply sublist_submseteq.
  - intros q Hk. exists (qsort pos_le (keys_at q (ps_e p))). split_and!; [apply qsort_Permutation | apply Sorted_qsort, _ |].
    by apply duplicates_exact.
Qed.

(** No key is repeated, where none hides behind an item. *)
Definition keys_once (p : qwe_positions) : Prop := forall q, keyed q (ps_e p) -> length (keys_at q (ps_e p)) <= 1.

Lemma no_duplicates_once p : repeated_keys p [] -> keys_once p.
Proof. intros [_ H] q Hk. destruct (H q Hk) as (ks & <- & _ & E). destruct ks as [|k [|k' ks]]; [cbn; lia | done | discriminate E]. Qed.

(** ** The graph *)

(** What the schema makes sure of: the needs are strings, and not more of them
    than an [unsigned long] counts. *)
Definition entry_ok (e : string * job_table) : Prop :=
  Forall is_Some (default [] (tb_needs (snd e))) /\ (Z.of_nat (length (default [] (tb_needs (snd e)))) < 2 ^ 64)%Z.

Definition dag_of (e : string * job_table) : qwe_dag_job := DagJob (fst e) (omap (fun x => x) (default [] (tb_needs (snd e)))).

(** The jobs as they are checked: in the order of their ids. *)
Definition job_graph (entries : list (string * job_table)) : list qwe_dag_job := dag_of <$> merge_sort cmp_job entries.

Definition sound (entries : list (string * job_table)) : Prop := known (job_graph entries) /\ acyclic (job_graph entries).

Lemma load_ids_left mem n cap entries mem' ok : load_ids mem n cap entries = (mem', ok) -> mem = [] -> mem' = [] /\ ok = true.
Proof. intros H ->. rewrite load_ids_ok in H. by injection H as <- <-. Qed.

Lemma copy_needs_ok mem l : Forall is_Some l -> exists mem' r, copy_needs mem l = CRet (mem', r) /\ (mem = [] -> mem' = []) /\
  (r = Some (omap (fun x => x) l) \/ r = None /\ mem <> []).
Proof.
  intros H. revert mem. induction H as [|o l [need ->] _ IH]; intros mem; cbn [copy_needs].
  - do 2 eexists. split; [reflexivity |]. split; [done | by left].
  - destruct (alloc mem) as [ok mem1] eqn:Em. pose proof (alloc_left _ _ _ Em) as Hm. destruct ok; cbn [negb].
    + destruct (IH mem1) as (mem2 & r & -> & H1 & H2). cstep. do 2 eexists. split; [reflexivity |]. split; [naive_solver |].
      destruct H2 as [-> |[-> Hn]]; [by left | right]. naive_solver.
    + do 2 eexists. split; [reflexivity |]. split; [naive_solver | right; naive_solver].
Qed.

Lemma dag_jobs_ok mem l : Forall entry_ok l -> exists mem' r, dag_jobs mem l = CRet (mem', r) /\ (mem = [] -> mem' = []) /\
  (r = Some (dag_of <$> l) \/ r = None /\ mem <> []).
Proof.
  intros H. revert mem. induction H as [|[id t] l [Hs _] _ IH]; intros mem; cbn [dag_jobs].
  - do 2 eexists. split; [reflexivity |]. split; [done | by left].
  - cbn [snd] in Hs.
    assert (Hneeds : exists mem1 r, match tb_needs t with
        | None => mret (mem, Some [])
        | Some l => let '(ok, mem) := alloc mem in if ok then copy_needs mem l else mret (mem, None)
        end = CRet (mem1, r) /\ (mem = [] -> mem1 = []) /\
      (r = Some (omap (fun x => x) (default [] (tb_needs t))) \/ r = None /\ mem <> [])).
    { destruct (tb_needs t) as [needs|]; cbn [default] in *; [| do 2 eexists; split; [reflexivity |]; split; [done | by left]].
      destruct (alloc mem) as [ok mem0] eqn:Em. pose proof (alloc_left _ _ _ Em) as Hm. destruct ok.
      - destruct (copy_needs_ok mem0 needs Hs) as (mem1 & r & -> & H1 & H2). do 2 eexists. split; [reflexivity |].
        split; [naive_solver |]. destruct H2 as [->|[-> Hn]]; [by left | right; naive_solver].
      - do 2 eexists. split; [reflexivity |]. split; [naive_solver | right; naive_solver]. }
    destruct Hneeds as (mem1 & r & -> & H1 & H2). cstep. destruct H2 as [->|[-> Hn]].
    + destruct (IH mem1) as (mem2 & r & -> & H3 & H4). cstep. do 2 eexists. split; [reflexivity |]. split; [naive_solver |].
      destruct H4 as [->|[-> Hn]]; [by left | right; naive_solver].
    + do 2 eexists. split; [reflexivity |]. split; [naive_solver | by right].
Qed.

Lemma dag_pointer_ok st tok need : (st = QWE_DAG_UNKNOWN_NEED -> (Z.of_nat need < 2 ^ 64)%Z) -> exists ptr, dag_pointer st tok need = CRet ptr.
Proof.
  intros Hn. unfold dag_pointer. destruct st; eexists; apply qwe_xfmt_fits; rewrite ?length_app;
    change (length (bytes_of "/jobs/")) with 6; change (length (bytes_of "/jobs")) with 5; change (length (bytes_of "/needs/")) with 7; try lia.
  specialize (Hn eq_refl). destruct (dec_digits 20 (Z.of_nat need)) as [_ Hd]; lia.
Qed.

Lemma report_dag_ok s p jobs st err : (st = QWE_DAG_UNKNOWN_NEED -> (Z.of_nat (de_need err) < 2 ^ 64)%Z) -> (st <> QWE_DAG_NO_MEMORY -> de_job err < length jobs) ->
  exists pr, returns (report_dag s (qwe_positions_finish p) jobs st err) (adds [pr] s).
Proof.
  intros Hneed Hjob. destruct s as [mem ps]. unfold report_dag.
  assert (Hid : exists id, (if st is QWE_DAG_NO_MEMORY then mret [] else j ← cread jobs (de_job err); mret (bytes_of (dj_id j))) = CRet id).
  { destruct st; try (by eexists); (destruct (lookup_lt_is_Some_2 jobs (de_job err)) as [j Hj]; [by apply Hjob |]);
      rewrite (cread_Some _ _ _ Hj); by eexists. }
  destruct Hid as [id ->]. cstep. destruct (dag_pointer_ok st (escape_token id) (de_need err) Hneed) as [ptr Hptr].
  destruct (locate_add p ptr (if st is QWE_DAG_CYCLE then true else false) (de_message err)) as (pos & _ & Hl).
  exists (Problem pos (de_message err)).
  destruct (alloc mem) as [ok mem1] eqn:E1. pose proof (alloc_left _ _ _ E1) as H1. destruct ok; cbn [negb].
  2: { apply returns_ret, adds_no_memory. cbn. naive_solver. }
  destruct (alloc mem1) as [ok mem2] eqn:E2. pose proof (alloc_left _ _ _ E2) as H2. destruct ok; cbn [negb].
  2: { apply returns_ret, adds_no_memory. cbn. naive_solver. }
  rewrite Hptr. cstep. apply (Hl (mem2, ps) _ (fun s => mret s)). intros s' Hs. apply returns_ret.
  eapply (adds_trans []); [| exact Hs]. apply (adds_nil (mem, ps)). naive_solver.
Qed.

Lemma length_omap {A B} (f : A -> option B) l : length (omap f l) <= length l.
Proof. induction l as [|a l IH]; cbn; [done |]. destruct (f a); cbn; lia. Qed.

Lemma job_graph_needs entries i job : Forall entry_ok entries -> job_graph entries !! i = Some job -> (Z.of_nat (length (dj_needs job)) < 2 ^ 64)%Z.
Proof.
  intros He Hi. unfold job_graph in Hi. apply list_lookup_fmap_Some in Hi as (e & -> & Hi).
  assert (Hin : e ∈ entries) by (rewrite <- (merge_sort_Permutation cmp_job); by eapply list_elem_of_lookup_2).
  rewrite Forall_forall in He. destruct (He e Hin) as [_ Hl]. cbn. pose proof (length_omap (fun x : option string => x) (default [] (tb_needs (snd e)))). lia.
Qed.

(** The check adds one problem or none, and none only if the graph is sound. *)
Lemma check_dag_ok s entries p : Forall entry_ok entries ->
  exists new, length new <= 1 /\ (new = [] -> sound entries) /\ (fst s = [] -> sound entries -> new = []) /\
    returns (check_dag s entries (qwe_positions_finish p)) (adds new s).
Proof.
  intros He. destruct s as [mem ps]. unfold check_dag.
  assert (Hfail : forall (mem' : list bool), mem <> [] -> exists new : list problem, length new <= 1 /\ (new = [] -> sound entries) /\
      (fst (mem, ps) = [] -> sound entries -> new = []) /\ returns (mret (no_memory (mem', ps))) (adds new (mem, ps))).
  { intros mem' Hn. exists [Problem (Pos 1 1) []]. split_and!; [done | done | done | by apply returns_ret, adds_no_memory]. }
  destruct (load_ids mem 0 0 entries) as [mem1 ok] eqn:E1. pose proof (load_ids_left _ _ _ _ _ _ E1) as H1.
  destruct ok; cbn [negb]; [| apply Hfail; naive_solver].
  destruct (alloc mem1) as [ok mem2] eqn:E2. pose proof (alloc_left _ _ _ E2) as H2. destruct ok; cbn [negb]; [| apply Hfail; naive_solver].
  destruct (alloc mem2) as [ok mem3] eqn:E3. pose proof (alloc_left _ _ _ E3) as H3. destruct ok; cbn [negb]; [| apply Hfail; naive_solver].
  destruct (dag_jobs_ok mem3 (merge_sort cmp_job entries)) as (mem4 & r & -> & H4 & Hr); [by rewrite merge_sort_Permutation |]. cstep.
  destruct Hr as [->|[-> Hn]]; [| apply Hfail; naive_solver]. fold (job_graph entries).
  destruct (alloc mem4) as [ok1 mem5] eqn:E5. destruct (alloc mem5) as [ok2 mem6] eqn:E6.
  pose proof (alloc_left _ _ _ E5) as H5. pose proof (alloc_left _ _ _ E6) as H6.
  destruct (check_report (ok1 && ok2) (job_graph entries)) as (st & err & -> & Hok & Hall & Hst). cstep.
  set (mem7 := if st is QWE_DAG_UNKNOWN_NEED then mem4 else mem6). assert (H7 : mem = [] -> mem7 = []) by (unfold mem7; destruct st; naive_solver).
  assert (Hsound : mem = [] -> sound entries -> st = QWE_DAG_OK).
  { intros Hm [Hk Ha]. apply Hall; [| done | done]. destruct (H5 ltac:(naive_solver)) as [Hm5 ->]. by destruct (H6 Hm5) as [_ ->]. }
  destruct (decide (st = QWE_DAG_OK)) as [->|Hne].
  - exists []. split_and!; [cbn; lia | intros _; by apply Hok | done | apply returns_ret; by apply (adds_nil (mem, ps))].
  - destruct (report_dag_ok (mem7, ps) p (job_graph entries) st err) as (pr & Hpr).
    + intros ->. destruct Hst as (job & need & Hj & Hneed). apply lookup_lt_Some in Hneed. pose proof (job_graph_needs _ _ _ He Hj). lia.
    + intros Hn. destruct st; [done | | done | done]. destruct Hst as (job & need & Hj & _). by eapply lookup_lt_Some.
    + exists [pr]. split_and!; [done | done | intros Hm Hs; by destruct Hne; apply Hsound |].
      eapply returns_mono; [exact Hpr |]. intros s' Hs. eapply (adds_trans []); [by apply (adds_nil (mem, ps)) | done].
Qed.

(** ** The report *)

Lemma cmp_problem_antisym x y : cmp_problem y x = CompOpp (cmp_problem x y).
Proof.
  unfold cmp_problem. rewrite (cmp_pos_antisym (pr_pos x)), (strcmp_antisym (pr_message x)). by destruct (cmp_pos (pr_pos x) (pr_pos y)).
Qed.

#[export] Instance problem_le_total : Total problem_le.
Proof. intros x y. unfold problem_le. rewrite (cmp_problem_antisym x y). destruct (cmp_problem x y); [by left | by left | by right]. Qed.

(** The tables can be read, and the graph they make is sound. *)
Definition sound_tables (tables : cres (list (string * job_table))) : Prop := exists entries, tables = CRet entries /\ sound entries.

(** What the schema makes sure of, where it reports no error: the tables can be
    read. *)
Definition schema_ok (errors : list lua_error) (tables : cres (list (string * job_table))) : Prop :=
  errors = [] -> exists entries, tables = CRet entries /\ Forall entry_ok entries.

(** What the graph check adds after [before]: nothing, unless [before] is empty;
    and then a problem if the graph is not sound. *)
Definition graph_problems (tables : cres (list (string * job_table))) (before graph : list problem) : Prop :=
  length graph <= 1 /\ (graph <> [] -> before = []) /\ (before = [] -> graph = [] <-> sound_tables tables).

(** The problems are collected; that none is recorded means there is none. *)
Lemma collected mem tables p errors : schema_ok errors tables ->
  exists found, Forall2 (error_is p) errors found /\
  let before := found ++ (duplicate_problem <$> qwe_positions_duplicates (qwe_positions_finish p)) in
  returns (s ← collect_errors (mem, no_problems) errors (qwe_positions_finish p);
           let s := collect_duplicates s (qwe_positions_finish p) in
           if (length (ps_v (snd s)) =? 0) && negb (ps_oom (snd s)) then entries ← tables; check_dag s entries (qwe_positions_finish p) else mret s)
    (fun s => (ps_oom (snd s) = false -> ps_v (snd s) = [] -> before = [] /\ sound_tables tables) /\
      (mem = [] -> ps_oom (snd s) = false /\ exists graph, graph_problems tables before graph /\ ps_v (snd s) = before ++ graph)).
Proof.
  intros He. destruct (collect_errors_ok p errors) as (found & Hf & Hc). exists found. split; [done |]. intros before.
  eapply returns_bind; [apply Hc |]. intros s1 H1. pose proof (adds_trans _ _ _ _ _ H1 (collect_duplicates_ok (qwe_positions_finish p) s1)) as H2.
  fold before in H2. set (s2 := collect_duplicates s1 (qwe_positions_finish p)) in *. clearbody s2. clear s1 Hc H1. destruct H2 as [Hor _ Hm]. cbn in Hor, Hm.
  destruct s2 as [mem2 ps2]. cbn [fst snd] in *.
  destruct (ps_oom ps2) eqn:Eo; cbn [negb]; [rewrite andb_false_r; apply returns_ret; cbn [fst snd]; rewrite Eo; split; [done | naive_solver] |].
  assert (Ev : ps_v ps2 = before) by naive_solver. cbn [negb]. rewrite andb_true_r. destruct (Nat.eqb_spec (length (ps_v ps2)) 0) as [E0|E0].
  - apply nil_length_inv in E0. destruct He as (entries & -> & He).
    { unfold before in Ev. rewrite E0 in Ev. symmetry in Ev. apply app_eq_nil in Ev as [-> _]. by inversion Hf. }
    assert (Hst : sound_tables (CRet entries) <-> sound entries) by (split; [by intros (? & [= <-] & ?) | by exists entries]).
    destruct (check_dag_ok (mem2, ps2) entries p He) as (graph & Hl & Hs & Hs' & Hr). cstep.
    eapply returns_mono; [exact Hr |]. intros s3 [Hor3 Hoom Hm3]. cbn [fst snd] in *. split.
    + intros Ho3 Hv3. split; [by rewrite <- Ev |]. apply Hst, Hs. destruct Hor3 as [Hor3|[Hor3 _]]; [congruence |]. by rewrite E0, Hv3 in Hor3.
    + intros ->. destruct (Hm eq_refl) as [Hm2 _]. destruct (Hm3 Hm2) as (_ & Hv3 & Ho3). split; [congruence |].
      exists graph. split; [| by rewrite Hv3, Ev]. split_and!; [done | by rewrite <- Ev |]. intros _. rewrite Hst. split; [done | auto].
  - apply returns_ret. split.
    + cbn [snd]. intros _ Hv. by rewrite Hv in E0.
    + cbn [snd]. intros _. split; [done |]. exists []. split; [| by rewrite app_nil_r]. split_and!; [cbn; lia | done |]. intros Hb. by rewrite Ev, Hb in E0.
Qed.

Lemma validate_ok mem validate_project tables p cmd path errors plugins :
  schema_ok errors tables -> validate_project (workflow_dir path) = inr (errors, plugins) ->
  exists n lines, qwe_validate_doc mem (inr tt) validate_project tables (qwe_positions_finish p) cmd path = CRet (n, lines) /\ length lines = n /\
    (n = 0 -> errors = [] /\ qwe_positions_duplicates (qwe_positions_finish p) = [] /\ plugins = [] /\ sound_tables tables) /\
    (mem = [] -> exists found graph sorted, Forall2 (error_is p) errors found /\
      let before := found ++ (duplicate_problem <$> qwe_positions_duplicates (qwe_positions_finish p)) in
      graph_problems tables before graph /\ Sorted problem_le sorted /\ sorted ≡ₚ before ++ graph /\
      lines = (plugin_line cmd <$> plugins) ++ (problem_line cmd path <$> sorted)).
Proof.
  intros He Hv. unfold qwe_validate_doc. destruct (alloc mem) as [ok mem1] eqn:Em. pose proof (alloc_left _ _ _ Em) as Ha. destruct ok; cbn [negb].
  2: { eexists _, _. split; [reflexivity |]. split_and!; [done | done | naive_solver]. }
  rewrite Hv. destruct (collected mem1 tables p errors He) as (found & Hf & (s & Es & H0 & Hm)).
  cbn beta in Es. destruct (collect_errors (mem1, no_problems) errors (qwe_positions_finish p)) eqn:E1; try discriminate Es; cbn [mbind cres_bind cbind mret cres_ret] in Es.
  cstep. match goal with |- context [mbind _ ?m] => replace m with (CRet s) by (symmetry; exact Es) end. cstep. eexists _, _. split; [reflexivity |].
  assert (Hlen : length (print_problems (snd s) cmd path) = length (ps_v (snd s)) + (if ps_oom (snd s) then 1 else 0)).
  { unfold print_problems. rewrite length_app, length_fmap, qsort_Permutation. by destruct (ps_oom (snd s)). }
  split_and!.
  - rewrite length_app, length_fmap, Hlen. lia.
  - intros Hn. destruct (ps_oom (snd s)); [lia |]. destruct H0 as [Hb Hs]; [done | apply nil_length_inv; lia |].
    apply app_eq_nil in Hb as [-> Hd]. apply fmap_nil_inv in Hd. inversion Hf. split_and!; [done | done | apply nil_length_inv; lia | done].
  - intros ->. destruct (Ha eq_refl) as [-> _]. destruct (Hm eq_refl) as (Ho & graph & Hg & Hgv).
    exists found, graph, (qsort problem_le (ps_v (snd s))). split_and!; [done | exact Hg | apply Sorted_qsort, _ | | ].
    + by rewrite qsort_Permutation, Hgv.
    + unfold print_problems. by rewrite Ho, app_nil_r.
Qed.

Lemma report_one msg cmd label path : length (report_internal_error msg cmd label path) = 1.
Proof. unfold report_internal_error. destruct msg as [m|]; [| done]. by destruct (_ || _). Qed.

(** C12. Validation passes exactly what is sound.  Whatever the allocations answer and
    whether Lua raises or answers, it ends with a count and prints as many lines.
    The count is 0 only if Lua raised nothing and found no error in the workflow or
    in a plugin, no key is repeated (but for one that has the pointer of a
    sequence's item), every need names a job and the needs have no cycle.  Where Lua
    raises, the count is 1.  Where it answers and memory suffices, the lines are
    those of the plugins, then one for each error (where [locate] places it), for
    each repeated key ([repeated_keys]) and, if there is none of these, for what is
    wrong with the graph, in the order of the source; and a sound workflow counts 0.
    Where Lua finds no error, its schema has made sure that the jobs can be read
    and their needs are strings. *)
Theorem validate_exact mem require validate_project tables p cmd path :
  (forall errors plugins, validate_project (workflow_dir path) = inr (errors, plugins) -> schema_ok errors tables) ->
  exists n lines, qwe_validate_doc mem require validate_project tables (qwe_positions_finish p) cmd path = CRet (n, lines) /\ length lines = n /\
    (n = 0 -> require = inr tt /\ validate_project (workflow_dir path) = inr ([], []) /\ keys_once p /\ sound_tables tables) /\
    ((exists msg, require = inl msg) \/ (exists msg, validate_project (workflow_dir path) = inl msg) -> n = 1) /\
    forall errors plugins, mem = [] -> require = inr tt -> validate_project (workflow_dir path) = inr (errors, plugins) ->
      exists found repeated graph sorted, Forall2 (error_is p) errors found /\ repeated_keys p repeated /\
      let before := found ++ (duplicate_problem <$> repeated) in
      graph_problems tables before graph /\ Sorted problem_le sorted /\ sorted ≡ₚ before ++ graph /\
      lines = (plugin_line cmd <$> plugins) ++ (problem_line cmd path <$> sorted).
Proof.
  intros Hs. destruct require as [msg|[]]; [eexists _, _; split_and!; [reflexivity | apply report_one | done | done | by intros ? ? _ [=]] |].
  destruct (validate_project (workflow_dir path)) as [msg|[errors plugins]] eqn:Ev.
  - unfold qwe_validate_doc. destruct (alloc mem) as [ok mem']. rewrite Ev. destruct ok; (eexists _, _; split_and!; [reflexivity | first [done | apply report_one] | done | done | by intros ? ? _ _ [=]]).
  - destruct (validate_ok mem validate_project tables p cmd path errors plugins (Hs _ _ eq_refl) Ev) as (n & lines & E & Hl & H0 & Hm).
    exists n, lines. split_and!; [done | done | | by intros [[]|[]] |].
    + intros Hn. destruct (H0 Hn) as (-> & Hd & -> & Ht). split_and!; try done. apply no_duplicates_once. rewrite <- Hd. apply duplicates_repeated.
    + intros errors' plugins' Hmem _ [= <- <-]. destruct (Hm Hmem) as (found & graph & sorted & Hf & H). exists found, (qwe_positions_duplicates (qwe_positions_finish p)), graph, sorted.
      split; [done |]. split; [apply duplicates_repeated | exact H].
Qed.

Lemma sample_entries_ok : Forall entry_ok sample_tables.
Proof.
  repeat apply Forall_cons_2; [| | apply Forall_nil_2]; (split; [| done]); [apply Forall_cons_2; [by eexists |] |]; apply Forall_nil_2.
Qed.

Definition sample_errors : list lua_error := [LuaError (Some (bytes_of "/a/c")) (Some (bytes_of "key")) (Some (bytes_of "is required"))].

Lemma validate_exact_witness :
  let require : pcall unit := inr tt in let project (_ : bytes) : pcall (list lua_error * list (bytes * bytes)) := inr (sample_errors, []) in
  let tables := CRet sample_tables in let p := small_table in let cmd := bytes_of "qwe check" in let path := bytes_of "w.yml" in
  qwe_validate_doc [] require project tables (qwe_positions_finish p) cmd path = CRet (1, [bytes_of "qwe check: w.yml:1:4: is required" ++ [NL]]) /\
  exists n lines, qwe_validate_doc [] require project tables (qwe_positions_finish p) cmd path = CRet (n, lines) /\ length lines = n /\
    (n = 0 -> require = inr tt /\ project (workflow_dir path) = inr ([], []) /\ keys_once p /\ sound_tables tables) /\
    ((exists msg, require = inl msg) \/ (exists msg, project (workflow_dir path) = inl msg) -> n = 1) /\
    forall errors plugins, [] = [] :> list bool -> require = inr tt -> project (workflow_dir path) = inr (errors, plugins) ->
      exists found repeated graph sorted, Forall2 (error_is p) errors found /\ repeated_keys p repeated /\
      let before := found ++ (duplicate_problem <$> repeated) in
      graph_problems tables before graph /\ Sorted problem_le sorted /\ sorted ≡ₚ before ++ graph /\
      lines = (plugin_line cmd <$> plugins) ++ (problem_line cmd path <$> sorted).
Proof.
  split; [vm_compute; reflexivity |]. apply validate_exact. intros errors plugins [= <- <-] [=].
Defined.

(** ** A workflow that passes runs *)

(** A job's table as Lua holds it, with as many steps as an event tag can tell
    apart. *)
Definition entry_small (e : string * job_table) : Prop :=
  timeout_double (snd e) /\ (Z.of_nat (length (tb_steps (snd e))) < 2 ^ 24 - 1)%Z.

Lemma loaded_graph mem entries jobs : Forall entry_small entries -> qwe_jobs_load mem entries = CRet (Some jobs) ->
  Forall fresh jobs /\ dag_job <$> jobs = job_graph entries.
Proof.
  intros Ht. unfold qwe_jobs_load. destruct (load_ids mem 0 0 entries) as [mem1 ok]. destruct ok; cbn [negb]; [| by intros [=]].
  destruct (load_jobs_ok mem1 0 (merge_sort cmp_job entries)) as (r & -> & Hr); [rewrite merge_sort_Permutation; by eapply Forall_impl; [exact Ht | intros ? []] |]. cstep.
  destruct r as [[jobs' [|]]|]; [by intros [=] | | by intros [=]]. intros [= ->]. destruct Hr as (_ & Hlen & Hjob). unfold job_graph.
  assert (Hall : forall k j, jobs !! k = Some j -> exists p, merge_sort cmp_job entries !! k = Some p /\ job_of (0 + k) (fst p) (snd p) j).
  { intros k j Hj. destruct (lookup_lt_is_Some_2 (merge_sort cmp_job entries) k) as [p Hp]; [rewrite <- Hlen; by eapply lookup_lt_Some |].
    exists p. split; [done |]. by apply Hjob. }
  split.
  - apply Forall_lookup. intros k j Hj. destruct (Hall k j Hj) as (p & Hp & ms & _ & ->). apply job0_fresh. rewrite length_map.
    assert (Hin : p ∈ entries) by (rewrite <- (merge_sort_Permutation cmp_job); by eapply list_elem_of_lookup_2).
    rewrite Forall_forall in Ht. by destruct (Ht p Hin).
  - apply list_eq. intros k. rewrite !list_lookup_fmap. destruct (jobs !! k) as [j|] eqn:Ej; cbn.
    + destruct (Hall k j Ej) as (p & -> & ms & _ & ->). done.
    + apply lookup_ge_None in Ej. rewrite Hlen in Ej. apply lookup_ge_None in Ej. by rewrite Ej.
Qed.

(** What passes validation can be run: if the validator counts no problem and
    the jobs of the same document are loaded, then they are what a run asks for
    (pending and numbered, every need a job and no cycle), so that the run, on
    whatever machine, keeps what is proved of it. *)
Theorem validated_runs {W} (env : environment W) mem mem' require validate_project entries p cmd path lines jobs v :
  sessions_ok env -> limit_ok v -> Forall entry_ok entries -> Forall entry_small entries ->
  qwe_validate_doc mem require validate_project (CRet entries) (qwe_positions_finish p) cmd path = CRet (0, lines) ->
  qwe_jobs_load mem' entries = CRet (Some jobs) -> startable env jobs v.
Proof.
  intros Hs Hl He Ht Hv Hj. destruct (loaded_graph _ _ _ Ht Hj) as [Hf Hg].
  assert (Hsound : sound entries).
  { unfold qwe_validate_doc in Hv. destruct require; [done |]. destruct (alloc mem) as [ok mem1]. destruct ok; cbn [negb] in Hv; [| done].
    destruct (validate_project (workflow_dir path)) as [|[errors plugins]]; [done |].
    destruct (collected mem1 (CRet entries) p errors ltac:(by exists entries)) as (found & _ & (s & Es & H0 & _)).
    destruct (collect_errors (mem1, no_problems) errors (qwe_positions_finish p)) eqn:E1; try discriminate Es; cbn [mbind cres_bind cbind mret cres_ret] in Es, Hv.
    match type of Hv with context [mbind _ ?m] => replace m with (CRet s) in Hv by (symmetry; exact Es) end. cbn [mbind cres_bind cbind mret cres_ret] in Hv.
    injection Hv as Hn _. destruct (ps_oom (snd s)); [lia |]. destruct H0 as [_ (e & [= <-] & H0)]; [done | apply nil_length_inv; lia | exact H0]. }
  constructor; [done | done | | done]. unfold validated. rewrite Hg.
  destruct (check_exact (job_graph entries)) as [(st & e & -> & Hok) _]. exists e. f_equal. f_equal. by apply Hok.
Qed.

Lemma validated_runs_witness :
  exists jobs, qwe_jobs_load [] sample_tables = CRet (Some jobs) /\ startable Sample.env jobs (Some Sample.two).
Proof.
  eexists. split; [vm_compute; reflexivity |].
  eapply (validated_runs Sample.env [] [] (inr tt) (fun _ => inr ([], [])) sample_tables small_table (bytes_of "qwe check") (bytes_of "w.yml") []).
  - apply Sample.sample_startable.
  - apply Sample.sample_startable.
  - apply sample_entries_ok.
  - repeat apply Forall_cons_2; [split; [exact I | done] | split; [vm_compute; reflexivity | done] | apply Forall_nil_2].
  - vm_compute. reflexivity.
  - vm_compute. reflexivity.
Defined.
