(* ===== verification/LuaTable.v ===== *)
(** * Reading Lua values from C

    The calls of the Lua API with which the kernel reads what it is given, over the
    values of [LuaCbor]: [lua_tostring], [lua_isstring], [lua_getfield] and the like.
    A read that Lua answers with an error ends the process where no protected call
    is around it ([CAbort]). *)

From Stdlib Require Import Ascii String NArith ZArith Lia SpecFloat.
From stdpp Require Import base list strings numbers.
From S2P Require Import Prelude Cstr Redact LuaCbor Strtod.

(** How Lua writes a number, and what it reads a text as, if as a number. *)
Class LuaNumbers := { number_text : Z -> bytes; text_number : bytes -> option Z }.

(** The text as a C string; [None] is [NULL].  [lua_isstring] says whether there is
    one. *)
Definition lua_tostring `{LuaNumbers} (v : lua) : option bytes :=
  match v with
  | LStr s => Some (cstr s)
  | LNum b => Some (number_text b)
  | _ => None
  end.

(** The bits of the number; [None] where [lua_isnumber] is false. *)
Definition lua_tonumber `{LuaNumbers} (v : lua) : option Z :=
  match v with
  | LNum b => Some b
  | LStr s => text_number s
  | _ => None
  end.

Definition lua_toboolean (v : lua) : bool := match v with LNil | LBool false => false | _ => true end.

Definition lua_istable (v : lua) : bool := match v with LTable _ _ _ => true | _ => false end.

(** Of what is no table only a string can be indexed: its methods are not asked
    for. *)
Definition lua_getfield (v : lua) (k : string) : cres lua :=
  match v with
  | LTable _ _ fields => CRet (get_field (bytes_of k) fields)
  | LStr _ => CRet LNil
  | _ => CAbort
  end.

(** The items up to [lua_objlen]; of a string only an empty one has none. *)
Definition lua_items (v : lua) : cres (list lua) :=
  match v with
  | LTable _ seq _ => CRet seq
  | LStr (_ :: _) => CUndef
  | _ => CRet []
  end.

(** The double of some bits. *)
Definition double_of_bits (b : Z) : spec_float :=
  let sign := (d_sign b =? 1)%Z in
  if (d_exp b =? 2047)%Z then (if (d_mant b =? 0)%Z then S754_infinity sign else S754_nan)
  else if (d_exp b =? 0)%Z then
    match d_mant b with Zpos m => S754_finite sign m (-1074) | _ => S754_zero sign end
  else
    match (d_mant b + 2 ^ 52)%Z with Zpos m => S754_finite sign m (d_exp b - 1075) | _ => S754_nan end.
