(* ===== verification/Preamble.v ===== *)
(** * The environment of a step

    Models [src/kernel/preamble.c], and [exec_preamble] of [src/kernel/luaexec.c]
    that calls it: a step's environment variables become lines that a bootstrap
    shell reads from its standard input and exports before it runs the command.
    The buffer's size is counted in a first pass; a byte written past it is
    [CUndef].

    The bootstrap is a text in the source.  [bootstrap] is what a POSIX shell does
    with it, over the shell's variables: [read -r] takes one line into [qwe_l],
    [%b] undoes escapes, a command substitution drops the newlines at its end and
    needs a process, [export] sets and exports, and [unset] forgets the two
    variables the script itself uses, before [exec] hands over what is exported.
    A name that a shell treats in its own way (one it makes read-only, or checks
    the value of) is a variable like any other here. *)

From Stdlib Require Import Ascii String NArith ZArith Lia.
From stdpp Require Import base sets list strings sorting gmap.
From S2P Require Import Prelude Cstr Redact LuaCbor.

(** ** Building it *)

Definition between (lo c hi : ascii) : bool := ((N_of_ascii lo <=? N_of_ascii c) && (N_of_ascii c <=? N_of_ascii hi))%N.

Definition name_start (c : ascii) : bool := between "A" c "Z" || between "a" c "z" || Ascii.eqb c "_".
Definition name_char (c : ascii) : bool := between "A" c "Z" || between "a" c "z" || between "0" c "9" || Ascii.eqb c "_".

(** [s] is a C string: an empty one starts with its NUL. *)
Definition name_ok (s : bytes) : bool :=
  match s with
  | [] => false
  | c :: s => name_start c && forallb name_char s
  end.

Definition BS : ascii := "\"%char.

Definition is_escaped (c : ascii) : bool := Ascii.eqb c BS || Ascii.eqb c NL.

(** The first pass: the room needed, or the first bad name. *)
Fixpoint preamble_cap (i cap : nat) (vars : list (bytes * bytes)) : nat + nat :=
  match vars with
  | [] => inr cap
  | (name, value) :: vars =>
      if negb (name_ok name) then inl i
      else preamble_cap (S i) (cap + (length name + 2) + foldl (fun n c => n + (if is_escaped c then 2 else 1)) 0 value) vars
  end.

(** [*o++ = c] in a buffer of [size] bytes. *)
Definition put (size : nat) (o : bytes) (c : ascii) : cres bytes :=
  if length o <? size then CRet (o ++ [c]) else CUndef.

(** [stpcpy]: the NUL it ends with must fit too. *)
Definition stpcpy (size : nat) (o s : bytes) : cres bytes :=
  if length o + length s <? size then CRet (o ++ s) else CUndef.

Fixpoint put_value (size : nat) (o s : bytes) : cres bytes :=
  match s with
  | [] => mret o
  | c :: s =>
      o ← (if Ascii.eqb c BS then o ← put size o BS; put size o BS
           else if Ascii.eqb c NL then o ← put size o BS; put size o "n"
           else put size o c);
      put_value size o s
  end.

Fixpoint put_vars (size : nat) (o : bytes) (vars : list (bytes * bytes)) : cres bytes :=
  match vars with
  | [] => put size o NL
  | (name, value) :: vars =>
      o ← stpcpy size o name;
      o ← put size o "=";
      o ← put_value size o value;
      o ← put size o NL;
      put_vars size o vars
  end.

(** [inl (Some i)]: -1 with [*bad] set; [inl None]: -1 with [*bad] as it was. *)
Definition qwe_preamble_build (mem : list bool) (vars : list (bytes * bytes)) : cres (option nat + bytes) :=
  match preamble_cap 0 1 vars with
  | inl bad => mret (inl (Some bad))
  | inr cap =>
      let '(ok, mem) := alloc mem in
      if negb ok then mret (inl None)
      else o ← put_vars (cap + 1) [] vars; mret (inr o)
  end.

(** ** The table *)

(** The first pass over the table: the keys, or no keys if something in it is not
    a string. *)
Fixpoint env_keys (fields : list (lkey * lua)) : option (list bytes) :=
  match fields with
  | [] => Some []
  | (KStr k, LStr _) :: fields => option_map (cons k) (env_keys fields)
  | _ => None
  end.

(** [lua_tostring] of what the table has for a key: [NULL] would crash. *)
Fixpoint env_vars (keys : list bytes) (fields : list (lkey * lua)) : cres (list (bytes * bytes)) :=
  match keys with
  | [] => mret []
  | k :: keys =>
      match get_field k fields with
      | LStr v => vars ← env_vars keys fields; mret ((cstr k, cstr v) :: vars)
      | _ => CUndef
      end
  end.

(** The inner loop of the sort, from [j] down. *)
Fixpoint sift (l : list (bytes * bytes)) (j : nat) : cres (list (bytes * bytes)) :=
  match j with
  | 0 => mret l
  | S j' =>
      a ← cread l j';
      b ← cread l j;
      if strcmp (fst a) (fst b) is Gt then
        l ← cwrite l j a;
        l ← cwrite l j' b;
        sift l j'
      else mret l
  end.

(** [k] rounds of the outer loop, from [i] on. *)
Fixpoint sort_vars (k i : nat) (l : list (bytes * bytes)) : cres (list (bytes * bytes)) :=
  match k with
  | 0 => mret l
  | S k => l ← sift l i; sort_vars k (S i) l
  end.

Inductive raised := NotStrings | OutOfMemory | BadName (name : bytes).

(** [seq]: the table's items, whose keys are numbers. *)
Definition exec_preamble (mem : list bool) (seq : list lua) (fields : list (lkey * lua)) : cres (raised + bytes) :=
  if has_number_key seq then mret (inl NotStrings)
  else
    match env_keys fields with
    | None => mret (inl NotStrings)
    | Some keys =>
        let n := length keys in
        let '(ok, mem) := if n =? 0 then (true, mem) else
          let '(ok1, mem) := alloc mem in let '(ok2, mem) := alloc mem in (ok1 && ok2, mem) in
        if negb ok then mret (inl OutOfMemory)
        else
          vars ← env_vars keys fields;
          vars ← sort_vars (n - 1) 1 vars;
          r ← qwe_preamble_build mem vars;
          match r with
          | inr out => mret (inr out)
          | inl bad =>
              let bad := default 0 bad in
              name ← (if n =? 0 then mret [] else v ← cread vars (if bad <? n then bad else 0); mret (fst v));
              mret (inl (BadName name))
          end
    end.

(** ** The bootstrap shell *)

(** [IFS= read -r]: a line, without its newline, and what is left; [None] at the
    end of the input. *)
Fixpoint read_line (s : bytes) : option (bytes * bytes) :=
  match s with
  | [] => None
  | c :: s =>
      if Ascii.eqb c NL then Some ([], s)
      else option_map (fun '(l, rest) => (c :: l, rest)) (read_line s)
  end.

(** [${l%%=*}] and [${l#*=}]: before and behind the first equals sign; without
    one, both are the line. *)
Fixpoint cut_at (l : bytes) : option (bytes * bytes) :=
  match l with
  | [] => None
  | c :: l => if Ascii.eqb c "=" then Some ([], l) else option_map (fun '(n, v) => (c :: n, v)) (cut_at l)
  end.

Definition cut_equals (l : bytes) : bytes * bytes := default (l, l) (cut_at l).

(** [printf '%b']: of its escapes, the two the preamble has. *)
Fixpoint percent_b (s : bytes) : bytes :=
  match s with
  | [] => []
  | c :: s' =>
      match s' with
      | d :: s'' =>
          if Ascii.eqb c BS && Ascii.eqb d BS then BS :: percent_b s''
          else if Ascii.eqb c BS && Ascii.eqb d "n" then NL :: percent_b s''
          else c :: percent_b s'
      | [] => [c]
      end
  end.

(** [$(...)]: without the newlines at the end. *)
Fixpoint substitution (s : bytes) : bytes :=
  match s with
  | [] => []
  | c :: s => match substitution s with [] => if Ascii.eqb c NL then [] else [c] | r => c :: r end
  end.

(** [${v%.}] *)
Definition drop_dot (s : bytes) : bytes :=
  match reverse s with
  | c :: r => if Ascii.eqb c "." then reverse r else s
  | [] => s
  end.

(** A variable of the shell: its value and whether it is exported. *)
Abbreviation shell := (gmap bytes (bytes * bool)).

Definition qwe_l : bytes := bytes_of "qwe_l".
Definition qwe_v : bytes := bytes_of "qwe_v".

(** The variables of a shell that was started with [env]. *)
Definition started (env : gmap bytes bytes) : shell := (fun v => (v, true)) <$> env.

(** An assignment, which is also what [read] does: the variable stays exported if
    it was. *)
Definition assign (name value : bytes) (sh : shell) : shell :=
  <[name := (value, match sh !! name with Some (_, e) => e | None => false end)]> sh.

(** [export name=value] *)
Definition export (name value : bytes) (sh : shell) : shell := <[name := (value, true)]> sh.

(** [$name], empty if it is not set. *)
Definition get (name : bytes) (sh : shell) : bytes := match sh !! name with Some (v, _) => v | None => [] end.

(** What [exec] hands on. *)
Definition exported (sh : shell) : gmap bytes bytes := omap (fun '(v, e) => if e : bool then Some v else None) sh.

(** How the bootstrap ends: with an exit code, or as the command, with its
    environment and what is left on its input. *)
Inductive shell_end := Exit (code : nat) | ExecSh (env : gmap bytes bytes) (input : bytes).

(** [unset qwe_l qwe_v; exec sh -c "$1"] *)
Definition exec_script (sh : shell) (input : bytes) : shell_end := ExecSh (exported (delete qwe_v (delete qwe_l sh))) input.

(** [forks]: whether each command substitution gets its process.  [read] fails at
    the end of the input, with what was left of it in [qwe_l]; [export] refuses what
    is no name, which ends the shell.  Each line takes at least a byte. *)
Fixpoint bootstrap_loop (fuel : nat) (forks : list bool) (sh : shell) (input : bytes) : cres shell_end :=
  match fuel with
  | 0 => CFuel
  | S fuel =>
      match read_line input with
      | None => mret (exec_script (assign qwe_l input sh) [])
      | Some (line, rest) =>
          let sh := assign qwe_l line sh in
          if length (get qwe_l sh) =? 0 then mret (exec_script sh rest)
          else
            let '(ok, forks) := alloc forks in
            let text := substitution (percent_b (snd (cut_equals (get qwe_l sh))) ++ ["."%char]) in
            if negb ok then mret (Exit 125)
            else
              let sh := assign qwe_v text sh in
              let name := fst (cut_equals (get qwe_l sh)) in
              if negb (name_ok name) then mret (Exit 2)
              else bootstrap_loop fuel forks (export name (drop_dot (get qwe_v sh)) sh) rest
      end
  end.

Definition bootstrap (forks : list bool) (env : gmap bytes bytes) (input : bytes) : cres shell_end :=
  bootstrap_loop (S (length input)) forks (started env) input.

(** ** What is written *)

Definition esc (c : ascii) : bytes := if Ascii.eqb c BS then [BS; BS] else if Ascii.eqb c NL then [BS; "n"%char] else [c].

Definition esc_value (s : bytes) : bytes := mjoin (esc <$> s).

Definition var_line (v : bytes * bytes) : bytes := fst v ++ "="%char :: esc_value (snd v) ++ [NL].

Definition preamble (vars : list (bytes * bytes)) : bytes := mjoin (var_line <$> vars) ++ [NL].

Lemma esc_value_cons c s : esc_value (c :: s) = esc c ++ esc_value s.
Proof. reflexivity. Qed.

Lemma preamble_cons v vars : preamble (v :: vars) = var_line v ++ preamble vars.
Proof. unfold preamble. cbn [fmap list_fmap mjoin list_join]. by rewrite app_assoc. Qed.

Lemma put_byte_ok size o c : length o < size -> put size o c = CRet (o ++ [c]).
Proof. intros H. unfold put. by rewrite (proj2 (Nat.ltb_lt _ _) H). Qed.

Lemma put_value_ok size o s : length o + length (esc_value s) <= size -> put_value size o s = CRet (o ++ esc_value s).
Proof.
  revert o. induction s as [|c s IH]; intros o Hl; cbn [put_value]; [by rewrite app_nil_r |].
  rewrite esc_value_cons, length_app in *. unfold esc in *.
  destruct (Ascii.eqb c BS); [| destruct (Ascii.eqb c NL)]; cbn [length] in Hl; repeat (rewrite put_byte_ok by (rewrite ?length_app; cbn; lia); cstep);
    rewrite IH by (rewrite ?length_app; cbn; lia); by rewrite <- ?app_assoc.
Qed.

Lemma put_vars_ok size o vars : length o + length (preamble vars) <= size -> put_vars size o vars = CRet (o ++ preamble vars).
Proof.
  revert o. induction vars as [|[name value] vars IH]; intros o Hl; cbn [put_vars]; [apply put_byte_ok; cbn in Hl; lia |].
  rewrite preamble_cons in *. unfold var_line in *. cbn [fst snd] in *. rewrite !length_app in Hl. cbn [length] in Hl. rewrite length_app in Hl. cbn in Hl.
  unfold stpcpy. rewrite (proj2 (Nat.ltb_lt _ _)) by lia. cstep. rewrite put_byte_ok by (rewrite length_app; lia). cstep.
  rewrite put_value_ok by (rewrite !length_app; cbn; lia). cstep. rewrite put_byte_ok by (rewrite !length_app; cbn; lia). cstep.
  rewrite IH by (rewrite !length_app; cbn; lia). f_equal.
  rewrite <- !app_assoc. cbn [app]. by rewrite <- !app_assoc.
Qed.

Lemma value_room n s : foldl (fun n c => n + (if is_escaped c then 2 else 1)) n s = n + length (esc_value s).
Proof.
  revert n. induction s as [|c s IH]; intros n; cbn [foldl]; [cbn; lia |]. rewrite IH, esc_value_cons, length_app. unfold esc, is_escaped.
  destruct (Ascii.eqb c BS), (Ascii.eqb c NL); cbn; lia.
Qed.

Lemma preamble_cap_ok i cap vars :
  match preamble_cap i cap vars with
  | inr c => Forall (fun v => name_ok (fst v) = true) vars /\ c + 1 = cap + length (preamble vars)
  | inl bad => exists v, vars !! (bad - i) = Some v /\ name_ok (fst v) = false /\ i <= bad
  end.
Proof.
  revert i cap. induction vars as [|[name value] vars IH]; intros i cap; cbn [preamble_cap]; [split; [constructor | reflexivity] |].
  destruct (name_ok name) eqn:E; cbn [negb]; [| exists (name, value); by rewrite Nat.sub_diag].
  specialize (IH (S i) (cap + (length name + 2) + foldl (fun n c => n + (if is_escaped c then 2 else 1)) 0 value)).
  destruct (preamble_cap _ _ vars) as [bad|c].
  - destruct IH as (v & Hv & Hn & Hi). exists v. split_and!; [| done | lia]. replace (bad - i) with (S (bad - S i)) by lia. done.
  - destruct IH as [Hn Hc]. split; [by constructor |]. rewrite preamble_cons. unfold var_line. cbn [fst snd].
    rewrite value_room in Hc. rewrite !length_app. cbn [length]. rewrite length_app. cbn [length]. lia.
Qed.

(** ** The table's order *)

Definition name_le (a b : bytes * bytes) : Prop := key_cmp (fst a) (fst b).

Lemma sorted_two pre a x : StronglySorted name_le pre -> (forall y, y ∈ pre -> name_le y a) -> name_le a x -> StronglySorted name_le (pre ++ [a; x]).
Proof.
  intros Hs Ha Hx. apply StronglySorted_app. split_and!; [| done | constructor; [repeat constructor | by apply Forall_cons_2]].
  intros y z Hy Hz. apply Ha in Hy. apply elem_of_cons in Hz as [->|Hz%list_elem_of_singleton]; [done |]. subst z. unfold name_le in *. by etrans.
Qed.

Lemma sift_ok pre x post : StronglySorted name_le pre ->
  exists l, sift (pre ++ x :: post) (length pre) = CRet (l ++ post) /\ l ≡ₚ pre ++ [x] /\ StronglySorted name_le l.
Proof.
  revert post. induction pre as [|a pre IH] using rev_ind; intros post Hs.
  - exists [x]. split_and!; [done | done | repeat constructor].
  - rewrite length_app. cbn [length]. rewrite Nat.add_1_r. cbn [sift]. rewrite <- !app_assoc. cbn [app].
    rewrite (cread_Some _ (length pre) a) by (by apply list_lookup_middle). cstep.
    rewrite (cread_Some _ (S (length pre)) x) by (rewrite lookup_app_r by lia; by replace (S (length pre) - length pre) with 1 by lia). cstep.
    apply StronglySorted_app in Hs as (Hax & Hpre & _).
    assert (Hpa : forall y, y ∈ pre -> name_le y a) by (intros y Hy; apply Hax; [done | by left]).
    destruct (strcmp (fst a) (fst x)) eqn:Hc.
    1, 2: exists (pre ++ [a; x]); rewrite <- app_assoc; split_and!; [done | done |];
      assert (Hle : name_le a x) by (unfold name_le, key_cmp, strcmp_le; by rewrite Hc); by apply sorted_two.
    rewrite cwrite_ok by (rewrite length_app; cbn; lia). cstep. rewrite cwrite_ok by (rewrite length_insert, length_app; cbn; lia). cstep.
    rewrite insert_app_r_alt by lia. replace (S (length pre) - length pre) with 1 by lia. cbn [insert list_insert].
    rewrite insert_app_r_alt, Nat.sub_diag by lia. cbn [insert list_insert].
    destruct (IH (a :: post) Hpre) as (l & -> & Hp & Hl). exists (l ++ [a]). rewrite <- app_assoc. split_and!; [done | |].
    + rewrite Hp. rewrite <- !app_assoc. cbn. by rewrite (Permutation_swap x a).
    + apply StronglySorted_app. split_and!; [| done | repeat constructor]. intros y z Hy Hz%list_elem_of_singleton. subst z.
      rewrite Hp in Hy. apply elem_of_app in Hy as [Hy|Hy%list_elem_of_singleton]; [by apply Hpa |]. subst y.
      unfold name_le, key_cmp, strcmp_le. by rewrite (strcmp_antisym (fst a)), Hc.
Qed.

Lemma sort_vars_ok post pre : StronglySorted name_le pre ->
  exists l, sort_vars (length post) (length pre) (pre ++ post) = CRet l /\ l ≡ₚ pre ++ post /\ StronglySorted name_le l.
Proof.
  revert pre. induction post as [|x post IH]; intros pre Hs; cbn [length sort_vars]; [exists pre; by rewrite app_nil_r |].
  destruct (sift_ok pre x post Hs) as (l & -> & Hp & Hl). cstep. destruct (IH l Hl) as (l' & E & Hp' & Hl').
  assert (Hlen : length l = S (length pre)) by (rewrite Hp, length_app; cbn; lia). rewrite Hlen in E.
  exists l'. split_and!; [done | | done]. by rewrite Hp', Hp, <- app_assoc.
Qed.

(** ** What the shell reads *)

Lemma name_char_plain c : name_char c = true -> c <> "="%char /\ c <> NL.
Proof. intros H. split; intros ->; done. Qed.

Lemma name_plain s : name_ok s = true -> s <> [] /\ ("="%char ∉ s) /\ NL ∉ s.
Proof.
  destruct s as [|c s]; [done |]. cbn [name_ok]. intros [Hc Hs]%andb_prop. assert (Hc' : name_char c = true).
  { unfold name_start, name_char in *. destruct (between "A" c "Z"), (between "a" c "z"), (Ascii.eqb c "_"), (between "0" c "9"); done. }
  assert (Hall : Forall (fun c => c <> "="%char /\ c <> NL) (c :: s)).
  { constructor; [by apply name_char_plain |]. apply Forall_forall. intros x Hx. apply name_char_plain.
    by apply (proj1 (forallb_forall _ _) Hs), list_elem_of_In. }
  rewrite Forall_forall in Hall. split_and!; [done | |]; intros Hin; by destruct (Hall _ Hin).
Qed.

Lemma esc_value_line s : NL ∉ esc_value s.
Proof.
  induction s as [|c s IH]; [set_solver |]. rewrite esc_value_cons. unfold esc.
  destruct (Ascii.eqb_spec c BS); [set_solver |]. destruct (Ascii.eqb_spec c NL); set_solver.
Qed.

Lemma read_line_app l rest : NL ∉ l -> read_line (l ++ NL :: rest) = Some (l, rest).
Proof.
  induction l as [|c l IH]; intros H; [done |]. cbn [app read_line]. destruct (Ascii.eqb_spec c NL); [set_solver |]. by rewrite IH by set_solver.
Qed.

Lemma cut_equals_app name text : "="%char ∉ name -> cut_equals (name ++ "="%char :: text) = (name, text).
Proof.
  intros H. unfold cut_equals. assert (E : cut_at (name ++ "="%char :: text) = Some (name, text)); [| by rewrite E].
  induction name as [|c name IH]; [done |]. cbn [app cut_at]. destruct (Ascii.eqb_spec c "="); [set_solver |]. by rewrite IH by set_solver.
Qed.

Lemma percent_b_esc s : percent_b (esc_value s) = s.
Proof.
  induction s as [|c s IH]; [done |]. rewrite esc_value_cons. unfold esc.
  destruct (Ascii.eqb_spec c BS) as [->|Hb]; [cbn; by rewrite IH |]. destruct (Ascii.eqb_spec c NL) as [->|Hn]; [cbn; by rewrite IH |].
  cbn [app percent_b]. destruct (esc_value s) as [|d rest] eqn:E; [by rewrite <- IH |].
  rewrite (proj2 (Ascii.eqb_neq c BS)) by done. cbn [andb]. by rewrite IH.
Qed.

Lemma substitution_dot s : substitution (s ++ ["."%char]) = s ++ ["."%char].
Proof. induction s as [|c s IH]; [done |]. cbn [app substitution]. rewrite IH. by destruct s. Qed.

Lemma drop_dot_app s : drop_dot (s ++ ["."%char]) = s.
Proof. unfold drop_dot. rewrite reverse_app, reverse_singleton. cbn [app]. by rewrite Ascii.eqb_refl, reverse_involutive. Qed.

(** The variables of a list over those of a map: of two with one name the later
    one counts. *)
Definition over (env : gmap bytes bytes) (vars : list (bytes * bytes)) : gmap bytes bytes :=
  foldl (fun env v => <[fst v := snd v]> env) env vars.

(** The environment the command gets. *)
Definition handed_on (env : gmap bytes bytes) (vars : list (bytes * bytes)) : gmap bytes bytes := delete qwe_v (delete qwe_l (over env vars)).

Lemma lookup_exported sh n : exported sh !! n = match sh !! n with Some (v, true) => Some v | _ => None end.
Proof. unfold exported. rewrite lookup_omap. by destruct (sh !! n) as [[v []]|]. Qed.

Lemma exported_started env : exported (started env) = env.
Proof. apply map_eq. intros n. unfold started. rewrite lookup_exported, lookup_fmap. by destruct (env !! n). Qed.

(** Two shells that differ in the script's own variables only hand on the same. *)
Definition alike (env : gmap bytes bytes) (sh : shell) : Prop := forall n, n <> qwe_l -> n <> qwe_v -> exported sh !! n = env !! n.

Lemma alike_assign env sh name value : name = qwe_l \/ name = qwe_v -> alike env sh -> alike env (assign name value sh).
Proof. intros Hname Ha n Hl Hv. rewrite <- (Ha n Hl Hv), !lookup_exported. unfold assign. rewrite lookup_insert_ne; [done | naive_solver]. Qed.

Lemma alike_export env sh name value : alike env sh -> alike (<[name := value]> env) (export name value sh).
Proof.
  intros Ha n Hl Hv. specialize (Ha n Hl Hv). rewrite lookup_exported in *. unfold export. destruct (decide (n = name)) as [->|Hne].
  - by rewrite !lookup_insert_eq.
  - by rewrite !lookup_insert_ne.
Qed.

Lemma alike_exec env sh input : alike env sh -> exec_script sh input = ExecSh (delete qwe_v (delete qwe_l env)) input.
Proof.
  intros Ha. unfold exec_script. f_equal. apply map_eq. intros n. rewrite lookup_exported.
  destruct (decide (n = qwe_v)) as [->|Hv]; [by rewrite !lookup_delete_eq |]. rewrite !(lookup_delete_ne _ qwe_v) by done.
  destruct (decide (n = qwe_l)) as [->|Hl]; [by rewrite !lookup_delete_eq |]. rewrite !lookup_delete_ne by done.
  by rewrite <- (Ha n Hl Hv), lookup_exported.
Qed.

Lemma get_assign name value sh : get name (assign name value sh) = value.
Proof. unfold get, assign. by rewrite lookup_insert_eq. Qed.

Lemma get_assign_ne name name' value sh : name <> name' -> get name (assign name' value sh) = get name sh.
Proof. intros H. unfold get, assign. by rewrite lookup_insert_ne. Qed.

Lemma bootstrap_reads vars rest forks env sh fuel : Forall (fun v => name_ok (fst v) = true) vars -> length vars < fuel -> alike env sh ->
  exists e, bootstrap_loop fuel forks sh (preamble vars ++ rest) = CRet e /\
  (e = ExecSh (handed_on env vars) rest \/ e = Exit 125 /\ false ∈ forks).
Proof.
  intros Hn. revert forks env sh fuel. induction Hn as [|[name value] vars Hv _ IH]; intros forks env sh [|fuel] Hf Ha; cbn in Hf; try lia; cbn [bootstrap_loop].
  - change (read_line (preamble [] ++ rest)) with (Some ([] : bytes, rest)). cbv beta iota zeta. rewrite get_assign. cbn [length Nat.eqb].
    eexists. split; [reflexivity |]. left. by rewrite (alike_exec env) by (apply alike_assign; auto).
  - cbn [fst] in Hv. destruct (name_plain name Hv) as (Hne & Heq & Hnl). rewrite preamble_cons. unfold var_line. cbn [fst snd].
    assert (El : ((name ++ "="%char :: esc_value value ++ [NL]) ++ preamble vars) ++ rest =
                 (name ++ "="%char :: esc_value value) ++ NL :: (preamble vars ++ rest)).
    { rewrite <- !app_assoc. cbn [app]. rewrite <- !app_assoc. done. }
    rewrite El, read_line_app. 2: { pose proof (esc_value_line value). set_solver. }
    rewrite !get_assign. replace (length (name ++ "="%char :: esc_value value) =? 0) with false by by destruct name.
    rewrite cut_equals_app by done. cbn [snd]. rewrite percent_b_esc, substitution_dot.
    destruct (alloc forks) as [ok forks'] eqn:Ef. destruct ok; cbn [negb].
    2: { eexists. split; [reflexivity |]. right. split; [done |]. destruct forks as [|b forks]; [done |]. injection Ef as -> _. by left. }
    rewrite get_assign_ne, !get_assign, cut_equals_app by done. cbn [fst]. rewrite Hv, drop_dot_app. cbn [negb].
    destruct (IH forks' (<[name := value]> env) (export name value (assign qwe_v (value ++ ["."%char]) (assign qwe_l (name ++ "="%char :: esc_value value) sh))) fuel)
      as (e & -> & He); [lia | apply alike_export; do 2 (apply alike_assign; [auto |]); done |].
    exists e. split; [done |]. destruct He as [->|[-> Hin]]; [by left |]. right. split; [done |].
    destruct forks as [|b forks]; [by injection Ef as <- |]. injection Ef as _ <-. by right.
Qed.

Lemma length_preamble vars : length vars < length (preamble vars).
Proof.
  induction vars as [|v vars IH]; [cbn; lia |]. rewrite preamble_cons, length_app. unfold var_line. rewrite length_app. cbn [length]. lia.
Qed.

Lemma preamble_build_ok mem vars :
  exists r, qwe_preamble_build mem vars = CRet r /\
  match r with
  | inr out => Forall (fun v => name_ok (fst v) = true) vars /\ out = preamble vars
  | inl (Some bad) => exists v, vars !! bad = Some v /\ name_ok (fst v) = false
  | inl None => mem <> [] /\ Forall (fun v => name_ok (fst v) = true) vars
  end.
Proof.
  unfold qwe_preamble_build. pose proof (preamble_cap_ok 0 1 vars) as H. destruct (preamble_cap 0 1 vars) as [bad|cap].
  - eexists. split; [reflexivity |]. destruct H as (v & Hv & Hn & _). rewrite Nat.sub_0_r in Hv. by exists v.
  - destruct H as [Hn Hc]. destruct (alloc mem) as [ok mem'] eqn:Em. destruct ok; cbn [negb].
    + rewrite put_vars_ok by (cbn [length]; lia). cstep. eexists. by split.
    + eexists. split; [reflexivity |]. split; [by intros -> | done].
Qed.

(** ** The whole way *)

(** The variables of a table of strings, as C strings. *)
Fixpoint table_vars (fields : list (lkey * lua)) : list (bytes * bytes) :=
  match fields with
  | (KStr k, LStr v) :: fields => (cstr k, cstr v) :: table_vars fields
  | _ :: fields => table_vars fields
  | [] => []
  end.

Definition string_field (f : lkey * lua) : bool := match f with (KStr _, LStr _) => true | _ => false end.

Lemma env_keys_ok fields :
  match env_keys fields with
  | Some keys => forallb string_field fields = true /\ length keys = length fields /\ KStr <$> keys = fst <$> fields
  | None => forallb string_field fields = false
  end.
Proof.
  induction fields as [|[[k|] v] fields IH]; cbn; try done. destruct v; cbn; try done.
  destruct (env_keys fields); cbn; [| done]. destruct IH as (? & ? & E). split_and!; [done | lia | by rewrite E].
Qed.

Lemma env_vars_ok before fields keys : NoDup (fst <$> before ++ fields) -> forallb string_field fields = true -> KStr <$> keys = fst <$> fields ->
  env_vars keys (before ++ fields) = CRet (table_vars fields).
Proof.
  revert before keys. induction fields as [|[[k|] v] fields IH]; intros before keys Hd Hs Hk; cbn in Hs; try done.
  { by destruct keys. }
  destruct v as [| | |s| | | |]; try done. destruct keys as [|k' keys]; [done |]. cbn in Hk. injection Hk as -> Hk. cbn [env_vars].
  assert (Hg : get_field k (before ++ (KStr k, LStr s) :: fields) = LStr s).
  { rewrite fmap_app in Hd. apply NoDup_app in Hd as (_ & Hd & _). clear IH. induction before as [|[[k'|] v'] before IH]; cbn [app get_field].
    - by rewrite decide_True.
    - rewrite decide_False; [apply IH; intros x Hx; apply Hd; by right |]. intros ->. apply (Hd (KStr k)); [by left | by left].
    - apply IH. intros x Hx. apply Hd. by right. }
  rewrite Hg. specialize (IH (before ++ [(KStr k, LStr s)]) keys). rewrite <- app_assoc in IH. cbn [app] in IH. by rewrite (IH Hd Hs Hk).
Qed.

Lemma length_table_vars fields : forallb string_field fields = true -> length (table_vars fields) = length fields.
Proof. induction fields as [|[[k|] v] fields IH]; cbn; try done. destruct v; cbn; try done. intros H. by rewrite IH. Qed.

Lemma over_lookup env vars n : NoDup (fst <$> vars) ->
  over env vars !! n = match list_to_map (M := gmap bytes bytes) vars !! n with Some v => Some v | None => env !! n end.
Proof.
  unfold over. revert env. induction vars as [|[m v] vars IH]; intros env Hnd; [done |].
  apply NoDup_cons in Hnd as [Hm Hnd]. cbn [fst] in Hm. cbn [foldl fst snd]. rewrite IH by done. rewrite list_to_map_cons.
  destruct (decide (n = m)) as [->|Hne].
  - by rewrite !lookup_insert_eq, (not_elem_of_list_to_map_1 vars m Hm).
  - by rewrite !lookup_insert_ne.
Qed.

Lemma handed_on_lookup env vars n : NoDup (fst <$> vars) ->
  handed_on env vars !! n =
    if bool_decide (n = qwe_l \/ n = qwe_v) then None
    else match list_to_map (M := gmap bytes bytes) vars !! n with Some v => Some v | None => env !! n end.
Proof.
  intros Hnd. unfold handed_on. case_bool_decide as H.
  - destruct H as [->| ->]; [rewrite lookup_delete_ne by done |]; apply lookup_delete_eq.
  - rewrite !lookup_delete_ne by naive_solver. by apply over_lookup.
Qed.

(** C22. The environment arrives.  For every table of a Lua state, every
    environment the shell starts with and every input behind the preamble: the
    preamble is built inside its buffer or refused for a reason; if it is built, the
    bootstrap shell that reads it either exits with 125, when it got no process for
    a command substitution, or hands the command exactly its own environment with
    the table's variables over it, less the script's own [qwe_l] and [qwe_v] (which
    are lost even where the table has them), each value byte for byte up to a NUL
    (newlines and backslashes included), and the rest of the input as it was.  Two
    keys that are the same up to a NUL are one variable; where there are none, what
    the command has for a name is the table's value or else the inherited one. *)
Theorem environment_arrives mem forks env seq fields rest : NoDup (fst <$> fields) ->
  exists r, exec_preamble mem seq fields = CRet r /\
  match r with
  | inr out => exists vars e, vars ≡ₚ table_vars fields /\ length vars = length fields /\ StronglySorted name_le vars /\
      Forall (fun v => name_ok (fst v) = true) vars /\ bootstrap forks env (out ++ rest) = CRet e /\
      (e = ExecSh (handed_on env vars) rest \/ e = Exit 125 /\ false ∈ forks) /\
      (NoDup (fst <$> table_vars fields) -> forall n, handed_on env vars !! n =
        if bool_decide (n = qwe_l \/ n = qwe_v) then None
        else match list_to_map (M := gmap bytes bytes) (table_vars fields) !! n with Some v => Some v | None => env !! n end)
  | inl NotStrings => has_number_key seq = true \/ forallb string_field fields = false
  | inl OutOfMemory => mem <> []
  | inl (BadName name) => mem <> [] \/ name ∈ (fst <$> table_vars fields) /\ name_ok name = false
  end.
Proof.
  intros Hd. unfold exec_preamble. destruct (has_number_key seq); [eexists; split; [reflexivity | by left] |].
  pose proof (env_keys_ok fields) as Hk. destruct (env_keys fields) as [keys|]; [| eexists; split; [reflexivity | by right]]. destruct Hk as (Hs & Hlen & Hk).
  destruct (if length keys =? 0 then (true, mem) else let '(ok1, mem) := alloc mem in let '(ok2, mem) := alloc mem in (ok1 && ok2, mem)) as [ok mem'] eqn:Em.
  assert (Hm : mem = [] -> ok = true /\ mem' = []) by (intros ->; destruct (_ =? _); by injection Em as <- <-).
  destruct ok; cbn [negb]; [| eexists; split; [reflexivity |]; intros Hmem; by destruct (Hm Hmem)].
  pose proof (env_vars_ok [] fields keys Hd Hs Hk) as Hvars. cbn [app] in Hvars. rewrite Hvars. cstep. pose proof (length_table_vars _ Hs) as Hl.
  assert (Hsort : exists vars, sort_vars (length keys - 1) 1 (table_vars fields) = CRet vars /\ vars ≡ₚ table_vars fields /\ StronglySorted name_le vars).
  { destruct (table_vars fields) as [|v vs] eqn:Ev; cbn in Hl; [exists []; rewrite Hlen, <- Hl; by split_and!; [| | constructor] |].
    replace (length keys - 1) with (length vs) by lia. apply (sort_vars_ok vs [v]). repeat constructor. }
  destruct Hsort as (vars & -> & Hp & Hss). cstep. destruct (preamble_build_ok mem' vars) as (r & -> & Hr). cstep.
  assert (Hlv : length vars = length fields) by by rewrite Hp.
  destruct r as [[bad|]|out].
  - destruct Hr as (v & Hv & Hn). pose proof (lookup_lt_Some _ _ _ Hv) as Hb. cbn [default from_option id].
    rewrite (proj2 (Nat.eqb_neq (length keys) 0)), (proj2 (Nat.ltb_lt bad (length keys))), (cread_Some _ _ _ Hv) by lia. cstep.
    eexists. split; [reflexivity |]. right. split; [| done]. rewrite <- Hp. apply list_elem_of_fmap_2. by eapply list_elem_of_lookup_2.
  - cbn [default from_option id]. destruct Hr as [Hm' _]. assert (Hmem : mem <> []) by naive_solver.
    destruct (Nat.eqb_spec (length keys) 0) as [E|E]; [eexists; split; [reflexivity |]; by left |].
    rewrite (proj2 (Nat.ltb_lt 0 (length keys))) by lia. destruct (lookup_lt_is_Some_2 vars 0 ltac:(lia)) as [v Hv].
    rewrite (cread_Some _ _ _ Hv). cstep. eexists. split; [reflexivity |]. by left.
  - destruct Hr as [Hn ->]. eexists. split; [reflexivity |]. destruct (bootstrap_reads vars rest forks env (started env) (S (length (preamble vars ++ rest))) Hn) as (e & He & Hend).
    + rewrite length_app. pose proof (length_preamble vars). lia.
    + intros n _ _. by rewrite exported_started.
    + exists vars, e. split_and!; try done. intros Hnd n. rewrite handed_on_lookup by (by rewrite Hp).
      by rewrite (list_to_map_proper vars (table_vars fields)) by (rewrite ?Hp; done).
Qed.

Definition sample_env : list (lkey * lua) :=
  [(KStr (bytes_of "PATH"), LStr (bytes_of "/bin:C:\temp")); (KStr (bytes_of "A_1"), LStr (bytes_of "two" ++ [NL] ++ bytes_of "lines=1" ++ [NL; NL]));
   (KStr qwe_v, LStr (bytes_of "x"))].

(** Two variables inherited, one of which the table has too. *)
Definition sample_inherited : gmap bytes bytes := <[bytes_of "PATH" := bytes_of "/bin"]> (<[bytes_of "HOME" := bytes_of "/root"]> ∅).

Definition sample_out : bytes := match exec_preamble [] [] sample_env with CRet (inr out) => out | _ => [] end.

(** The script's own variable is not handed on though the table has it. *)
Lemma own_variable_lost : (KStr qwe_v, LStr (bytes_of "x")) ∈ sample_env /\
  exec_preamble [] [] sample_env = CRet (inr sample_out) /\
  match bootstrap [] sample_inherited (sample_out ++ bytes_of "input") with
  | CRet (ExecSh env rest) => env !! qwe_v = None /\ env !! bytes_of "HOME" = Some (bytes_of "/root") /\
      env !! bytes_of "PATH" = Some (bytes_of "/bin:C:\temp") /\
      env !! bytes_of "A_1" = Some (bytes_of "two" ++ [NL] ++ bytes_of "lines=1" ++ [NL; NL]) /\ rest = bytes_of "input"
  | _ => False
  end.
Proof. split; [by do 2 right; left |]. by vm_compute. Qed.

Lemma environment_arrives_witness :
  exec_preamble [] [] sample_env = CRet (inr sample_out) /\
  exists r, exec_preamble [] [] sample_env = CRet r /\
  match r with
  | inr out => exists vars e, vars ≡ₚ table_vars sample_env /\ length vars = length sample_env /\ StronglySorted name_le vars /\
      Forall (fun v => name_ok (fst v) = true) vars /\ bootstrap [] sample_inherited (out ++ bytes_of "input") = CRet e /\
      (e = ExecSh (handed_on sample_inherited vars) (bytes_of "input") \/ e = Exit 125 /\ false ∈ []) /\
      (NoDup (fst <$> table_vars sample_env) -> forall n, handed_on sample_inherited vars !! n =
        if bool_decide (n = qwe_l \/ n = qwe_v) then None
        else match list_to_map (M := gmap bytes bytes) (table_vars sample_env) !! n with Some v => Some v | None => sample_inherited !! n end)
  | inl NotStrings => has_number_key [] = true \/ forallb string_field sample_env = false
  | inl OutOfMemory => [] <> [] :> list bool
  | inl (BadName name) => [] <> [] :> list bool \/ name ∈ (fst <$> table_vars sample_env) /\ name_ok name = false
  end.
Proof.
  split; [vm_compute; reflexivity |]. apply environment_arrives. apply (NoDup_fmap_1 (fun k => match k with KStr s => s | _ => [] end)), (bool_decide_unpack _). vm_compute. exact I.
Defined.

(** Without memory for the buffer the first variable is blamed, whose name is
    fine. *)
Lemma preamble_blames_a_good_name : exec_preamble [true; true; false] [] sample_env = CRet (inl (BadName (bytes_of "A_1"))) /\
  name_ok (bytes_of "A_1") = true.
Proof. by vm_compute. Qed.
