(* ===== verification/Base64.v ===== *)
(** * Base64, as the bundled libsodium writes and reads it

    Models [sodium_bin2base64] and [sodium_base642bin] of
    [src/third_party/libsodium/src/sodium/codecs.c], as [src/secrets] calls them:
    the original alphabet, with padding, and no characters to ignore.  The
    accumulator is an [unsigned int], and wraps at 32 bits.  A character is what a
    signed [char] is promoted to. *)

From Stdlib Require Import Ascii String NArith ZArith Lia.
From stdpp Require Import base list numbers.
From S2P Require Import Prelude Redact Cbor CborOk.

Open Scope Z_scope.

Definition u32 (x : Z) : Z := x mod 2 ^ 32.

(** ** Comparisons without branches *)

Definition EQ (x y : Z) : Z := Z.lxor (Z.land (Z.shiftr (u32 (0 - Z.lxor (u32 x) (u32 y))) 8) 255) 255.
Definition GT (x y : Z) : Z := Z.land (Z.shiftr (u32 (u32 y - u32 x)) 8) 255.
Definition GE (x y : Z) : Z := Z.lxor (GT y x) 255.
Definition LT (x y : Z) : Z := GT y x.
Definition LE (x y : Z) : Z := GE y x.

(** The codes of the letters. *)
Definition cA : Z := 65.
Definition cZ : Z := 90.
Definition ca : Z := 97.
Definition cz : Z := 122.
Definition c0 : Z := 48.
Definition c9 : Z := 57.
Definition cplus : Z := 43.
Definition cslash : Z := 47.

Definition b64_byte_to_char (x : Z) : Z :=
  Z.lor (Z.lor (Z.lor (Z.lor (Z.land (LT x 26) (u32 (x + cA)))
    (Z.land (Z.land (GE x 26) (LT x 52)) (u32 (x + (ca - 26)))))
    (Z.land (Z.land (GE x 52) (LT x 62)) (u32 (x + (c0 - 52)))))
    (Z.land (EQ x 62) cplus))
    (Z.land (EQ x 63) cslash).

Definition b64_char_to_byte (c : Z) : Z :=
  let x := Z.lor (Z.lor (Z.lor (Z.lor (Z.land (Z.land (GE c cA) (LE c cZ)) (u32 (c - cA)))
    (Z.land (Z.land (GE c ca) (LE c cz)) (u32 (c - (ca - 26)))))
    (Z.land (Z.land (GE c c0) (LE c c9)) (u32 (c - (c0 - 52)))))
    (Z.land (EQ c cplus) 62))
    (Z.land (EQ c cslash) 63) in
  Z.lor x (Z.land (EQ x 0) (Z.lxor (EQ c cA) 255)).

(** A byte as [char] holds it: signed. *)
Definition char_value (a : ascii) : Z := if Zb a <? 128 then Zb a else Zb a - 256.

(** ** Encoding *)

(** [while (acc_len >= 6)]: at most twice. *)
Fixpoint emit (fuel : nat) (acc acc_len : Z) (out : bytes) : cres (Z * bytes) :=
  if 6 <=? acc_len then
    match fuel with
    | O => CFuel
    | S fuel =>
        let acc_len := acc_len - 6 in
        emit fuel acc acc_len (out ++ [byte (b64_byte_to_char (Z.land (Z.shiftr acc acc_len) 63))])
    end
  else mret (acc_len, out).

Fixpoint encode_loop (bin : bytes) (acc acc_len : Z) (out : bytes) : cres (Z * Z * bytes) :=
  match bin with
  | [] => mret (acc, acc_len, out)
  | b :: bin =>
      let acc := u32 (Z.shiftl acc 8 + Zb b) in
      '(acc_len, out) ← emit 2 acc (acc_len + 8) out;
      encode_loop bin acc acc_len out
  end.

Definition b64_length (n : nat) : nat := (n / 3 * 4 + (if (n - 3 * (n / 3) =? 0)%nat then 0 else 4))%nat.

(** What is written, up to its NUL; with no room for that, [sodium_misuse]
    aborts, and so does the assertion. *)
Definition sodium_bin2base64 (maxlen : nat) (bin : bytes) : cres bytes :=
  let len := b64_length (length bin) in
  if (maxlen <=? len)%nat then CAbort
  else
    '(acc, acc_len, out) ← encode_loop bin 0 0 [];
    let out := if 0 <? acc_len then out ++ [byte (b64_byte_to_char (Z.land (u32 (Z.shiftl acc (6 - acc_len))) 63))] else out in
    if (length out <=? len)%nat then mret (out ++ replicate (len - length out)%nat "="%char) else CAbort.

(** ** Decoding *)

(** The loop: why it stopped, the accumulator, the bytes, and the text not read. *)
Fixpoint decode_loop (maxlen : nat) (b64 : bytes) (acc acc_len : Z) (bin : bytes) : bool * Z * Z * bytes * bytes :=
  match b64 with
  | [] => (true, acc, acc_len, bin, [])
  | c :: rest =>
      let d := b64_char_to_byte (char_value c) in
      if d =? 255 then (true, acc, acc_len, bin, b64)
      else
        let acc := u32 (Z.shiftl acc 6 + d) in
        let acc_len := acc_len + 6 in
        if 8 <=? acc_len then
          let acc_len := acc_len - 8 in
          if (maxlen <=? length bin)%nat then (false, acc, acc_len, bin, b64)
          else decode_loop maxlen rest acc acc_len (bin ++ [byte (Z.land (Z.shiftr acc acc_len) 255)])
        else decode_loop maxlen rest acc acc_len bin
  end.

Fixpoint skip_padding (n : nat) (b64 : bytes) : option bytes :=
  match n with
  | O => Some b64
  | S n =>
      match b64 with
      | c :: b64 => if Ascii.eqb c "=" then skip_padding n b64 else None
      | [] => None
      end
  end.

(** What the loop's end makes of it. *)
Definition decode_end (r : bool * Z * Z * bytes * bytes) : option bytes :=
  let '(ok, acc, acc_len, bin, rest) := r in
  if (4 <? acc_len) || negb (Z.land acc (Z.shiftl 1 acc_len - 1) =? 0) then None
  else if negb ok then None
  else
    match skip_padding (Z.to_nat (acc_len / 2)) rest with
    | Some [] => Some bin
    | _ => None
    end.

(** [Some bin]: 0, with [*bin_len]. *)
Definition sodium_base642bin (maxlen : nat) (b64 : bytes) : option bytes := decode_end (decode_loop maxlen b64 0 0 []).

(** ** Digits *)

(** The character of a digit, and the digit of a character (255 for none). *)
Definition ch (d : Z) : ascii := byte (b64_byte_to_char d).
Definition val (c : ascii) : Z := b64_char_to_byte (char_value c).

Lemma val_ch d : 0 <= d < 64 -> val (ch d) = d.
Proof.
  intros H. assert (Hall : forallb (fun n => val (ch (Z.of_nat n)) =? Z.of_nat n) (seq 0 64) = true) by (vm_compute; reflexivity).
  apply (proj1 (forallb_forall _ _)) with (x := Z.to_nat d) in Hall; [| apply in_seq; lia].
  apply Z.eqb_eq in Hall. by rewrite Z2Nat.id in Hall by lia.
Qed.

(** [EQ] is meant for 0 to 255; a [char] above 127 is negative, and is taken for a
    slash. *)
Definition norm (c : ascii) : ascii := if Zb c <? 128 then c else "/"%char.

Lemma ch_val c : val c <> 255 -> 0 <= val c < 64 /\ ch (val c) = norm c.
Proof.
  intros H. assert (Hc : (val c =? 255) || ((0 <=? val c) && (val c <? 64) && Ascii.eqb (ch (val c)) (norm c)) = true).
  { clear H. destruct c as [[] [] [] [] [] [] [] []]; vm_compute; reflexivity. }
  apply orb_prop in Hc as [Hc%Z.eqb_eq|[[H1%Z.leb_le H2%Z.ltb_lt]%andb_prop H3%Ascii.eqb_eq]%andb_prop]; [done |]. split; [lia | done].
Qed.

Lemma ch_not_pad d : 0 <= d < 64 -> ch d <> "="%char.
Proof. intros H E. pose proof (val_ch d H) as Hv. rewrite E in Hv. vm_compute in Hv. lia. Qed.

(** ** Bits *)

Lemma bits_below x j m : 0 <= j -> 0 <= m -> Z.land (Z.shiftr x j) (2 ^ m - 1) = (x mod 2 ^ (j + m)) / 2 ^ j.
Proof.
  intros Hj Hm. rewrite Z.sub_1_r, <- Z.ones_equiv, Z.land_ones, Z.shiftr_div_pow2 by done.
  rewrite Z.pow_add_r by done. rewrite Z.rem_mul_r by (try apply Z.pow_nonzero; lia). rewrite Z.add_comm, Z.mul_comm, Z.div_add_l by (apply Z.pow_nonzero; lia).
  rewrite (Z.div_small (x mod 2 ^ j)) by (apply Z.mod_pos_bound; lia). lia.
Qed.

Lemma u32_mod x k : 0 <= k <= 32 -> u32 x mod 2 ^ k = x mod 2 ^ k.
Proof.
  intros Hk. unfold u32. replace (2 ^ 32) with (2 ^ k * 2 ^ (32 - k)) by (rewrite <- Z.pow_add_r by lia; f_equal; lia).
  rewrite Z.rem_mul_r by (try apply Z.pow_nonzero; lia). rewrite Z.mul_comm, Z.mod_add by (apply Z.pow_nonzero; lia). by rewrite Z.mod_mod by (apply Z.pow_nonzero; lia).
Qed.

(** The accumulator takes [w] more bits. *)
Lemma push_bits acc w x k r : 0 <= w -> 0 <= k -> k + w <= 32 -> 0 <= x < 2 ^ w -> acc mod 2 ^ k = r ->
  u32 (Z.shiftl acc w + x) mod 2 ^ (k + w) = r * 2 ^ w + x.
Proof.
  intros Hw Hk Hkw Hx <-. rewrite u32_mod by lia. rewrite Z.shiftl_mul_pow2 by done.
  assert (Hp : 2 ^ w <> 0) by (apply Z.pow_nonzero; lia). assert (Hq : 0 < 2 ^ k) by (apply Z.pow_pos_nonneg; lia).
  rewrite (Z.add_comm k w). rewrite Z.pow_add_r by lia. rewrite Z.rem_mul_r by lia. rewrite Z.div_add_l, (Z.div_small x) by done.
  rewrite (Z.add_comm (acc * 2 ^ w)), Z.mod_add, Z.mod_small by done. rewrite Z.add_0_r. ring.
Qed.

(** What is left of it once the upper bits are out. *)
Lemma lower_bits x j k : 0 <= j <= k -> x mod 2 ^ j = (x mod 2 ^ k) mod 2 ^ j.
Proof.
  intros H. replace (2 ^ k) with (2 ^ j * 2 ^ (k - j)) by (rewrite <- Z.pow_add_r by lia; f_equal; lia).
  rewrite Z.rem_mul_r by (try apply Z.pow_nonzero; lia). rewrite Z.mul_comm, Z.mod_add by (apply Z.pow_nonzero; lia). by rewrite Z.mod_mod by (apply Z.pow_nonzero; lia).
Qed.

(** ** The text of some bytes *)

Fixpoint digits (bin : bytes) : list Z :=
  match bin with
  | [] => []
  | a :: bin =>
      let t1 := Zb a in
      match bin with
      | [] => [t1 / 4; t1 mod 4 * 16]
      | b :: bin =>
          let t2 := t1 mod 4 * 256 + Zb b in
          match bin with
          | [] => [t1 / 4; t2 / 16; t2 mod 16 * 4]
          | c :: bin => let t3 := t2 mod 16 * 256 + Zb c in t1 / 4 :: t2 / 16 :: t3 / 64 :: t3 mod 64 :: digits bin
          end
      end
  end.

Fixpoint padding (bin : bytes) : bytes :=
  match bin with
  | [] => []
  | [a] => ["="%char; "="%char]
  | [a; b] => ["="%char]
  | a :: b :: c :: bin => padding bin
  end.

Definition base64 (bin : bytes) : bytes := (ch <$> digits bin) ++ padding bin.

(** Three bytes at a time. *)
Lemma by_threes (P : bytes -> Prop) : P [] -> (forall a, P [a]) -> (forall a b, P [a; b]) -> (forall a b c bin, P bin -> P (a :: b :: c :: bin)) ->
  forall bin, P bin.
Proof.
  intros H0 H1 H2 H3 bin. remember (length bin) as n eqn:Hn. revert bin Hn. induction n as [n IH] using (well_founded_induction lt_wf).
  intros [|a [|b [|c bin]]] ->; auto. apply H3, (IH (length bin)); cbn; [lia | done].
Qed.

Ltac bytes_in_range := repeat match goal with a : ascii |- _ => let H := fresh in pose proof (Zb_range a) as H; revert a H end; intros.

Ltac divmod := Z.div_mod_to_equations; lia.

Lemma emit_one acc l T out : 6 <= l < 12 -> acc mod 2 ^ l = T -> emit 2 acc l out = CRet (l - 6, out ++ [ch (T / 2 ^ (l - 6))]).
Proof.
  intros Hl <-. cbn [emit]. rewrite (proj2 (Z.leb_le 6 l)), (proj2 (Z.leb_gt 6 (l - 6))) by lia. change 63 with (2 ^ 6 - 1).
  rewrite bits_below by lia. by replace (l - 6 + 6) with l by lia.
Qed.

Lemma emit_two acc T out : acc mod 2 ^ 12 = T -> emit 2 acc 12 out = CRet (0, out ++ [ch (T / 2 ^ 6); ch (T mod 2 ^ 6)]).
Proof.
  intros <-. cbn [emit]. change (6 <=? 12) with true. change (6 <=? 12 - 6) with true. change (6 <=? 12 - 6 - 6) with false. cbn iota.
  change 63 with (2 ^ 6 - 1). rewrite !bits_below by lia. rewrite <- app_assoc. cbn [app]. change (12 - 6 - 6) with 0. do 4 f_equal.
  change (0 + 6) with 6. rewrite Z.pow_0_r, Z.div_1_r. by rewrite <- lower_bits.
Qed.

(** A byte behind [l] bits makes a digit, and leaves two bits more. *)
Lemma encode_byte b bin acc l r out : l = 0 \/ l = 2 -> acc mod 2 ^ l = r ->
  let T := r * 256 + Zb b in
  exists acc', acc' mod 2 ^ (l + 2) = T mod 2 ^ (l + 2) /\
    encode_loop (b :: bin) acc l out = encode_loop bin acc' (l + 2) (out ++ [ch (T / 2 ^ (l + 2))]).
Proof.
  intros Hl Hr T. pose proof (Zb_range b) as Hb. exists (u32 (Z.shiftl acc 8 + Zb b)).
  pose proof (push_bits acc 8 (Zb b) l r ltac:(lia) ltac:(lia) ltac:(lia) Hb Hr) as E. split.
  - rewrite (lower_bits _ (l + 2) (l + 8)) by lia. by rewrite E.
  - cbn [encode_loop]. rewrite (emit_one _ (l + 8) _ _ ltac:(lia) E). cstep. by replace (l + 8 - 6) with (l + 2) by lia.
Qed.

(** Behind four bits it makes two, and leaves none. *)
Lemma encode_last b bin acc r out : acc mod 2 ^ 4 = r ->
  let T := r * 256 + Zb b in
  exists acc', encode_loop (b :: bin) acc 4 out = encode_loop bin acc' 0 (out ++ [ch (T / 64); ch (T mod 64)]).
Proof.
  intros Hr T. pose proof (Zb_range b) as Hb. exists (u32 (Z.shiftl acc 8 + Zb b)).
  pose proof (push_bits acc 8 (Zb b) 4 r ltac:(lia) ltac:(lia) ltac:(lia) Hb Hr) as E.
  cbn [encode_loop]. by rewrite (emit_two _ _ _ E).
Qed.

(** The digits still to come of [l] bits. *)
Lemma last_digit acc l r : l = 2 \/ l = 4 -> acc mod 2 ^ l = r ->
  byte (b64_byte_to_char (Z.land (u32 (Z.shiftl acc (6 - l))) 63)) = ch (r * 2 ^ (6 - l)).
Proof.
  intros Hl <-. unfold ch. do 2 f_equal. change 63 with (Z.ones 6). rewrite Z.land_ones, u32_mod, Z.shiftl_mul_pow2 by lia.
  replace (2 ^ 6) with (2 ^ l * 2 ^ (6 - l)) by (rewrite <- Z.pow_add_r by lia; f_equal; lia). by rewrite Z.mul_mod_distr_r by (apply Z.pow_nonzero; lia).
Qed.

Lemma encode_text bin acc out : exists acc' l o, encode_loop bin acc 0 out = CRet (acc', l, o) /\
  (if 0 <? l then o ++ [byte (b64_byte_to_char (Z.land (u32 (Z.shiftl acc' (6 - l))) 63))] else o) = out ++ (ch <$> digits bin).
Proof.
  assert (Hfirst : forall a bin acc out, exists acc', acc' mod 2 ^ 2 = Zb a mod 4 /\
      encode_loop (a :: bin) acc 0 out = encode_loop bin acc' 2 (out ++ [ch (Zb a / 4)])).
  { clear. intros a bin acc out. exact (encode_byte a bin acc 0 0 out ltac:(lia) (Z.mod_1_r acc)). }
  assert (Hsecond : forall b bin acc r out, acc mod 2 ^ 2 = r -> exists acc', acc' mod 2 ^ 4 = (r * 256 + Zb b) mod 16 /\
      encode_loop (b :: bin) acc 2 out = encode_loop bin acc' 4 (out ++ [ch ((r * 256 + Zb b) / 16)])).
  { clear. intros b bin acc r out Hr. exact (encode_byte b bin acc 2 r out ltac:(lia) Hr). }
  revert acc out. induction bin as [|a|a b|a b c bin IH] using by_threes; intros acc out.
  - exists acc, 0, out. split; [done |]. cbn. by rewrite app_nil_r.
  - destruct (Hfirst a [] acc out) as (acc1 & E1 & ->). eexists _, _, _. split; [reflexivity |].
    change (0 <? 2) with true. cbn iota. rewrite (last_digit acc1 2 _ ltac:(lia) E1), <- app_assoc. done.
  - destruct (Hfirst a [b] acc out) as (acc1 & E1 & ->). destruct (Hsecond b [] acc1 _ (out ++ [ch (Zb a / 4)]) E1) as (acc2 & E2 & ->).
    eexists _, _, _. split; [reflexivity |]. change (0 <? 4) with true. cbn iota. rewrite (last_digit acc2 4 _ ltac:(lia) E2), <- !app_assoc. done.
  - destruct (Hfirst a (b :: c :: bin) acc out) as (acc1 & E1 & ->).
    destruct (Hsecond b (c :: bin) acc1 _ (out ++ [ch (Zb a / 4)]) E1) as (acc2 & E2 & ->).
    destruct (encode_last c bin acc2 _ ((out ++ [ch (Zb a / 4)]) ++ [ch ((Zb a mod 4 * 256 + Zb b) / 16)]) E2) as (acc3 & ->).
    destruct (IH acc3 (((out ++ [ch (Zb a / 4)]) ++ [ch ((Zb a mod 4 * 256 + Zb b) / 16)]) ++
      [ch (((Zb a mod 4 * 256 + Zb b) mod 16 * 256 + Zb c) / 64); ch (((Zb a mod 4 * 256 + Zb b) mod 16 * 256 + Zb c) mod 64)])) as (acc' & l & o & -> & E).
    exists acc', l, o. split; [done |]. rewrite E, <- !app_assoc. done.
Qed.

Lemma b64_length_three n : (b64_length (S (S (S n))) = b64_length n + 4)%nat.
Proof.
  unfold b64_length. replace (S (S (S n))) with (n + 1 * 3)%nat by lia. rewrite Nat.div_add by lia.
  replace (n + 1 * 3 - 3 * (n / 3 + 1))%nat with (n - 3 * (n / 3))%nat by lia. lia.
Qed.

Lemma length_base64 bin : length (base64 bin) = b64_length (length bin) /\ padding bin = replicate (b64_length (length bin) - length (digits bin)) "="%char.
Proof.
  unfold base64. rewrite length_app, length_fmap.
  induction bin as [|a|a b|a b c bin [IH1 IH2]] using by_threes; [done | done | done |].
  cbn [length digits padding]. rewrite b64_length_three. split; [lia |]. rewrite IH2 at 1. f_equal. lia.
Qed.

Lemma bin2base64_ok maxlen bin : (b64_length (length bin) < maxlen)%nat -> sodium_bin2base64 maxlen bin = CRet (base64 bin).
Proof.
  intros Hm. unfold sodium_bin2base64. rewrite (proj2 (Nat.leb_gt _ _) Hm). destruct (encode_text bin 0 []) as (acc & l & o & -> & E). cstep.
  rewrite E. cbn [app]. destruct (length_base64 bin) as [Hl Hp]. pose proof Hl as Hl'. unfold base64 in Hl'. rewrite length_app in Hl'.
  rewrite (proj2 (Nat.leb_le _ _)) by lia. unfold base64. by rewrite Hp, length_fmap.
Qed.

(** ** Reading it back *)

Lemma decode_digit maxlen c rest acc k r bin : val c <> 255 -> k = 0 \/ k = 2 \/ k = 4 \/ k = 6 -> acc mod 2 ^ k = r ->
  exists acc', acc' mod 2 ^ (k + 6) = r * 64 + val c /\
  decode_loop maxlen (c :: rest) acc k bin =
    (if 8 <=? k + 6 then
       if (maxlen <=? length bin)%nat then (false, acc', k + 6 - 8, bin, c :: rest)
       else decode_loop maxlen rest acc' (k + 6 - 8) (bin ++ [byte ((r * 64 + val c) / 2 ^ (k + 6 - 8))])
     else decode_loop maxlen rest acc' (k + 6) bin).
Proof.
  intros Hv Hk Hr. destruct (ch_val c Hv) as [Hd _]. exists (u32 (Z.shiftl acc 6 + val c)).
  pose proof (push_bits acc 6 (val c) k r ltac:(lia) ltac:(lia) ltac:(lia) ltac:(lia) Hr) as E. split; [done |].
  cbn [decode_loop]. change (b64_char_to_byte (char_value c)) with (val c). rewrite (proj2 (Z.eqb_neq (val c) 255)) by lia.
  destruct (Z.leb_spec 8 (k + 6)); [| done]. destruct (_ <=? _)%nat; [done |]. do 3 f_equal. change 255 with (2 ^ 8 - 1).
  rewrite bits_below by lia. replace (k + 6 - 8 + 8) with (k + 6) by lia. by rewrite E.
Qed.

Lemma val_norm c d : norm c = ch d -> 0 <= d < 64 -> val c = d.
Proof.
  intros E Hd. rewrite <- (val_ch d Hd), <- E.
  assert (Hall : (val (norm c) =? val c) = true) by (destruct c as [[] [] [] [] [] [] [] []]; vm_compute; reflexivity).
  symmetry. by apply Z.eqb_eq.
Qed.

(** A stop after [k] bits that are not of a whole byte. *)
Lemma end_at acc k bin rest r : k = 0 \/ k = 2 \/ k = 4 -> acc mod 2 ^ k = r ->
  decode_end (true, acc, k, bin, rest) = if r =? 0 then match skip_padding (Z.to_nat (k / 2)) rest with Some [] => Some bin | _ => None end else None.
Proof.
  intros Hk <-. unfold decode_end. rewrite (proj2 (Z.ltb_ge 4 k)) by lia. cbn [orb].
  rewrite Z.shiftl_1_l, Z.sub_1_r, <- Z.ones_equiv, Z.land_ones by lia. by destruct (_ =? 0).
Qed.

Lemma end_full acc k bin rest : decode_end (false, acc, k, bin, rest) = None.
Proof. unfold decode_end. by destruct (_ || _). Qed.

Lemma end_six acc bin rest ok : decode_end (ok, acc, 6, bin, rest) = None.
Proof. done. Qed.

Lemma stop_at maxlen c rest acc k bin : val c = 255 -> decode_loop maxlen (c :: rest) acc k bin = (true, acc, k, bin, c :: rest).
Proof. intros H. cbn [decode_loop]. change (b64_char_to_byte (char_value c)) with (val c). by rewrite H. Qed.

(** Two digits make a byte, and leave four bits. *)
Lemma decode_two maxlen c1 c2 rest acc bin : val c1 <> 255 -> val c2 <> 255 ->
  let T := val c1 * 64 + val c2 in
  exists acc', acc' mod 2 ^ 4 = T mod 16 /\ decode_end (decode_loop maxlen (c1 :: c2 :: rest) acc 0 bin) =
    if (length bin <? maxlen)%nat then decode_end (decode_loop maxlen rest acc' 4 (bin ++ [byte (T / 16)])) else None.
Proof.
  intros H1 H2 T. destruct (decode_digit maxlen c1 (c2 :: rest) acc 0 0 bin H1 ltac:(lia) (Z.mod_1_r acc)) as (acc1 & E1 & ->).
  change (8 <=? 0 + 6) with false. cbn iota. change (0 + 6) with 6 in *. replace (0 * 64 + val c1) with (val c1) in E1 by lia.
  destruct (decode_digit maxlen c2 rest acc1 6 (val c1) bin H2 ltac:(lia) E1) as (acc2 & E2 & ->).
  change (8 <=? 6 + 6) with true. cbn iota. exists acc2. split; [rewrite (lower_bits acc2 4 12) by lia; change 12 with (6 + 6); by rewrite E2 |].
  destruct (Nat.leb_spec maxlen (length bin)), (Nat.ltb_spec (length bin) maxlen); try lia; [apply end_full | done].
Qed.

(** A third digit makes another, and leaves two. *)
Lemma decode_third maxlen c rest acc r bin : val c <> 255 -> acc mod 2 ^ 4 = r ->
  let T := r * 64 + val c in
  exists acc', acc' mod 2 ^ 2 = T mod 4 /\ decode_end (decode_loop maxlen (c :: rest) acc 4 bin) =
    if (length bin <? maxlen)%nat then decode_end (decode_loop maxlen rest acc' 2 (bin ++ [byte (T / 4)])) else None.
Proof.
  intros H Hr T. destruct (decode_digit maxlen c rest acc 4 r bin H ltac:(lia) Hr) as (acc1 & E1 & ->).
  change (8 <=? 4 + 6) with true. cbn iota. exists acc1. split; [rewrite (lower_bits acc1 2 10) by lia; change 10 with (4 + 6); by rewrite E1 |].
  destruct (Nat.leb_spec maxlen (length bin)), (Nat.ltb_spec (length bin) maxlen); try lia; [apply end_full | done].
Qed.

(** The fourth makes the third, and leaves none. *)
Lemma decode_fourth maxlen c rest acc r bin : val c <> 255 -> acc mod 2 ^ 2 = r ->
  exists acc', decode_end (decode_loop maxlen (c :: rest) acc 2 bin) =
    if (length bin <? maxlen)%nat then decode_end (decode_loop maxlen rest acc' 0 (bin ++ [byte (r * 64 + val c)])) else None.
Proof.
  intros H Hr. destruct (decode_digit maxlen c rest acc 2 r bin H ltac:(lia) Hr) as (acc1 & E1 & ->).
  change (8 <=? 2 + 6) with true. cbn iota. exists acc1. change (2 ^ (2 + 6 - 8)) with 1. rewrite Z.div_1_r.
  destruct (Nat.leb_spec maxlen (length bin)), (Nat.ltb_spec (length bin) maxlen); try lia; [apply end_full | done].
Qed.

Lemma val_range c : val c <> 255 -> 0 <= val c < 64.
Proof. intros H. by destruct (ch_val c H). Qed.

Lemma norm_val c : val c <> 255 -> norm c = ch (val c).
Proof. intros H. by destruct (ch_val c H). Qed.

Lemma skip_padding_exact n s : skip_padding n s = Some [] -> s = replicate n "="%char.
Proof.
  revert s. induction n as [|n IH]; intros [|c s]; cbn; try done. destruct (Ascii.eqb_spec c "="); [| done]. intros H. subst. f_equal. by apply IH.
Qed.

Lemma cons_ch d d' l l' : d = d' -> l = l' -> ch d :: l = ch d' :: l'.
Proof. by intros -> ->. Qed.

Lemma decode_sound maxlen s : forall acc bin0 bin, decode_end (decode_loop maxlen s acc 0 bin0) = Some bin ->
  exists new, bin = bin0 ++ new /\ (length new = 0 \/ length bin <= maxlen)%nat /\ norm <$> s = base64 new.
Proof.
  remember (length s) as n eqn:Hn. revert s Hn. induction n as [n IH] using (well_founded_induction lt_wf). intros s -> acc bin0 bin.
  destruct s as [|c1 s].
  { cbn [decode_loop]. rewrite (end_at acc 0 _ _ 0) by (try apply Z.mod_1_r; lia). intros [= <-]. exists []. rewrite app_nil_r. by split_and!; [| left |]. }
  destruct (decide (val c1 = 255)) as [H1|H1].
  { rewrite stop_at by done. by rewrite (end_at acc 0 _ _ 0) by (try apply Z.mod_1_r; lia). }
  assert (Hone : forall rest acc1, decode_end (true, acc1, 6, bin0, rest) = None) by (intros; apply end_six).
  destruct s as [|c2 s].
  { destruct (decode_digit maxlen c1 [] acc 0 0 bin0 H1 ltac:(lia) (Z.mod_1_r acc)) as (acc1 & _ & ->). done. }
  destruct (decide (val c2 = 255)) as [H2|H2].
  { destruct (decode_digit maxlen c1 (c2 :: s) acc 0 0 bin0 H1 ltac:(lia) (Z.mod_1_r acc)) as (acc1 & _ & ->).
    change (8 <=? 0 + 6) with false. cbn iota. by rewrite stop_at. }
  destruct (decode_two maxlen c1 c2 s acc bin0 H1 H2) as (acc2 & E2 & ->). pose proof (val_range c1 H1) as R1. pose proof (val_range c2 H2) as R2.
  destruct (Nat.ltb_spec (length bin0) maxlen) as [Hm|]; [| done].
  set (x := byte ((val c1 * 64 + val c2) / 16)). assert (Hx : Zb x = (val c1 * 64 + val c2) / 16) by (apply Zb_byte_small; clear -R1 R2; divmod).
  assert (Htwo : forall rest, decode_end (true, acc2, 4, bin0 ++ [x], rest) = Some bin -> rest = s ->
      exists new, bin = bin0 ++ new /\ (length new = 0 \/ length bin <= maxlen)%nat /\ norm <$> c1 :: c2 :: s = base64 new).
  { intros rest H' <-. rewrite (end_at acc2 4 _ _ _ ltac:(lia) E2) in H'. destruct (Z.eqb_spec ((val c1 * 64 + val c2) mod 16) 0) as [Hzero|]; [| done].
    change (Z.to_nat (4 / 2)) with 2%nat in H'. destruct (skip_padding 2 rest) as [[|]|] eqn:Es; try done. injection H' as <-.
    apply skip_padding_exact in Es as ->. exists [x]. rewrite length_app. cbn [length]. split_and!; [done | lia |].
    unfold base64. cbn [fmap list_fmap digits padding app replicate]. rewrite !norm_val, Hx by done. apply cons_ch; [clear -R1 R2 Hzero; divmod |]. apply cons_ch; [clear -R1 R2 Hzero; divmod | done]. }
  destruct s as [|c3 s]; [cbn [decode_loop]; intros H'; by apply (Htwo []) |].
  destruct (decide (val c3 = 255)) as [H3|H3]; [rewrite stop_at by done; intros H'; by apply (Htwo (c3 :: s)) |]. clear Htwo.
  destruct (decode_third maxlen c3 s acc2 _ (bin0 ++ [x]) H3 E2) as (acc3 & E3 & ->). pose proof (val_range c3 H3) as R3.
  destruct (Nat.ltb_spec (length (bin0 ++ [x])) maxlen) as [Hm2|]; [| done]. rewrite <- app_assoc. cbn [app].
  set (y := byte (((val c1 * 64 + val c2) mod 16 * 64 + val c3) / 4)).
  assert (Hy : Zb y = ((val c1 * 64 + val c2) mod 16 * 64 + val c3) / 4) by (apply Zb_byte_small; clear -R1 R2 R3; divmod).
  rewrite length_app in Hm2. cbn [length] in Hm2.
  assert (Hthree : forall rest, decode_end (true, acc3, 2, bin0 ++ [x; y], rest) = Some bin -> rest = s ->
      exists new, bin = bin0 ++ new /\ (length new = 0 \/ length bin <= maxlen)%nat /\ norm <$> c1 :: c2 :: c3 :: s = base64 new).
  { intros rest H' <-. rewrite (end_at acc3 2 _ _ _ ltac:(lia) E3) in H'.
    destruct (Z.eqb_spec (((val c1 * 64 + val c2) mod 16 * 64 + val c3) mod 4) 0) as [Hzero|]; [| done].
    change (Z.to_nat (2 / 2)) with 1%nat in H'. destruct (skip_padding 1 rest) as [[|]|] eqn:Es; try done. injection H' as <-.
    apply skip_padding_exact in Es as ->. exists [x; y]. rewrite length_app. cbn [length]. split_and!; [done | lia |].
    unfold base64. cbn [fmap list_fmap digits padding app replicate]. rewrite !norm_val, Hx, Hy by done. do 2 (apply cons_ch; [clear -R1 R2 R3 Hzero; divmod |]). apply cons_ch; [clear -R1 R2 R3 Hzero; divmod | done]. }
  destruct s as [|c4 s]; [cbn [decode_loop]; intros H'; by apply (Hthree []) |].
  destruct (decide (val c4 = 255)) as [H4|H4]; [rewrite stop_at by done; intros H'; by apply (Hthree (c4 :: s)) |]. clear Hthree.
  destruct (decode_fourth maxlen c4 s acc3 _ (bin0 ++ [x; y]) H4 E3) as (acc4 & ->). pose proof (val_range c4 H4) as R4.
  destruct (Nat.ltb_spec (length (bin0 ++ [x; y])) maxlen) as [Hm3|]; [| done]. rewrite <- app_assoc. cbn [app]. rewrite length_app in Hm3. cbn [length] in Hm3.
  set (z := byte (((val c1 * 64 + val c2) mod 16 * 64 + val c3) mod 4 * 64 + val c4)).
  assert (Hz : Zb z = ((val c1 * 64 + val c2) mod 16 * 64 + val c3) mod 4 * 64 + val c4) by (apply Zb_byte_small; clear -R1 R2 R3 R4; divmod).
  intros H'. destruct (IH (length s) ltac:(cbn; lia) s eq_refl _ _ _ H') as (new & -> & Hl & Es). exists (x :: y :: z :: new).
  rewrite <- app_assoc. idtac. split_and!; [done | right; destruct Hl as [Hl|Hl]; rewrite !length_app in *; cbn [length] in *; lia |].
  unfold base64 in *. cbn [fmap list_fmap digits padding app]. rewrite !norm_val, Hx, Hy, Hz by done. rewrite <- Es.
  do 4 (apply cons_ch; [clear -R1 R2 R3 R4; divmod |]). done.
Qed.

Lemma byte_Zb a : byte (Zb a) = a.
Proof. unfold byte, Zb. rewrite Z.mod_small by (pose proof (N_ascii_bounded a); lia). by rewrite N2Z.id, ascii_N_embedding. Qed.

Lemma cons_eq_inv {A} (x y : A) l k : x :: l = y :: k -> x = y /\ l = k.
Proof. by intros [= -> ->]. Qed.

Lemma norm_cons s d l : norm <$> s = ch d :: l -> 0 <= d < 64 -> exists c s', s = c :: s' /\ val c = d /\ norm <$> s' = l.
Proof. destruct s as [|c s]; [done |]. rewrite fmap_cons. intros H Hd. apply cons_eq_inv in H as [E H]. exists c, s. split_and!; [done | by apply val_norm | done]. Qed.

Lemma norm_padding n s : norm <$> s = replicate n "="%char -> s = replicate n "="%char.
Proof.
  revert s. induction n as [|n IH]; intros [|c s]; cbn [replicate]; try done. rewrite fmap_cons. intros [E H]%cons_eq_inv. f_equal; [| by apply IH].
  unfold norm in E. by destruct (Zb c <? 128).
Qed.

Lemma pad_val : val "=" = 255.
Proof. reflexivity. Qed.

Lemma decode_complete maxlen new : forall s acc bin0, norm <$> s = base64 new -> (length new = 0 \/ length bin0 + length new <= maxlen)%nat ->
  decode_end (decode_loop maxlen s acc 0 bin0) = Some (bin0 ++ new).
Proof.
  induction new as [|a|a b|a b c new IH] using by_threes; intros s acc bin0 Hs Hm; unfold base64 in Hs; cbn [digits padding length] in Hs, Hm;
    rewrite ?fmap_cons, ?fmap_nil in Hs; cbn [app] in Hs.
  - destruct s; [| done]. cbn [decode_loop]. rewrite (end_at acc 0 _ _ 0) by (try apply Z.mod_1_r; lia). by rewrite app_nil_r.
  - pose proof (Zb_range a) as Ra.
    apply norm_cons in Hs as (c1 & s1 & -> & V1 & Hs); [| clear -Ra; divmod]. apply norm_cons in Hs as (c2 & s2 & -> & V2 & Hs); [| clear -Ra; divmod].
    apply (norm_padding 2) in Hs as ->. destruct (decode_two maxlen c1 c2 (replicate 2 "="%char) acc bin0) as (acc2 & E2 & ->); [clear -V1 Ra; divmod | clear -V2 Ra; divmod |].
    rewrite (proj2 (Nat.ltb_lt _ _)) by lia. cbn [replicate]. rewrite (stop_at _ _ _ _ _ _ pad_val), (end_at acc2 4 _ _ _ ltac:(lia) E2), V1, V2.
    rewrite (proj2 (Z.eqb_eq _ 0)) by (clear -Ra; divmod). change (Z.to_nat (4 / 2)) with 2%nat. cbn [skip_padding]. rewrite !Ascii.eqb_refl.
    replace ((Zb a / 4 * 64 + Zb a mod 4 * 16) / 16) with (Zb a) by (clear -Ra; divmod). by rewrite byte_Zb.
  - pose proof (Zb_range a) as Ra. pose proof (Zb_range b) as Rb.
    apply norm_cons in Hs as (c1 & s1 & -> & V1 & Hs); [| clear -Ra; divmod]. apply norm_cons in Hs as (c2 & s2 & -> & V2 & Hs); [| clear -Ra Rb; divmod].
    apply norm_cons in Hs as (c3 & s3 & -> & V3 & Hs); [| clear -Ra Rb; divmod]. apply (norm_padding 1) in Hs as ->.
    destruct (decode_two maxlen c1 c2 (c3 :: replicate 1 "="%char) acc bin0) as (acc2 & E2 & ->); [clear -V1 Ra; divmod | clear -V2 Ra Rb; divmod |].
    rewrite (proj2 (Nat.ltb_lt _ _)) by lia.
    set (bin1 := bin0 ++ _). destruct (decode_third maxlen c3 (replicate 1 "="%char) acc2 _ bin1 ltac:(clear -V3 Ra Rb; divmod) E2) as (acc3 & E3 & ->).
    assert (Hl1 : length bin1 = S (length bin0)) by (unfold bin1; rewrite length_app; cbn; lia).
    rewrite (proj2 (Nat.ltb_lt _ _)) by lia. cbn [replicate]. rewrite (stop_at _ _ _ _ _ _ pad_val), (end_at acc3 2 _ _ _ ltac:(lia) E3).
    unfold bin1. rewrite V1, V2, V3. rewrite (proj2 (Z.eqb_eq _ 0)) by (clear -Ra Rb; divmod). change (Z.to_nat (2 / 2)) with 1%nat. cbn [skip_padding]. rewrite !Ascii.eqb_refl.
    rewrite <- app_assoc. cbn [app]. do 2 f_equal.
    replace ((Zb a / 4 * 64 + (Zb a mod 4 * 256 + Zb b) / 16) / 16) with (Zb a) by (clear -Ra Rb; divmod). rewrite byte_Zb. f_equal.
    match goal with |- [byte ?x] = _ => replace x with (Zb b) by (clear -Ra Rb; divmod) end. by rewrite byte_Zb.
  - pose proof (Zb_range a) as Ra. pose proof (Zb_range b) as Rb. pose proof (Zb_range c) as Rc.
    apply norm_cons in Hs as (c1 & s1 & -> & V1 & Hs); [| clear -Ra; divmod]. apply norm_cons in Hs as (c2 & s2 & -> & V2 & Hs); [| clear -Ra Rb; divmod].
    apply norm_cons in Hs as (c3 & s3 & -> & V3 & Hs); [| clear -Ra Rb Rc; divmod]. apply norm_cons in Hs as (c4 & s4 & -> & V4 & Hs); [| clear -Ra Rb Rc; divmod].
    destruct (decode_two maxlen c1 c2 (c3 :: c4 :: s4) acc bin0) as (acc2 & E2 & ->); [clear -V1 Ra; divmod | clear -V2 Ra Rb; divmod |].
    rewrite (proj2 (Nat.ltb_lt _ _)) by lia. set (bin1 := bin0 ++ _).
    destruct (decode_third maxlen c3 (c4 :: s4) acc2 _ bin1 ltac:(clear -V3 Ra Rb Rc; divmod) E2) as (acc3 & E3 & ->).
    assert (Hl1 : length bin1 = S (length bin0)) by (unfold bin1; rewrite length_app; cbn; lia).
    rewrite (proj2 (Nat.ltb_lt _ _)) by lia. set (bin2 := bin1 ++ _).
    destruct (decode_fourth maxlen c4 s4 acc3 _ bin2 ltac:(clear -V4 Ra Rb Rc; divmod) E3) as (acc4 & ->).
    assert (Hl2 : length bin2 = S (S (length bin0))) by (unfold bin2; rewrite length_app, Hl1; cbn; lia).
    rewrite (proj2 (Nat.ltb_lt _ _)) by lia. rewrite (IH s4 acc4) by (try done; rewrite length_app, Hl2; cbn; lia). f_equal.
    unfold bin2, bin1. rewrite <- !app_assoc. cbn [app]. rewrite V1, V2, V3, V4. f_equal.
    replace ((Zb a / 4 * 64 + (Zb a mod 4 * 256 + Zb b) / 16) / 16) with (Zb a) by (clear -Ra Rb; divmod). rewrite byte_Zb. f_equal.
    match goal with |- byte ?x :: byte ?y :: _ = _ => replace x with (Zb b) by (clear -Ra Rb Rc; divmod); replace y with (Zb c) by (clear -Ra Rb Rc; divmod) end.
    by rewrite !byte_Zb.
Qed.

(** What is read: the text of some bytes, but that a byte above 127 may stand for
    a slash. *)
Lemma base642bin_exact maxlen s bin : sodium_base642bin maxlen s = Some bin <->
  norm <$> s = base64 bin /\ (length bin = 0 \/ length bin <= maxlen)%nat.
Proof.
  unfold sodium_base642bin. split.
  - intros H. destruct (decode_sound maxlen s 0 [] bin H) as (new & -> & Hl & E). split; [done |]. destruct Hl; cbn in *; [left | right]; lia.
  - intros [E Hl]. apply (decode_complete maxlen bin s 0 []); [done |]. cbn. lia.
Qed.

(** ** No two texts of the same bytes *)

Lemma norm_ch d : 0 <= d < 64 -> norm (ch d) = ch d.
Proof.
  intros H. assert (Hall : forallb (fun n => Ascii.eqb (norm (ch (Z.of_nat n))) (ch (Z.of_nat n))) (seq 0 64) = true) by (vm_compute; reflexivity).
  apply (proj1 (forallb_forall _ _)) with (x := Z.to_nat d) in Hall; [| apply in_seq; lia].
  apply Ascii.eqb_eq in Hall. by rewrite Z2Nat.id in Hall by lia.
Qed.

Lemma digits_range bin : Forall (fun d => 0 <= d < 64) (digits bin).
Proof.
  induction bin as [|a|a b|a b c bin IH] using by_threes; cbn [digits]; [constructor | | |];
    [pose proof (Zb_range a) | pose proof (Zb_range a); pose proof (Zb_range b) | pose proof (Zb_range a); pose proof (Zb_range b); pose proof (Zb_range c)];
    repeat (apply Forall_cons_2; [clear IH || idtac; divmod |]); try done; constructor.
Qed.

Lemma norm_base64 bin : norm <$> base64 bin = base64 bin.
Proof.
  unfold base64. rewrite fmap_app. f_equal.
  - pose proof (digits_range bin) as H. induction H as [|d l Hd _ IH]; [done |]. rewrite !fmap_cons, IH. by rewrite norm_ch.
  - induction bin as [|a|a b|a b c bin IH] using by_threes; [done | done | done | apply IH].
Qed.

Lemma base64_inj a b : base64 a = base64 b -> a = b.
Proof.
  intros E. set (n := (length a + length b)%nat).
  assert (H1 : sodium_base642bin n (base64 a) = Some a) by (apply base642bin_exact; split; [apply norm_base64 | right; unfold n; lia]).
  assert (H2 : sodium_base642bin n (base64 a) = Some b) by (apply base642bin_exact; split; [rewrite E; apply norm_base64 | right; unfold n; lia]).
  congruence.
Qed.
