(* ===== verification/Envelope.v ===== *)
(** * The secret envelope

    Models [src/secrets/envelope.c]: one value, encrypted under the run key, as a
    line of text.  The cipher (XChaCha20-Poly1305 of libsodium) is a parameter,
    with the two things the code relies on as hypotheses; the random nonce is an
    argument.  Allocations answer as in [Redact]. *)

From Stdlib Require Import Ascii String NArith ZArith Lia.
From stdpp Require Import base list strings numbers.
From S2P Require Import Prelude Cstr Redact Cbor CborOk Base64.

Open Scope nat_scope.

Definition QWE_KEY_BYTES : nat := 32.
Definition PREFIX : bytes := bytes_of "qwe:1:xchacha20poly1305:".
Definition NPUB : nat := 24.
Definition ABYTES : nat := 16.

(** The additional data: the prefix without its last colon. *)
Definition AD : bytes := take (length PREFIX - 1) PREFIX.

(** [sodium_base64_ENCODED_LEN], with padding. *)
Definition ENCODED_LEN (n : nat) : nat :=
  let r := (Z.of_nat n - Z.of_nat n / 3 * 3)%Z in
  Z.to_nat (Z.of_nat n / 3 * 4 + Z.land (Z.lor r (Z.shiftr r 1)) 1 * 4 + 1).

(** [strncmp(text, PREFIX, strlen(PREFIX)) == 0] *)
Definition has_prefix (text : bytes) : bool := bool_decide (take (length PREFIX) text = PREFIX).

Section cipher.
(** Key, nonce, additional data, and the text; the cipher's text ends with its
    tag. *)
Variable encrypt : bytes -> bytes -> bytes -> bytes -> bytes.
Variable decrypt : bytes -> bytes -> bytes -> bytes -> option bytes.

(** [NULL] without [init] (libsodium is ready) or memory. *)
Definition qwe_envelope_seal (init : bool) (mem : list bool) (nonce key plain : bytes) : cres (list bool * option bytes) :=
  let blob_len := NPUB + length plain + ABYTES in
  if negb init then mret (mem, None)
  else
    let '(ok1, mem) := alloc mem in
    let '(ok2, mem) := alloc mem in
    if negb (ok1 && ok2) then mret (mem, None)
    else
      let blob := nonce ++ encrypt key nonce AD plain in
      if blob_len <? length blob then CUndef
      else
        b64 ← sodium_bin2base64 (ENCODED_LEN blob_len) blob;
        mret (mem, Some (PREFIX ++ b64)).

(** The blob, or why there is none. *)
Definition decode (mem : list bool) (text : bytes) : list bool * (string + bytes) :=
  if negb (has_prefix text) then (mem, inl "not a qwe envelope (expected qwe:1:xchacha20poly1305:...)"%string)
  else
    let b64 := drop (length PREFIX) text in
    let cap := length b64 / 4 * 3 + 3 in
    let '(ok, mem) := alloc mem in
    if negb ok then (mem, inl "out of memory"%string)
    else
      match sodium_base642bin cap b64 with
      | None => (mem, inl "the envelope is not valid base64"%string)
      | Some blob => (mem, if length blob <? NPUB + ABYTES then inl "the envelope is too short"%string else inr blob)
      end.

Definition qwe_envelope_check (init : bool) (mem : list bool) (text : bytes) : list bool * option string :=
  if negb init then (mem, Some "cannot initialize libsodium"%string)
  else
    match decode mem text with
    | (mem, inl why) => (mem, Some why)
    | (mem, inr _) => (mem, None)
    end.

(** [out] has room for the plaintext and a NUL: a longer one is [CUndef]. *)
Definition qwe_envelope_open (init : bool) (mem : list bool) (key text : bytes) : cres (list bool * (string + bytes)) :=
  if negb init then mret (mem, inl "cannot initialize libsodium"%string)
  else
    match decode mem text with
    | (mem, inl why) => mret (mem, inl why)
    | (mem, inr blob) =>
        let '(ok, mem) := alloc mem in
        if negb ok then mret (mem, inl "out of memory"%string)
        else
          match decrypt key (take NPUB blob) AD (drop NPUB blob) with
          | None => mret (mem, inl "authentication failed (wrong key, or the envelope was modified)"%string)
          | Some plain =>
              if length blob - NPUB - ABYTES <? length plain then CUndef else mret (mem, inr plain)
          end
    end.

(** ** What is relied on *)

(** The ciphertext is as long as the plaintext and its tag. *)
Hypothesis length_encrypt : forall key nonce ad plain, length (encrypt key nonce ad plain) = length plain + ABYTES.

(** Only what was encrypted with the same key, nonce and additional data
    decrypts, and to what it was. *)
Hypothesis decrypt_exact : forall key nonce ad text plain, decrypt key nonce ad text = Some plain <-> text = encrypt key nonce ad plain.

(** ** Sealing and opening *)

Lemma encoded_len n : ENCODED_LEN n = S (b64_length n).
Proof.
  unfold ENCODED_LEN, b64_length. assert (E : (Z.of_nat n / 3)%Z = Z.of_nat (n / 3)) by (rewrite Nat2Z.inj_div; done). rewrite E.
  pose proof (Nat.div_mod_eq n 3). pose proof (Nat.mod_upper_bound n 3 ltac:(lia)).
  replace (Z.of_nat n - Z.of_nat (n / 3) * 3)%Z with (Z.of_nat (n mod 3)) by lia. replace (n - 3 * (n / 3)) with (n mod 3) by lia.
  assert (Hr : n mod 3 = 0 \/ n mod 3 = 1 \/ n mod 3 = 2) by lia. destruct Hr as [->|[->| ->]]; cbn [Nat.eqb];
    match goal with |- context [Z.land ?x 1] => let v := eval vm_compute in (Z.land x 1) in change (Z.land x 1) with v end; lia.
Qed.

(** The text of an envelope. *)
Definition envelope (nonce key plain : bytes) : bytes := PREFIX ++ base64 (nonce ++ encrypt key nonce AD plain).

Lemma seal_ok init mem nonce key plain : length nonce = NPUB ->
  exists mem' r, qwe_envelope_seal init mem nonce key plain = CRet (mem', r) /\ (init = true -> mem = [] -> is_Some r) /\
    forall text, r = Some text -> text = envelope nonce key plain.
Proof.
  intros Hn. unfold qwe_envelope_seal. destruct init; cbn [negb]; [| by do 2 eexists].
  destruct (alloc mem) as [ok1 mem1] eqn:E1. destruct (alloc mem1) as [ok2 mem2] eqn:E2. destruct (ok1 && ok2) eqn:Eok; cbn [negb].
  - set (blob := nonce ++ _). assert (Hl : length blob = NPUB + length plain + ABYTES) by (unfold blob; rewrite length_app, length_encrypt; lia).
    rewrite (proj2 (Nat.ltb_ge _ _)) by lia. rewrite bin2base64_ok by (rewrite encoded_len, Hl; lia). cstep.
    eexists _, _. split; [reflexivity |]. split; [by eexists |]. by intros text [= <-].
  - eexists _, _. split; [reflexivity |]. split; [| done]. intros _ ->. injection E1 as <- <-. by injection E2 as <- <-.
Qed.

(** A text reads as an envelope: it is one, but that a byte above 127 may stand for
    a slash of its base64. *)
Definition reads_as (text env : bytes) : Prop := take (length PREFIX) text = PREFIX /\ PREFIX ++ (norm <$> drop (length PREFIX) text) = env.

Lemma b64_room n : n <= b64_length n / 4 * 3.
Proof.
  unfold b64_length. pose proof (Nat.div_mod_eq n 3). pose proof (Nat.mod_upper_bound n 3 ltac:(lia)).
  replace (n - 3 * (n / 3)) with (n mod 3) by lia. destruct (Nat.eqb_spec (n mod 3) 0).
  - rewrite Nat.add_0_r, Nat.div_mul by lia. lia.
  - replace (n / 3 * 4 + 4) with ((n / 3 + 1) * 4) by lia. rewrite Nat.div_mul by lia. lia.
Qed.

Lemma decode_ok mem text : exists mem' r, decode mem text = (mem', r) /\ (mem = [] -> mem' = []) /\
  match r with
  | inr blob => NPUB + ABYTES <= length blob /\ reads_as text (PREFIX ++ base64 blob)
  | inl _ => mem <> [] \/ forall blob, NPUB + ABYTES <= length blob -> ~ reads_as text (PREFIX ++ base64 blob)
  end.
Proof.
  unfold decode, has_prefix. destruct (bool_decide_reflect (take (length PREFIX) text = PREFIX)) as [Hp|Hp]; cbn [negb].
  2: { do 2 eexists. split; [reflexivity |]. split; [done |]. right. by intros blob _ [? _]. }
  destruct (alloc mem) as [ok mem1] eqn:Em. assert (Hm : mem = [] -> ok = true /\ mem1 = []) by (intros ->; by injection Em as <- <-).
  destruct ok; cbn [negb]; [| do 2 eexists; split; [reflexivity |]; split; [naive_solver |]; left; naive_solver].
  set (b64 := drop _ text). pose proof (base642bin_exact (length b64 / 4 * 3 + 3) b64) as Hb.
  destruct (sodium_base642bin _ b64) as [blob|].
  - destruct (proj1 (Hb blob) eq_refl) as [E _]. do 2 eexists. split; [reflexivity |]. split; [naive_solver |].
    destruct (Nat.ltb_spec (length blob) (NPUB + ABYTES)) as [Hl|Hl]; [| split; [done |]; split; [done |]; fold b64; by rewrite E].
    right. intros blob' Hl' [_ E']. apply app_inv_head in E'. fold b64 in E'.
    assert (Hb' : Some blob = Some blob'); [apply Hb; split; [done |] | injection Hb' as <-; lia].
    right. pose proof (b64_room (length blob')) as Hr. destruct (length_base64 blob') as [Hlb _]. rewrite <- Hlb, <- E', length_fmap in Hr. lia.
  - do 2 eexists. split; [reflexivity |]. split; [naive_solver |]. right. intros blob _ [_ E]. apply app_inv_head in E. fold b64 in E.
    assert (Hb' : None = Some blob); [| done]. apply Hb. split; [done |].
    right. pose proof (b64_room (length blob)) as Hr. destruct (length_base64 blob) as [Hlb _]. rewrite <- Hlb, <- E, length_fmap in Hr. lia.
Qed.

Lemma open_ok init mem key text : exists mem' r, qwe_envelope_open init mem key text = CRet (mem', r) /\ (mem = [] -> mem' = []) /\
  match r with
  | inr plain => exists nonce, length nonce = NPUB /\ reads_as text (envelope nonce key plain)
  | inl _ => init = false \/ mem <> [] \/ forall nonce plain, length nonce = NPUB -> ~ reads_as text (envelope nonce key plain)
  end.
Proof.
  unfold qwe_envelope_open. destruct init; cbn [negb]; [| do 2 eexists; split; [reflexivity |]; split; [done | by left]].
  assert (Hblob : forall nonce plain, length nonce = NPUB -> NPUB + ABYTES <= length (nonce ++ encrypt key nonce AD plain)).
  { intros. rewrite length_app, length_encrypt. lia. }
  destruct (decode_ok mem text) as (mem1 & r & -> & Hm1 & Hr). destruct r as [why|blob].
  - do 2 eexists. split; [reflexivity |]. split; [done |]. right. destruct Hr as [Hr|Hr]; [by left | right]. intros nonce plain Hn. by apply Hr, Hblob.
  - destruct Hr as [Hl Hr]. destruct (alloc mem1) as [ok mem2] eqn:Em. assert (Hm2 : mem1 = [] -> ok = true /\ mem2 = []) by (intros ->; by injection Em as <- <-).
    destruct ok; cbn [negb]; [| do 2 eexists; split; [reflexivity |]; split; [naive_solver |]; right; left; naive_solver].
    pose proof (decrypt_exact key (take NPUB blob) AD (drop NPUB blob)) as Hd. destruct (decrypt key _ AD _) as [plain|].
    + assert (Ht : length (take NPUB blob) = NPUB) by (rewrite length_take; unfold NPUB in *; lia).
      assert (Eb : blob = take NPUB blob ++ encrypt key (take NPUB blob) AD plain).
      { pose proof (proj1 (Hd plain) eq_refl) as Hd'. rewrite <- Hd'. by rewrite take_drop. }
      assert (Hlen : length blob - NPUB - ABYTES = length plain) by (rewrite Eb, length_app, length_encrypt, Ht; lia).
      rewrite Hlen, Nat.ltb_irrefl. do 2 eexists. split; [reflexivity |]. split; [naive_solver |]. exists (take NPUB blob). split; [done |].
      unfold envelope. by rewrite <- Eb.
    + do 2 eexists. split; [reflexivity |]. split; [naive_solver |]. right. right. intros nonce plain Hn [Hp E]. destruct Hr as [_ E']. rewrite E' in E.
      unfold envelope in E. apply app_inv_head in E.
      apply base64_inj in E as Eb.
      assert (Hf : None = Some plain); [| done]. apply Hd. by rewrite Eb, take_app_length', drop_app_length'.
Qed.

Lemma reads_itself nonce key plain : reads_as (envelope nonce key plain) (envelope nonce key plain).
Proof.
  unfold reads_as, envelope. rewrite take_app_length, drop_app_length. split; [done |]. by rewrite norm_base64.
Qed.

Lemma envelope_inj nonce nonce' key plain plain' text : length nonce = NPUB -> length nonce' = NPUB ->
  reads_as text (envelope nonce key plain) -> reads_as text (envelope nonce' key plain') -> plain' = plain.
Proof.
  intros H1 H2 [_ E1] [_ E2]. rewrite E1 in E2. unfold envelope in E2. apply app_inv_head, base64_inj, app_inj_1 in E2 as [-> E2]; [| congruence].
  assert (Hd : Some plain' = Some plain); [| congruence]. rewrite <- (proj2 (decrypt_exact key nonce' AD _ plain') E2).
  by apply decrypt_exact.
Qed.

Lemma open_seal nonce key plain : length nonce = NPUB -> qwe_envelope_open true [] key (envelope nonce key plain) = CRet ([], inr plain).
Proof.
  intros Hn. destruct (open_ok true [] key (envelope nonce key plain)) as (mem' & r & -> & Hm & Hr). rewrite (Hm eq_refl). do 2 f_equal.
  destruct r as [why|plain'].
  - destruct Hr as [Hr|[Hr|Hr]]; [done | done |]. by destruct (Hr nonce plain Hn (reads_itself nonce key plain)).
  - destruct Hr as (nonce' & Hn' & Hr). f_equal. exact (envelope_inj nonce nonce' key plain plain' _ Hn Hn' (reads_itself nonce key plain) Hr).
Qed.

(** C26. What is sealed opens, and nothing else does.  With memory, sealing gives an
    envelope, which opens under the same key to the same bytes.  Opening returns
    for every text; it gives a plaintext only if the text is (but for a byte above
    127 in place of a slash) the envelope of that plaintext under this key with
    some nonce, and refuses it only if the text is no envelope under this key, or
    for want of libsodium or memory. *)
Theorem envelope_exact init mem nonce key plain text : length nonce = NPUB ->
  (exists mem' r, qwe_envelope_seal init mem nonce key plain = CRet (mem', r) /\ (init = true -> mem = [] -> is_Some r) /\
    forall sealed, r = Some sealed -> qwe_envelope_open true [] key sealed = CRet ([], inr plain)) /\
  (exists mem' r, qwe_envelope_open init mem key text = CRet (mem', r) /\
    match r with
    | inr plain => exists nonce, length nonce = NPUB /\ reads_as text (envelope nonce key plain)
    | inl _ => init = false \/ mem <> [] \/ forall nonce plain, length nonce = NPUB -> ~ reads_as text (envelope nonce key plain)
    end).
Proof.
  intros Hn. split.
  - destruct (seal_ok init mem nonce key plain Hn) as (mem' & r & E & Hs & Hr). exists mem', r. split_and!; [done | done |].
    intros sealed Hsealed. rewrite (Hr sealed Hsealed). by apply open_seal.
  - destruct (open_ok init mem key text) as (mem' & r & E & _ & Hr). by exists mem', r.
Qed.
End cipher.

(** ** A cipher that keeps the laws *)

Module Sample.
Definition tag (key : bytes) : bytes := take ABYTES (key ++ replicate ABYTES "0"%char).
Definition encrypt (key nonce ad plain : bytes) : bytes := plain ++ tag key.
Definition decrypt (key nonce ad text : bytes) : option bytes :=
  let n := length text - ABYTES in
  if decide (drop n text = tag key) then Some (take n text) else None.

Lemma length_tag key : length (tag key) = ABYTES.
Proof. unfold tag, ABYTES. rewrite length_take, length_app, length_replicate. lia. Qed.

Lemma length_encrypt key nonce ad plain : length (encrypt key nonce ad plain) = length plain + ABYTES.
Proof. unfold encrypt. by rewrite length_app, length_tag. Qed.

Lemma decrypt_exact key nonce ad text plain : decrypt key nonce ad text = Some plain <-> text = encrypt key nonce ad plain.
Proof.
  unfold decrypt, encrypt. split.
  - destruct (decide _) as [E|]; [| done]. intros [= <-]. rewrite <- E. by rewrite take_drop.
  - intros ->. assert (El : length (plain ++ tag key) - ABYTES = length plain) by (rewrite length_app, length_tag; lia).
    rewrite El, drop_app_length, take_app_length. by rewrite decide_True.
Qed.

Definition key : bytes := replicate 32 "k"%char.
Definition nonce : bytes := replicate 24 "n"%char.
End Sample.

Lemma envelope_exact_witness :
  length Sample.nonce = NPUB /\
  (exists mem' r, qwe_envelope_seal Sample.encrypt true [] Sample.nonce Sample.key (bytes_of "hunter2") = CRet (mem', r) /\ (true = true -> [] = [] :> list bool -> is_Some r) /\
    forall sealed, r = Some sealed -> qwe_envelope_open Sample.decrypt true [] Sample.key sealed = CRet ([], inr (bytes_of "hunter2"))) /\
  (exists mem' r, qwe_envelope_open Sample.decrypt true [] Sample.key (bytes_of "qwe:1:") = CRet (mem', r) /\
    match r with
    | inr plain => exists nonce, length nonce = NPUB /\ reads_as (bytes_of "qwe:1:") (envelope Sample.encrypt nonce Sample.key plain)
    | inl _ => true = false \/ [] <> [] :> list bool \/ forall nonce plain, length nonce = NPUB -> ~ reads_as (bytes_of "qwe:1:") (envelope Sample.encrypt nonce Sample.key plain)
    end).
Proof.
  split; [reflexivity |].
  apply (envelope_exact Sample.encrypt Sample.decrypt Sample.length_encrypt Sample.decrypt_exact true [] Sample.nonce Sample.key (bytes_of "hunter2") (bytes_of "qwe:1:")). reflexivity.
Defined.

(** An envelope's base64 has a slash; with the byte 255 in its place it opens as
    well. *)
Lemma envelope_not_unique :
  let text := envelope Sample.encrypt Sample.nonce Sample.key (replicate 3 "255"%char) in
  let altered := (fun c => if Ascii.eqb c "/" then "255"%char else c) <$> text in
  altered <> text /\ qwe_envelope_open Sample.decrypt true [] Sample.key altered = CRet ([], inr (replicate 3 "255"%char)).
Proof. split; [by vm_compute | by vm_compute]. Qed.
