(* ===== verification/Keyfile.v ===== *)
(** * The key file

    Models [src/secrets/keyfile.c]: where the run key is, which file is accepted as
    one, and how [qwe keygen] makes it.  What the system answers is an argument:
    HOME, the file a name opens, the results of [mkdir], [open] and [write]. *)

From Stdlib Require Import Ascii String NArith ZArith Lia.
From stdpp Require Import base list strings numbers.
From S2P Require Import Prelude Cstr Redact Fmt Cbor CborOk Base64 Envelope.

Open Scope nat_scope.

(** [NULL], or the text. *)
Definition qwe_key_default_path (home : option bytes) (n : nat) : option bytes :=
  match home with
  | None | Some [] => None
  | Some home =>
      let '(out, rc) := qwe_fmt n (home ++ bytes_of "/.config/qwe/secret") in
      if (rc <? 0)%Z then None else Some out
  end.

(** The path, or the message. *)
Definition resolve (path home : option bytes) (n err_size : nat) : bytes + bytes :=
  match path with
  | Some path => inr path
  | None =>
      match qwe_key_default_path home n with
      | Some path => inr path
      | None =>
          inl (qwe_msg err_size (match home with
                                 | Some (_ :: _) => bytes_of "no key file: HOME is too long"
                                 | _ => bytes_of "no key file: HOME is not set"
                                 end))
      end
  end.

Record stat := Stat { st_reg : bool; st_dir : bool; st_uid : Z; st_mode : Z }.

(** [%04o] *)
Definition oct4 (n : Z) : bytes :=
  (fun k => ascii_of_N (Z.to_N (48 + n / 8 ^ k mod 8))) <$> [3; 2; 1; 0]%Z.

(** The message, if the file is not private. *)
Definition qwe_private_check (st : stat) (euid : Z) (what path : bytes) (err_size : nat) : option bytes :=
  if negb (st_uid st =? euid)%Z then
    Some (qwe_msg err_size (what ++ bytes_of " " ++ path ++ bytes_of " is owned by uid " ++ dec (st_uid st) ++
      bytes_of ", not by you (uid " ++ dec euid ++ bytes_of ")"))
  else if negb (Z.land (st_mode st) 63 =? 0)%Z then (* 077 *)
    Some (qwe_msg err_size (what ++ bytes_of " " ++ path ++ bytes_of " has mode " ++ oct4 (Z.land (st_mode st) 511) ++
      bytes_of ": it must not be accessible by group or others (chmod " ++ (if st_dir st then bytes_of "700" else bytes_of "600") ++ bytes_of ")"))
  else None.

(** An open file: what [fstat] and [read] give ([None]: they fail). *)
Record opened := Opened { op_stat : option stat; op_read : option bytes }.

Definition is_blank (c : ascii) : bool := Ascii.eqb c NL || Ascii.eqb c "013" || Ascii.eqb c " ".

(** The bytes before the blanks at the end. *)
Fixpoint trim (raw : bytes) : bytes :=
  match raw with
  | [] => []
  | c :: raw => match trim raw with [] => if is_blank c then [] else [c] | r => c :: r end
  end.

Definition not_regular (path : bytes) : bytes := bytes_of "the key file " ++ path ++ bytes_of " is not a regular file".

(** The key, or the message.  [open_file]: the reason it cannot be opened, or what
    was opened; [read] is asked for 256 bytes. *)
Definition qwe_key_load (path home : option bytes) (euid : Z) (open_file : bytes -> bytes + opened) (err_size : nat) : bytes + bytes :=
  match resolve path home 1024 err_size with
  | inl msg => inl msg
  | inr path =>
      match open_file path with
      | inl why => inl (qwe_msg err_size (bytes_of "cannot read the key file " ++ path ++ bytes_of ": " ++ why ++ bytes_of " (make one with qwe keygen)"))
      | inr f =>
          match op_stat f with
          | None => inl (qwe_msg err_size (not_regular path))
          | Some st =>
              if negb (st_reg st) then inl (qwe_msg err_size (not_regular path))
              else
                match qwe_private_check st euid (bytes_of "the key file") path err_size with
                | Some msg => inl msg
                | None =>
                    let raw := default [] (take 256 <$> op_read f) in
                    let bad := inl (qwe_msg err_size (bytes_of "the key file " ++ path ++ bytes_of " is neither 32 raw bytes nor base64 of 32 bytes")) in
                    if length raw =? QWE_KEY_BYTES then inr raw
                    else
                      match trim raw with
                      | [] => bad
                      | text =>
                          match sodium_base642bin QWE_KEY_BYTES text with
                          | Some key => if length key =? QWE_KEY_BYTES then inr key else bad
                          | None => bad
                          end
                      end
                end
          end
      end
  end.

(** ** Making one *)

(** What the system is asked to do, with what it answered. *)
Inductive key_op :=
| Mkdir (path : bytes) (* 0700 *)
| Create (path : bytes) (* O_CREAT | O_EXCL, 0600 *)
| Write (written : bytes)
| Unlink (path : bytes).

(** [mkdir]: made, already there, or failed. *)
Inductive mkdir_result := Made | Exists | MkdirFails (why : bytes).
Inductive create_result := Created | CreateExists | CreateFails (why : bytes).
Inductive write_answer := WroteBytes (n : nat) | WriteInterrupted | WriteFails (why : bytes).

(** The walk over the directory: [before] is what is left of the scan.  No answer
    left: it is made. *)
Fixpoint make_dirs (before rest : bytes) (answers : list mkdir_result) (ops : list key_op) : list key_op * option (bytes * bytes) :=
  let make k :=
    let '(r, answers) := match answers with [] => (Made, []) | r :: answers => (r, answers) end in
    let ops := ops ++ [Mkdir before] in
    match r with MkdirFails why => (ops, Some (before, why)) | _ => k answers ops end in
  match rest with
  | [] => make (fun _ ops => (ops, None))
  | c :: rest' =>
      if Ascii.eqb c "/" then make (make_dirs (before ++ [c]) rest')
      else make_dirs (before ++ [c]) rest' answers ops
  end.

(** The loop; [None]: all of it is written. *)
Fixpoint write_key (key : bytes) (answers : list write_answer) (ops : list key_op) : list key_op * option bytes :=
  match key with
  | [] => (ops, None)
  | _ :: _ =>
      match answers with
      | [] => (ops ++ [Write key], None)
      | WriteInterrupted :: answers => write_key key answers ops
      | WriteFails why :: _ => (ops, Some why)
      | WroteBytes n :: answers => write_key (drop n key) answers (ops ++ [Write (take n key)])
      end
  end.

(** What was done, and the message if it failed.  [random]: the bytes of
    [randombytes_buf]. *)
Definition qwe_key_generate (path home : option bytes) (init : bool) (dirs : list mkdir_result) (created : create_result) (random : bytes)
    (writes : list write_answer) (err_size : nat) : list key_op * option bytes :=
  match resolve path home 1024 err_size with
  | inl msg => ([], Some msg)
  | inr path =>
      if negb init then ([], Some (qwe_msg err_size (bytes_of "cannot initialize libsodium")))
      else
        let '(dir, rc) := qwe_fmt 1024 path in
        if (rc <? 0)%Z then
          ([], Some (qwe_msg err_size (bytes_of "the key file path is too long (over 1023 bytes): " ++ take 64 path ++ bytes_of "...")))
        else
          let '(ops, failed) :=
            match strrchr "/" dir with
            | Some (d :: dir, _) => make_dirs [d] dir dirs []
            | _ => ([], None)
            end in
          match failed with
          | Some (dir, why) => (ops, Some (qwe_msg err_size (bytes_of "cannot create " ++ dir ++ bytes_of ": " ++ why)))
          | None =>
              match created with
              | CreateExists => (ops, Some (qwe_msg err_size (bytes_of "the key file " ++ path ++ bytes_of " already exists: not overwriting it")))
              | CreateFails why => (ops, Some (qwe_msg err_size (bytes_of "cannot create the key file " ++ path ++ bytes_of ": " ++ why)))
              | Created =>
                  match write_key random writes (ops ++ [Create path]) with
                  | (ops, None) => (ops, None)
                  | (ops, Some why) => (ops ++ [Unlink path], Some (qwe_msg err_size (bytes_of "cannot write " ++ path ++ bytes_of ": " ++ why)))
                  end
              end
          end
  end.
Lemma msg_short n s : length (qwe_msg n s) <= n - 1.
Proof. unfold qwe_msg. rewrite length_take. lia. Qed.


(** ** What is accepted *)

(** 32 bytes as they are, or their base64. *)
Definition key_text (raw key : bytes) : Prop :=
  length raw = QWE_KEY_BYTES /\ key = raw \/ length raw <> QWE_KEY_BYTES /\ length key = QWE_KEY_BYTES /\ norm <$> trim raw = base64 key.

Definition private (st : stat) (euid : Z) : Prop := st_uid st = euid /\ Z.land (st_mode st) 63 = 0%Z.

Lemma private_check_ok st euid what path n : match qwe_private_check st euid what path n with
  | None => private st euid
  | Some msg => ~ private st euid /\ length msg <= n - 1
  end.
Proof.
  unfold qwe_private_check, private. destruct (Z.eqb_spec (st_uid st) euid); cbn [negb].
  - destruct (Z.eqb_spec (Z.land (st_mode st) 63) 0); cbn [negb]; [done |]. split; [naive_solver |]. apply msg_short.
  - split; [naive_solver |]. apply msg_short.
Qed.

Lemma base64_key_nonempty key : length key = QWE_KEY_BYTES -> base64 key <> [].
Proof. intros Hl E. pose proof (length_base64 key) as [H _]. rewrite E, Hl in H. discriminate H. Qed.

Lemma key_read (raw bad : bytes) : exists r : bytes + bytes, (if length raw =? QWE_KEY_BYTES then inr raw
    else match trim raw with
         | [] => inl bad
         | text => match sodium_base642bin QWE_KEY_BYTES text with
                   | Some key => if length key =? QWE_KEY_BYTES then inr key else inl bad
                   | None => inl bad
                   end
         end) = r /\ match r with inr key => key_text raw key | inl msg => msg = bad /\ forall key, ~ key_text raw key end.
Proof.
  eexists. split; [reflexivity |]. unfold key_text. destruct (Nat.eqb_spec (length raw) QWE_KEY_BYTES) as [Hl|Hl]; [by left |].
  destruct (trim raw) as [|c text] eqn:Et.
  { split; [done |]. intros key [[? _]|(_ & Hk & E)]; [done |]. cbn in E. by apply base64_key_nonempty in Hk. }
  pose proof (base642bin_exact QWE_KEY_BYTES (c :: text)) as Hx. destruct (sodium_base642bin _ (c :: text)) as [key|].
  - destruct (proj1 (Hx key) eq_refl) as [E _]. destruct (Nat.eqb_spec (length key) QWE_KEY_BYTES) as [Hk|Hk]; [by right |].
    split; [done |]. intros key' [[? _]|(_ & Hk' & E')]; [done |]. rewrite E in E'. apply base64_inj in E'. by subst.
  - split; [done |]. intros key [[? _]|(_ & Hk & E)]; [done |]. assert (Hf : None = Some key); [| done]. apply Hx. split; [done | right; lia].
Qed.

Lemma resolve_short path home n m msg : resolve path home n m = inl msg -> length msg <= m - 1.
Proof.
  unfold resolve. destruct path; [done |]. destruct (qwe_key_default_path home n); [done |]. intros [= <-]. apply msg_short.
Qed.

Ltac refused :=
  split; [first [apply msg_short | done] | intros; repeat match goal with
    | A : ?x = inr ?y, B : ?x = inr ?z |- _ => assert (y = z) by congruence; clear B
    | _ => progress simplify_eq
    end; try tauto; try congruence].

(** C27. A key is read from exactly the files that are safe and hold one: a key is
    given if and only if the name resolves and opens to a regular file that belongs
    to the user, has no permission bit for group or others, and holds 32 bytes, or
    (blanks at the end aside, a byte above 127 counting as a slash) the base64 of 32
    bytes, in its first 256 bytes; anything else is a message that fits its
    buffer. *)
Theorem key_load_exact path home euid open_file err_size :
  match qwe_key_load path home euid open_file err_size with
  | inr key => exists path' f st raw, resolve path home 1024 err_size = inr path' /\ open_file path' = inr f /\ op_stat f = Some st /\
      st_reg st = true /\ private st euid /\ op_read f = Some raw /\ key_text (take 256 raw) key
  | inl msg => length msg <= err_size - 1 /\
      forall path' f st raw key, resolve path home 1024 err_size = inr path' -> open_file path' = inr f -> op_stat f = Some st ->
        st_reg st = true -> private st euid -> op_read f = Some raw -> ~ key_text (take 256 raw) key
  end.
Proof.
  unfold qwe_key_load. destruct (resolve path home 1024 err_size) as [msg|path'] eqn:Er; [split; [by eapply resolve_short | done] |].
  destruct (open_file path') as [why|f] eqn:Eo; [refused |].
  destruct (op_stat f) as [st|] eqn:Es; [| refused].
  destruct (st_reg st) eqn:Eg; cbn [negb]; [| refused].
  pose proof (private_check_ok st euid (bytes_of "the key file") path' err_size) as Hp.
  destruct (qwe_private_check st euid _ path' err_size) as [msg|]; [destruct Hp as [Hp Hm]; refused |].
  destruct (key_read (default [] (take 256 <$> op_read f)) (qwe_msg err_size (bytes_of "the key file " ++ path' ++
    bytes_of " is neither 32 raw bytes nor base64 of 32 bytes"))) as (r & -> & Hr).
  destruct (op_read f) as [raw|] eqn:Ef; cbn [fmap option_fmap option_map default from_option id] in Hr.
  - destruct r as [msg|key]; [destruct Hr as [-> Hr]; refused; apply Hr |]. exists path', f, st, raw. by split_and!.
  - destruct r as [msg|key]; [destruct Hr as [-> _]; refused |].
    exfalso. destruct Hr as [[? _]|(_ & Hk & E)]; [done |]. cbn in E. by apply base64_key_nonempty in Hk.
Qed.

(** ** A key that is made *)

Lemma make_dirs_ok rest : forall before answers ops, exists dirs, (make_dirs before rest answers ops).1 = ops ++ (Mkdir <$> dirs).
Proof.
  induction rest as [|c rest IH]; intros before answers ops; cbn [make_dirs].
  - destruct answers as [|r answers]; [exists [before] | destruct r; exists [before]]; reflexivity.
  - destruct (Ascii.eqb c "/"); [| apply IH].
    assert (Hk : forall answers, exists dirs, (make_dirs (before ++ [c]) rest answers (ops ++ [Mkdir before])).1 = ops ++ (Mkdir <$> dirs)).
    { intros answers'. destruct (IH (before ++ [c]) answers' (ops ++ [Mkdir before])) as [dirs ->].
      exists (before :: dirs). rewrite <- app_assoc. reflexivity. }
    destruct answers as [|r answers]; [apply Hk |]. destruct r; [apply Hk | apply Hk | exists [before]; reflexivity].
Qed.

Definition written (ops : list key_op) : bytes := concat ((fun op => match op with Write w => w | _ => [] end) <$> ops).

Definition writes_only (ops : list key_op) : Prop := Forall (fun op => match op with Write _ => True | _ => False end) ops.

Lemma write_key_ok answers : forall key ops, exists ws, (write_key key answers ops).1 = ops ++ ws /\ writes_only ws /\
  match (write_key key answers ops).2 with None => written ws = key | Some _ => written ws `prefix_of` key end.
Proof.
  induction answers as [|a answers IH]; intros key ops; (destruct key as [|c key]; [exists []; cbn; rewrite app_nil_r; by repeat constructor |]).
  - exists [Write (c :: key)]. cbn. rewrite app_nil_r. by repeat constructor.
  - destruct a as [n| |why]; cbn [write_key].
    + destruct (IH (drop n (c :: key)) (ops ++ [Write (take n (c :: key))])) as (ws & -> & Hws & Hw).
      exists (Write (take n (c :: key)) :: ws). rewrite <- app_assoc. split_and!; [done | by constructor |].
      unfold written in *. cbn [fmap list_fmap concat]. destruct (write_key _ _ _).2.
      * destruct Hw as [l2 Hw]. exists l2. by rewrite <- app_assoc, <- Hw, take_drop.
      * by rewrite Hw, take_drop.
    + apply IH.
    + exists []. cbn. rewrite app_nil_r. split_and!; [done | constructor | apply prefix_nil].
Qed.

(** A key is made once and as a file that is accepted: nothing but directories
    is made unless the file is new ([O_EXCL]); a success has written the 32 random
    bytes and nothing else to it, and reading a private regular file that holds them
    gives that key; a failure after the file was made removes it again. *)
Theorem key_generate_exact path home init dirs created random writes err_size : length random = QWE_KEY_BYTES ->
  let '(ops, failed) := qwe_key_generate path home init dirs created random writes err_size in
  match failed with
  | None => exists made path' ws, resolve path home 1024 err_size = inr path' /\ created = Created /\
      ops = (Mkdir <$> made) ++ Create path' :: ws /\ writes_only ws /\ written ws = random /\
      forall st euid open_file, open_file path' = inr (Opened (Some st) (Some (written ws))) -> st_reg st = true -> private st euid ->
        qwe_key_load path home euid open_file err_size = inr random
  | Some msg => length msg <= err_size - 1 /\
      exists made, ops = Mkdir <$> made \/
        created = Created /\ exists path' ws, ops = (Mkdir <$> made) ++ Create path' :: ws ++ [Unlink path'] /\ writes_only ws
  end.
Proof.
  intros Hr. unfold qwe_key_generate. destruct (resolve path home 1024 err_size) as [msg|path'] eqn:Er.
  { split; [by eapply resolve_short | by exists []; left]. }
  destruct init; cbn [negb]; [| split; [apply msg_short | by exists []; left]].
  destruct (qwe_fmt 1024 path') as [dir rc]. destruct (rc <? 0)%Z; [split; [apply msg_short | by exists []; left] |].
  set (walk := match strrchr "/" dir with Some (d :: dir, _) => make_dirs [d] dir dirs [] | _ => ([], None) end).
  assert (Hd : exists made, walk.1 = Mkdir <$> made).
  { subst walk. destruct (strrchr "/" dir) as [[[|d dir'] ?]|]; [by exists [] | apply make_dirs_ok | by exists []]. }
  destruct walk as [ops [[dir' why]|]]; destruct Hd as [made Hd]; cbn [fst] in Hd; subst ops.
  { split; [apply msg_short | by exists made; left]. }
  destruct created; [| split; [apply msg_short | by exists made; left] | split; [apply msg_short | by exists made; left]].
  destruct (write_key_ok writes random ((Mkdir <$> made) ++ [Create path'])) as (ws & Ho & Hws & Hw).
  destruct (write_key random writes _) as [ops [why|]]; cbn [fst snd] in Ho, Hw; subst ops; rewrite <- app_assoc.
  - split; [apply msg_short |]. exists made. right. split; [done |]. exists path', ws. rewrite <- app_assoc. done.
  - exists made, path', ws. split_and!; [done..|]. intros st euid open_file Ho Hg Hp. rewrite Hw in Ho.
    unfold qwe_key_load. rewrite Er, Ho. cbn [op_stat op_read]. rewrite Hg. cbn [negb].
    pose proof (private_check_ok st euid (bytes_of "the key file") path' err_size) as Hc.
    destruct (qwe_private_check st euid _ path' err_size); [by destruct Hc |].
    cbn [fmap option_fmap option_map default from_option id]. rewrite take_ge by (rewrite Hr; unfold QWE_KEY_BYTES; lia).
    rewrite Hr. reflexivity.
Qed.

Example key_generate_exact_witness : length (repeat "k"%char 32) = 32 /\
  qwe_key_generate None (Some (bytes_of "/h")) true [Exists] Created (repeat "k"%char 32) [WroteBytes 30; WriteInterrupted] 128 =
    ([Mkdir (bytes_of "/h"); Mkdir (bytes_of "/h/.config"); Mkdir (bytes_of "/h/.config/qwe"); Create (bytes_of "/h/.config/qwe/secret");
      Write (repeat "k"%char 30); Write (repeat "k"%char 2)], None) /\
  qwe_key_load None (Some (bytes_of "/h")) 1000
    (fun _ => inr (Opened (Some (Stat true false 1000 384)) (Some (repeat "k"%char 32)))) 128 = inr (repeat "k"%char 32).
Proof.
  pose proof (key_generate_exact None (Some (bytes_of "/h")) true [Exists] Created (repeat "k"%char 32) [WroteBytes 30; WriteInterrupted] 128 eq_refl) as H.
  assert (E : qwe_key_generate None (Some (bytes_of "/h")) true [Exists] Created (repeat "k"%char 32) [WroteBytes 30; WriteInterrupted] 128 =
    ([Mkdir (bytes_of "/h"); Mkdir (bytes_of "/h/.config"); Mkdir (bytes_of "/h/.config/qwe"); Create (bytes_of "/h/.config/qwe/secret");
      Write (repeat "k"%char 30); Write (repeat "k"%char 2)], None)) by (vm_compute; reflexivity).
  split_and!; [reflexivity | exact E |]. rewrite E in H. destruct H as (made & path2 & ws & _ & _ & _ & _ & Hw & H). eapply H; [by rewrite Hw | reflexivity | split; reflexivity].
Defined.
