(* ===== verification/Secrets.v ===== *)
(** * Secrets from the command line to a job

    Models [src/cli/encrypt/encrypt.c] ([qwe encrypt]: the text on standard input is
    printed as an envelope under the run key) and [src/kernel/luasecrets.c] (the
    module qwe.secrets: a job's secret is opened with the same key, and added to the
    run's redaction set before the value reaches Lua).  The cipher is the parameter
    of [Envelope]; what the system and the Lua allocator answer are arguments. *)

From Stdlib Require Import Ascii String NArith ZArith Lia.
From stdpp Require Import base list strings numbers.
From S2P Require Import Prelude Qwe Cstr Redact Fmt Cbor LuaCbor LuaTable Base64 Envelope Keyfile.

Open Scope nat_scope.


(** A command that ran: the exit code, standard output and standard error. *)
Record ran := Ran { rc : Z; out : bytes; diag : bytes }.

(** ** [qwe encrypt] *)

Definition MAX_PLAIN : nat := 64 * 1024.

#[global] Opaque MAX_PLAIN.

(** One [read]: nothing is the end of the input. *)
Inductive read_answer := Got (bs : bytes) | ReadFails.

(** The text, or -1 or -2.  No answer left: the end. *)
Fixpoint read_loop (buf : bytes) (answers : list read_answer) : Z + bytes :=
  match answers with
  | [] => inr buf
  | ReadFails :: _ => inl (-1)%Z
  | Got bs :: answers =>
      match take (MAX_PLAIN + 1 - length buf) bs with
      | [] => inr buf
      | bs => if MAX_PLAIN <? length (buf ++ bs) then inl (-2)%Z else read_loop (buf ++ bs) answers
      end
  end.

Definition read_stdin (mem : list bool) (answers : list read_answer) : list bool * (Z + bytes) :=
  let '(ok, mem) := alloc mem in
  if negb ok then (mem, inl (-1)%Z) else (mem, read_loop [] answers).

(** [if (n > 0 && plain[n - 1] == '\n') n--;] *)
Definition drop_newline (plain : bytes) : bytes :=
  if (0 <? length plain) && bool_decide (plain !! (length plain - 1) = Some NL) then take (length plain - 1) plain else plain.

Section cipher.
Context `{numbers : LuaNumbers}.
Variable encrypt : bytes -> bytes -> bytes -> bytes -> bytes.
Variable decrypt : bytes -> bytes -> bytes -> bytes -> option bytes.

(** [args]: what follows the command's name. *)
Definition qwe_cmd_encrypt (args : list bytes) (init : bool) (home : option bytes) (euid : Z) (open_file : bytes -> bytes + opened)
    (mem : list bool) (stdin : list read_answer) (nonce : bytes) : cres ran :=
  match args with
  | _ :: _ =>
      mret (Ran QWE_EXIT_USAGE [] (bytes_of "qwe encrypt: takes no arguments: the plaintext is read from stdin, so it never" ++ [NL] ++
        bytes_of "appears in a command line (echo -n " ++ ["034"%char] ++ bytes_of "..." ++ ["034"%char] ++ bytes_of " | qwe encrypt)" ++ [NL]))
  | [] =>
      if negb init then mret (Ran QWE_EXIT_FAILED [] (bytes_of "qwe encrypt: cannot initialize libsodium" ++ [NL]))
      else
        match qwe_key_load None home euid open_file 512 with
        | inl err => mret (Ran QWE_EXIT_USAGE [] (bytes_of "qwe encrypt: " ++ err ++ [NL]))
        | inr key =>
            match read_stdin mem stdin with
            | (_, inl rc) =>
                mret (Ran QWE_EXIT_USAGE [] ((if (rc =? -2)%Z then bytes_of "qwe encrypt: the secret is longer than " ++ dec (Z.of_nat MAX_PLAIN) ++ bytes_of " bytes"
                  else bytes_of "qwe encrypt: cannot read stdin") ++ [NL]))
            | (mem, inr plain) =>
                '(_, envelope) ← qwe_envelope_seal encrypt init mem nonce key (drop_newline plain);
                mret (match envelope with
                      | None => Ran QWE_EXIT_FAILED [] (bytes_of "qwe encrypt: encryption failed" ++ [NL])
                      | Some envelope => Ran QWE_EXIT_OK (envelope ++ [NL]) []
                      end)
            end
        end
  end.

(** ** The module qwe.secrets *)

(** The statics: [run_key], if [key_loaded], and the redaction set. *)
Record kernel_secrets := Kernel { run_key : option bytes; redact : secret_set }.

(** A Lua error: a bad argument, or a message. *)
Inductive raised := BadArgument | Raised (msg : bytes).

(** What became of the buffer with the plaintext: wiped and freed, left to the
    wrapper's collector function, or neither. *)
Inductive fate := Wiped | Owned | Lost.

Definition ensure_key (k : kernel_secrets) (home : option bytes) (euid : Z) (open_file : bytes -> bytes + opened) : kernel_secrets * (bytes + bytes) :=
  match run_key k with
  | Some key => (k, inr key)
  | None =>
      match qwe_key_load None home euid open_file 512 with
      | inl err => (k, inl err)
      | inr key => (Kernel (Some key) (redact k), inr key)
      end
  end.

(** [lua_ok]: whether the wrapper, its metatable and the string can be allocated in
    Lua; where one cannot, Lua raises [Raised "not enough memory"]. *)
Definition secrets_reveal (k : kernel_secrets) (init : bool) (home : option bytes) (euid : Z)
    (open_file : bytes -> bytes + opened) (mem : list bool) (lua_ok : bool * bool * bool) (arg : lua) :
    cres (kernel_secrets * option fate * (raised + lua)) :=
  match arg with
  | LTable _ _ fields =>
      match lua_tostring (get_field (bytes_of "value") fields) with
      | None => mret (k, None, inl (Raised (bytes_of "not a secret")))
      | Some text =>
          match ensure_key k home euid open_file with
          | (k, inl err) => mret (k, None, inl (Raised err))
          | (k, inr key) =>
              '(_, plain) ← qwe_envelope_open decrypt init mem key text;
              match plain with
              | inl why => mret (k, None, inl (Raised (bytes_of "cannot decrypt a secret: " ++ bytes_of why)))
              | inr plain =>
                  let k := Kernel (run_key k) (qwe_redact_add (redact k) plain) in
                  let '(wrapper, metatable, string) := lua_ok in
                  let nomem := inl (Raised (bytes_of "not enough memory")) in
                  mret (if negb wrapper then (k, Some Lost, nomem)
                        else if negb metatable then (k, Some Lost, nomem)
                        else if negb string then (k, Some Owned, nomem)
                        else (k, Some Wiped, inr (LStr plain)))
              end
          end
      end
  | _ => mret (k, None, inl BadArgument)
  end.

(** A string argument, or a number as its text ([luaL_checklstring]). *)
Definition check_text (v : lua) : option bytes :=
  match v with
  | LStr s => Some s
  | LNum b => Some (number_text b)
  | _ => None
  end.

Definition secrets_mask (k : kernel_secrets) (arg : lua) : kernel_secrets * option raised :=
  match check_text arg with
  | None => (k, Some BadArgument)
  | Some s => (Kernel (run_key k) (qwe_redact_add (redact k) s), None)
  end.

(** What it returns: true, or nil and why. *)
Definition secrets_check (init : bool) (mem : list bool) (arg : lua) : raised + list lua :=
  match check_text arg with
  | None => inl BadArgument
  | Some s =>
      match qwe_envelope_check init mem (cstr s) with
      | (_, Some why) => inr [LNil; LStr (bytes_of why)]
      | (_, None) => inr [LBool true]
      end
  end.
End cipher.

(** ** Standard input *)

Lemma read_chunks chunks rest : forall buf, Forall (fun c => c <> []) chunks -> length (buf ++ concat chunks) <= MAX_PLAIN ->
  read_loop buf ((Got <$> chunks) ++ rest) = read_loop (buf ++ concat chunks) rest.
Proof.
  induction chunks as [|c chunks IH]; intros buf Hc Hl; [cbn; by rewrite app_nil_r |].
  apply Forall_cons_1 in Hc as [Hc Hcs]. cbn [fmap list_fmap app read_loop concat] in *. rewrite !length_app in Hl.
  rewrite take_ge by lia. destruct c as [|x c]; [done |]. rewrite (proj2 (Nat.ltb_ge MAX_PLAIN (length (buf ++ x :: c)))) by (rewrite length_app; lia).
  rewrite app_assoc. apply IH; [done |]. rewrite !length_app. lia.
Qed.

Lemma read_too_long chunks rest : forall buf, Forall (fun c => c <> []) chunks -> length buf <= MAX_PLAIN < length (buf ++ concat chunks) ->
  read_loop buf ((Got <$> chunks) ++ rest) = inl (-2)%Z.
Proof.
  induction chunks as [|c chunks IH]; intros buf Hc Hl; [cbn in Hl; rewrite app_nil_r in Hl; lia |].
  apply Forall_cons_1 in Hc as [Hc Hcs]. cbn [fmap list_fmap app read_loop concat] in *. rewrite !length_app in Hl.
  destruct (take _ c) as [|x t] eqn:Et.
  { apply (f_equal length) in Et. rewrite length_take in Et. destruct c; [done | cbn in Et; lia]. }
  destruct (Nat.ltb_spec MAX_PLAIN (length (buf ++ x :: t))) as [|Hs]; [done |]. rewrite <- Et in Hs |- *.
  rewrite length_app, length_take in Hs. rewrite take_ge by lia. apply IH; [done |]. rewrite !length_app. lia.
Qed.

(** The text without its last newline, if it has one. *)
Definition without_newline (text plain : bytes) : Prop := text = plain ++ [NL] \/ plain = text /\ forall p, text <> p ++ [NL].

Lemma drop_newline_ok text : without_newline text (drop_newline text).
Proof.
  unfold drop_newline, without_newline. destruct text as [|c text _] using rev_ind; [right; by split; [| intros []] |].
  rewrite length_app. cbn [length]. replace (length text + 1 - 1) with (length text) by lia.
  rewrite (proj2 (Nat.ltb_lt 0 (length text + 1))) by lia. rewrite list_lookup_middle by done. cbn [andb].
  destruct (bool_decide_reflect (Some c = Some NL)) as [E|E]; [left | right].
  - rewrite take_app_length. congruence.
  - split; [done |]. intros p [_ ->]%app_inj_tail. done.
Qed.

(** ** An envelope as a line *)

Definition line_char (c : ascii) : Prop := c <> NL /\ c <> zero.

Lemma ch_line d : (0 <= d < 64)%Z -> line_char (ch d).
Proof. intros Hd. split; intros E; pose proof (val_ch d Hd) as Hv; rewrite E in Hv; vm_compute in Hv; lia. Qed.

Lemma base64_line bin : Forall line_char (base64 bin).
Proof.
  unfold base64. apply Forall_app. split.
  - pose proof (digits_range bin) as H. induction H; [constructor |]. rewrite fmap_cons. constructor; [by apply ch_line | done].
  - induction bin as [|a|a b|a b c bin IH] using by_threes; [constructor | by repeat constructor | by repeat constructor | exact IH].
Qed.

Section ok.
Context `{numbers : LuaNumbers}.
Variable encrypt : bytes -> bytes -> bytes -> bytes -> bytes.
Variable decrypt : bytes -> bytes -> bytes -> bytes -> option bytes.
Hypothesis length_encrypt : forall key nonce ad plain, length (encrypt key nonce ad plain) = length plain + ABYTES.
Hypothesis decrypt_exact : forall key nonce ad text plain, decrypt key nonce ad text = Some plain <-> text = encrypt key nonce ad plain.

Lemma envelope_line nonce key plain : Forall line_char (envelope encrypt nonce key plain).
Proof. unfold envelope. apply Forall_app. split; [| apply base64_line]. repeat constructor; discriminate. Qed.

Lemma envelope_cstr nonce key plain : cstr (envelope encrypt nonce key plain) = envelope encrypt nonce key plain.
Proof. apply cstr_id. intros Hz. apply list_elem_of_In in Hz. by destruct (proj1 (Forall_forall _ _) (envelope_line nonce key plain) _ Hz). Qed.

(** The key in use, whether or not it was read before. *)
Lemma ensure_key_ok k home euid open_file key : run_key k = Some key \/ run_key k = None /\ qwe_key_load None home euid open_file 512 = inr key ->
  ensure_key k home euid open_file = (Kernel (Some key) (redact k), inr key).
Proof. unfold ensure_key. intros [E|[-> ->]]; [destruct k as [rk r]; cbn in E; by subst | done]. Qed.

(** C14. What [qwe encrypt] prints, a job gets back.  With the key file readable, a
    text of at most 65536 bytes that arrives in any pieces is printed as one line of
    text; a Lua table with that line as its value is revealed, under the same key
    (read now or before), as the text without its last newline, which by then is in
    the redaction set; a longer text is refused. *)
Theorem encrypted_revealed home euid open_file key nonce chunks k mt seq fields :
  qwe_key_load None home euid open_file 512 = inr key -> length nonce = NPUB -> Forall (fun c => c <> []) chunks ->
  run_key k = Some key \/ run_key k = None ->
  if MAX_PLAIN <? length (concat chunks) then
    exists why, qwe_cmd_encrypt encrypt [] true home euid open_file [] (Got <$> chunks) nonce = CRet (Ran QWE_EXIT_USAGE [] why)
  else exists line, qwe_cmd_encrypt encrypt [] true home euid open_file [] (Got <$> chunks) nonce = CRet (Ran QWE_EXIT_OK (line ++ [NL]) []) /\
    Forall line_char line /\
    (get_field (bytes_of "value") fields = LStr line -> exists k' plain,
      secrets_reveal decrypt k true home euid open_file [] (true, true, true) (LTable mt seq fields) =
        CRet (k', Some Wiped, inr (LStr plain)) /\
      without_newline (concat chunks) plain /\ run_key k' = Some key /\ (plain = [] \/ plain ∈ ss_set (redact k'))).
Proof.
  intros Hk Hn Hc Hrk. unfold qwe_cmd_encrypt, read_stdin. cbn [negb alloc]. rewrite Hk. rewrite <- (app_nil_r (Got <$> chunks)).
  destruct (Nat.ltb_spec MAX_PLAIN (length (concat chunks))) as [Hl|Hl].
  { rewrite read_too_long by (cbn [app length]; done || lia). by eexists. }
  rewrite read_chunks by done. cbn [app read_loop].
  destruct (seal_ok encrypt length_encrypt true [] nonce key (drop_newline (concat chunks)) Hn) as (mem' & r & -> & Hs & Hr).
  destruct (Hs eq_refl eq_refl) as [text ->]. rewrite (Hr text eq_refl). cstep. eexists. split; [reflexivity |]. split; [apply envelope_line |].
  intros Hf. unfold secrets_reveal. rewrite Hf. cbn [lua_tostring]. rewrite envelope_cstr, (ensure_key_ok k home euid open_file key) by tauto.
  rewrite (open_seal encrypt decrypt length_encrypt decrypt_exact) by done. cstep. eexists _, _. split; [reflexivity |]. split; [apply drop_newline_ok |]. split; [done |].
  cbn [redact]. destruct (decide (drop_newline (concat chunks) = [])) as [|Hne]; [by left | right]. apply redact_add_elem. by right.
Qed.

(** C15. No secret reaches Lua unmasked: whatever the table, the key file and the
    answers of the allocators, revealing returns, the redaction set only grows, and
    a value that is returned is a string that was sealed under the run key and is
    in the set (unless it is empty) before it is returned.  Without a value no
    plaintext is left behind, but where Lua cannot allocate the wrapper that owns
    it; the key that was read first stays. *)
Theorem reveal_masks k init home euid open_file mem lua_ok arg :
  exists k' f r, secrets_reveal decrypt k init home euid open_file mem lua_ok arg = CRet (k', f, r) /\
    (forall v, v ∈ ss_set (redact k) -> v ∈ ss_set (redact k')) /\ (forall key, run_key k = Some key -> run_key k' = Some key) /\
    match r with
    | inr v => exists plain key nonce text, v = LStr plain /\ run_key k' = Some key /\ reads_as text (envelope encrypt nonce key plain) /\
        f = Some Wiped /\ (plain = [] \/ plain ∈ ss_set (redact k'))
    | inl _ => (f = None -> redact k' = redact k) /\ f <> Some Wiped /\ (lua_ok = (true, true, lua_ok.2) -> f <> Some Lost)
    end.
Proof.
  unfold secrets_reveal. destruct arg as [| | | | | | |mt seq fields]; try by do 3 eexists.
  destruct (lua_tostring (get_field _ fields)) as [text|]; [| by do 3 eexists].
  assert (He : forall k1 e, ensure_key k home euid open_file = (k1, e) -> redact k1 = redact k /\
    (forall key, run_key k = Some key -> run_key k1 = Some key) /\ forall key, e = inr key -> run_key k1 = Some key).
  { unfold ensure_key. intros k1 e. destruct (run_key k) eqn:Er; [| destruct (qwe_key_load _ _ _ _ _)]; intros [= <- <-]; naive_solver. }
  destruct (ensure_key k home euid open_file) as [k1 e]. destruct (He k1 e eq_refl) as (Ek & Hk1 & Hkey). clear He.
  destruct e as [err|key]; [do 3 eexists; split; [reflexivity |]; by rewrite Ek |].
  destruct (open_ok encrypt decrypt length_encrypt decrypt_exact init mem key text) as (mem' & r & -> & _ & Hr). cstep.
  destruct r as [why|plain]; [do 3 eexists; split; [reflexivity |]; by rewrite Ek |]. destruct Hr as (nonce & _ & Hr).
  set (k2 := Kernel _ _). assert (Hset : forall v, v ∈ ss_set (redact k) -> v ∈ ss_set (redact k2)).
  { intros v Hv. subst k2. cbn [redact]. apply redact_add_elem. left. by rewrite Ek. }
  destruct lua_ok as [[[] []] []]; cbn [negb snd]; do 3 eexists; (split; [reflexivity |]); split_and!; try done.
  exists plain, key, nonce, text. split_and!; [done | by apply Hkey | done | done |].
  destruct (decide (plain = [])); [by left | right]. subst k2. cbn [redact]. apply redact_add_elem. by right.
Qed.
End ok.

(** A line of [qwe encrypt], and the value it is revealed as, with the toy cipher. *)
#[local] Instance sample_numbers : LuaNumbers := {| number_text _ := []; text_number _ := None |}.

Definition sample_home : option bytes := Some (bytes_of "/h").
Definition sample_open (path : bytes) : bytes + opened := inr (Opened (Some (Stat true false 1000 384)) (Some Sample.key)).
Definition sample_line : bytes := envelope Sample.encrypt Sample.nonce Sample.key (bytes_of "hunter2").

Lemma encrypted_revealed_witness : qwe_key_load None sample_home 1000 sample_open 512 = inr Sample.key /\ length Sample.nonce = NPUB /\
  (MAX_PLAIN <? 8) = false /\
  exists k', secrets_reveal Sample.decrypt (Kernel None (SecretSet [] 0)) true sample_home 1000 sample_open [] (true, true, true)
    (LTable SecretMeta [] [(KStr (bytes_of "value"), LStr sample_line)]) = CRet (k', Some Wiped, inr (LStr (bytes_of "hunter2"))) /\
    bytes_of "hunter2" ∈ ss_set (redact k').
Proof.
  assert (Hk : qwe_key_load None sample_home 1000 sample_open 512 = inr Sample.key) by (vm_compute; reflexivity).
  split_and!; [exact Hk | reflexivity | vm_compute; reflexivity |].
  pose proof (encrypted_revealed Sample.encrypt Sample.decrypt Sample.length_encrypt Sample.decrypt_exact sample_home 1000 sample_open
    Sample.key Sample.nonce [bytes_of "hunt"; bytes_of "er2" ++ [NL]] (Kernel None (SecretSet [] 0)) SecretMeta []
    [(KStr (bytes_of "value"), LStr sample_line)] Hk eq_refl ltac:(repeat constructor; discriminate) (or_intror eq_refl)) as H.
  replace (MAX_PLAIN <? _) with false in H by (vm_compute; reflexivity).
  destruct H as (line & E & _ & H).
  assert (El : line = sample_line).
  { assert (E' : qwe_cmd_encrypt Sample.encrypt [] true sample_home 1000 sample_open [] (Got <$> [bytes_of "hunt"; bytes_of "er2" ++ [NL]]) Sample.nonce =
      CRet (Ran QWE_EXIT_OK (sample_line ++ [NL]) [])) by (vm_compute; reflexivity).
    assert (E3 : line ++ [NL] = sample_line ++ [NL]) by congruence. exact (proj1 (app_inj_tail _ _ _ _ E3)). }
  subst line. destruct (H eq_refl) as (k' & plain & E2 & Hp & _ & Hin).
  assert (Ep : plain = bytes_of "hunter2").
  { destruct Hp as [Hp|[_ Hp]]; [| by destruct (Hp (bytes_of "hunter2"))]. exact (eq_sym (proj1 (app_inj_tail (bytes_of "hunter2") plain NL NL Hp))). }
  subst plain. destruct Hin as [Hd|Hin]; [discriminate Hd |]. exists k'. split; [exact E2 | exact Hin].
Defined.

Lemma reveal_masks_witness :
  (forall key nonce ad plain, length (Sample.encrypt key nonce ad plain) = length plain + ABYTES) /\
  exists k' f r, secrets_reveal Sample.decrypt (Kernel (Some Sample.key) (SecretSet [] 0)) true None 1000 sample_open [] (true, true, true)
    (LTable SecretMeta [] [(KStr (bytes_of "value"), LStr sample_line)]) = CRet (k', f, r) /\ r = inr (LStr (bytes_of "hunter2")).
Proof.
  split; [exact Sample.length_encrypt |].
  destruct (reveal_masks Sample.encrypt Sample.decrypt Sample.length_encrypt Sample.decrypt_exact (Kernel (Some Sample.key) (SecretSet [] 0))
    true None 1000 sample_open [] (true, true, true) (LTable SecretMeta [] [(KStr (bytes_of "value"), LStr sample_line)])) as (k' & f & r & E & _).
  exists k', f, r. split; [exact E |]. vm_compute in E. injection E as _ _ <-. reflexivity.
Defined.

(** Where Lua cannot allocate the wrapper, the plaintext is neither wiped nor
    owned. *)
Lemma reveal_leaves_plaintext : exists k' r,
  secrets_reveal Sample.decrypt (Kernel (Some Sample.key) (SecretSet [] 0)) true None 1000 sample_open [] (false, true, true)
    (LTable SecretMeta [] [(KStr (bytes_of "value"), LStr sample_line)]) = CRet (k', Some Lost, inl r).
Proof. do 2 eexists. vm_compute. reflexivity. Qed.
