(* ===== verification/Cli.v ===== *)
(** * The command line

    Models [src/cli]: [dispatch.c] picks the subcommand, [run/run.c] and
    [validate/validate.c] read their arguments, [keygen/keygen.c] makes the key file
    and [serve/serve.c] is not implemented.  A command that runs or checks a
    workflow ends here as the call it makes; what the others print is given with
    the exit code. *)

From Stdlib Require Import Ascii String NArith ZArith Lia.
From stdpp Require Import base list strings numbers.
From S2P Require Import Prelude Qwe Cstr Redact Fmt Cbor Base64 Envelope Keyfile Secrets.

Open Scope nat_scope.

Definition qwe_version_string : bytes := bytes_of "qwe " ++ QWE_VERSION.

Record qwe_run_options := Options {
  debug : bool;
  inventory : option bytes;
  jobs : list bytes;   (* NULL is the empty list *)
  summary : option bytes;
}.

(** How a command goes on. *)
Inductive action :=
| Ends (r : ran)
| RunWorkflow (path : bytes) (opts : qwe_run_options)
| ValidateWorkflow (path : bytes) (inventory : option bytes).

Definition says (rc : Z) (lines : list bytes) : action := Ends (Ran rc [] (concat ((fun l => l ++ [NL]) <$> lines))).

Definition eq_arg (arg : bytes) (s : string) : bool := if strcmp arg (bytes_of s) is Eq then true else false.

(** [argv[i][0] == '-'] *)
Definition is_option (arg : bytes) : bool := match arg with c :: _ => Ascii.eqb c "-" | [] => false end.

(** ** [qwe run] *)

Definition run_usage : action :=
  says QWE_EXIT_USAGE [bytes_of "usage: qwe run <workflow.yaml> [-i <inventory.yaml>] [--job <id>]... [--debug] [--summary <file>]"].

(** The loop over the arguments; [None]: the usage.  [njobs] entries fit the array
    allocated for the arguments: one more is undefined. *)
Fixpoint run_args (argc : nat) (path : option bytes) (opts : qwe_run_options) (args : list bytes) : cres (option (option bytes * qwe_run_options)) :=
  match args with
  | [] => mret (Some (path, opts))
  | arg :: args =>
      if eq_arg arg "--debug" then run_args argc path (Options true (inventory opts) (jobs opts) (summary opts)) args
      else if eq_arg arg "-i" then
        match args, inventory opts with
        | file :: args, None => run_args argc path (Options (debug opts) (Some file) (jobs opts) (summary opts)) args
        | _, _ => mret None
        end
      else if eq_arg arg "--job" then
        match args with
        | id :: args =>
            if length (jobs opts) <? argc then run_args argc path (Options (debug opts) (inventory opts) (jobs opts ++ [id]) (summary opts)) args
            else CUndef
        | _ => mret None
        end
      else if eq_arg arg "--summary" then
        match args, summary opts with
        | file :: args, None => run_args argc path (Options (debug opts) (inventory opts) (jobs opts) (Some file)) args
        | _, _ => mret None
        end
      else
        match path with
        | None => if is_option arg then mret None else run_args argc (Some arg) opts args
        | Some _ => mret None
        end
  end.

Definition qwe_cmd_run (mem : list bool) (args : list bytes) : cres action :=
  let '(ok, _) := alloc mem in
  if negb ok then mret (says QWE_EXIT_USAGE [bytes_of "qwe run: out of memory"])
  else
    r ← run_args (S (length args)) None (Options false None [] None) args;
    mret (match r with
          | Some (Some path, opts) => RunWorkflow path opts
          | _ => run_usage
          end).

(** ** [qwe validate] *)

Definition validate_usage : action := says QWE_EXIT_USAGE [bytes_of "usage: qwe validate <workflow.yaml> [-i <inventory.yaml>]"].

Fixpoint validate_args (path inventory : option bytes) (args : list bytes) : option (option bytes * option bytes) :=
  match args with
  | [] => Some (path, inventory)
  | arg :: args =>
      if eq_arg arg "-i" then
        match args, inventory with
        | file :: args, None => validate_args path (Some file) args
        | _, _ => None
        end
      else
        match path with
        | None => if is_option arg then None else validate_args (Some arg) inventory args
        | Some _ => None
        end
  end.

Definition qwe_cmd_validate (args : list bytes) : action :=
  match validate_args None None args with
  | Some (Some path, inventory) => ValidateWorkflow path inventory
  | _ => validate_usage
  end.

(** ** [qwe keygen] and [qwe serve] *)

Definition qwe_cmd_keygen (args : list bytes) (home : option bytes) (init : bool) (dirs : list mkdir_result) (created : create_result)
    (random : bytes) (writes : list write_answer) : list key_op * action :=
  match args with
  | _ :: _ => ([], says QWE_EXIT_USAGE [bytes_of "usage: qwe keygen"])
  | [] =>
      match qwe_key_default_path home 1024 with
      | None =>
          ([], says QWE_EXIT_USAGE
            [match home with
             | Some (_ :: _) => bytes_of "qwe keygen: HOME is too long for ~/.config/qwe/secret"
             | _ => bytes_of "qwe keygen: HOME is not set, so there is nowhere to put ~/.config/qwe/secret"
             end])
      | Some path =>
          match qwe_key_generate (Some path) home init dirs created random writes 512 with
          | (ops, Some err) => (ops, says QWE_EXIT_USAGE [bytes_of "qwe keygen: " ++ err])
          | (ops, None) => (ops, says QWE_EXIT_OK [bytes_of "qwe keygen: wrote a new key to " ++ path ++ bytes_of " (mode 0600)"])
          end
      end
  end.

Definition qwe_not_implemented (cmd : bytes) : action := says QWE_EXIT_USAGE [bytes_of "qwe " ++ cmd ++ bytes_of ": not implemented"].

Definition qwe_cmd_serve (args : list bytes) : action := qwe_not_implemented (bytes_of "serve").

(** ** The subcommands *)

Inductive subcommand := CmdRun | CmdValidate | CmdEncrypt | CmdKeygen | CmdServe.

Definition subcommands : list (string * subcommand) :=
  [("run"%string, CmdRun); ("validate"%string, CmdValidate); ("encrypt"%string, CmdEncrypt); ("keygen"%string, CmdKeygen); ("serve"%string, CmdServe)].

Fixpoint find_in (l : list (string * subcommand)) (name : bytes) : option subcommand :=
  match l with
  | [] => None
  | (n, c) :: l => if eq_arg name n then Some c else find_in l name
  end.

Definition qwe_find_subcommand (name : bytes) : option subcommand := find_in subcommands name.

Definition usage_lines : list bytes :=
  [bytes_of "usage: qwe run <workflow.yaml> [-i <inventory.yaml>] [--job <id>]..."; bytes_of "       qwe validate <workflow.yaml> [-i <inventory.yaml>]";
   bytes_of "       qwe encrypt"; bytes_of "       qwe keygen"; bytes_of "       qwe serve"; bytes_of "       qwe --version"].

(** [argv]: the whole of it, with the program's name.  [call] is the subcommand's
    function on what follows its name. *)
Definition qwe_dispatch {A} (ends : action -> A) (call : subcommand -> list bytes -> A) (argv : list bytes) : A :=
  match argv with
  | _ :: name :: args =>
      if eq_arg name "--version" then ends (Ends (Ran QWE_EXIT_OK (qwe_version_string ++ [NL]) []))
      else
        match qwe_find_subcommand name with
        | None => ends (says QWE_EXIT_USAGE ((bytes_of "qwe: unknown subcommand '" ++ name ++ bytes_of "'") :: usage_lines))
        | Some cmd => call cmd args
        end
  | _ => ends (says QWE_EXIT_USAGE usage_lines)
  end.

Section main.
Variable encrypt : bytes -> bytes -> bytes -> bytes -> bytes.

(** What the system answers, whichever command runs. *)
Record answers := Answers {
  an_mem : list bool; an_home : option bytes; an_init : bool; an_euid : Z; an_open : bytes -> bytes + opened; an_stdin : list read_answer;
  an_nonce : bytes; an_dirs : list mkdir_result; an_created : create_result; an_random : bytes; an_writes : list write_answer;
}.

Definition call (a : answers) (cmd : subcommand) (args : list bytes) : cres (list key_op * action) :=
  match cmd with
  | CmdRun => act ← qwe_cmd_run (an_mem a) args; mret ([], act)
  | CmdValidate => mret ([], qwe_cmd_validate args)
  | CmdEncrypt =>
      r ← qwe_cmd_encrypt encrypt args (an_init a) (an_home a) (an_euid a) (an_open a) (an_mem a) (an_stdin a) (an_nonce a);
      mret ([], Ends r)
  | CmdKeygen => mret (qwe_cmd_keygen args (an_home a) (an_init a) (an_dirs a) (an_created a) (an_random a) (an_writes a))
  | CmdServe => mret ([], qwe_cmd_serve args)
  end.

(** [main]. *)
Definition main (a : answers) (argv : list bytes) : cres (list key_op * action) :=
  qwe_dispatch (fun act => mret ([], act)) (call a) argv.
End main.

(** ** The command lines of [qwe run] *)

(** What a command line is made of. *)
Inductive item := IDebug | IInventory (file : bytes) | IJob (id : bytes) | ISummary (file : bytes) | IPath (path : bytes).

Definition render (it : item) : list bytes :=
  match it with
  | IDebug => [bytes_of "--debug"]
  | IInventory file => [bytes_of "-i"; file]
  | IJob id => [bytes_of "--job"; id]
  | ISummary file => [bytes_of "--summary"; file]
  | IPath path => [path]
  end.

Definition item_ok (it : item) : Prop := match it with IPath path => is_option path = false | _ => True end.

Definition debug_of (it : item) : option unit := match it with IDebug => Some tt | _ => None end.
Definition inventory_of (it : item) : option bytes := match it with IInventory file => Some file | _ => None end.
Definition job_of (it : item) : option bytes := match it with IJob id => Some id | _ => None end.
Definition summary_of (it : item) : option bytes := match it with ISummary file => Some file | _ => None end.
Definition path_of (it : item) : option bytes := match it with IPath path => Some path | _ => None end.

(** The items, after what was read before them, give at most one of each that may
    come once. *)
Definition reads (path : option bytes) (opts : qwe_run_options) (items : list item) (path' : option bytes) (opts' : qwe_run_options) : Prop :=
  option_list path' = option_list path ++ omap path_of items /\
  option_list (inventory opts') = option_list (inventory opts) ++ omap inventory_of items /\
  option_list (summary opts') = option_list (summary opts) ++ omap summary_of items /\
  jobs opts' = jobs opts ++ omap job_of items /\
  debug opts' = debug opts || bool_decide (omap debug_of items <> []).

Lemma eq_arg_iff arg s : eq_arg arg s = true <-> arg = bytes_of s.
Proof. unfold eq_arg. rewrite <- strcmp_eq. by destruct (strcmp arg (bytes_of s)). Qed.

Lemma eq_arg_false arg s : eq_arg arg s = false <-> arg <> bytes_of s.
Proof. rewrite <- eq_arg_iff. destruct (eq_arg arg s); naive_solver. Qed.

Lemma not_option arg s : is_option arg = false -> is_option (bytes_of s) = true -> eq_arg arg s = false.
Proof. intros H1 H2. apply eq_arg_false. intros ->. congruence. Qed.

(** Which item the arguments start with. *)
Lemma split_item arg args : {it & {rest | arg :: args = render it ++ rest /\ item_ok it}} + {forall it rest, item_ok it -> arg :: args <> render it ++ rest}.
Proof.
  destruct (decide (arg = bytes_of "--debug")) as [->|H1]; [left; by exists IDebug, args |].
  destruct (decide (arg = bytes_of "-i")) as [->|H2].
  { destruct args as [|file args]; [right; intros [] rest Hok [= E]; subst; done | left; by exists (IInventory file), args]. }
  destruct (decide (arg = bytes_of "--job")) as [->|H3].
  { destruct args as [|id args]; [right; intros [] rest Hok [= E]; subst; done | left; by exists (IJob id), args]. }
  destruct (decide (arg = bytes_of "--summary")) as [->|H4].
  { destruct args as [|file args]; [right; intros [] rest Hok [= E]; subst; done | left; by exists (ISummary file), args]. }
  destruct (is_option arg) eqn:E.
  - right. intros [] rest Hok [= Ea]; subst; try done. cbn in Hok. congruence.
  - left. by exists (IPath arg), args.
Qed.

(** One item read. *)
Definition take_item (path : option bytes) (opts : qwe_run_options) (it : item) : option (option bytes * qwe_run_options) :=
  match it with
  | IDebug => Some (path, Options true (inventory opts) (jobs opts) (summary opts))
  | IInventory file => match inventory opts with None => Some (path, Options (debug opts) (Some file) (jobs opts) (summary opts)) | _ => None end
  | IJob id => Some (path, Options (debug opts) (inventory opts) (jobs opts ++ [id]) (summary opts))
  | ISummary file => match summary opts with None => Some (path, Options (debug opts) (inventory opts) (jobs opts) (Some file)) | _ => None end
  | IPath file => match path with None => Some (Some file, opts) | _ => None end
  end.

Lemma run_args_item argc path opts it rest : item_ok it -> length (jobs opts) < argc ->
  run_args argc path opts (render it ++ rest) =
  match take_item path opts it with None => CRet None | Some (path, opts) => run_args argc path opts rest end.
Proof.
  intros Hok Hj. destruct it as [|file|id|file|file]; cbn [render app run_args take_item].
  - reflexivity.
  - change (eq_arg (bytes_of "-i") "--debug") with false. change (eq_arg (bytes_of "-i") "-i") with true. cbn. by destruct (inventory opts).
  - rewrite (proj2 (Nat.ltb_lt _ _) Hj). reflexivity.
  - change (eq_arg (bytes_of "--summary") "--summary") with true. cbn. by destruct (summary opts).
  - cbn in Hok. rewrite !not_option, Hok by done. by destruct path.
Qed.

Lemma run_args_other argc path opts arg args : (forall it rest, item_ok it -> arg :: args <> render it ++ rest) ->
  run_args argc path opts (arg :: args) = CRet None.
Proof.
  intros H. cbn [run_args].
  destruct (eq_arg arg "--debug") eqn:E1; [apply eq_arg_iff in E1 as ->; by destruct (H IDebug args I) |].
  destruct (eq_arg arg "-i") eqn:E2; [apply eq_arg_iff in E2 as ->; destruct args as [|file args]; [done | by destruct (H (IInventory file) args I)] |].
  destruct (eq_arg arg "--job") eqn:E3; [apply eq_arg_iff in E3 as ->; destruct args as [|id args]; [done | by destruct (H (IJob id) args I)] |].
  destruct (eq_arg arg "--summary") eqn:E4; [apply eq_arg_iff in E4 as ->; destruct args as [|file args]; [done | by destruct (H (ISummary file) args I)] |].
  destruct path; [done |]. destruct (is_option arg) eqn:E; [done | by destruct (H (IPath arg) args E)].
Qed.

Lemma reads_nil path opts path' opts' : reads path opts [] path' opts' <-> path' = path /\ opts' = opts.
Proof.
  unfold reads. cbn. rewrite !app_nil_r. split.
  - intros (Hp & Hi & Hs & Hj & Hd). destruct opts, opts'. cbn in *. rewrite orb_false_r in Hd.
    assert (Hol : forall a b : option bytes, option_list a = option_list b -> a = b) by (intros [] [] E; simplify_eq; done).
    apply Hol in Hp, Hi, Hs. by subst.
  - intros [-> ->]. by rewrite orb_false_r.
Qed.

Lemma reads_cons path opts it items path' opts' : reads path opts (it :: items) path' opts' <->
  exists path1 opts1, take_item path opts it = Some (path1, opts1) /\ reads path1 opts1 items path' opts'.
Proof.
  split.
  - intros (Hp & Hi & Hs & Hj & Hd).
    destruct it as [|file|id|file|file]; cbn [omap list_omap debug_of inventory_of job_of summary_of path_of take_item] in *.
    + eexists _, _. split; [reflexivity |]. split_and!; try done. cbn. by rewrite Hd, orb_true_r.
    + destruct (inventory opts) as [f0|] eqn:E; [by destruct (inventory opts') |].
      eexists _, _. split; [reflexivity |]. by split_and!.
    + eexists _, _. split; [reflexivity |]. split_and!; try done. cbn. by rewrite <- app_assoc.
    + destruct (summary opts) as [f0|] eqn:E; [by destruct (summary opts') |].
      eexists _, _. split; [reflexivity |]. by split_and!.
    + destruct path as [f0|]; [by destruct path' |]. eexists _, _. split; [reflexivity |]. by split_and!.
  - intros (path1 & opts1 & Ht & Hp & Hi & Hs & Hj & Hd). destruct it as [|file|id|file|file]; cbn [take_item] in Ht.
    + injection Ht as <- <-. split_and!; try done. cbn in *. by rewrite Hd, orb_true_r.
    + destruct (inventory opts) eqn:E; [done |]. injection Ht as <- <-. split_and!; try done. cbn in *. by rewrite E.
    + injection Ht as <- <-. split_and!; try done. cbn in *. by rewrite Hj, <- app_assoc.
    + destruct (summary opts) eqn:E; [done |]. injection Ht as <- <-. split_and!; try done. cbn in *. by rewrite E.
    + destruct path eqn:E; [done |]. injection Ht as <- <-. by split_and!.
Qed.

Lemma take_item_jobs path opts it path' opts' : take_item path opts it = Some (path', opts') -> length (jobs opts') + 1 <= length (jobs opts) + length (render it) + 1.
Proof.
  destruct it; cbn; repeat case_match; intros [= <- <-]; cbn; rewrite ?length_app; cbn; lia.
Qed.

Lemma render_inj it it' rest rest' : item_ok it -> item_ok it' -> render it ++ rest = render it' ++ rest' -> it = it' /\ rest = rest'.
Proof.
  intros H H'. destruct it, it'; cbn; intros [= E]; subst; try done; cbn in H, H'; done.
Qed.

Lemma run_args_ok argc n : forall args path opts, length args <= n -> length (jobs opts) + length args < argc ->
  exists r, run_args argc path opts args = CRet r /\ forall path' opts', r = Some (path', opts') <->
    exists items, Forall item_ok items /\ args = concat (render <$> items) /\ reads path opts items path' opts'.
Proof.
  induction n as [|n IH]; intros args path opts Hn Hj; (destruct args as [|arg args]; [| try (cbn in Hn; lia)]).
  1,2: exists (Some (path, opts)); split; [done |]; intros path' opts'; split;
    [intros [= <- <-]; exists []; split_and!; [constructor | done | by apply reads_nil]
    | intros ([|it items] & Hok & E & Hr); [by apply reads_nil in Hr as [-> ->] | by destruct it]].
  destruct (split_item arg args) as [(it & rest & E & Hok)|Hno].
  - rewrite E in *. rewrite run_args_item by (done || lia). rewrite length_app in Hn, Hj.
    assert (Hlen : 0 < length (render it)) by (destruct it; cbn; lia).
    assert (Hitems : forall items, Forall item_ok items -> render it ++ rest = concat (render <$> items) ->
      exists items', items = it :: items' /\ Forall item_ok items' /\ rest = concat (render <$> items')).
    { intros [|it' items'] Hall E'; [by destruct it |]. apply Forall_cons_1 in Hall as [Hok' Hall]. cbn [fmap list_fmap concat] in E'.
      destruct (render_inj _ _ _ _ Hok Hok' E') as [-> ->]. by exists items'. }
    destruct (take_item path opts it) as [[path1 opts1]|] eqn:Et.
    + pose proof (take_item_jobs _ _ _ _ _ Et). destruct (IH rest path1 opts1) as (r & -> & Hr); [lia | lia |].
      exists r. split; [done |]. intros path' opts'. rewrite Hr. split.
      * intros (items & Hall & -> & Hreads). exists (it :: items). split_and!; [by constructor | done |]. apply reads_cons. by eexists _, _.
      * intros (items & Hall & E' & Hreads). destruct (Hitems items Hall E') as (items' & -> & Hall' & ->). exists items'. split_and!; [done | done |].
        apply reads_cons in Hreads as (path2 & opts2 & Et' & Hreads). congruence.
    + exists None. split; [done |]. intros path' opts'. split; [done |]. intros (items & Hall & E' & Hreads).
      destruct (Hitems items Hall E') as (items' & -> & _). apply reads_cons in Hreads as (? & ? & ? & _). congruence.
  - rewrite run_args_other by done. exists None. split; [done |]. intros path' opts'. split; [done |].
    intros (items & Hall & E & _). destruct items as [|it items]; [done |]. apply Forall_cons_1 in Hall as [Hok _]. by destruct (Hno it _ Hok E).
Qed.

(** C28. [qwe run] accepts exactly its command lines: the arguments of the call to
    the workflow are those of a sequence of options and one file, in any order, with
    [-i] and [--summary] at most once and [--job] any number of times, its ids in
    order; every other command line is answered with the usage and exit code 2, and
    the array of job ids is never overrun. *)
Theorem run_command_line args : exists act, qwe_cmd_run [] args = CRet act /\
  (act = run_usage \/ exists path opts, act = RunWorkflow path opts) /\
  forall path opts, act = RunWorkflow path opts <->
    exists items, Forall item_ok items /\ args = concat (render <$> items) /\ omap path_of items = [path] /\
      omap inventory_of items = option_list (inventory opts) /\ omap summary_of items = option_list (summary opts) /\
      omap job_of items = jobs opts /\ debug opts = bool_decide (omap debug_of items <> []).
Proof.
  unfold qwe_cmd_run. cbn [alloc negb]. destruct (run_args_ok (S (length args)) (length args) args None (Options false None [] None)) as (r & -> & Hr);
    [done | cbn; lia |]. cstep. eexists. split; [reflexivity |]. split.
  { destruct r as [[[path|] opts]|]; [right; by eexists _, _ | by left | by left]. }
  intros path opts. transitivity (r = Some (Some path, opts)).
  { destruct r as [[[path'|] opts']|]; split; intros E; by inversion E. }
  rewrite Hr. unfold reads. cbn. split; intros (items & H); exists items; naive_solver.
Qed.

(** The usage of the program does not name the last two options of [qwe run]. *)
Lemma usage_is_short : exists opts, qwe_cmd_run [] [bytes_of "w.yaml"; bytes_of "--debug"; bytes_of "--summary"; bytes_of "s.md"] = CRet (RunWorkflow (bytes_of "w.yaml") opts) /\
  debug opts = true /\ summary opts = Some (bytes_of "s.md").
Proof. eexists. split; [reflexivity | done]. Qed.
