(* ===== verification/Exec.v ===== *)
(** * Running a command for a plugin

    Models [qwe.exec.run] and [qwe.exec.wait] of [src/kernel/luaexec.c], with the
    wrappers of [src/kernel/luaown.c] they use.  A run is given what the system
    answers, one record for each turn of its loops, and leaves the list of its calls
    in order; without an answer left it is still waiting.  A monitor of such lists
    says which descriptors are open, and what became of the child. *)

From Stdlib Require Import Ascii String NArith ZArith Lia SpecFloat.
From stdpp Require Import base list strings numbers.
From S2P Require Import Prelude Cstr Redact Fmt Cbor LuaCbor LuaTable Lifecycle Job Jobs.

Open Scope nat_scope.
Open Scope list_scope.

(** ** The growing buffer *)

(** [data = NULL] when the capacity is 0. *)
Record buf := Buffer { bf_data : bytes; bf_cap : nat }.

Definition buf0 : buf := Buffer [] 0.

Definition buf_add (mem : list bool) (b : buf) (src : bytes) : cres (list bool * buf * bool) :=
  if (bf_cap b =? 0) || (bf_cap b - length (bf_data b) <? length src) then
    cap ← grow (length (bf_data b) + length src) (first_cap (bf_cap b)) (length (bf_data b) + length src);
    let '(ok, mem) := alloc mem in
    mret (if (ok : bool) then (mem, Buffer (bf_data b ++ src) cap, true) else (mem, b, false))
  else mret (mem, Buffer (bf_data b ++ src) (bf_cap b), true).

(** ** What is asked of the system *)

Inductive descr := InR | InW | OutR | OutW | ErrR | ErrW.

#[export] Instance descr_eq_dec : EqDecision descr.
Proof. solve_decision. Defined.

Inductive call :=
| Pipe (r w : descr)
| Close (d : descr)
| IgnorePipe | RestorePipe
| Fork (argv : list bytes) (no_output session : bool)
| Poll (ds : list descr) (wait : Z)
| Write (taken : bytes)          (* as much of what is left as was taken *)
| Read (d : descr) (got : bytes) (* nothing: the end, or an error *)
| WaitChild (block : bool) (gone : bool)
| Kill.

(** ** Its answers *)

Inductive poll_answer := PollIntr | PollFails | Polled (ri ro re : bool).
Inductive write_answer := Wrote (n : nat) | WriteAgain | WriteFails.
Inductive read_answer := ReadBytes (bs : bytes) | ReadAgain | ReadFails.

(** One turn of the pump. *)
Record round := Round { rd_now : timespec; rd_poll : poll_answer; rd_write : write_answer; rd_out : read_answer; rd_err : read_answer }.

(** [waitpid]: not yet ([WNOHANG]) or interrupted; the status; no such child. *)
Inductive wait_answer := NotYet | Gone (status : Z) | NoChild.

Record system := System {
  sy_mem : list bool;            (* the C allocations *)
  sy_pipes : list (option bytes); (* why a pipe cannot be made; none left: they are made *)
  sy_fork : option bytes;         (* why there is no child *)
  sy_start : timespec;
  sy_rounds : list round;
  sy_polls : list (wait_answer * timespec); (* the waits without blocking, and the time then *)
  sy_waits : list wait_answer;    (* the waits at the end *)
  sy_lua : list bool;            (* the Lua allocations *)
}.

(** ** Pipes *)

(** [Some why]: none of them is open. *)
Definition open_pipes (answers : list (option bytes)) : list call * option bytes :=
  match answers with
  | Some why :: _ => ([], Some why)
  | answers =>
      match drop 1 answers with
      | Some why :: _ => ([Pipe InR InW; Close InR; Close InW], Some why)
      | answers =>
          match drop 1 answers with
          | Some why :: _ => ([Pipe InR InW; Pipe OutR OutW; Close OutR; Close OutW; Close InR; Close InW], Some why)
          | _ => ([Pipe InR InW; Pipe OutR OutW; Pipe ErrR ErrW], None)
          end
      end
  end.

Definition close_pipes : list call := [Close InR; Close InW; Close OutR; Close OutW; Close ErrR; Close ErrW].

(** ** The pump *)

Record pump := Pump {
  p_in : bool; p_out : bool; p_err : bool; (* the parent's ends, whether they are open *)
  p_left : bytes; (* what is not yet written of the input *)
  p_outb : buf; p_errb : buf;
  p_failed : bool;
  p_mem : list bool;
  p_calls : list call;
}.

#[export] Instance eta_pump : Eta pump := fun p =>
  Pump (p_in p) (p_out p) (p_err p) (p_left p) (p_outb p) (p_errb p) (p_failed p) (p_mem p) (p_calls p).

Definition says (p : pump) (c : call) : pump := p <| p_calls := p_calls p ++ [c] |>.

(** [end_close] of each end. *)
Definition close_in (p : pump) : pump := if p_in p then (says p (Close InW)) <| p_in := false |> else p.
Definition close_out (p : pump) : pump := if p_out p then (says p (Close OutR)) <| p_out := false |> else p.
Definition close_err (p : pump) : pump := if p_err p then (says p (Close ErrR)) <| p_err := false |> else p.

Definition open_ends (p : pump) : list descr :=
  (if p_in p then [InW] else []) ++ (if p_out p then [OutR] else []) ++ (if p_err p then [ErrR] else []).

(** The input is ready. *)
Definition pump_in (a : write_answer) (p : pump) : pump :=
  let p := match a with
           | Wrote n => (says p (Write (take n (p_left p)))) <| p_left := drop n (p_left p) |>
           | WriteAgain => says p (Write [])
           | WriteFails => close_in (says p (Write []))
           end in
  match p_left p with [] => close_in p | _ => p end.

(** At most [sizeof chunk] bytes. *)
Definition chunk : nat := 16 * 1024.

#[global] Opaque chunk.

Definition pump_out (a : read_answer) (p : pump) : cres pump :=
  match a with
  | ReadBytes bs =>
      let bs := take chunk bs in
      let p := says p (Read OutR bs) in
      match bs with
      | [] => mret (close_out p)
      | bs =>
          '(mem, b, ok) ← buf_add (p_mem p) (p_outb p) bs;
          mret (p <| p_mem := mem |> <| p_outb := b |> <| p_failed := p_failed p || negb ok |>)
      end
  | ReadAgain => mret (says p (Read OutR []))
  | ReadFails => mret (close_out (says p (Read OutR [])))
  end.

Definition pump_err (a : read_answer) (p : pump) : cres pump :=
  match a with
  | ReadBytes bs =>
      let bs := take chunk bs in
      let p := says p (Read ErrR bs) in
      match bs with
      | [] => mret (close_err p)
      | bs =>
          '(mem, b, ok) ← buf_add (p_mem p) (p_errb p) bs;
          mret (p <| p_mem := mem |> <| p_errb := b |> <| p_failed := p_failed p || negb ok |>)
      end
  | ReadAgain => mret (says p (Read ErrR []))
  | ReadFails => mret (close_err (says p (Read ErrR [])))
  end.

(** What [poll] reported, for the ends it was asked about. *)
Definition pump_ready (r : round) (ri ro re : bool) (p0 : pump) : cres pump :=
  let p := if p_in p0 && ri then pump_in (rd_write r) p0 else p0 in
  p ← (if p_out p0 && ro then pump_out (rd_out r) p else mret p);
  if p_err p0 && re then pump_err (rd_err r) p else mret p.

(** Milliseconds since [t0]. *)
Definition elapsed_ms (t0 now : timespec) : Z :=
  ((tv_sec now - tv_sec t0) * 1000 + (tv_nsec now - tv_nsec t0) ÷ 1000000)%Z.

(** [(int)v]. *)
Definition int_of_long (v : Z) : Z := ((v + 2 ^ 31) mod 2 ^ 32 - 2 ^ 31)%Z.

(** How the loop ended: everything closed or [poll] failed; the time was up; or no
    answer is left. *)
Inductive pumped := PumpEnds | PumpTimeout | PumpWaits.

Fixpoint pump_loop (timeout_ms : Z) (t0 : timespec) (rounds : list round) (p : pump) : cres (pump * pumped) :=
  if negb (p_in p || p_out p || p_err p) then mret (p, PumpEnds)
  else
    match rounds with
    | [] => mret (p, PumpWaits)
    | r :: rounds =>
        let left := (timeout_ms - elapsed_ms t0 (rd_now r))%Z in
        if ((0 <=? timeout_ms) && (left <=? 0))%Z then mret (p, PumpTimeout)
        else
          let p := says p (Poll (open_ends p) (if (0 <=? timeout_ms)%Z then int_of_long left else -1)) in
          match rd_poll r with
          | PollIntr => pump_loop timeout_ms t0 rounds p
          | PollFails => mret (p, PumpEnds)
          | Polled ri ro re => p ← pump_ready r ri ro re p; pump_loop timeout_ms t0 rounds p
          end
    end.

(** ** Waiting for the child *)

(** The waits bounded by the timeout: [Some (Some status)] is the child's, [Some
    None] means it must be killed, [None] that no answer is left. *)
Fixpoint wait_bounded (timeout_ms : Z) (t0 : timespec) (answers : list (wait_answer * timespec)) (calls : list call) :
    list call * option (option Z) :=
  match answers with
  | [] => (calls, None)
  | (Gone status, _) :: _ => (calls ++ [WaitChild false true], Some (Some status))
  | (NoChild, _) :: _ => (calls ++ [WaitChild false true], Some (Some 0%Z))
  | (NotYet, now) :: answers =>
      let calls := calls ++ [WaitChild false false] in
      if (timeout_ms <=? elapsed_ms t0 now)%Z then (calls, Some None) else wait_bounded timeout_ms t0 answers calls
  end.

(** [while (waitpid(pid, &status, 0) < 0 && errno == EINTR)]. *)
Fixpoint wait_blocking (answers : list wait_answer) (calls : list call) : list call * option Z :=
  match answers with
  | [] => (calls, None)
  | NotYet :: answers => wait_blocking answers (calls ++ [WaitChild true false])
  | Gone status :: _ => (calls ++ [WaitChild true true], Some status)
  | NoChild :: _ => (calls ++ [WaitChild true true], Some 0%Z)
  end.

(** [WIFEXITED(status) ? WEXITSTATUS(status) : -WTERMSIG(status)] *)
Definition exit_value (status : Z) : Z :=
  let sig := Z.land status 127 in
  if (sig =? 0)%Z then Z.land (Z.shiftr status 8) 255 else (- sig)%Z.

(** ** Giving a buffer to Lua *)

(** Who frees a buffer: nobody, the collector, or the code, which has freed it (or
    has it still, while it runs). *)
Inductive holder := Leaked | Collected | Own.

(** [qwe_lua_own]: the userdata, then its metatable; [maybe_force_raise], a hook of
    the tests; [qwe_lua_own_finish]: the string.  True: nothing was raised. *)
Definition own_push (lua : list bool) (forced : bool) : list bool * holder * bool :=
  let '(ok, lua) := alloc lua in
  if negb ok then (lua, Leaked, false)
  else
    let '(ok, lua) := alloc lua in
    if negb ok then (lua, Leaked, false)
    else if forced then (lua, Collected, false)
    else
      let '(ok, lua) := alloc lua in
      (lua, Collected, ok).

(** ** [qwe.exec.run] *)

Record exec_opts := Opts { o_detach : bool; o_background : bool; o_timeout : option spec_float }.

Inductive outcome :=
| BadArgs (why : string)         (* raised, with nothing begun *)
| RaisedNoMemory
| RaisedLua                      (* Lua raised while it took the results *)
| NotStarted (why : bytes)       (* nil, message *)
| Started                        (* the pid *)
| TimedOut (ms : Z)              (* nil, "timed out after %d ms" *)
| Exited (code : Z) (out err : bytes)
| Waiting.                       (* no answer left *)

(** What came of it, the calls, and who has the two buffers. *)
Record ended := Ended { e_outcome : outcome; e_calls : list call; e_out : holder; e_err : holder }.

(** [calloc], then the copies; false: no memory, and all of it was freed. *)
Fixpoint copy_args (mem : list bool) (n : nat) : list bool * bool :=
  match n with
  | 0 => (mem, true)
  | S n => let '(ok, mem) := alloc mem in if ok then copy_args mem n else (mem, false)
  end.

(** The end: the child is gone with [status], or was killed. *)
Definition finish_run (timeout_ms : Z) (timed_out : bool) (status : Z) (lua : list bool) (force : nat) (p : pump) (calls : list call) : ended :=
  let calls := calls ++ [RestorePipe] in
  if p_failed p then Ended RaisedNoMemory calls Own Own
  else if timed_out then Ended (TimedOut (int_of_long timeout_ms)) calls Own Own
  else
    let '(lua, out, ok) := own_push lua (force =? 1) in
    if negb ok then Ended RaisedLua calls out (if bf_cap (p_errb p) =? 0 then Own else Leaked)
    else
      let '(lua, err, ok) := own_push lua (force =? 2) in
      if negb ok then Ended RaisedLua calls out err
      else Ended (Exited (exit_value status) (bf_data (p_outb p)) (bf_data (p_errb p))) calls out err.

(** From the fork on. *)
Definition run_child (input : bytes) (timeout_ms : Z) (s : system) (force : nat) (mem : list bool) (calls : list call) : cres ended :=
  let p := Pump true true true input buf0 buf0 false mem (calls ++ [Close InR; Close OutW; Close ErrW]) in
  let p := match input with [] => close_in p | _ => p end in
  '(p, how) ← pump_loop timeout_ms (sy_start s) (sy_rounds s) p;
  match how with
  | PumpWaits => mret (Ended Waiting (p_calls p) Own Own)
  | _ =>
      let p := close_err (close_out (close_in p)) in
      let timed_out := match how with PumpTimeout => true | _ => false end in
      let '(calls, gone) :=
        if ((0 <=? timeout_ms)%Z && negb timed_out) then wait_bounded timeout_ms (sy_start s) (sy_polls s) (p_calls p)
        else (p_calls p, Some None) in
      match gone with
      | None => mret (Ended Waiting calls Own Own)
      | Some (Some status) => mret (finish_run timeout_ms false status (sy_lua s) force p calls)
      | Some None =>
          (* [timed_out] here is just whether there is a bound *)
          let timed_out := (0 <=? timeout_ms)%Z in
          let '(calls, status) := wait_blocking (sy_waits s) (if timed_out then calls ++ [Kill] else calls) in
          mret (match status with
                | None => Ended Waiting calls Own Own
                | Some status => finish_run timeout_ms timed_out status (sy_lua s) force p calls
                end)
      end
  end.

(** [lua_tonumber(L, -1) > 0], and the milliseconds it is. *)
Definition timeout_of (o : option spec_float) : cres Z :=
  match o with
  | Some s => if SFltb (S754_zero false) s then long_of_double (SFmul prec emax s double_1000) else mret (-1)%Z
  | None => mret (-1)%Z
  end.

Definition exec_run `{numbers : LuaNumbers} (seq : list lua) (input : bytes) (o : exec_opts) (force : nat) (s : system) : cres ended :=
  let raise why := mret (Ended (BadArgs why) [] Own Own) in
  if length seq =? 0 then raise "empty argv"%string
  else
    timeout_ms ← timeout_of (o_timeout o);
    match mapM lua_tostring seq with
    | None => raise "not a string"%string
    | Some argv =>
        let '(ok, mem) := alloc (sy_mem s) in
        let '(mem, copied) := if ok then copy_args mem (length argv) else (mem, false) in
        if negb copied then mret (Ended RaisedNoMemory [] Own Own)
        else
          match open_pipes (sy_pipes s) with
          | (calls, Some why) => mret (Ended (NotStarted why) calls Own Own)
          | (calls, None) =>
              let calls := calls ++ [IgnorePipe] in
              match sy_fork s with
              | Some why => mret (Ended (NotStarted why) (calls ++ RestorePipe :: close_pipes) Own Own)
              | None =>
                  let calls := calls ++ [Fork argv (o_detach o || o_background o) (o_detach o)] in
                  if o_background o then
                    (* to_in is closed at once when there is no input *)
                    mret (Ended Started (calls ++ [Close InR; Close OutW; Close ErrW; Close InW; Close OutR; Close ErrR; RestorePipe]) Own Own)
                  else run_child input timeout_ms s force mem calls
              end
          end
    end.

(** ** [qwe.exec.wait] *)

(** The turns of its loop: whether [waitpid] gave anything but 0; none left: it is
    still waiting. *)
Fixpoint exec_wait (ms waited : Z) (answers : list wait_answer) : option bool :=
  match answers with
  | [] => None
  | NotYet :: answers => if (ms <=? waited)%Z then Some false else exec_wait ms (waited + 2)%Z answers
  | _ :: _ => Some true
  end.

(** ** What the calls amount to *)

Inductive child := NoneYet | Running (killed : bool) | Reaped (killed : bool).

Record monitor := Monitor { mo_open : list descr; mo_ignored : bool; mo_child : child }.

Definition monitor0 : monitor := Monitor [] false NoneYet.

(** The parent's ends. *)
Definition parents (ds : list descr) : list descr := filter (fun d => d = InW \/ d = OutR \/ d = ErrR) ds.

(** One call; [None]: one that must not happen.  A descriptor is made once, used
    while it is open and closed once; SIGPIPE is ignored while the command can be
    written to; [poll] waits for all the ends that are open; the child is waited for
    only when it cannot be blocked on its output, it is killed at most once, never
    after it was collected, and collected once. *)
Definition watch (m : monitor) (c : call) : option monitor :=
  match c, mo_child m with
  | Pipe r w, NoneYet => guard (Forall (.∉ mo_open m) [r; w]);; Some (Monitor (mo_open m ++ [r; w]) (mo_ignored m) NoneYet)
  | Close d, _ => guard ( d ∈ mo_open m);; Some (Monitor (filter (.≠ d) (mo_open m)) (mo_ignored m) (mo_child m))
  | IgnorePipe, NoneYet => guard ( mo_ignored m = false);; Some (Monitor (mo_open m) true NoneYet)
  | RestorePipe, _ => guard ( mo_ignored m = true);; Some (Monitor (mo_open m) false (mo_child m))
  | Fork _ _ _, NoneYet => guard ( mo_ignored m = true);; Some (Monitor (mo_open m) true (Running false))
  | Poll ds _, Running false => guard ( ds = mo_open m /\ ds = parents (mo_open m) /\ ds <> []);; Some m
  | Write _, Running false => guard ( InW ∈ mo_open m /\ mo_ignored m = true);; Some m
  | Read d _, Running false => guard ( d ∈ mo_open m);; Some m
  | WaitChild _ gone, Running k => guard ( mo_open m = []);; Some (if (gone : bool) then Monitor [] (mo_ignored m) (Reaped k) else m)
  | Kill, Running false => guard ( mo_open m = []);; Some (Monitor [] (mo_ignored m) (Running true))
  | _, _ => None
  end.

Definition watched (m : monitor) (calls : list call) : option monitor := foldl (fun m c => m ≫= (fun m => watch m c)) (Some m) calls.

(** What went through a pipe. *)
Definition read_from (d : descr) (calls : list call) : bytes :=
  calls ≫= (fun c => match c with Read d' bs => if decide (d' = d) then bs else [] | _ => [] end).
Definition written (calls : list call) : bytes := calls ≫= (fun c => match c with Write bs => bs | _ => [] end).

Lemma watched_snoc m calls c : watched m (calls ++ [c]) = (watched m calls ≫= (fun m => watch m c)).
Proof. unfold watched. by rewrite foldl_snoc. Qed.

Lemma read_from_snoc d calls c : read_from d (calls ++ [c]) = read_from d calls ++ read_from d [c].
Proof. unfold read_from. by rewrite bind_app. Qed.

Lemma written_snoc calls c : written (calls ++ [c]) = written calls ++ written [c].
Proof. unfold written. by rewrite bind_app. Qed.

(** ** The pump keeps its side *)

Definition buf_wf (b : buf) : Prop := length (bf_data b) <= bf_cap b /\ (bf_data b = [] <-> bf_cap b = 0).

Lemma buf_add_returns mem b src : buf_wf b -> src <> [] -> exists mem' b' ok, buf_add mem b src = CRet (mem', b', ok) /\ buf_wf b' /\
  if (ok : bool) then bf_data b' = bf_data b ++ src else b' = b.
Proof.
  intros [Hl Hn] Hs. assert (Hsl : length src <> 0) by (by destruct src). unfold buf_add.
  destruct ((bf_cap b =? 0) || (bf_cap b - length (bf_data b) <? length src)) eqn:E.
  - destruct (grow_enough (bf_cap b) (length (bf_data b) + length src)) as (cap & -> & Hc). cstep.
    destruct (alloc mem) as [[] mem']; do 3 eexists; (split; [reflexivity |]); [| done]. cbn. unfold buf_wf. cbn. rewrite length_app. split; [| done].
    split; [done |]. split; [by intros [_ ->]%app_nil | lia].
  - apply orb_false_iff in E as [E1%Nat.eqb_neq E2%Nat.ltb_ge]. do 3 eexists. split; [reflexivity |]. unfold buf_wf. cbn. rewrite length_app.
    split; [| done]. split; [lia |]. split; [by intros [_ ->]%app_nil | lia].
Qed.

(** Of a pump: the calls so far leave open what the flags say; what was read is in
    the buffers, if memory was there, and what was written and what is left make up
    the input. *)
Definition pumps (input : bytes) (p : pump) : Prop :=
  watched monitor0 (p_calls p) = Some (Monitor (open_ends p) true (Running false)) /\
  buf_wf (p_outb p) /\ buf_wf (p_errb p) /\
  (p_failed p = false -> bf_data (p_outb p) = read_from OutR (p_calls p) /\ bf_data (p_errb p) = read_from ErrR (p_calls p)) /\
  written (p_calls p) ++ p_left p = input.

(** A call that leaves the open ends as they are, or closes one. *)
Lemma pumps_says input p p' c : pumps input p ->
  watch (Monitor (open_ends p) true (Running false)) c = Some (Monitor (open_ends p') true (Running false)) ->
  p_calls p' = p_calls p ++ [c] -> p_outb p' = p_outb p -> p_errb p' = p_errb p -> p_failed p' = p_failed p ->
  read_from OutR [c] = [] -> read_from ErrR [c] = [] -> written [c] ++ p_left p' = p_left p -> pumps input p'.
Proof.
  intros (Hw & Ho & He & Hd & Hin) Hc E1 E2 E3 E4 Hro Hre Hwr. unfold pumps. rewrite E1, E2, E3, E4, watched_snoc, Hw, !read_from_snoc, written_snoc, Hro, Hre, !app_nil_r.
  cbn [mbind option_bind]. split_and!; try done. by rewrite <- app_assoc, Hwr.
Qed.

Lemma pumps_close_in input p : pumps input p -> pumps input (close_in p).
Proof.
  intros H. unfold close_in. destruct (p_in p) eqn:E; [| done]. apply (pumps_says input p _ (Close InW) H); try reflexivity.
  unfold open_ends. cbn. rewrite E. destruct (p_out p), (p_err p); reflexivity.
Qed.

Lemma pumps_close_out input p : pumps input p -> pumps input (close_out p).
Proof.
  intros H. unfold close_out. destruct (p_out p) eqn:E; [| done]. apply (pumps_says input p _ (Close OutR) H); try reflexivity.
  unfold open_ends. cbn. rewrite E. destruct (p_in p), (p_err p); reflexivity.
Qed.

Lemma pumps_close_err input p : pumps input p -> pumps input (close_err p).
Proof.
  intros H. unfold close_err. destruct (p_err p) eqn:E; [| done]. apply (pumps_says input p _ (Close ErrR) H); try reflexivity.
  unfold open_ends. cbn. rewrite E. destruct (p_in p), (p_out p); reflexivity.
Qed.

Lemma pumps_in input a p : pumps input p -> p_in p = true -> pumps input (pump_in a p).
Proof.
  intros H Hi. unfold pump_in.
  assert (Hw : forall bs p', bs ++ p_left p' = p_left p -> p_in p' = p_in p -> p_out p' = p_out p -> p_err p' = p_err p ->
    p_calls p' = p_calls p ++ [Write bs] -> p_outb p' = p_outb p -> p_errb p' = p_errb p -> p_failed p' = p_failed p -> pumps input p').
  { intros bs p' El E1 E2 E3 Ec E4 E5 E6. apply (pumps_says input p p' (Write bs) H); try done.
    - unfold open_ends. rewrite E1, E2, E3, Hi. cbn. by destruct (p_out p), (p_err p).
    - cbn. by rewrite app_nil_r. }
  set (p1 := match a with Wrote n => _ | WriteAgain => _ | WriteFails => _ end). assert (H1 : pumps input p1).
  { subst p1. destruct a as [n| |]; [apply (Hw (take n (p_left p))); try done; apply take_drop | by apply (Hw []) | by apply pumps_close_in, (Hw [])]. }
  destruct (p_left p1); [by apply pumps_close_in | done].
Qed.

(** A read that gave something. *)
Lemma pumps_read input p p' d src : pumps input p -> d = OutR \/ d = ErrR -> d ∈ open_ends p ->
  p_calls p' = p_calls p ++ [Read d src] -> open_ends p' = open_ends p -> p_left p' = p_left p ->
  (p_failed p' = false -> p_failed p = false) -> buf_wf (p_outb p') -> buf_wf (p_errb p') ->
  (p_failed p' = false -> bf_data (p_outb p') = bf_data (p_outb p) ++ (if decide (d = OutR) then src else []) /\
    bf_data (p_errb p') = bf_data (p_errb p) ++ (if decide (d = ErrR) then src else [])) -> pumps input p'.
Proof.
  intros (Hw & Hbo & Hbe & Hd & Hin) Hde Hop Ec Eo El Ef Ho He Hdata. unfold pumps.
  rewrite Ec, Eo, El, watched_snoc, Hw, !read_from_snoc, written_snoc. cbn [mbind option_bind].
  split_and!; try done.
  - unfold watch. cbn [mo_child mo_open]. by case_guard.
  - intros Hf. destruct (Hd (Ef Hf)) as [E1 E2], (Hdata Hf) as [-> ->]. rewrite E1, E2. cbn. rewrite !app_nil_r.
    by destruct Hde as [-> | ->].
  - cbn. by rewrite app_nil_r.
Qed.

Lemma says_read_nothing input p d : pumps input p -> d = OutR \/ d = ErrR -> d ∈ open_ends p -> pumps input (says p (Read d [])).
Proof.
  intros H Hd Ho. apply (pumps_read input p _ d [] H Hd Ho); try done; [apply H | apply H |].
  intros _. by split; case_decide; rewrite app_nil_r.
Qed.

Lemma pumps_out input a p : pumps input p -> p_out p = true -> returns (pump_out a p) (pumps input).
Proof.
  intros H Ho. assert (Hop : OutR ∈ open_ends p).
  { unfold open_ends. rewrite Ho. apply elem_of_app. right. apply elem_of_app. left. by apply list_elem_of_singleton. }
  unfold pump_out. destruct a as [bs| |]; [| by apply returns_ret, says_read_nothing; auto | by apply returns_ret, pumps_close_out, says_read_nothing; auto].
  destruct (take chunk bs) as [|c got] eqn:Et; [by apply returns_ret, pumps_close_out, says_read_nothing; auto |].
  destruct (buf_add_returns (p_mem p) (p_outb p) (c :: got) ltac:(apply H) ltac:(done)) as (mem & b & ok & E & Hb & Hdata).
  change (p_mem (says p (Read OutR (c :: got)))) with (p_mem p). change (p_outb (says p (Read OutR (c :: got)))) with (p_outb p).
  rewrite E. cstep. apply returns_ret. apply (pumps_read input p _ OutR (c :: got) H); auto; [by intros [? _]%orb_false_iff | apply H |].
  intros [_ Hok%negb_false_iff]%orb_false_iff. cbn in *. rewrite Hok in Hdata. rewrite app_nil_r. by split.
Qed.

Lemma pumps_err input a p : pumps input p -> p_err p = true -> returns (pump_err a p) (pumps input).
Proof.
  intros H Ho. assert (Hop : ErrR ∈ open_ends p).
  { unfold open_ends. rewrite Ho. apply elem_of_app. right. apply elem_of_app. right. by apply list_elem_of_singleton. }
  unfold pump_err. destruct a as [bs| |]; [| by apply returns_ret, says_read_nothing; auto | by apply returns_ret, pumps_close_err, says_read_nothing; auto].
  destruct (take chunk bs) as [|c got] eqn:Et; [by apply returns_ret, pumps_close_err, says_read_nothing; auto |].
  destruct (buf_add_returns (p_mem p) (p_errb p) (c :: got) ltac:(apply H) ltac:(done)) as (mem & b & ok & E & Hb & Hdata).
  change (p_mem (says p (Read ErrR (c :: got)))) with (p_mem p). change (p_errb (says p (Read ErrR (c :: got)))) with (p_errb p).
  rewrite E. cstep. apply returns_ret. apply (pumps_read input p _ ErrR (c :: got) H); auto; [by intros [? _]%orb_false_iff | apply H |].
  intros [_ Hok%negb_false_iff]%orb_false_iff. cbn in *. rewrite Hok in Hdata. rewrite app_nil_r. by split.
Qed.

(** What a turn of the pump does not touch. *)
Lemma pump_in_flags a p : p_out (pump_in a p) = p_out p /\ p_err (pump_in a p) = p_err p.
Proof.
  unfold pump_in, close_in. destruct a; cbn; repeat (case_match; cbn); done.
Qed.

Lemma pump_out_flags a p p' : pump_out a p = CRet p' -> p_err p' = p_err p.
Proof.
  assert (Hc : forall q, p_err (close_out q) = p_err q) by (intros q; unfold close_out; by destruct (p_out q)).
  assert (Hi : forall a b : pump, CRet a = CRet b -> a = b) by congruence. unfold pump_out. destruct a as [bs| |]; [| by intros <-%Hi | intros <-%Hi; by rewrite Hc].
  cbn zeta. destruct (take chunk bs); [intros <-%Hi; by rewrite Hc |].
  destruct (buf_add _ _ _) as [[[mem b] ok]| | |]; [| done..]. cstep. by intros <-%Hi.
Qed.

Lemma pumps_ready input r ri ro re p : pumps input p -> returns (pump_ready r ri ro re p) (pumps input).
Proof.
  intros H. unfold pump_ready. cbn zeta.
  set (p1 := if p_in p && ri then _ else p). assert (H1 : pumps input p1 /\ p_out p1 = p_out p /\ p_err p1 = p_err p).
  { subst p1. destruct (p_in p) eqn:E, ri; cbn [andb]; auto. split; [by apply pumps_in | apply pump_in_flags]. }
  destruct H1 as (H1 & E1 & E2). clearbody p1.
  apply (returns_bind _ _ (fun p2 => pumps input p2 /\ p_err p2 = p_err p)).
  - destruct (p_out p) eqn:E, ro; cbn [andb]; try (apply returns_ret; by split).
    destruct (pumps_out input (rd_out r) p1 H1 E1) as (p2 & E' & H2). exists p2. split; [done |]. split; [done |]. by rewrite (pump_out_flags _ _ _ E').
  - intros p2 [H2 E3]. destruct (p_err p) eqn:E, re; cbn [andb]; try by apply returns_ret. by apply pumps_err.
Qed.

Lemma pumps_poll input p w : pumps input p -> p_in p || p_out p || p_err p = true -> pumps input (says p (Poll (open_ends p) w)).
Proof.
  intros H He. apply (pumps_says input p _ (Poll (open_ends p) w) H); try done.
  unfold open_ends. cbn. by destruct (p_in p), (p_out p), (p_err p).
Qed.

(** When the time is up. *)
Definition over (timeout_ms : Z) (t0 : timespec) (nows : list timespec) : Prop :=
  (0 <= timeout_ms)%Z /\ Exists (fun now => timeout_ms <= elapsed_ms t0 now)%Z nows.

Lemma pump_loop_ok input timeout_ms t0 rounds : forall p, pumps input p ->
  returns (pump_loop timeout_ms t0 rounds p) (fun r => pumps input r.1 /\ (r.2 = PumpTimeout -> over timeout_ms t0 (rd_now <$> rounds))).
Proof.
  induction rounds as [|r rounds IH]; intros p H; cbn [pump_loop].
  - destruct (negb _); by apply returns_ret.
  - destruct (p_in p || p_out p || p_err p) eqn:Eo; cbn [negb]; [| by apply returns_ret].
    destruct ((0 <=? timeout_ms)%Z && (timeout_ms - elapsed_ms t0 (rd_now r) <=? 0)%Z) eqn:Et.
    + apply returns_ret. split; [done |]. intros _. apply andb_true_iff in Et as [Ht1%Z.leb_le Ht2%Z.leb_le]. split; [done |]. cbn. constructor. lia.
    + assert (Hp := pumps_poll input p (if (0 <=? timeout_ms)%Z then int_of_long (timeout_ms - elapsed_ms t0 (rd_now r)) else -1)%Z H Eo).
      assert (Hov : forall r' : pump * pumped, pumps input r'.1 /\ (r'.2 = PumpTimeout -> over timeout_ms t0 (rd_now <$> rounds)) ->
        pumps input r'.1 /\ (r'.2 = PumpTimeout -> over timeout_ms t0 (rd_now <$> r :: rounds))).
      { intros r' [H1 H2]. split; [done |]. intros E. destruct (H2 E) as [Ht He]. split; [done |]. cbn. by right. }
      destruct (rd_poll r) as [| |ri ro re].
      * eapply returns_mono; [by apply IH | exact Hov].
      * by apply returns_ret.
      * eapply returns_bind; [by apply pumps_ready |]. intros p2 H2. eapply returns_mono; [by apply IH | exact Hov].
Qed.

(** The calls that follow are waits, which carry nothing. *)
Definition waits_only (calls : list call) : Prop := Forall (fun c => match c with WaitChild _ _ | Kill | RestorePipe => True | _ => False end) calls.

Lemma waits_carry_nothing extra : waits_only extra -> forall calls,
  read_from OutR (calls ++ extra) = read_from OutR calls /\ read_from ErrR (calls ++ extra) = read_from ErrR calls /\ written (calls ++ extra) = written calls.
Proof.
  induction extra as [|c extra IH] using rev_ind; intros Hw calls; [by rewrite app_nil_r |].
  apply Forall_app in Hw as [Hw Hc]. apply Forall_cons_1 in Hc as [Hc _]. rewrite app_assoc, !read_from_snoc, written_snoc.
  destruct (IH Hw calls) as (-> & -> & ->). destruct c; try done; cbn; by rewrite !app_nil_r.
Qed.

Definition idle (k : child) : monitor := Monitor [] true k.

Lemma wait_bounded_ok timeout_ms t0 answers : forall calls, watched monitor0 calls = Some (idle (Running false)) ->
  exists extra r, wait_bounded timeout_ms t0 answers calls = (calls ++ extra, r) /\ waits_only extra /\
    watched monitor0 (calls ++ extra) = Some (idle (match r with Some (Some _) => Reaped false | _ => Running false end)) /\
    (r = Some None -> Exists (fun now => timeout_ms <= elapsed_ms t0 now)%Z (snd <$> answers)).
Proof.
  induction answers as [|[a now] answers IH]; intros calls Hw; [exists [], None; cbn; rewrite app_nil_r; split_and!; [done | constructor | done | done] |].
  cbn [wait_bounded]. destruct a as [|status|].
  - assert (Hw1 : watched monitor0 (calls ++ [WaitChild false false]) = Some (idle (Running false))) by (rewrite watched_snoc, Hw; reflexivity).
    destruct (Z.leb_spec timeout_ms (elapsed_ms t0 now)) as [Hl|Hl].
    + eexists _, _. split; [reflexivity |]. split_and!; [by repeat constructor | done |]. intros _. cbn. by constructor.
    + destruct (IH _ Hw1) as (extra & r & -> & He & Hw2 & Ho). exists (WaitChild false false :: extra), r. rewrite <- app_assoc in *.
      split_and!; [done | by constructor | done |]. intros E. cbn. right. by apply Ho.
  - eexists _, _. split; [reflexivity |]. split_and!; [by repeat constructor | by rewrite watched_snoc, Hw | done].
  - eexists _, _. split; [reflexivity |]. split_and!; [by repeat constructor | by rewrite watched_snoc, Hw | done].
Qed.

Lemma wait_blocking_ok k answers : forall calls, watched monitor0 calls = Some (idle (Running k)) ->
  exists extra r, wait_blocking answers calls = (calls ++ extra, r) /\ waits_only extra /\
    watched monitor0 (calls ++ extra) = Some (idle (match r with Some _ => Reaped k | None => Running k end)).
Proof.
  induction answers as [|a answers IH]; intros calls Hw; [exists [], None; cbn; rewrite app_nil_r; split_and!; [done | constructor | done] |].
  destruct a as [|status|]; cbn [wait_blocking].
  - destruct (IH (calls ++ [WaitChild true false])) as (extra & r & -> & He & Hw2); [by rewrite watched_snoc, Hw |].
    exists (WaitChild true false :: extra), r. rewrite <- app_assoc in *. split_and!; [done | by constructor | done].
  - eexists _, _. split; [reflexivity |]. split_and!; [by repeat constructor | by rewrite watched_snoc, Hw].
  - eexists _, _. split; [reflexivity |]. split_and!; [by repeat constructor | by rewrite watched_snoc, Hw].
Qed.

(** ** What a run comes to *)

Definition no_leak (e : ended) : Prop := e_out e <> Leaked /\ e_err e <> Leaked.

(** What is true of a run with that outcome. *)
Definition outcome_ok (input : bytes) (timeout_ms : Z) (s : system) (e : ended) (m : monitor) : Prop :=
  let time_is_up := over timeout_ms (sy_start s) ((rd_now <$> sy_rounds s) ++ (snd <$> sy_polls s)) in
  match e_outcome e with
  | Waiting => exists k, mo_child m = Running k /\ (k = true -> time_is_up)
  | Started => m = Monitor [] false (Running false)
  | BadArgs _ | NotStarted _ => m = Monitor [] false NoneYet
  | RaisedNoMemory => m = Monitor [] false NoneYet \/ exists k, m = Monitor [] false (Reaped k) /\ (k = true -> time_is_up)
  | RaisedLua => m = Monitor [] false (Reaped false)
  | TimedOut _ => m = Monitor [] false (Reaped true) /\ time_is_up
  | Exited _ out err => m = Monitor [] false (Reaped false) /\ out = read_from OutR (e_calls e) /\ err = read_from ErrR (e_calls e) /\
      written (e_calls e) `prefix_of` input
  end /\ (e_outcome e <> RaisedLua -> no_leak e).

Lemma own_push_ok lua forced : match own_push lua forced with (_, h, ok) => ok = true -> h = Collected end.
Proof. unfold own_push. repeat case_match; naive_solver. Qed.

Lemma finish_run_ok input timeout_ms timed_out status s force p calls0 extra : pumps input p -> calls0 = p_calls p ->
  waits_only extra -> watched monitor0 (calls0 ++ extra) = Some (idle (Reaped timed_out)) ->
  (timed_out = true -> over timeout_ms (sy_start s) ((rd_now <$> sy_rounds s) ++ (snd <$> sy_polls s))) ->
  exists m, watched monitor0 (e_calls (finish_run timeout_ms timed_out status (sy_lua s) force p (calls0 ++ extra))) = Some m /\
    outcome_ok input timeout_ms s (finish_run timeout_ms timed_out status (sy_lua s) force p (calls0 ++ extra)) m.
Proof.
  intros (_ & _ & _ & Hd & Hin) -> He Hw Ho. set (calls := p_calls p ++ extra) in *.
  assert (Hm : watched monitor0 (calls ++ [RestorePipe]) = Some (Monitor [] false (Reaped timed_out))) by (rewrite watched_snoc, Hw; reflexivity).
  assert (He2 : waits_only (extra ++ [RestorePipe])) by (apply Forall_app; split; [done | by repeat constructor]).
  destruct (waits_carry_nothing _ He2 (p_calls p)) as (Eo & Ee & Ew). rewrite app_assoc in Eo, Ee, Ew. fold calls in Eo, Ee, Ew.
  exists (Monitor [] false (Reaped timed_out)). unfold finish_run, outcome_ok.
  destruct (p_failed p) eqn:Ef; [split; [done |]; split; [right; exists timed_out; by split | done] |].
  destruct timed_out; [split; [done |]; split; [split; [done | by apply Ho] | done] |].
  pose proof (own_push_ok (sy_lua s) (force =? 1)) as H1. destruct (own_push (sy_lua s) (force =? 1)) as [[lua h1] ok1].
  destruct ok1; cbn [negb]; [| by split].
  pose proof (own_push_ok lua (force =? 2)) as H2. destruct (own_push lua (force =? 2)) as [[lua2 h2] ok2].
  destruct ok2; cbn [negb]; [| by split].
  rewrite (H1 eq_refl), (H2 eq_refl). destruct (Hd eq_refl) as [D1 D2]. split; [done |]. cbn [e_outcome e_calls]. split; [| done].
  rewrite Eo, Ee, Ew. split_and!; [done | done | done |]. exists (p_left p). by rewrite <- Hin.
Qed.

Lemma closed_ends p : open_ends (close_err (close_out (close_in p))) = [].
Proof. unfold close_err, close_out, close_in, open_ends. destruct p as [[] [] [] ? ? ? ? ? ?]; reflexivity. Qed.

(** After the pump: the child is waited for, killed first if there is a bound that
    is over. *)
Lemma collect_ok input timeout_ms s force p calls0 extra : pumps input p -> calls0 = p_calls p -> waits_only extra ->
  watched monitor0 (calls0 ++ extra) = Some (idle (Running false)) ->
  ((0 <= timeout_ms)%Z -> over timeout_ms (sy_start s) ((rd_now <$> sy_rounds s) ++ (snd <$> sy_polls s))) ->
  let e := let timed_out := (0 <=? timeout_ms)%Z in
           let '(calls, status) := wait_blocking (sy_waits s) (if timed_out then (calls0 ++ extra) ++ [Kill] else calls0 ++ extra) in
           match status with
           | None => Ended Waiting calls Own Own
           | Some status => finish_run timeout_ms timed_out status (sy_lua s) force p calls
           end in
  exists m, watched monitor0 (e_calls e) = Some m /\ outcome_ok input timeout_ms s e m.
Proof.
  intros Hp Ec He Hw Ho. cbn zeta. set (timed_out := (0 <=? timeout_ms)%Z).
  set (extra' := extra ++ if timed_out then [Kill] else []).
  assert (E : (if timed_out then (calls0 ++ extra) ++ [Kill] else calls0 ++ extra) = calls0 ++ extra').
  { subst extra'. destruct timed_out; by rewrite ?app_nil_r, ?app_assoc. }
  assert (He' : waits_only extra') by (apply Forall_app; split; [done | destruct timed_out; by repeat constructor]).
  assert (Hw' : watched monitor0 (calls0 ++ extra') = Some (idle (Running timed_out))).
  { rewrite <- E. destruct timed_out; [rewrite watched_snoc, Hw; reflexivity | done]. }
  rewrite E. destruct (wait_blocking_ok timed_out (sy_waits s) (calls0 ++ extra') Hw') as (extra2 & r & -> & He2 & Hw2).
  destruct r as [status|]; [| exists (idle (Running timed_out)); split; [done |]; split; [| done]; exists timed_out; split; [done |]; intros Ht; apply Ho; subst timed_out; by apply Z.leb_le in Ht].
  rewrite <- app_assoc in *. apply finish_run_ok; try done; [by apply Forall_app |].
  intros Ht. apply Ho. subst timed_out. by apply Z.leb_le in Ht.
Qed.

Lemma over_l timeout_ms t0 nows nows' : over timeout_ms t0 nows -> over timeout_ms t0 (nows ++ nows').
Proof. intros [Ht He]. split; [done |]. apply Exists_app. by left. Qed.

Lemma run_child_ok input timeout_ms s force mem calls : watched monitor0 calls = Some (Monitor [InR; InW; OutR; OutW; ErrR; ErrW] true (Running false)) ->
  (forall d, read_from d calls = []) -> written calls = [] ->
  returns (run_child input timeout_ms s force mem calls) (fun e => exists m, watched monitor0 (e_calls e) = Some m /\ outcome_ok input timeout_ms s e m).
Proof.
  intros Hc Hr Hwr. unfold run_child.
  set (p0 := Pump true true true input buf0 buf0 false mem (calls ++ [Close InR; Close OutW; Close ErrW])).
  assert (H0 : pumps input p0).
  { unfold pumps. cbn [p_calls p_outb p_errb p_failed p_left p0].
    replace (calls ++ [Close InR; Close OutW; Close ErrW]) with (((calls ++ [Close InR]) ++ [Close OutW]) ++ [Close ErrW]) by by rewrite <- !app_assoc.
    rewrite !watched_snoc, Hc, !read_from_snoc, !written_snoc, !Hr, Hwr. done. }
  set (p1 := match input with [] => close_in p0 | _ => p0 end).
  assert (H1 : pumps input p1) by (subst p1; destruct input; [by apply pumps_close_in | done]).
  eapply returns_bind; [by apply pump_loop_ok |]. intros [p how] [H2 Ho]. cbn [fst snd] in *.
  assert (Hend : pumps input (close_err (close_out (close_in p)))) by by apply pumps_close_err, pumps_close_out, pumps_close_in.
  pose proof (closed_ends p) as Hopen. set (q := close_err _) in *.
  assert (Hq : watched monitor0 (p_calls q ++ []) = Some (idle (Running false))) by (rewrite app_nil_r; destruct Hend as [-> _]; by rewrite Hopen).
  destruct how.
  - destruct (Z.leb_spec 0 timeout_ms) as [Ht|Ht]; cbn [andb negb].
    + rewrite app_nil_r in Hq. destruct (wait_bounded_ok timeout_ms (sy_start s) (sy_polls s) (p_calls q) Hq) as (extra & r & -> & He & Hw & Hov).
      assert (Hov' : r = Some None -> (0 <= timeout_ms)%Z -> over timeout_ms (sy_start s) ((rd_now <$> sy_rounds s) ++ (snd <$> sy_polls s))).
      { intros -> _. split; [done |]. apply Exists_app. right. by apply Hov. }
      destruct r as [[status|]|].
      * apply returns_ret, finish_run_ok; done.
      * pose proof (collect_ok input timeout_ms s force q (p_calls q) extra Hend eq_refl He Hw (Hov' eq_refl)) as H.
        cbn zeta in H. replace (0 <=? timeout_ms)%Z with true in H by (symmetry; by apply Z.leb_le). destruct (wait_blocking _ _). by apply returns_ret.
      * apply returns_ret. exists (idle (Running false)). split; [done |]. split; [by exists false | done].
    + pose proof (collect_ok input timeout_ms s force q (p_calls q) [] Hend eq_refl ltac:(constructor) Hq ltac:(lia)) as H.
      cbn zeta in H. rewrite app_nil_r in H. replace (0 <=? timeout_ms)%Z with false in H by (symmetry; by apply Z.leb_gt). destruct (wait_blocking _ _). by apply returns_ret.
  - destruct (Ho eq_refl) as [Ht _]. pose proof (over_l _ _ _ (snd <$> sy_polls s) (Ho eq_refl)) as Hov. rewrite andb_false_r.
    pose proof (collect_ok input timeout_ms s force q (p_calls q) [] Hend eq_refl ltac:(constructor) Hq (fun _ => Hov)) as H.
    replace (0 <=? timeout_ms)%Z with true in * by (symmetry; by apply Z.leb_le).
    cbn zeta in H. rewrite app_nil_r in H. destruct (wait_blocking _ _). by apply returns_ret.
  - apply returns_ret. destruct H2 as [H2 _]. eexists. split; [exact H2 |]. split; [by exists false | done].
Qed.

(** Only a command in the background is left as a child that was started, and Lua
    raises only if it has no memory, or is forced to by a test. *)
Definition fits_opts (o : exec_opts) (s : system) (force : nat) (e : ended) : Prop :=
  match e_outcome e with
  | Started => o_background o = true
  | Exited _ _ _ | TimedOut _ | Waiting => o_background o = false
  | RaisedLua => o_background o = false /\ (sy_lua s <> [] \/ force <> 0)
  | _ => True
  end.

Lemma own_push_plenty lua forced : lua = [] -> forced = false -> own_push lua forced = ([], Collected, true).
Proof. by intros -> ->. Qed.

Lemma finish_run_fits o timeout_ms timed_out status s force p calls : o_background o = false ->
  fits_opts o s force (finish_run timeout_ms timed_out status (sy_lua s) force p calls).
Proof.
  intros Hb. unfold finish_run, fits_opts. destruct (p_failed p); [done |]. destruct timed_out; [done |].
  assert (H : sy_lua s = [] /\ force = 0 \/ sy_lua s <> [] \/ force <> 0) by (destruct (sy_lua s), force; naive_solver).
  destruct H as [[-> ->]|H]; [rewrite own_push_plenty by done; cbn [negb]; by rewrite own_push_plenty by done |].
  destruct (own_push _ (force =? 1)) as [[lua h] []]; [| done]. destruct (own_push lua _) as [[lua2 h2] []]; done.
Qed.

Lemma run_child_fits o input timeout_ms s force mem calls e : o_background o = false ->
  run_child input timeout_ms s force mem calls = CRet e -> fits_opts o s force e.
Proof.
  intros Hb. unfold run_child. destruct (pump_loop _ _ _ _) as [[p how]| | |]; try done. cstep. set (q := close_err _).
  assert (Hi : forall a b : ended, CRet a = CRet b -> a = b) by congruence.
  assert (Hw : forall cs, fits_opts o s force (Ended Waiting cs Own Own)) by done.
  destruct how; try (intros <-%Hi; done);
    (destruct (if _ && _ then _ else _) as [cs [[status|]|]]; [intros <-%Hi; by apply finish_run_fits | | by intros <-%Hi]);
    (destruct (wait_blocking _ _) as [cs2 [status|]]; intros <-%Hi; [by apply finish_run_fits | done]).
Qed.


#[local] Instance sample_numbers : LuaNumbers := {| number_text _ := []; text_number _ := None |}.

(** A command that copies its input, with a timeout of a second and a half. *)
Definition at_ms (ms : Z) : timespec := Timespec 0 (ms * 1000000).

Definition sample_system : system := System [] [] None (at_ms 0)
  [Round (at_ms 1) (Polled true false false) (Wrote 1) ReadAgain ReadAgain; Round (at_ms 2) PollIntr WriteAgain ReadAgain ReadAgain;
   Round (at_ms 3) (Polled true true false) (Wrote 1) (ReadBytes (bytes_of "h")) ReadAgain;
   Round (at_ms 4) (Polled false true true) WriteAgain (ReadBytes (bytes_of "i")) (ReadBytes []);
   Round (at_ms 5) (Polled false true false) WriteAgain (ReadBytes []) ReadAgain]
  [(NotYet, at_ms 6); (Gone 768, at_ms 8)] [] [].

Definition sample_opts : exec_opts := Opts false false (Some (S754_finite false 6755399441055744 (-52))).


(** What was captured of the standard error is lost if Lua raises while it takes the
    standard output: nobody owns it then. *)
Lemma captured_error_lost : exists calls, exec_run [LStr (bytes_of "sh")] [] (Opts false false None) 1
  (System [] [] None (at_ms 0) [Round (at_ms 1) (Polled false true true) WriteAgain (ReadBytes []) (ReadBytes (bytes_of "oops"));
     Round (at_ms 2) (Polled false false true) WriteAgain ReadAgain (ReadBytes [])] [] [Gone 0] []) =
  CRet (Ended RaisedLua calls Collected Leaked).
Proof. eexists. vm_compute. reflexivity. Qed.

(** The time that is left is cut to an int: with a timeout of 3000000 seconds [poll]
    is asked to wait without a bound. *)
Lemma long_timeout_unbounded : exists p, pump_loop 3000000000 (at_ms 0) [Round (at_ms 0) PollIntr WriteAgain ReadAgain ReadAgain]
  (Pump false true true [] buf0 buf0 false [] []) = CRet (p, PumpWaits) /\ p_calls p = [Poll [OutR; ErrR] (-1294967296)].
Proof. eexists. split; vm_compute; reflexivity. Qed.

(** With [background] the input is not written. *)
Lemma background_drops_input `{numbers : LuaNumbers} argv input s : sy_pipes s = [] -> sy_fork s = None -> sy_mem s = [] -> argv <> [] ->
  exists calls, exec_run (LStr <$> argv) input (Opts false true None) 0 s = CRet (Ended Started calls Own Own) /\ written calls = [].
Proof.
  intros Hp Hf Hm Ha. unfold exec_run. cbn zeta. rewrite length_fmap. destruct argv as [|a argv]; [done |]. cbn [length Nat.eqb o_timeout timeout_of]. cstep.
  assert (E : mapM lua_tostring (LStr <$> a :: argv) = Some (cstr <$> a :: argv)).
  { generalize (a :: argv). intros l. induction l as [|x l IH]; [done |]. cbn [fmap list_fmap mapM]. cbn in IH |- *. by rewrite IH. }
  rewrite E, Hp, Hf, Hm. cbn [alloc].
  assert (Ec : forall n, copy_args [] n = ([], true)) by (intros n; induction n; [done | by cbn]).
  rewrite Ec. cbn. eexists. split; reflexivity.
Qed.

(** ** [qwe.exec.wait] ends *)

Lemma exec_wait_ends ms answers : forall waited, (ms <= waited + 2 * Z.of_nat (length answers))%Z -> exec_wait ms waited (answers ++ [NotYet]) <> None.
Proof.
  induction answers as [|a answers IH]; intros waited Hl; cbn [app exec_wait].
  - cbn in Hl. by rewrite (proj2 (Z.leb_le _ _)) by lia.
  - destruct a; [| done | done]. destruct (Z.leb_spec ms waited); [done |]. apply IH. cbn in Hl. lia.
Qed.
