(* ===== verification/Files.v ===== *)
(** * Files for a plugin

    Models [src/kernel/luafs.c]: the listing of a directory, whether a name is one,
    and the private directory for the sockets of ssh.  The system's answers are
    arguments. *)

From Stdlib Require Import Ascii String NArith ZArith Lia.
From stdpp Require Import base list sorting strings numbers.
From S2P Require Import Prelude Cstr Redact Fmt Cbor LuaCbor Keyfile Exec.

Open Scope nat_scope.
Open Scope list_scope.

(** ** Listing *)

Definition dots (name : bytes) : bool := bool_decide (name = bytes_of "." \/ name = bytes_of "..").

(** The loop over the entries, with the array's length and capacity; false: no
    memory. *)
Fixpoint read_names (mem : list bool) (names : list bytes) (cap : nat) (entries : list bytes) : list bool * option (list bytes) :=
  match entries with
  | [] => (mem, Some names)
  | e :: entries =>
      if dots e then read_names mem names cap entries
      else
        let '(grown, mem) := if length names =? cap then alloc mem else (true, mem) in
        if negb grown then (mem, None)
        else
          let cap := if length names =? cap then (if cap =? 0 then 16 else cap * 2) else cap in
          let '(ok, mem) := alloc mem in
          if negb ok then (mem, None) else read_names mem (names ++ [e]) cap entries
  end.

Inductive listing :=
| Listed (names : list bytes)
| NotListed (why : bytes)     (* nil, message *)
| ListRaised.                  (* Lua raised *)

(** The pushes of the names. *)
Fixpoint push_names (lua : list bool) (names : list bytes) : bool :=
  match names with
  | [] => true
  | _ :: names => let '(ok, lua) := alloc lua in ok && push_names lua names
  end.

(** [opened]: why the directory cannot be read, or its entries.  With the names, who
    frees them.  [no_memory]: the text of ENOMEM. *)
Definition fs_list (no_memory : bytes) (opened : bytes + list bytes) (mem lua : list bool) : listing * holder :=
  match opened with
  | inl why => (NotListed why, Own)
  | inr entries =>
      match read_names mem [] 0 entries with
      | (_, None) => (NotListed no_memory, Own)
      | (_, Some names) =>
          let names := if 1 <? length names then qsort key_cmp names else names in
          let nothing := match names with [] => Own | _ => Leaked end in
          (* qwe_lua_own_strv: the userdata, then its metatable *)
          let '(ok, lua) := alloc lua in
          if negb ok then (ListRaised, nothing)
          else
            let '(ok, lua) := alloc lua in
            if negb ok then (ListRaised, nothing)
            else
              let '(ok, lua) := alloc lua in
              if ok && push_names lua names then (Listed names, Own) else (ListRaised, Collected)
      end
  end.

(** ** Directories *)

(** What [stat] gives, if it succeeds. *)
Definition fs_isdir (st : option stat) : bool := match st with Some st => st_dir st | None => false end.

Inductive private_dir :=
| PrivateDir
| NoPrivateDir (msg : bytes) (create : bool). (* nil, message, and "create" if it could not be made *)

(** [made] is [mkdir]'s answer, [st] that of [lstat]. *)
Definition fs_private_dir (path : bytes) (what : option bytes) (made : mkdir_result) (st : option stat) (euid : Z) : private_dir :=
  let what := default (bytes_of "the directory") what in
  match made with
  | MkdirFails why => NoPrivateDir (bytes_of "cannot create " ++ what ++ bytes_of " " ++ path ++ bytes_of ": " ++ why) true
  | _ =>
      match st with
      | Some st =>
          if st_dir st then
            match qwe_private_check st euid what path 512 with
            | Some err => NoPrivateDir err false
            | None => PrivateDir
            end
          else NoPrivateDir (what ++ bytes_of " " ++ path ++ bytes_of " is not a directory") false
      | None => NoPrivateDir (what ++ bytes_of " " ++ path ++ bytes_of " is not a directory") false
      end
  end.

(** ** What they promise *)

Lemma read_names_ok entries : forall mem names cap, exists mem' r, read_names mem names cap entries = (mem', r) /\
  match r with
  | Some l => l = names ++ filter (fun e => dots e = false) entries
  | None => mem <> []
  end.
Proof.
  induction entries as [|e entries IH]; intros mem names cap; cbn [read_names]; [eexists _, _; split; [reflexivity |]; by rewrite app_nil_r |].
  rewrite filter_cons. destruct (dots e) eqn:Ed; [rewrite decide_False by done; apply IH | rewrite decide_True by done].
  set (grow := if length names =? cap then alloc mem else (true, mem)).
  assert (Hg : mem = [] -> grow = (true, [])) by (intros ->; unfold grow; by destruct (_ =? _)).
  destruct grow as [[] mem1]; cbn [negb]; [| eexists _, _; split; [reflexivity |]; intros ->; by specialize (Hg eq_refl)].
  destruct (alloc mem1) as [[] mem2] eqn:Em; cbn [negb].
  - destruct (IH mem2 (names ++ [e]) (if length names =? cap then if cap =? 0 then 16 else cap * 2 else cap)) as (mem' & r & -> & Hr).
    eexists _, _. split; [reflexivity |]. destruct r; [by rewrite <- app_assoc in Hr |]. intros ->. specialize (Hg eq_refl). injection Hg as ->. by injection Em as <-.
  - eexists _, _. split; [reflexivity |]. intros ->. specialize (Hg eq_refl). injection Hg as ->. discriminate Em.
Qed.

Lemma push_names_ok names : push_names [] names = true.
Proof. induction names; [done | by cbn]. Qed.

(** A listing is every entry but the two dots, sorted, whatever order the system
    gives; without memory it is refused; the names are never lost but when Lua cannot
    make the wrapper that owns them. *)
Theorem fs_list_sorted no_memory entries mem lua : exists r h, fs_list no_memory (inr entries) mem lua = (r, h) /\
  match r with
  | Listed names => names ≡ₚ filter (fun e => dots e = false) entries /\ Sorted key_cmp names /\ h = Own
  | NotListed why => why = no_memory /\ mem <> [] /\ h = Own
  | ListRaised => lua <> [] /\ (h = Leaked -> exists l, lua = false :: l \/ lua = true :: false :: l)
  end.
Proof.
  unfold fs_list. destruct (read_names_ok entries mem [] 0) as (mem' & r & -> & Hr). destruct r as [names|]; [| by eexists _, _].
  cbn [app] in Hr. subst names. set (l := filter _ entries). set (names := if 1 <? length l then _ else l).
  assert (Hn : names ≡ₚ l /\ Sorted key_cmp names).
  { unfold names. destruct (Nat.ltb_spec 1 (length l)); [split; [apply qsort_Permutation | apply Sorted_qsort, _] | split; [done | apply Sorted_short; lia]]. }
  clearbody names. destruct Hn as [Hp Hs].
  destruct lua as [|[] [|[] lua]]; cbn [alloc negb]; cbn beta iota.
  - cbn. rewrite push_names_ok. eexists _, _. split; [reflexivity |]. by split_and!.
  - cbn. rewrite push_names_ok. eexists _, _. split; [reflexivity |]. by split_and!.
  - destruct (alloc lua) as [ok rest] eqn:Ea. destruct (ok && push_names rest names); eexists _, _; (split; [reflexivity |]); by split_and!.
  - eexists _, _. split; [reflexivity |]. split; [done |]. intros _. eexists. by right.
  - eexists _, _. split; [reflexivity |]. split; [done |]. intros _. eexists. by left.
  - eexists _, _. split; [reflexivity |]. split; [done |]. intros _. eexists. by left.
  - eexists _, _. split; [reflexivity |]. split; [done |]. intros _. eexists. by left.
Qed.

(** A private directory is accepted only if it is a directory of the user that
    nobody else can get into. *)
Lemma private_dir_exact path what made st euid : fs_private_dir path what made st euid = PrivateDir <->
  (forall why, made <> MkdirFails why) /\ exists st', st = Some st' /\ st_dir st' = true /\ private st' euid.
Proof.
  unfold fs_private_dir. cbn zeta. destruct made; [| | split; [done | intros [H _]; by destruct (H why)]].
  all: destruct st as [st|]; [| split; [done | by intros (_ & ? & ? & _)]];
    destruct (st_dir st) eqn:Ed; [| split; [done | intros (_ & ? & [= <-] & ? & _); congruence]];
    pose proof (private_check_ok st euid (default (bytes_of "the directory") what) path 512) as Hc;
    destruct (qwe_private_check _ _ _ _ _); split; try done; [| intros _; split; [done | by exists st]];
    intros (_ & ? & [= <-] & _ & Hp); by destruct Hc.
Qed.
