(* ===== verification/Tables.v ===== *)
(** * The jobs of a decoded workflow

    Which fields of the Lua value of a workflow [src/kernel/jobs.c], [validate.c] and
    [workflow.c] read, and as what: the step from the values of [LuaCbor] to the
    tables that [Jobs] and [Validate] work on. *)

From Stdlib Require Import Ascii String NArith ZArith Lia SpecFloat.
From stdpp Require Import base list strings numbers.
From S2P Require Import Prelude Cstr Redact LuaCbor LuaTable Lifecycle Job Jobs Validate ValidateOk.

Open Scope nat_scope.
Open Scope list_scope.

Section tables.
Context `{numbers : LuaNumbers}.

(** A field as text, if it is one. *)
Definition text_at (v : lua) (k : string) : cres (option string) :=
  f ← lua_getfield v k; mret (string_of <$> lua_tostring f).

(** What is read of a step. *)
Definition step_of (v : lua) : cres step_table :=
  run ← text_at v "run";
  uses ← text_at v "uses";
  id ← text_at v "id";
  name ← text_at v "name";
  on ← text_at v "on";
  coe ← lua_getfield v "continue-on-error";
  mret (StepTable run (StepDecl id name uses (lua_toboolean coe) on)).

(** What is read of a job. *)
Definition table_of (v : lua) : cres job_table :=
  target ← text_at v "target";
  timeout ← lua_getfield v "timeout-seconds";
  needs ← lua_getfield v "needs";
  steps ← lua_getfield v "steps";
  items ← lua_items steps;
  steps ← mapM step_of items;
  mret (JobTable target (double_of_bits <$> lua_tonumber timeout)
    (match needs with LTable _ seq _ => Some ((fun n => string_of <$> lua_tostring n) <$> seq) | _ => None end) steps).

(** The pairs of [lua_next].  Where a key is no string, [lua_tostring] changes it
    under the traversal. *)
Definition entry_of (f : lkey * lua) : cres (string * job_table) :=
  match f with
  | (KStr id, v) => t ← table_of v; mret (string_of (cstr id), t)
  | _ => CUndef
  end.

Definition entries_of (workflow : lua) : cres (list (string * job_table)) :=
  jobs ← lua_getfield workflow "jobs";
  match jobs with
  | LTable _ [] fields => mapM entry_of fields
  | _ => CUndef
  end.

(** ** Doubles *)

Lemma finite_double sign m e : (Zpos m < 2 ^ 53)%Z -> (-1074 <= e <= 971)%Z -> ((-1074 < e)%Z -> (2 ^ 52 <= Zpos m)%Z) -> is_double (S754_finite sign m e).
Proof.
  intros Hm He Hn. unfold is_double. cbn [valid_binary]. unfold bounded, canonical_mantissa, fexp, SpecFloat.emin, prec, emax.
  pose proof (digits2_bounds m) as [H1 H2]. set (d := Zpos (digits2_pos m)) in *.
  assert (Hd : (d <= 53)%Z).
  { destruct (Z.le_gt_cases d 53); [done |]. assert (2 ^ 53 <= 2 ^ (d - 1))%Z by (apply Z.pow_le_mono_r; lia). lia. }
  apply andb_true_iff. split; [| apply Z.leb_le; lia]. apply Z.eqb_eq. destruct (Z.eq_dec e (-1074)%Z) as [->|Hne]; [lia |].
  assert (Hd2 : (52 < d)%Z).
  { destruct (Z.le_gt_cases d 52); [| lia]. assert (2 ^ d <= 2 ^ 52)%Z by (apply Z.pow_le_mono_r; lia). specialize (Hn ltac:(lia)). lia. }
  lia.
Qed.

Lemma double_of_bits_double b : is_double (double_of_bits b).
Proof.
  unfold double_of_bits. assert (He : (0 <= d_exp b < 2048)%Z) by (unfold d_exp; apply Z.mod_pos_bound; lia).
  assert (Hm : (0 <= d_mant b < 2 ^ 52)%Z) by (unfold d_mant; apply Z.mod_pos_bound; lia).
  destruct (Z.eqb_spec (d_exp b) 2047); [by destruct (_ =? 0)%Z |].
  destruct (Z.eqb_spec (d_exp b) 0).
  - destruct (d_mant b) as [|m|m] eqn:E; [done | apply finite_double; lia | done].
  - destruct (d_mant b + 2 ^ 52)%Z as [|m|m] eqn:E; [done | apply finite_double; lia | done].
Qed.

(** ** What the schema makes sure of *)

Definition is_text (v : lua) : bool := match v with LStr _ => true | _ => false end.

Definition needs_shaped (v : lua) : bool :=
  match v with
  | LNil => true
  | LTable _ seq _ => forallb is_text seq && (Z.of_nat (length seq) <? 2 ^ 24 - 1)%Z
  | _ => false
  end.

Definition timeout_shaped (v : lua) : bool := match v with LNil | LNum _ => true | _ => false end.

(** A step with [run:] or [uses:]. *)
Definition step_shaped (v : lua) : bool :=
  match v with
  | LTable _ _ fields => is_text (get_field (bytes_of "run") fields) || is_text (get_field (bytes_of "uses") fields)
  | _ => false
  end.

Definition steps_shaped (v : lua) : bool :=
  match v with
  | LTable _ seq _ => forallb step_shaped seq && (Z.of_nat (length seq) <? 2 ^ 24 - 1)%Z
  | _ => false
  end.

(** A job: a table whose needs are strings and whose steps are tables, fewer of
    them than the tag of an event can tell apart. *)
Definition job_shaped (f : lkey * lua) : bool :=
  match f with
  | (KStr _, LTable _ _ fields) =>
      needs_shaped (get_field (bytes_of "needs") fields) && timeout_shaped (get_field (bytes_of "timeout-seconds") fields) &&
      steps_shaped (get_field (bytes_of "steps") fields)
  | _ => false
  end.

Definition shaped (workflow : lua) : bool :=
  match workflow with
  | LTable _ _ fields => match get_field (bytes_of "jobs") fields with LTable _ [] jobs => forallb job_shaped jobs | _ => false end
  | _ => false
  end.

Lemma text_at_table mt seq fields k : text_at (LTable mt seq fields) k = CRet (string_of <$> lua_tostring (get_field (bytes_of k) fields)).
Proof. reflexivity. Qed.

Lemma mapM_returns {A B} (f : A -> cres B) (Q : A -> B -> Prop) l : Forall (fun a => exists b, f a = CRet b /\ Q a b) l ->
  exists bs, mapM f l = CRet bs /\ Forall2 Q l bs.
Proof.
  induction 1 as [|a l (b & E & HQ) _ (bs & IH & Hall)]; [by exists [] |]. exists (b :: bs). split; [| by constructor].
  cbn. rewrite E. cstep. by rewrite IH.
Qed.

Lemma step_of_table v : step_shaped v = true -> exists t, step_of v = CRet t /\ step_bad t = false.
Proof.
  destruct v as [| | | | | | |mt seq fields]; try done. intros H. unfold step_of. rewrite !text_at_table. cstep. eexists. split; [reflexivity |].
  unfold step_bad. cbn. cbn in H. apply orb_true_iff in H as [H|H].
  - by destruct (get_field (bytes_of "run") fields).
  - destruct (get_field (bytes_of "uses") fields); try done. by destruct (lua_tostring _).
Qed.

Lemma entry_of_shaped f : job_shaped f = true -> exists e, entry_of f = CRet e /\ entry_ok e /\ entry_small e /\ table_runs (snd e).
Proof.
  destruct f as [[ident|] [| | | | | | |mt seq fields]]; try done. cbn [job_shaped]. intros [[Hn Ht]%andb_true_iff Hs]%andb_true_iff.
  unfold entry_of, table_of. rewrite text_at_table. cbn [lua_getfield]. cstep.
  destruct (get_field (bytes_of "steps") fields) as [| | | | | | |ms steps fs]; try done. cbn [steps_shaped lua_items] in *. cstep.
  apply andb_true_iff in Hs as [Hs Hl%Z.ltb_lt]. destruct (mapM_returns step_of (fun _ t => step_bad t = false) steps) as (ts & -> & Hts).
  { apply Forall_forall. intros v Hv. rewrite forallb_forall in Hs. exact (step_of_table v (Hs v Hv)). }
  cstep. eexists. split; [reflexivity |]. pose proof (Forall2_length Hts). unfold entry_ok, entry_small, timeout_double, table_runs. cbn [snd tb_needs tb_steps tb_timeout].
  assert (Hlen : (Z.of_nat (length ts) < 2 ^ 24 - 1)%Z) by lia.
  assert (Hneeds : forall ns : option (list (option string)), ns = match get_field (bytes_of "needs") fields with LTable _ seq _ => Some ((fun n => string_of <$> lua_tostring n) <$> seq) | _ => None end ->
    Forall is_Some (default [] ns) /\ (Z.of_nat (length (default [] ns)) < 2 ^ 64)%Z).
  { intros ns ->. destruct (get_field (bytes_of "needs") fields) as [| | | | | | |mn needs fn]; try done; cbn [default from_option id].
    cbn [needs_shaped] in Hn. apply andb_true_iff in Hn as [Hn Hln%Z.ltb_lt]. rewrite length_fmap. split; [| lia]. apply Forall_fmap, Forall_forall.
    intros v Hv. rewrite forallb_forall in Hn. specialize (Hn v Hv). destruct v; try done. by eexists. }
  split; [by apply Hneeds |]. split; [split; [| done] |].
  - destruct (get_field (bytes_of "timeout-seconds") fields); try done. apply double_of_bits_double.
  - split; [by apply Hneeds |]. clear -Hts. induction Hts; by constructor.
Qed.

(** What is shaped like a workflow can be read. *)
Lemma shaped_entries v : shaped v = true -> exists entries, entries_of v = CRet entries /\ Forall entry_ok entries /\ Forall entry_small entries /\
  Forall (fun e => table_runs (snd e)) entries.
Proof.
  destruct v as [| | | | | | |mt seq fields]; try done. unfold shaped, entries_of. cbn [lua_getfield]. cstep.
  destruct (get_field (bytes_of "jobs") fields) as [| | | | | | |mj [|? ?] jobs]; try done. intros Hj.
  destruct (mapM_returns entry_of (fun _ e => entry_ok e /\ entry_small e /\ table_runs (snd e)) jobs) as (es & -> & Hes).
  { apply Forall_forall. intros f Hf. rewrite forallb_forall in Hj. exact (entry_of_shaped f (Hj f Hf)). }
  exists es. split; [done |]. clear Hj. induction Hes as [|f e fs es (He & Hs & Hr) _ (IH1 & IH2 & IH3)]; [by split_and! |]. split_and!; by constructor.
Qed.
End tables.
