(* ===== verification/Load.v ===== *)
(** * From a file to a workflow

    Models what [src/kernel/workflow.c] does before a run, and all that [qwe
    validate] does: the file is read, transcoded to CBOR and decoded to Lua, the
    inventory likewise, and both are checked.  libyaml, the texts of TinyCBOR's
    errors and what the Lua modules answer are parameters; each stage has the
    answers of its own allocations. *)

From Stdlib Require Import Ascii String NArith ZArith Lia SpecFloat.
From stdpp Require Import base list strings numbers.
From S2P Require Import Prelude Qwe Cstr Redact Fmt Dag Cbor Positions LuaCbor LuaCborOk Yaml YamlSpec YamlOk YamlDoc LuaTable Lifecycle Result Job Jobs EngineOk Run RunOk Validate ValidateOk Tables Keyfile.

Open Scope nat_scope.
Open Scope list_scope.

(** ** [read_file] *)

(** What a stream holds, and after how many bytes reading it fails, if it does. *)
Record stream := Stream { st_content : bytes; st_fails : option nat }.

Definition readable (s : stream) : bytes := match st_fails s with Some k => take k (st_content s) | None => st_content s end.

(** The loop: what is read, what is left of it and the capacity. *)
Fixpoint read_loop (fuel : nat) (fails : bool) (mem : list bool) (buf rest : bytes) (cap : nat) : cres (option bytes) :=
  match fuel with
  | 0 => CFuel
  | S fuel =>
      match take (cap - length buf) rest with
      | [] => mret (Some buf)
      | got =>
          let eof := negb fails && (length rest <? cap - length buf) in
          let rest := drop (cap - length buf) rest in
          let buf := buf ++ got in
          if eof then mret (Some buf)
          else if length buf =? cap then
            let '(ok, mem) := alloc mem in
            if (ok : bool) then read_loop fuel fails mem buf rest (cap * 2) else mret None
          else read_loop fuel fails mem buf rest cap
      end
  end.

(** The text of the file, or why there is none; [no_memory] is the text of
    ENOMEM. *)
Definition read_file (no_memory : bytes) (mem : list bool) (file : bytes + stream) : cres (bytes + bytes) :=
  match file with
  | inl why => mret (inl why)
  | inr s =>
      let '(ok, mem) := alloc mem in
      if negb ok then mret (inl no_memory)
      else
        r ← read_loop (S (length (readable s))) (if st_fails s is Some _ then true else false) mem [] (readable s) 4096;
        mret (match r with Some text => inr text | None => inl no_memory end)
  end.

(** ** Loading *)

Section load.
Context `{numbers : LuaNumbers}.

(** libyaml: what it makes of a text, in each pass. *)
Variable libyaml : bytes -> nat -> attempt.
Variable cbor_error_string : CborError -> bytes.
Variable no_memory : bytes.

(** The Lua modules. *)
Record modules := Modules {
  md_inventory : pcall unit;    (* require "qwe.inventory" *)
  md_validate_inventory : lua -> pcall (list lua_error);
  md_validator : pcall unit;    (* require "qwe.validate" *)
  md_validate_project : option lua -> lua -> bytes -> pcall (list lua_error * list (bytes * bytes));
}.

Variable md : modules.

(** A file, and the allocations of its stages. *)
Record reading := Reading {
  rd_file : bytes + stream;
  rd_mem : list bool;   (* [read_file] *)
  rd_yaml : list bool;  (* [qwe_yaml_to_cbor] *)
  rd_cbor : list bool;  (* [qwe_cbor_to_lua] *)
  rd_check : list bool; (* the validation *)
}.

Definition line_of (parts : list bytes) : bytes := concat parts ++ [NL].
Definition COLON : bytes := bytes_of ": ".

Definition derr_text (e : derr) : bytes := match e with DCbor e => cbor_error_string e | DMsg s => bytes_of s end.

(** What was printed, and the inventory jobs read from ([None]: QWE_EXIT_USAGE).
    The inventory of a name that was found: *)
Definition load_inventory_at (cmd inv_path : bytes) (r : reading) : cres (list bytes * option (option lua)) :=
  text ← read_file no_memory (rd_mem r) (rd_file r);
  match text with
  | inl why => mret ([line_of [cmd; bytes_of ": cannot read "; inv_path; COLON; why]], None)
  | inr yaml =>
      c ← qwe_yaml_to_cbor (libyaml yaml) (length yaml) 256 (rd_yaml r);
      match c with
      | inl err => mret ([line_of [cmd; COLON; inv_path; bytes_of ":"; err]], None)
      | inr (cbor, pos) =>
          v ← qwe_cbor_to_lua (rd_cbor r) cbor;
          match v with
          | inl e => mret ([line_of [cmd; COLON; inv_path; COLON; qwe_msg 256 (derr_text e)]], None)
          | inr v =>
              if negb (lua_istable v) then
                mret ([line_of [cmd; COLON; inv_path; bytes_of ":1:1: an inventory is a map with targets: and secrets:"]], None)
              else
                '(errors, lines) ← qwe_validate_inventory (rd_check r) (md_inventory md) (md_validate_inventory md v) pos cmd inv_path;
                mret (lines, if 0 <? errors then None else Some (Some v))
          end
      end
  end.

(** [exists_]: whether there is a file next to the workflow. *)
Definition load_inventory (cmd wf_path : bytes) (inv_path : option bytes) (path_memory exists_ : bool) (r : reading) :
    cres (list bytes * option (option lua)) :=
  match inv_path with
  | Some inv_path => load_inventory_at cmd inv_path r
  | None =>
      if negb path_memory then mret ([line_of [cmd; COLON; wf_path; bytes_of ": out of memory"]], None)
      else
        let dir := match strrchr "/" wf_path with Some (dir, _) => dir ++ ["/"%char] | None => [] end in
        if exists_ then load_inventory_at cmd (dir ++ bytes_of "inventory.yaml") r else mret ([], Some None)
  end.

(** What was printed, and the workflow with the inventory ([None]:
    QWE_EXIT_USAGE). *)
Definition load_workflow (cmd path : bytes) (inventory : option bytes) (path_memory exists_ new_state : bool) (wf inv : reading) :
    cres (list bytes * option (lua * option lua)) :=
  text ← read_file no_memory (rd_mem wf) (rd_file wf);
  match text with
  | inl why => mret ([line_of [cmd; bytes_of ": cannot read "; path; COLON; why]], None)
  | inr yaml =>
      c ← qwe_yaml_to_cbor (libyaml yaml) (length yaml) 256 (rd_yaml wf);
      match c with
      | inl err => mret ([line_of [cmd; COLON; path; bytes_of ":"; err]], None)
      | inr (cbor, pos) =>
          if negb new_state then mret ([line_of [cmd; bytes_of ": cannot start the Lua runtime"]], None)
          else
            v ← qwe_cbor_to_lua (rd_cbor wf) cbor;
            match v with
            | inl e => mret ([line_of [cmd; COLON; path; COLON; qwe_msg 256 (derr_text e)]], None)
            | inr v =>
                '(lines, used) ← load_inventory cmd path inventory path_memory exists_ inv;
                match used with
                | None => mret (lines, None)
                | Some used =>
                    '(errors, lines') ← qwe_validate_doc (rd_check wf) (md_validator md) (md_validate_project md used v) (entries_of v) pos cmd path;
                    mret (lines ++ lines', if 0 <? errors then None else Some (v, used))
                end
            end
      end
  end.

Definition qwe_validate_workflow (path : bytes) (inventory : option bytes) (path_memory exists_ new_state : bool) (wf inv : reading) :
    cres (list bytes * Z) :=
  '(lines, r) ← load_workflow (bytes_of "qwe validate") path inventory path_memory exists_ new_state wf inv;
  mret (lines, match r with Some _ => QWE_EXIT_OK | None => QWE_EXIT_USAGE end).

(** The start of [qwe_run_workflow]: the jobs, and the number at max-parallel. *)
Definition load_run (path : bytes) (inventory : option bytes) (path_memory exists_ new_state : bool) (wf inv : reading) (mem : list bool) :
    cres (list bytes * option (list job * option spec_float)) :=
  '(lines, r) ← load_workflow (bytes_of "qwe run") path inventory path_memory exists_ new_state wf inv;
  match r with
  | None => mret (lines, None)
  | Some (v, _) =>
      entries ← entries_of v;
      jobs ← qwe_jobs_load mem entries;
      limit ← lua_getfield v "max-parallel";
      mret (lines, match jobs with Some jobs => Some (jobs, double_of_bits <$> lua_tonumber limit) | None => None end)
  end.
End load.

(** ** Reading a file *)

Lemma read_loop_ok fails fuel : forall mem buf rest cap, length rest < fuel -> length buf < cap ->
  exists r, read_loop fuel fails mem buf rest cap = CRet r /\ match r with Some text => text = buf ++ rest | None => mem <> [] end.
Proof.
  induction fuel as [|fuel IH]; intros mem buf rest cap Hf Hc; [lia |]. cbn [read_loop].
  set (room := cap - length buf). assert (Hroom : 0 < room) by (unfold room; lia).
  destruct (take room rest) as [|c got] eqn:Et.
  { eexists. split; [reflexivity |]. destruct rest; [by rewrite app_nil_r |]. destruct room; [lia | done]. }
  assert (Erest : rest = (c :: got) ++ drop room rest) by (rewrite <- Et; by rewrite take_drop).
  assert (Hlen : length (c :: got) <= room) by (rewrite <- Et, length_take; lia).
  assert (Hless : length (drop room rest) < fuel).
  { apply (f_equal length) in Erest. rewrite length_app in Erest. cbn in Erest. lia. }
  destruct (negb fails && (length rest <? room)) eqn:Ee.
  { eexists. split; [reflexivity |]. apply andb_true_iff in Ee as [_ Ee%Nat.ltb_lt]. f_equal. rewrite <- Et. apply take_ge. lia. }
  assert (Hbuf : length (buf ++ c :: got) <= cap) by (rewrite length_app; unfold room in Hlen; lia).
  assert (Hgo : forall mem' cap', length (buf ++ c :: got) < cap' -> (mem = [] -> mem' = []) -> exists r,
    read_loop fuel fails mem' (buf ++ c :: got) (drop room rest) cap' = CRet r /\ match r with Some text => text = buf ++ rest | None => mem <> [] end).
  { intros mem' cap' Hcap Hm. destruct (IH mem' (buf ++ c :: got) (drop room rest) cap' Hless Hcap) as (r & -> & Hr). eexists. split; [reflexivity |].
    destruct r; [by rewrite Hr, <- app_assoc, <- Erest | naive_solver]. }
  destruct (Nat.eqb_spec (length (buf ++ c :: got)) cap) as [E|E]; [| apply Hgo; [lia | done]].
  destruct (alloc mem) as [[] mem'] eqn:Em; [apply Hgo; [lia |] | eexists; split; [reflexivity |]]; intros ->; by injection Em.
Qed.

(** A file is read whole, but that a read that fails ends it like its end. *)
Lemma read_file_ok no_memory mem file : exists r, read_file no_memory mem file = CRet r /\
  match r with
  | inr text => exists s, file = inr s /\ text = readable s
  | inl why => file = inl why \/ mem <> [] /\ why = no_memory
  end.
Proof.
  unfold read_file. destruct file as [why|s]; [eexists; split; [reflexivity | by left] |].
  destruct (alloc mem) as [[] mem'] eqn:Em; cbn [negb]; [| eexists; split; [reflexivity |]; right; split; [by intros -> | done]].
  destruct (read_loop_ok (match st_fails s with Some _ => true | None => false end) (S (length (readable s))) mem' [] (readable s) 4096) as (r & -> & Hr);
    [lia | cbn; lia |]. cstep. eexists. split; [reflexivity |]. destruct r as [text|]; [by exists s |].
  right. split; [| done]. intros ->. by injection Em as <-.
Qed.

(** ** The checks *)

Lemma print_lines ps cmd path : length (print_problems ps cmd path) = length (ps_v ps) + (if ps_oom ps then 1 else 0).
Proof. unfold print_problems. rewrite length_app, length_fmap, qsort_Permutation. by destruct (ps_oom ps). Qed.

(** As many lines as problems, and none only if there is nothing to object to. *)
Lemma validate_doc_counts mem require validate_project tables p cmd path :
  (forall errors plugins, validate_project (workflow_dir path) = inr (errors, plugins) -> schema_ok errors tables) ->
  exists n lines, qwe_validate_doc mem require validate_project tables (qwe_positions_finish p) cmd path = CRet (n, lines) /\ length lines = n /\
    (n = 0 -> validate_project (workflow_dir path) = inr ([], []) /\ qwe_positions_duplicates (qwe_positions_finish p) = [] /\ sound_tables tables).
Proof.
  intros Hs. destruct require as [msg|[]].
  { eexists _, _. split; [reflexivity |]. split; [apply report_one | done]. }
  destruct (validate_project (workflow_dir path)) as [msg|[errors plugins]] eqn:Ev.
  - unfold qwe_validate_doc. destruct (alloc mem) as [[] ?]; cbn [negb]; [rewrite Ev |]; eexists _, _; (split; [reflexivity |]); (split; [| done]); [apply report_one | done].
  - destruct (validate_ok mem validate_project tables p cmd path errors plugins (Hs _ _ eq_refl) Ev) as (n & lines & E & Hl & Hn & _).
    exists n, lines. split; [done |]. split; [done |]. intros Hz. by destruct (Hn Hz) as (-> & ? & -> & ?).
Qed.

Lemma validate_inventory_counts mem require validate p cmd path :
  exists n lines, qwe_validate_inventory mem require validate (qwe_positions_finish p) cmd path = CRet (n, lines) /\ length lines = n.
Proof.
  unfold qwe_validate_inventory. destruct require as [msg|[]]; [by eexists _, _; split; [reflexivity | apply report_one] |].
  destruct validate as [msg|errors]; [by eexists _, _; split; [reflexivity | apply report_one] |].
  destruct (collect_errors_ok p errors) as (new & _ & Hc). destruct (Hc (mem, no_problems)) as (s & -> & _). cstep.
  eexists _, _. split; [reflexivity | apply print_lines].
Qed.

(** The transcoder returns for every text, and its table is a finished one. *)
Lemma yaml_returns parser len err_size mem : (forall k, existsb final (at_results (parser k)) = true) ->
  exists r, qwe_yaml_to_cbor parser len err_size mem = CRet r /\ forall out pos, r = inr (out, pos) -> exists p, pos = qwe_positions_finish p.
Proof.
  intros Hp. destruct (Z.leb_spec (Z.of_nat len) QWE_YAML_MAX_SIZE) as [Hl|Hl].
  - destruct (transcoder_ok parser len err_size mem Hp Hl) as (r & E & _). exists r. split; [done |]. intros out pos ->. revert E.
    unfold qwe_yaml_to_cbor. destruct (Z.ltb_spec QWE_YAML_MAX_SIZE (Z.of_nat len)); [lia |]. destruct (alloc mem) as [[] mem']; cbn [negb]; [| done].
    destruct (passes _ _ _ _ _) as [[[c []] o]| | |]; try done; cstep; intros [= <- <-]; by eexists.
  - unfold qwe_yaml_to_cbor. destruct (Z.ltb_spec QWE_YAML_MAX_SIZE (Z.of_nat len)); [| lia]. by eexists.
Qed.

(** ** Loading *)

Section loads.
Context `{numbers : LuaNumbers}.
Variable libyaml : bytes -> nat -> attempt.
Variable cbor_error_string : CborError -> bytes.
Variable no_memory : bytes.
Variable md : modules.

(** libyaml ends every text with an event that ends the stream, or an error. *)
Hypothesis libyaml_ends : forall text k, existsb final (at_results (libyaml text k)) = true.

(** Where the schema finds nothing wrong, the workflow has its shape. *)
Hypothesis schema : forall used v dir plugins, md_validate_project md used v dir = inr ([], plugins) -> shaped v = true.

(** Nothing is printed, and something comes of it; or the other way round. *)
Definition explained {A} (lines : list bytes) (r : option A) : Prop := lines = [] <-> is_Some r.

Lemma explained_line {A} line : explained [line] (@None A).
Proof. split; [done | by intros []]. Qed.

Lemma explained_some {A} (a : A) : explained [] (Some a).
Proof. by split. Qed.

Lemma explained_count {A} lines n (a : A) : length lines = n -> explained lines (if 0 <? n then None else Some a).
Proof. intros <-. destruct lines; cbn; [apply explained_some |]. split; [done | by intros []]. Qed.

#[local] Hint Resolve explained_line explained_some explained_count : qwe.

Lemma load_inventory_ok cmd wf_path inv_path path_memory exists_ r :
  exists lines used, load_inventory libyaml cbor_error_string no_memory md cmd wf_path inv_path path_memory exists_ r = CRet (lines, used) /\
    explained lines used.
Proof.
  unfold load_inventory. cbn zeta.
  assert (Hgo : forall p, exists lines used, load_inventory_at libyaml cbor_error_string no_memory md cmd p r = CRet (lines, used) /\ explained lines used).
  { intros p. unfold load_inventory_at. destruct (read_file_ok no_memory (rd_mem r) (rd_file r)) as (text & -> & _). cstep.
    destruct text as [why|yaml]; [eauto with qwe |].
    destruct (yaml_returns (libyaml yaml) (length yaml) 256 (rd_yaml r) (libyaml_ends yaml)) as (c & -> & Hpos). cstep.
    destruct c as [err|[cbor pos]]; [eauto with qwe |]. destruct (Hpos cbor pos eq_refl) as [p0 ->].
    destruct (cbor_decodes (rd_cbor r) cbor) as (v & -> & _). cstep. destruct v as [e|v]; [eauto with qwe |].
    destruct (lua_istable v); cbn [negb]; [| eauto with qwe].
    destruct (validate_inventory_counts (rd_check r) (md_inventory md) (md_validate_inventory md v) p0 cmd p) as (n & lines & -> & Hl). cstep.
    eauto with qwe. }
  destruct inv_path as [p|]; [apply Hgo |]. destruct path_memory; cbn [negb]; [| eauto with qwe].
  destruct exists_; [apply Hgo | eauto with qwe].
Qed.

(** A workflow that was loaded: what it was read from, and that it is sound. *)
Definition loaded (wf : reading) (v : lua) : Prop :=
  exists s cbor pos, rd_file wf = inr s /\
    qwe_yaml_to_cbor (libyaml (readable s)) (length (readable s)) 256 (rd_yaml wf) = CRet (inr (cbor, pos)) /\
    qwe_cbor_to_lua (rd_cbor wf) cbor = CRet (inr v) /\ qwe_positions_duplicates pos = [] /\
    shaped v = true /\ sound_tables (entries_of v).

Lemma load_workflow_ok cmd path inventory path_memory exists_ new_state wf inv :
  exists lines r, load_workflow libyaml cbor_error_string no_memory md cmd path inventory path_memory exists_ new_state wf inv = CRet (lines, r) /\
    match r with None => lines <> [] | Some (v, _) => lines = [] /\ loaded wf v end.
Proof.
  unfold load_workflow. destruct (read_file_ok no_memory (rd_mem wf) (rd_file wf)) as (text & -> & Hf). cstep.
  destruct text as [why|yaml]; [by eexists _, None |]. destruct Hf as (s & Hfile & ->).
  destruct (yaml_returns (libyaml (readable s)) (length (readable s)) 256 (rd_yaml wf) (libyaml_ends _)) as (c & Ec & Hpos). rewrite Ec. cstep.
  destruct c as [err|[cbor pos]]; [by eexists _, None |]. destruct (Hpos cbor pos eq_refl) as [p0 ->].
  destruct new_state; cbn [negb]; [| by eexists _, None].
  destruct (cbor_decodes (rd_cbor wf) cbor) as (v & Ev & _). rewrite Ev. cstep. destruct v as [e|v]; [by eexists _, None |].
  destruct (load_inventory_ok cmd path inventory path_memory exists_ inv) as (lines & used & -> & Hl). cstep.
  destruct used as [used|]; [| eexists _, None; split; [reflexivity |]; by intros [? [=]]%Hl].
  destruct (validate_doc_counts (rd_check wf) (md_validator md) (md_validate_project md used v) (entries_of v) p0 cmd path) as (n & lines2 & -> & Hlen & Hn).
  { intros errors plugins Hv ->. destruct (shaped_entries v (schema _ _ _ _ Hv)) as (es & -> & He & _). by exists es. }
  cstep. eexists _, _. split; [reflexivity |]. destruct (Nat.ltb_spec 0 n).
  - intros [_ ->]%app_eq_nil. cbn in Hlen. lia.
  - destruct Hn as (Hv & Hd & Hs); [lia |]. split; [rewrite (proj2 Hl) by eauto; apply nil_length_inv; cbn; lia |]. exists s, cbor, (qwe_positions_finish p0). split_and!; try done. by eapply schema.
Qed.

(** C24. A workflow is loaded or it is said why not.  Whatever the file holds, libyaml
    and the Lua modules answer and whichever allocations fail, [qwe validate] ends;
    with exit code 2 it has printed a line at least, and with exit code 0 it has printed
    nothing, the file was read, transcoded and decoded, no repeated key was found, and
    every need names a job and the needs have no cycle. *)
Theorem validate_explains path inventory path_memory exists_ new_state wf inv :
  exists lines code, qwe_validate_workflow libyaml cbor_error_string no_memory md path inventory path_memory exists_ new_state wf inv = CRet (lines, code) /\
    (code = QWE_EXIT_OK /\ lines = [] /\ (exists v, loaded wf v) \/ code = QWE_EXIT_USAGE /\ lines <> []).
Proof.
  unfold qwe_validate_workflow. destruct (load_workflow_ok (bytes_of "qwe validate") path inventory path_memory exists_ new_state wf inv) as (lines & r & -> & Hr).
  cstep. eexists _, _. split; [reflexivity |]. destruct r as [[v used]|]; [left; destruct Hr as [-> Hr]; split_and!; [done | done | by exists v] | by right].
Qed.

(** The inventory that is used does not depend on the command's name. *)
Lemma load_inventory_cmd cmd cmd' wf_path inv_path path_memory exists_ r lines used :
  load_inventory libyaml cbor_error_string no_memory md cmd wf_path inv_path path_memory exists_ r = CRet (lines, Some used) ->
  exists lines', load_inventory libyaml cbor_error_string no_memory md cmd' wf_path inv_path path_memory exists_ r = CRet (lines', Some used).
Proof.
  unfold load_inventory. cbn zeta.
  assert (Hgo : forall p, load_inventory_at libyaml cbor_error_string no_memory md cmd p r = CRet (lines, Some used) ->
    exists lines', load_inventory_at libyaml cbor_error_string no_memory md cmd' p r = CRet (lines', Some used)).
  { intros p. unfold load_inventory_at. destruct (read_file _ _ _) as [text| | |]; try done. cstep. destruct text as [|yaml]; [done |].
    destruct (yaml_returns (libyaml yaml) (length yaml) 256 (rd_yaml r) (libyaml_ends yaml)) as (c & -> & Hpos). cstep.
    destruct c as [err|[cbor pos]]; [done |]. destruct (Hpos cbor pos eq_refl) as [p0 ->].
    destruct (qwe_cbor_to_lua _ _) as [v| | |]; try done. cstep. destruct v as [e|v]; [done |]. destruct (lua_istable v); cbn [negb]; [| done].
    unfold qwe_validate_inventory. destruct (md_inventory md); [done |]. destruct (md_validate_inventory md v) as [|errors]; [done |].
    destruct (collect_errors _ _ _) as [s| | |]; try done. cstep. destruct (0 <? _); [done |]. intros [= _ <-]. by eexists. }
  destruct inv_path as [p|]; [apply Hgo |]. destruct path_memory; cbn [negb]; [| done].
  destruct exists_; [apply Hgo | intros [= _ <-]; by eexists].
Qed.

Lemma validate_doc_cmd mem require validate_project tables table cmd cmd' path n lines :
  qwe_validate_doc mem require validate_project tables table cmd path = CRet (n, lines) ->
  exists lines', qwe_validate_doc mem require validate_project tables table cmd' path = CRet (n, lines').
Proof.
  unfold qwe_validate_doc. destruct require as [msg|]; [intros [= <- _]; by eexists |]. destruct (alloc mem) as [[] mem']; cbn [negb]; [| intros [= <- _]; by eexists].
  destruct (validate_project _) as [msg|[errors plugins]]; [intros [= <- _]; by eexists |].
  destruct (collect_errors _ _ _) as [s| | |]; try done. cstep.
  match goal with |- (?m ≫= _) = _ -> _ => destruct m as [s2| | |] end; try done. cstep. intros [= <- _]. by eexists.
Qed.

Lemma load_workflow_cmd cmd cmd' path inventory path_memory exists_ new_state wf inv lines r :
  load_workflow libyaml cbor_error_string no_memory md cmd path inventory path_memory exists_ new_state wf inv = CRet (lines, Some r) ->
  exists lines', load_workflow libyaml cbor_error_string no_memory md cmd' path inventory path_memory exists_ new_state wf inv = CRet (lines', Some r).
Proof.
  unfold load_workflow. destruct (read_file _ _ _) as [[|yaml]| | |]; try done. cstep. destruct (qwe_yaml_to_cbor _ _ _ _) as [[|[cbor pos]]| | |]; try done. cstep.
  destruct new_state; cbn [negb]; [| done]. destruct (qwe_cbor_to_lua _ _) as [[|v]| | |]; try done. cstep.
  destruct (load_inventory_ok cmd path inventory path_memory exists_ inv) as (l & used & El & _). rewrite El. cstep. destruct used as [used|]; [| done].
  destruct (load_inventory_cmd cmd cmd' _ _ _ _ _ _ _ El) as [l' ->]. cstep.
  destruct (qwe_validate_doc _ _ _ _ _ cmd path) as [[n l2]| | |] eqn:Ed; try done. destruct (validate_doc_cmd _ _ _ _ _ _ cmd' _ _ _ Ed) as [l2' ->]. cstep.
  destruct (0 <? n); [done |]. intros [= _ <-]. by eexists.
Qed.

(** The jobs of a loaded workflow can be run. *)
Lemma loaded_runs {W} (env : environment W) wf v mem : sessions_ok env -> loaded wf v ->
  exists entries jobs limit, entries_of v = CRet entries /\ qwe_jobs_load mem entries = CRet jobs /\ lua_getfield v "max-parallel" = CRet limit /\
    (mem = [] -> is_Some jobs) /\ forall l, jobs = Some l -> startable env l (double_of_bits <$> lua_tonumber limit).
Proof.
  intros Hs (s & cbor & pos & _ & _ & _ & _ & Hsh & entries & Ee & Hsound). destruct (shaped_entries v Hsh) as (es & Ee' & He & Hsm & Hr).
  rewrite Ee in Ee'. injection Ee' as <-. destruct v as [| | | | | | |mt seq fields]; try done.
  destruct (jobs_load_ok mem entries) as (jobs & Ej & Hm & _); [eapply Forall_impl; [| exact Hsm]; by intros ? [] |].
  exists entries, jobs, (get_field (bytes_of "max-parallel") fields). split_and!; [done | done | done | intros Hmem; by apply Hm |].
  intros l ->. destruct (loaded_graph _ _ _ Hsm Ej) as [Hf Hg]. constructor; [done | done | | ].
  - unfold validated. rewrite Hg. destruct (check_exact (job_graph entries)) as [(st & e & -> & Hok) _]. exists e. f_equal. f_equal. by apply Hok.
  - destruct (lua_tonumber _); cbn; [apply double_of_bits_double | done].
Qed.

(** A run of such jobs, as far as it goes. *)
Lemma runs_to_end {W} (env : environment W) jobs limit fuel x : startable env jobs limit ->
  exists e y, run_jobs env fuel limit (Sys jobs x) = CRet (e, y) /\ Forall EngineOk.inv (y_jobs y) /\
    forall code results, e = Some (code, results) ->
      Forall (fun j => qwe_lc_state_is_final (jb_state j) = true /\ finished j) (y_jobs y) /\
      results = map job_result (y_jobs y) /\ jr_id <$> results = jb_id <$> jobs /\
      code = (if x_cancel (y_ctx y) then 130
              else if decide (Forall (fun j => jb_state j = QWE_LC_SUCCESS \/ jb_state j = QWE_LC_SKIPPED) (y_jobs y)) then 0 else 1)%Z.
Proof.
  intros H. destruct (run_outcome env fuel jobs limit x H) as (e & y & E & Hend). exists e, y. split; [done |]. split.
  - destruct (run_total env fuel jobs limit x H) as (mp & e' & y' & _ & E' & [_ P _ _]). rewrite E in E'. by injection E' as _ <-.
  - intros code results He. by destruct (Hend code results He) as (? & ? & ? & _ & ?).
Qed.

(** C13. What [qwe validate] accepts, [qwe run] can run: if it exits with 0 and the
    same files are then read with the same answers, the run gets past loading (unless
    memory runs out) with jobs that satisfy all that the event loop is proved under
    (the engine never finds a job without a table, a need without a job or a cycle);
    and all of them run, whatever the environment answers: after any number of turns
    of the loop, from any context, the invariant holds, and when the loop has ended
    every job is in a final state with an outcome for each of its steps, the results
    are those of the jobs in their order, and the exit code is 130 after a cancel, 0 if
    every job succeeded or was skipped, and 1 otherwise. *)
Theorem validated_file_runs {W} (env : environment W) path inventory path_memory exists_ new_state wf inv mem lines : sessions_ok env ->
  qwe_validate_workflow libyaml cbor_error_string no_memory md path inventory path_memory exists_ new_state wf inv = CRet (lines, QWE_EXIT_OK) ->
  exists lines' r, load_run libyaml cbor_error_string no_memory md path inventory path_memory exists_ new_state wf inv mem = CRet (lines', r) /\
    (mem = [] -> is_Some r) /\ forall jobs limit, r = Some (jobs, limit) -> startable env jobs limit /\
    forall fuel x, exists e y, run_jobs env fuel limit (Sys jobs x) = CRet (e, y) /\ Forall EngineOk.inv (y_jobs y) /\
      forall code results, e = Some (code, results) ->
        Forall (fun j => qwe_lc_state_is_final (jb_state j) = true /\ finished j) (y_jobs y) /\
        results = map job_result (y_jobs y) /\ jr_id <$> results = jb_id <$> jobs /\
        code = (if x_cancel (y_ctx y) then 130
                else if decide (Forall (fun j => jb_state j = QWE_LC_SUCCESS \/ jb_state j = QWE_LC_SKIPPED) (y_jobs y)) then 0 else 1)%Z.
Proof.
  intros Hs Hv. unfold qwe_validate_workflow in Hv.
  destruct (load_workflow_ok (bytes_of "qwe validate") path inventory path_memory exists_ new_state wf inv) as (l & r & El & Hr). rewrite El in Hv. cbn in Hv.
  destruct r as [[v used]|]; [| discriminate Hv]. destruct (load_workflow_cmd _ (bytes_of "qwe run") _ _ _ _ _ _ _ _ _ El) as [lines' El'].
  unfold load_run. rewrite El'. cstep. destruct (loaded_runs env wf v mem Hs (proj2 Hr)) as (entries & jobs & limit & -> & Ej & Elim & Hm & Hst).
  cstep. rewrite Ej. cstep. rewrite Elim. cstep. eexists _, _. split; [reflexivity |]. destruct jobs as [jobs|]; [| split; [intros Hmem; by destruct (Hm Hmem) | done]].
  split; [by eexists |]. intros jobs' limit' [= <- <-]. split; [by apply Hst |]. intros fuel x. by apply runs_to_end, Hst.
Qed.
End loads.

(** ** A workflow of two jobs *)

Module SampleFile.
#[export] Instance numbers : LuaNumbers := {| number_text _ := []; text_number _ := None |}.

Definition text (s : string) : node := Scalar (Mark 0 0) false None (bytes_of s) true.
Definition map_ (items : list (string * node)) : node := Mapping (Mark 0 0) false None ((fun kv => (text (fst kv), snd kv)) <$> items) (Mark 9 0).
Definition list_ (items : list node) : node := Sequence (Mark 0 0) false None items (Mark 9 0).

(** [jobs: {test: {needs: [build], steps: [{uses: check}]}, build: {steps: [{run: make}]}}],
    with [max-parallel: 2]. *)
Definition doc : node :=
  map_ [("jobs"%string, map_ [("test"%string, map_ [("needs"%string, list_ [text "build"]); ("steps"%string, list_ [map_ [("uses"%string, text "check")]])]);
      ("build"%string, map_ [("steps"%string, list_ [map_ [("run"%string, text "make")]])])]); ("max-parallel"%string, text "2")].

Definition libyaml : bytes -> nat -> attempt := fun _ => parses_as doc.

Definition md : modules := Modules (inr tt) (fun _ => inr []) (inr tt)
  (fun _ v _ => if shaped v then inr ([], []) else inr ([LuaError None None None], [])).

Definition file : reading := Reading (inr (Stream (bytes_of "jobs: ...") None)) [] [] [] [].

Lemma libyaml_ends text k : existsb final (at_results (libyaml text k)) = true.
Proof. vm_compute. reflexivity. Qed.

Lemma schema used v dir plugins : md_validate_project md used v dir = inr ([], plugins) -> shaped v = true.
Proof. cbn. by destruct (shaped v). Qed.
End SampleFile.

#[local] Existing Instance SampleFile.numbers.

Lemma validate_explains_witness :
  (forall text k, existsb final (at_results (SampleFile.libyaml text k)) = true) /\
  exists lines code, qwe_validate_workflow SampleFile.libyaml (fun _ => []) [] SampleFile.md (bytes_of "w.yaml") None true false true SampleFile.file SampleFile.file =
      CRet (lines, code) /\
    (code = QWE_EXIT_OK /\ lines = [] /\ (exists v, loaded SampleFile.libyaml SampleFile.file v) \/ code = QWE_EXIT_USAGE /\ lines <> []).
Proof.
  split; [exact SampleFile.libyaml_ends |].
  exact (validate_explains SampleFile.libyaml (fun _ => []) [] SampleFile.md SampleFile.libyaml_ends SampleFile.schema
    (bytes_of "w.yaml") None true false true SampleFile.file SampleFile.file).
Defined.

Lemma validated_file_runs_witness :
  qwe_validate_workflow SampleFile.libyaml (fun _ => []) [] SampleFile.md (bytes_of "w.yaml") None true false true SampleFile.file SampleFile.file =
    CRet ([], QWE_EXIT_OK) /\
  exists lines jobs limit, load_run SampleFile.libyaml (fun _ => []) [] SampleFile.md (bytes_of "w.yaml") None true false true SampleFile.file SampleFile.file [] =
      CRet (lines, Some (jobs, limit)) /\ jb_id <$> jobs = ["build"%string; "test"%string] /\
    (exists y, run_jobs Sample.env 10 limit (Sys jobs Sample.start) = CRet (Some (0%Z, map job_result (y_jobs y)), y)) /\ startable Sample.env jobs limit.
Proof.
  assert (Hv : qwe_validate_workflow SampleFile.libyaml (fun _ => []) [] SampleFile.md (bytes_of "w.yaml") None true false true SampleFile.file SampleFile.file =
    CRet ([], QWE_EXIT_OK)) by (vm_compute; reflexivity).
  split; [exact Hv |]. destruct Sample.sample_startable as [Hs _ _ _].
  destruct (validated_file_runs SampleFile.libyaml (fun _ => []) [] SampleFile.md SampleFile.libyaml_ends SampleFile.schema Sample.env
    (bytes_of "w.yaml") None true false true SampleFile.file SampleFile.file [] [] Hs Hv) as (lines & r & E & Hm & Hst).
  destruct r as [[jobs limit]|]; [| by destruct (Hm eq_refl)]. exists lines, jobs, limit. split; [exact E |].
  destruct (Hst jobs limit eq_refl) as [Hstart Hrun]. vm_compute in E. injection E as _ <- <-. split; [vm_compute; reflexivity |]. split; [| exact Hstart].
  destruct (Hrun 10 Sample.start) as (e & y & Er & _ & Hend). destruct e as [[code results]|]; [| vm_compute in Er; discriminate Er].
  destruct (Hend code results eq_refl) as (_ & -> & _ & _). exists y. rewrite Er. repeat f_equal. vm_compute in Er. by injection Er as <- _ _.
Defined.

(** A read that fails in the middle of a file is taken for its end. *)
Lemma failed_read_truncates : read_file [] [] (inr (Stream (bytes_of "jobs: {a: {}}") (Some 8))) = CRet (inr (bytes_of "jobs: {a")).
Proof. vm_compute. reflexivity. Qed.
