(* ===== verification/Proc.v ===== *)
(** * Processes and their descriptors

    Models [src/kernel/proc.c], and the stdin that [child_argv] of
    [src/kernel/workflow.c] gives a command: which descriptors the parent and the
    child of a step hold after each call, as tables from descriptors to what they
    are of; and when the group of a step counts as empty, over a table of
    processes. *)

From Stdlib Require Import Ascii String NArith ZArith Lia.
From stdpp Require Import base gmap sets list strings numbers.
From S2P Require Import Prelude.

Open Scope nat_scope.
Open Scope list_scope.

(** ** Descriptors *)

(** What a descriptor is of: the two pipes of the step, [/dev/null], the file with
    the command's stdin, or what was there before. *)
Inductive file := OutputR | OutputW | ResultR | ResultW | Null | StdinFile | Other (n : nat).

#[export] Instance file_eq_dec : EqDecision file.
Proof. solve_decision. Defined.

(** A descriptor: whether it is closed by [exec], whether its reads do not block. *)
Record descriptor := Fd { fd_file : file; fd_cloexec : bool; fd_nonblock : bool }.

#[export] Instance descriptor_eq_dec : EqDecision descriptor.
Proof. solve_decision. Defined.

#[export] Instance eta_descriptor : Eta descriptor := fun d => Fd (fd_file d) (fd_cloexec d) (fd_nonblock d).

Abbreviation table := (gmap nat descriptor).

(** [fcntl]. *)
Definition set_cloexec (fd : nat) (t : table) : table := alter (fun d => d <| fd_cloexec := true |>) fd t.
Definition set_nonblock (fd : nat) (t : table) : table := alter (fun d => d <| fd_nonblock := true |>) fd t.

(** [dup2(old, new)]: nothing where they are the same; the copy stays open over
    [exec]. *)
Definition dup2 (old new : nat) (t : table) : table :=
  if decide (old = new) then t
  else match t !! old with
       | Some d => <[new := d <| fd_cloexec := false |>]> t
       | None => t
       end.

(** [execvp]: what the command is left with. *)
Definition exec_table (t : table) : table := filter (fun kd => fd_cloexec kd.2 = false) t.

Section spawn.

(** The descriptor a new file gets. *)
Context (pick : table -> nat).

Definition open_fd (f : file) (cloexec : bool) (t : table) : nat * table :=
  let fd := pick t in (fd, <[fd := Fd f cloexec false]> t).

(** [pipe], [pipe2]. *)
Definition pipe_fds (r w : file) (cloexec : bool) (t : table) : nat * nat * table :=
  let '(fd0, t) := open_fd r cloexec t in
  let '(fd1, t) := open_fd w cloexec t in
  (fd0, fd1, t).

(** What the system answers: the [errno] of a failure, or nothing; whether
    [/dev/null] opens. *)
Record spawn_answers := SpawnAnswers { sa_pipe : option Z; sa_pipe2 : option Z; sa_fork : option Z; sa_null : bool }.

(** What the parent has then: what failed and [errno], or the two descriptors; and
    what the child has when [fn] is called, with the descriptor it is given. *)
Record spawned := Spawned { sp_parent : table; sp_got : (string * Z) + (nat * nat); sp_child : option (table * nat) }.

(** The child's part, before [fn]. *)
Definition child_table (null : bool) (fds0 fds1 res0 : nat) (t : table) : table :=
  let t :=
    if null then
      let '(fd, t) := open_fd Null false t in
      delete fd (dup2 fd 0 t)
    else t in
  let t := dup2 fds1 2 (dup2 fds1 1 t) in
  delete res0 (delete fds1 (delete fds0 t)).

Definition qwe_proc_spawn (a : spawn_answers) (t : table) : spawned :=
  match sa_pipe a with
  | Some err => Spawned t (inl ("pipe"%string, err)) None
  | None =>
      let '(fds0, fds1, t) := pipe_fds OutputR OutputW false t in
      let t := set_cloexec fds0 t in
      match sa_pipe2 a with
      | Some err => Spawned (delete fds1 (delete fds0 t)) (inl ("pipe"%string, err)) None
      | None =>
          let '(res0, res1, t) := pipe_fds ResultR ResultW true t in
          match sa_fork a with
          | Some err => Spawned (delete res1 (delete res0 (delete fds1 (delete fds0 t)))) (inl ("fork"%string, err)) None
          | None =>
              let child := child_table (sa_null a) fds0 fds1 res0 t in
              let t := delete res1 (delete fds1 t) in
              let t := set_nonblock res0 (set_nonblock fds0 t) in
              Spawned t (inr (res0, fds0)) (Some (child, res1))
          end
      end
  end.

(** The stdin that the child makes for a command: [memfd_create], [dup2], [close]. *)
Definition set_stdin (t : table) : table :=
  let '(fd, t) := open_fd StdinFile false t in
  delete fd (dup2 fd 0 t).
End spawn.

(** ** Groups *)

Record process := Process { pr_pid : Z; pr_group : Z; pr_parent : Z; pr_ended : bool }.

(** Whether [waitpid(-pgid, NULL, WNOHANG)] of [self] can reap it. *)
Definition reapable (self pgid : Z) (p : process) : bool :=
  (pr_group p =? pgid)%Z && (pr_parent p =? self)%Z && pr_ended p.

(** One call: the first it can reap, if any. *)
Fixpoint wait_group (self pgid : Z) (ps : list process) : option (list process) :=
  match ps with
  | [] => None
  | p :: ps => if reapable self pgid p then Some ps else cons p <$> wait_group self pgid ps
  end.

(** [while (waitpid(-pgid, NULL, WNOHANG) > 0);] *)
Fixpoint reap_group (fuel : nat) (self pgid : Z) (ps : list process) : cres (list process) :=
  match wait_group self pgid ps with
  | None => CRet ps
  | Some ps => match fuel with 0 => CFuel | S fuel => reap_group fuel self pgid ps end
  end.

(** And [kill(-pgid, 0)], which fails with [ESRCH] when there is no such process. *)
Definition qwe_proc_group_empty (self pgid : Z) (ps : list process) : cres (list process * bool) :=
  ps ← reap_group (length ps) self pgid ps;
  mret (ps, negb (existsb (fun p => (pr_group p =? pgid)%Z) ps)).

(** [kill(-p->pid, sig)]: whom it reaches. *)
Definition qwe_proc_kill_group (pid : Z) (ps : list process) : list process := filter (fun p => pr_group p = pid) ps.

(** ** Descriptors *)

Lemma exec_lookup t i : exec_table t !! i = match t !! i with Some d => if fd_cloexec d then None else Some d | None => None end.
Proof.
  unfold exec_table. rewrite map_lookup_filter. destruct (t !! i) as [d|]; [| done]. cbn.
  destruct (fd_cloexec d) eqn:E; [rewrite option_guard_False | rewrite option_guard_True]; by rewrite ?E.
Qed.

Lemma set_cloexec_insert fd d t : set_cloexec fd (<[fd := d]> t) = <[fd := d <| fd_cloexec := true |>]> t.
Proof. unfold set_cloexec. by rewrite alter_insert_eq. Qed.

(** The three descriptors every program starts with. *)
Definition stdio (t : table) : Prop := forall i, i <= 2 -> is_Some (t !! i).

(** New descriptors, none of which is among the others or those of [t]. *)
Definition new_fds (t : table) (fds : list nat) : Prop := NoDup fds /\ Forall (fun fd => t !! fd = None) fds.

(** The parent's table once both pipes are there. *)
Definition with_pipes (fds0 fds1 res0 res1 : nat) (t : table) : table :=
  <[res1 := Fd ResultW true false]> (<[res0 := Fd ResultR true false]>
    (<[fds1 := Fd OutputW false false]> (<[fds0 := Fd OutputR true false]> t))).

Ltac at_key := repeat first
  [ rewrite lookup_insert_eq | rewrite lookup_insert_ne by done | rewrite lookup_delete_eq | rewrite lookup_delete_ne by done
  | rewrite lookup_alter_eq | rewrite lookup_alter_ne by done ].

(** Tables that agree at some keys and, apart from those, everywhere. *)
Ltac by_keys ks :=
  lazymatch ks with
  | (?ks, ?k) =>
      let i := fresh in
      match goal with
      | |- _ !! ?i = _ => destruct (decide (i = k)) as [->|]; [at_key; cbn; at_key; try done | by_keys ks]
      end
  | tt => at_key; try done
  end.

Lemma four_new t a b c d : new_fds t [a; b; c; d] ->
  (t !! a = None /\ t !! b = None /\ t !! c = None /\ t !! d = None) /\ a <> b /\ a <> c /\ a <> d /\ b <> c /\ b <> d /\ c <> d.
Proof.
  intros [Hd Hf]. repeat (apply Forall_cons_1 in Hf as [? Hf]). split; [done |].
  inversion_clear Hd as [|? ? N1 Hd1]. inversion_clear Hd1 as [|? ? N2 Hd2]. inversion_clear Hd2 as [|? ? N3 _]. set_solver.
Qed.

Lemma without_pipes fds0 fds1 res0 res1 t : new_fds t [fds0; fds1; res0; res1] ->
  delete res1 (delete res0 (delete fds1 (delete fds0 (with_pipes fds0 fds1 res0 res1 t)))) = t.
Proof.
  intros ((? & ? & ? & ?) & _)%four_new. unfold with_pipes. apply map_eq. intros i.
  by_keys (tt, fds0, fds1, res0, res1).
Qed.

Section spawns.
Context (pick : table -> nat) (pick_free : forall t, t !! pick t = None).

Lemma pipe_fds_new r w b t : exists fd0 fd1, pipe_fds pick r w b t = (fd0, fd1, <[fd1 := Fd w b false]> (<[fd0 := Fd r b false]> t)) /\ new_fds t [fd0; fd1].
Proof.
  unfold pipe_fds, open_fd. eexists _, _. split; [reflexivity |].
  set (t1 := <[pick t := Fd r b false]> t). assert (Hn : pick t1 <> pick t).
  { intros E. pose proof (pick_free t1) as H. rewrite E in H. unfold t1 in H. by rewrite lookup_insert_eq in H. }
  assert (H1 : t !! pick t1 = None) by (rewrite <- (lookup_insert_ne t (pick t) (pick t1) (Fd r b false)) by done; apply pick_free).
  split; [| by repeat constructor]. repeat constructor; set_solver.
Qed.

(** A file that takes the place of a descriptor that is open: nothing else is left
    of it. *)
Lemma onto_lookup f (t : table) n : is_Some (t !! n) ->
  (let '(fd, t') := open_fd pick f false t in delete fd (dup2 fd n t')) = <[n := Fd f false false]> t.
Proof.
  intros [d Hd]. cbn. pose proof (pick_free t) as Hp. assert (Hn : pick t <> n) by congruence.
  unfold dup2. rewrite decide_False, lookup_insert_eq by done. cbn. apply map_eq. intros i.
  destruct (decide (i = pick t)) as [->|]; [by rewrite lookup_delete_eq, lookup_insert_ne by done |].
  rewrite lookup_delete_ne by done. destruct (decide (i = n)) as [->|]; [by rewrite !lookup_insert_eq |].
  by rewrite !lookup_insert_ne by done.
Qed.

(** The child before [fn]: its output and [/dev/null] in their places, and the one
    descriptor of the results. *)
Lemma child_table_ok null fds0 fds1 res0 res1 t : stdio t -> new_fds t [fds0; fds1; res0; res1] ->
  child_table pick null fds0 fds1 res0 (with_pipes fds0 fds1 res0 res1 t) =
  <[2 := Fd OutputW false false]> (<[1 := Fd OutputW false false]>
    ((if null then <[0 := Fd Null false false]> else id) (<[res1 := Fd ResultW true false]> t))).
Proof.
  intros Ht ((F0 & F1 & F2 & F3) & ? & ? & ? & ? & ? & ?)%four_new.
  assert (Hlt : forall fd, t !! fd = None -> 2 < fd) by (intros fd E; destruct (le_lt_dec fd 2) as [Hl|]; [destruct (Ht fd Hl); congruence | lia]).
  pose proof (Hlt _ F0). pose proof (Hlt _ F1). pose proof (Hlt _ F2). pose proof (Hlt _ F3). clear Hlt.
  set (t4 := with_pipes fds0 fds1 res0 res1 t). unfold child_table.
  assert (E : (if null then let '(fd, t') := open_fd pick Null false t4 in delete fd (dup2 fd 0 t') else t4) =
              (if null then <[0 := Fd Null false false]> else id) t4).
  { destruct null; [| done]. apply onto_lookup. unfold t4, with_pipes. rewrite !lookup_insert_ne by lia. apply Ht. lia. }
  rewrite E. clear E. set (t5 := (if null then _ else id) t4).
  assert (Ht5 : t5 !! fds1 = Some (Fd OutputW false false)).
  { unfold t5, t4, with_pipes.
    destruct null; cbn; [rewrite (lookup_insert_ne _ 0) by lia |]; by at_key. }
  unfold dup2. rewrite (decide_False (P := fds1 = 1)), Ht5 by lia. cbn. rewrite (decide_False (P := fds1 = 2)), (lookup_insert_ne _ 1), Ht5 by lia. cbn.
  unfold t5, t4, with_pipes. apply map_eq. intros i. assert (0 <> fds0 /\ 0 <> fds1 /\ 0 <> res0 /\ 0 <> res1) as (? & ? & ? & ?) by lia.
  assert (1 <> fds0 /\ 1 <> fds1 /\ 1 <> res0 /\ 1 <> res1) as (? & ? & ? & ?) by lia.
  assert (2 <> fds0 /\ 2 <> fds1 /\ 2 <> res0 /\ 2 <> res1) as (? & ? & ? & ?) by lia.
  destruct null; cbn [id]; by_keys (tt, 0, 1, 2, fds0, fds1, res0, res1).
Qed.

(** Both pipes. *)
Lemma two_pipes t : exists fds0 fds1 res0 res1,
  pipe_fds pick OutputR OutputW false t = (fds0, fds1, <[fds1 := Fd OutputW false false]> (<[fds0 := Fd OutputR false false]> t)) /\
  pipe_fds pick ResultR ResultW true (set_cloexec fds0 (<[fds1 := Fd OutputW false false]> (<[fds0 := Fd OutputR false false]> t))) =
    (res0, res1, with_pipes fds0 fds1 res0 res1 t) /\
  new_fds t [fds0; fds1; res0; res1].
Proof.
  destruct (pipe_fds_new OutputR OutputW false t) as (fds0 & fds1 & E1 & D1 & F1).
  assert (N1 : fds0 <> fds1) by (inversion_clear D1; set_solver).
  assert (Es : set_cloexec fds0 (<[fds1 := Fd OutputW false false]> (<[fds0 := Fd OutputR false false]> t)) =
    <[fds1 := Fd OutputW false false]> (<[fds0 := Fd OutputR true false]> t)).
  { unfold set_cloexec. rewrite alter_insert_ne, alter_insert_eq by done. done. }
  destruct (pipe_fds_new ResultR ResultW true (set_cloexec fds0 (<[fds1 := Fd OutputW false false]> (<[fds0 := Fd OutputR false false]> t))))
    as (res0 & res1 & E2 & D2 & F2).
  exists fds0, fds1, res0, res1. split; [done |]. rewrite E2, Es in *. split; [done |].
  assert (H : forall fd, <[fds1 := Fd OutputW false false]> (<[fds0 := Fd OutputR true false]> t) !! fd = None -> t !! fd = None /\ fd <> fds0 /\ fd <> fds1).
  { intros fd [Hf ?]%lookup_insert_None. apply lookup_insert_None in Hf as [? ?]. done. }
  apply Forall_cons_1 in F2 as [(? & ? & ?)%H F2]. apply Forall_cons_1 in F2 as [(? & ? & ?)%H _].
  split; [| apply (Forall_app_2 _ [_; _]); [done | by repeat constructor]].
  inversion_clear D2. repeat constructor; set_solver.
Qed.

(** The child that goes on to a command with a stdin of its own. *)
Lemma set_stdin_ok t : is_Some (t !! 0) -> set_stdin pick t = <[0 := Fd StdinFile false false]> t.
Proof. apply onto_lookup. Qed.

(** What [exec] leaves of the tables above. *)
Lemma exec_insert fd d t : exec_table (<[fd := d]> t) = if fd_cloexec d then delete fd (exec_table t) else <[fd := d]> (exec_table t).
Proof.
  apply map_eq. intros i. rewrite exec_lookup. destruct (decide (i = fd)) as [->|].
  - rewrite lookup_insert_eq. destruct (fd_cloexec d); at_key; done.
  - rewrite lookup_insert_ne by done. destruct (fd_cloexec d); at_key; by rewrite exec_lookup.
Qed.
End spawns.

(** C23. A step's child is given its descriptors and nothing else is kept or lost:
    where something fails the parent has what it had; where it does not, the parent
    has two more, both of them read ends, so that it sees the end of a pipe when the
    step's processes have ended, and a command has the step's output as its stdout
    and stderr, [/dev/null] or the file made for it as its stdin, and otherwise what
    every program that qwe starts has; it has no way to write a result. *)
Theorem spawn_descriptors pick a t : (forall t, t !! pick t = None) -> stdio t ->
  let s := qwe_proc_spawn pick a t in
  match sp_got s with
  | inl (op, err) => sp_parent s = t /\ sp_child s = None /\
      (sa_pipe a = Some err /\ op = "pipe"%string \/ sa_pipe a = None /\ sa_pipe2 a = Some err /\ op = "pipe"%string \/
       sa_pipe a = None /\ sa_pipe2 a = None /\ sa_fork a = Some err /\ op = "fork"%string)
  | inr (res_fd, out_fd) =>
      t !! res_fd = None /\ t !! out_fd = None /\ res_fd <> out_fd /\
      sp_parent s = <[res_fd := Fd ResultR true true]> (<[out_fd := Fd OutputR true true]> t) /\
      exists child fd, sp_child s = Some (child, fd) /\ child !! fd = Some (Fd ResultW true false) /\
        let command := <[2 := Fd OutputW false false]> (<[1 := Fd OutputW false false]> (exec_table t)) in
        exec_table child = (if sa_null a then <[0 := Fd Null false false]> command else command) /\
        exec_table (set_stdin pick child) = <[0 := Fd StdinFile false false]> command
  end.
Proof.
  intros Hp Ht s. subst s. unfold qwe_proc_spawn. destruct (sa_pipe a) as [err|] eqn:Ea; [by cbn; auto |].
  destruct (two_pipes pick Hp t) as (fds0 & fds1 & res0 & res1 & E1 & E2 & Hn). rewrite E1. cbn zeta. cbn [fst snd].
  pose proof (without_pipes _ _ _ _ _ Hn) as Hw. pose proof (child_table_ok pick Hp (sa_null a) _ _ _ _ _ Ht Hn) as Hc.
  destruct (four_new _ _ _ _ _ Hn) as ((F0 & F1 & F2 & F3) & ? & ? & ? & ? & ? & ?).
  destruct (sa_pipe2 a) as [err|] eqn:Eb.
  { cbn. split; [| by auto 10]. apply map_eq. intros i. unfold set_cloexec. by_keys (tt, fds0, fds1). }
  rewrite E2. destruct (sa_fork a) as [err|] eqn:Ef; [by cbn; auto 10 |]. cbn [sp_got sp_parent sp_child].
  split_and!; [done | done | congruence | |].
  - unfold set_nonblock, with_pipes. apply map_eq. intros i. by_keys (tt, fds0, fds1, res0, res1).
  - eexists _, res1. split; [done |]. rewrite Hc. set (command := <[2 := Fd OutputW false false]> (<[1 := Fd OutputW false false]> (exec_table t))).
    assert (Hc0 : delete res1 (exec_table t) = exec_table t) by (apply delete_id; by rewrite exec_lookup, F3).
    assert (Hl : forall fd, t !! fd = None -> 2 < fd) by (intros fd E; destruct (le_lt_dec fd 2) as [Hle|]; [destruct (Ht fd Hle); congruence | lia]).
    pose proof (Hl res1 F3).
    assert (Hx : exec_table (<[2 := Fd OutputW false false]> (<[1 := Fd OutputW false false]> ((if sa_null a then <[0 := Fd Null false false]> else id) (<[res1 := Fd ResultW true false]> t)))) =
      if sa_null a then <[0 := Fd Null false false]> command else command).
    { unfold command. destruct (sa_null a); cbn [id]; rewrite !exec_insert; cbn [fd_cloexec]; rewrite Hc0; [| done].
      apply map_eq. intros i. by_keys (tt, 0, 1, 2). }
    split_and!; [| exact Hx |].
    + destruct (sa_null a); cbn [id]; rewrite ?lookup_insert_ne by lia; by rewrite lookup_insert_eq.
    + rewrite set_stdin_ok, exec_insert, Hx; [| done |].
      * cbn [fd_cloexec]. destruct (sa_null a); [| done]. by rewrite insert_insert_eq.
      * rewrite !(lookup_insert_ne _ 2), !(lookup_insert_ne _ 1) by done. destruct (sa_null a); cbn [id]; [rewrite lookup_insert_eq; by eexists |].
        rewrite lookup_insert_ne by lia. apply Ht. lia.
Qed.

(** ** Groups *)

Section groups.
Context (self pgid : Z).

Abbreviation kept := (List.filter (fun p => negb (reapable self pgid p))).

Lemma wait_group_ok ps : match wait_group self pgid ps with
                         | Some ps' => kept ps' = kept ps /\ length ps = S (length ps')
                         | None => kept ps = ps
                         end.
Proof.
  induction ps as [|p ps IH]; [done |]. cbn [wait_group List.filter]. destruct (reapable self pgid p) eqn:E; cbn [negb]; [done |].
  destruct (wait_group self pgid ps) as [ps'|]; cbn [fmap option_fmap option_map List.filter]; rewrite ?E; cbn [negb].
  - destruct IH as [-> H]. cbn. split; [done | lia].
  - by rewrite IH.
Qed.

Lemma reap_group_ok fuel : forall ps, length ps <= fuel -> reap_group fuel self pgid ps = CRet (kept ps).
Proof.
  induction fuel as [|fuel IH]; intros ps Hl; cbn [reap_group]; pose proof (wait_group_ok ps) as H; destruct (wait_group self pgid ps) as [ps'|].
  - lia.
  - by rewrite H.
  - destruct H as [<- H]. apply IH. lia.
  - by rewrite H.
Qed.

(** The group is empty exactly when all that is left of it has ended and is qwe's to
    reap, which it then has been; nothing else is touched. *)
Theorem group_empty_exact ps : exists empty, qwe_proc_group_empty self pgid ps = CRet (kept ps, empty) /\
  (empty = true <-> forall p, p ∈ ps -> pr_group p = pgid -> pr_parent p = self /\ pr_ended p = true).
Proof.
  eexists. split; [unfold qwe_proc_group_empty; by rewrite reap_group_ok |].
  rewrite negb_true_iff, <- not_true_iff_false, existsb_exists. split.
  - intros Hn p Hp Hg. destruct (reapable self pgid p) eqn:E.
    + unfold reapable in E. rewrite !andb_true_iff, !Z.eqb_eq in E. tauto.
    + destruct Hn. exists p. rewrite filter_In, E, Z.eqb_eq. split; [| done]. split; [by apply list_elem_of_In | done].
  - intros H (p & [Hp Hr]%filter_In & Hg%Z.eqb_eq). apply list_elem_of_In in Hp. destruct (H p Hp Hg) as [H1 H2].
    unfold reapable in Hr. by rewrite Hg, H1, H2, !Z.eqb_refl in Hr.
Qed.
End groups.

(** ** A spawn *)

Definition fresh_fd (t : table) : nat := fresh (dom t : gset nat).

Lemma fresh_fd_free t : t !! fresh_fd t = None.
Proof. apply (not_elem_of_dom (D := gset nat)). unfold fresh_fd. apply is_fresh. Qed.

(** stdin, stdout, stderr and a log. *)
Definition sample_table : table :=
  <[0 := Fd (Other 0) false false]> (<[1 := Fd (Other 1) false false]> (<[2 := Fd (Other 2) false false]> (<[3 := Fd (Other 3) true false]> ∅))).

Lemma sample_stdio : stdio sample_table.
Proof. intros [|[|[|i]]] Hi; [vm_compute; by eexists.. | lia]. Qed.

Lemma spawn_descriptors_witness :
  let s := qwe_proc_spawn fresh_fd (SpawnAnswers None None None true) sample_table in
  sp_got s = inr (6, 4) /\ sp_parent s = <[6 := Fd ResultR true true]> (<[4 := Fd OutputR true true]> sample_table) /\
  exists child fd, sp_child s = Some (child, fd) /\ child !! fd = Some (Fd ResultW true false).
Proof.
  pose proof (spawn_descriptors fresh_fd (SpawnAnswers None None None true) sample_table fresh_fd_free sample_stdio) as H.
  cbv zeta in *. assert (E : sp_got (qwe_proc_spawn fresh_fd (SpawnAnswers None None None true) sample_table) = inr (6, 4)) by (vm_compute; reflexivity).
  rewrite E in H. destruct H as (_ & _ & _ & Hp & child & fd & Hc & Hf & _). split_and!; [exact E | exact Hp | by exists child, fd].
Defined.
