(* ===== verification/Child.v ===== *)
(** * The child side of a step

    Models what the forked child of a step does in [src/kernel/workflow.c] between
    the fork and the exec ([send_result], [send_status], [child_argv]), and how the
    parent takes the message apart ([read_step_msg] on the decoded value).  The child
    is given what [qwe.plugins.run_step] came to and what the system answers; it
    leaves the bytes on its result pipe, its diagnostics, and how it goes on. *)

From Stdlib Require Import Ascii String NArith ZArith Lia.
From stdpp Require Import base sets list strings numbers.
From S2P Require Import Prelude Cstr Fmt Redact Sink Lifecycle Cbor LuaCbor LuaCborOk LuaTable Job Engine EngineOk RunOk.

Open Scope nat_scope.
Open Scope list_scope.

(** ** Sending *)

(** The loop over [write]: what is then on the pipe, and whether it is all.  No
    answer left: the rest is written. *)
Fixpoint send_loop (answers : list write_result) (pipe buf : bytes) : bytes * bool :=
  match buf with
  | [] => (pipe, true)
  | _ :: _ =>
      match answers with
      | [] => (pipe ++ buf, true)
      | Interrupted :: answers => send_loop answers pipe buf
      | WriteError :: _ => (pipe, false)
      | Wrote n :: answers => send_loop answers (pipe ++ take n buf) (drop n buf)
      end
  end.

(** What one message meets: the allocations of its encoding, the writes. *)
Record sending := Sending { se_mem : list bool; se_writes : list write_result }.

(** What the child has left behind so far: its pipe and its diagnostics. *)
Record trail := Trail { t_pipe : bytes; t_lines : list bytes }.

#[export] Instance eta_trail : Eta trail := fun t => Trail (t_pipe t) (t_lines t).

Definition complain (parts : list bytes) (t : trail) : trail :=
  t <| t_lines := t_lines t ++ [concat (bytes_of "qwe: " :: parts) ++ [NL]] |>.

Section child.
Context `{numbers : LuaNumbers}.

Definition send_result (fuel : nat) (s : sending) (v : lua) (t : trail) : cres (trail * bool) :=
  r ← qwe_lua_to_cbor number_text fuel (se_mem s) v;
  match r with
  | inl err => mret (complain [bytes_of "cannot encode the step result: "; bytes_of err] t, false)
  | inr buf =>
      let '(pipe, sent) := send_loop (se_writes s) (t_pipe t) buf in
      mret (t <| t_pipe := pipe |>, sent)
  end.

(** The table of [send_status]. *)
Definition status_table (status : string) (reason : option string) : lua :=
  let fields := set_field (bytes_of "status") (LStr (bytes_of status)) [] in
  LTable NoMeta []
    (match reason with
     | Some reason => set_field (bytes_of "reason") (LStr (bytes_of reason)) fields
     | None => fields
     end).

Definition send_status (fuel : nat) (s : sending) (status : string) (reason : option string) (t : trail) : cres (trail * bool) :=
  send_result fuel s (status_table status reason) t.

(** ** The child *)

(** What [run_step] came to: an error's text, or what it returned. *)
Inductive ran := Raised (why : bytes) | Returned (argv result : lua).

(** What the system answers: the first message and the one sent if that one could
    not be, the allocations of the argv, the flush of its output, and what is wrong
    with the file for its stdin, if something is. *)
Record child_answers := Answers {
  an_first : sending;
  an_second : sending;
  an_argv : list bool;
  an_flush : bool;
  an_stdin : option bytes;
  an_other : bytes; (* what [lua_typename] says of an [LOther] *)
}.

Inductive child_end :=
| ExitNow (code : Z)
| NoArgv                                        (* NULL *)
| Argv (argv : list bytes) (input : option bytes). (* and what its stdin is, if not empty *)

(** The copies of the arguments: how many there are when memory runs out, or
    something is no text ([lua_isstring]). *)
Inductive copied := Copies (argv : list bytes) | NotText (i : nat) | NoRoom.

Fixpoint copy_argv (mem : list bool) (items : list lua) (done : list bytes) : copied :=
  match items with
  | [] => Copies done
  | v :: items =>
      match lua_tostring v with
      | None => NotText (length done + 1)
      | Some s =>
          let '(ok, mem) := alloc mem in
          if ok then copy_argv mem items (done ++ [s]) else NoRoom
      end
  end.

(** [calloc] first. *)
Definition build_argv (mem : list bool) (items : list lua) : copied :=
  let '(ok, mem) := alloc mem in
  if ok then copy_argv mem items [] else NoRoom.

(** [lua_typename]. *)
Definition typename (other : bytes) (v : lua) : bytes :=
  match v with
  | LNil => bytes_of "nil"
  | LBool _ => bytes_of "boolean"
  | LNum _ => bytes_of "number"
  | LStr _ => bytes_of "string"
  | LTable _ _ _ => bytes_of "table"
  | LNull | LUserdata => bytes_of "userdata"
  | LOther => other
  end.

Definition child_argv (fuel : nat) (is_plugin : bool) (r : ran) (a : child_answers) : cres (trail * child_end) :=
  let t := Trail [] [] in
  match r with
  | Raised why =>
      let t := complain [bytes_of "plugin failed: "; why] t in
      if is_plugin then
        '(t, _) ← send_status fuel (an_first a) "failed" (Some "plugin-error"%string) t;
        mret (t, ExitNow 1)
      else mret (t, NoArgv)
  | Returned argv result =>
      if lua_istable result then
        status ← lua_getfield result "status";
        let ok := bool_decide (lua_tostring status = Some (bytes_of "ok")) in
        '(t, sent) ← send_result fuel (an_first a) result t;
        '(t, ok) ← (if (sent : bool) then mret (t, ok)
                    else
                      '(t, _) ← send_status fuel (an_second a) "failed" (Some "engine-error"%string) t;
                      mret (t, false));
        let ok := ok && an_flush a in
        mret (t, ExitNow (if ok then 0 else 1))
      else
        match argv with
        | LTable _ seq _ =>
            match seq with
            | [] => mret (complain [bytes_of "the plugin returned an empty argv"] t, NoArgv)
            | _ =>
                match build_argv (an_argv a) seq with
                | NotText i =>
                    mret (complain [bytes_of "argument "; dec (Z.of_nat i); bytes_of " of the plugin's argv is a ";
                                    typename (an_other a) (default LNil (seq !! (i - 1))); bytes_of ", not a string"] t, NoArgv)
                | NoRoom =>
                    let t := complain [bytes_of "out of memory building the step's command"] t in
                    '(t, _) ← send_status fuel (an_first a) "failed" (Some "engine-error"%string) t;
                    mret (t, NoArgv)
                | Copies args =>
                    '(t, sent) ← send_status fuel (an_first a) "exec" None t;
                    if negb sent then
                      '(t, _) ← send_status fuel (an_second a) "failed" (Some "engine-error"%string) t;
                      mret (t, NoArgv)
                    else
                      match result with
                      | LStr s =>
                          match an_stdin a with
                          | Some why => mret (complain [bytes_of "cannot set up the step's stdin: "; why] t, NoArgv)
                          | None => mret (t, Argv args (Some s))
                          end
                      | _ => mret (t, Argv args None)
                      end
                end
            end
        | _ => mret (complain [bytes_of "the plugin returned no argv"] t, NoArgv)
        end
  end.

(** How the child ends, as [waitpid] will tell it: its own exit, [_exit(126)]
    without an argv, or the status of the command. *)
Definition child_status (e : child_end) (command : Z) : Z :=
  match e with
  | ExitNow code => Z.shiftl code 8
  | NoArgv => Z.shiftl 126 8
  | Argv _ _ => command
  end.

(** ** What the parent reads of a message *)

(** [store]: what [store_outputs] makes of the outputs. *)
Definition msg_of (store : lua -> option bytes) (v : lua) : cres decoded_msg :=
  if lua_istable v then
    status ← lua_getfield v "status";
    reason ← lua_getfield v "reason";
    changed ← lua_getfield v "changed";
    outputs ← lua_getfield v "outputs";
    mret (DecodedMsg (string_of <$> lua_tostring status) (string_of <$> lua_tostring reason)
            (match changed with LBool b => Some b | _ => None end)
            (if lua_istable outputs then Some (store outputs) else None))
  else mret (DecodedMsg None None None None).

Definition decode_msg (store : lua -> option bytes) (msg : bytes) : cres (option decoded_msg) :=
  d ← qwe_cbor_to_lua [] msg;
  match d with
  | inl _ => mret None
  | inr v => m ← msg_of store v; mret (Some m)
  end.
End child.

(** ** Sending *)

(** Memory suffices and no write fails. *)
Definition sends (s : sending) : Prop := se_mem s = [] /\ WriteError ∉ se_writes s.

Lemma send_loop_all answers : WriteError ∉ answers -> forall pipe buf, send_loop answers pipe buf = (pipe ++ buf, true).
Proof.
  induction answers as [|a answers IH]; intros Ha pipe [|c buf]; cbn [send_loop]; try by rewrite ?app_nil_r.
  apply not_elem_of_cons in Ha as [Hn Ha]. destruct a as [n| |]; [| by apply IH | done].
  by rewrite IH, <- app_assoc, take_drop by done.
Qed.

Section told.
Context `{numbers : LuaNumbers}.

(** What a value comes to on the pipe. *)
Lemma send_result_ok v s : plain number_text QWE_LUA_MAX_DEPTH v -> sends s -> exists n,
  (encodable QWE_LUA_MAX_DEPTH v = false -> forall fuel t, n <= fuel -> exists t', send_result fuel s v t = CRet (t', false) /\ t_pipe t' = t_pipe t) /\
  (encodable QWE_LUA_MAX_DEPTH v = true -> exists b w,
     (forall fuel t, n <= fuel -> exists t', send_result fuel s v t = CRet (t', true) /\ t_pipe t' = t_pipe t ++ b) /\
     b <> [] /\ (forall rest, qwe_cbor_to_lua [] (b ++ rest) = CRet (inr w)) /\ same number_text v w).
Proof.
  intros Hp [Hm Hw]. destruct (encoded_back number_text v Hp) as (n & H1 & H2). exists n. unfold send_result. rewrite Hm. split; intros He.
  - intros fuel t Hf. destruct (H1 He fuel Hf) as [msg ->]. by eexists.
  - destruct (H2 He) as (b & w & Hb & Hn & Hd & Hs). exists b, w. split_and!; [| done..].
    intros fuel t Hf. rewrite (Hb fuel Hf). cstep. rewrite send_loop_all by done. by eexists.
Qed.

(** ** What is read of a message *)

(** The fields of a map, once it has been there and back. *)
Definition field_same (fields fields' : list (lkey * lua)) (k : bytes) : Prop :=
  same number_text (get_field k fields) (get_field k fields') \/ (get_field k fields = LNil /\ get_field k fields' = LNil).

Lemma get_field_absent k fields : k ∉ str_keys fields -> get_field k fields = LNil.
Proof.
  induction fields as [|[[k'|] v] fields IH]; cbn; [done | | done].
  intros [Hn Hk]%not_elem_of_cons. rewrite decide_False by done. by apply IH.
Qed.

Lemma get_field_zip fields k keys vals : Forall2 (fun k v => same number_text (get_field k fields) v) keys vals ->
  if decide (k ∈ keys) then same number_text (get_field k fields) (get_field k (zip (KStr <$> keys) vals)) else get_field k (zip (KStr <$> keys) vals) = LNil.
Proof.
  induction 1 as [|k' v keys vals Hv _ IH]; cbn; [done |]. destruct (decide (k' = k)) as [->|Hn].
  - by rewrite decide_True by by left.
  - repeat case_decide; set_solver.
Qed.

Lemma map_fields mt seq fields w : same number_text (LTable mt seq fields) w -> classify mt seq = K_MAP ->
  exists fields', w = LTable MapMeta [] fields' /\ forall k, field_same fields fields' k.
Proof.
  intros Hs Hc. inversion Hs as [| | | | ? ? ? Hc' | ? ? ? ? Hc' | ? ? ? keys vals _ Hk _ Hv]; subst; [congruence.. |].
  eexists. split; [done |]. intros k. pose proof (get_field_zip fields k keys vals Hv) as H. unfold field_same.
  destruct (decide (k ∈ keys)) as [|Hn]; [by left |]. right. split; [| done]. apply get_field_absent. by rewrite <- Hk.
Qed.

(** A number is not written as one of the words a message is read for. *)
Definition no_words : Prop := forall d, status_of (string_of (number_text d)) = MSG_NONE /\ known_reason (string_of (number_text d)) = "plugin-error"%string.

(** What a table's text fields are taken for. *)
Definition word (v : lua) : string := default ""%string (string_of <$> lua_tostring v).

Lemma word_same fields fields' k : no_words -> field_same fields fields' k ->
  status_of (word (get_field k fields')) = status_of (word (get_field k fields)) /\
  known_reason (word (get_field k fields')) = known_reason (word (get_field k fields)).
Proof.
  intros Hw [Hs|[-> ->]]; [| done]. inversion Hs as [| d d' Hd E E' | | | | |]; try done.
  cbn. by destruct (Hw d) as [-> ->], (Hw d') as [-> ->].
Qed.

(** What a map says. *)
Record said := Said { sd_status : msg_status; sd_reason : string; sd_changed : bool }.

Definition said_by (fields : list (lkey * lua)) : said :=
  Said (status_of (word (get_field (bytes_of "status") fields))) (known_reason (word (get_field (bytes_of "reason") fields)))
    (match get_field (bytes_of "changed") fields with LBool b => b | _ => true end).

(** What is said of a message with no fields. *)
Definition nothing : said := Said MSG_NONE "plugin-error" true.

(** The fields of a message, if it is a map. *)
Definition map_of (v : lua) : option (list (lkey * lua)) :=
  match v with LTable mt seq fields => match classify mt seq with K_MAP => Some fields | _ => None end | _ => None end.

Definition said_of (v : lua) : said := from_option said_by nothing (map_of v).

(** The outputs it offers: a table. *)
Definition offered (v : lua) : option lua :=
  fields ← map_of v;
  let o := get_field (bytes_of "outputs") fields in if lua_istable o then Some o else None.

(** What the parent decodes says what the value says. *)
Definition told (v : lua) (store : lua -> option bytes) (d : decoded_msg) : Prop :=
  status_of (default ""%string (dm_status d)) = sd_status (said_of v) /\
  known_reason (default ""%string (dm_reason d)) = sd_reason (said_of v) /\
  default true (dm_changed d) = sd_changed (said_of v) /\
  match offered v with
  | Some o => exists o', same number_text o o' /\ dm_outputs d = Some (store o')
  | None => dm_outputs d = None
  end.

Lemma same_istable v w : same number_text v w -> lua_istable w = lua_istable v.
Proof. by destruct 1. Qed.

Lemma told_same store mt seq fields w : no_words -> same number_text (LTable mt seq fields) w ->
  exists d, msg_of store w = CRet d /\ told (LTable mt seq fields) store d.
Proof.
  intros Hw Hs. unfold told, said_of, offered, map_of. destruct (classify mt seq) eqn:Hc.
  - inversion Hs; subst; try congruence. by eexists.
  - destruct (map_fields mt seq fields w Hs Hc) as (fields' & -> & Hf). eexists. split; [reflexivity |]. cbn [dm_status dm_reason dm_changed dm_outputs from_option].
    split_and!; [by apply word_same | by apply word_same | |].
    + cbn. by destruct (Hf (bytes_of "changed")) as [H|[-> ->]]; [inversion H |].
    + cbn [mbind option_bind]. cbn zeta. destruct (Hf (bytes_of "outputs")) as [H|[-> ->]]; [| done].
      rewrite (same_istable _ _ H). destruct (lua_istable (get_field (bytes_of "outputs") fields)); [by eexists | done].
  - inversion Hs; subst; try congruence. by eexists.
Qed.
End told.

(** ** What the child reports *)

Section reports.
Context `{numbers : LuaNumbers} (store : lua -> option bytes).

(** A message as the parent will decode it; or none. *)
Definition heard (m : option lua) (b : bytes) : Prop :=
  match m with
  | Some v => b <> [] /\ exists d, decode_msg store b = CRet (Some d) /\ told v store d
  | None => b = []
  end.

Lemma heard_value v b w : no_words -> b <> [] -> lua_istable v = true -> (forall rest, qwe_cbor_to_lua [] (b ++ rest) = CRet (inr w)) -> same number_text v w ->
  heard (Some v) b.
Proof.
  intros Hw Hn Ht Hd Hs. split; [done |]. destruct v as [| | | | | | |mt seq fields]; try done.
  destruct (told_same store mt seq fields w Hw Hs) as (d & E & Hold). exists d. split; [| done].
  unfold decode_msg. specialize (Hd []). rewrite app_nil_r in Hd. rewrite Hd. cstep. by rewrite E.
Qed.

(** The tables of [send_status]. *)
Definition short (s : string) : Prop := (Z.of_nat (String.length s) < 2 ^ 31)%Z.

Lemma status_plain levels status reason : short status -> short (default ""%string reason) -> plain number_text levels (status_table status reason).
Proof.
  unfold short. intros Hs Hr. destruct levels as [|levels]; [done |].
  assert (Hl : forall s, plain number_text levels (LStr (bytes_of s)) <-> (Z.of_nat (String.length s) < 2 ^ 64)%Z) by (intros s; destruct levels; cbn; by rewrite length_bytes_of).
  assert (Hn : plain number_text levels LNil) by by destruct levels.
  destruct reason as [reason|]; cbn -[plain]; split_and!; try done; try (by repeat constructor).
  1, 3: apply NoDup_ListNoDup; repeat constructor; cbn; naive_solver.
  all: intros k; cbn [get_field set_field]; repeat (case_decide; cbn [get_field]); rewrite ?Hl; try done; cbn in *; lia.
Qed.

Lemma status_encodable status reason : encodable QWE_LUA_MAX_DEPTH (status_table status reason) = true.
Proof. by destruct reason. Qed.

#[local] Opaque QWE_LUA_MAX_DEPTH.

Lemma send_status_ok status reason s : short status -> short (default ""%string reason) -> sends s -> no_words -> exists n b,
  heard (Some (status_table status reason)) b /\
  forall fuel t, n <= fuel -> exists t', send_status fuel s status reason t = CRet (t', true) /\ t_pipe t' = t_pipe t ++ b.
Proof.
  intros Hs Hr Hsend Hw. destruct (send_result_ok (status_table status reason) s (status_plain _ _ _ Hs Hr) Hsend) as (n & _ & H).
  destruct (H (status_encodable _ _)) as (b & w & Hb & Hn & Hd & Hsame). exists n, b. split; [by apply (heard_value _ _ w) | done].
Qed.

Lemma send_unencodable v s : plain number_text QWE_LUA_MAX_DEPTH v -> encodable QWE_LUA_MAX_DEPTH v = false -> sends s ->
  exists n, forall fuel t, n <= fuel -> exists t', send_result fuel s v t = CRet (t', false) /\ t_pipe t' = t_pipe t.
Proof. intros Hp He Hs. destruct (send_result_ok v s Hp Hs) as (n & H & _). exists n. by apply H. Qed.

Lemma send_encodable v s : plain number_text QWE_LUA_MAX_DEPTH v -> encodable QWE_LUA_MAX_DEPTH v = true -> lua_istable v = true -> sends s -> no_words ->
  exists n b, heard (Some v) b /\ forall fuel t, n <= fuel -> exists t', send_result fuel s v t = CRet (t', true) /\ t_pipe t' = t_pipe t ++ b.
Proof.
  intros Hp He Ht Hs Hw. destruct (send_result_ok v s Hp Hs) as (n & _ & H). destruct (H He) as (b & w & Hb & Hn & Hd & Hsame).
  exists n, b. split; [by apply (heard_value _ _ w) | done].
Qed.

(** The message a child sends for what [run_step] came to, and how it goes on. *)
Definition failed (reason : string) : option lua := Some (status_table "failed" (Some reason)).

Definition report (r : ran) (a : child_answers) : option lua * child_end :=
  match r with
  | Raised _ => (failed "plugin-error", ExitNow 1)
  | Returned argv result =>
      match result with
      | LTable mt seq fields =>
          if encodable QWE_LUA_MAX_DEPTH result then
            (Some result, ExitNow (if bool_decide (lua_tostring (get_field (bytes_of "status") fields) = Some (bytes_of "ok")) && an_flush a then 0 else 1))
          else (failed "engine-error", ExitNow 1)
      | _ =>
          match argv with
          | LTable _ ((_ :: _) as seq) _ =>
              match build_argv (an_argv a) seq with
              | NotText _ => (None, NoArgv)
              | NoRoom => (failed "engine-error", NoArgv)
              | Copies args =>
                  (Some (status_table "exec" None),
                   match result, an_stdin a with
                   | LStr _, Some _ => NoArgv
                   | LStr s, None => Argv args (Some s)
                   | _, _ => Argv args None
                   end)
              end
          | _ => (None, NoArgv)
          end
      end
  end.

(** Its result is of a size that C and the format allow. *)
Definition result_plain (r : ran) : Prop := match r with Returned _ (LTable _ _ _ as v) => plain number_text QWE_LUA_MAX_DEPTH v | _ => True end.

Definition reports (r : ran) (a : child_answers) (fuel : nat) : Prop :=
  exists t, child_argv fuel true r a = CRet (t, snd (report r a)) /\ heard (fst (report r a)) (t_pipe t).

Lemma table_says argv mt seq fields a : plain number_text QWE_LUA_MAX_DEPTH (LTable mt seq fields) -> sends (an_first a) -> sends (an_second a) -> no_words ->
  exists n, forall fuel, n <= fuel -> reports (Returned argv (LTable mt seq fields)) a fuel.
Proof.
  intros Hp H1 H2 Hw. unfold reports, child_argv, report. cbn zeta. cbn [lua_istable lua_getfield]. cstep.
  destruct (encodable QWE_LUA_MAX_DEPTH (LTable mt seq fields)) eqn:Ee.
  - destruct (send_encodable _ _ Hp Ee eq_refl H1 Hw) as (n & b & Hb & Hs). exists n. intros fuel Hn.
    destruct (Hs fuel (Trail [] []) Hn) as (t & -> & Ht). cstep. exists t. split; [done |]. by rewrite Ht.
  - destruct (send_unencodable _ _ Hp Ee H1) as (n & Hs).
    destruct (send_status_ok "failed" (Some "engine-error"%string) (an_second a) eq_refl eq_refl H2 Hw) as (n' & b & Hb & Hs').
    exists (n `max` n'). intros fuel Hn. destruct (Hs fuel (Trail [] []) ltac:(lia)) as (t & -> & Ht). cstep.
    destruct (Hs' fuel t ltac:(lia)) as (t' & -> & Ht'). cstep. exists t'. split; [done |]. by rewrite Ht', Ht.
Qed.

Lemma argv_says argv result a : lua_istable result = false -> sends (an_first a) -> no_words ->
  exists n, forall fuel, n <= fuel -> reports (Returned argv result) a fuel.
Proof.
  intros Ht H1 Hw. unfold reports, child_argv, report. cbn zeta. rewrite Ht.
  replace (match result with LTable _ _ _ => _ | _ => _ end) with
    (match argv with LTable _ ((_ :: _) as seq) _ =>
       match build_argv (an_argv a) seq with
       | NotText _ => (None, NoArgv)
       | NoRoom => (failed "engine-error", NoArgv)
       | Copies args => (Some (status_table "exec" None),
           match result, an_stdin a with LStr _, Some _ => NoArgv | LStr s, None => Argv args (Some s) | _, _ => Argv args None end)
       end
     | _ => (None, NoArgv) end) by by destruct result.
  destruct argv as [| | | | | | |mt seq fields]; try by (exists 0; intros; by eexists).
  destruct seq as [|v seq]; [exists 0; intros; by eexists |].
  destruct (build_argv (an_argv a) (v :: seq)) as [args|i|].
  - destruct (send_status_ok "exec" None (an_first a) eq_refl eq_refl H1 Hw) as (n & b & Hb & Hs). exists n. intros fuel Hn.
    destruct (Hs fuel (Trail [] []) Hn) as (t & -> & Hp). cstep.
    destruct result, (an_stdin a); try done; eexists; (split; [reflexivity |]); cbn; rewrite Hp; exact Hb.
  - exists 0. intros fuel _. by eexists.
  - destruct (send_status_ok "failed" (Some "engine-error"%string) (an_first a) eq_refl eq_refl H1 Hw) as (n & b & Hb & Hs). exists n. intros fuel Hn.
    destruct (Hs fuel (complain [bytes_of "out of memory building the step's command"] (Trail [] [])) Hn) as (t & -> & Hp). cstep.
    eexists. split; [reflexivity |]. cbn. by rewrite Hp.
Qed.

Lemma child_says r a : result_plain r -> sends (an_first a) -> sends (an_second a) -> no_words ->
  exists n, forall fuel, n <= fuel -> reports r a fuel.
Proof.
  intros Hp H1 H2 Hw. destruct r as [why|argv result].
  - destruct (send_status_ok "failed" (Some "plugin-error"%string) (an_first a) eq_refl eq_refl H1 Hw) as (n & b & Hb & Hs). exists n. intros fuel Hn.
    unfold reports, child_argv. cbn zeta iota. destruct (Hs fuel (complain [bytes_of "plugin failed: "; why] (Trail [] [])) Hn) as (t & -> & Ht).
    cstep. exists t. split; [done |]. by rewrite Ht.
  - destruct (lua_istable result) eqn:Et; [| by apply argv_says].
    destruct result as [| | | | | | |mt seq fields]; [discriminate Et.. |]. exact (table_says argv mt seq fields a Hp H1 H2 Hw).
Qed.

End reports.

(** ** What the parent makes of it *)

Section verdict.
Context `{numbers : LuaNumbers} {W : Type} (env : environment W) (store : lua -> option bytes).

(** The parent reads [chunks] of the pipe and then its end, has memory for them, and
    decodes with [qwe_cbor_to_lua]. *)
Record hears (chunks : list bytes) : Prop := {
  hears_reads : forall pid w, fst (env _ (QReadResult pid) w) = (RData <$> chunks) ++ [RData []];
  hears_memory : forall w, fst (env _ QMemory w) = true;
  hears_decodes : forall msg w r, decode_msg store msg = CRet r -> fst (env _ (QDecode msg) w) = r;
}.

(** What one [read] gives. *)
Definition piece (c : bytes) : Prop := c <> [] /\ length c <= 4096.

Lemma wp_answer {A} (q : query A) a (Q : A -> st W -> Prop) s : (forall w, fst (env A q w) = a) ->
  (forall w, Q a (St (s_job s) ((s_ctx s) <| x_env := w |>))) -> wp (ask env q) Q s.
Proof. unfold wp, ask. intros Ha H. specialize (Ha (x_env (s_ctx s))). destruct (env A q _) as [a' w]. cbn in Ha. subst. apply H. Qed.

(** The job's running part, with so much of the message read. *)
Definition has_read (r : job_run) (b : bytes) (cap : nat) : job_run := r <| rn_res_buf := b |> <| rn_res_cap := cap |>.

Lemma take_result_hears data s : (forall w, fst (env _ QMemory w) = true) -> let r := jb_run (s_job s) in
  length (rn_res_buf r) + length data <= RESULT_MAX ->
  wp (take_result env data) (fun _ s' => exists cap, jb_run (s_job s') = has_read r (rn_res_buf r ++ data) cap) s.
Proof.
  intros Hm r Hl. unfold take_result. wps. fold r. cbn zeta. set (want := length (rn_res_buf r) + length data) in *.
  destruct (Nat.ltb_spec RESULT_MAX want); [lia |].
  destruct (Nat.ltb_spec (rn_res_cap r) want); [| wps; by exists (rn_res_cap r)].
  set (cap0 := if rn_res_cap r =? 0 then 1024 else rn_res_cap r * 2).
  assert (Hc : 0 < cap0) by (unfold cap0; case_match eqn:E; [lia | apply Nat.eqb_neq in E; lia]).
  destruct (grow_ok want cap0 want Hc) as (cap & E & _); [pose proof (Nat.pow_gt_lin_r 2 want); nia |].
  apply wp_bind. wplift E. apply wp_bind, (wp_answer QMemory true); [done |]. intros w. wps. by exists cap.
Qed.

Lemma reads_hear chunks : (forall w, fst (env _ QMemory w) = true) -> Forall piece chunks -> forall s, let r := jb_run (s_job s) in
  length (rn_res_buf r) + length (concat chunks) <= RESULT_MAX ->
  wp (drain_result_reads env ((RData <$> chunks) ++ [RData []])) (fun _ s' => exists cap, jb_run (s_job s') = has_read r (rn_res_buf r ++ concat chunks) cap) s.
Proof.
  intros Hm. induction 1 as [|c chunks [Hc Hl] _ IH]; intros s r Hr; cbn [fmap list_fmap app drain_result_reads].
  - wps. exists (rn_res_cap r). cbn. rewrite app_nil_r. subst r. by destruct (jb_run (s_job s)).
  - destruct c as [|x c]; [done |]. cbn [concat] in *. rewrite length_app in Hr. rewrite (take_ge (x :: c) 4096) by done.
    wps. eapply wp_mono; [apply take_result_hears; [done |]; fold r; lia |]. intros [] s1 [cap1 H1]. fold r in H1.
    eapply wp_mono; [apply IH; rewrite H1; cbn; rewrite length_app; cbn [length] in *; lia |]. intros a s2 [cap2 H2].
    exists cap2. rewrite H2, H1. unfold has_read. cbn. by rewrite <- app_assoc.
Qed.

Lemma drain_hears chunks s : hears chunks -> Forall piece chunks -> let r := jb_run (s_job s) in
  length (rn_res_buf r) + length (concat chunks) <= RESULT_MAX ->
  wp (drain_result env) (fun _ s' => exists cap, jb_run (s_job s') = has_read r (rn_res_buf r ++ concat chunks) cap) s.
Proof.
  intros [Hr Hm _] Hp r Hl. unfold drain_result. apply wp_bind, wp_get_run, wp_bind, (wp_answer _ ((RData <$> chunks) ++ [RData []])); [done |]. intros w.
  by apply reads_hear.
Qed.

(** The parent's verdict on a message and an exit. *)
Record verdict := Verdict { vd_event : qwe_lc_event; vd_reason : string; vd_changed : bool; vd_outputs : option lua }.

Definition judge (m : option lua) (status : Z) : verdict :=
  let ok := wifexited status && (wexitstatus status =? 0)%Z in
  let by_exit := if ok then QWE_LC_EV_LEADER_EXIT_OK else QWE_LC_EV_LEADER_EXIT_FAIL in
  match m with
  | Some v =>
      let s := said_of v in
      match sd_status s with
      | MSG_NONE => Verdict QWE_LC_EV_LEADER_EXIT_FAIL "plugin-error" true None
      | MSG_EXEC => Verdict by_exit "exit-code" true None
      | MSG_OK => Verdict by_exit (if ok then "exit-code" else "plugin-error") (sd_changed s) (offered v)
      | MSG_FAILED => Verdict QWE_LC_EV_LEADER_EXIT_FAIL (sd_reason s) (sd_changed s) None
      end
  | None => Verdict QWE_LC_EV_LEADER_EXIT_FAIL "plugin-error" true None
  end.

(** What is then stored: the outputs as they came, where there are any that [store]
    can take. *)
Definition stored (o : option lua) (before after : option bytes) : Prop :=
  match o with
  | Some o => exists o', same number_text o o' /\ after = match store o' with Some b => Some b | None => before end
  | None => after = before
  end.

(** The job, told so. *)
Definition judged (v : verdict) (r : job_run) (got : qwe_lc_event * option string) (s' : st W) : Prop :=
  got = (vd_event v, Some (vd_reason v)) /\ rn_step_changed (jb_run (s_job s')) = vd_changed v /\
  stored (vd_outputs v) (rn_step_json r) (rn_step_json (jb_run (s_job s'))).

(** What [read_step_msg] makes of what it heard. *)
Lemma read_hears m s : let r := jb_run (s_job s) in (forall msg w r, decode_msg store msg = CRet r -> fst (env _ (QDecode msg) w) = r) ->
  rn_res_overflow r = false -> heard store m (rn_res_buf r) ->
  wp (read_step_msg env) (fun msg s' => rn_step_changed (jb_run (s_job s')) = rn_step_changed r /\
    match m with
    | None => msg = StepMsg MSG_NONE None true /\ rn_step_json (jb_run (s_job s')) = rn_step_json r
    | Some v => msg = StepMsg (sd_status (said_of v)) (Some (sd_reason (said_of v))) (sd_changed (said_of v)) /\
        stored (match sd_status (said_of v) with MSG_OK => offered v | _ => None end) (rn_step_json r) (rn_step_json (jb_run (s_job s')))
    end) s.
Proof.
  intros r Hd Ho Hh. unfold read_step_msg. apply wp_bind, wp_get_run. fold r. rewrite Ho. destruct m as [v|]; cbn [heard] in Hh.
  - destruct Hh as (Hn & d & Ed & H1 & H2 & H3 & H4). destruct (length (rn_res_buf r) =? 0) eqn:El; [by apply Nat.eqb_eq, nil_length_inv in El |].
    cbn [orb]. apply wp_bind. eapply wp_answer; [intros w; by apply Hd |]. intros w. cbn beta iota. rewrite H1, H2, H3.
    set (s0 := {| s_job := s_job s; s_ctx := _ |}).
    apply wp_bind. destruct (sd_status (said_of v)); try (wps; by split).
    destruct (offered v) as [o|]; [| rewrite H4; wps; by split].
    destruct H4 as (o' & Hs & ->). unfold store_outputs. destruct (store o') as [b|] eqn:E; wps; (split; [done |]; split; [done |]; exists o'; by rewrite E).
  - rewrite Hh. cbn [length]. by wps.
Qed.

Lemma judged_ok m chunks status s : let r := jb_run (s_job s) in hears chunks -> Forall piece chunks ->
  rn_step_uses r = true -> rn_res_overflow r = false -> heard store m (rn_res_buf r ++ concat chunks) ->
  length (rn_res_buf r ++ concat chunks) <= RESULT_MAX ->
  wp (leader_exit_event env status) (judged (judge m status) r) s.
Proof.
  intros r Hh Hp Hu Ho Hm Hl. rewrite length_app in Hl. unfold leader_exit_event. cbn zeta. apply wp_bind, wp_mod_run, wp_bind, wp_get_run.
  cbn [s_job jb_run setf rn_step_uses]. fold r. rewrite Hu. cbn [negb]. apply wp_bind. eapply wp_mono; [by apply (drain_hears chunks) |].
  intros eof s1 [cap E1]. cbn in E1. fold r in E1. apply wp_bind. eapply wp_mono; [apply (read_hears m); rewrite ?E1; [apply Hh | done | exact Hm] |].
  intros msg s2 [Hc Hmsg]. rewrite E1 in Hc, Hmsg. cbn in Hc. unfold judged, judge. destruct m as [v|].
  - destruct Hmsg as [-> Hst]. cbn [sm_status sm_reason sm_changed]. destruct (sd_status (said_of v)), (wifexited status && (wexitstatus status =? 0)%Z); by wps.
  - destruct Hmsg as [-> Hst]. wps. done.
Qed.

(** ** From the plugin to the verdict *)

Definition exited_ok (status : Z) : bool := wifexited status && (wexitstatus status =? 0)%Z.

(** The command's stdin could not be made: known only after "exec" was sent. *)
Definition stdin_fails (r : ran) (a : child_answers) : bool :=
  match r with
  | Returned (LTable _ ((_ :: _) as seq) _) (LStr _) =>
      match build_argv (an_argv a) seq, an_stdin a with Copies _, Some _ => true | _, _ => false end
  | _ => false
  end.

(** What a plugin step is to come to, from what its plugin did and the engine's own
    failures: no message in it. *)
Definition verdict_of (r : ran) (a : child_answers) (command : Z) : verdict :=
  let fails reason := Verdict QWE_LC_EV_LEADER_EXIT_FAIL reason true None in
  match r with
  | Raised _ => fails "plugin-error"%string
  | Returned argv result =>
      if lua_istable result then
        if negb (encodable QWE_LUA_MAX_DEPTH result) then fails "engine-error"%string
        else
          let s := said_of result in
          match sd_status s with
          | MSG_OK =>
              if an_flush a then Verdict QWE_LC_EV_LEADER_EXIT_OK "exit-code" (sd_changed s) (offered result)
              else Verdict QWE_LC_EV_LEADER_EXIT_FAIL "plugin-error" (sd_changed s) (offered result)
          | MSG_FAILED => Verdict QWE_LC_EV_LEADER_EXIT_FAIL (sd_reason s) (sd_changed s) None
          | MSG_EXEC => fails "exit-code"%string
          | MSG_NONE => fails "plugin-error"%string
          end
      else
        match argv with
        | LTable _ ((_ :: _) as seq) _ =>
            match build_argv (an_argv a) seq with
            | Copies _ =>
                match result, an_stdin a with
                | LStr _, Some _ => fails "engine-error"%string
                | _, _ => Verdict (if exited_ok command then QWE_LC_EV_LEADER_EXIT_OK else QWE_LC_EV_LEADER_EXIT_FAIL) "exit-code" true None
                end
            | NotText _ => fails "plugin-error"%string
            | NoRoom => fails "engine-error"%string
            end
        | _ => fails "plugin-error"%string
        end
  end.

Lemma bytes_string b s : string_of b = s <-> b = bytes_of s.
Proof.
  unfold string_of, bytes_of. split; [intros <-; symmetry; apply list_ascii_of_string_of_list_ascii | intros ->; apply string_of_list_ascii_of_string].
Qed.

Lemma status_is_ok v : bool_decide (lua_tostring v = Some (bytes_of "ok")) = match status_of (word v) with MSG_OK => true | _ => false end.
Proof.
  unfold word, status_of. destruct (lua_tostring v) as [b|]; cbn; [| done]. case_bool_decide as Hb.
  - injection Hb as ->. done.
  - repeat case_decide; try done. match goal with H : string_of b = "ok"%string |- _ => apply bytes_string in H; congruence end.
Qed.

(** What it does come to. *)
Definition verdict_got (r : ran) (a : child_answers) (command : Z) : verdict :=
  if stdin_fails r a then Verdict QWE_LC_EV_LEADER_EXIT_FAIL "exit-code" true None else verdict_of r a command.

Lemma stdin_fails_table argv result a : lua_istable result = true -> stdin_fails (Returned argv result) a = false.
Proof. destruct result; try done. by destruct argv as [| | | | | | |? [] ?]. Qed.

Lemma judge_report r a command : judge (fst (report r a)) (child_status (snd (report r a)) command) = verdict_got r a command.
Proof.
  unfold verdict_got. destruct r as [why|argv result]; [done |]. cbn [report verdict_of]. destruct (lua_istable result) eqn:Et.
  - rewrite (stdin_fails_table _ _ _ Et).
    destruct result as [| | | | | | |mt seq fields]; try discriminate Et. destruct (encodable _ _); [| done]. cbn [negb fst snd].
    unfold judge. cbn [child_status]. rewrite status_is_ok. destruct (sd_status (said_of (LTable mt seq fields))) eqn:Es.
    + done.
    + unfold said_of, map_of in Es. destruct (classify mt seq); try discriminate Es. cbn in Es. by rewrite Es.
    + unfold said_of, map_of in Es. destruct (classify mt seq); try discriminate Es. cbn in Es. rewrite Es. by destruct (an_flush a).
    + done.
  - replace (match result with LTable _ _ _ => _ | _ => _ end) with
      (match argv with
       | LTable _ ((_ :: _) as seq) _ =>
           match build_argv (an_argv a) seq with
           | NotText _ => (None, NoArgv)
           | NoRoom => (failed "engine-error", NoArgv)
           | Copies args => (Some (status_table "exec" None),
               match result, an_stdin a with LStr _, Some _ => NoArgv | LStr s, None => Argv args (Some s) | _, _ => Argv args None end)
           end
       | _ => (None, NoArgv)
       end) by by destruct result.
    destruct argv as [| | | | | | |mt [|v seq] fields]; try done. cbn [stdin_fails].
    destruct (build_argv (an_argv a) (v :: seq)), result, (an_stdin a); try discriminate Et; done.
Qed.
End verdict.

(** C6. What a plugin step comes to is what its plugin did, whatever the messages
    between the child and the parent are cut into, as long as they pass: memory
    suffices and no write fails on either side, what the plugin returns is plain
    (texts, keys and lists of a size that C and the format allow, no key with a NUL
    byte), no number is written as a word of a message, and the message is at most [RESULT_MAX] bytes.
    Then the step has succeeded exactly when the result said ok, could be encoded
    and the output was written, or when the command it gave ran and exited with 0;
    the reason of a failure, whether something changed and the outputs are those of
    the result; a result that cannot be sent is an engine error, and one whose table
    is not a map has said nothing.  The exception is a command whose stdin could not
    be made ([stdin_fails]): what is to be an engine error ([verdict_of]) is reported
    as the exit code of a command that never ran. *)
Theorem step_verdict `{numbers : LuaNumbers} {W} (env : environment W) store (ran : ran) (a : child_answers) command s :
  result_plain ran -> sends (an_first a) -> sends (an_second a) -> no_words ->
  let r := jb_run (s_job s) in rn_step_uses r = true -> rn_res_overflow r = false ->
  exists n, forall fuel, n <= fuel -> exists t e, child_argv fuel true ran a = CRet (t, e) /\
    forall chunks, Forall piece chunks -> hears env store chunks ->
      rn_res_buf r ++ concat chunks = t_pipe t -> length (t_pipe t) <= RESULT_MAX ->
      exists got s', leader_exit_event env (child_status e command) s = CRet (got, s') /\ judged store (if stdin_fails ran a then Verdict QWE_LC_EV_LEADER_EXIT_FAIL "exit-code" true None else verdict_of ran a command) r got s'.
Proof.
  intros Hp H1 H2 Hw r Hu Ho. destruct (child_says store ran a Hp H1 H2 Hw) as [n Hn]. exists n. intros fuel Hf.
  destruct (Hn fuel Hf) as (t & E & Hh). exists t, (snd (report ran a)). split; [done |].
  intros chunks Hc Hhear Eb Hl. pose proof (judged_ok env store (fst (report ran a)) chunks (child_status (snd (report ran a)) command) s Hhear Hc Hu Ho) as H.
  rewrite judge_report in H. fold r in H. rewrite Eb in H. specialize (H Hh Hl). unfold wp in H.
  destruct (leader_exit_event _ _ _) as [[got s']| | |]; [| done..]. by exists got, s'.
Qed.

(** ** A step that ran here *)

#[local] Transparent QWE_LUA_MAX_DEPTH.

Module Told.

#[export] Instance numbers : LuaNumbers := {| number_text _ := []; text_number _ := None |}.

Definition store (v : lua) : option bytes := None.

(** [{ status = "failed", reason = "not-converged", changed = false }] *)
Definition fields : list (lkey * lua) :=
  [(KStr (bytes_of "status"), LStr (bytes_of "failed")); (KStr (bytes_of "reason"), LStr (bytes_of "not-converged"));
   (KStr (bytes_of "changed"), LBool false)].

Definition came : ran := Returned LNil (LTable NoMeta [] fields).

(** The first write takes seven bytes, the second is interrupted. *)
Definition answers : child_answers := Answers (Sending [] [Wrote 7; Interrupted]) (Sending [] []) [] true None [].

(** The pipe: the map with its keys sorted, in two reads. *)
Definition pipe : list bytes :=
  [byte 163 :: byte 103 :: bytes_of "changed" ++ [byte 244; byte 102] ++ bytes_of "re";
   bytes_of "ason" ++ [byte 109] ++ bytes_of "not-converged" ++ [byte 102] ++ bytes_of "status" ++ [byte 102] ++ bytes_of "failed"].

Definition env : environment nat := fun A q w =>
  match q in query A return A * nat with
  | QReadResult _ => ((RData <$> pipe) ++ [RData []], w)
  | QMemory => (true, w)
  | QDecode msg => (match decode_msg store msg with CRet d => d | _ => None end, w)
  | q => Sample.env _ q w
  end.

Definition job : job := (job0 0 "a" "local" [] [StepDecl None None (Some "assert"%string) false None] 0)
  <| jb_run := job_run0 <| rn_step_uses := true |> |>.

Definition start : st nat := St job Sample.start.

Lemma came_plain : result_plain came.
Proof.
  unfold result_plain, came. generalize QWE_LUA_MAX_DEPTH. intros [|levels]; [done |]. cbn. split_and!; try done.
  - apply NoDup_ListNoDup. repeat constructor; cbn; naive_solver.
  - by repeat constructor.
  - intros k. repeat case_decide; apply plain_leaf; done.
Qed.

Lemma env_hears : hears env store pipe.
Proof. constructor; [done | done |]. intros msg w r E. cbn. by rewrite E. Qed.

Lemma pipe_pieces : Forall piece pipe.
Proof. apply Forall_cons; [| apply Forall_cons; [| by apply Forall_nil]]; split; try done; apply Nat.leb_le; vm_compute; reflexivity. Qed.

Lemma pipe_fits : length (concat pipe) <= RESULT_MAX.
Proof. change (length (concat pipe)) with 45. unfold RESULT_MAX. lia. Qed.

End Told.

#[local] Existing Instance Told.numbers.

Lemma step_verdict_witness :
  child_argv 3 true Told.came Told.answers = CRet (Trail (concat Told.pipe) [], ExitNow 1) /\
  Forall piece Told.pipe /\ hears Told.env Told.store Told.pipe /\ length (concat Told.pipe) <= RESULT_MAX /\
  verdict_of Told.came Told.answers 0 = Verdict QWE_LC_EV_LEADER_EXIT_FAIL "not-converged" false None /\
  exists n, forall fuel, n <= fuel -> exists t e, child_argv fuel true Told.came Told.answers = CRet (t, e) /\
    forall chunks, Forall piece chunks -> hears Told.env Told.store chunks ->
      rn_res_buf (jb_run (s_job Told.start)) ++ concat chunks = t_pipe t -> length (t_pipe t) <= RESULT_MAX ->
      exists got s', leader_exit_event Told.env (child_status e 0) Told.start = CRet (got, s') /\
        judged Told.store (if stdin_fails Told.came Told.answers then Verdict QWE_LC_EV_LEADER_EXIT_FAIL "exit-code" true None else verdict_of Told.came Told.answers 0) (jb_run (s_job Told.start)) got s'.
Proof.
  split_and!; [vm_compute; reflexivity | exact Told.pipe_pieces | exact Told.env_hears | exact Told.pipe_fits | vm_compute; reflexivity |].
  apply (step_verdict Told.env Told.store Told.came Told.answers 0 Told.start); try done; [exact Told.came_plain | by split; [| cbn; set_solver] | by split; [| cbn; set_solver]].
Defined.

(** The stdin of a command is made after the parent was told that the command runs:
    where that fails, the step's failure is laid on the exit code of a command that
    never ran. *)
Lemma stdin_failure_blames_command why : let a := Answers (Sending [] []) (Sending [] []) [] true (Some why) [] in
  let ran := Returned (LTable NoMeta [LStr (bytes_of "sh")] []) (LStr (bytes_of "x")) in
  exists t, child_argv 1 true ran a = CRet (t, NoArgv) /\
    t_pipe t = byte 161 :: byte 102 :: bytes_of "status" ++ byte 100 :: bytes_of "exec" /\
    verdict_got ran a 0 = Verdict QWE_LC_EV_LEADER_EXIT_FAIL "exit-code" true None /\
    verdict_of ran a 0 = Verdict QWE_LC_EV_LEADER_EXIT_FAIL "engine-error" true None.
Proof. eexists. split_and!; vm_compute; reflexivity. Qed.
