(* ===== verification/Setup.v ===== *)
(** * The place and the end of a run

    Models the parts of [qwe_run_workflow] of [src/kernel/workflow.c] around the run:
    the run's id ([fmt_run_id]), its directory ([mkdir_p]) and the paths in it, a
    step's output file, the grace period, and the result file and exit code at the
    end. *)

From Stdlib Require Import Ascii String NArith ZArith Lia Sorted.
From stdpp Require Import base sets list strings numbers.
From S2P Require Import Prelude Cstr Redact Fmt Trace Result Strtod Job Keyfile Qwe.

Open Scope nat_scope.
Open Scope list_scope.

(** ** The run's id *)

(** [gmtime_r] and [strftime("%Y%m%dT%H%M%SZ")] into [n] bytes. *)
Definition run_stamp (n : nat) (t : Z) : option bytes :=
  let '(y, m, d) := civil_from_days (t / 86400)%Z in
  let s := (t mod 86400)%Z in
  let text := dec y ++ pad2 m ++ pad2 d ++ bytes_of "T" ++ pad2 (s / 3600) ++ pad2 (s / 60 mod 60) ++ pad2 (s mod 60) ++ bytes_of "Z" in
  if gmtime_fits y && (length text <? n) then Some text else None.

Definition fmt_run_id (n : nat) (now pid : Z) : cres bytes :=
  stamp ← (match run_stamp n now with Some t => mret t | None => qwe_xfmt n (dec now) end);
  tail ← qwe_xfmt (n - length stamp) (bytes_of "-" ++ dec pid);
  mret (stamp ++ tail).

(** ** Its directory *)

Record mkdir_call := MkdirCall { mk_path : bytes; mk_mode : Z }.

(** No answer left: it is made. *)
Definition next_answer (answers : list mkdir_result) : mkdir_result * list mkdir_result :=
  match answers with [] => (Made, []) | r :: answers => (r, answers) end.

Definition mkdir_fails (r : mkdir_result) : option bytes := match r with MkdirFails why => Some why | _ => None end.

(** The loop, with mode 0755: [before] is what is left of the scan. *)
Fixpoint mkdir_parents (before rest : bytes) (answers : list mkdir_result) (calls : list mkdir_call) :
    list mkdir_call * list mkdir_result * option bytes :=
  match rest with
  | [] => (calls, answers, None)
  | c :: rest =>
      if Ascii.eqb c "/" then
        let '(r, answers) := next_answer answers in
        let calls := calls ++ [MkdirCall before 493] in
        match mkdir_fails r with
        | Some why => (calls, answers, Some why)
        | None => mkdir_parents (before ++ [c]) rest answers calls
        end
      else mkdir_parents (before ++ [c]) rest answers calls
  end.

(** The calls, and why it failed if it did.  [s = p + 1] is past the end of an empty
    path. *)
Definition mkdir_p (no_memory : bytes) (mem : bool) (path : bytes) (mode : Z) (answers : list mkdir_result) : cres (list mkdir_call * option bytes) :=
  if negb mem then mret ([], Some no_memory)
  else
    match path with
    | [] => CUndef
    | c :: rest =>
        let '(calls, answers, failed) := mkdir_parents [c] rest answers [] in
        match failed with
        | Some why => mret (calls, Some why)
        | None => mret (calls ++ [MkdirCall path mode], mkdir_fails (fst (next_answer answers)))
        end
    end.

(** Why the output file of a step could not be made, if it could not: there is none,
    or what [open] and [close] answer. *)
Definition make_output_file (path : option bytes) (opened closed : option bytes) : option bytes :=
  match path with
  | None => None
  | Some _ => match opened with Some why => Some why | None => closed end
  end.

(** ** The paths of a run *)

(** Where the run is: its id, its directory and the room for it, its trace. *)
Record place := Place { pl_id : bytes; pl_dir : bytes; pl_room : nat; pl_trace : bytes }.

(** What is printed where it cannot be set up. *)
Definition complaint (parts : list bytes) : bytes := bytes_of "qwe run: " ++ concat parts ++ [NL].

(** [mem]: the four allocations; the directory gets mode 0700; [opens]: why the trace cannot be opened. *)
Definition set_up (no_memory path : bytes) (now pid : Z) (mem : list bool) (answers : list mkdir_result) (opens : option bytes) :
    cres (list mkdir_call * (bytes + place)) :=
  let '(have_dir, mem) := alloc mem in
  let dir := match strrchr "/" path with Some (before, _) => before | None => bytes_of "." end in
  id ← fmt_run_id 64 now pid;
  let room := length dir + length id + 32 in
  let '(have_run_dir, mem) := if (have_dir : bool) then alloc mem else (false, mem) in
  if negb have_run_dir then mret ([], inl (complaint [path; bytes_of ": out of memory"]))
  else
    run_dir ← qwe_xfmt room (dir ++ bytes_of "/.qwe/runs/" ++ id);
    let '(have_copy, mem) := alloc mem in
    '(calls, failed) ← mkdir_p no_memory have_copy run_dir 448 answers;
    match failed with
    | Some why => mret (calls, inl (complaint [bytes_of "cannot create "; run_dir; bytes_of ": "; why]))
    | None =>
        let '(have_trace, mem) := alloc mem in
        if negb have_trace then mret (calls, inl (complaint [path; bytes_of ": out of memory"]))
        else
          trace ← qwe_xfmt (length run_dir + 32) (run_dir ++ bytes_of "/lifecycle.trace");
          match opens with
          | Some why => mret (calls, inl (complaint [bytes_of "cannot create "; trace; bytes_of ": "; why]))
          | None => mret (calls, inr (Place id run_dir room trace))
          end
    end.

(** [QWE_TEST_GRACE_MS], read with [strtol]: spaces, a sign, digits. *)
Definition is_space (c : ascii) : bool := let n := N_of_ascii c in (n =? 32)%N || ((9 <=? n)%N && (n <=? 13)%N).

Fixpoint skip_spaces (s : bytes) : bytes :=
  match s with c :: s' => if is_space c then skip_spaces s' else s | [] => [] end.

(** The value, where all of the text is one and it fits a [long]. *)
Definition whole_number (s : bytes) : option Z :=
  let '(neg, s) := span_sign (skip_spaces s) in
  let '(ds, rest) := span_digits s in
  let v := if (neg : bool) then (- decimal ds)%Z else decimal ds in
  match ds, rest with
  | _ :: _, [] => if ((- 2 ^ 63 <=? v) && (v <? 2 ^ 63))%Z then Some v else None
  | _, _ => None
  end.

Definition grace_of (env : option bytes) : Z * list bytes :=
  match env with
  | None => (10000%Z, [])
  | Some s =>
      match whole_number s with
      | Some ms =>
          if (0 <=? ms)%Z then (ms, [])
          else (10000%Z, [complaint [bytes_of "warning: ignoring QWE_TEST_GRACE_MS="; s; bytes_of ": not a whole number of milliseconds"]])
      | None => (10000%Z, [complaint [bytes_of "warning: ignoring QWE_TEST_GRACE_MS="; s; bytes_of ": not a whole number of milliseconds"]])
      end
  end.

(** ** The end of a run *)

(** The path of the result is put behind the directory's, in the same room. *)
Definition result_path (p : place) : cres bytes :=
  tail ← qwe_xfmt (pl_room p - length (pl_dir p)) (bytes_of "/result.json");
  mret (pl_dir p ++ tail).

(** From the exit code so far ([Run.exit_code]): whether the result file was opened,
    written and closed; what is printed, the exit code, and the outcome that a
    summary is given. *)
Definition end_run (p : place) (rc : Z) (all_ok opened written closed : bool) (why : bytes) : cres (list bytes * Z * string) :=
  path ← result_path p;
  let wrote := opened && written && closed in
  let rc := if wrote then rc else QWE_EXIT_FAILED in
  mret (if wrote then [] else [complaint [bytes_of "cannot write "; path; bytes_of ": "; why]],
        rc,
        if (rc =? QWE_EXIT_CANCELLED)%Z then "cancelled"%string else if all_ok then "success"%string else "failed"%string).

(** ** Characters and digits *)

(** What a number is written with. *)
Definition numeral (l : bytes) : Prop := Forall (fun c => is_digit c = true \/ c = "-"%char) l.

Lemma digits_numeral l : digits l -> numeral l.
Proof. apply Forall_impl. by left. Qed.

Lemma dec_bounded k n : 0 < k -> (- 10 ^ Z.of_nat k < n < 10 ^ Z.of_nat k)%Z -> numeral (dec n) /\ length (dec n) <= S k.
Proof.
  intros Hk Hn. destruct (Z.le_gt_cases 0 n).
  - destruct (dec_digits k n) as [H1 H2]; [done | lia |]. split; [by apply digits_numeral | lia].
  - destruct n as [|p|p]; try lia. change (dec (Z.neg p)) with ("-"%char :: dec (Z.pos p)).
    destruct (dec_digits k (Z.pos p)) as [H1 H2]; [done | lia |]. split; [constructor; [by right | by apply digits_numeral] | cbn; lia].
Qed.

Lemma pad2_bounded n : (0 <= n < 100)%Z -> numeral (pad2 n) /\ length (pad2 n) = 2.
Proof.
  intros Hn. destruct (dec_digits 2 n) as [H1 H2]; [lia | simpl; lia |]. unfold pad2. split.
  - apply Forall_app. split; [by apply Forall_replicate; left | by apply digits_numeral].
  - rewrite length_app, length_replicate. lia.
Qed.

(** ** The calendar *)

Lemma civil_month_day days : let '(_, m, d) := civil_from_days days in (1 <= m <= 12)%Z /\ (1 <= d <= 31)%Z.
Proof.
  unfold civil_from_days. set (z := (days + 719468)%Z). set (doe := (z - z / 146097 * 146097)%Z).
  assert (Hdoe : (0 <= doe < 146097)%Z) by (subst doe; Z.div_mod_to_equations; lia). clearbody doe.
  set (yoe := ((doe - doe / 1460 + doe / 36524 - doe / 146096) / 365)%Z).
  set (doy := (doe - (365 * yoe + yoe / 4 - yoe / 100))%Z).
  assert (Hdoy : (0 <= doy <= 365)%Z) by (subst doy yoe; Z.div_mod_to_equations; lia). clearbody doy. set (mp := ((5 * doy + 2) / 153)%Z).
  assert (Hmp : (0 <= mp <= 11)%Z) by (subst mp; Z.div_mod_to_equations; lia).
  assert (Hd : (1 <= doy - (153 * mp + 2) / 5 + 1 <= 31)%Z) by (subst mp; Z.div_mod_to_equations; lia).
  split; [| exact Hd]. destruct (Z.ltb_spec mp 10); lia.
Qed.

(** ** The run's id *)

(** No character of a path. *)
Definition pathless (l : bytes) : Prop := "/"%char ∉ l.

Lemma numeral_pathless l : numeral l -> pathless l.
Proof. intros H Hin. unfold numeral in H. rewrite Forall_forall in H. apply list_elem_of_In in Hin. destruct (H _ Hin) as [E|E]; vm_compute in E; discriminate. Qed.

Lemma pathless_app l l' : pathless l -> pathless l' -> pathless (l ++ l').
Proof. unfold pathless. set_solver. Qed.

Lemma literal_pathless l : forallb (fun c => negb (Ascii.eqb c "/")) l = true -> pathless l.
Proof.
  intros H Hin. apply list_elem_of_In in Hin. rewrite forallb_forall in H. specialize (H _ Hin). by rewrite Ascii.eqb_refl in H.
Qed.

Lemma run_stamp_ok n t stamp : run_stamp n t = Some stamp -> pathless stamp /\ length stamp <= 23.
Proof.
  unfold run_stamp. pose proof (civil_month_day (t / 86400)) as Hmd. destruct (civil_from_days (t / 86400)) as [[y m] d]. destruct Hmd as [Hm Hd].
  destruct (gmtime_fits y) eqn:Ey; [| done]. cbn [andb]. destruct (_ <? n); [| done]. intros [= <-].
  unfold gmtime_fits in Ey. apply andb_true_iff in Ey as [Ey1%Z.leb_le Ey2%Z.ltb_lt].
  destruct (dec_bounded 10 y ltac:(lia) ltac:(cbn; lia)) as [Ny Ly].
  destruct (pad2_bounded m ltac:(lia)) as [Nm Lm]. destruct (pad2_bounded d ltac:(lia)) as [Nd Ld].
  destruct (pad2_bounded (t mod 86400 / 3600) ltac:(Z.div_mod_to_equations; lia)) as [Nh Lh].
  destruct (pad2_bounded (t mod 86400 / 60 mod 60) ltac:(Z.div_mod_to_equations; lia)) as [Ni Li].
  destruct (pad2_bounded (t mod 86400 mod 60) ltac:(Z.div_mod_to_equations; lia)) as [Ns Ls].
  split.
  - repeat (apply pathless_app; [by apply numeral_pathless |]). apply (pathless_app (bytes_of "T")); [by apply literal_pathless |].
    repeat (apply pathless_app; [by apply numeral_pathless |]). by apply literal_pathless.
  - rewrite !length_app. cbn [length]. rewrite !length_app, Lm, Ld, Lh, Li, Ls. change (length (bytes_of "Z")) with 1. lia.
Qed.

(** The name of a run: the second it started in (or the number of it, where the year
    does not fit) and the process. *)
Definition stamp_of (now : Z) : bytes := default (dec now) (run_stamp 64 now).
Definition run_name (now pid : Z) : bytes := stamp_of now ++ bytes_of "-" ++ dec pid.

(** For every time and process there is: it fits, and it is one component of a
    path. *)
Lemma run_id_ok now pid : (- 2 ^ 63 <= now < 2 ^ 63)%Z -> (0 <= pid < 2 ^ 31)%Z ->
  fmt_run_id 64 now pid = CRet (run_name now pid) /\ pathless (run_name now pid).
Proof.
  intros Hn Hp. destruct (dec_bounded 10 pid ltac:(lia) ltac:(cbn; lia)) as [Np Lp]. unfold fmt_run_id, run_name.
  assert (H : (match run_stamp 64 now with Some t => mret t | None => qwe_xfmt 64 (dec now) end) = CRet (stamp_of now) /\
    pathless (stamp_of now) /\ length (stamp_of now) <= 23).
  { unfold stamp_of. destruct (run_stamp 64 now) as [stamp|] eqn:E; [split; [done |]; by apply run_stamp_ok in E |].
    destruct (dec_bounded 19 now ltac:(lia) ltac:(cbn; lia)) as [Nn Ln]. cbn [default]. rewrite qwe_xfmt_fits by lia.
    split; [done |]. split; [by apply numeral_pathless | lia]. }
  destruct H as (-> & Hs & Hl). cstep. rewrite qwe_xfmt_fits by (rewrite length_app; change (length (bytes_of "-")) with 1; lia). cstep. split; [done |].
  apply pathless_app; [done |]. apply pathless_app; [by apply literal_pathless | by apply numeral_pathless].
Qed.

(** *** No two runs have one name *)

Lemma pad2_digits n : (0 <= n < 100)%Z -> pad2 n = [ascii_of_N (48 + Z.to_N (n / 10)); ascii_of_N (48 + Z.to_N (n mod 10))].
Proof.
  intros Hn. assert (H : forall k : nat, (k < 100)%nat -> pad2 (Z.of_nat k) = [ascii_of_N (48 + Z.to_N (Z.of_nat k / 10)); ascii_of_N (48 + Z.to_N (Z.of_nat k mod 10))]).
  { do 100 (intros [|k]; [intros _; vm_compute; reflexivity |]; revert k). intros k Hk. lia. }
  specialize (H (Z.to_nat n) ltac:(lia)). by rewrite Z2Nat.id in H by lia.
Qed.

Lemma pad2_inj n n' rest rest' : (0 <= n < 100)%Z -> (0 <= n' < 100)%Z -> pad2 n ++ rest = pad2 n' ++ rest' -> n = n' /\ rest = rest'.
Proof.
  intros Hn Hn' H. destruct (pad2_bounded n Hn) as [_ L], (pad2_bounded n' Hn') as [_ L']. apply app_inj_1 in H as [H ->]; [| congruence]. split; [| done].
  rewrite !pad2_digits in H by done. injection H as H1 H2. apply (f_equal N_of_ascii) in H1, H2.
  rewrite !N_ascii_embedding in H1, H2 by (Z.div_mod_to_equations; lia). Z.div_mod_to_equations. lia.
Qed.

(** The calendar gives each day a date of its own. *)
Lemma civil_inj z z' : civil_from_days z = civil_from_days z' -> z = z'.
Proof.
  assert (H : forall z, exists era yoe doy mp, let '(y, m, d) := civil_from_days z in
    (0 <= yoe < 400)%Z /\ (0 <= mp <= 11)%Z /\ (z + 719468 = era * 146097 + (365 * yoe + yoe / 4 - yoe / 100) + doy)%Z /\
    (doy = (153 * mp + 2) / 5 + d - 1)%Z /\ (m = if mp <? 10 then mp + 3 else mp - 9)%Z /\ (y = yoe + era * 400 + if mp <? 10 then 0 else 1)%Z).
  { clear. intros z. unfold civil_from_days. set (w := (z + 719468)%Z). set (era := (w / 146097)%Z). set (doe := (w - era * 146097)%Z).
    assert (Hdoe : (0 <= doe < 146097)%Z) by (subst doe era; Z.div_mod_to_equations; lia).
    set (yoe := ((doe - doe / 1460 + doe / 36524 - doe / 146096) / 365)%Z). set (doy := (doe - (365 * yoe + yoe / 4 - yoe / 100))%Z).
    assert (Hyoe : (0 <= yoe < 400)%Z) by (subst yoe; clearbody doe; Z.div_mod_to_equations; lia).
    assert (Hdoy : (0 <= doy <= 365)%Z) by (subst doy yoe; clearbody doe; Z.div_mod_to_equations; lia).
    set (mp := ((5 * doy + 2) / 153)%Z). assert (Hmp : (0 <= mp <= 11)%Z) by (subst mp; clearbody doy; Z.div_mod_to_equations; lia).
    exists era, yoe, doy, mp. split_and!; [lia | lia | lia | lia | subst doy doe; lia | lia | done |].
    destruct (Z.ltb_spec mp 10); [destruct (Z.leb_spec (mp + 3) 2) | destruct (Z.leb_spec (mp - 9) 2)]; lia. }
  destruct (H z) as (e & yo & dy & mp & Hz), (H z') as (e' & yo' & dy' & mp' & Hz'). clear H.
  destruct (civil_from_days z) as [[y m] d], (civil_from_days z') as [[y' m'] d']. intros [= -> -> ->].
  destruct Hz as (H1 & H2 & H3 & H4 & H5 & H6), Hz' as (H1' & H2' & H3' & H4' & H5' & H6').
  assert (mp = mp') as -> by (destruct (Z.ltb_spec mp 10), (Z.ltb_spec mp' 10); lia).
  assert (dy = dy') as -> by lia. assert (e = e') as -> by lia. assert (yo = yo') as -> by lia. lia.
Qed.

Lemma run_stamp_inj n t t' stamp : run_stamp n t = Some stamp -> run_stamp n t' = Some stamp -> t = t'.
Proof.
  unfold run_stamp. pose proof (civil_month_day (t / 86400)) as Hmd. pose proof (civil_month_day (t' / 86400)) as Hmd'.
  pose proof (civil_inj (t / 86400) (t' / 86400)) as Hinj.
  destruct (civil_from_days (t / 86400)) as [[y m] d], (civil_from_days (t' / 86400)) as [[y' m'] d']. destruct Hmd as [Hm Hd], Hmd' as [Hm' Hd'].
  destruct (gmtime_fits y && _); [| done]. destruct (gmtime_fits y' && _); [| done]. intros [= <-] [= E].
  set (s := (t mod 86400)%Z) in *. set (s' := (t' mod 86400)%Z) in *.
  assert (Hs : (0 <= s < 86400)%Z /\ (0 <= s' < 86400)%Z) by (subst s s'; Z.div_mod_to_equations; lia).
  assert (Hl : forall m d h i sec, (0 <= m < 100)%Z -> (0 <= d < 100)%Z -> (0 <= h < 100)%Z -> (0 <= i < 100)%Z -> (0 <= sec < 100)%Z ->
    length (pad2 m ++ pad2 d ++ "T"%char :: pad2 h ++ pad2 i ++ pad2 sec ++ bytes_of "Z") = 12).
  { clear. intros m d h i sec H1 H2 H3 H4 H5. rewrite !length_app. cbn [length]. rewrite !length_app.
    by rewrite (proj2 (pad2_bounded _ H1)), (proj2 (pad2_bounded _ H2)), (proj2 (pad2_bounded _ H3)), (proj2 (pad2_bounded _ H4)), (proj2 (pad2_bounded _ H5)). }
  apply app_inj_2 in E as [Ey E]. 2: { rewrite !Hl; [done | ..]; Z.div_mod_to_equations; lia. }
  apply dec_inj in Ey. apply pad2_inj in E as [Em E]; [| lia..]. apply pad2_inj in E as [Ed E]; [| lia..]. injection E as E.
  apply pad2_inj in E as [Eh E]; [| Z.div_mod_to_equations; lia..]. apply pad2_inj in E as [Ei E]; [| Z.div_mod_to_equations; lia..].
  apply pad2_inj in E as [Es _]; [| Z.div_mod_to_equations; lia..]. subst y' m' d'. specialize (Hinj eq_refl). subst s s'. Z.div_mod_to_equations. lia.
Qed.

Lemma stamp_last n t stamp : run_stamp n t = Some stamp -> exists s, stamp = s ++ ["Z"%char].
Proof.
  unfold run_stamp. destruct (civil_from_days _) as [[y m] d]. destruct (_ && _); [| done]. intros [= <-].
  eexists (dec y ++ pad2 m ++ pad2 d ++ "T"%char :: pad2 _ ++ pad2 _ ++ pad2 _). rewrite <- !app_assoc. cbn [app]. by rewrite <- !app_assoc.
Qed.

Lemma stamp_inj t t' : stamp_of t = stamp_of t' -> t = t'.
Proof.
  assert (Hd : forall s n, s ++ ["Z"%char] = dec n -> False).
  { intros s n E. assert (Hn : numeral (dec n)).
    { destruct (dec_bounded (S (Z.to_nat (Z.abs n))) n) as [H _]; [lia | | done]. pose proof (Z.pow_gt_lin_r 10 (Z.of_nat (S (Z.to_nat (Z.abs n))))). lia. }
    rewrite <- E in Hn. apply Forall_app in Hn as [_ Hn]. apply Forall_cons_1 in Hn as [[H|H] _]; vm_compute in H; discriminate. }
  unfold stamp_of. destruct (run_stamp 64 t) as [s|] eqn:E, (run_stamp 64 t') as [s'|] eqn:E'; cbn [default from_option id].
  - intros <-. by eapply run_stamp_inj.
  - intros ->. destruct (stamp_last _ _ _ E) as [s Hs]. by destruct (Hd s t').
  - intros <-. destruct (stamp_last _ _ _ E') as [s' Hs]. by destruct (Hd s' t).
  - apply dec_inj.
Qed.

Lemma run_name_inj now pid now' pid' : (0 <= pid < 2 ^ 31)%Z -> (0 <= pid' < 2 ^ 31)%Z ->
  run_name now' pid' = run_name now pid -> now' = now /\ pid' = pid.
Proof.
  intros Hp Hp' E. assert (Hno : forall p, (0 <= p < 2 ^ 31)%Z -> "-"%char ∉ dec p).
  { clear. intros p Hp Hin. destruct (dec_digits 10 p ltac:(lia) ltac:(cbn; lia)) as [Hd _]. unfold digits in Hd. rewrite Forall_forall in Hd. apply list_elem_of_In, Hd in Hin. vm_compute in Hin. discriminate. }
  unfold run_name in E. change (bytes_of "-") with ["-"%char] in E. cbn [app] in E.
  apply (f_equal (strrchr "-")) in E. rewrite !strrchr_app in E by auto. injection E as Es Ep. split; [by apply stamp_inj | by apply dec_inj].
Qed.

(** ** Directories *)

(** The calls for the parents of a path: each of them, before what is in it. *)
Definition parent_of (path : bytes) (c : mkdir_call) : Prop :=
  mk_mode c = 493%Z /\ mk_path c <> [] /\ exists r, path = mk_path c ++ "/"%char :: r.

Definition outside_in (calls : list mkdir_call) : Prop := StronglySorted (fun a b => length (mk_path a) < length (mk_path b)) calls.

Lemma mkdir_parents_ok rest : forall before answers calls, before <> [] ->
  exists extra answers' failed, mkdir_parents before rest answers calls = (calls ++ extra, answers', failed) /\
    Forall (parent_of (before ++ rest)) extra /\ outside_in extra /\ Forall (fun c => length before <= length (mk_path c)) extra /\
    (failed = None -> forall c, parent_of (before ++ rest) c -> length before <= length (mk_path c) -> c ∈ extra).
Proof.
  induction rest as [|c rest IH]; intros before answers calls Hb; cbn [mkdir_parents].
  - exists [], answers, None. rewrite !app_nil_r. split_and!; [done | constructor | constructor | constructor |].
    intros _ c (_ & _ & r & Hr) Hl. apply (f_equal length) in Hr. rewrite length_app in Hr. cbn in Hr. lia.
  - assert (Hb' : before ++ [c] <> []) by by destruct before.
    assert (Hlen : length (before ++ [c]) = S (length before)) by (rewrite length_app; cbn; lia).
    assert (Hsplit : before ++ c :: rest = (before ++ [c]) ++ rest) by by rewrite <- app_assoc.
    assert (Hkeep : forall d, parent_of (before ++ c :: rest) d -> length before <= length (mk_path d) ->
      (mk_path d = before /\ c = "/"%char) \/ length (before ++ [c]) <= length (mk_path d)).
    { intros d (_ & _ & r & Hr) Hl. destruct (decide (length (mk_path d) = length before)) as [E|]; [left | right; lia].
      apply app_inj_1 in Hr as [-> Hc]; [| done]. by injection Hc. }
    destruct (Ascii.eqb_spec c "/") as [->|Hc].
    + destruct (next_answer answers) as [r answers1]. set (first := MkdirCall before 493).
      assert (Hp : parent_of (before ++ "/"%char :: rest) first) by (split_and!; [done | done | by exists rest]).
      destruct (mkdir_fails r) as [why|].
      * exists [first], answers1, (Some why). split_and!; [done | constructor; [done | constructor] | constructor; constructor | constructor; [done | constructor] | done].
      * destruct (IH (before ++ ["/"%char]) answers1 (calls ++ [first]) Hb') as (extra & answers' & failed & -> & H1 & H2 & H3 & H4).
        exists (first :: extra), answers', failed. rewrite <- (app_assoc calls). rewrite Hlen in H3, H4, Hkeep. rewrite Hsplit in *.
        split_and!; [done | by constructor | constructor; [done |] | constructor; [done |] |].
        -- eapply Forall_impl; [| exact H3]. intros d Hd. cbn in Hd |- *. lia.
        -- eapply Forall_impl; [| exact H3]. cbn. intros d Hd. lia.
        -- intros Hf d Hd Hl. destruct (Hkeep d Hd Hl) as [[E _]|Hl']; [| right; by apply H4].
           destruct Hd as (Hm & _). destruct d as [q m]. cbn in *. subst. by left.
    + destruct (IH (before ++ [c]) answers calls Hb') as (extra & answers' & failed & -> & H1 & H2 & H3 & H4).
      exists extra, answers', failed. rewrite Hlen in H3, H4, Hkeep. rewrite Hsplit in *. split_and!; [done | done | done | |].
      * eapply Forall_impl; [| exact H3]. cbn. intros d Hd. lia.
      * intros Hf d Hd Hl. destruct (Hkeep d Hd Hl) as [[_ ?]|Hl']; [done | by apply H4].
Qed.

(** The calls that make a directory: its parents with mode 0755, itself with its
    own. *)
Definition makes (path : bytes) (mode : Z) (c : mkdir_call) : Prop := c = MkdirCall path mode \/ parent_of path c.

Lemma mkdir_p_ok no_memory mem path mode answers : path <> [] ->
  exists calls failed, mkdir_p no_memory mem path mode answers = CRet (calls, failed) /\ Forall (makes path mode) calls /\ outside_in calls /\
    (failed = None -> forall c, makes path mode c -> c ∈ calls).
Proof.
  intros Hp. unfold mkdir_p. destruct mem; cbn [negb].
  2: { eexists _, _. split; [reflexivity |]. split_and!; [constructor | constructor | done]. }
  destruct path as [|c rest]; [done |]. destruct (mkdir_parents_ok rest [c] answers [] ltac:(done)) as (extra & answers' & failed & -> & H1 & H2 & H3 & H4).
  cbn [app] in *. assert (Hm : Forall (makes (c :: rest) mode) extra) by (eapply Forall_impl; [| exact H1]; by right).
  destruct failed as [why|]; [by eexists _, _; split_and! |]. eexists _, _. split; [reflexivity |]. split_and!.
  - apply Forall_app. split; [done |]. constructor; [by left | constructor].
  - unfold outside_in in *. clear H3 H4 Hm Hp. induction H2 as [|d extra Hs IH Hd]; [constructor; constructor |].
    apply Forall_cons_1 in H1 as [(_ & _ & r & Hr) H1]. cbn. constructor; [by apply IH |]. apply Forall_app. split; [done |].
    constructor; [| constructor]. cbn [mk_path]. rewrite Hr, length_app. cbn. lia.
  - intros _ d [->|Hd]; apply elem_of_app; [right; by left | left]. apply H4; [done | done |].
    destruct Hd as (_ & Hn & _). destruct (mk_path d); [done | cbn; lia].
Qed.

(** The directory of a file's path. *)
Definition dirname (path : bytes) : bytes := match strrchr "/" path with Some (before, _) => before | None => bytes_of "." end.

(** What [set_up] reports if it cannot. *)
Definition complains (line : bytes) : Prop := exists parts, line = complaint parts.

(** What [set_up] comes to. *)
Lemma set_up_ok no_memory path now pid mem answers opens : (- 2 ^ 63 <= now < 2 ^ 63)%Z -> (0 <= pid < 2 ^ 31)%Z ->
  exists calls r, let id := run_name now pid in let dir := dirname path ++ bytes_of "/.qwe/runs/" ++ id in
    set_up no_memory path now pid mem answers opens = CRet (calls, r) /\ pathless id /\
    (forall now' pid', (0 <= pid' < 2 ^ 31)%Z -> run_name now' pid' = id -> now' = now /\ pid' = pid) /\ Forall (makes dir 448) calls /\ outside_in calls /\
    match r with
    | inl line => complains line
    | inr p => pl_id p = id /\ pl_dir p = dir /\ pl_trace p = dir ++ bytes_of "/lifecycle.trace" /\
        result_path p = CRet (dir ++ bytes_of "/result.json") /\ opens = None /\ forall c, makes dir 448 c -> c ∈ calls
    end.
Proof.
  intros Hn Hp. destruct (run_id_ok now pid Hn Hp) as (E & Hpath). pose proof (fun now' pid' => run_name_inj now pid now' pid' Hp) as Hown.
  cbn zeta. set (id := run_name now pid) in *. set (dir := dirname path ++ bytes_of "/.qwe/runs/" ++ id). unfold set_up. fold (dirname path).
  destruct (alloc mem) as [have_dir mem1]. rewrite E. cstep. destruct (if have_dir then alloc mem1 else (false, mem1)) as [have mem2].
  destruct have; cbn [negb]; [| eexists [], _; split_and!; [reflexivity | done | done | constructor | constructor | by eexists]].
  assert (Hl : length dir = length (dirname path) + 11 + length id) by (subst dir; rewrite !length_app; change (length (bytes_of "/.qwe/runs/")) with 11; lia).
  rewrite qwe_xfmt_fits by (fold dir; lia). fold dir. cstep. destruct (alloc mem2) as [have_copy mem3].
  assert (Hne : dir <> []) by (intros E0; rewrite E0 in Hl; cbn in Hl; lia).
  destruct (mkdir_p_ok no_memory have_copy dir 448 answers Hne) as (calls & failed & -> & H1 & H2 & H3). cstep.
  destruct failed as [why|]; [by eexists _, _; split_and!; try done; eexists |].
  destruct (alloc mem3) as [have_trace mem4]. destruct have_trace; cbn [negb]; [| by eexists _, _; split_and!; try done; eexists].
  rewrite qwe_xfmt_fits by (rewrite length_app; change (length (bytes_of "/lifecycle.trace")) with 16; lia). cstep.
  destruct opens as [why|]; [by eexists _, _; split_and!; try done; eexists |].
  eexists _, _. split; [reflexivity |]. cbn [pl_id pl_dir pl_trace]. split_and!; try done; [| by apply H3].
  unfold result_path. cbn [pl_room pl_dir]. rewrite qwe_xfmt_fits by (change (length (bytes_of "/result.json")) with 12; lia). done.
Qed.

(** C25. A run has its own place, for every path, time and process: a directory under
    [.qwe/runs] beside the workflow whose name is the second and the process, as no
    other second and process has, and which cannot lead anywhere else; its parents
    are made before it, with mode 0755, and it with mode 0700 (each may exist
    already, and is then taken as it is); the paths of its trace and its result are
    in it, whole, in the room that was allocated.  Where it cannot be had, a line
    says so and the calls were only for it. *)
Theorem run_place no_memory path now pid mem answers opens : (- 2 ^ 63 <= now < 2 ^ 63)%Z -> (0 <= pid < 2 ^ 31)%Z ->
  exists calls r, let id := run_name now pid in let dir := dirname path ++ bytes_of "/.qwe/runs/" ++ id in
    set_up no_memory path now pid mem answers opens = CRet (calls, r) /\ pathless id /\
    (forall now' pid', (0 <= pid' < 2 ^ 31)%Z -> run_name now' pid' = id -> now' = now /\ pid' = pid) /\ Forall (makes dir 448) calls /\ outside_in calls /\
    match r with
    | inl line => complains line
    | inr p => pl_id p = id /\ pl_dir p = dir /\ pl_trace p = dir ++ bytes_of "/lifecycle.trace" /\
        result_path p = CRet (dir ++ bytes_of "/result.json") /\ opens = None /\ forall c, makes dir 448 c -> c ∈ calls
    end.
Proof. apply set_up_ok. Qed.

Lemma run_place_witness : exists calls r,
  let id := run_name 951827696 4242 in let dir := dirname (bytes_of "ci/wf.yaml") ++ bytes_of "/.qwe/runs/" ++ id in
    set_up [] (bytes_of "ci/wf.yaml") 951827696 4242 [] [Exists; Exists] None = CRet (calls, r) /\ pathless id /\
    (forall now' pid', (0 <= pid' < 2 ^ 31)%Z -> run_name now' pid' = id -> now' = 951827696%Z /\ pid' = 4242%Z) /\
    Forall (makes dir 448) calls /\ outside_in calls /\
    match r with
    | inl line => complains line
    | inr p => pl_id p = id /\ pl_dir p = dir /\ pl_trace p = dir ++ bytes_of "/lifecycle.trace" /\
        result_path p = CRet (dir ++ bytes_of "/result.json") /\ None = None :> option bytes /\ forall c, makes dir 448 c -> c ∈ calls
    end.
Proof. apply (run_place [] (bytes_of "ci/wf.yaml") 951827696 4242 [] [Exists; Exists] None); lia. Defined.

(** The calls of that run. *)
Example sample_calls : mk_path <$> match set_up [] (bytes_of "ci/wf.yaml") 951827696 4242 [] [Exists; Exists] None with CRet (calls, _) => calls | _ => [] end =
  bytes_of <$> ["ci"; "ci/.qwe"; "ci/.qwe/runs"; "ci/.qwe/runs/20000229T123456Z-4242"]%string.
Proof. vm_compute. reflexivity. Qed.

(** ** The grace period *)

(** It is never negative, and 10 seconds unless the variable is a whole number of
    milliseconds; a number that is written as one is taken for what it is. *)
Lemma grace_ok env : let '(ms, lines) := grace_of env in (0 <= ms < 2 ^ 63)%Z /\ (lines <> [] -> ms = 10000%Z).
Proof.
  unfold grace_of. destruct env as [s|]; [| done]. destruct (whole_number s) as [v|] eqn:E; [| done].
  destruct (Z.leb_spec 0 v); [| done]. split; [| done]. split; [done |].
  unfold whole_number in E. destruct (span_sign _) as [neg s']. destruct (span_digits s') as [[|c ds] rest]; [done |]. destruct rest; [| done].
  case_match eqn:Eb; [| done]. injection E as <-. apply andb_true_iff in Eb as [_ Eb]. by apply Z.ltb_lt in Eb.
Qed.

Example grace_words : grace_of (Some (bytes_of " +250")) = (250%Z, []) /\ fst (grace_of (Some (bytes_of "10s"))) = 10000%Z /\
  fst (grace_of (Some (bytes_of "99999999999999999999"))) = 10000%Z /\ fst (grace_of (Some (bytes_of "-1"))) = 10000%Z.
Proof. vm_compute. done. Qed.

(** ** The end *)

(** A run that was cancelled and whose result could not be written exits as failed,
    and its summary does not say that it was cancelled. *)
Lemma cancelled_called_success id dir trace why :
  exists lines, end_run (Place id dir (length dir + 32) trace) QWE_EXIT_CANCELLED true false false false why = CRet (lines, QWE_EXIT_FAILED, "success"%string).
Proof.
  unfold end_run, result_path. cbn [pl_room pl_dir]. rewrite qwe_xfmt_fits by (change (length (bytes_of "/result.json")) with 12; lia).
  by eexists.
Qed.
