(* ===== verification/Workflow.v ===== *)
(** * A run of a workflow, from its file to its exit code

    [qwe_run_workflow] of [src/kernel/workflow.c] as the composition of [Load],
    [Select], [Setup], [Run] and [Result]: what is loaded is selected from, set up,
    run and reported.  The lines printed, the exit code and the result file are what
    it leaves. *)

From Stdlib Require Import Ascii String NArith ZArith Lia.
From stdpp Require Import base sets list strings numbers.
From S2P Require Import Prelude Qwe Cstr Redact Fmt Trace Cbor Positions LuaCbor Yaml YamlSpec YamlOk YamlDoc LuaTable Lifecycle Result Job Jobs Engine EngineOk Send Run RunOk Select Validate ValidateOk Keyfile Tables Load Setup.

Open Scope nat_scope.
Open Scope list_scope.

(** What a run meets outside its event loop: the files it reads, and the answers of
    the system and the allocator. *)
Record outside := Outside {
  os_path_memory : bool; os_exists : bool; os_new_state : bool; os_workflow : reading; os_inventory : reading;
  os_jobs_mem : list bool;
  os_select_mem : list bool;
  os_now : Z; os_pid : Z; os_setup_mem : list bool; os_dirs : list mkdir_result; os_trace : option bytes;
  os_clock : timespec; os_grace : option bytes;
  os_realpath : option bytes; (* of the run's directory *)
  os_opened : bool; os_failed : bool; os_closed : bool; os_why : bytes; (* the result file *)
  os_report_mem : list bool;
}.

(** What is left at the end: the lines on stderr apart from the jobs', the exit code,
    the result file if it was opened, with its text if that was written whole, and what
    a summary would call the run. *)
Record over := Over { ov_lines : list bytes; ov_code : Z; ov_result : option (bytes * option bytes); ov_outcome : option string }.

Definition refused (lines : list bytes) : over := Over lines QWE_EXIT_USAGE None None.

Section workflow.
Context `{numbers : LuaNumbers} (libyaml : bytes -> nat -> attempt) (cbor_error_string : CborError -> bytes) (no_memory : bytes) (md : modules).
Context {W : Type} (env : environment W).

(** [--job], if it was given. *)
Definition select_if (mem : list bool) (jobs : list job) (ids : list string) : cres selection :=
  match ids with [] => mret (Selected jobs) | _ => select_jobs mem jobs ids end.

Definition start_ctx (w : W) (debug : bool) (o : outside) (p : place) : ctx W :=
  Ctx w (ns_of (os_clock o)) (Trace (Some []) debug (os_clock o) None (-1)) [] false (SecretSet [] 0) [] (fst (grace_of (os_grace o)))
    (string_of (pl_id p)) (string_of (pl_dir p)) (string_of (default (pl_dir p) (os_realpath o))).

(** [None]: the event loop has not ended after [fuel] turns. *)
Definition qwe_run_workflow (fuel : nat) (path : bytes) (inventory : option bytes) (ids : list string) (debug : bool) (o : outside) (w : W) :
    cres (option over * option (sys W)) :=
  '(lines, r) ← load_run libyaml cbor_error_string no_memory md path inventory (os_path_memory o) (os_exists o) (os_new_state o) (os_workflow o) (os_inventory o) (os_jobs_mem o);
  match r with
  | None => mret (Some (refused lines), None)
  | Some (jobs, limit) =>
      sel ← select_if (os_select_mem o) jobs ids;
      match sel with
      | SelectNoMemory => mret (Some (refused (lines ++ [complaint [bytes_of "--job: out of memory"]])), None)
      | NoSuchJob id => mret (Some (refused (lines ++ [complaint [bytes_of "--job "; bytes_of id; bytes_of ": the workflow has no such job"]])), None)
      | Selected jobs =>
          '(_, r) ← set_up no_memory path (os_now o) (os_pid o) (os_setup_mem o) (os_dirs o) (os_trace o);
          match r with
          | inl line => mret (Some (refused (lines ++ [line])), None)
          | inr p =>
              let lines := lines ++ snd (grace_of (os_grace o)) in
              '(r, y) ← run_jobs env fuel limit (Sys jobs (start_ctx w debug o p));
              match r with
              | None => mret (None, Some y)
              | Some (rc, results) =>
                  '(text, wrote) ← qwe_result_write (os_failed o) (string_of (pl_id p)) results;
                  path ← result_path p;
                  '(more, code, outcome) ← end_run p rc (forallb job_ok (y_jobs y)) (os_opened o) (wrote =? 0)%Z (os_closed o) (os_why o);
                  let whole := (wrote =? 0)%Z && os_closed o in
                  let note := match report_disabled (os_report_mem o) (y_jobs y) with Some line => [line] | None => [] end in
                  mret (Some (Over (lines ++ more ++ note) code (if os_opened o then Some (path, if whole then Some text else None) else None) (Some outcome)), Some y)
              end
          end
      end
  end.
End workflow.

(** ** What a run leaves *)

Section ends.
Context `{numbers : LuaNumbers} (libyaml : bytes -> nat -> attempt) (cbor_error_string : CborError -> bytes) (no_memory : bytes) (md : modules).
Context (libyaml_ends : forall text k, existsb final (at_results (libyaml text k)) = true).
Context (schema : forall used v dir plugins, md_validate_project md used v dir = inr ([], plugins) -> shaped v = true).
Context {W : Type} (env : environment W) (sessions : sessions_ok env).

Lemma load_run_ok path inventory path_memory exists_ new_state wf inv mem :
  exists lines r, load_run libyaml cbor_error_string no_memory md path inventory path_memory exists_ new_state wf inv mem = CRet (lines, r) /\
    match r with Some (jobs, limit) => (exists v, loaded libyaml wf v) /\ startable env jobs limit | None => True end.
Proof.
  unfold load_run. destruct (load_workflow_ok libyaml cbor_error_string no_memory md libyaml_ends schema (bytes_of "qwe run") path inventory path_memory exists_ new_state wf inv)
    as (lines & r & -> & Hr). cstep. destruct r as [[v used]|]; [| by eexists _, None].
  destruct (loaded_runs libyaml env wf v mem sessions (proj2 Hr)) as (entries & jobs & limit & -> & Ej & Elim & _ & Hst). cstep. rewrite Ej. cstep. rewrite Elim. cstep.
  eexists _, _. split; [reflexivity |]. destruct jobs as [jobs|]; [| done]. split; [exists v; apply Hr | by apply Hst].
Qed.

Lemma select_if_ok mem jobs ids limit : startable env jobs limit ->
  exists sel, select_if mem jobs ids = CRet sel /\ match sel with Selected kept => startable env kept limit | _ => True end.
Proof.
  intros H. unfold select_if. destruct ids as [|id ids]; [by eexists |].
  destruct (select_ok env limit mem jobs (id :: ids) H) as (r & -> & Hr). exists r. split; [done |]. destruct r; tauto.
Qed.

(** The exit code of a run that was. *)
Definition verdict (wrote cancelled : bool) (jobs : list job) : Z :=
  if negb wrote then QWE_EXIT_FAILED
  else if cancelled then QWE_EXIT_CANCELLED
  else if decide (Forall (fun j => jb_state j = QWE_LC_SUCCESS \/ jb_state j = QWE_LC_SKIPPED) jobs) then QWE_EXIT_OK else QWE_EXIT_FAILED.

(** What is true of a run that is over. *)
Definition ran_to_end (path : bytes) (o : outside) (end_ : over) (y : sys W) : Prop :=
  Forall (fun j => qwe_lc_state_is_final (jb_state j) = true /\ finished j) (y_jobs y) /\
  ov_code end_ = verdict (os_opened o && negb (os_failed o) && os_closed o) (x_cancel (y_ctx y)) (y_jobs y) /\
  (exists v, loaded libyaml (os_workflow o) v) /\
  exists id text, pathless id /\ qwe_result_write (os_failed o) (string_of id) (map job_result (y_jobs y)) = CRet (text, if os_failed o then (-1)%Z else 0%Z) /\
    ov_result end_ = if os_opened o then Some (dirname path ++ bytes_of "/.qwe/runs/" ++ id ++ bytes_of "/result.json", if negb (os_failed o) && os_closed o then Some text else None) else None.

(** C5. A whole run, from the file to the exit code.  Whatever the files hold, the
    system, the scripts and the allocator answer and however many turns the loop is
    given: it never goes wrong; it exits with 2, having run nothing and written no
    result, where something is missing before the run; otherwise the workflow was
    sound, and when the loop has ended every job has ended and the exit code is 0
    exactly when no cancel was asked for, every job succeeded or was skipped and the
    result file was written, 130 when it was cancelled and the file written, and 1
    for the rest; the file is in the run's directory and, if it was written,
    holds what the jobs came to. *)
Theorem workflow_exits fuel path inventory ids debug o w : (- 2 ^ 63 <= os_now o < 2 ^ 63)%Z -> (0 <= os_pid o < 2 ^ 31)%Z ->
  exists e y, qwe_run_workflow libyaml cbor_error_string no_memory md env fuel path inventory ids debug o w = CRet (e, y) /\
    match e, y with
    | Some e, None => e = refused (ov_lines e)
    | Some e, Some y => ran_to_end path o e y
    | None, Some y => Forall inv (y_jobs y)
    | None, None => False
    end.
Proof.
  intros Hn Hp. unfold qwe_run_workflow.
  destruct (load_run_ok path inventory (os_path_memory o) (os_exists o) (os_new_state o) (os_workflow o) (os_inventory o) (os_jobs_mem o)) as (lines & r & -> & Hr).
  cstep. destruct r as [[jobs limit]|]; [| by eexists _, None]. destruct Hr as [Hload Hst].
  destruct (select_if_ok (os_select_mem o) jobs ids limit Hst) as (sel & -> & Hsel). cstep. destruct sel as [kept|id|]; [| by eexists _, None | by eexists _, None].
  destruct (set_up_ok no_memory path (os_now o) (os_pid o) (os_setup_mem o) (os_dirs o) (os_trace o) Hn Hp) as (calls & r & Eset & Hid & _ & _ & _ & Hr).
  rewrite Eset. cstep. destruct r as [line|p]; [by eexists _, None |]. destruct Hr as (Eid & Edir & _ & Epath & _ & _).
  destruct (run_outcome env fuel kept limit (start_ctx w debug o p) Hsel) as (r & y & E & Hend). rewrite E. cstep.
  destruct r as [[rc results]|]; [| eexists None, (Some y); split; [reflexivity |] ].
  2: { destruct (run_total env fuel kept limit (start_ctx w debug o p) Hsel) as (mp & r & y' & _ & E' & [_ P _ _]). rewrite E in E'. by injection E' as _ <-. }
  destruct (Hend rc results eq_refl) as (Hfin & -> & _ & Hwrite & Hcode). destruct (Hwrite (os_failed o) (string_of (pl_id p))) as [text Et].
  rewrite Et. cstep. unfold end_run. rewrite Epath. cstep. eexists _, (Some y). split; [reflexivity |].
  split; [done |]. cbn [ov_code ov_result]. split_and!; [| done |].
  - rewrite Hcode. unfold verdict. by destruct (os_failed o), (os_opened o), (os_closed o).
  - exists (run_name (os_now o) (os_pid o)), text. rewrite <- Eid at 2. split_and!; [done | done |]. rewrite <- !app_assoc. by destruct (os_failed o).
Qed.
End ends.

(** The workflow of [SampleFile] in the environment of [Sample]. *)
Definition sample_outside : outside :=
  Outside true false true SampleFile.file SampleFile.file [] [] 951827696 4242 [] [Exists] None (Timespec 7 0) (Some (bytes_of "250")) None true false true [] [].

#[local] Existing Instance SampleFile.numbers.

(** What it leaves. *)
Definition sample_end (ids : list string) (o : outside) : option (Z * option bytes * option string) :=
  match qwe_run_workflow SampleFile.libyaml (fun _ => []) [] SampleFile.md Sample.env 10 (bytes_of "ci/w.yaml") None ids false o 0 with
  | CRet (Some e, _) => Some (ov_code e, fst <$> ov_result e, ov_outcome e)
  | _ => None
  end.

Lemma workflow_exits_witness :
  sample_end [] sample_outside = Some (0%Z, Some (bytes_of "ci/.qwe/runs/20000229T123456Z-4242/result.json"), Some "success"%string) /\
  sample_end ["nobody"%string] sample_outside = Some (2%Z, None, None) /\
  exists e y, qwe_run_workflow SampleFile.libyaml (fun _ => []) [] SampleFile.md Sample.env 10 (bytes_of "ci/w.yaml") None [] false sample_outside 0 = CRet (e, y) /\
    match e, y with
    | Some e, None => e = refused (ov_lines e)
    | Some e, Some y => ran_to_end SampleFile.libyaml (bytes_of "ci/w.yaml") sample_outside e y
    | None, Some y => Forall inv (y_jobs y)
    | None, None => False
    end.
Proof.
  split; [vm_compute; reflexivity |]. split; [vm_compute; reflexivity |]. destruct Sample.sample_startable as [Hs _ _ _].
  apply (workflow_exits SampleFile.libyaml (fun _ => []) [] SampleFile.md SampleFile.libyaml_ends SampleFile.schema Sample.env Hs 10
    (bytes_of "ci/w.yaml") None [] false sample_outside 0); cbn; lia.
Defined.
