(* ===== verification/Own.v ===== *)
(** * Buffers that Lua owns

    Models [src/kernel/luaown.c]: how a block of C memory is handed to Lua before a
    call that can raise, so that a raise does not lose it.  A userdata holds the block
    and its metatable's [__gc] frees it.  The heap of C, the userdata, the two
    metatables and the stack are the state; a call of Lua that can raise takes its
    answer from a list.  Freeing a block twice, and reading one that is gone or is
    too short, is undefined. *)

From Stdlib Require Import Ascii String NArith ZArith Lia.
From stdpp Require Import base gmap fin_maps sets list strings numbers relations.
From S2P Require Import Prelude.

Open Scope nat_scope.
Open Scope list_scope.

(** ** The state *)

(** A block of C memory: bytes, or pointers to other blocks. *)
Inductive block := Bytes (b : bytes) | Array (ps : list nat).

(** [struct qwe_owned] and [struct qwe_owned_strv]; [None] is NULL. *)
Inductive cell := Owned (p : option nat) | OwnedStrv (v : option nat) (n : nat).

(** A userdata; [u_gc]: it has a metatable with [__gc]. *)
Record userdata := Userdata { u_cell : cell; u_gc : bool }.

Inductive value := Wrapper (u : nat) | Text (b : bytes) | Other.

(** [lu_owned], [lu_strv]: the metatable of the name in the registry, if it is there,
    and whether it has its [__gc]. *)
Record lua := Lua {
  lu_heap : gmap nat block;
  lu_data : gmap nat userdata;
  lu_owned : option bool;
  lu_strv : option bool;
  lu_stack : list value;
  lu_answers : list bool;
}.
#[export] Instance eta_lua : Eta lua := fun s => Lua (lu_heap s) (lu_data s) (lu_owned s) (lu_strv s) (lu_stack s) (lu_answers s).

(** What a call comes to: a result, a raise, undefined behaviour. *)
Inductive lres (A : Type) := Done (a : A) (s : lua) | Raised (s : lua) | Undef.
Arguments Done {A} a s.
Arguments Raised {A} s.
Arguments Undef {A}.

Definition L (A : Type) : Type := lua -> lres A.
#[export] Instance L_ret : MRet L := fun A a s => Done a s.
#[export] Instance L_bind : MBind L := fun A B k m s => match m s with Done a s => k a s | Raised s => Raised s | Undef => Undef end.

Definition act {A} (f : lua -> lres A) : L A := f.

Definition may_raise : L unit := fun s =>
  match lu_answers s with
  | [] => Done tt s
  | true :: l => Done tt (s <| lu_answers := l |>)
  | false :: l => Raised (s <| lu_answers := l |>)
  end.

Definition free (p : option nat) : L unit := fun s =>
  match p with
  | None => Done tt s
  | Some p => if decide (p ∈ dom (lu_heap s)) then Done tt (s <| lu_heap := delete p (lu_heap s) |>) else Undef
  end.

Definition push (v : value) : L unit := fun s => Done tt (s <| lu_stack := lu_stack s ++ [v] |>).

(** Indices count from 1. *)
Definition lua_gettop : L nat := fun s => Done (length (lu_stack s)) s.

Definition lua_touserdata (idx : nat) : L (nat * userdata) := fun s =>
  match lu_stack s !! (idx - 1) with
  | Some (Wrapper u) => match lu_data s !! u with Some o => Done (u, o) s | None => Undef end
  | _ => Undef
  end.

Definition set_cell (u : nat) (c : cell) : L unit := fun s =>
  match lu_data s !! u with Some o => Done tt (s <| lu_data := <[u := Userdata c (u_gc o)]> (lu_data s) |>) | None => Undef end.

(** [lua_newuserdata], with what is then stored in it. *)
Definition lua_newuserdata (c : cell) : L nat :=
  may_raise;;
  act (fun s => let u := fresh (dom (lu_data s)) in Done u (s <| lu_data := <[u := Userdata c false]> (lu_data s) |> <| lu_stack := lu_stack s ++ [Wrapper u] |>)).

Definition lua_setmetatable (u : nat) (gc : bool) : L unit := fun s =>
  match lu_data s !! u with Some o => Done tt (s <| lu_data := <[u := Userdata (u_cell o) gc]> (lu_data s) |>) | None => Undef end.

(** ** The operations *)

(** [luaL_newmetatable] with the function behind it; it is in the registry from then
    on, also where what follows raises. *)
Definition newmetatable (get : lua -> option bool) (set : bool -> lua -> lua) : L bool :=
  may_raise;;
  registered ← act (fun s => Done (get s) s);
  match registered with
  | Some gc => mret gc
  | None =>
      act (fun s => Done tt (set false s));;
      may_raise;;                               (* lua_pushcfunction *)
      may_raise;;                               (* lua_setfield *)
      act (fun s => Done true (set true s))
  end.

Definition newmetatable_owned : L bool := newmetatable lu_owned (fun gc s => s <| lu_owned := Some gc |>).
Definition newmetatable_strv : L bool := newmetatable lu_strv (fun gc s => s <| lu_strv := Some gc |>).

Definition own_with (c : cell) (metatable : L bool) : L nat :=
  u ← lua_newuserdata c;
  gc ← metatable;
  lua_setmetatable u gc;;
  lua_gettop.

Definition own_block (p : option nat) : L nat := own_with (Owned p) newmetatable_owned.

Definition qwe_lua_own : option nat -> L nat := own_block.
Definition qwe_lua_own_block : option nat -> L nat := own_block.

Definition qwe_lua_own_take (idx : nat) : L (option nat) :=
  '(u, o) ← lua_touserdata idx;
  match u_cell o with
  | Owned p => set_cell u (Owned None);; mret p
  | OwnedStrv _ _ => act (fun _ => Undef)
  end.

(** [lua_pushlstring] of [len] bytes at [p]. *)
Definition lua_pushlstring (p : option nat) (len : nat) : L unit := fun s =>
  match p with
  | None => if len =? 0 then (may_raise;; push (Text [])) s else Undef
  | Some p =>
      match lu_heap s !! p with
      | Some (Bytes b) => if len <=? length b then (may_raise;; push (Text (take len b))) s else Undef
      | _ => Undef
      end
  end.

(** [lua_replace]: the top becomes the value at [idx]. *)
Definition lua_replace (idx : nat) : L unit := fun s =>
  match last (lu_stack s) with
  | Some v => Done tt (s <| lu_stack := removelast (<[idx - 1 := v]> (lu_stack s)) |>)
  | None => Undef
  end.

Definition qwe_lua_own_finish (idx len : nat) : L unit :=
  '(_, o) ← lua_touserdata idx;
  match u_cell o with
  | Owned p => lua_pushlstring p len;; lua_replace idx
  | OwnedStrv _ _ => act (fun _ => Undef)
  end.

Definition qwe_lua_own_pushlstring (p : option nat) (len : nat) : L unit :=
  idx ← qwe_lua_own p;
  qwe_lua_own_finish idx len.

Definition free_all : list nat -> L unit := foldr (fun p rest => free (Some p);; rest) (mret tt).

(** [free_strv], on what the userdata holds. *)
Definition free_strv (v : option nat) (n : nat) : L unit := fun s =>
  match v with
  | None => Done tt s
  | Some a =>
      match lu_heap s !! a with
      | Some (Array ps) => if n <=? length ps then (free_all (take n ps);; free (Some a)) s else Undef
      | _ => Undef
      end
  end.

Definition qwe_lua_own_strv (v : option nat) (n : nat) : L nat := own_with (OwnedStrv v n) newmetatable_strv.

Definition qwe_lua_own_strv_release (idx : nat) : L unit :=
  '(u, o) ← lua_touserdata idx;
  match u_cell o with
  | OwnedStrv v n => free_strv v n;; set_cell u (OwnedStrv None n)
  | Owned _ => act (fun _ => Undef)
  end.

(** [owned_gc] or [owned_strv_gc], as the collector calls it. *)
Definition finalize (c : cell) : L unit :=
  match c with Owned p => free p | OwnedStrv v n => free_strv v n end.

(** A userdata is collected. *)
Definition collect (u : nat) : L unit := fun s =>
  match lu_data s !! u with
  | None => Undef
  | Some o => ((if u_gc o then finalize (u_cell o) else mret tt);; act (fun s => Done tt (s <| lu_data := delete u (lu_data s) |>))) s
  end.

Fixpoint collect_all (us : list nat) : L unit :=
  match us with [] => mret tt | u :: us => collect u;; collect_all us end.

(** Every userdata goes, and the stack. *)
Definition lua_close : L unit := fun s => collect_all (map_to_list (lu_data s)).*1 (s <| lu_stack := [] |>).

(** ** What C does with it *)

(** The blocks a cell stands for. *)
Definition owns (h : gmap nat block) (c : cell) : list nat :=
  match c with
  | Owned p => option_list p
  | OwnedStrv None _ => []
  | OwnedStrv (Some a) n => match h !! a with Some (Array ps) => take n ps ++ [a] | _ => [] end
  end.

(** The blocks C holds and has to free, and those it lost by a raise. *)
Record client := Client { cl_lua : lua; cl_held : gset nat; cl_lost : gset nat }.

(** What C may do between two moments: allocate, write and free what it holds, hand what it
    holds to Lua, take it back, push it, release it, move the values of the stack;
    and what may happen to it: a raise unwinds it, the collector takes what nothing
    on the stack refers to. *)
Inductive step : client -> client -> Prop :=
| StMalloc s c l p b : p ∉ dom (lu_heap s) -> step (Client s c l) (Client (s <| lu_heap := <[p := b]> (lu_heap s) |>) ({[p]} ∪ c) l)
| StWrite s c l p b : p ∈ c -> step (Client s c l) (Client (s <| lu_heap := <[p := b]> (lu_heap s) |>) c l)
| StFree s s' c l p : p ∈ c -> free (Some p) s = Done tt s' -> step (Client s c l) (Client s' (c ∖ {[p]}) l)
| StOwn s s' c l p idx : (forall q, p = Some q -> q ∈ c) -> own_block p s = Done idx s' ->
    step (Client s c l) (Client s' (c ∖ list_to_set (option_list p)) l)
| StOwnRaised s s' c l p : (forall q, p = Some q -> q ∈ c) -> own_block p s = Raised s' -> step (Client s c l) (Client s' ∅ (l ∪ c))
| StTake s s' c l idx p : qwe_lua_own_take idx s = Done p s' -> step (Client s c l) (Client s' (c ∪ list_to_set (option_list p)) l)
| StFinish s s' c l idx len : qwe_lua_own_finish idx len s = Done tt s' -> step (Client s c l) (Client s' c l)
| StFinishRaised s s' c l idx len : qwe_lua_own_finish idx len s = Raised s' -> step (Client s c l) (Client s' ∅ (l ∪ c))
| StStrv s s' c l a ps idx : lu_heap s !! a = Some (Array ps) -> NoDup (ps ++ [a]) -> (forall q, q ∈ ps ++ [a] -> q ∈ c) ->
    qwe_lua_own_strv (Some a) (length ps) s = Done idx s' -> step (Client s c l) (Client s' (c ∖ list_to_set (ps ++ [a])) l)
| StStrvRaised s s' c l a ps : lu_heap s !! a = Some (Array ps) -> NoDup (ps ++ [a]) -> (forall q, q ∈ ps ++ [a] -> q ∈ c) ->
    qwe_lua_own_strv (Some a) (length ps) s = Raised s' -> step (Client s c l) (Client s' ∅ (l ∪ c))
| StRelease s s' c l idx : qwe_lua_own_strv_release idx s = Done tt s' -> step (Client s c l) (Client s' c l)
| StStack s c l st : (forall u, Wrapper u ∈ st -> u ∈ dom (lu_data s)) -> step (Client s c l) (Client (s <| lu_stack := st |>) c l)
| StRaise s c l : step (Client s c l) (Client s ∅ (l ∪ c))
| StCollect s s' c l u : Wrapper u ∉ lu_stack s -> collect u s = Done tt s' -> step (Client s c l) (Client s' c l).

Definition start (answers : list bool) : client := Client (Lua ∅ ∅ None None [] answers) ∅ ∅.

(** ** Each block has one holder *)

Definition shaped (h : gmap nat block) (c : cell) : Prop :=
  match c with OwnedStrv (Some a) n => exists ps, h !! a = Some (Array ps) /\ n <= length ps | _ => True end.

Record well (h : gmap nat block) (d : gmap nat userdata) (c : gset nat) : Prop := Well {
  w_held : forall p, p ∈ c -> p ∈ dom h;
  w_cell : forall u o, d !! u = Some o -> shaped h (u_cell o) /\ NoDup (owns h (u_cell o)) /\ forall p, p ∈ owns h (u_cell o) -> p ∈ dom h /\ p ∉ c;
  w_one : forall u u' o o' p, d !! u = Some o -> d !! u' = Some o' -> p ∈ owns h (u_cell o) -> p ∈ owns h (u_cell o') -> u = u';
}.

Lemma owns_frame h h' c : shaped h c -> (forall p, p ∈ owns h c -> h' !! p = h !! p) -> owns h' c = owns h c /\ shaped h' c.
Proof.
  destruct c as [|[a|] n]; [done | | done]. cbn. intros (ps & E & Hn). rewrite E. intros H.
  assert (E' : h' !! a = Some (Array ps)) by (rewrite <- E; apply H; set_solver). rewrite E'. split; [done | by exists ps].
Qed.

Lemma well_free h d c p : well h d c -> p ∈ c -> well (delete p h) d (c ∖ {[p]}) /\ forall u o, d !! u = Some o -> owns (delete p h) (u_cell o) = owns h (u_cell o).
Proof.
  intros [W1 W2 W3] Hp.
  assert (F : forall u o, d !! u = Some o -> owns (delete p h) (u_cell o) = owns h (u_cell o) /\ shaped (delete p h) (u_cell o)).
  { intros u o E. destruct (W2 u o E) as (Hs & _ & Hd). apply owns_frame; [done |]. intros q Hq. rewrite lookup_delete_ne; [done |]. intros ->. by apply (Hd _ Hq). }
  split; [| intros u o E; apply (F u o E)]. split.
  - intros q Hq. set_solver.
  - intros u o E. destruct (F u o E) as [Eo Hs], (W2 u o E) as (_ & Hn & Hd). rewrite Eo. split_and!; [done | done |]. intros q Hq. specialize (Hd q Hq). set_solver.
  - intros u u' o o' q E E'. rewrite (proj1 (F u o E)), (proj1 (F u' o' E')). eauto.
Qed.

Lemma well_malloc h d c p b : well h d c -> p ∉ dom h -> well (<[p := b]> h) d ({[p]} ∪ c) /\ forall u o, d !! u = Some o -> owns (<[p := b]> h) (u_cell o) = owns h (u_cell o).
Proof.
  intros [W1 W2 W3] Hp.
  assert (F : forall u o, d !! u = Some o -> owns (<[p := b]> h) (u_cell o) = owns h (u_cell o) /\ shaped (<[p := b]> h) (u_cell o)).
  { intros u o E. destruct (W2 u o E) as (Hs & _ & Hd). apply owns_frame; [done |]. intros q Hq. rewrite lookup_insert_ne; [done |]. intros ->. by apply Hp, Hd. }
  split; [| intros u o E; apply (F u o E)]. split.
  - intros q Hq. rewrite dom_insert. set_solver.
  - intros u o E. destruct (F u o E) as [Eo Hs], (W2 u o E) as (_ & Hn & Hd). rewrite Eo. split_and!; [done | done |]. intros q Hq.
    destruct (Hd q Hq). rewrite dom_insert. set_solver.
  - intros u u' o o' q E E'. rewrite (proj1 (F u o E)), (proj1 (F u' o' E')). eauto.
Qed.

Lemma well_write h d c p b : well h d c -> p ∈ c -> well (<[p := b]> h) d c /\ forall u o, d !! u = Some o -> owns (<[p := b]> h) (u_cell o) = owns h (u_cell o).
Proof.
  intros [W1 W2 W3] Hp.
  assert (F : forall u o, d !! u = Some o -> owns (<[p := b]> h) (u_cell o) = owns h (u_cell o) /\ shaped (<[p := b]> h) (u_cell o)).
  { intros u o E. destruct (W2 u o E) as (Hs & _ & Hd). apply owns_frame; [done |]. intros q Hq. rewrite lookup_insert_ne; [done |]. intros ->. by apply (Hd _ Hq). }
  split; [| intros u o E; apply (F u o E)]. split.
  - intros q Hq. rewrite dom_insert. set_solver.
  - intros u o E. destruct (F u o E) as [Eo Hs], (W2 u o E) as (_ & Hn & Hd). rewrite Eo. split_and!; [done | done |]. intros q Hq.
    destruct (Hd q Hq). rewrite dom_insert. set_solver.
  - intros u u' o o' q E E'. rewrite (proj1 (F u o E)), (proj1 (F u' o' E')). eauto.
Qed.

(** A cell at [u] takes blocks from C, where it had none. *)
Lemma well_give h d c u o : well h d c -> (forall o, d !! u = Some o -> owns h (u_cell o) = []) -> shaped h (u_cell o) -> NoDup (owns h (u_cell o)) ->
  (forall p, p ∈ owns h (u_cell o) -> p ∈ c) -> well h (<[u := o]> d) (c ∖ list_to_set (owns h (u_cell o))).
Proof.
  intros [W1 W2 W3] H0 Hs Hn Hc. split.
  - set_solver.
  - intros u' o' E. destruct (decide (u' = u)) as [->|Hu].
    + rewrite lookup_insert_eq in E. injection E as <-. split_and!; [done | done |]. intros p Hp. specialize (Hc p Hp). set_solver.
    + rewrite lookup_insert_ne in E by done. destruct (W2 u' o' E) as (? & ? & Hd). split_and!; [done | done |]. intros p Hp. specialize (Hd p Hp). set_solver.
  - assert (N : forall v o' p, v <> u -> d !! v = Some o' -> p ∈ owns h (u_cell o') -> p ∉ owns h (u_cell o)).
    { intros v o' p Hv E Hp Hp'. by apply (W2 v o' E) in Hp as [_ []]; apply Hc. }
    intros v v' o1 o2 p E1 E2 H1 H2. destruct (decide (v = u)) as [->|Hv], (decide (v' = u)) as [->|Hv']; [done | | |].
    + rewrite lookup_insert_eq in E1. rewrite lookup_insert_ne in E2 by done. injection E1 as <-. by destruct (N v' o2 p Hv' E2 H2).
    + rewrite lookup_insert_eq in E2. rewrite lookup_insert_ne in E1 by done. injection E2 as <-. by destruct (N v o1 p Hv E1 H1).
    + rewrite lookup_insert_ne in E1, E2 by done. eauto.
Qed.

(** A cell gives its blocks back to C; the userdata stays, empty, or goes. *)
Lemma well_back h d c u o : well h d c -> d !! u = Some o -> well h (delete u d) (c ∪ list_to_set (owns h (u_cell o))).
Proof.
  intros [W1 W2 W3] E. destruct (W2 u o E) as (_ & _ & Hd). split.
  - intros p [Hp|Hp]%elem_of_union; [by apply W1 | apply Hd; set_solver].
  - intros u' o' [Hu E']%lookup_delete_Some. destruct (W2 u' o' E') as (? & ? & Hd'). split_and!; [done | done |]. intros p Hp. split; [by apply Hd' |].
    rewrite elem_of_union, elem_of_list_to_set. intros [Hc|Ho]; [by apply (Hd' p Hp) | by apply Hu, (W3 u u' o o' p)].
  - intros v v' o1 o2 p [_ E1]%lookup_delete_Some [_ E2]%lookup_delete_Some. eauto.
Qed.

Lemma well_drop h d c u : well h d c -> well h (delete u d) c.
Proof.
  intros [W1 W2 W3]. split; [done | |].
  - intros u' o' [_ E']%lookup_delete_Some. eauto.
  - intros v v' o1 o2 p [_ E1]%lookup_delete_Some [_ E2]%lookup_delete_Some. eauto.
Qed.

Lemma well_flag h d c u o gc : well h d c -> d !! u = Some o -> well h (<[u := Userdata (u_cell o) gc]> d) c.
Proof.
  intros [W1 W2 W3] E.
  assert (F : forall v o', <[u := Userdata (u_cell o) gc]> d !! v = Some o' -> exists o'', d !! v = Some o'' /\ u_cell o'' = u_cell o').
  { intros v o' E'. destruct (decide (v = u)) as [->|]; [rewrite lookup_insert_eq in E'; injection E' as <-; eauto | rewrite lookup_insert_ne in E' by done; eauto]. }
  split; [done | |].
  - intros v o' (o'' & E'' & <-)%F. eauto.
  - intros v v' o1 o2 p (o1' & E1 & <-)%F (o2' & E2 & <-)%F. eauto.
Qed.

(** What is held loses some members. *)
Lemma well_less h d c c' : well h d c -> c' ⊆ c -> well h d c'.
Proof. intros [W1 W2 W3] Hc. split; [set_solver | | done]. intros u o E. destruct (W2 u o E) as (? & ? & Hd). split_and!; [done | done |]. intros p Hp. specialize (Hd p Hp). set_solver. Qed.

(** ** What the operations do to the state *)

(** No metatable was left without its [__gc]. *)
Definition whole (s : lua) : Prop := lu_owned s <> Some false /\ lu_strv s <> Some false.

Definition same (s s' : lua) : Prop := lu_heap s' = lu_heap s /\ lu_data s' = lu_data s /\ lu_stack s' = lu_stack s.

Definition registered (s : lua) (r : lres bool) : Prop :=
  match r with
  | Done gc s' => same s s' /\ (whole s' -> gc = true /\ whole s)
  | Raised s' => same s s' /\ (whole s' -> whole s)
  | Undef => False
  end.

Lemma newmetatable_ok s : registered s (newmetatable_owned s) /\ registered s (newmetatable_strv s).
Proof.
  destruct s as [h d o v st m]. unfold newmetatable_owned, newmetatable_strv, newmetatable, mbind, L_bind.
  split; [destruct o as [[]|] | destruct v as [[]|]]; destruct m as [|[] [|[] [|[] m]]]; cbn; unfold same, whole; cbn; naive_solver.
Qed.

(** A cell is handed over, or a raise leaves it where nobody frees it. *)
Definition given (c : cell) (s : lua) (r : lres nat) : Prop :=
  match r with
  | Done idx s' => exists u gc, lu_heap s' = lu_heap s /\ (u ∉ dom (lu_data s)) /\ lu_data s' = <[u := Userdata c gc]> (lu_data s) /\
      lu_stack s' = lu_stack s ++ [Wrapper u] /\ idx = S (length (lu_stack s)) /\ (whole s' -> gc = true /\ whole s)
  | Raised s' => lu_heap s' = lu_heap s /\ (whole s' -> whole s) /\
      (lu_data s' = lu_data s /\ lu_stack s' = lu_stack s \/
       exists u, (u ∉ dom (lu_data s)) /\ lu_data s' = <[u := Userdata c false]> (lu_data s) /\ lu_stack s' = lu_stack s ++ [Wrapper u])
  | Undef => False
  end.

Lemma own_with_ok c f s : (forall s, registered s (f s)) -> given c s (own_with c f s).
Proof.
  intros Hf. unfold own_with, lua_newuserdata, mbind, L_bind.
  assert (Hu : forall m s, lu_data (s <| lu_answers := m |>) = lu_data s) by done.
  destruct (lu_answers s) as [|[] m] eqn:Em; unfold may_raise; rewrite Em; cbn.
  3: { split_and!; [done | done | by left]. }
  all: match goal with Hf : forall s, registered s (?f s) |- context [?f ?s1] => pose proof (Hf s1) as H; destruct (f s1) as [gc s2|s2|]; [| | done] end; cbn in H; unfold same in H; cbn in H;
    destruct H as [(Eh & Ed & Es) Hw].
  2, 4: split_and!; [done | by intros ?%Hw | right; eexists; split_and!; [apply is_fresh | done | done] ].
  all: unfold lua_setmetatable; rewrite Ed, lookup_insert_eq; cbn; eexists _, gc; split_and!;
    [done | apply is_fresh | by rewrite insert_insert_eq | done | rewrite Es, length_app; cbn; lia | done].
Qed.

Lemma free_all_app ps qs s : free_all (ps ++ qs) s = match free_all ps s with Done _ s => free_all qs s | Raised s => Raised s | Undef => Undef end.
Proof.
  revert s. induction ps as [|p ps IH]; intros s; [done |]. cbn [app free_all foldr]. unfold mbind, L_bind in *. destruct (free (Some p) s); [apply IH | done..].
Qed.

(** Blocks that C holds are freed: all of them, and nothing else changes. *)
Definition freed (ps : list nat) (s : lua) (d : gmap nat userdata) (c : gset nat) (r : lres unit) : Prop :=
  exists h, r = Done tt (s <| lu_heap := h |>) /\ well h d (c ∖ list_to_set ps) /\ (forall u o, d !! u = Some o -> owns h (u_cell o) = owns (lu_heap s) (u_cell o)) /\
    (forall p, p ∈ ps -> h !! p = None) /\ forall p, p ∉ ps -> h !! p = lu_heap s !! p.

Lemma free_all_ok d ps : forall s c, well (lu_heap s) d c -> NoDup ps -> (forall p, p ∈ ps -> p ∈ c) -> freed ps s d c (free_all ps s).
Proof.
  induction ps as [|p ps IH]; intros s c W Hn Hc.
  - exists (lu_heap s). split; [by destruct s |]. split; [eapply well_less; [exact W |]; set_solver | set_solver].
  - inversion Hn as [| ? ? Hp Hn']; subst. assert (Hpc : p ∈ c) by set_solver. cbn [free_all foldr]. unfold mbind, L_bind, free at 1.
    rewrite decide_True by (by apply (w_held _ _ _ W)). destruct (well_free _ _ _ p W Hpc) as [W' Ho'].
    set (s1 := s <| lu_heap := delete p (lu_heap s) |>). destruct (IH s1 (c ∖ {[p]}) W' Hn') as (h & -> & Wh & Ho & Hin & Hout); [set_solver |]. unfold s1 in *. cbn in *.
    exists h. split; [done |]. split_and!.
    + eapply well_less; [exact Wh |]. set_solver.
    + intros u o E. by rewrite (Ho u o E), (Ho' u o E).
    + intros q Hq. destruct (decide (q ∈ ps)); [auto |]. assert (q = p) as -> by set_solver. rewrite Hout by done. by rewrite lookup_delete_eq.
    + intros q Hq. rewrite Hout by set_solver. rewrite lookup_delete_ne; [done | set_solver].
Qed.

Lemma finalize_ok d cell s c : well (lu_heap s) d c -> shaped (lu_heap s) cell -> NoDup (owns (lu_heap s) cell) -> (forall p, p ∈ owns (lu_heap s) cell -> p ∈ c) ->
  freed (owns (lu_heap s) cell) s d c (finalize cell s).
Proof.
  intros W Hs Hn Hc. pose proof (free_all_ok d _ s c W Hn Hc) as H. destruct cell as [[p|]|[a|] n]; cbn [owns option_list shaped free_all foldr finalize] in *; [| exact H | | exact H].
  - change (freed [p] s d c ((free (Some p);; mret tt) s)) in H. change (freed [p] s d c (free (Some p) s)). unfold mbind, L_bind in H. destruct (free (Some p) s) as [[] ? | |]; exact H.
  - destruct Hs as (ps & E & Hlen). unfold free_strv. rewrite E in *. rewrite (proj2 (Nat.leb_le _ _) Hlen). rewrite free_all_app in H. unfold mbind, L_bind in *.
    destruct (free_all (take n ps) s) as [[] s1| |]; [| exact H..].
    change (freed (take n ps ++ [a]) s d c ((free (Some a);; mret tt) s1)) in H. unfold mbind, L_bind in H. destruct (free (Some a) s1) as [[] ? | |]; exact H.
Qed.

(** The state that C can rely on. *)
Record good (x : client) : Prop := Good {
  g_well : well (lu_heap (cl_lua x)) (lu_data (cl_lua x)) (cl_held x);
  g_stack : forall u, Wrapper u ∈ lu_stack (cl_lua x) -> u ∈ dom (lu_data (cl_lua x));
  g_all : whole (cl_lua x) -> forall p, p ∈ dom (lu_heap (cl_lua x)) -> p ∈ cl_held x \/ p ∈ cl_lost x \/
    exists u o, lu_data (cl_lua x) !! u = Some o /\ u_gc o = true /\ p ∈ owns (lu_heap (cl_lua x)) (u_cell o);
}.

Lemma gc_ok s c l u : good (Client s c l) -> u ∈ dom (lu_data s) -> Wrapper u ∉ lu_stack s ->
  exists s', collect u s = Done tt s' /\ good (Client s' c l) /\ lu_data s' = delete u (lu_data s) /\ lu_stack s' = lu_stack s /\ (whole s' <-> whole s) /\
    forall p, p ∈ c -> lu_heap s' !! p = lu_heap s !! p.
Proof.
  intros [W St A] [o E]%elem_of_dom Hu. cbn in *. unfold collect. rewrite E. destruct (w_cell _ _ _ W u o E) as (Hs & Hn & Hd).
  assert (St' : forall v, Wrapper v ∈ lu_stack s -> v ∈ dom (delete u (lu_data s))).
  { intros v Hv. rewrite dom_delete. apply elem_of_difference. split; [by apply St |]. intros ->%elem_of_singleton. done. }
  destruct (u_gc o) eqn:Eg.
  - destruct (finalize_ok (delete u (lu_data s)) (u_cell o) s (c ∪ list_to_set (owns (lu_heap s) (u_cell o)))) as (h & Ef & Wh & Ho & Hin & Hout);
      [by apply well_back | done | done | set_solver |].
    unfold mbind, L_bind. rewrite Ef. eexists. split; [reflexivity |]. cbn. split_and!; [| done | done | done |].
    + split; cbn; [eapply well_less; [exact Wh |]; set_solver | done |]. intros Hw p Hp.
      assert (Hpo : p ∉ owns (lu_heap s) (u_cell o)) by (intros Hp'; apply elem_of_dom in Hp as [b Hb]; by rewrite Hin in Hb).
      destruct (A Hw p) as [?|[?|(v & o' & E' & Hg & Hp')]]; [apply elem_of_dom; rewrite <- Hout by done; by apply elem_of_dom | by left | by right; left |].
      right. right. exists v, o'. assert (Hv : v <> u) by (intros ->; rewrite E in E'; by injection E' as <-). assert (E2 : delete u (lu_data s) !! v = Some o') by by rewrite lookup_delete_ne.
      split_and!; [done | done |]. by rewrite (Ho v o' E2).
    + intros p Hp. apply Hout. intros Hp'. by apply (Hd p Hp').
  - unfold mbind, L_bind. cbn. eexists. split; [reflexivity |]. cbn. split_and!; [| done | done | done | done].
    split; cbn; [by apply well_drop | done |]. intros Hw p Hp. destruct (A Hw p Hp) as [?|[?|(v & o' & E' & Hg & Hp')]]; [by left | by right; left |].
    right. right. exists v, o'. split_and!; [| done | done]. rewrite lookup_delete_ne; [done |]. intros ->. congruence.
Qed.

Lemma gc_all_ok us : forall s c l, good (Client s c l) -> NoDup us -> (forall u, u ∈ us <-> u ∈ dom (lu_data s)) -> lu_stack s = [] ->
  exists s', collect_all us s = Done tt s' /\ good (Client s' c l) /\ lu_data s' = ∅ /\ (whole s' <-> whole s) /\ forall p, p ∈ c -> lu_heap s' !! p = lu_heap s !! p.
Proof.
  induction us as [|u us IH]; intros s c l G Hn Hu Hst; cbn [collect_all].
  - exists s. split_and!; [done | done | | done | done]. apply dom_empty_inv_L. set_solver.
  - inversion Hn as [| ? ? Hu' Hn']; subst. destruct (gc_ok s c l u G) as (s1 & E1 & G1 & Ed & Es & Ew & Eh); [set_solver | rewrite Hst; set_solver |].
    unfold mbind, L_bind. rewrite E1. destruct (IH s1 c l G1 Hn') as (s' & -> & G' & Ed' & Ew' & Eh'); [rewrite Ed, dom_delete_L; set_solver | by rewrite Es |].
    exists s'. split_and!; [done | done | done | tauto |]. intros p Hp. by rewrite Eh', Eh.
Qed.

(** ** Every step keeps it *)

(** The same blocks and userdata, a stack without new ones. *)
Lemma good_same s s' c c' l l' : good (Client s c l) -> lu_heap s' = lu_heap s -> lu_data s' = lu_data s -> (whole s' -> whole s) ->
  (forall u, Wrapper u ∈ lu_stack s' -> u ∈ dom (lu_data s)) -> c' ⊆ c -> c ⊆ c' ∪ l' -> l ⊆ l' -> good (Client s' c' l').
Proof.
  intros [W St A] Eh Ed Hw Hs Hc Hc' Hl. cbn in *. split; cbn; rewrite ?Eh, ?Ed; [by eapply well_less | done |].
  intros Hw' p Hp. destruct (A (Hw Hw') p Hp) as [?|[?|?]]; [set_solver | set_solver | auto].
Qed.

Lemma given_good s s' c l cell idx : good (Client s c l) -> shaped (lu_heap s) cell -> NoDup (owns (lu_heap s) cell) -> (forall p, p ∈ owns (lu_heap s) cell -> p ∈ c) ->
  given cell s (Done idx s') -> good (Client s' (c ∖ list_to_set (owns (lu_heap s) cell)) l).
Proof.
  intros [W St A] Hs Hn Hc (u & gc & Eh & Hu & Ed & Es & _ & Hw). cbn in *. split; cbn; rewrite ?Eh, ?Ed, ?Es.
  - apply (well_give _ _ _ u (Userdata cell gc)); [done | | done..]. intros o E. by destruct Hu; apply elem_of_dom.
  - intros v [Hv|Hv%list_elem_of_singleton]%elem_of_app; rewrite dom_insert; [apply St in Hv; set_solver | injection Hv as ->; set_solver].
  - intros Hw' p Hp. destruct (Hw Hw') as [-> Hw0]. destruct (decide (p ∈ owns (lu_heap s) cell)) as [Hin|Hin].
    + right. right. exists u, (Userdata cell true). by rewrite lookup_insert_eq.
    + destruct (A Hw0 p Hp) as [?|[?|(v & o & E & Hg & Hpo)]]; [left; set_solver | by right; left |]. right. right. exists v, o. rewrite lookup_insert_ne; [done |].
      intros ->. by destruct Hu; apply elem_of_dom.
Qed.

Lemma given_raised_good s s' c l cell : good (Client s c l) -> shaped (lu_heap s) cell -> NoDup (owns (lu_heap s) cell) -> (forall p, p ∈ owns (lu_heap s) cell -> p ∈ c) ->
  given cell s (Raised s') -> good (Client s' ∅ (l ∪ c)).
Proof.
  intros G Hs Hn Hc (Eh & Hw & [[Ed Es]|(u & Hu & Ed & Es)]); destruct G as [W St A].
  - eapply (good_same s); [by split | done | done | done | cbn in *; by rewrite Es | set_solver..].
  - cbn in *. split; cbn; rewrite ?Eh, ?Ed, ?Es.
    + eapply well_less; [apply (well_give _ _ _ u (Userdata cell false) W) |]; [| done | done | done | set_solver]. intros o E. by destruct Hu; apply elem_of_dom.
    + intros v [Hv|Hv%list_elem_of_singleton]%elem_of_app; rewrite dom_insert; [apply St in Hv; set_solver | injection Hv as ->; set_solver].
    + intros Hw' p Hp. right. destruct (A (Hw Hw') p Hp) as [?|[?|(v & o & E & Hg & Hpo)]]; [left; set_solver | left; set_solver |]. right. exists v, o. rewrite lookup_insert_ne; [done |].
      intros ->. by destruct Hu; apply elem_of_dom.
Qed.

Lemma touserdata_inv idx s r : lua_touserdata idx s = r ->
  match r with Done (u, o) s' => s' = s /\ lu_data s !! u = Some o /\ Wrapper u ∈ lu_stack s | Raised _ => False | Undef => True end.
Proof.
  intros <-. unfold lua_touserdata. destruct (lu_stack s !! (idx - 1)) as [[u| |]|] eqn:E; [| done..].
  destruct (lu_data s !! u) eqn:Ed; [| done]. split_and!; [done | done |]. by eapply list_elem_of_lookup_2.
Qed.

(** An empty cell. *)
Lemma well_empty h d c u o : well h d c -> d !! u = None -> shaped h (u_cell o) -> owns h (u_cell o) = [] -> well h (<[u := o]> d) c.
Proof.
  intros W E Hs Ho. eapply well_less; [apply (well_give _ _ _ u o W); rewrite ?Ho; [by rewrite E | done | constructor | set_solver] |]. rewrite Ho. set_solver.
Qed.

Lemma take_good s s' c l idx p : good (Client s c l) -> qwe_lua_own_take idx s = Done p s' -> good (Client s' (c ∪ list_to_set (option_list p)) l).
Proof.
  intros [W St A]. cbn in *. unfold qwe_lua_own_take, mbind, L_bind. pose proof (touserdata_inv idx s _ eq_refl) as H.
  destruct (lua_touserdata idx s) as [[u o] s1| |]; [| done..]. destruct H as (-> & E & _). destruct (u_cell o) as [q|] eqn:Ec; [| done].
  unfold set_cell. rewrite E. intros [= <- <-]. pose proof (well_back _ _ _ u o W E) as Wb. rewrite Ec in Wb. cbn in Wb. split; cbn.
  - rewrite <- insert_delete_eq. apply (well_empty _ _ _ u (Userdata (Owned None) (u_gc o)) Wb); [by rewrite lookup_delete_eq | done | done].
  - intros v Hv. rewrite dom_insert. apply St in Hv. set_solver.
  - intros Hw x Hx. destruct (A Hw x Hx) as [?|[?|(v & o' & E' & Hg & Hp')]]; [set_solver | by right; left |].
    destruct (decide (v = u)) as [->|Hv]; [left; rewrite E in E'; injection E' as <-; rewrite Ec in Hp'; set_solver |].
    right. right. exists v, o'. by rewrite lookup_insert_ne.
Qed.

Lemma lua_stack_wrapper s idx : (exists u o, lu_stack s !! (idx - 1) = Some (Wrapper u) /\ lu_data s !! u = Some o) \/ lua_touserdata idx s = Undef.
Proof. unfold lua_touserdata. destruct (lu_stack s !! (idx - 1)) as [[u| |]|]; [| by right..]. destruct (lu_data s !! u) eqn:E; [left; eauto | by right]. Qed.

Lemma release_ok s c l idx u o v n : good (Client s c l) -> lu_stack s !! (idx - 1) = Some (Wrapper u) -> lu_data s !! u = Some o -> u_cell o = OwnedStrv v n ->
  exists s', qwe_lua_own_strv_release idx s = Done tt s' /\ good (Client s' c l).
Proof.
  intros [W St A] Ei E Ec. cbn in *. unfold qwe_lua_own_strv_release, mbind, L_bind, lua_touserdata. rewrite Ei, E, Ec.
  destruct (w_cell _ _ _ W u o E) as (Hs & Hn & Hd).
  destruct (finalize_ok (delete u (lu_data s)) (u_cell o) s (c ∪ list_to_set (owns (lu_heap s) (u_cell o)))) as (h & Ef & Wh & Ho & Hin & Hout);
    [by apply well_back | done | done | set_solver |].
  rewrite Ec in Ef. cbn [finalize] in Ef. rewrite Ef. unfold set_cell. cbn. rewrite E. eexists. split; [reflexivity |]. split; cbn.
  - rewrite <- insert_delete_eq. apply well_empty; [eapply well_less; [exact Wh |]; set_solver | by rewrite lookup_delete_eq | done | done].
  - intros w Hw. rewrite dom_insert. apply St in Hw. set_solver.
  - intros Hw p Hp. assert (Hpo : p ∉ owns (lu_heap s) (u_cell o)) by (intros Hp'; apply elem_of_dom in Hp as [b Hb]; by rewrite Hin in Hb).
    destruct (A Hw p) as [?|[?|(w & o' & E' & Hg & Hp')]]; [apply elem_of_dom; rewrite <- Hout by done; by apply elem_of_dom | by left | by right; left |].
    right. right. exists w, o'. assert (Hv : w <> u) by (intros ->; rewrite E in E'; by injection E' as <-).
    rewrite lookup_insert_ne by done. split_and!; [done | done |]. rewrite (Ho w o'); [done |]. by rewrite lookup_delete_ne.
Qed.

Lemma may_raise_ok s : exists m, may_raise s = Done tt (s <| lu_answers := m |>) \/ may_raise s = Raised (s <| lu_answers := m |>).
Proof. unfold may_raise. destruct s as [h d o v st [|[] m]]; cbn; eauto. Qed.

(** The same but for the stack, where only strings are new. *)
Definition stacked (s s' : lua) : Prop :=
  lu_heap s' = lu_heap s /\ lu_data s' = lu_data s /\ (whole s' -> whole s) /\ forall u, Wrapper u ∈ lu_stack s' -> Wrapper u ∈ lu_stack s.

Definition stacks {A} (s : lua) (r : lres A) : Prop := match r with Done _ s' | Raised s' => stacked s s' | Undef => True end.

Lemma push_text_ok b s : stacks s ((may_raise;; push (Text b)) s).
Proof.
  unfold mbind, L_bind. destruct (may_raise_ok s) as [m [-> | ->]]; cbn; split_and!; try done. intros u. cbn. set_solver.
Qed.

Lemma lua_pushlstring_ok p len s : stacks s (lua_pushlstring p len s).
Proof.
  unfold lua_pushlstring. destruct p as [p|]; [destruct (lu_heap s !! p) as [[b|]|]; [destruct (len <=? length b) | |] | destruct (len =? 0)]; (apply push_text_ok || done).
Qed.

Lemma lua_replace_ok idx s : stacks s (lua_replace idx s).
Proof.
  unfold lua_replace. destruct (last (lu_stack s)) as [v|] eqn:El; [| done]. cbn. split_and!; [done | done | done |]. cbn. intros w Hw.
  assert (Hin : Wrapper w ∈ <[idx - 1 := v]> (lu_stack s)).
  { destruct (<[idx - 1 := v]> (lu_stack s)) as [|x l] eqn:E; [by apply not_elem_of_nil in Hw |]. rewrite (app_removelast_last v); [| done]. set_solver. }
  apply list_elem_of_lookup in Hin as [i Hi]. apply list_lookup_insert_Some in Hi as [(_ & -> & _)|[_ Hi]]; [| by eapply list_elem_of_lookup_2].
  apply last_Some in El as [l' ->]. set_solver.
Qed.

Lemma finish_same s idx len : stacks s (qwe_lua_own_finish idx len s).
Proof.
  unfold qwe_lua_own_finish, mbind, L_bind. pose proof (touserdata_inv idx s _ eq_refl) as H.
  destruct (lua_touserdata idx s) as [[u o] s1| |]; [| done..]. destruct H as (-> & E & _). destruct (u_cell o) as [q|]; [| done].
  pose proof (lua_pushlstring_ok q len s) as Hp. destruct (lua_pushlstring q len s) as [[] s1|s1|]; [| done..].
  pose proof (lua_replace_ok idx s1) as Hr. destruct Hp as (Eh & Ed & Hw & Hs). destruct (lua_replace idx s1) as [[] s2|s2|]; [| | done];
    destruct Hr as (Eh' & Ed' & Hw' & Hs'); (split_and!; [by rewrite Eh' | by rewrite Ed' | tauto | auto]).
Qed.

(** Another heap, in which the cells stand for the same blocks. *)
Lemma good_heap s c c' l h : good (Client s c l) ->
  well h (lu_data s) c' /\ (forall u o, lu_data s !! u = Some o -> owns h (u_cell o) = owns (lu_heap s) (u_cell o)) ->
  (forall p, p ∈ dom h -> p ∈ c' \/ p ∈ dom (lu_heap s) /\ (p ∈ c -> p ∈ c')) -> good (Client (s <| lu_heap := h |>) c' l).
Proof.
  intros [_ St A] [W Ho] Hd. cbn in *. split; cbn; [done | done |]. intros Hw p Hp. destruct (Hd p Hp) as [?|[Hp' Hc]]; [by left |].
  destruct (A Hw p Hp') as [?|[?|(u & o & E & Hg & Hpo)]]; [auto | auto |]. right. right. exists u, o. by rewrite (Ho u o E).
Qed.

Lemma step_good x y : step x y -> good x -> good y.
Proof.
  intros H G. destruct H as [s c l p b H | s c l p b H | s s' c l p H E | s s' c l p idx H E | s s' c l p H E | s s' c l idx p E | s s' c l idx len E | s s' c l idx len E
    | s s' c l a ps idx Ea Hn H E | s s' c l a ps Ea Hn H E | s s' c l idx E | s c l st H | s c l | s s' c l u H E].
  - apply (good_heap s c); [done | by apply well_malloc, H; apply G |]. intros q. rewrite dom_insert. set_solver.
  - apply (good_heap s c); [done | by apply well_write, H; apply G |]. intros q. rewrite dom_insert. set_solver.
  - unfold free in E. case_decide; [| done]. injection E as <-. apply (good_heap s c); [done | by apply well_free, H; apply G |]. intros q. rewrite dom_delete. set_solver.
  - apply (given_good s s' c l (Owned p) idx); [done | done | destruct p; repeat constructor; set_solver | destruct p; set_solver |].
    rewrite <- E. apply own_with_ok, newmetatable_ok.
  - apply (given_raised_good s s' c l (Owned p)); [done | done | destruct p; repeat constructor; set_solver | destruct p; set_solver |].
    rewrite <- E. apply own_with_ok, newmetatable_ok.
  - by eapply take_good.
  - pose proof (finish_same s idx len) as Hf. rewrite E in Hf. destruct Hf as (Eh & Ed & Hw & Hs). eapply (good_same s); [done | done | done | done | | set_solver..].
    intros u Hu. apply G, Hs, Hu.
  - pose proof (finish_same s idx len) as Hf. rewrite E in Hf. destruct Hf as (Eh & Ed & Hw & Hs). eapply (good_same s); [done | done | done | done | | set_solver..].
    intros u Hu. apply G, Hs, Hu.
  - assert (Eo : owns (lu_heap s) (OwnedStrv (Some a) (length ps)) = ps ++ [a]) by (cbn; by rewrite Ea, take_ge).
    rewrite <- Eo in *. apply (given_good s s' c l _ idx); [done | by exists ps | done | done |]. rewrite <- E. apply own_with_ok, newmetatable_ok.
  - assert (Eo : owns (lu_heap s) (OwnedStrv (Some a) (length ps)) = ps ++ [a]) by (cbn; by rewrite Ea, take_ge).
    rewrite <- Eo in *. apply (given_raised_good s s' c l (OwnedStrv (Some a) (length ps))); [done | by exists ps | done | done |]. rewrite <- E. apply own_with_ok, newmetatable_ok.
  - pose proof (touserdata_inv idx s _ eq_refl) as Hu. unfold qwe_lua_own_strv_release, mbind, L_bind in E.
    destruct (lua_stack_wrapper s idx) as [(u & o & Es & Ed)|Eu]; [| by rewrite Eu in E].
    destruct (u_cell o) as [q|v n] eqn:Ec; [unfold lua_touserdata in E; by rewrite Es, Ed, Ec in E |].
    destruct (release_ok s c l idx u o v n G Es Ed Ec) as (s2 & E2 & G2). unfold qwe_lua_own_strv_release, mbind, L_bind in E2. rewrite E in E2. by injection E2 as <-.
  - destruct G as [W St A]. by split.
  - eapply (good_same s); [done | done | done | done | apply G | set_solver..].
  - destruct (decide (u ∈ dom (lu_data s))) as [Hu|Hu]; [| unfold collect in E; by rewrite (proj1 (not_elem_of_dom _ _) Hu) in E].
    destruct (gc_ok s c l u G Hu H) as (s2 & E2 & G2 & _). rewrite E in E2. by injection E2 as <-.
Qed.

Lemma start_good answers : good (start answers).
Proof. split; [split | |]; cbn; set_solver. Qed.

(** C21. Handing memory to Lua frees every block once.  Whatever a client does with the
    operations, wherever Lua raises and whenever the collector runs: what C holds is
    there, no release and no finalizer frees a block a second time, and closing Lua
    keeps what C holds and frees what was handed over, so that a block is left only if
    C still holds it or lost it, by a raise while it held it; unless a raise has left
    a metatable without its finalizer. *)
Theorem owned_freed_once answers s c l : rtc step (start answers) (Client s c l) ->
  (forall p, p ∈ c -> p ∈ dom (lu_heap s)) /\
  (forall u, u ∈ dom (lu_data s) -> Wrapper u ∉ lu_stack s -> collect u s <> Undef) /\
  (forall idx u v n gc, lu_stack s !! (idx - 1) = Some (Wrapper u) -> lu_data s !! u = Some (Userdata (OwnedStrv v n) gc) -> qwe_lua_own_strv_release idx s <> Undef) /\
  exists s', lua_close s = Done tt s' /\ (forall p, p ∈ c -> lu_heap s' !! p = lu_heap s !! p) /\
    (whole s -> forall p, p ∈ dom (lu_heap s') -> p ∈ c \/ p ∈ l).
Proof.
  intros H. assert (G : good (Client s c l)).
  { pose proof (start_good answers) as G. revert G H. generalize (start answers) (Client s c l). intros x y G H. induction H; [done | eauto using step_good]. }
  split_and!; [apply G | | |].
  - intros u Hu Hs. by destruct (gc_ok s c l u G Hu Hs) as (s' & -> & _).
  - intros idx u v n gc Es Ed. by destruct (release_ok s c l idx u _ v n G Es Ed eq_refl) as (s' & -> & _).
  - assert (G0 : good (Client (s <| lu_stack := [] |>) c l)) by (destruct G as [W St A]; split; [done | cbn; set_solver | done]).
    destruct (gc_all_ok (map_to_list (lu_data s)).*1 (s <| lu_stack := [] |>) c l G0) as (s' & E & G' & Ed & Ew & Eh); [apply NoDup_fst_map_to_list | | done |].
    + intros u. cbn. rewrite elem_of_dom, list_elem_of_fmap. split; [intros ([u' o] & -> & Hin%elem_of_map_to_list); by eexists | intros [o Ho]; exists (u, o); by rewrite elem_of_map_to_list].
    + exists s'. split_and!; [done | done |]. intros Hw p Hp. destruct (g_all _ G' (proj2 Ew Hw) p Hp) as [?|[?|(u & o & E' & _)]]; [by left | by right |]. cbn in E'. by rewrite Ed in E'.
Qed.

(** ** Two runs *)

(** A buffer is handed over and Lua raises while it copies it: the state then. *)
Definition sample_raised : lua :=
  Lua {[ 7 := Bytes (bytes_of "out") ]} {[ 0 := Userdata (Owned (Some 7)) true ]} (Some true) None [Wrapper 0] [].

Lemma sample_reached : rtc step (start [true; true; true; true; false]) (Client sample_raised ∅ ∅).
Proof.
  set (s1 := Lua {[ 7 := Bytes (bytes_of "out") ]} ∅ None None [] [true; true; true; true; false]).
  set (s2 := Lua {[ 7 := Bytes (bytes_of "out") ]} {[ 0 := Userdata (Owned (Some 7)) true ]} (Some true) None [Wrapper 0] [false]).
  eapply rtc_l; [apply (StMalloc _ ∅ ∅ 7 (Bytes (bytes_of "out"))); set_solver |].
  eapply rtc_l; [apply (StOwn s1 s2 _ ∅ (Some 7) 1); [set_solver | vm_compute; reflexivity] |].
  eapply rtc_l; [apply (StFinishRaised s2 sample_raised _ ∅ 1 3); vm_compute; reflexivity |].
  assert (E : Client sample_raised ∅ (∅ ∪ ({[7]} ∪ ∅) ∖ list_to_set (option_list (Some 7))) = Client sample_raised ∅ ∅) by (f_equal; set_solver).
  rewrite <- E. apply rtc_refl.
Qed.

(** Closing Lua then frees it. *)
Lemma owned_freed_once_witness : rtc step (start [true; true; true; true; false]) (Client sample_raised ∅ ∅) /\
  exists s', lua_close sample_raised = Done tt s' /\ lu_heap s' = ∅.
Proof.
  split; [apply sample_reached |].
  destruct (owned_freed_once [true; true; true; true; false] sample_raised ∅ ∅ sample_reached) as (_ & _ & _ & s' & E & _ & H).
  exists s'. split; [exact E |]. apply dom_empty_inv_L. assert (Hw : whole sample_raised) by by split. specialize (H Hw). set_solver.
Defined.

(** A raise between the registration of the metatable and its [__gc] is never made
    good: the second buffer is handed over as it should be, and nobody frees it. *)
Lemma half_made_metatable_leaks : exists s1 s2 s3,
  own_block (Some 1) (Lua {[ 1 := Bytes (bytes_of "a"); 2 := Bytes (bytes_of "b") ]} ∅ None None [] [true; true; false]) = Raised s1 /\
  qwe_lua_own_pushlstring (Some 2) 1 (s1 <| lu_stack := [] |>) = Done tt s2 /\ lua_close s2 = Done tt s3 /\ lu_heap s3 !! 2 = Some (Bytes (bytes_of "b")).
Proof. eexists _, _, _. split_and!; vm_compute; reflexivity. Qed.

(** The userdata that is to own a buffer is itself made by a call that can raise: the
    buffer is lost then. *)
Lemma transfer_can_lose : exists s1 s2, own_block (Some 1) (Lua {[ 1 := Bytes (bytes_of "a") ]} ∅ None None [] [false]) = Raised s1 /\
  lua_close s1 = Done tt s2 /\ lu_heap s2 !! 1 = Some (Bytes (bytes_of "a")).
Proof. eexists _, _. split_and!; vm_compute; reflexivity. Qed.
