(* ===== verification/Embed.v ===== *)
(** * The bytecode embedding tool

    Models [src/tools/bcembed.c], which runs at build time: each Lua file it is given
    is compiled and written as a C array, and a table of the arrays follows.  What
    LuaJIT makes of a source ([luaL_loadbuffer], [lua_dump]) is a parameter: an error,
    or the pieces in which the dump is handed to the writer. *)

From Stdlib Require Import Ascii String NArith ZArith Lia.
From stdpp Require Import base sets list strings numbers.
From S2P Require Import Prelude Cstr Redact Fmt Strtod Load.

Open Scope nat_scope.
Open Scope list_scope.

(** ** Reading a source *)

Definition BCEMBED_MAX_SOURCE : nat := 1024 * 1024.

#[global] Opaque BCEMBED_MAX_SOURCE.

Definition TAB : ascii := "009"%char.

(** What the buffer grows to when it is full. *)
Definition next_cap (cap : nat) : nat :=
  let cap := if cap =? 0 then 4096 else 2 * cap in
  if S BCEMBED_MAX_SOURCE <? cap then S BCEMBED_MAX_SOURCE else cap.

(** The loop: what was read, and whether the last [fread] was short. *)
Fixpoint slurp_loop (fuel : nat) (buf rest : bytes) (cap : nat) : cres (bytes * bool) :=
  match fuel with
  | 0 => CFuel
  | S fuel =>
      let cap := if length buf =? cap then next_cap cap else cap in
      let want := cap - length buf in
      let got := take want rest in
      let buf := buf ++ got in
      if (length got <? want) || (BCEMBED_MAX_SOURCE <? length buf) then mret (buf, length got <? want)
      else slurp_loop fuel buf (drop want rest) cap
  end.

(** The text, or why there is none.  [why]: the [errno] of the read that failed. *)
Definition slurp (why too_big : bytes) (file : bytes + stream) : cres (bytes + bytes) :=
  match file with
  | inl why => mret (inl why)
  | inr s =>
      '(buf, short) ← slurp_loop (S (length (readable s))) [] (readable s) 0;
      let failed := short && match st_fails s with Some k => k <=? length (st_content s) | None => false end in
      mret (if failed then inl why else if BCEMBED_MAX_SOURCE <? length buf then inl too_big else inr buf)
  end.

(** ** Writing an array *)

(** ["%u,"], and a newline after every 24th. *)
Fixpoint writer (i : nat) (bs : bytes) : bytes :=
  match bs with
  | [] => []
  | b :: bs => dec (Z.of_N (N_of_ascii b)) ++ bytes_of "," ++ (if i mod 24 =? 23 then [NL] else []) ++ writer (S i) bs
  end.

(** The array of a module, from the pieces of its dump. *)
Definition array_text (i : nat) (dump : list bytes) : bytes :=
  bytes_of "static const unsigned char data" ++ dec (Z.of_nat i) ++ bytes_of "[] = {" ++ [NL] ++
  concat (writer 0 <$> dump) ++ bytes_of "0};" ++ [NL].

(** ** The tool *)

(** The text up to the first [c], and the text behind it ([strchr]). *)
Fixpoint strchr (c : ascii) (s : bytes) : option (bytes * bytes) :=
  match s with
  | [] => None
  | x :: s => if Ascii.eqb x c then Some ([], s) else '(before, after) ← strchr c s; Some (x :: before, after)
  end.

(** Longer than [".json"] and ending in it. *)
Definition is_json (path : bytes) : bool :=
  (5 <? length path) && bool_decide (drop (length path - 5) path = bytes_of ".json").

Definition json_chunk (text : bytes) : bytes := bytes_of "return [=====[" ++ [NL] ++ text ++ bytes_of "]=====]".

Section tool.

(** [compile chunk name]: an error, or the dump. *)
Context (compile : bytes -> bytes -> bytes + list bytes) (read_error too_big : bytes) (files : bytes -> bytes + stream).

(** What is printed if it fails, and the exit code; or the array. *)
Definition embed_one (i : nat) (arg : bytes) : cres (bytes * Z + bytes) :=
  let bad parts code := mret (inl (concat (bytes_of "bcembed: " :: parts) ++ [NL], code)) in
  match strchr "=" arg with
  | None => bad [bytes_of "bad argument "; arg] 2%Z
  | Some (name, path) =>
      src ← slurp read_error too_big (files path);
      match src with
      | inl why => bad [bytes_of "cannot read "; path; bytes_of ": "; why] 1%Z
      | inr src =>
          if 256 <=? S (length name) then bad [bytes_of "module name too long: "; take 64 name; bytes_of "..."] 1%Z
          else
            match compile (if is_json path then json_chunk src else src) (bytes_of "=" ++ name) with
            | inl err => bad [err] 1%Z
            | inr dump => mret (inr (array_text i dump))
            end
      end
  end.

(** What was written, and how it failed if it did. *)
Fixpoint embed_all (i : nat) (args : list bytes) (out : bytes) : cres (bytes * option (bytes * Z)) :=
  match args with
  | [] => mret (out, None)
  | arg :: args =>
      r ← embed_one i arg;
      match r with
      | inl bad => mret (out, Some bad)
      | inr text => embed_all (S i) args (out ++ text)
      end
  end.

(** One line of the table; an argument without [=] was refused before. *)
Definition entry_text (i : nat) (arg : bytes) : cres bytes :=
  match strchr "=" arg with
  | None => CUndef
  | Some (name, path) =>
      mret ([TAB] ++ bytes_of "{" ++ [DQ] ++ name ++ [DQ] ++ bytes_of ", " ++ [DQ] ++ path ++ [DQ] ++ bytes_of ", data" ++ dec (Z.of_nat i) ++
            bytes_of ", sizeof data" ++ dec (Z.of_nat i) ++ bytes_of " - 1}," ++ [NL])
  end.

Fixpoint table_text (i : nat) (args : list bytes) : cres bytes :=
  match args with
  | [] => mret []
  | arg :: args => e ← entry_text i arg; rest ← table_text (S i) args; mret (e ++ rest)
  end.

(** [args]: those after the output's name; [opened], [written], [closed]: the output.
    The exit code, what is printed, and what was written. *)
Definition bcembed (out_name : option bytes) (args : list bytes) (opened written closed : bool) : cres (Z * option bytes * bytes) :=
  match (if opened then out_name else None) with
  | None => mret (2%Z, Some (bytes_of "usage: bcembed <out.c> <module>=<file> ..." ++ [NL]), [])
  | Some name =>
      let head := bytes_of "#include " ++ [DQ] ++ bytes_of "src/kernel/lua/embedded.h" ++ [DQ] ++ [NL; NL] in
      '(text, bad) ← embed_all 2 args head;
      match bad with
      | Some (line, code) => mret (code, Some line, text)
      | None =>
          table ← table_text 2 args;
          let text := text ++ [NL] ++ bytes_of "const struct qwe_embedded qwe_embedded_modules[] = {" ++ [NL] ++ table ++
                      [TAB] ++ bytes_of "{0, 0, 0, 0}," ++ [NL] ++ bytes_of "};" ++ [NL] in
          if written && closed then mret (0%Z, None, text)
          else mret (1%Z, Some (bytes_of "bcembed: cannot write " ++ name ++ [NL]), text)
      end
  end.
End tool.

(** ** What a source is *)

Lemma next_cap_room cap : cap <= BCEMBED_MAX_SOURCE -> cap < next_cap cap <= S BCEMBED_MAX_SOURCE.
Proof. unfold next_cap. intros H. destruct (Nat.eqb_spec cap 0); [destruct (Nat.ltb_spec (S BCEMBED_MAX_SOURCE) 4096) | destruct (Nat.ltb_spec (S BCEMBED_MAX_SOURCE) (2 * cap))]; lia. Qed.

Lemma slurp_loop_ok fuel : forall buf rest cap, length rest < fuel -> length buf <= cap -> length buf <= BCEMBED_MAX_SOURCE -> cap <= S BCEMBED_MAX_SOURCE ->
  slurp_loop fuel buf rest cap =
    CRet (take (S BCEMBED_MAX_SOURCE) (buf ++ rest), length (buf ++ rest) <=? BCEMBED_MAX_SOURCE).
Proof.
  induction fuel as [|fuel IH]; intros buf rest cap Hf Hc Hm Hcap; [lia |]. cbn [slurp_loop].
  set (cap' := if length buf =? cap then next_cap cap else cap).
  assert (Hc' : length buf < cap' <= S BCEMBED_MAX_SOURCE).
  { unfold cap'. destruct (Nat.eqb_spec (length buf) cap); [pose proof (next_cap_room cap) |]; lia. }
  rewrite !length_app, length_take. destruct (Nat.ltb_spec ((cap' - length buf) `min` length rest) (cap' - length buf)) as [Hs|Hs].
  - cbn [orb]. rewrite (take_ge rest), take_ge by (rewrite ?length_app; lia). destruct (Nat.leb_spec (length buf + length rest) BCEMBED_MAX_SOURCE); [done | lia].
  - cbn [orb]. destruct (Nat.ltb_spec BCEMBED_MAX_SOURCE (length buf + (cap' - length buf) `min` length rest)).
    + assert (cap' = S BCEMBED_MAX_SOURCE) as -> by lia. destruct (Nat.leb_spec (length buf + length rest) BCEMBED_MAX_SOURCE); [lia |].
      by rewrite take_app, (take_ge buf) by lia.
    + rewrite IH by (rewrite ?length_app, ?length_take, ?length_drop; lia). by rewrite <- app_assoc, take_drop, length_app.
Qed.

(** A file is taken whole or not at all: not when it cannot be opened or read to its
    end, nor when it has more than a mebibyte. *)
Lemma slurp_exact why too_big file : slurp why too_big file = CRet
  match file with
  | inl why => inl why
  | inr s =>
      if BCEMBED_MAX_SOURCE <? length (readable s) then inl too_big
      else match st_fails s with
           | Some k => if k <=? length (st_content s) then inl why else inr (st_content s)
           | None => inr (st_content s)
           end
  end.
Proof.
  unfold slurp. destruct file as [|s]; [done |]. rewrite slurp_loop_ok by (simpl; lia). cstep. cbn [app].
  rewrite length_take. destruct (Nat.ltb_spec BCEMBED_MAX_SOURCE (length (readable s))), (Nat.leb_spec (length (readable s)) BCEMBED_MAX_SOURCE); try lia; cbn [andb].
  - destruct (Nat.ltb_spec BCEMBED_MAX_SOURCE (S BCEMBED_MAX_SOURCE `min` length (readable s))); [done | lia].
  - destruct (Nat.ltb_spec BCEMBED_MAX_SOURCE (S BCEMBED_MAX_SOURCE `min` length (readable s))); [lia |].
    rewrite (take_ge (readable s)) by lia. unfold readable. destruct (st_fails s) as [k|]; [| done].
    destruct (Nat.leb_spec k (length (st_content s))); [done |]. by rewrite take_ge by lia.
Qed.

(** ** What an array holds *)

(** A list of decimal bytes up to the closing brace, as C reads it; [n]: the number
    that has begun. *)
Fixpoint array_values (n : option N) (s : bytes) : option bytes :=
  match s with
  | [] => None
  | c :: s =>
      if is_digit c then array_values (Some (10 * default 0 n + (N_of_ascii c - 48))%N) s
      else if Ascii.eqb c NL then (if n is None then array_values None s else None)
      else if Ascii.eqb c "," then n ← n; (if (n <? 256)%N then cons (ascii_of_N n) <$> array_values None s else None)
      else if Ascii.eqb c "}" then n ← n; (if (n <? 256)%N then Some [ascii_of_N n] else None)
      else None
  end.

(** What digits add to a number. *)
Definition digits_value : option N -> bytes -> option N := foldl (fun n c => Some (10 * default 0 n + (N_of_ascii c - 48))%N).

Lemma array_values_digits d s : digits d -> forall n, array_values n (d ++ s) = array_values (digits_value n d) s.
Proof. induction 1 as [|c d Hc _ IH]; intros n; [done |]. cbn [app array_values]. rewrite Hc. apply IH. Qed.

Lemma digits_value_byte b : digits_value None (dec (Z.of_N (N_of_ascii b))) = Some (N_of_ascii b).
Proof. destruct b as [[] [] [] [] [] [] [] []]; vm_compute; reflexivity. Qed.

Lemma array_values_byte b s : array_values None (dec (Z.of_N (N_of_ascii b)) ++ "," :: s)%char = cons b <$> array_values None s.
Proof.
  pose proof (N_ascii_bounded b). rewrite array_values_digits by (apply (dec_digits 3); lia). rewrite digits_value_byte. cbn [array_values]. cbn -[array_values N.ltb ascii_of_N N_of_ascii].
  rewrite (proj2 (N.ltb_lt _ _)), ascii_N_embedding by done. done.
Qed.

Lemma array_values_writer bs s : forall i, array_values None (writer i bs ++ s) = app bs <$> array_values None s.
Proof.
  induction bs as [|b bs IH]; intros i; cbn [writer app]; [by rewrite option_fmap_id |].
  rewrite <- !app_assoc. change (bytes_of ",") with [","%char]. cbn [app]. rewrite array_values_byte.
  transitivity (cons b <$> array_values None (writer (S i) bs ++ s)); [f_equal; by destruct (i mod 24 =? 23) |].
  rewrite IH. by destruct (array_values None s).
Qed.

Lemma strchr_app c s rest : c ∉ s -> strchr c (s ++ c :: rest) = Some (s, rest).
Proof.
  induction s as [|x s IH]; intros H; cbn [app strchr]; [by rewrite Ascii.eqb_refl |].
  destruct (Ascii.eqb_spec x c) as [->|]; [set_solver |]. by rewrite IH by set_solver.
Qed.

Definition array_contents (t : bytes) : option bytes := match strchr "{" t with Some (_, s) => array_values None s | None => None end.

(** The array of a module reads back as its dump with a NUL behind it: the size in
    the table, [sizeof] less one, is that of the dump. *)
Lemma array_text_reads i dump : array_contents (array_text i dump) = Some (concat dump ++ ["000"%char]).
Proof.
  unfold array_contents, array_text. set (head := bytes_of "static const unsigned char data" ++ dec (Z.of_nat i) ++ bytes_of "[] = ").
  assert (Hhead : ("{"%char : ascii) ∉ head).
  { unfold head. rewrite !not_elem_of_app. split_and!; [vm_compute; set_solver | | vm_compute; set_solver].
    destruct (dec_digits (S i) (Z.of_nat i)) as [Hd _]; [lia | split; [lia |]; pose proof (Z.pow_gt_lin_r 10 (Z.of_nat (S i))); lia |].
    intros Hin. apply list_elem_of_In in Hin. by pose proof (proj1 (Forall_forall _ _) Hd _ Hin). }
  match goal with |- context [strchr _ ?t] => replace t with (head ++ "{"%char :: NL :: concat (writer 0 <$> dump) ++ bytes_of "0};" ++ [NL]) end.
  2: { unfold head. rewrite <- !app_assoc. repeat f_equal. }
  rewrite strchr_app by done. cbn [array_values]. change (is_digit NL) with false. cbn match. change (Ascii.eqb NL NL) with true. cbn match.
  induction dump as [|bs dump IH]; [done |]. cbn [concat fmap list_fmap]. rewrite <- app_assoc, array_values_writer, IH. cbn. by rewrite <- app_assoc.
Qed.

(** ** What a run of the tool leaves *)

Section tool_ok.
Context (compile : bytes -> bytes -> bytes + list bytes) (read_error too_big : bytes) (files : bytes -> bytes + stream).

(** The module of an argument: [name=path], where the file at [path] can be read whole
    and compiles. *)
Definition module_of (arg name path : bytes) (dump : list bytes) : Prop :=
  arg = name ++ ("="%char :: path) /\ ("="%char ∉ name) /\ length name < 255 /\
  exists s, files path = inr s /\ length (st_content s) <= BCEMBED_MAX_SOURCE /\ (forall k, st_fails s = Some k -> length (st_content s) < k) /\
    compile (if is_json path then json_chunk (st_content s) else st_content s) (bytes_of "=" ++ name) = inr dump.

Lemma strchr_inv c s before after : strchr c s = Some (before, after) -> s = before ++ c :: after /\ c ∉ before.
Proof.
  revert before after. induction s as [|x s IH]; intros before after; [done |]. cbn [strchr].
  destruct (Ascii.eqb_spec x c) as [->|Hx]; [intros [= <- <-]; split; [done | set_solver] |].
  destruct (strchr c s) as [[b a]|]; [| done]. intros [= <- <-]. destruct (IH b a eq_refl) as [-> Hb]. split; [done | set_solver].
Qed.

Lemma slurp_whole file : exists r, slurp read_error too_big file = CRet r /\
  match r with
  | inl _ => True
  | inr src => exists s, file = inr s /\ src = st_content s /\ length (st_content s) <= BCEMBED_MAX_SOURCE /\ (forall k, st_fails s = Some k -> length (st_content s) < k)
  end.
Proof.
  rewrite slurp_exact. eexists. split; [reflexivity |]. destruct file as [|s]; [done |]. unfold readable.
  destruct (st_fails s) as [k|] eqn:Ek; match goal with |- context [BCEMBED_MAX_SOURCE <? ?n] => destruct (Nat.ltb_spec BCEMBED_MAX_SOURCE n) as [|Hlen]; [done |] end.
  - destruct (Nat.leb_spec k (length (st_content s))) as [|Hk]; [done |]. rewrite take_ge in Hlen by lia. exists s. split_and!; [done | done | done |]. intros k'. rewrite Ek. by intros [= <-].
  - exists s. split_and!; [done | done | done |]. intros k'. by rewrite Ek.
Qed.

Lemma embed_one_ok i arg : exists r, embed_one compile read_error too_big files i arg = CRet r /\
  match r with
  | inl (line, code) => code = 1%Z \/ code = 2%Z
  | inr text => exists name path dump, module_of arg name path dump /\ text = array_text i dump
  end.
Proof.
  unfold embed_one. destruct (strchr "=" arg) as [[name path]|] eqn:E; [| eexists; split; [reflexivity | by right] ].
  apply strchr_inv in E as [-> Hn]. destruct (slurp_whole (files path)) as (r & -> & Hr). cstep.
  destruct r as [why|src]; [eexists; split; [reflexivity | by left] |]. destruct Hr as (s & Ef & -> & Hlen & Hk).
  destruct (Nat.leb_spec 256 (S (length name))); [eexists; split; [reflexivity | by left] |].
  destruct (compile _ _) as [err|dump] eqn:Ec; (eexists; split; [reflexivity |]); [by left |].
  exists name, path, dump. split; [| done]. split_and!; [done | done | lia | by exists s].
Qed.

Definition head_text : bytes := bytes_of "#include " ++ [DQ] ++ bytes_of "src/kernel/lua/embedded.h" ++ [DQ] ++ [NL; NL].

Lemma embed_all_ok args : forall i out, exists text bad, embed_all compile read_error too_big files i args out = CRet (text, bad) /\
  match bad with
  | Some (line, code) => code = 1%Z \/ code = 2%Z
  | None => exists dumps, Forall2 (fun arg dump => exists name path, module_of arg name path dump) args dumps /\
      text = out ++ concat (imap (fun k dump => array_text (i + k) dump) dumps)
  end.
Proof.
  induction args as [|arg args IH]; intros i out; cbn [embed_all].
  - eexists _, None. split; [reflexivity |]. exists []. split; [constructor | by rewrite app_nil_r].
  - destruct (embed_one_ok i arg) as (r & -> & Hr). cstep. destruct r as [ [line code]|text]; [by eexists _, _ |].
    destruct Hr as (name & path & dump & Hm & ->). destruct (IH (S i) (out ++ array_text i dump)) as (text & bad & -> & Hbad). eexists _, bad. split; [reflexivity |].
    destruct bad; [done |]. destruct Hbad as (dumps & Hd & ->). exists (dump :: dumps). split; [by constructor; [by exists name, path |] |].
    cbn [imap concat]. rewrite Nat.add_0_r, <- app_assoc. do 3 f_equal. apply imap_ext. intros k ? _. simpl. f_equal. lia.
Qed.

Lemma table_text_ok args : forall i, Forall (fun arg => exists before after, strchr "=" arg = Some (before, after)) args -> exists t, table_text i args = CRet t.
Proof.
  induction args as [|arg args IH]; intros i H; [by eexists |]. inversion_clear H as [| ? ? (b & a & E) Hs]. cbn [table_text]. unfold entry_text. rewrite E. cstep.
  destruct (IH (S i) Hs) as [t ->]. by eexists.
Qed.

(** The tool ends for all arguments and files: with 0, and then the output was written
    and holds an array for every argument, in order, each with the dump of its module
    and nothing of another; or with 1 or 2, and then it has said why. *)
Lemma bcembed_exact out_name args opened written closed : exists code line text,
  bcembed compile read_error too_big files out_name args opened written closed = CRet (code, line, text) /\
  match line with
  | Some _ => code = 1%Z \/ code = 2%Z
  | None => code = 0%Z /\ opened = true /\ written = true /\ closed = true /\
      exists dumps table, Forall2 (fun arg dump => exists name path, module_of arg name path dump) args dumps /\ table_text 2 args = CRet table /\
        text = head_text ++ concat (imap (fun k dump => array_text (2 + k) dump) dumps) ++ [NL] ++ bytes_of "const struct qwe_embedded qwe_embedded_modules[] = {" ++ [NL] ++ table ++
               [TAB] ++ bytes_of "{0, 0, 0, 0}," ++ [NL] ++ bytes_of "};" ++ [NL]
  end.
Proof.
  unfold bcembed. destruct (if opened then out_name else None) as [name|] eqn:Eo; [| eexists _, _, _; split; [reflexivity | by right] ].
  destruct opened; [| done]. fold head_text. destruct (embed_all_ok args 2 head_text) as (text & bad & -> & Hbad). cstep.
  destruct bad as [ [line code]|]; [by eexists _, _, _ |]. destruct Hbad as (dumps & Hd & ->).
  destruct (table_text_ok args 2) as [table Et].
  { clear -Hd. induction Hd as [|arg dump args dumps (name & path & -> & Hn & _) _ IH]; constructor; [| exact IH]. exists name, path. by apply strchr_app. }
  rewrite Et. cstep. destruct (written && closed) eqn:Ew; [| eexists _, _, _; split; [reflexivity | by left] ].
  apply andb_true_iff in Ew as [-> ->]. eexists _, None, _. split; [reflexivity |]. split_and!; [done.. |].
  exists dumps, table. split_and!; [done | done |]. by rewrite <- !app_assoc.
Qed.
End tool_ok.
