(* ===== verification/Remote.v ===== *)
(** * Asking the ssh backend

    Models [ssh_call], [remote_ensure], the call of [preconnect] and [close_masters] of
    [src/kernel/workflow.c]: what C hands to the Lua module that keeps the connections
    and what it makes of the answers.  [Engine] and [Run] ask these as queries of
    their environment; here is what lies behind a query.  What the module computes is
    a parameter. *)

From Stdlib Require Import Ascii String NArith ZArith Lia.
From stdpp Require Import base list strings numbers.
From S2P Require Import Prelude Cstr Redact LuaCbor Strtod LuaTable Job.

Open Scope nat_scope.
Open Scope list_scope.

(** What a protected call comes to: the error, or the values. *)
Inductive pcalled := Failed (error : lua) | Answered (values : list lua).

(** The [k]th of the values, counted from 0, as many as were asked for. *)
Definition nth_value (values : list lua) (k : nat) : lua := default LNil (values !! k).

Section remote.
(** [ssh]: [require "backend.ssh"]; [call]: a call of a Lua value; [host_of]:
    [qwe.inventory.host]. *)
Context `{LuaNumbers} (ssh : pcalled) (call : lua -> list lua -> pcalled) (host_of : bytes -> lua).

(** [fail:].  An error that is no text is a NULL for [%s]. *)
Definition failed_message (size : nat) (error : lua) : cres bytes :=
  match lua_tostring error with Some t => mret (qwe_msg size t) | None => CUndef end.

(** A field of the module, called. *)
Definition call_field (fn : string) (args : lua -> list lua) : cres pcalled :=
  match ssh with
  | Failed e => mret (Failed e)
  | Answered vs =>
      let m := nth_value vs 0 in
      f ← lua_getfield m fn;
      mret (call f (args m))
  end.

Definition ssh_call (size : nat) (target : bytes) (fn : string) (a b : option bytes) : cres (Z * bytes) :=
  r ← call_field fn (fun _ => LStr target :: (LStr <$> option_list a) ++ (LStr <$> option_list b));
  match r with
  | Failed e => msg ← failed_message size e; mret ((-1)%Z, msg)
  | Answered vs =>
      if lua_toboolean (nth_value vs 0) then mret (0%Z, [])
      else mret ((-1)%Z, qwe_msg size (default (bytes_of "failed") (lua_tostring (nth_value vs 1))))
  end.

Definition host_text (target : bytes) : bytes := default [] (lua_tostring (host_of target)).

(** The result, the message where there is one, and [*refused]. *)
Definition remote_ensure (size : nat) (target : bytes) : cres (Z * option bytes * bool) :=
  timeout ← match ssh with Answered vs => lua_getfield (nth_value vs 0) "RECONNECT_TIMEOUT" | Failed _ => mret LNil end;
  r ← call_field "ensure" (fun _ => [LStr target; LStr (host_text target); timeout]);
  match r with
  | Failed e => msg ← failed_message size e; mret ((-1)%Z, Some msg, false)
  | Answered vs =>
      if lua_toboolean (nth_value vs 0) then mret (0%Z, None, false)
      else mret ((-1)%Z, Some (qwe_msg size (default (bytes_of "failed") (lua_tostring (nth_value vs 1)))),
                 bool_decide (lua_tostring (nth_value vs 2) = Some (bytes_of "refused")))
  end.

(** The line about a target that could not be reached before the run. *)
Definition preconnect_call (target : bytes) : cres (option bytes) :=
  let line why := match why with Some why => mret (Some (bytes_of "qwe run: target " ++ target ++ bytes_of ": " ++ why ++ [NL])) | None => CUndef end in
  r ← call_field "ensure" (fun _ => [LStr target; LStr (host_text target)]);
  match r with
  | Failed e => line (lua_tostring e)
  | Answered vs =>
      if lua_toboolean (nth_value vs 0) then mret None
      else match lua_tostring (nth_value vs 2) with
           | Some _ => mret None                         (* a refusal is reported when its job starts *)
           | None => line (lua_tostring (nth_value vs 1))
           end
  end.

(** What [close_all] answers is not asked. *)
Definition close_masters : cres unit :=
  match ssh with Failed _ => mret tt | Answered _ => _ ← call_field "close_all" (fun _ => []); mret tt end.

(** What the engine is told. *)
Definition ensure_answer (r : Z * option bytes * bool) : ensure_result :=
  match r with (rc, _, refused) => if (rc =? 0)%Z then EnsureOk else if refused then EnsureRefused else EnsureUnreachable end.

(** ** What the answers mean *)

(** The module is a table, and what it raises and gives as a reason is a text. *)
Definition speaks (fn : string) (f : lua) : Prop :=
  exists mt seq fields, ssh = Answered [LTable mt seq fields] /\ get_field (bytes_of fn) fields = f /\
    forall args, match call f args with
                 | Failed e => is_Some (lua_tostring e)
                 | Answered vs => lua_toboolean (nth_value vs 0) = false -> is_Some (lua_tostring (nth_value vs 1))
                 end.

(** An ssh that is asked to connect says what became of it: the engine goes on exactly
    when the module said yes, ends the job for a refusal exactly when the module said
    "refused", and there is a reason, cut to its buffer, for everything else. *)
Lemma remote_ensure_exact size target f : speaks "ensure" f -> exists args r, remote_ensure size target = CRet r /\
  firstn 2 args = [LStr target; LStr (host_text target)] /\
  match call f args, r with
  | Failed e, _ => ensure_answer r = EnsureUnreachable /\ snd (fst r) = qwe_msg size <$> lua_tostring e
  | Answered vs, _ =>
      (ensure_answer r = EnsureOk <-> lua_toboolean (nth_value vs 0) = true) /\
      (ensure_answer r = EnsureRefused <-> lua_toboolean (nth_value vs 0) = false /\ lua_tostring (nth_value vs 2) = Some (bytes_of "refused")) /\
      (ensure_answer r <> EnsureOk -> snd (fst r) = qwe_msg size <$> lua_tostring (nth_value vs 1))
  end.
Proof.
  intros (mt & seq & fields & E & Ef & Ht). unfold remote_ensure, call_field. rewrite E. cbn. rewrite Ef. eexists [LStr target; LStr (host_text target); _].
  match goal with |- context [call f ?a] => specialize (Ht a); destruct (call f a) as [e|vs] eqn:Ec end.
  - destruct Ht as [t Et]. unfold failed_message. rewrite Et. eexists. split; [reflexivity |]. rewrite Ec, Et. by split_and!.
  - destruct (lua_toboolean (nth_value vs 0)) eqn:E0; eexists; (split; [reflexivity |]); rewrite Ec, E0; cbn.
    + split_and!; [done | done | | done]. split; [done | by intros [? _]].
    + destruct (Ht eq_refl) as [t Et]. rewrite Et. case_bool_decide as E2; split_and!; try done; naive_solver.
Qed.

(** The same for the lines before the run: there is one exactly for a target that was
    given up on. *)
Lemma preconnect_exact target f : speaks "ensure" f -> exists line, preconnect_call target = CRet line /\
  match call f [LStr target; LStr (host_text target)] with
  | Failed _ => line <> None
  | Answered vs => line <> None <-> lua_toboolean (nth_value vs 0) = false /\ lua_tostring (nth_value vs 2) = None
  end.
Proof.
  intros (mt & seq & fields & E & Ef & Ht). unfold preconnect_call, call_field. rewrite E. cbn. rewrite Ef.
  specialize (Ht [LStr target; LStr (host_text target)]). destruct (call f _) as [e|vs].
  - destruct Ht as [t ->]. by eexists.
  - destruct (lua_toboolean (nth_value vs 0)); [eexists; split; [reflexivity |]; naive_solver |]. destruct (Ht eq_refl) as [t ->].
    destruct (lua_tostring (nth_value vs 2)); eexists; (split; [reflexivity |]); naive_solver.
Qed.
End remote.
