(* ===== verification/Luavm.v ===== *)
(** * The Lua state

    Models [qwe_lua_new] of [src/kernel/luavm.c]: what a new state can [require].  The
    modules linked into the binary come from the table that [Embed] writes.  What
    LuaJIT makes of a module's bytecode is a parameter; [require] is the one of Lua
    5.1, as far as it decides which loader is found. *)

From Stdlib Require Import Ascii String NArith ZArith Lia.
From stdpp Require Import base gmap list strings numbers.
From S2P Require Import Prelude Redact Fmt Embed.

Open Scope nat_scope.
Open Scope list_scope.

(** [struct qwe_embedded]. *)
Record qwe_embedded := Embedded { em_name : bytes; em_path : bytes; em_data : bytes; em_len : nat }.

Inductive loader := Opens (f : string) | Chunk (code : bytes) | File (path : bytes).

(** [package.path], [package.cpath] and [package.preload]. *)
Record package := Package { pk_path : bytes; pk_cpath : bytes; pk_preload : gmap bytes loader }.

(** What is preloaded before the embedded modules. *)
Definition natives : list (bytes * loader) :=
  [(bytes_of "lpeg", Opens "luaopen_lpeg"); (bytes_of "rex_pcre2", Opens "luaopen_rex_pcre2"); (bytes_of "qwe.cbor", Opens "luaopen_qwe_cbor");
   (bytes_of "qwe.fs", Opens "luaopen_qwe_fs"); (bytes_of "qwe.exec", Opens "luaopen_qwe_exec"); (bytes_of "qwe.secrets", Opens "luaopen_qwe_secrets")].

(** [luaL_loadbuffer]: an error, or the chunk is on the stack. *)
Fixpoint load_embedded (load : bytes -> bytes -> option bytes) (ms : list qwe_embedded) (preload : gmap bytes loader) : bytes + gmap bytes loader :=
  match ms with
  | [] => inr preload
  | m :: ms =>
      let code := take (em_len m) (em_data m) in
      match load code (em_name m) with
      | Some err => inl (bytes_of "qwe: built-in module " ++ em_name m ++ bytes_of ": " ++ err ++ [NL])
      | None => load_embedded load ms (<[em_name m := Chunk code]> preload)
      end
  end.

(** [made]: whether [luaL_newstate] had memory.  The line, if there is one, and the
    state.  (Coverage, which only tests turn on, is left out.) *)
Definition qwe_lua_new (made : bool) (load : bytes -> bytes -> option bytes) (ms : list qwe_embedded) : option bytes * option package :=
  if negb made then (None, None)
  else
    let preload := foldl (fun p nl => <[fst nl := snd nl]> p) ∅ natives in
    match load_embedded load ms preload with
    | inl line => (Some line, None)
    | inr preload => (None, Some (Package [] [] preload))
    end.

(** ** [require] *)

(** The templates of a path, between semicolons; empty ones are skipped. *)
Fixpoint templates (cur path : bytes) : list bytes :=
  match path with
  | [] => match cur with [] => [] | _ => [cur] end
  | c :: path => if Ascii.eqb c ";" then match cur with [] => templates [] path | _ => cur :: templates [] path end else templates (cur ++ [c]) path
  end.

Definition fill (name template : bytes) : bytes :=
  concat (map (fun c => if Ascii.eqb c "?" then map (fun c => if Ascii.eqb c "." then "/"%char else c) name else [c]) template).

Definition search_path (exists_ : bytes -> bool) (name path : bytes) : option loader :=
  File <$> List.find exists_ (fill name <$> templates [] path).

(** The name up to its first dot: where a library with many modules would be. *)
Fixpoint root_of (name : bytes) : bytes := match name with [] => [] | c :: name => if Ascii.eqb c "." then [] else c :: root_of name end.

(** The loaders in their order: preloaded, Lua files, C libraries, all in one. *)
Definition require (exists_ : bytes -> bool) (pk : package) (name : bytes) : option loader :=
  match pk_preload pk !! name with
  | Some l => Some l
  | None =>
      match search_path exists_ name (pk_path pk) with
      | Some l => Some l
      | None => match search_path exists_ name (pk_cpath pk) with Some l => Some l | None => search_path exists_ (root_of name) (pk_cpath pk) end
      end
  end.

(** ** What can be required *)

Definition chunk_of (m : qwe_embedded) : loader := Chunk (take (em_len m) (em_data m)).

Lemma load_embedded_ok load ms : forall p, match load_embedded load ms p with
  | inr p' => (forall m, m ∈ ms -> load (take (em_len m) (em_data m)) (em_name m) = None) /\
      forall name, p' !! name = match list.last (filter (fun m => em_name m = name) ms) with Some m => Some (chunk_of m) | None => p !! name end
  | inl line => exists m err, m ∈ ms /\ load (take (em_len m) (em_data m)) (em_name m) = Some err
  end.
Proof.
  induction ms as [|m ms IH]; intros p; cbn [load_embedded]; [split; [set_solver | done] |].
  destruct (load (take (em_len m) (em_data m)) (em_name m)) as [err|] eqn:E; [exists m, err; split; [set_solver | done] |].
  specialize (IH (<[em_name m := Chunk (take (em_len m) (em_data m))]> p)). destruct (load_embedded load ms _) as [line|p'].
  - destruct IH as (m' & err & Hin & Hm). exists m', err. split; [set_solver | done].
  - destruct IH as [Hl Hp]. split; [intros m' [-> | Hin]%elem_of_cons; [exact E | by apply Hl] |]. intros name. rewrite Hp, filter_cons.
    destruct (decide (em_name m = name)) as [<-|Hne].
    + destruct (filter _ ms) as [|m' l] eqn:Ef; [cbn; by rewrite lookup_insert_eq |]. rewrite last_cons_cons.
      destruct (proj2 (last_is_Some (m' :: l))) as [x ->]; done.
    + by rewrite lookup_insert_ne.
Qed.

(** Nothing is loaded from a file.  When there is memory and every built-in module
    loads there is a state, and [require] finds a built-in module, the last of the
    name in the table, or else what C opens under the name, and nothing else,
    whatever files there are; otherwise there is no state. *)
Lemma only_built_in made load ms : match qwe_lua_new made load ms with
  | (line, Some pk) => line = None /\ forall exists_ name, require exists_ pk name =
      match list.last (filter (fun m => em_name m = name) ms) with
      | Some m => Some (chunk_of m)
      | None => snd <$> List.find (fun nl => bool_decide (fst nl = name)) natives
      end
  | (_, None) => made = false \/ exists m err, m ∈ ms /\ load (take (em_len m) (em_data m)) (em_name m) = Some err
  end.
Proof.
  unfold qwe_lua_new. destruct made; [| by left]. cbn [negb]. set (p := foldl _ _ _).
  assert (Hp : forall name, p !! name = snd <$> List.find (fun nl => bool_decide (fst nl = name)) natives).
  { intros name. unfold p. unfold natives. cbn [foldl fst snd List.find]. repeat (case_bool_decide; [subst name; cbn [fmap option_fmap option_map snd]; vm_compute; reflexivity |]).
    rewrite !lookup_insert_ne by assumption. apply lookup_empty. }
  pose proof (load_embedded_ok load ms p) as H. destruct (load_embedded load ms p) as [line|p']; [by right |]. split; [done |].
  intros exists_ name. unfold require. cbn [pk_preload pk_path pk_cpath]. rewrite (proj2 H), Hp.
  destruct (list.last _) as [m|]; [done |]. by destruct (List.find _ natives) as [nl|].
Qed.

(** A row: [{name, path, data, sizeof data - 1}]. *)
Definition row_of (name path data : bytes) : qwe_embedded := Embedded name path data (length data - 1).

(** What is loaded from a row of the table that the embedding tool wrote is the dump
    of its module, byte for byte. *)
Lemma embedded_is_dump i dump name path data : array_contents (array_text i dump) = Some data ->
  chunk_of (row_of name path data) = Chunk (concat dump).
Proof.
  rewrite array_text_reads. intros [= <-]. unfold chunk_of, row_of. cbn. rewrite length_app. cbn.
  rewrite Nat.add_sub, take_app_le, take_ge by lia. done.
Qed.
