(* ===== verification/Oom.v ===== *)
(** * The allocator that fails on demand

    Models [src/kernel/oom_shim.c], which the tests link: the nth allocation of the
    process that armed it fails, and the nth of each process forked from it.  The
    theorems say what the convention of this library, that an allocation takes its
    answer from a list, has to do with it. *)

From Stdlib Require Import Ascii String NArith ZArith Lia.
From stdpp Require Import base list strings numbers.
From S2P Require Import Prelude Redact Fmt Setup.

Open Scope nat_scope.
Open Scope list_scope.

(** ** The shim *)

(** The variables of the file; the log of the children is [child_log], empty for
    none. *)
Record shim := Shim {
  armed_pid : Z; fail_at : Z; calls : Z; fired : bool;
  child_fail_at : Z; child_pid : Z; child_calls : Z; child_log : bytes;
}.
#[export] Instance eta_shim : Eta shim := fun s =>
  Shim (armed_pid s) (fail_at s) (calls s) (fired s) (child_fail_at s) (child_pid s) (child_calls s) (child_log s).

Definition shim0 : shim := Shim 0 0 0 false 0 0 0 [].

Definition qwe_oom_arm (me n : Z) (s : shim) : shim := s <| armed_pid := me |> <| fail_at := n |> <| calls := 0%Z |> <| fired := false |>.

Definition qwe_oom_arm_child (me n : Z) (s : shim) : shim :=
  let s := if (armed_pid s =? 0)%Z then s <| armed_pid := me |> else s in
  s <| child_fail_at := n |>.

Definition qwe_oom_child_log (path : option bytes) (s : shim) : shim :=
  s <| child_log := match path with None => [] | Some path => take 511 path end |>.

Definition qwe_oom_count (s : shim) : Z := calls s.
Definition qwe_oom_fired (s : shim) : bool := fired s.

(** Whether the call fails, and whether a line is added to the children's log. *)
Definition should_fail (me : Z) (s : shim) : bool * bool * shim :=
  if (fail_at s =? 0)%Z && (child_fail_at s =? 0)%Z then (false, false, s)
  else if (armed_pid s =? 0)%Z || (me =? armed_pid s)%Z then
    if (fail_at s =? 0)%Z then (false, false, s)
    else
      let s := s <| calls := (calls s + 1)%Z |> in
      if (calls s =? fail_at s)%Z then (true, false, s <| fired := true |>) else (false, false, s)
  else
    let s := if (child_pid s =? me)%Z then s else s <| child_pid := me |> <| child_calls := 0%Z |> in
    if (child_fail_at s =? 0)%Z then (false, false, s)
    else
      let s := s <| child_calls := (child_calls s + 1)%Z |> in
      if (child_calls s =? child_fail_at s)%Z then (true, negb (bool_decide (child_log s = [])), s) else (false, false, s).

(** [__wrap_malloc] and its likes: whether there is memory.  [real]: whether the real
    one has some. *)
Definition wrapped (me : Z) (real : bool) (s : shim) : bool * shim :=
  let '(fails, _, s) := should_fail me s in (negb fails && real, s).

(** Some allocations in a row. *)
Fixpoint answers (me : Z) (reals : list bool) (s : shim) : list bool * shim :=
  match reals with
  | [] => ([], s)
  | real :: reals =>
      let '(ok, s) := wrapped me real s in
      let '(oks, s) := answers me reals s in
      (ok :: oks, s)
  end.

(** ** The site of a failed call *)

Definition hex_digit (n : N) : ascii := match String.get (N.to_nat n) "0123456789abcdef" with Some c => c | None => "?"%char end.

(** The [do] loop, over [char line[24]] from [line[i]] down. *)
Fixpoint hex_loop (fuel : nat) (line : bytes) (i : nat) (off : N) : cres (bytes * nat) :=
  match fuel with
  | 0 => CFuel
  | S fuel =>
      match i with
      | 0 => CUndef
      | S i =>
          line ← cwrite line i (hex_digit (N.land off 15));
          let off := N.shiftr off 4 in
          if (off =? 0)%N then mret (line, i) else hex_loop fuel line i off
      end
  end.

(** What is written to the log. *)
Definition log_site (garbage : bytes) (off : N) : cres bytes :=
  let line := take 24 (garbage ++ replicate 24 "000"%char) in
  line ← cwrite line 23 NL;
  '(line, i) ← hex_loop 16 line 23 off;
  mret (drop i line).

(** ** A run of its own *)

(** [strtol] of [QWE_OOM_PROBE_TIMEOUT], if it is set. *)
Definition oom_probe_timeout_seconds (env : option bytes) : Z :=
  match env with
  | None | Some [] => 30
  | Some s => match whole_number s with Some n => if ((n <=? 0) || (2 ^ 31 - 1 <? n))%Z then 30 else n | None => 30 end
  end.

Inductive ending := ExitedWith (code : Z) | KilledBy (signal : Z).

Record qwe_oom_outcome := Outcome { oc_end : ending; oc_count : Z; oc_fired : bool; oc_err : bytes }.

(** What the reads of the pipe give, up to the one that is empty or fails, into the
    room of [err]. *)
Fixpoint read_err (reads : list bytes) (room : nat) : bytes :=
  match room, reads with
  | 0, _ | _, [] | _, [] :: _ => []
  | _, got :: reads => let got := take room got in got ++ read_err reads (room - length got)
  end.

(** [errp], [cntp]: the pipes, if they could be made; [forked]: whether there is a
    child.  The descriptors the parent closes, in order, and the outcome. *)
Definition qwe_oom_probe (errp cntp : option (Z * Z)) (forked : bool) (reads : list bytes) (report : option (Z * bool)) (how : ending) :
    list Z * option qwe_oom_outcome :=
  match errp with
  | None => ([], None)
  | Some (e0, e1) =>
      match cntp with
      | None => ([e0; e1], None)
      | Some (c0, c1) =>
          if negb forked then ([c0; c1; e0; e1], None)
          else
            let '(count, fired) := default (0%Z, false) report in
            ([e1; c1; e0; c0], Some (Outcome how count fired (read_err reads (8 * 1024 - 1))))
      end
  end.

(** ** Which allocations fail *)

(** All but the nth succeed. *)
Definition nth_fails (n : nat) : list bool := replicate (n - 1) true ++ [false].

(** Answers taken from a list, as the models of this library take them. *)
Fixpoint taken (k : nat) (mem : list bool) : list bool :=
  match k with 0 => [] | S k => let '(ok, mem) := alloc mem in ok :: taken k mem end.

Lemma taken_true k : taken k [] = replicate k true.
Proof. induction k as [|k IH]; [done |]. cbn. by rewrite IH. Qed.

Lemma taken_nth_fails n k : 0 < n -> taken k (nth_fails n) = map (fun i => negb (S i =? n)) (seq 0 k).
Proof.
  intros Hn. unfold nth_fails.
  assert (H : forall m j, taken k (replicate m true ++ [false]) = map (fun i => negb (i - j =? m)) (seq j k)).
  { induction k as [|k IH]; intros m j; [done |]. cbn [taken seq map]. destruct m as [|m]; cbn [replicate app alloc].
    - rewrite taken_true, Nat.sub_diag. f_equal. symmetry. apply (list_eq_same_length _ _ k); [by rewrite length_replicate | by rewrite length_map, length_seq |].
      intros i x y Hi Hx Hy. apply lookup_replicate in Hy as [-> _]. rewrite list_lookup_fmap in Hx. apply fmap_Some in Hx as (v & Hv & ->).
      apply lookup_seq in Hv as [-> _]. destruct (Nat.eqb_spec (S j + i - j) 0); [lia | done].
    - rewrite (IH m (S j)), Nat.sub_diag. cbn. f_equal. apply map_ext_in. intros i Hi. apply in_seq in Hi. f_equal.
      destruct (Nat.eqb_spec (i - S j) m), (Nat.eqb_spec (i - j) (S m)); lia || done. }
  rewrite (H (n - 1) 0). apply map_ext. intros i. rewrite Nat.sub_0_r. f_equal. destruct (Nat.eqb_spec i (n - 1)), (Nat.eqb_spec (S i) n); lia || done.
Qed.

Lemma shifted c n k : map (fun i => negb (c + 1 + Z.of_nat (S i) =? n)%Z) (seq 0 k) = map (fun i => negb (c + Z.of_nat (S i) =? n)%Z) (seq 1 k).
Proof. rewrite <- seq_shift, map_map. apply map_ext. intros i. do 2 f_equal. lia. Qed.

(** The answers of the shim from its [c]th call on. *)
Lemma answers_armed me n reals : (0 < n)%Z -> forall s, armed_pid s = me -> fail_at s = n ->
  answers me reals s = (zip_with andb (map (fun i => negb (calls s + Z.of_nat (S i) =? n)%Z) (seq 0 (length reals))) reals,
    s <| calls := (calls s + Z.of_nat (length reals))%Z |> <| fired := fired s || ((calls s <? n) && (n <=? calls s + Z.of_nat (length reals)))%Z |>).
Proof.
  intros Hn. induction reals as [|real reals IH]; intros s Ea Ef; cbn [answers length seq map zip_with].
  - f_equal. destruct s; cbn in *. rewrite Z.add_0_r. destruct (Z.ltb_spec calls0 n), (Z.leb_spec n calls0); try lia; cbn; by rewrite orb_false_r.
  - unfold wrapped, should_fail. rewrite Ea, Ef, Z.eqb_refl, orb_true_r. destruct (Z.eqb_spec n 0); [lia |]. cbn [andb].
    destruct s as [pid fa cs fd cf cp cc cl]; cbn in *. subst pid fa. rewrite <- (shifted cs n). change (cs + Z.of_nat 1)%Z with (cs + 1)%Z.
    destruct (Z.eqb_spec (cs + 1) n) as [E|E]; cbn; rewrite IH by done; cbn; f_equal.
    + replace (cs + Z.of_nat (S (length reals)))%Z with (cs + 1 + Z.of_nat (length reals))%Z by lia.
      assert (Eb : fd || (cs <? n)%Z && (n <=? cs + 1 + Z.of_nat (length reals))%Z = true); [| by rewrite Eb].
      apply orb_true_iff. right. apply andb_true_iff. split; [apply Z.ltb_lt | apply Z.leb_le]; lia.
    + replace (cs + Z.of_nat (S (length reals)))%Z with (cs + 1 + Z.of_nat (length reals))%Z by lia.
      assert (Eb : (cs + 1 <? n)%Z && (n <=? cs + 1 + Z.of_nat (length reals))%Z = (cs <? n)%Z && (n <=? cs + 1 + Z.of_nat (length reals))%Z); [| by rewrite Eb].
      destruct (Z.ltb_spec (cs + 1) n), (Z.ltb_spec cs n), (Z.leb_spec n (cs + 1 + Z.of_nat (length reals))); lia || done.
Qed.

(** The same in a process forked from the one that armed it. *)
Lemma answers_child me n reals : (0 < n)%Z -> forall s, armed_pid s <> 0%Z -> armed_pid s <> me -> child_fail_at s = n -> child_pid s = me ->
  fst (answers me reals s) = zip_with andb (map (fun i => negb (child_calls s + Z.of_nat (S i) =? n)%Z) (seq 0 (length reals))) reals.
Proof.
  intros Hn. induction reals as [|real reals IH]; intros s Ha Hne Ef Ep; cbn [answers length seq map zip_with]; [done |].
  destruct s as [pid fa cs fd cf cp cc cl]; cbn in Ha, Hne, Ef, Ep. subst cf cp. cbn [child_calls].
  set (t := Shim pid fa cs fd n me (cc + 1) cl). assert (IHt := IH t Ha Hne eq_refl eq_refl). cbn [child_calls t] in IHt.
  rewrite <- (shifted cc n). change (cc + Z.of_nat 1)%Z with (cc + 1)%Z.
  assert (Ew : wrapped me real (Shim pid fa cs fd n me cc cl) = (negb (cc + 1 =? n)%Z && real, t)).
  { unfold wrapped, should_fail. cbn [fail_at child_fail_at armed_pid child_pid]. rewrite Z.eqb_refl. destruct (Z.eqb_spec n 0); [lia |]. rewrite andb_false_r.
    destruct (Z.eqb_spec pid 0); [done |]. destruct (Z.eqb_spec me pid); [congruence |]. cbn. destruct (Z.eqb_spec n 0); [lia |]. by destruct (Z.eqb_spec (cc + 1) n). }
  rewrite Ew. destruct (answers me reals t) as [oks s']. cbn [fst] in *. by rewrite IHt.
Qed.

(** Running with the shim armed is running with a list of answers: the calls of the
    process that armed it at n, and the calls of each process forked from it with the
    children's n, get the answers that a model of this library takes from the list in
    which all but the nth succeed; the count is that of the calls, and the shim has
    fired exactly when there were n. *)
Theorem shim_is_a_list me n k s : (0 < n)%Z ->
  (let '(oks, s') := answers me (replicate k true) (qwe_oom_arm me n s) in
   oks = taken k (nth_fails (Z.to_nat n)) /\ qwe_oom_count s' = Z.of_nat k /\ (qwe_oom_fired s' = true <-> (n <= Z.of_nat k)%Z)) /\
  (forall child, armed_pid s <> 0%Z -> armed_pid s <> child -> child_pid s <> child ->
   fst (answers child (replicate k true) (qwe_oom_arm_child me n s)) = taken k (nth_fails (Z.to_nat n))).
Proof.
  intros Hn.
  assert (Hz : forall oks : list bool, length oks = k -> zip_with andb oks (replicate k true) = oks).
  { clear. induction k as [|k IH]; intros [|b oks] E; try done. cbn. rewrite andb_true_r, IH; [done |]. by injection E. }
  assert (Hl : map (fun i => negb (Z.of_nat (S i) =? n)%Z) (seq 0 k) = taken k (nth_fails (Z.to_nat n))).
  { rewrite taken_nth_fails by lia. apply map_ext. intros i. f_equal. destruct (Z.eqb_spec (Z.of_nat (S i)) n), (Nat.eqb_spec (S i) (Z.to_nat n)); lia || done. }
  split.
  - rewrite (answers_armed me n) by done. cbn. rewrite length_replicate, Hz by (by rewrite length_map, length_seq). split; [exact Hl |]. split; [done |].
    destruct (Z.ltb_spec 0 n), (Z.leb_spec n (Z.of_nat k)); split; intros; lia || done.
  - intros child Ha Hne Hp. unfold qwe_oom_arm_child. destruct (Z.eqb_spec (armed_pid s) 0); [done |].
    destruct k as [|k]; [done |].
    (* the first call of the child starts its count *)
    assert (H1 : answers child (replicate (S k) true) (s <| child_fail_at := n |>) =
      answers child (replicate (S k) true) (s <| child_fail_at := n |> <| child_pid := child |> <| child_calls := 0%Z |>)).
    { cbn [answers replicate]. unfold wrapped, should_fail. destruct s as [pid fa cs fd cf cp cc cl]; cbn in *.
      destruct (Z.eqb_spec n 0); [lia |]. rewrite andb_false_r. destruct (Z.eqb_spec pid 0); [done |]. destruct (Z.eqb_spec child pid); [congruence |]. cbn.
      destruct (Z.eqb_spec cp child); [done |]. by rewrite Z.eqb_refl. }
    rewrite H1, (answers_child child n) by done. rewrite length_replicate, Hz by (by rewrite length_map, length_seq). rewrite <- Hl. done.
Qed.

Lemma shim_is_a_list_witness : (0 < 2)%Z /\ fst (answers 7 [true; true; true] (qwe_oom_arm 7 2 shim0)) = [true; false; true].
Proof.
  split; [lia |]. pose proof (shim_is_a_list 7 2 3 shim0 ltac:(lia)) as [H _]. vm_compute. reflexivity.
Defined.

(** ** The line of a site *)

Definition hex_value (c : ascii) : N := let n := N_of_ascii c in if (n <? 58)%N then (n - 48)%N else (n - 87)%N.

Lemma hex_digit_value n : (n < 16)%N -> hex_value (hex_digit n) = n.
Proof. intros H. destruct n as [|p]; [done |]. do 5 (destruct p as [p|p|]; try lia; try done). Qed.

Lemma hex_loop_ok fuel : forall line i off, length line = 24 -> i <= 23 -> (off < 16 ^ N.of_nat fuel)%N -> 0 < fuel -> fuel <= i ->
  exists line' i' ds, hex_loop fuel line i off = CRet (line', i') /\ length line' = 24 /\ 1 <= length ds <= fuel /\ drop i' line' = ds ++ drop i line /\
    foldl (fun n c => 16 * n + hex_value c)%N 0%N ds = off.
Proof.
  induction fuel as [|fuel IH]; intros line i off Hl Hi Ho Hf Hfi; [lia |]. destruct i as [|i]; [lia |]. cbn [hex_loop].
  rewrite cwrite_ok by lia. cstep. change 15%N with (N.ones 4). rewrite N.land_ones, N.shiftr_div_pow2. change (2 ^ 4)%N with 16%N.
  set (d := hex_digit (off mod 16)). assert (Hd : hex_value d = (off mod 16)%N) by (apply hex_digit_value, N.mod_lt; lia).
  set (line1 := <[i := d]> line). assert (Hl1 : length line1 = 24) by (unfold line1; by rewrite length_insert).
  assert (Hdrop : drop i line1 = d :: drop (S i) line).
  { unfold line1. rewrite insert_take_drop by lia. rewrite drop_app_ge; rewrite length_take; [| lia]. by replace (i - i `min` length line) with 0 by lia. }
  pose proof (N.div_mod off 16 ltac:(lia)) as Hdm.
  destruct (N.eqb_spec (off / 16) 0) as [E0|E0].
  - exists line1, i, [d]. split_and!; [done | done | simpl; lia | simpl; lia | done |]. cbn [foldl]. rewrite Hd. lia.
  - destruct fuel as [|fuel].
    { exfalso. apply E0. apply N.div_small. simpl in Ho. lia. }
    destruct (IH line1 i (off / 16)%N Hl1) as (line' & i' & ds & -> & Hl' & Hi' & Ed & Ev); [lia | | lia | lia |].
    { apply N.Div0.div_lt_upper_bound. rewrite <- N.pow_succ_r'. rewrite <- Nat2N.inj_succ. exact Ho. }
    exists line', i', (ds ++ [d]). split_and!; [done | done | rewrite length_app; simpl; lia | rewrite length_app; simpl; lia | by rewrite Ed, Hdrop, <- app_assoc |].
    rewrite foldl_app, Ev. cbn [foldl]. rewrite Hd. lia.
Qed.

(** The offset of a failed call is written whole, in the room there is, as one line of
    hexadecimal digits that read back as it. *)
Lemma log_site_reads_back garbage off : (off < w64)%N -> exists ds, log_site garbage off = CRet (ds ++ [NL]) /\ 1 <= length ds <= 16 /\
  foldl (fun n c => 16 * n + hex_value c)%N 0%N ds = off.
Proof.
  intros Ho. unfold log_site. set (line := take 24 _). assert (Hl : length line = 24) by (unfold line; rewrite length_take, length_app, length_replicate; lia).
  rewrite cwrite_ok by lia. cstep. set (line1 := <[23 := NL]> line).
  assert (Hl1 : length line1 = 24) by (unfold line1; by rewrite length_insert).
  destruct (hex_loop_ok 16 line1 23 off Hl1) as (line' & i & ds & -> & _ & Hds & Ed & Ev); [lia | exact Ho | lia | lia |].
  cstep. exists ds. split_and!; [| lia | lia | exact Ev]. rewrite Ed. do 2 f_equal.
  unfold line1. rewrite insert_take_drop by lia. rewrite drop_app_ge; rewrite length_take; [| lia]. replace (23 - 23 `min` length line) with 0 by lia. cbn [drop].
  by rewrite drop_ge by lia.
Qed.

(** ** A probe *)

(** What arrives on the pipe until it ends. *)
Fixpoint printed (reads : list bytes) : bytes := match reads with [] | [] :: _ => [] | got :: reads => got ++ printed reads end.

Lemma read_err_printed reads : forall room, read_err reads room = take room (printed reads).
Proof.
  induction reads as [|[|c got] reads IH]; intros [|room]; try done. cbn [read_err printed]. rewrite IH.
  rewrite take_app, length_take. f_equal. destruct (Nat.le_gt_cases (S room) (length (c :: got))) as [H|H].
  - rewrite Nat.min_l by lia. replace (S room - S room) with 0 by lia. by replace (S room - length (c :: got)) with 0 by lia.
  - by rewrite Nat.min_r by lia.
Qed.

(** The parent closes what it opened, once each, whatever fails; there is an outcome
    exactly when there was a child, and its text is what the child printed first, cut
    to the room there is. *)
Lemma probe_closes errp cntp forked reads report how :
  let '(closed, outcome) := qwe_oom_probe errp cntp forked reads report how in
  closed ≡ₚ concat (map (fun p => [fst p; snd p]) (match errp with None => [] | Some p => p :: option_list cntp end)) /\
  (is_Some outcome <-> is_Some errp /\ is_Some cntp /\ forked = true) /\
  forall o, outcome = Some o -> oc_err o = take (8 * 1024 - 1) (printed reads) /\ oc_end o = how.
Proof.
  unfold qwe_oom_probe. destruct errp as [[e0 e1]|]; [| split_and!; [done | split; [by intros [? ?] | by intros ([? ?] & _)] | done] ].
  destruct cntp as [[c0 c1]|]; [| split_and!; [done | split; [by intros [? ?] | by intros (_ & [? ?] & _)] | done] ].
  destruct forked; cbn [negb].
  - destruct (default (0%Z, false) report) as [count fired]. split_and!; [cbn; solve_Permutation | split; [eauto | by eexists] |]. intros o [= <-]. by rewrite <- read_err_printed.
  - split_and!; [cbn; solve_Permutation | split; [by intros [? ?] | by intros (_ & _ & ?)] | done].
Qed.

(** With only the children's n set the allocations of the process itself are not
    counted, though the count is that of the allocations made since it was armed. *)
Lemma count_needs_arm me m reals s : qwe_oom_count (snd (answers me reals (qwe_oom_arm_child me m (qwe_oom_arm me 0 s)))) = 0%Z.
Proof.
  assert (H : forall t, armed_pid t = me -> fail_at t = 0%Z -> calls t = 0%Z -> calls (snd (answers me reals t)) = 0%Z).
  { induction reals as [|real reals IH]; intros t Ha Hf Hc; [done |]. cbn [answers]. unfold wrapped, should_fail. rewrite Ha, Hf, (Z.eqb_refl me), orb_true_r, (Z.eqb_refl 0). cbn [andb].
    destruct (child_fail_at t =? 0)%Z; specialize (IH t Ha Hf Hc); by destruct (answers me reals t). }
  unfold qwe_oom_arm_child. destruct s as [pid fa cs fd cf cp cc cl]; cbn. destruct (Z.eqb_spec me 0) as [->|]; by apply H.
Qed.
