(* ===== verification/Alloc.v ===== *)
(** * Memory that must be there, and the texts of errors

    Models [src/kernel/alloc.c] and [errstr.c]: the allocations after which the
    process does not go on without memory, and [qwe_strerror].  (Where an allocation
    is one of these the rest of the library gives it no answer that fails.) *)

From Stdlib Require Import Ascii String NArith ZArith Lia.
From stdpp Require Import base list strings numbers.
From S2P Require Import Prelude Cstr Fmt Setup.

Open Scope nat_scope.
Open Scope list_scope.

(** ** Allocations that abort *)

(** What [die] prints before it aborts. *)
Definition die_text (file : bytes) (line : Z) (n : N) : bytes :=
  file ++ bytes_of ":" ++ dec line ++ bytes_of ": out of memory (" ++ dec (Z.of_N n) ++ bytes_of " bytes)" ++ [NL].

(** An allocation: the block, or the line on stderr and [abort]. *)
Inductive allocated := Allocated (b : bytes) | Died (line : bytes).

(** [have]: what the allocator gives for a size, [None] if nothing. *)
Definition qwe_xmalloc_at (have : N -> option bytes) (n : N) (file : bytes) (line : Z) : allocated :=
  match have (if (n =? 0)%N then 1%N else n) with Some b => Allocated b | None => Died (die_text file line n) end.

(** [calloc] checks the product of what it is given; the product in the message may
    wrap. *)
Definition qwe_xcalloc_at (have : N -> N -> option bytes) (n size : N) (file : bytes) (line : Z) : allocated :=
  match have (if (n =? 0)%N then 1%N else n) (if (size =? 0)%N then 1%N else size) with
  | Some b => Allocated b
  | None => Died (die_text file line (wrap64 (n * size)))
  end.

Definition qwe_xrealloc_at (have : N -> option bytes) (n : N) (file : bytes) (line : Z) : allocated := qwe_xmalloc_at have n file line.

(** [memcpy] of the text and its NUL over the block. *)
Definition qwe_xstrdup_at (have : N -> option bytes) (s file : bytes) (line : Z) : cres allocated :=
  let n := S (length s) in
  match qwe_xmalloc_at have (N.of_nat n) file line with
  | Died l => mret (Died l)
  | Allocated b => if n <=? length b then mret (Allocated ((s ++ [zero]) ++ drop n b)) else CUndef
  end.

(** ** Texts of errors *)

(** [strerror_r] into [char buf[64]]: the text of the system, if there is one that
    fits. *)
Definition qwe_strerror (text : option bytes) (err : Z) : cres bytes :=
  match text with
  | Some t => if length t <? 64 then mret t else qwe_xfmt 64 (bytes_of "Unknown error " ++ dec err)
  | None => qwe_xfmt 64 (bytes_of "Unknown error " ++ dec err)
  end.

(** ** What they promise *)

(** An allocator gives as many bytes as it was asked for. *)
Definition gives (have : N -> option bytes) : Prop := forall n b, have n = Some b -> N.of_nat (length b) = n.

(** A copy is the text; without memory the process ends and says how much it wanted
    and where. *)
Lemma xstrdup_copies have s file line : gives have -> exists r, qwe_xstrdup_at have s file line = CRet r /\
  match r with
  | Allocated b => b = s ++ [zero]
  | Died l => have (N.of_nat (S (length s))) = None /\ l = die_text file line (N.of_nat (S (length s)))
  end.
Proof.
  intros Hg. unfold qwe_xstrdup_at, qwe_xmalloc_at. destruct (N.eqb_spec (N.of_nat (S (length s))) 0); [lia |].
  destruct (have (N.of_nat (S (length s)))) as [b|] eqn:E; [| by eexists].
  apply Hg in E. destruct (Nat.leb_spec (S (length s)) (length b)); [| lia]. eexists. split; [reflexivity |]. cbn. rewrite drop_ge by lia. apply app_nil_r.
Qed.

(** Nothing is never asked for: a size of 0 is one of 1, so that NULL means no
    memory. *)
Lemma xmalloc_nonempty have n file line b : gives have -> qwe_xmalloc_at have n file line = Allocated b -> b <> [].
Proof.
  intros Hg. unfold qwe_xmalloc_at. destruct (have _) as [b'|] eqn:E; [| done]. intros [= <-] ->. apply Hg in E. cbn in E.
  destruct (N.eqb_spec n 0); lia.
Qed.

(** There is always a text, and it fits. *)
Lemma strerror_fits text err : (- 2 ^ 31 <= err < 2 ^ 31)%Z -> exists t, qwe_strerror text err = CRet t /\ length t < 64 /\ (text = Some t \/ t = bytes_of "Unknown error " ++ dec err).
Proof.
  intros He. assert (Hf : length (bytes_of "Unknown error " ++ dec err) < 64).
  { destruct (dec_bounded 10 err) as [_ Hd]; [lia | lia |]. rewrite length_app, length_bytes_of. cbn [String.length]. lia. }
  unfold qwe_strerror. destruct text as [t|]; [destruct (Nat.ltb_spec (length t) 64) |].
  - exists t. split_and!; [done | done | by left].
  - rewrite qwe_xfmt_fits by done. eexists. split_and!; [done | done | by right].
  - rewrite qwe_xfmt_fits by done. eexists. split_and!; [done | done | by right].
Qed.
